(* ===== verification/_CoqProject ===== *)
-Q . S2P
Prelude.v
Kernel.v
Machine.v
MutexSpec.v
SharedSpec.v
Futex.v
Backoff.v
ParkingMutex.v
TicketMutex.v
ParkingSemaphore.v
ManualResetEvent.v
AutoResetEvent.v
Spinlock.v
AsyncMutex.v
AtomicWait.v
UnsignedWait.v
PortableFutex.v
Syscall.v
Win32Mutex.v
SystemLock.v
SystemRwlock.v
SharedLibrary.v
Pthread.v
PthreadPolicies.v
NativeSemaphore.v
SemaphoreTime.v
NativeEvent.v
NativeEventPlatforms.v
NativeManualEvent.v
ScopedFd.v
AsyncOp.v
AsyncSupport.v
AsioAcquire.v
AsioFuture.v
DispatchAcquire.v
DispatchFuture.v
QtAcquire.v
AsyncStart.v
QtFuture.v
AsyncLibrary.v
MutexClient.v
AsyncSystem.v
AsyncTokens.v
AsyncHandle.v
MutexLibrary.v
Policies.v
LockedObject.v
GuardCopies.v
