(* ===== verification/Prelude.v ===== *)
(** * nova_sync: a verification development

    nova_sync is a C++20 library of synchronisation primitives: mutexes,
    semaphores and events that park threads on a futex, or on a kernel object
    whose native handle an event loop can watch, with wrappers around the
    primitives of the platforms, and [locked_object], a value paired with the
    mutex that guards it.  The headers are under src/include/nova/sync/, the
    out-of-line methods under src/source/nova/sync/.

    ** How the code is modelled

    A primitive that threads share is an interleaving machine ([Machine.v]): the
    shared state is what the class keeps, a thread's local state is its program
    point with the local variables of the method it runs, and one step performs
    one atomic operation of the source: an atomic load, store, exchange or
    fetch-and-add, a system call, or the return from one.  [tstep] is the step
    function; it takes a choice of the environment, the method a client calls
    next, whether a weak compare-exchange fails spuriously, and how a system call
    ends (woken, spuriously woken, interrupted, timed out, failed).  The theorems
    about a machine quantify over all reachable configurations of any number of
    threads, so over all schedules, all clients and all such choices.  The number
    of threads is bounded only where the code's words are: 2^31 - 2 waiters for a
    32-bit word with a lock bit, 2^32 tickets, 2^30 - 1 readers.  Words have their
    width: [u32], [i32], [u64] below write out the wrap-around.

    Memory is sequentially consistent: the [memory_order] arguments are not
    modelled.  FUTEX_WAKE takes sleepers in the order in which they went to sleep.

    Code that is not the library's is a parameter: the kernel objects are the
    classes of [Kernel.v], with their documented behaviour as classes of laws and
    instances for the witnesses; the mutex of a [locked_object] is a class
    likewise; the system calls of the sequential models act on a world.

    A loop of a sequential model that the source bounds by the outside world only
    takes fuel; its theorem states how much is enough, in terms of a measure of
    the world (how often it may still interrupt a call), and that the result is
    then there.

    ** The files

    - [Prelude.v] (this file): machine integers, bit lemmas, counting the threads
      at a program point, tactics.
    - [Kernel.v]: the kernel objects: [Notifier] (eventfd, kqueue) and [Counter]
      (semaphores), with laws.
    - [Machine.v]: configurations, steps, reachability, rule induction for
      invariants, schedules, and runs of a thread alone.
    - [MutexSpec.v]: what a mutex promises, as a class; with it, critical sections on
      plain data are atomic.
    - [SharedSpec.v]: likewise what a reader-writer mutex promises.  It refines the
      abstract reader-writer lock, and a value behind it is read in one version and
      updated atomically.
    - [Futex.v]: the futex word with its queue of sleepers; [atomic_wait],
      [atomic_wait_until] and the notifications of futex/atomic_wait.cpp as steps.
      Every parking primitive uses it.
    - [Backoff.v]: [exponential_backoff] and
      [run_with_exponential_backoff_until] of detail/backoff.hpp, with the number
      of turns the loop makes.
    - [ParkingMutex.v]: mutex/parking_mutex.hpp and .cpp.  The four classes are
      one machine with two flags.  Exclusion with an exact count of the waiters in
      the word, no lost wakeup, progress, and a quiescent mutex is clean.
    - [TicketMutex.v]: mutex/ticket_mutex.hpp and .cpp.  Exclusion, first-in
      first-out order and progress, with the tickets wrapping around.
    - [ParkingSemaphore.v]: semaphore/parking_semaphore.hpp, the untimed and the
      timed class as one machine.  Accounting of tokens; no over-acquisition for
      the untimed class, and a schedule where the timed one over-acquires.
    - [ManualResetEvent.v], [AutoResetEvent.v]:
      event/parking_manual_reset_event.hpp, event/parking_auto_reset_event.hpp.
      No lost wakeup, what the results mean, tokens against waits.
    - [Spinlock.v]: mutex/spinlock_mutex.hpp and .cpp; a Module for the plain, the
      recursive and the shared family.  Exclusion, the recursion count, the
      writer's progress.
    - [AsyncMutex.v]: the fast mutexes of mutex/eventfd_mutex.hpp and .cpp and
      mutex/kqueue_mutex.hpp and .cpp with support/async_waiter_guard.hpp, on a
      [Notifier]: a thread of the machine is a thread or an event-loop client with
      a guard.  Exclusion with an exact count of the registrations, no lost wakeup.
    - [AtomicWait.v]: the four platforms of futex/atomic_wait.cpp again, now
      sequentially, in a world of loads and system calls: return values, time
      conversions, termination.
    - [UnsignedWait.v]: the overloads of futex/atomic_wait.hpp for unsigned words
      are the waits that compare unsigned values.
    - [PortableFutex.v]: the portable platform of futex/atomic_wait.cpp with
      threads: words that share the mutex and condition variable of a bucket, and
      stores that take neither.  No lost wakeup for clients that notify all; a
      notification of one can wake the wrong sleeper.
    - [Syscall.v]: detail/syscall.hpp and detail/timed_wait.cpp: the retry loops
      around interrupted calls, [write_intr], and the timed waits of the three
      platforms.
    - [NativeSemaphore.v]: the semaphores of semaphore/ that are a kernel counter, with
      the conversions of their counts and the posts that the kernel refuses, the plain
      eventfd and kqueue mutexes, and the kqueue semaphore.
    - [SemaphoreTime.v]: the timed acquisitions of those semaphores, sequentially:
      what their time-outs and deadlines become, in 64-bit nanoseconds, and how often
      they try.
    - [Win32Mutex.v]: mutex/win32_mutex.hpp and .cpp, mutex/win32_event_mutex.hpp and
      .cpp: a semaphore with one token, and an event for event loops.  Exclusion; no
      lost wakeup if woken event loops try to acquire, and what happens otherwise.
    - [SystemLock.v]: the mutexes whose methods are a call of the system each,
      win32_srw_mutex.hpp, win32_critical_section_mutex.hpp and the pthread and Apple
      ones again, as one machine on a lock with its documented behaviour.  Exclusion
      where the blocking call cannot fail; [lock()] ignores a failure, and that breaks it.
    - [SystemRwlock.v]: both sides of pthread_rwlock_mutex.hpp, with the timed
      attempts, as a machine on a reader-writer lock of the system; the same holds of
      its errors.
    - [Pthread.v]: the wrappers pthread_mutex.hpp, pthread_rwlock_mutex.hpp,
      pthread_spinlock_mutex.hpp and apple_os_unfair_mutex.hpp of mutex/: the calls,
      the deadlines, the attributes.  The timed attempts terminate on Linux and pass
      exactly their deadline.
    - [PthreadPolicies.v]: the policies of pthread_mutex: which packs are accepted,
      and that the attributes of [Pthread.v] are exactly those they ask for.
    - [NativeEvent.v], [NativeEventPlatforms.v]: event/native_auto_reset_event.hpp
      and .cpp on Linux and on Apple platforms, and on pipes and on Windows.
    - [NativeManualEvent.v]: event/native_manual_reset_event.hpp and .cpp on all
      platforms.  It refines a flag, and loses no wakeup.
    - [ScopedFd.v]: [scoped_file_descriptor] and [scoped_handle] of
      detail/native_handle_support.hpp, on programs of any number of objects.  Every
      descriptor is closed exactly once.
    - [AsyncOp.v]: what the asynchronous operations of the support/ headers have in
      common: results, the ledger of what an operation took, registered and
      delivered, and the protocol of the waiter guard.  The operations are machines:
      [AsioAcquire.v] for Boost.Asio, [DispatchAcquire.v] for libdispatch and [QtAcquire.v] for Qt, each for
      mutexes, semaphores and events, with cancellation.  The handler is called once,
      with success exactly if the lock or token was taken; for Boost.Asio on Windows,
      where the kernel's wait takes the token, which cancelled operations lose it.
    - [AsyncSupport.v]: the helpers that call a handler with the expected type it takes
      (the async_support.hpp headers), and async_waiter_guard, over any mutex: what
      stays registered when a scope ends.
    - [AsyncStart.v]: the functions that start an operation, as one call each; each is
      a run of the operation's machine, and all of them do the same.
    - [AsioFuture.v], [DispatchFuture.v], [QtFuture.v]: the overloads that return a
      future: where the promise is, and that it is satisfied at most once.
    - [AsyncLibrary.v]: the three event loops, on POSIX systems, as instances of one
      class: what every operation promises its caller.
    - [MutexClient.v]: what the operations promise the mutex they wait for, as a
      class: every call is one that the protocol of the guard allows, one at a time,
      and a result that was delivered says what the operation keeps.
    - [AsyncSystem.v]: the composition: threads and any number of operations, on any
      of the event loops, on one mutex of [AsyncMutex.v].  Exclusion, what each
      operation has in the mutex, no lost wakeup, and event loops never block.
    - [AsyncTokens.v]: the same for semaphores: the calls of the operations act on the
      counter, and the tokens are accounted for through acquisition and cancellation.
    - [AsyncHandle.v]: the handles that cancel operations: no operation is out of
      reach uncancelled.
    - [MutexLibrary.v]: the mutexes whose [lock()] returns only with the lock, as
      instances of [MutexSpec]: what [MutexSpec.v] proves holds of each.
    - [SharedLibrary.v]: the reader-writer mutexes as instances of [SharedSpec].
    - [Policies.v]: mutex/policies.hpp, the templates that choose a class, the
      concepts, and the aliases for the platforms: what is decided when the library
      is compiled.
    - [LockedObject.v]: thread_safety/locked_object.hpp and annotations.hpp:
      objects in a heap, guards in slots, a client as any sequence of operations
      on them; and concurrent [lock_and] calls as a machine.  Guards account for
      the mutex exactly, an exclusive guard is alone, [lock_and] is atomic, and the
      callable runs under the lock, which it can observe.
    - [GuardCopies.v]: what these headers write more than once, translated as it
      stands: the second guard class, the const and shared members, the second
      adapter; the copies agree.

    ** How the parts are put together

    [MutexSpec] and [SharedSpec] are the interfaces between primitives and clients.  A
    file of a primitive proves its invariant; [MutexLibrary.v] and [SharedLibrary.v]
    discharge the interface for every primitive that keeps it, with the bounds of its
    words as [fits] and what it asks of its environment as [env]; the clients (critical
    sections, readers and writers) are proved once, against the interface, at the
    granularity of the single steps of the primitive.  What does not keep the promise is
    not an instance: the plain [kqueue_mutex], whose [lock()] returns without the mutex
    after a signal, and the wrappers of POSIX locks where the system reports an error;
    their files have the schedules that show it, and so have those of the timed parking
    semaphore and auto-reset event and of [kqueue_semaphore], which over-acquire.
    [AsyncSystem.v] composes the mutexes for event loops with the operations of the loops.

    Each file gives data and operations first, named as in the source, then the
    invariant, its preservation and the theorems; a theorem with hypotheses is
    followed, in the same Module, by a witness that applies it to a concrete
    schedule or world.  Theorems whose comment carries a number C<n> are the
    properties of the manifest; the other theorems of the same style are
    schedules that show where the code departs from what its comments promise.

    ** What is not modelled

    - Memory: the lifetime of objects, reference counts and cycles of
      [std::shared_ptr], moved-from objects other than the handles, guards and
      promises.  Exceptions thrown by a handler of an asynchronous operation, and
      the failure of [duplicate_native_handle] on Boost.Asio.
    - thread_safety/macros.hpp, detail/compat.hpp and detail/pause.hpp: attributes for
      the compiler and the pause instruction.
    - The memory of the handles and operations that the event loops own, and the
      fairness of the scheduler: progress is stated for threads that run.
    - In [AsyncSystem.v], that the reactor reports the kernel object readable: the
      no-lost-wakeup theorem says that the object is ready.
    - The clients, critical sections and readers and writers of a value, are not code
      of the library.
    - The Windows notifier of Qt, which waits for the handle of a semaphore or event
      itself: [QtAcquire.v] has the notifier of POSIX systems.
    - fast_mutex.cpp, fair_mutex.cpp and win32_critical_section_mutex.cpp: not part of
      the build. *)
From stdpp Require Export base tactics list option relations.
From Stdlib Require Export ZArith Lia Bool.

#[local] Open Scope Z_scope.

(** ** Machine integers *)

(** [std::uint32_t] arithmetic wraps modulo 2^32. *)
Definition u32 (x : Z) : Z := x mod 2 ^ 32.

(** [std::int32_t] atomics wrap in two's complement. *)
Definition i32 (x : Z) : Z := (x + 2 ^ 31) mod 2 ^ 32 - 2 ^ 31.
Definition i64 (x : Z) : Z := (x + 2 ^ 63) mod 2 ^ 64 - 2 ^ 63.

(** [~1u] on a 32-bit word. *)
Definition not_one : Z := 2 ^ 32 - 2.

Lemma u32_small x : 0 <= x < 2 ^ 32 -> u32 x = x.
Proof. intros. unfold u32. apply Z.mod_small; lia. Qed.

Lemma u32_range x : 0 <= u32 x < 2 ^ 32.
Proof. unfold u32. apply Z.mod_pos_bound. lia. Qed.

(** Two numbers less than 2^32 apart with the same residue are equal. *)
Lemma u32_inj a b : u32 a = u32 b -> - 2 ^ 32 < a - b < 2 ^ 32 -> a = b.
Proof. unfold u32. intros H Hab. Z.div_mod_to_equations. lia. Qed.

Lemma u32_add_l a b : u32 (u32 a + b) = u32 (a + b).
Proof. unfold u32. by rewrite Z.add_mod_idemp_l by lia. Qed.

(** [std::size_t] and [std::uint64_t] arithmetic. *)
Definition u64 (x : Z) : Z := x mod 2 ^ 64.

Lemma u64_small x : 0 <= x < 2 ^ 64 -> u64 x = x.
Proof. intros. unfold u64. apply Z.mod_small; lia. Qed.

Lemma i64_small x : - 2 ^ 63 <= x < 2 ^ 63 -> i64 x = x.
Proof. intros H. unfold i64. rewrite Z.mod_small; lia. Qed.

Lemma i32_small x : - 2 ^ 31 <= x < 2 ^ 31 -> i32 x = x.
Proof. intros. unfold i32. rewrite Z.mod_small; lia. Qed.

Lemma i32_range x : - 2 ^ 31 <= i32 x < 2 ^ 31.
Proof. unfold i32. pose proof (Z.mod_pos_bound (x + 2 ^ 31) (2 ^ 32)). lia. Qed.

Lemma i32_le x : 0 <= x -> i32 x <= x.
Proof. intros Hx. unfold i32. pose proof (Z.mod_le (x + 2 ^ 31) (2 ^ 32)). lia. Qed.

(** ** Bit 0 of a word: [x & 1], [x | 1] and [x & ~1u] *)

Lemma land_one x : Z.land x 1 = x mod 2.
Proof. change 1 with (Z.ones 1). rewrite Z.land_ones by lia. reflexivity. Qed.

Lemma lor_one x : Z.lor x 1 = x + 1 - x mod 2.
Proof.
  pose proof (Z.add_lor_land x 1) as H. rewrite land_one in H. lia.
Qed.

(** [~m] on a 32-bit word. *)
Definition not32 (m : Z) : Z := Z.lxor (Z.ones 32) m.

Lemma land_not32 x m : 0 <= x < 2 ^ 32 -> Z.land x (not32 m) = x - Z.land x m.
Proof.
  intros Hx. unfold not32.
  assert (Z.land x (Z.lxor (Z.ones 32) m) = Z.lxor (Z.land x (Z.ones 32)) (Z.land x m)) as ->.
  { apply Z.bits_inj'. intros n Hn.
    rewrite !Z.land_spec, !Z.lxor_spec, !Z.land_spec.
    destruct (Z.testbit x n), (Z.testbit (Z.ones 32) n), (Z.testbit m n); reflexivity. }
  rewrite Z.land_ones, Z.mod_small by lia.
  rewrite Z.sub_nocarry_ldiff.
  - apply Z.bits_inj'. intros n Hn.
    rewrite Z.ldiff_spec, Z.lxor_spec, Z.land_spec.
    destruct (Z.testbit x n), (Z.testbit m n); reflexivity.
  - apply Z.bits_inj'. intros n Hn.
    rewrite Z.ldiff_spec, Z.land_spec, Z.bits_0.
    destruct (Z.testbit x n), (Z.testbit m n); reflexivity.
Qed.

Lemma land_not_one x : 0 <= x < 2 ^ 32 -> Z.land x not_one = x - x mod 2.
Proof. intros Hx. rewrite <- land_one. by apply (land_not32 x 1). Qed.

Lemma land_pow2 x k : 0 <= k -> Z.land x (2 ^ k) = 2 ^ k * (x / 2 ^ k mod 2).
Proof.
  intros Hk.
  assert (Z.land x (2 ^ k) = Z.shiftl (Z.land (Z.shiftr x k) 1) k) as ->.
  { apply Z.bits_inj'. intros n Hn. rewrite Z.land_spec, Z.pow2_bits_eqb by done.
    destruct (Z.le_gt_cases k n).
    - rewrite Z.shiftl_spec, Z.land_spec, Z.shiftr_spec by lia.
      replace (n - k + k) with n by lia. f_equal.
      change 1 with (2 ^ 0). rewrite Z.pow2_bits_eqb by lia.
      destruct (Z.eqb_spec k n), (Z.eqb_spec 0 (n - k)); (done || lia).
    - rewrite Z.shiftl_spec_low by done. destruct (Z.eqb_spec k n); [lia|]. apply andb_false_r. }
  rewrite land_one, Z.shiftl_mul_pow2, Z.shiftr_div_pow2 by done. lia.
Qed.

Lemma lor_land x m : Z.lor x m = x + m - Z.land x m.
Proof. pose proof (Z.add_lor_land x m). lia. Qed.

(** ** Lists *)

Lemma fmap_all_same {A B} (f : A -> B) (b : B) (l : list A) :
  (forall x, f x = b) -> f <$> l = replicate (length l) b.
Proof. intros Hf. induction l as [|x l IH]; simpl; [done|]. f_equal; [apply Hf|exact IH]. Qed.

Lemma fmap_unchanged {A} (f : A -> A) (l : list A) : (forall x, f x = x) -> f <$> l = l.
Proof. intros Hf. induction l as [|x l IH]; simpl; [done|]. f_equal; [apply Hf|exact IH]. Qed.

(** ** Counting threads *)

(** [count p l] is the number of elements of [l] on which [p] is [true]. *)
Fixpoint count {A} (p : A -> bool) (l : list A) : Z :=
  match l with
  | [] => 0
  | x :: l' => Z.b2z (p x) + count p l'
  end.

(** Sum of a weight over the threads. *)
Fixpoint zsum {A} (f : A -> Z) (l : list A) : Z :=
  match l with
  | [] => 0
  | x :: l' => f x + zsum f l'
  end.

Section counting.
Context {A : Type}.
Implicit Types (p : A -> bool) (f : A -> Z) (l : list A).

Lemma zsum_insert f l i x y :
  l !! i = Some x -> zsum f (<[i := y]> l) = zsum f l - f x + f y.
Proof.
  revert i; induction l as [|z l IH]; intros [|i]; simpl; intros; simplify_eq; [lia|].
  rewrite (IH i) by done. lia.
Qed.

Lemma zsum_zero f l : (forall x, f x = 0) -> zsum f l = 0.
Proof. intros Hf. induction l as [|x l IH]; simpl; [done|]. rewrite Hf. exact IH. Qed.

Lemma zsum_nonneg f l : Forall (fun x => 0 <= f x) l -> 0 <= zsum f l.
Proof. induction 1; simpl; lia. Qed.

Lemma zsum_pos f l i x : Forall (fun x => 0 <= f x) l -> l !! i = Some x -> f x <= zsum f l.
Proof.
  intros Hall. revert i.
  induction Hall as [|y l Hy Hall IH]; intros [|i] Hi; simpl in *; simplify_eq.
  - pose proof (zsum_nonneg f l Hall). lia.
  - specialize (IH i Hi). lia.
Qed.

Lemma count_zsum p l : count p l = zsum (fun x => Z.b2z (p x)) l.
Proof. induction l; simpl; lia. Qed.

Lemma count_insert p l i x y :
  l !! i = Some x -> count p (<[i := y]> l) = count p l - Z.b2z (p x) + Z.b2z (p y).
Proof. rewrite !count_zsum. apply zsum_insert. Qed.

Lemma count_bounds p l : 0 <= count p l <= Z.of_nat (length l).
Proof. induction l as [|x l IH]; simpl; [lia|]. destruct (p x); simpl; lia. Qed.

Lemma count_app p l1 l2 : count p (l1 ++ l2) = count p l1 + count p l2.
Proof. induction l1; simpl; lia. Qed.

Lemma count_one p x : count p [x] = Z.b2z (p x).
Proof. simpl. lia. Qed.

Lemma count_pos p l i x : l !! i = Some x -> p x = true -> 1 <= count p l.
Proof.
  revert i; induction l as [|z l IH]; intros [|i]; simpl; intros Hi Hp; simplify_eq.
  - rewrite Hp. pose proof (count_bounds p l). simpl. lia.
  - specialize (IH i Hi Hp). destruct (p z); simpl; lia.
Qed.

(** If at most one element satisfies [p], two positions that do are the same. *)
Lemma count_unique p l i j x y :
  count p l <= 1 -> l !! i = Some x -> l !! j = Some y ->
  p x = true -> p y = true -> i = j.
Proof.
  revert i j; induction l as [|z l IH]; intros [|i] [|j]; simpl; intros Hc Hi Hj Hx Hy;
    simplify_eq; try done.
  - pose proof (count_pos p l j y Hj Hy). rewrite Hx in Hc. simpl in Hc. lia.
  - pose proof (count_pos p l i x Hi Hx). rewrite Hy in Hc. simpl in Hc. lia.
  - f_equal. eapply (IH i j); eauto. destruct (p z); simpl in Hc; lia.
Qed.

Lemma count_all_false p l : (forall x, x ∈ l -> p x = false) -> count p l = 0.
Proof.
  induction l as [|x l IH]; simpl; [done|]. intros H.
  rewrite (H x), IH; [done| |left]. intros; apply H; by right.
Qed.

Lemma count_replicate p n x : p x = false -> count p (replicate n x) = 0.
Proof. intros Hx. apply count_all_false. by intros y [-> _]%elem_of_replicate. Qed.

(** Conversely, if two positions that satisfy [p] are always the same, at most
    one does. *)
Lemma count_at_most_one p l :
  (forall i j x y, l !! i = Some x -> l !! j = Some y -> p x = true -> p y = true -> i = j) ->
  count p l <= 1.
Proof.
  induction l as [|z l IH]; simpl; intros H; [lia|].
  destruct (p z) eqn:Ez; simpl.
  - rewrite count_all_false; [lia|]. intros x [i Hi]%list_elem_of_lookup.
    destruct (p x) eqn:Ex; [|done]. by specialize (H 0%nat (S i) z x eq_refl Hi Ez Ex).
  - apply IH. intros i j x y Hi Hj Hx Hy. by specialize (H (S i) (S j) x y Hi Hj Hx Hy) as [= ->].
Qed.

Lemma count_le p q l : (forall x, p x = true -> q x = true) -> count p l <= count q l.
Proof.
  intros H. induction l as [|x l IH]; simpl; [lia|].
  specialize (H x). destruct (p x), (q x); simpl; lia.
Qed.

(** The elements other than the one at position [i]. *)
Lemma count_others p l i x : l !! i = Some x -> 0 <= count p l - Z.b2z (p x).
Proof.
  intros Hi. pose proof (count_bounds p l). destruct (p x) eqn:E; simpl; [|lia].
  pose proof (count_pos _ _ _ _ Hi E). lia.
Qed.

Lemma count_others_le p q l i x :
  (forall x, p x = true -> q x = true) -> l !! i = Some x ->
  count p l - Z.b2z (p x) <= count q l - Z.b2z (q x).
Proof.
  intros H. revert i; induction l as [|z l IH]; intros [|i]; simpl; intros; simplify_eq.
  - pose proof (count_le p q l H). lia.
  - specialize (IH i ltac:(done)). specialize (H z). destruct (p z), (q z); simpl; lia.
Qed.

(** Only one position counts. *)
Lemma count_only p l i x :
  l !! i = Some x -> (forall j y, j <> i -> l !! j = Some y -> p y = false) -> count p l = Z.b2z (p x).
Proof.
  revert i; induction l as [|z l IH]; intros [|i] Hi Ho; simpl in *; simplify_eq.
  - rewrite count_all_false; [lia|]. intros y [j Hj]%list_elem_of_lookup. by apply (Ho (S j) y).
  - rewrite (Ho 0%nat z) by done. rewrite (IH i); [simpl; lia|done|].
    intros j y Hne Hj. apply (Ho (S j)); [congruence|done].
Qed.

Lemma count_rest_false p l i j x y :
  count p l <= Z.b2z (p x) -> l !! i = Some x -> l !! j = Some y -> j <> i -> p y = false.
Proof.
  intros Hc Hi Hj Hne. destruct (p y) eqn:Hy; [|done]. destruct (p x) eqn:Hx; simpl in Hc.
  - destruct Hne. by apply (count_unique p l j i y x).
  - pose proof (count_pos p l j y Hj Hy). lia.
Qed.

Lemma count_disjoint p q l :
  (forall x, p x = true -> q x = false) -> count p l + count q l <= Z.of_nat (length l).
Proof.
  intros H. induction l as [|x l IH]; simpl; [lia|].
  specialize (H x). destruct (p x), (q x); simpl; try lia; by specialize (H eq_refl).
Qed.

Lemma count_witness p l : 0 < count p l -> exists i x, l !! i = Some x /\ p x = true.
Proof.
  induction l as [|x l IH]; simpl; [lia|]. intros H.
  destruct (p x) eqn:E; [by exists 0%nat, x|].
  destruct IH as (i & y & ? & ?); [simpl in H; lia|]. by exists (S i), y.
Qed.
End counting.

(** Counting two lists position by position. *)
Lemma count_pointwise_le {A B} (p : A -> bool) (q : B -> bool) l1 l2 :
  length l1 = length l2 ->
  (forall i x y, l1 !! i = Some x -> l2 !! i = Some y -> p x = true -> q y = true) -> count p l1 <= count q l2.
Proof.
  revert l2; induction l1 as [|x l1 IH]; intros [|y l2] Hl Hq; simplify_eq/=; [done|].
  specialize (IH l2 Hl (fun i => Hq (S i))). pose proof (Hq 0%nat x y eq_refl eq_refl) as Hxy.
  destruct (p x); [rewrite Hxy by done; simpl; lia|]. destruct (q y); simpl; lia.
Qed.

Lemma count_pointwise {A B} (p : A -> bool) (q : B -> bool) l1 l2 :
  length l1 = length l2 ->
  (forall i x y, l1 !! i = Some x -> l2 !! i = Some y -> p x = q y) -> count p l1 = count q l2.
Proof.
  intros Hl Hq. apply Z.le_antisymm; apply count_pointwise_le; try done.
  - intros i x y Hx Hy <-. symmetry. by apply (Hq i).
  - intros i y x Hy Hx <-. by apply (Hq i).
Qed.

(** ** Tactics and hints *)

Create HintDb nova.
Create Rewrite HintDb nova_bits.
#[export] Hint Rewrite land_one lor_one : nova_bits.

(** Turn boolean comparisons of the model into propositions. *)
Ltac bools :=
  repeat match goal with
  | H : andb _ _ = true |- _ => apply andb_true_iff in H as [? ?]
  | H : orb _ _ = false |- _ => apply orb_false_iff in H as [? ?]
  | H : negb _ = true |- _ => apply negb_true_iff in H
  | H : negb _ = false |- _ => apply negb_false_iff in H
  | H : (_ =? _) = true |- _ => apply Z.eqb_eq in H
  | H : (_ =? _) = false |- _ => apply Z.eqb_neq in H
  | H : (_ <? _) = true |- _ => apply Z.ltb_lt in H
  | H : (_ <? _) = false |- _ => apply Z.ltb_ge in H
  | H : (_ <=? _) = true |- _ => apply Z.leb_le in H
  | H : (_ <=? _) = false |- _ => apply Z.leb_gt in H
  end.

(** Case analysis on the scrutinees of the step functions, in hypothesis [H]. *)
Ltac step_cases H :=
  repeat (simplify_eq/=;
    match type of H with
    | context [match ?x with _ => _ end] =>
        lazymatch x with context [match _ with _ => _ end] => fail | _ => destruct x eqn:? end
    end); simplify_eq/=; bools.
