(* ===== verification/Kernel.v ===== *)
(** * The kernel's objects

    The library's native primitives are thin layers over kernel objects, which
    are not code of the library.  They are parameters of the models: a class per
    kind of object, with the documented behaviour the library relies on as the
    class of its laws, and instances for the witnesses. *)
From S2P Require Import Prelude.
#[local] Open Scope Z_scope.

(** A kernel object that is notified and polled: [write( fd, 1 )], a
    non-blocking [read], and [POLLIN] of an eventfd in semaphore mode; or
    [NOTE_TRIGGER], [kevent] with a zero time-out, and the presence of the event
    for an [EVFILT_USER] with [EV_CLEAR]. *)
Class Notifier (K : Type) := {
  k_init : K;
  k_notify : K -> K;
  k_consume : K -> K;
  k_ready : K -> bool
}.

(** What is relied on: a notification makes the object ready. *)
Class NotifierLaws (K : Type) `{Notifier K} := {
  k_notify_ready : forall k, k_ready (k_notify k) = true
}.

(** An eventfd in semaphore mode, and an [EVFILT_USER] with [EV_CLEAR]. *)
#[export] Instance eventfd_counter : Notifier nat :=
  { k_init := 0%nat; k_notify := S; k_consume := pred; k_ready := fun k => (0 <? k)%nat }.

#[export] Instance eventfd_counter_laws : NotifierLaws nat.
Proof. constructor. done. Qed.

Definition kqueue_event : Notifier bool :=
  {| k_init := false; k_notify := fun _ => true; k_consume := fun _ => false; k_ready := id |}.

#[export] Instance kqueue_event_laws : @NotifierLaws bool kqueue_event.
Proof. constructor. done. Qed.

(** A kernel object that counts tokens: [sem_t], [semaphore_t],
    [dispatch_semaphore_t], a semaphore [HANDLE], or an eventfd in semaphore mode.
    [k_take] is a non-blocking attempt; [k_post] adds tokens all at once, up to the
    greatest value of the counter, [k_max].  It may fail; none of its callers looks. *)
Class Counter (K : Type) := {
  k_max : Z;
  k_create : Z -> K;
  k_post : Z -> K -> K;
  k_take : K -> K * bool;
  k_tokens : K -> Z
}.
#[global] Arguments k_max K {_}.

(** A call that would pass the greatest value fails and adds nothing, as does
    [ReleaseSemaphore] of a negative count. *)
Class CounterLaws (K : Type) `{Counter K} := {
  k_max_pos : 1 <= k_max K;
  k_create_tokens : forall n, 0 <= n <= k_max K -> k_tokens (k_create n) = n;
  k_post_tokens : forall n k, k_tokens (k_post n k) =
    if (0 <=? n) && (k_tokens k + n <=? k_max K) then k_tokens k + n else k_tokens k;
  k_take_tokens : forall k, 0 <= k_tokens k ->
    if (k_take k).2 then 0 < k_tokens k /\ k_tokens (k_take k).1 = k_tokens k - 1
    else k_tokens k = 0 /\ k_tokens (k_take k).1 = k_tokens k
}.

Section counter.
Context {K : Type} `{Counter K, !CounterLaws K}.

(** With room for them, the tokens are added. *)
Lemma k_post_room n k : 0 <= n -> k_tokens k + n <= k_max K -> k_tokens (k_post n k) = k_tokens k + n.
Proof. intros Hn Hm. rewrite k_post_tokens. destruct (Z.leb_spec 0 n), (Z.leb_spec (k_tokens k + n) (k_max K)); (done || lia). Qed.

(** In any case no more than that. *)
Lemma k_post_bounds n k : 0 <= n -> k_tokens k <= k_tokens (k_post n k) <= k_tokens k + n.
Proof. intros Hn. rewrite k_post_tokens. destruct (_ && _); lia. Qed.

(** The token that a lock gives back when nobody has it. *)
Lemma k_post_empty k : k_tokens k = 0 -> k_tokens (k_post 1 k) = 1.
Proof. intros E. pose proof k_max_pos. rewrite k_post_room; lia. Qed.
End counter.

(** A counter for the witnesses, with the greatest value of a [LONG]. *)
#[export] Instance z_counter : Counter Z :=
  { k_max := 2 ^ 31 - 1; k_create := id;
    k_post := fun n k => if (0 <=? n) && (k + n <=? 2 ^ 31 - 1) then k + n else k;
    k_take := fun k => if 0 <? k then (k - 1, true) else (k, false); k_tokens := id }.

#[export] Instance z_counter_laws : CounterLaws Z.
Proof.
  constructor; unfold id; simpl; unfold id; try done.
  intros k H. destruct (Z.ltb_spec 0 k); simpl; lia.
Qed.

(** A kernel object that is readable or signalled until it is reset: an eventfd, a
    pipe, an [EVFILT_USER] without [EV_CLEAR] in a kqueue, or a manual-reset event
    [HANDLE].  [f_read] is one non-blocking [read] and whether it read anything;
    [f_delete] and [f_add] are [EV_DELETE] and [EV_ADD], [f_reset] is [ResetEvent]. *)
Class Flag (K : Type) := {
  f_new : K;
  f_set : K -> K;
  f_read : K -> K * bool;
  f_delete : K -> K;
  f_add : K -> K;
  f_reset : K -> K;
  f_ready : K -> bool;
  f_open : K -> bool;   (** the event is in the kqueue *)
  f_level : K -> nat    (** how many reads are left *)
}.

Class FlagLaws (K : Type) `{Flag K} := {
  f_new_state : f_ready f_new = false /\ f_open f_new = true;
  f_ready_open : forall k, f_ready k = true -> f_open k = true;
  f_set_state : forall k, f_ready (f_set k) = f_open k /\ f_open (f_set k) = f_open k;
  f_read_state : forall k, (f_read k).2 = f_ready k /\ f_open (f_read k).1 = f_open k /\
    (f_ready k = false -> (f_read k).1 = k) /\
    (f_ready k = true -> (f_level (f_read k).1 < f_level k)%nat);
  f_delete_state : forall k, f_ready (f_delete k) = false /\ f_open (f_delete k) = false;
  f_add_state : forall k, f_ready (f_add k) = f_ready k /\ f_open (f_add k) = true;
  f_reset_state : forall k, f_ready (f_reset k) = false /\ f_open (f_reset k) = f_open k
}.

(** An object with a number of unread writes, of which a read takes at most
    [S width]; the flag tells whether it is open. *)
#[export] Instance written (width : nat) : Flag (nat * bool) := {
  f_new := (0%nat, true);
  f_set := fun k => (if k.2 then S k.1 else k.1, k.2);
  f_read := fun k => ((if k.2 then k.1 - S width else k.1)%nat, k.2, (0 <? k.1)%nat && k.2);
  f_delete := fun _ => (0%nat, false);
  f_add := fun k => (if k.2 then k.1 else 0%nat, true);
  f_reset := fun k => (0%nat, k.2);
  f_ready := fun k => (0 <? k.1)%nat && k.2;
  f_open := snd;
  f_level := fst
}.

#[export] Instance written_laws width : @FlagLaws (nat * bool) (written width).
Proof.
  constructor; try intros [n []]; simpl; rewrite ?andb_true_r, ?andb_false_r; try done.
  split_and!; try done.
  - by intros ->%Nat.ltb_ge%Nat.le_0_r.
  - intros ?%Nat.ltb_lt. lia.
Qed.
