(* ===== verification/Machine.v ===== *)
(** * Interleaving machine

    Threads exec the methods of one synchronisation object.  A thread's local
    state is its program point with the local variables of the method; one step
    performs one atomic action on the shared state.  Which thread runs, and how
    the environment resolves a choice (a spurious failure of a weak
    compare-exchange, a time-out, the method called next) is a schedule. *)
From S2P Require Import Prelude.

Section machine.
Context {St Lo Ch : Type}.
Context (tstep : nat -> Ch -> St -> Lo -> option (St * Lo)).

Record config := Config { shared : St; threads : list Lo }.

(** One step of thread [i], the environment choosing [ch]. *)
Definition cstep (i : nat) (ch : Ch) (c : config) : option config :=
  match threads c !! i with
  | None => None
  | Some l =>
      match tstep i ch (shared c) l with
      | None => None
      | Some (s', l') => Some (Config s' (<[i := l']> (threads c)))
      end
  end.

Inductive step : config -> config -> Prop :=
| step_intro i ch c c' : cstep i ch c = Some c' -> step c c'.

Definition reachable (init c : config) : Prop := rtc step init c.

(** Execution of a schedule. *)
Fixpoint exec (sched : list (nat * Ch)) (c : config) : option config :=
  match sched with
  | [] => Some c
  | (i, ch) :: sched' =>
      match cstep i ch c with None => None | Some c' => exec sched' c' end
  end.

Lemma exec_reachable sched c c' : exec sched c = Some c' -> reachable c c'.
Proof.
  revert c; induction sched as [|[i ch] sched IH]; simpl; intros c H; [by simplify_eq; left|].
  destruct (cstep i ch c) as [c1|] eqn:E; [|done].
  eapply rtc_l; [by econstructor|]. by apply IH.
Qed.

Lemma exec_app s1 s2 c :
  exec (s1 ++ s2) c = match exec s1 c with None => None | Some c' => exec s2 c' end.
Proof.
  revert c; induction s1 as [|[i ch] s1 IH]; simpl; intros c; [done|].
  destruct (cstep i ch c); [apply IH|done].
Qed.

Lemma cstep_inv i ch c c' :
  cstep i ch c = Some c' ->
  exists l s' l', threads c !! i = Some l /\ tstep i ch (shared c) l = Some (s', l') /\
    c' = Config s' (<[i := l']> (threads c)).
Proof.
  unfold cstep. destruct (threads c !! i) as [l|] eqn:El; [|done].
  destruct (tstep i ch (shared c) l) as [[s' l']|] eqn:Et; [|done].
  intros [= <-]. eauto 10.
Qed.

Lemma cstep_length i ch c c' : cstep i ch c = Some c' -> length (threads c') = length (threads c).
Proof. intros (l & s' & l' & ? & ? & ->)%cstep_inv. simpl. apply length_insert. Qed.

(** Rule induction: an invariant that holds initially and is kept by every
    step of every thread holds in every reachable configuration. *)
Lemma invariant_reachable (I : config -> Prop) init :
  I init ->
  (forall i ch c l s' l', I c -> threads c !! i = Some l ->
     tstep i ch (shared c) l = Some (s', l') ->
     I (Config s' (<[i := l']> (threads c)))) ->
  forall c, reachable init c -> I c.
Proof.
  intros H0 Hstep c Hr. unfold reachable in Hr. revert H0. induction Hr as [|x y z Hxy _ IH]; [done|].
  intros Hx. apply IH. destruct Hxy as [i ch x y Hc].
  apply cstep_inv in Hc as (l & s' & l' & ? & ? & ->). eauto.
Qed.

(** Reachability along configurations that all satisfy an assumption about
    the environment. *)
Definition reachable_while (P : config -> Prop) (init c : config) : Prop :=
  rtc (fun a b => P a /\ step a b) init c.

Lemma reachable_while_reachable (P : config -> Prop) init c :
  reachable_while P init c -> reachable init c.
Proof.
  unfold reachable_while, reachable. induction 1 as [|x y z [_ Hxy] _ IH]; [by left|]. by eapply rtc_l.
Qed.

Lemma invariant_reachable_while (P I : config -> Prop) init :
  I init ->
  (forall i ch c l s' l', P c -> I c -> threads c !! i = Some l ->
     tstep i ch (shared c) l = Some (s', l') ->
     I (Config s' (<[i := l']> (threads c)))) ->
  forall c, reachable_while P init c -> I c.
Proof.
  intros H0 Hstep c Hr. unfold reachable_while in Hr. revert H0.
  induction Hr as [|x y z [HP Hxy] _ IH]; [done|]. intros Hx. apply IH.
  destruct Hxy as [i ch x y Hc]. apply cstep_inv in Hc as (l & s' & l' & ? & ? & ->). eauto.
Qed.

(** A schedule whose configurations all satisfy a boolean assumption. *)
Fixpoint exec_while (P : config -> bool) (sched : list (nat * Ch)) (c : config) : option config :=
  match sched with
  | [] => Some c
  | (i, ch) :: sched' =>
      if P c then match cstep i ch c with None => None | Some c' => exec_while P sched' c' end
      else None
  end.

Lemma exec_while_reachable (P : config -> Prop) (Pb : config -> bool) sched c c' :
  (forall c, Pb c = true -> P c) -> exec_while Pb sched c = Some c' -> reachable_while P c c'.
Proof.
  intros HP. revert c; induction sched as [|[i ch] sched IH]; simpl; intros c H; [by simplify_eq; left|].
  destruct (Pb c) eqn:Ep; [|done]. destruct (cstep i ch c) as [c1|] eqn:E; [|done].
  eapply rtc_l; [split; [by apply HP|by econstructor]|]. by apply IH.
Qed.

(** Thread [i] running alone: only its local state and the shared state
    matter. *)
Fixpoint alone (i : nat) (chs : list Ch) (s : St) (l : Lo) : option (St * Lo) :=
  match chs with
  | [] => Some (s, l)
  | ch :: chs' =>
      match tstep i ch s l with
      | None => None
      | Some (s', l') => alone i chs' s' l'
      end
  end.

Lemma alone_exec i chs c l s' l' :
  threads c !! i = Some l -> alone i chs (shared c) l = Some (s', l') ->
  exec (pair i <$> chs) c = Some (Config s' (<[i := l']> (threads c))).
Proof.
  destruct c as [s ts]; simpl. revert s l ts. induction chs as [|ch chs IH]; simpl; intros s l ts Hl H.
  - simplify_eq. by rewrite list_insert_id.
  - unfold cstep; simpl. rewrite Hl. destruct (tstep i ch s l) as [[s1 l1]|] eqn:E; [|done].
    rewrite (IH s1 l1 (<[i:=l1]> ts)).
    + by rewrite list_insert_insert_eq.
    + apply list_lookup_insert_eq. by apply lookup_lt_Some in Hl.
    + done.
Qed.

(** Thread [i] alone reaches a goal within [k] steps, every choice being
    [benign]. *)
Definition reaches_alone (benign : Ch -> Prop) (goal : Lo -> Prop) (i k : nat) (s : St) (l : Lo) : Prop :=
  exists chs s' l', (length chs <= k)%nat /\ Forall benign chs /\
    alone i chs s l = Some (s', l') /\ goal l'.

Lemma reaches_now benign (goal : Lo -> Prop) i k s l : goal l -> reaches_alone benign goal i k s l.
Proof. intros. exists [], s, l. simpl. split_and!; auto with lia. Qed.

Lemma reaches_step benign (goal : Lo -> Prop) i k ch s l s1 l1 :
  tstep i ch s l = Some (s1, l1) -> benign ch -> reaches_alone benign goal i k s1 l1 ->
  reaches_alone benign goal i (S k) s l.
Proof.
  intros Hs Hb (chs & s' & l' & Hk & Hbs & Ha & Hg). exists (ch :: chs), s', l'. simpl.
  rewrite Hs. split_and!; auto with lia.
Qed.

Lemma reaches_more benign (goal : Lo -> Prop) i k k' s l :
  (k <= k')%nat -> reaches_alone benign goal i k s l -> reaches_alone benign goal i k' s l.
Proof. intros Hk (chs & s' & l' & ? & ? & ? & ?). exists chs, s', l'. split_and!; auto with lia. Qed.
(** ** A machine inside another one

    The threads of the outer machine carry the local states of the inner one. *)
Section component.
Context {Lo' : Type} (f : Lo' -> Lo).

Lemma component_step P init s ts i l ch s' x :
  P (Config s (f <$> ts)) -> reachable_while P init (Config s (f <$> ts)) -> ts !! i = Some l ->
  tstep i ch s (f l) = Some (s', x) -> reachable_while P init (Config s' (<[i := x]> (f <$> ts))).
Proof.
  intros HP Hr Hi Hs. eapply rtc_r; [exact Hr|]. split; [done|]. apply (step_intro i ch).
  unfold cstep. simpl. rewrite list_lookup_fmap, Hi. simpl. by rewrite Hs.
Qed.

Lemma component_same (ts : list Lo') i l l' :
  ts !! i = Some l -> f l' = f l -> f <$> <[i := l']> ts = f <$> ts.
Proof. intros Hi E. rewrite list_fmap_insert, E. apply list_insert_id. by rewrite list_lookup_fmap, Hi. Qed.
End component.
End machine.

Arguments Config {_ _} _ _.
Arguments shared {_ _} _.
Arguments threads {_ _} _.
Arguments config : clear implicits.

(** No assumption about the environment. *)
Definition always {A : Type} (_ : nat) (_ : A) : Prop := True.
