(* ===== verification/MutexSpec.v ===== *)
(** * What a mutex promises

    The interface between the mutexes and code that uses one: a machine with a
    predicate that says which program points hold the mutex ([mutex]), the
    promise that at most one thread does ([MutexSpec]), and what a client has of it:
    critical sections that read and write plain, non-atomic data are atomic.
    [MutexLibrary.v] gives the mutexes of nova_sync as instances.  The abstract lock,
    a variable with the owner, is the exclusive half of the reader-writer lock of
    [SharedSpec.v]. *)
From S2P Require Import Prelude Machine.
#[local] Open Scope Z_scope.

Record mutex := Mutex {
  mx_state : Type;
  mx_local : Type;
  mx_choice : Type;
  mx_step : nat -> mx_choice -> mx_state -> mx_local -> option (mx_state * mx_local);
  mx_init : nat -> config mx_state mx_local;
  mx_holds : mx_local -> bool;
  (** How many threads the words of the mutex have room for. *)
  mx_fits : nat -> Prop;
  (** What the promise assumes of the environment along the way. *)
  mx_env : nat -> config mx_state mx_local -> Prop
}.

Definition mx_reachable (m : mutex) (n : nat) : config (mx_state m) (mx_local m) -> Prop :=
  reachable_while (mx_step m) (mx_env m n) (mx_init m n).

Class MutexSpec (m : mutex) : Prop := {
  ms_threads : forall n, length (threads (mx_init m n)) = n;
  ms_free : forall n, count (mx_holds m) (threads (mx_init m n)) = 0;
  ms_exclusive : forall n c, mx_fits m n -> mx_reachable m n c ->
    count (mx_holds m) (threads c) <= 1
}.

(** ** The abstract lock *)

(** A thread acquires the free lock, the owner releases it, or nothing happens. *)
Inductive lock_action (i : nat) : option nat -> option nat -> Prop :=
| acquires : lock_action i None (Some i)
| releases : lock_action i (Some i) None
| silent o : lock_action i o o.

Section refinement.
Context {Lo : Type} (holds : Lo -> bool).

(** The first thread that holds the mutex. *)
Fixpoint owner (ts : list Lo) : option nat :=
  match ts with
  | [] => None
  | l :: ts' => if holds l then Some 0%nat else S <$> owner ts'
  end.

Lemma owner_none ts : owner ts = None <-> count holds ts = 0.
Proof.
  induction ts as [|l ts IH]; simpl; [done|]. pose proof (count_bounds holds ts).
  destruct (holds l); simpl; [split; [done|lia]|]. rewrite fmap_None, IH. lia.
Qed.

Lemma owner_holds ts i : owner ts = Some i -> exists l, ts !! i = Some l /\ holds l = true.
Proof.
  revert i. induction ts as [|l ts IH]; simpl; intros i; [done|].
  destruct (holds l) eqn:E; [intros [= <-]; by exists l|].
  intros (j & Hj & ->)%fmap_Some. by apply IH.
Qed.

Lemma owner_unique ts i l :
  count holds ts <= 1 -> ts !! i = Some l -> holds l = true -> owner ts = Some i.
Proof.
  intros Hc Hi Hl. destruct (owner ts) as [j|] eqn:E.
  - apply owner_holds in E as (lj & Hj & Hlj). f_equal. by eapply (count_unique holds ts).
  - apply owner_none in E. pose proof (count_pos _ _ _ _ Hi Hl). lia.
Qed.

(** A step of thread [i] from one owner or none to one owner or none is an
    action of thread [i] on the abstract lock. *)
Lemma owner_step ts i l l' :
  ts !! i = Some l -> count holds ts <= 1 -> count holds (<[i := l']> ts) <= 1 ->
  lock_action i (owner ts) (owner (<[i := l']> ts)).
Proof.
  intros Hi Hc Hc'. pose proof (count_insert holds ts i l l' Hi) as He.
  assert (<[i := l']> ts !! i = Some l') as Hi' by (apply list_lookup_insert_eq; by eapply lookup_lt_Some).
  pose proof (count_bounds holds (<[i := l']> ts)). pose proof (count_bounds holds ts).
  destruct (holds l) eqn:El, (holds l') eqn:El'; simpl in He.
  - rewrite (owner_unique _ _ _ Hc Hi El), (owner_unique _ _ _ Hc' Hi' El'). constructor.
  - rewrite (owner_unique _ _ _ Hc Hi El), (proj2 (owner_none _)) by lia. constructor.
  - rewrite (owner_unique _ _ _ Hc' Hi' El'), (proj2 (owner_none ts)) by lia. constructor.
  - destruct (owner ts) as [j|] eqn:Eo.
    + apply owner_holds in Eo as (lj & Hj & Hlj).
      assert (j <> i) as Hne by (intros ->; congruence).
      rewrite (owner_unique _ j lj Hc'); [constructor|by rewrite list_lookup_insert_ne|done].
    + apply owner_none in Eo. rewrite (proj2 (owner_none _)) by lia. constructor.
Qed.
End refinement.

(** ** Critical sections on plain data *)

Section client.
Context (m : mutex) {T : Type}.

(** The mutex, the data it protects, and as a ghost the updates that were
    stored, oldest first. *)
Record protected := Protected { lock_ : mx_state m; data : T; updates : list (T -> T) }.

(** A thread of the program: where it is in the mutex, and inside a critical
    section what it has read and the update it is computing. *)
Record program := Program { at_mutex : mx_local m; section : option (T * (T -> T)) }.

Inductive program_choice :=
| OfMutex (ch : mx_choice m)   (** a step of the mutex, or the next call to it *)
| Read (f : T -> T)            (** enter a critical section: read the data *)
| Write.                       (** store the updated value *)

Definition program_step (tid : nat) (ch : program_choice) (s : protected) (l : program)
  : option (protected * program) :=
  match ch, section l with
  | OfMutex ch, None =>
      match mx_step m tid ch (lock_ s) (at_mutex l) with
      | None => None
      | Some (k, x) => Some (Protected k (data s) (updates s), Program x None)
      end
  | Read f, None =>
      if mx_holds m (at_mutex l) then Some (s, Program (at_mutex l) (Some (data s, f))) else None
  | Write, Some (x, f) =>
      Some (Protected (lock_ s) (f x) (updates s ++ [f]), Program (at_mutex l) None)
  | _, _ => None
  end.

Definition program_init (v : T) (n : nat) : config protected program :=
  Config (Protected (shared (mx_init m n)) v []) (flip Program None <$> threads (mx_init m n)).

(** The configuration of the mutex. *)
Definition of_mutex (c : config protected program) : config (mx_state m) (mx_local m) :=
  Config (lock_ (shared c)) (at_mutex <$> threads c).

Definition program_reachable (v : T) (n : nat) : config protected program -> Prop :=
  reachable_while program_step (fun c => mx_env m n (of_mutex c)) (program_init v n).

Definition update_all (fs : list (T -> T)) (v : T) : T := fold_left (fun x f => f x) fs v.

Definition section_ok (x : T) (l : program) : Prop :=
  match section l with
  | Some (y, _) => y = x /\ mx_holds m (at_mutex l) = true
  | None => True
  end.

Definition ProgramInv (v : T) (n : nat) (c : config protected program) : Prop :=
  mx_reachable m n (of_mutex c) /\ data (shared c) = update_all (updates (shared c)) v /\
  Forall (section_ok (data (shared c))) (threads c).

Lemma of_mutex_init v n : of_mutex (program_init v n) = mx_init m n.
Proof.
  unfold of_mutex, program_init. simpl. rewrite <- list_fmap_compose.
  destruct (mx_init m n) as [s ts]; simpl. f_equal. induction ts; simpl; f_equal; done.
Qed.

Lemma program_init_ok v n : ProgramInv v n (program_init v n).
Proof.
  split; [rewrite of_mutex_init; apply rtc_refl|]. split; [done|].
  simpl. apply Forall_fmap, Forall_true. done.
Qed.

(** A step that stays inside the client leaves the mutex alone. *)
Lemma of_mutex_same s' l' (c : config protected program) i l :
  threads c !! i = Some l -> at_mutex l' = at_mutex l -> lock_ s' = lock_ (shared c) ->
  of_mutex (Config s' (<[i := l']> (threads c))) = of_mutex c.
Proof.
  intros Hi E1 E2. unfold of_mutex. simpl. by rewrite (component_same _ _ _ l), E2.
Qed.

Lemma of_mutex_step n (c : config protected program) i l ch k x :
  mx_env m n (of_mutex c) -> mx_reachable m n (of_mutex c) -> threads c !! i = Some l ->
  mx_step m i ch (lock_ (shared c)) (at_mutex l) = Some (k, x) ->
  mx_reachable m n (Config k (<[i := x]> (at_mutex <$> threads c))).
Proof.
  intros He Hr Hi Hs. by eapply component_step.
Qed.

Context `{!MutexSpec m}.

(** Nobody else is inside a critical section. *)
Lemma section_alone n (c : config protected program) i l v l' :
  mx_fits m n -> mx_reachable m n (of_mutex c) -> threads c !! i = Some l ->
  mx_holds m (at_mutex l) = true -> section l' = None ->
  Forall (section_ok (data (shared c))) (threads c) ->
  Forall (section_ok v) (<[i := l']> (threads c)).
Proof.
  intros Hn Hr Hi Hh Hl' Hall. apply Forall_lookup_2. intros j x.
  rewrite list_lookup_insert_Some. intros [(<- & <- & _)|[Hne Hj]]; [unfold section_ok; by rewrite Hl'|].
  pose proof (Forall_lookup_1 _ _ _ _ Hall Hj) as Hx. unfold section_ok in *.
  destruct (section x) as [[y f]|]; [|done]. destruct Hx as [_ Hx]. destruct Hne.
  apply (count_unique (mx_holds m) (at_mutex <$> threads c) i j (at_mutex l) (at_mutex x)); try done.
  - by apply (ms_exclusive n (of_mutex c)).
  - by rewrite list_lookup_fmap, Hi.
  - by rewrite list_lookup_fmap, Hj.
Qed.

Lemma program_step_ok v n c i ch l s' l' :
  mx_fits m n -> mx_env m n (of_mutex c) -> ProgramInv v n c -> threads c !! i = Some l ->
  program_step i ch (shared c) l = Some (s', l') ->
  ProgramInv v n (Config s' (<[i := l']> (threads c))).
Proof.
  intros Hn He (Hr & Hv & Hall) Hi Hs. pose proof (Forall_lookup_1 _ _ _ _ Hall Hi) as Hl.
  unfold section_ok in Hl. unfold program_step in Hs.
  destruct ch as [ch|f|], (section l) as [[y g]|] eqn:El; try done.
  - destruct (mx_step m i ch (lock_ (shared c)) (at_mutex l)) as [[k x]|] eqn:Em; [|done].
    injection Hs as <- <-. split_and!; simpl; [|done|by apply Forall_insert].
    unfold of_mutex. simpl. rewrite list_fmap_insert. by eapply of_mutex_step.
  - destruct (mx_holds m (at_mutex l)) eqn:Eh; [|done]. injection Hs as <- <-.
    split_and!; simpl; [by rewrite (of_mutex_same _ _ _ _ l)|done|]. apply Forall_insert; [done|].
    split; [done|]. exact Eh.
  - destruct Hl as [-> Hh]. injection Hs as <- <-.
    split_and!; simpl; [by rewrite (of_mutex_same _ _ _ _ l)| |by eapply section_alone].
    unfold update_all in *. by rewrite fold_left_app, <- Hv.
Qed.

(** The data is always the initial value with the stored updates applied in
    order, and an update under way started from that value. *)
Lemma critical_sections v n c :
  mx_fits m n -> program_reachable v n c -> ProgramInv v n c.
Proof.
  intros Hn. apply invariant_reachable_while; [apply program_init_ok|].
  intros. by eapply program_step_ok.
Qed.

(** At most one critical section is open. *)
Lemma sections_exclusive v n c i j l l' :
  mx_fits m n -> ProgramInv v n c -> threads c !! i = Some l -> threads c !! j = Some l' ->
  section l <> None -> section l' <> None -> i = j.
Proof.
  intros Hn (Hr & _ & Hall) Hi Hj Hl Hl'.
  apply (Forall_lookup_1 _ _ _ _ Hall) in Hi as Ho. apply (Forall_lookup_1 _ _ _ _ Hall) in Hj as Ho'.
  unfold section_ok in Ho, Ho'.
  destruct (section l) as [[y f]|]; [|done]. destruct (section l') as [[y' f']|]; [|done].
  apply (count_unique (mx_holds m) (at_mutex <$> threads c) i j (at_mutex l) (at_mutex l')).
  - by apply (ms_exclusive n (of_mutex c)).
  - by rewrite list_lookup_fmap, Hi.
  - by rewrite list_lookup_fmap, Hj.
  - apply Ho.
  - apply Ho'.
Qed.
End client.

Arguments Protected {_ _} _ _ _.
Arguments lock_ {_ _} _.
Arguments data {_ _} _.
Arguments updates {_ _} _.
Arguments Program {_ _} _ _.
Arguments at_mutex {_ _} _.
Arguments section {_ _} _.
Arguments OfMutex {_ _} _.
Arguments Read {_ _} _.
Arguments Write {_ _}.
