(* ===== verification/SharedSpec.v ===== *)
(** * What a reader-writer mutex promises

    The interface between the shared mutexes and code that uses one: a machine with
    the program points that hold the mutex exclusively and those that share it
    ([shared_mutex]), the promise that a writer is alone ([SharedSpec]), and what
    follows: it refines the abstract reader-writer lock, and of plain data behind it
    writers make atomic updates while every reader sees one version, however often it
    looks.  [SharedLibrary.v] has the instances. *)
From S2P Require Import Prelude Machine MutexSpec.
#[local] Open Scope Z_scope.

Record shared_mutex := SharedMutex {
  sh_state : Type;
  sh_local : Type;
  sh_choice : Type;
  sh_step : nat -> sh_choice -> sh_state -> sh_local -> option (sh_state * sh_local);
  sh_init : nat -> config sh_state sh_local;
  sh_writes : sh_local -> bool;
  sh_reads : sh_local -> bool;
  (** How many threads the word of the mutex has room for. *)
  sh_fits : nat -> Prop
}.

Definition sh_reachable (m : shared_mutex) (n : nat) : config (sh_state m) (sh_local m) -> Prop :=
  reachable (sh_step m) (sh_init m n).

Class SharedSpec (m : shared_mutex) : Prop := {
  sh_free n : count (sh_writes m) (threads (sh_init m n)) = 0 /\ count (sh_reads m) (threads (sh_init m n)) = 0;
  sh_exclusive n c : sh_fits m n -> sh_reachable m n c ->
    count (sh_writes m) (threads c) <= 1 /\
    (1 <= count (sh_writes m) (threads c) -> count (sh_reads m) (threads c) = 0);
  (** One step does not exchange one kind of lock for the other. *)
  sh_one_kind i ch s l s' l' : sh_step m i ch s l = Some (s', l') ->
    sh_writes m l' = sh_writes m l \/ sh_reads m l' = sh_reads m l
}.

(** ** The abstract reader-writer lock *)

(** The writer and the number of readers; an action of thread [i]. *)
Inductive rw_action (i : nat) : option nat * Z -> option nat * Z -> Prop :=
| acquires_exclusive : rw_action i (None, 0) (Some i, 0)
| releases_exclusive : rw_action i (Some i, 0) (None, 0)
| acquires_shared r : 0 <= r -> rw_action i (None, r) (None, r + 1)
| releases_shared r : 0 <= r -> rw_action i (None, r + 1) (None, r)
| rw_silent w r : rw_action i (w, r) (w, r).

Lemma rw_readers i r b b' :
  0 <= r -> 0 <= r - Z.b2z b + Z.b2z b' -> rw_action i (None, r) (None, r - Z.b2z b + Z.b2z b').
Proof.
  intros Hr Hr'. destruct b, b'; simpl in *.
  - rewrite Z.sub_add. constructor.
  - rewrite Z.add_0_r in *. rewrite <- (Z.sub_add 1 r) at 1. by apply releases_shared.
  - rewrite Z.sub_0_r. by apply acquires_shared.
  - rewrite Z.sub_0_r, Z.add_0_r. constructor.
Qed.

Section shared.
Context (m : shared_mutex) `{!SharedSpec m}.
#[local] Abbreviation conf := (config (sh_state m) (sh_local m)).

Definition rw_state (c : conf) : option nat * Z :=
  (owner (sh_writes m) (threads c), count (sh_reads m) (threads c)).

(** A writer leaves no room for readers. *)
Lemma owner_no_readers n (c : conf) j :
  sh_fits m n -> sh_reachable m n c -> owner (sh_writes m) (threads c) = Some j -> count (sh_reads m) (threads c) = 0.
Proof.
  intros Hn Hr (l & Hj & Hl)%owner_holds. apply (sh_exclusive n c Hn Hr). by eapply count_pos.
Qed.

(** Every step of a reachable shared mutex is a step of the abstract lock. *)
Lemma shared_refines n (c : conf) i ch c' :
  sh_fits m n -> sh_reachable m n c -> cstep (sh_step m) i ch c = Some c' -> rw_action i (rw_state c) (rw_state c').
Proof.
  intros Hn Hr Hs. assert (sh_reachable m n c') as Hr' by (eapply rtc_r; [exact Hr|by econstructor]).
  destruct (sh_exclusive n c Hn Hr) as [H1 _]. destruct (sh_exclusive n c' Hn Hr') as [H1' _].
  pose proof (owner_no_readers n c) as Ho. pose proof (owner_no_readers n c') as Ho'. unfold rw_state.
  apply cstep_inv in Hs as (l & s' & l' & Hi & Hs & ->). cbn [threads] in *.
  pose proof (owner_step _ _ _ l l' Hi H1 H1') as Ha.
  pose proof (count_bounds (sh_reads m) (threads c)) as Hb.
  pose proof (count_bounds (sh_reads m) (<[i := l']> (threads c))) as Hb'.
  destruct (sh_one_kind _ _ _ _ _ _ Hs) as [Ew|Er].
  - (* what is held exclusively stays *)
    assert (owner (sh_writes m) (<[i := l']> (threads c)) = owner (sh_writes m) (threads c)) as Eo.
    { pose proof (count_insert (sh_writes m) _ _ _ l' Hi) as Hc. rewrite Ew in Hc.
      inversion Ha as [E1 E2|E1 E2|o E1 E2]; [| |done]; symmetry in E1, E2.
      - apply owner_none in E1. apply owner_holds in E2 as (x & Hx & Hw). pose proof (count_pos _ _ _ _ Hx Hw). lia.
      - apply owner_none in E2. apply owner_holds in E1 as (x & Hx & Hw). pose proof (count_pos _ _ _ _ Hx Hw). lia. }
    rewrite Eo in *. destruct (owner (sh_writes m) (threads c)) as [j|] eqn:E.
    { rewrite (Ho j), (Ho' j) by done. constructor. }
    rewrite (count_insert _ _ _ _ _ Hi) in *. apply rw_readers; lia.
  - (* the readers stay *)
    rewrite (count_insert _ _ _ _ _ Hi), Er, Z.sub_add in *.
    inversion Ha as [E1 E2|E1 E2|o E1 E2]; [| |constructor]; symmetry in E1, E2; rewrite E1, E2 in *.
    + rewrite (Ho' i) by done. constructor.
    + rewrite (Ho i) by done. constructor.
Qed.
End shared.

(** ** Readers and writers of plain data *)

Section client.
Context (m : shared_mutex) {T : Type}.

(** The mutex, the data behind it, and as a ghost the updates stored so far. *)
Record guarded := Guarded { rw_lock_ : sh_state m; version : T; history : list (T -> T) }.

(** What a thread does with the data: an update it is computing from what it read, or
    a look, at one part after the other, with the versions it saw so far. *)
Inductive visit := Updating (x : T) (f : T -> T) | Looking (seen : list T).

Record visitor := Visitor { at_shared : sh_local m; visit_ : option visit }.

Inductive visitor_choice :=
| OfShared (ch : sh_choice m)   (** a step of the mutex, or the next call to it *)
| BeginUpdate (f : T -> T) | EndUpdate
| BeginLook | Look | EndLook.

Definition holds_any (l : sh_local m) : bool := sh_writes m l || sh_reads m l.

Definition visitor_step (tid : nat) (ch : visitor_choice) (s : guarded) (l : visitor) : option (guarded * visitor) :=
  match ch, visit_ l with
  | OfShared ch, None =>
      (fun '(k, x) => (Guarded k (version s) (history s), Visitor x None)) <$> sh_step m tid ch (rw_lock_ s) (at_shared l)
  | BeginUpdate f, None =>
      if sh_writes m (at_shared l) then Some (s, Visitor (at_shared l) (Some (Updating (version s) f))) else None
  | EndUpdate, Some (Updating x f) =>
      Some (Guarded (rw_lock_ s) (f x) (history s ++ [f]), Visitor (at_shared l) None)
  | BeginLook, None => if holds_any (at_shared l) then Some (s, Visitor (at_shared l) (Some (Looking []))) else None
  | Look, Some (Looking seen) => Some (s, Visitor (at_shared l) (Some (Looking (seen ++ [version s]))))
  | EndLook, Some (Looking _) => Some (s, Visitor (at_shared l) None)
  | _, _ => None
  end.

Definition visitors_init (v : T) (n : nat) : config guarded visitor :=
  Config (Guarded (shared (sh_init m n)) v []) (flip Visitor None <$> threads (sh_init m n)).

#[local] Abbreviation vconfig := (config guarded visitor).

Definition of_shared (c : vconfig) : config (sh_state m) (sh_local m) :=
  Config (rw_lock_ (shared c)) (at_shared <$> threads c).

Definition visitors_reachable (v : T) (n : nat) : vconfig -> Prop := reachable visitor_step (visitors_init v n).

Definition visit_ok (v : T) (l : visitor) : Prop :=
  match visit_ l with
  | None => True
  | Some (Updating x _) => x = v /\ sh_writes m (at_shared l) = true
  | Some (Looking seen) => Forall (eq v) seen /\ holds_any (at_shared l) = true
  end.

Record VisitInv (v : T) (n : nat) (c : vconfig) : Prop := {
  inv_mutex : sh_reachable m n (of_shared c);
  inv_history : version (shared c) = update_all (history (shared c)) v;
  inv_visits : Forall (visit_ok (version (shared c))) (threads c)
}.

Context `{!SharedSpec m}.

(** Beside a writer nobody holds the mutex. *)
Lemma writer_alone n (c : vconfig) i j l x :
  sh_fits m n -> sh_reachable m n (of_shared c) -> threads c !! i = Some l -> threads c !! j = Some x ->
  sh_writes m (at_shared l) = true -> j <> i -> holds_any (at_shared x) = false.
Proof.
  intros Hn Hr Hi Hj Hw Hne. destruct (sh_exclusive n _ Hn Hr) as [H1 H2]. cbn [of_shared threads] in *.
  assert ((at_shared <$> threads c) !! i = Some (at_shared l)) as Hi' by (by rewrite list_lookup_fmap, Hi).
  assert ((at_shared <$> threads c) !! j = Some (at_shared x)) as Hj' by (by rewrite list_lookup_fmap, Hj).
  specialize (H2 (count_pos _ _ _ _ Hi' Hw)). unfold holds_any. apply orb_false_iff. split.
  - destruct (sh_writes m (at_shared x)) eqn:E; [|done]. destruct Hne. by eapply (count_unique (sh_writes m)).
  - destruct (sh_reads m (at_shared x)) eqn:E; [|done]. pose proof (count_pos _ _ _ _ Hj' E). lia.
Qed.

Lemma visit_same (c : vconfig) i l l' s' :
  threads c !! i = Some l -> at_shared l' = at_shared l -> rw_lock_ s' = rw_lock_ (shared c) ->
  of_shared (Config s' (<[i := l']> (threads c))) = of_shared c.
Proof. intros Hi E1 E2. unfold of_shared. simpl. by rewrite (component_same _ _ _ l), E2. Qed.

Lemma visitor_step_ok v n (c : vconfig) i ch l s' l' :
  sh_fits m n -> VisitInv v n c -> threads c !! i = Some l -> visitor_step i ch (shared c) l = Some (s', l') ->
  VisitInv v n (Config s' (<[i := l']> (threads c))).
Proof.
  intros Hn [Hr Hv Hall] Hi Hs. pose proof (Forall_lookup_1 _ _ _ _ Hall Hi) as Hl. unfold visit_ok in Hl.
  assert (forall w, visit_ok (version (shared c)) (Visitor (at_shared l) w) ->
    VisitInv v n (Config (shared c) (<[i := Visitor (at_shared l) w]> (threads c)))) as Hkeep.
  { intros w Hw. split; [by rewrite (visit_same _ _ l)|done|by apply Forall_insert]. }
  unfold visitor_step in Hs. destruct ch as [ch|f| | | |], (visit_ l) as [[x g|seen]|] eqn:El; try done.
  - destruct (sh_step m i ch (rw_lock_ (shared c)) (at_shared l)) as [[k x]|] eqn:Em; simplify_eq/=.
    split; [|done|by apply Forall_insert]. unfold of_shared. simpl. rewrite list_fmap_insert.
    eapply rtc_r; [exact Hr|]. apply (step_intro _ i ch). unfold cstep, of_shared. simpl.
    rewrite list_lookup_fmap, Hi. simpl. by rewrite Em.
  - destruct (sh_writes m (at_shared l)) eqn:Ew; simplify_eq. by apply Hkeep.
  - destruct Hl as [-> Hw]. simplify_eq. split; [by rewrite (visit_same _ _ l)| |]; simpl.
    + unfold update_all in *. by rewrite fold_left_app, <- Hv.
    + apply Forall_lookup_2. intros j y. rewrite list_lookup_insert_Some. intros [(<- & <- & _)|[Hne Hj]]; [done|].
      pose proof (Forall_lookup_1 _ _ _ _ Hall Hj) as Hy.
      pose proof (writer_alone n c i j l y Hn Hr Hi Hj Hw (not_eq_sym Hne)) as Ha.
      unfold visit_ok in *. destruct (visit_ y) as [[z f|seen]|]; [| |done]; destruct Hy as [_ Hy]; [|congruence].
      unfold holds_any in Ha. by rewrite Hy in Ha.
  - destruct (holds_any (at_shared l)) eqn:Eh; simplify_eq. by apply Hkeep.
  - destruct Hl as [Hseen Hh]. simplify_eq. apply Hkeep. split; [|done]. apply Forall_app. auto.
  - simplify_eq. by apply Hkeep.
Qed.

Lemma visits_reachable v n (c : vconfig) : sh_fits m n -> visitors_reachable v n c -> VisitInv v n c.
Proof.
  intros Hn. apply invariant_reachable; [|intros; by eapply visitor_step_ok].
  split; [|done|simpl; by apply Forall_fmap, Forall_true].
  unfold of_shared, visitors_init, sh_reachable. simpl. rewrite <- list_fmap_compose, fmap_unchanged by done.
  destruct (sh_init m n). apply rtc_refl.
Qed.
End client.

Arguments Guarded {_ _}. Arguments rw_lock_ {_ _}. Arguments version {_ _}. Arguments history {_ _}.
Arguments Visitor {_ _}. Arguments at_shared {_ _}. Arguments visit_ {_ _}.
Arguments OfShared {_ _}. Arguments BeginUpdate {_ _}. Arguments EndUpdate {_ _}.
Arguments BeginLook {_ _}. Arguments Look {_ _}. Arguments EndLook {_ _}.
