(* ===== verification/Futex.v ===== *)
(** * The atomic word and the futex

    A [std::atomic<uint32_t>] (or [int32_t]) with the kernel's queue of the
    threads asleep on it, the read-modify-write operations the library uses, and
    the program points of [atomic_wait] and [atomic_wait_until]
    (source/nova/sync/futex/atomic_wait.cpp, the Linux implementation).

    Every operation is one atomic step; memory is sequentially consistent. *)
From S2P Require Import Prelude Machine.
#[local] Open Scope Z_scope.

(** The word and the threads asleep in [FUTEX_WAIT] on it, oldest first. *)
Record fword := FWord { fval : Z; fqueue : list nat }.

Section operations.
Implicit Types (w : fword) (v : Z).

Definition set_val v w : fword := FWord v (fqueue w).

(** [compare_exchange_*]: a weak exchange may fail [spurious]ly.  The result
    is the new word, whether the exchange took place, and the value left in
    the caller's [expected]. *)
Definition cas (spurious : bool) (expected desired : Z) w : fword * bool * Z :=
  if negb spurious && (fval w =? expected)
  then (set_val desired w, true, expected)
  else (w, false, fval w).

(** [FUTEX_WAKE]: the kernel removes [n] of the sleepers from the queue. *)
Definition wake (n : nat) w : fword := FWord (fval w) (drop n (fqueue w)).

Definition asleep (tid : nat) w : bool := bool_decide (tid ∈ fqueue w).

(** A sleeper leaves the queue without being woken (signal, time-out). *)
Definition leave (tid : nat) w : fword :=
  FWord (fval w) (filter (fun t => t <> tid) (fqueue w)).

(** [FUTEX_WAIT] compares and enqueues atomically; [None] is [EAGAIN]. *)
Definition futex_wait (tid : nat) (old : Z) w : option fword :=
  if fval w =? old then Some (FWord (fval w) (fqueue w ++ [tid])) else None.
End operations.

#[global] Arguments leave : simpl never.
#[global] Arguments wake : simpl never.
#[global] Arguments set_val : simpl never.

(** What the kernel and the scheduler decide. *)
Inductive wchoice :=
| Go           (** the normal outcome *)
| Interrupted  (** the system call returns [EINTR] *)
| Spurious     (** the system call returns 0 though nobody woke the thread *)
| TimedOut     (** the system call returns [ETIMEDOUT] *)
| Fault.       (** the system call fails with another [errno] *)

#[export] Instance wchoice_eq_dec : EqDecision wchoice.
Proof. solve_decision. Defined.

(** What the environment decides in a step of a component with methods [M]. *)
Inductive choice (M : Type) :=
| Call (m : M)            (** the client's next call *)
| Act (spurious : bool)   (** an atomic action; a weak exchange may fail spuriously *)
| Kernel (k : wchoice)    (** the outcome of a system call *)
| Clock (expired : bool). (** whether the deadline has passed *)
Arguments Call {M} _.
Arguments Act {M} _.
Arguments Kernel {M} _.
Arguments Clock {M} _.

(** The choices of an environment that does not work against the thread: no
    spurious failure, no signal, no time-out. *)
Definition benign {M} (ch : choice M) : Prop :=
  ch = Act false \/ ch = Kernel Go \/ ch = Clock false.

(** The methods of a timed mutex. *)
Inductive mutex_method := MLock | MTryLock | MTryLockUntil | MUnlock.

(** Program points of [atomic_wait] / [atomic_wait_until]. *)
Inductive wait_pc :=
| WSpin (i : nat)   (** [atomic_wait], phases 1 and 2: iteration [i] of 10 + 4 loads *)
| WEnter            (** [atomic_wait_until]: the load before the first system call *)
| WCall             (** about to enter [FUTEX_WAIT] *)
| WAsleep           (** inside [FUTEX_WAIT] *)
| WCheck            (** [acquire_and_check] after the system call *)
| WExpired.         (** [ETIMEDOUT]: the last load *)

#[export] Instance wait_pc_eq_dec : EqDecision wait_pc.
Proof. solve_decision. Defined.

(** [max_active_spins] of phase 1 and [max_yield_spins] of phase 2. *)
Definition max_active_spins : nat := 10.
Definition max_yield_spins : nat := 4.

(** Phases 1 and 2 of [atomic_wait]: a bounded number of loads, each of which
    may return; the pauses and yields between them touch no shared state. *)
Definition spin_step (old : Z) (w : fword) (i : nat) : wait_pc + bool :=
  if negb (fval w =? old) then inr true
  else if (S i <? max_active_spins + max_yield_spins)%nat then inl (WSpin (S i))
  else inl WCall.

(** One step of the slow path, shared by [atomic_wait] and
    [atomic_wait_until].  [inr b] is the return: [b] is [atomic_wait_until]'s
    result, and [atomic_wait] drops it.  Only a timed wait can time out. *)
Definition wait_step (timed : bool) (tid : nat) (ch : wchoice) (old : Z) (w : fword) (pc : wait_pc)
  : option (fword * (wait_pc + bool)) :=
  match pc with
  | WSpin i => Some (w, spin_step old w i)
  | WEnter => Some (w, if negb (fval w =? old) then inr true else inl WCall)
  | WCall =>
      match futex_wait tid old w with
      | None => Some (w, inl WCheck)
      | Some w' => Some (w', inl WAsleep)
      end
  | WAsleep =>
      if asleep tid w then
        match ch with
        | Go => None
        | Interrupted => Some (leave tid w, inl WCall)
        | Spurious => Some (leave tid w, inl WCheck)
        | TimedOut => if timed then Some (leave tid w, inl WExpired) else None
        | Fault => Some (leave tid w, inr false)
        end
      else Some (w, inl WCheck)
  | WCheck => Some (w, if negb (fval w =? old) then inr true else inl WCall)
  | WExpired => Some (w, inr (negb (fval w =? old)))
  end.

(** [atomic_wait] starts spinning, [atomic_wait_until] with one load. *)
Definition atomic_wait : wait_pc := WSpin 0.
Definition atomic_wait_until : wait_pc := WEnter.

(** [atomic_notify_one] and [atomic_notify_all]. *)
Definition atomic_notify_one (w : fword) : fword := wake 1 w.
Definition atomic_notify_all (w : fword) : fword := wake (length (fqueue w)) w.

Section lemmas.
Implicit Types (w : fword) (tid : nat).

Lemma cas_val_fail sp e d w w' o : cas sp e d w = (w', false, o) -> w' = w /\ o = fval w.
Proof. unfold cas. intros. case_match; by simplify_eq. Qed.

Lemma cas_success sp e d w w' o :
  cas sp e d w = (w', true, o) -> fval w = e /\ w' = set_val d w /\ sp = false.
Proof. unfold cas. intros. case_match; simplify_eq. bools. done. Qed.

Lemma cas_cases sp e d w w' ok o :
  cas sp e d w = (w', ok, o) ->
  (ok = true /\ fval w = e /\ w' = set_val d w) \/ (ok = false /\ w' = w /\ o = fval w).
Proof.
  intros H. destruct ok; [apply cas_success in H|apply cas_val_fail in H]; naive_solver.
Qed.

Lemma cas_same w v d : fval w = v -> cas false v d w = (set_val d w, true, v).
Proof. intros <-. unfold cas. by rewrite Z.eqb_refl. Qed.

Lemma cas_differs w v d : fval w <> v -> cas false v d w = (w, false, fval w).
Proof. intros Hv. unfold cas. simpl. by apply Z.eqb_neq in Hv as ->. Qed.

Lemma asleep_true tid w : asleep tid w = true <-> tid ∈ fqueue w.
Proof. unfold asleep. by rewrite bool_decide_eq_true. Qed.

Lemma asleep_false tid w : asleep tid w = false <-> tid ∉ fqueue w.
Proof. unfold asleep. by rewrite bool_decide_eq_false. Qed.

Lemma leave_queue tid w t : t ∈ fqueue (leave tid w) <-> t ∈ fqueue w /\ t <> tid.
Proof. unfold leave; cbn. rewrite list_elem_of_filter. tauto. Qed.

Lemma wake_queue n w t : t ∈ fqueue (wake n w) -> t ∈ fqueue w.
Proof.
  unfold wake; cbn. intros H. rewrite <- (take_drop n (fqueue w)). apply elem_of_app. by right.
Qed.

Lemma notify_all_queue w : fqueue (atomic_notify_all w) = [].
Proof. unfold atomic_notify_all, wake; cbn. apply drop_all. Qed.

(** A wait never writes the word. *)
Lemma wait_step_val timed tid ch old w pc w' r :
  wait_step timed tid ch old w pc = Some (w', r) -> fval w' = fval w.
Proof. unfold wait_step, futex_wait. intros H. step_cases H; done. Qed.

(** Only the calling thread enters or leaves the queue. *)
Lemma wait_step_queue timed tid ch old w pc w' r t :
  wait_step timed tid ch old w pc = Some (w', r) -> t <> tid ->
  t ∈ fqueue w' <-> t ∈ fqueue w.
Proof.
  unfold wait_step, futex_wait. intros H Ht. step_cases H; try done;
    unfold leave; cbn [fqueue]; rewrite ?elem_of_app, ?list_elem_of_singleton, ?list_elem_of_filter;
    naive_solver.
Qed.

(** A thread that is in the queue after a step is inside [FUTEX_WAIT], and it
    went to sleep on the value the word has. *)
Lemma wait_step_asleep timed tid ch old w pc w' r :
  wait_step timed tid ch old w pc = Some (w', r) ->
  (tid ∈ fqueue w -> pc = WAsleep) ->
  tid ∈ fqueue w' -> r = inl WAsleep /\ fval w = old.
Proof.
  unfold wait_step, futex_wait. intros H Hq Hin. step_cases H;
    unfold leave in *; cbn [fqueue] in *; rewrite ?list_elem_of_filter, ?asleep_false in *;
    naive_solver.
Qed.

Lemma wait_step_nodup timed tid ch old w pc w' r :
  wait_step timed tid ch old w pc = Some (w', r) ->
  (tid ∈ fqueue w -> pc = WAsleep) ->
  NoDup (fqueue w) -> NoDup (fqueue w').
Proof.
  unfold wait_step, futex_wait. intros H Hq Hnd. step_cases H; try done;
    try by apply NoDup_filter.
  apply NoDup_app. split; [done|]. split; [|apply NoDup_singleton].
  intros x Hx ->%list_elem_of_singleton. by specialize (Hq Hx).
Qed.

(** The post-condition of the wait (without a [Fault]): it returns [true]
    exactly when the value it just read differs from [old]. *)
Lemma wait_step_return timed tid ch old w pc w' b :
  wait_step timed tid ch old w pc = Some (w', inr b) -> ch <> Fault ->
  b = negb (fval w =? old).
Proof.
  unfold wait_step, spin_step, futex_wait. intros H Hch. step_cases H; try done;
    destruct (Z.eqb_spec (fval w') old); simpl in *; repeat case_match; by simplify_eq.
Qed.
End lemmas.
