(* ===== verification/Backoff.v ===== *)
(** * Exponential backoff

    [detail::exponential_backoff] and [run_with_exponential_backoff_until] of
    include/nova/sync/detail/backoff.hpp.  Pauses and yields are counted, they
    have no other effect. *)
From S2P Require Import Prelude.
#[local] Open Scope Z_scope.

(** [struct exponential_backoff]: the member [backoff], initially 2. *)
Record exponential_backoff := Backoff { backoff : Z }.

Definition backoff_init : exponential_backoff := Backoff 2.

(** [spin_limit = 1 << 14] *)
Definition spin_limit : Z := Z.shiftl 1 14.

(** What [run] did: that many calls of [pause()], or one [yield()]. *)
Inductive backoff_effect := Paused (n : Z) | Yielded.

(** [exponential_backoff::run] *)
Definition run (b : exponential_backoff) : exponential_backoff * backoff_effect :=
  if backoff b <? spin_limit
  then (Backoff (i32 (backoff b * 2)), Paused (backoff b))
  else (b, Yielded).

(** [enum class backoff_result] *)
Inductive backoff_result := success | retry | retry_without_backoff.

#[export] Instance backoff_result_eq_dec : EqDecision backoff_result.
Proof. solve_decision. Defined.

(** One turn of the [do ... while] loop of [run_with_exponential_backoff_until],
    given what [func()] returned: the function's result, or the next turn. *)
Definition backoff_turn (r : backoff_result) (b : exponential_backoff) : bool + exponential_backoff :=
  match r with
  | success => inl true
  | retry_without_backoff => if backoff b <? spin_limit then inr b else inl false
  | retry => let b' := fst (run b) in if backoff b' <? spin_limit then inr b' else inl false
  end.

#[global] Arguments backoff_turn : simpl never.

(** [run_with_exponential_backoff_until], [func] threading a state; [None] when
    the fuel is exhausted. *)
Fixpoint run_until {A} (fuel : nat) (func : A -> backoff_result * A) (a : A) (b : exponential_backoff)
  : option (bool * A) :=
  match fuel with
  | O => None
  | S fuel' =>
      let '(r, a') := func a in
      match backoff_turn r b with
      | inl res => Some (res, a')
      | inr b' => run_until fuel' func a' b'
      end
  end.

Definition run_with_exponential_backoff_until {A} (fuel : nat) (func : A -> backoff_result * A) (a : A)
  : option (bool * A) := run_until fuel func a backoff_init.

(** Number of turns with [retry] left before the loop gives up. *)
Definition turns_left (b : exponential_backoff) : Z := 14 - Z.log2 (backoff b).

(** The values [backoff] takes inside the loop: 2, 4, ..., 2^13. *)
Definition spinning (b : exponential_backoff) : Prop :=
  exists k, 1 <= k < 14 /\ backoff b = 2 ^ k.

Lemma spinning_init : spinning backoff_init.
Proof. exists 1. split; [lia|reflexivity]. Qed.

Lemma spinning_bounds b : spinning b -> 2 <= backoff b < spin_limit.
Proof.
  intros (k & Hk & ->). change spin_limit with (2 ^ 14). split.
  - change 2 with (2 ^ 1) at 1. apply Z.pow_le_mono_r; lia.
  - apply Z.pow_lt_mono_r; lia.
Qed.

Lemma spinning_below b : spinning b -> (backoff b <? spin_limit) = true.
Proof. intros H%spinning_bounds. apply Z.ltb_lt. lia. Qed.

Lemma spinning_run b : spinning b -> backoff (fst (run b)) = 2 * backoff b.
Proof.
  intros H. unfold run. rewrite (spinning_below b H). simpl.
  apply spinning_bounds in H. change spin_limit with 16384 in H. rewrite i32_small; lia.
Qed.

(** The loop either goes on with a doubled [backoff], one turn fewer left, or
    gives up after the last turn. *)
Lemma turn_retry b :
  spinning b ->
  (exists b', backoff_turn retry b = inr b' /\ spinning b' /\ turns_left b' = turns_left b - 1) \/
  (backoff_turn retry b = inl false /\ turns_left b = 1).
Proof.
  intros Hs. pose proof (spinning_run b Hs) as Hr. destruct Hs as (k & Hk & Hb).
  unfold backoff_turn. cbv zeta. unfold turns_left. rewrite Hb, Z.log2_pow2 by lia.
  assert (backoff (fst (run b)) = 2 ^ (k + 1)) as Hb' by (rewrite Hr, Hb, Z.pow_add_r; lia).
  rewrite Hb'. change spin_limit with (2 ^ 14). destruct (Z.ltb_spec (2 ^ (k + 1)) (2 ^ 14)) as [Hlt|Hge].
  - apply Z.pow_lt_mono_r_iff in Hlt; try lia. left. eexists. split; [done|].
    split; [exists (k + 1); lia|]. rewrite Hb', Z.log2_pow2 by lia. lia.
  - right. split; [done|]. apply Z.pow_le_mono_r_iff in Hge; lia.
Qed.

Lemma turns_left_pos b : spinning b -> 1 <= turns_left b <= 13.
Proof. intros (k & Hk & Hb). unfold turns_left. rewrite Hb, Z.log2_pow2; lia. Qed.

Lemma turn_without_backoff b : spinning b -> backoff_turn retry_without_backoff b = inr b.
Proof. intros H. unfold backoff_turn. by rewrite spinning_below. Qed.

(** [func]'s result depends on the calls before it only through the state; it
    asks to go on without backoff at most [k] times in a row. *)
Fixpoint settles {A} (k : nat) (func : A -> backoff_result * A) (a : A) : Prop :=
  match fst (func a) with
  | retry_without_backoff => match k with O => False | S k' => settles k' func (snd (func a)) end
  | _ => True
  end.

Lemma run_until_more {A} (func : A -> backoff_result * A) n m a b x :
  run_until n func a b = Some x -> run_until (m + n) func a b = Some x.
Proof.
  revert m a b. induction n as [|n IH]; intros m a b H; [done|].
  rewrite Nat.add_succ_r. simpl in *. destruct (func a) as [r a'].
  destruct (backoff_turn r b); [done|]. by apply IH.
Qed.

Section termination.
Context {A : Type} (func : A -> backoff_result * A) (P : A -> Prop) (k : nat).
Hypothesis P_settles : forall a, P a -> settles k func a.
Hypothesis P_step : forall a, P a -> P (snd (func a)).

(** From [b], with fuel for [t] more turns that back off. *)
Definition ends_within (t : nat) (b : exponential_backoff) : Prop :=
  forall a, P a -> exists x, run_until (t * S k) func a b = Some x.

Lemma ends_within_step t b :
  spinning b ->
  (forall b', backoff_turn retry b = inr b' -> ends_within t b') ->
  ends_within (S t) b.
Proof.
  intros Hs Hnext a Ha.
  enough (forall j a, P a -> settles j func a ->
            exists x, run_until (S j + t * S k) func a b = Some x) as H by (apply (H k); auto).
  clear a Ha.
  assert (forall n a r, P a -> backoff_turn retry b = r ->
            exists x, match r with inl res => Some (res, a)
                      | inr b' => run_until (n + t * S k) func a b' end = Some x) as Hretry.
  { intros n a [res|b'] Ha Hr; [eauto|]. destruct (Hnext b' Hr a Ha) as [x Hx].
    exists x. by apply run_until_more. }
  induction j as [|j IHj]; intros a Ha Hset; simpl in Hset; simpl;
    pose proof (P_step a Ha) as Ha'; destruct (func a) as [[] a']; simpl in *;
    try done; try (by eauto); try (by apply (Hretry _ _ _ Ha' eq_refl)).
  - by apply (Hretry 0%nat _ _ Ha' eq_refl).
  - by apply (Hretry (S j) _ _ Ha' eq_refl).
  - rewrite (turn_without_backoff b Hs). by apply IHj.
Qed.

(** If [func] settles within [k] calls wherever the loop can be, the loop
    ends: it backs off at most 13 times. *)
Lemma run_until_ends a :
  P a -> exists x, run_with_exponential_backoff_until (13 * S k) func a = Some x.
Proof.
  assert (forall t b, spinning b -> turns_left b <= Z.of_nat t -> ends_within t b) as H.
  { induction t as [|t IH]; intros b Hs Ht; [pose proof (turns_left_pos b Hs); lia|].
    apply ends_within_step; [done|]. intros b' Hb'.
    destruct (turn_retry b Hs) as [(b'' & Hb'' & Hs' & Hl)|[Hb'' _]]; rewrite Hb' in Hb''; simplify_eq.
    apply IH; [done|lia]. }
  intros Ha. by apply (H 13%nat backoff_init spinning_init).
Qed.
End termination.

(** A functor that never asks for backoff and never succeeds keeps the loop
    spinning whatever the fuel. *)
Lemma run_until_diverges {A} (func : A -> backoff_result * A) (P : A -> Prop) :
  (forall a, P a -> fst (func a) = retry_without_backoff /\ P (snd (func a))) ->
  forall fuel b a, spinning b -> P a -> run_until fuel func a b = None.
Proof.
  intros HP. induction fuel as [|fuel IH]; intros b a Hs Ha; simpl; [done|].
  destruct (HP a Ha) as [Hr Ha']. destruct (func a) as [r a']; simpl in *; subst r.
  rewrite (turn_without_backoff b Hs). by apply IH.
Qed.

(** The pauses of a loop whose functor always asks to back off. *)
Fixpoint pauses_until (fuel : nat) (b : exponential_backoff) : option (nat * Z) :=
  match fuel with
  | O => None
  | S fuel' =>
      let spent := match snd (run b) with Paused n => n | Yielded => 0 end in
      match backoff_turn retry b with
      | inl _ => Some (1%nat, spent)
      | inr b' => match pauses_until fuel' b' with
                  | None => None
                  | Some (calls, n) => Some (S calls, spent + n)
                  end
      end
  end.

Lemma backoff_turn_true r b : backoff_turn r b = inl true <-> r = success.
Proof. unfold backoff_turn. destruct r; repeat case_match; naive_solver. Qed.

Lemma backoff_turn_success b : backoff_turn success b = inl true.
Proof. done. Qed.
