(* ===== verification/ParkingMutex.v ===== *)
(** * The parking mutex

    [impl::parking_mutex_plain], [_backoff], [_timed] and [_timed_backoff]
    (include/nova/sync/mutex/parking_mutex.hpp,
    source/nova/sync/mutex/parking_mutex.cpp).  The four classes differ in two
    policies, [has_backoff_v] and [has_timed_v], the flags of this model. *)
From S2P Require Import Prelude Machine Futex Backoff.
#[local] Open Scope Z_scope.

(** The policies of [parking_mutex<Policies...>]. *)
Record policies := Policies { has_backoff : bool; has_timed : bool }.

(** Program points of a thread that uses the mutex.  [Idle] and [Holding] are
    outside of every method: the thread does not hold, respectively holds the
    mutex. *)
Inductive pc :=
| Idle
| Holding
| Lock                                        (** [lock()]: the first CAS *)
| TryLock                                     (** [try_lock()] *)
| TryLockUntil                                (** [try_lock_until()]: the call of [try_lock()] *)
| Spin (expected : Z) (b : exponential_backoff) (** [lock_slow] with backoff: the spin loop *)
| Register (until : bool)                     (** [state_.fetch_add( 2 )] *)
| Reload (until : bool)                       (** [expected = state_.load()] *)
| Loop (until : bool) (expected : Z)          (** head of the [while ( true )] loop *)
| Park (until : bool) (expected : Z) (w : wait_pc) (** in [atomic_wait] / [atomic_wait_until] *)
| UndoReload                                  (** timed out: [expected = state_.load()] *)
| UndoLoop (expected : Z)                     (** the inner [while ( true )] loop *)
| Unlock                                      (** [unlock()]: [state_.fetch_and( ~1u )] *)
| Notify.                                     (** [unlock()]: [atomic_notify_one] *)

#[export] Instance pc_eq_dec : EqDecision pc.
Proof.
  intros x y. unfold Decision. repeat (decide equality).
Defined.

(** The CAS used by [lock_slow] and [lock_slow_until] once registered: take the
    lock and drop the registration. *)
Definition acquire_registered (spurious : bool) (expected : Z) (w : fword) : fword * bool * Z :=
  cas spurious expected (Z.lor (u32 (expected - 2)) 1) w.

(** [lock()] *)
Definition lock (p : policies) (spurious : bool) (w : fword) : fword * pc :=
  let '(w', ok, expected) := cas spurious 0 1 w in
  if ok then (w', Holding)
  else if has_backoff p then (w', Spin expected backoff_init)
  else (w', Register false).

(** [try_lock()] *)
Definition try_lock (w : fword) : fword * bool :=
  let '(w', ok, _) := cas false 0 1 w in (w', ok).

(** The functor [lock_slow] passes to [run_with_exponential_backoff_until]; it
    captures [expected] by reference. *)
Definition spin_functor (spurious : bool) (w : fword) (expected : Z) : fword * backoff_result * Z :=
  if Z.land expected 1 =? 0 then
    let '(w', ok, expected') := cas spurious expected (Z.lor expected 1) w in
    if ok then (w', success, expected') else (w', retry_without_backoff, expected')
  else (w, retry, expected).

(** The spin phase of [parking_mutex_backoff::lock_slow] and
    [parking_mutex_timed_backoff::lock_slow]. *)
Definition spin (spurious : bool) (w : fword) (expected : Z) (b : exponential_backoff) : fword * pc :=
  let '(w', r, expected') := spin_functor spurious w expected in
  match backoff_turn r b with
  | inl true => (w', Holding)
  | inl false => (w', Register false)
  | inr b' => (w', Spin expected' b')
  end.

(** One turn of the [while ( true )] loop of [lock_slow] ([until = false]) and
    of [lock_slow_until] ([until = true]). *)
Definition slow_loop (spurious until : bool) (w : fword) (expected : Z) : fword * pc :=
  if Z.land expected 1 =? 0 then
    let '(w', ok, expected') := acquire_registered spurious expected w in
    if ok then (w', Holding) else (w', Loop until expected')
  else (w, Park until expected (if until then atomic_wait_until else atomic_wait)).

(** [lock_slow]: wait in [atomic_wait], then load [expected] again. *)
Definition park (tid : nat) (ch : wchoice) (until : bool) (expected : Z) (w : fword) (wp : wait_pc)
  : option (fword * pc) :=
  match wait_step until tid ch expected w wp with
  | None => None
  | Some (w', inl wp') => Some (w', Park until expected wp')
  | Some (w', inr woken) =>
      if until && negb woken then Some (w', UndoReload) else Some (w', Reload until)
  end.

(** [lock_slow_until] after a time-out: take the lock if it is free, otherwise
    undo the registration and fail. *)
Definition undo_loop (spurious : bool) (w : fword) (expected : Z) : fword * pc :=
  if Z.land expected 1 =? 0 then
    let '(w', ok, expected') := acquire_registered spurious expected w in
    if ok then (w', Holding) else (w', UndoLoop expected')
  else
    let '(w', ok, expected') := cas spurious expected (u32 (expected - 2)) w in
    if ok then (w', Idle) else (w', UndoLoop expected').

(** [unlock()], up to the notification. *)
Definition unlock (w : fword) : fword * pc :=
  let prev := fval w in
  let w' := set_val (Z.land prev not_one) w in
  if 1 <? prev then (w', Notify) else (w', Idle).

#[global] Arguments lock : simpl never.
#[global] Arguments try_lock : simpl never.
#[global] Arguments spin : simpl never.
#[global] Arguments slow_loop : simpl never.
#[global] Arguments undo_loop : simpl never.
#[global] Arguments unlock : simpl never.
#[global] Arguments park : simpl never.

(** A step of a thread. *)
Definition tstep (p : policies) (tid : nat) (ch : choice mutex_method) (w : fword) (l : pc) : option (fword * pc) :=
  match l, ch with
  | Idle, Call MLock => Some (w, Lock)
  | Idle, Call MTryLock => Some (w, TryLock)
  | Idle, Call MTryLockUntil => if has_timed p then Some (w, TryLockUntil) else None
  | Holding, Call MUnlock => Some (w, Unlock)
  | Lock, Act sp => Some (lock p sp w)
  | TryLock, Act _ =>
      let '(w', ok) := try_lock w in Some (w', if ok then Holding else Idle)
  | TryLockUntil, Act _ =>
      let '(w', ok) := try_lock w in Some (w', if ok then Holding else Register true)
  | Spin e b, Act sp => Some (spin sp w e b)
  | Register u, Act _ => Some (set_val (u32 (fval w + 2)) w, Reload u)
  | Reload u, Act _ => Some (w, Loop u (fval w))
  | Loop u e, Act sp => Some (slow_loop sp u w e)
  | Park u e wp, Kernel k => park tid k u e w wp
  | UndoReload, Act _ => Some (w, UndoLoop (fval w))
  | UndoLoop e, Act sp => Some (undo_loop sp w e)
  | Unlock, Act _ => Some (unlock w)
  | Notify, Act _ => Some (atomic_notify_one w, Idle)
  | _, _ => None
  end.

(** The four classes. *)
Definition parking_mutex_plain := tstep (Policies false false).
Definition parking_mutex_backoff := tstep (Policies true false).
Definition parking_mutex_timed := tstep (Policies false true).
Definition parking_mutex_timed_backoff := tstep (Policies true true).

Abbreviation pconfig := (config fword pc).

(** [n] threads that use a fresh mutex. *)
Definition init (n : nat) : pconfig := Config (FWord 0 []) (replicate n Idle).

(** ** The invariant *)

(** The thread holds the mutex (until the [fetch_and] of [unlock]). *)
Definition holds (l : pc) : bool :=
  match l with Holding | Unlock => true | _ => false end.

(** The thread is counted in bits 1-31 of the word. *)
Definition registered (l : pc) : bool :=
  match l with
  | Reload _ | Loop _ _ | Park _ _ _ | UndoReload | UndoLoop _ => true
  | _ => false
  end.

(** What the thread contributes to the word. *)
Definition weight (l : pc) : Z := 2 * Z.b2z (registered l) + Z.b2z (holds l).

(** A thread that is about to re-examine the word or to wake a sleeper. *)
Definition awake (w : fword) (i : nat) (l : pc) : Prop :=
  (registered l = true /\ i ∉ fqueue w) \/ l = Notify.

Definition holders (c : pconfig) : Z := count holds (threads c).
Definition waiters (c : pconfig) : Z := count registered (threads c).

Record Inv (n : nat) (c : pconfig) : Prop := {
  inv_threads : length (threads c) = n;
  inv_word : fval (shared c) = 2 * waiters c + holders c;
  inv_excl : holders c <= 1;
  inv_nodup : NoDup (fqueue (shared c));
  inv_queue : forall t, t ∈ fqueue (shared c) ->
    exists u e, threads c !! t = Some (Park u e WAsleep);
  inv_park : forall t u e wp, threads c !! t = Some (Park u e wp) -> e mod 2 = 1;
  inv_wake : fqueue (shared c) <> [] -> holders c = 0 ->
    exists i l, threads c !! i = Some l /\ awake (shared c) i l
}.

(** ** One step *)

Ltac word_arith := Z.div_mod_to_equations; lia.

(** Close the goals of the effect lemmas. *)
Ltac effect_done :=
  split_and?; simpl in *; intros; try done; try lia; try congruence; try word_arith.

(** A step keeps the sleepers, changes the word by the difference of the
    thread's contributions, and takes the lock only when bit 0 is clear. *)
Definition effect (w : fword) (l : pc) (w' : fword) (l' : pc) : Prop :=
  fval w' = fval w - weight l + weight l' /\
  (holds l' = true -> holds l = false -> fval w mod 2 = 0).

Section effects.
Implicit Types (w : fword) (l : pc) (sp : bool).

Lemma lock_effect p sp w w' l' : lock p sp w = (w', l') -> effect w Lock w' l' /\ fqueue w' = fqueue w.
Proof.
  unfold lock, effect, weight. intros H. destruct (cas sp 0 1 w) as [[w1 ok] o] eqn:E.
  apply cas_cases in E as [(-> & Hw & ->)|(-> & -> & _)];
    [|destruct (has_backoff p)]; simplify_eq/=; effect_done.
Qed.

Lemma try_lock_effect w w' ok (l l' : pc) :
  try_lock w = (w', ok) -> weight l = 0 -> weight l' = Z.b2z ok -> (holds l' = true -> ok = true) ->
  effect w l w' l' /\ fqueue w' = fqueue w.
Proof.
  unfold try_lock, effect. intros H Hl Hl' Hh. destruct (cas false 0 1 w) as [[w1 ok1] o] eqn:E.
  apply cas_cases in E as [(-> & Hw & ->)|(-> & -> & _)]; simplify_eq/=; rewrite ?Hl, ?Hl';
    simpl; effect_done.
Qed.

Lemma spin_effect sp w e b w' l' :
  spin sp w e b = (w', l') -> effect w (Spin e b) w' l' /\ fqueue w' = fqueue w.
Proof.
  unfold spin, spin_functor, effect, weight. rewrite land_one. intros H.
  destruct (Z.eqb_spec (e mod 2) 0) as [He|He].
  - destruct (cas sp e (Z.lor e 1) w) as [[w1 ok] o] eqn:E.
    apply cas_cases in E as [(-> & Hw & ->)|(-> & -> & _)].
    + rewrite backoff_turn_success in H. simplify_eq/=. rewrite lor_one. effect_done.
    + destruct (backoff_turn retry_without_backoff b) as [[]|] eqn:Et; try (by apply backoff_turn_true in Et);
        simplify_eq/=; effect_done.
  - destruct (backoff_turn retry b) as [[]|] eqn:Et; try (by apply backoff_turn_true in Et);
      simplify_eq/=; effect_done.
Qed.

(** Taking the lock and dropping the registration in one exchange. *)
Lemma acquire_registered_effect sp e w w' ok o :
  acquire_registered sp e w = (w', ok, o) -> e mod 2 = 0 -> 2 <= fval w < 2 ^ 32 ->
  fqueue w' = fqueue w /\ fval w' = fval w - Z.b2z ok /\ (ok = true -> fval w mod 2 = 0) /\
  (ok = false -> o = fval w).
Proof.
  unfold acquire_registered. intros E He Hw.
  apply cas_cases in E as [(-> & Hv & ->)|(-> & -> & ->)]; [|effect_done].
  split_and!; simpl; try done; [|congruence].
  rewrite lor_one, u32_small by lia. word_arith.
Qed.

Lemma slow_loop_effect sp u w e w' l' :
  slow_loop sp u w e = (w', l') -> 2 <= fval w < 2 ^ 32 ->
  effect w (Loop u e) w' l' /\ fqueue w' = fqueue w.
Proof.
  unfold slow_loop, effect, weight. rewrite land_one. intros H Hw.
  destruct (Z.eqb_spec (e mod 2) 0) as [He|He]; [|simplify_eq/=; effect_done].
  destruct (acquire_registered sp e w) as [[w1 ok] o] eqn:E.
  apply acquire_registered_effect in E as (Hq & Hv & Hm & _); try done.
  destruct ok; simplify_eq/=; effect_done.
Qed.

Lemma undo_loop_effect sp w e w' l' :
  undo_loop sp w e = (w', l') -> 2 <= fval w < 2 ^ 32 ->
  effect w (UndoLoop e) w' l' /\ fqueue w' = fqueue w.
Proof.
  unfold undo_loop, effect, weight. rewrite land_one. intros H Hw.
  destruct (Z.eqb_spec (e mod 2) 0) as [He|He].
  - destruct (acquire_registered sp e w) as [[w1 ok] o] eqn:E.
    apply acquire_registered_effect in E as (Hq & Hv & Hm & _); try done.
    destruct ok; simplify_eq/=; effect_done.
  - destruct (cas sp e (u32 (e - 2)) w) as [[w1 ok] o] eqn:E.
    apply cas_cases in E as [(-> & Hv & ->)|(-> & -> & ->)]; simplify_eq/=; [|effect_done].
    rewrite u32_small by lia. effect_done.
Qed.

Lemma unlock_effect w w' l' :
  unlock w = (w', l') -> fval w mod 2 = 1 -> 0 <= fval w < 2 ^ 32 ->
  effect w Unlock w' l' /\ fqueue w' = fqueue w.
Proof.
  unfold unlock, effect, weight. intros H Hm Hw. rewrite land_not_one in H by done.
  case_match; simplify_eq/=; effect_done.
Qed.

Lemma park_effect tid k u e w wp w' l' :
  park tid k u e w wp = Some (w', l') -> effect w (Park u e wp) w' l'.
Proof.
  unfold park, effect, weight. intros H.
  destruct (wait_step u tid k e w wp) as [[w1 [wp'|b]]|] eqn:E; [| |done];
    apply wait_step_val in E; [|case_match]; simplify_eq/=; effect_done.
Qed.
End effects.

Lemma tstep_effect p i ch w l w' l' :
  tstep p i ch w l = Some (w', l') -> 0 <= fval w -> fval w + 2 < 2 ^ 32 ->
  (registered l = true -> 2 <= fval w) -> (holds l = true -> fval w mod 2 = 1) ->
  effect w l w' l'.
Proof.
  intros H H0 Hb Hr Hh.
  destruct l, ch as [[]| | |]; simpl in H; try done; try (destruct (has_timed p); [|done]); try (by simplify_eq/=; unfold effect, weight; simpl; effect_done).
  - apply (inj Some) in H. by apply lock_effect in H as [? _].
  - destruct (try_lock w) as [w1 ok] eqn:E. simplify_eq/=. apply (try_lock_effect _ _ _ TryLock (if ok then Holding else Idle)) in E as [? _];
      by destruct ok.
  - destruct (try_lock w) as [w1 ok] eqn:E. simplify_eq/=. apply (try_lock_effect _ _ _ TryLockUntil (if ok then Holding else Register true)) in E as [? _];
      by destruct ok.
  - apply (inj Some) in H. by apply spin_effect in H as [? _].
  - simplify_eq/=. unfold effect, weight; simpl. rewrite u32_small by lia. effect_done.
  - apply (inj Some) in H. apply slow_loop_effect in H as [? _]; [done|]. specialize (Hr eq_refl). lia.
  - by apply park_effect in H.
  - apply (inj Some) in H. apply undo_loop_effect in H as [? _]; [done|]. specialize (Hr eq_refl). lia.
  - apply (inj Some) in H. apply unlock_effect in H as [? _]; auto; lia.
Qed.

(** ** The queue *)

Definition parked (l : pc) : bool := match l with Park _ _ _ => true | _ => false end.

Lemma tstep_same_queue p i ch w l w' l' :
  tstep p i ch w l = Some (w', l') -> parked l = false -> l <> Notify ->
  0 <= fval w < 2 ^ 32 -> (registered l = true -> 2 <= fval w) -> (holds l = true -> fval w mod 2 = 1) ->
  fqueue w' = fqueue w.
Proof.
  intros H Hp Hn Hw Hr Hh.
  destruct l, ch as [[]| | |]; simpl in H; try done; try (destruct (has_timed p); [|done]); try (by simplify_eq/=).
  - apply (inj Some) in H. by apply lock_effect in H as [_ ?].
  - destruct (try_lock w) as [w1 ok] eqn:E. simplify_eq/=.
    apply (try_lock_effect _ _ _ TryLock (if ok then Holding else Idle)) in E as [_ ?]; by destruct ok.
  - destruct (try_lock w) as [w1 ok] eqn:E. simplify_eq/=.
    apply (try_lock_effect _ _ _ TryLockUntil (if ok then Holding else Register true)) in E as [_ ?]; by destruct ok.
  - apply (inj Some) in H. by apply spin_effect in H as [_ ?].
  - apply (inj Some) in H. apply slow_loop_effect in H as [_ ?]; [done|]. specialize (Hr eq_refl). lia.
  - apply (inj Some) in H. apply undo_loop_effect in H as [_ ?]; [done|]. specialize (Hr eq_refl). lia.
  - apply (inj Some) in H. apply unlock_effect in H as [_ ?]; auto; lia.
Qed.

(** What a step in [atomic_wait] does to the queue. *)
Lemma park_queue tid k u e w wp w' l' :
  park tid k u e w wp = Some (w', l') ->
  (tid ∈ fqueue w -> wp = WAsleep) -> NoDup (fqueue w) ->
  NoDup (fqueue w') /\ (forall t, t <> tid -> t ∈ fqueue w' -> t ∈ fqueue w) /\
  (tid ∈ fqueue w' -> l' = Park u e WAsleep /\ fval w = e) /\
  registered l' = true /\ holds l' = false /\
  (forall u' e' wp', l' = Park u' e' wp' -> e' = e).
Proof.
  unfold park. intros H Hq Hnd.
  destruct (wait_step u tid k e w wp) as [[w1 r]|] eqn:E; [|done].
  assert (w1 = w') as -> by (destruct r; repeat case_match; by simplify_eq).
  pose proof (wait_step_nodup _ _ _ _ _ _ _ _ E Hq Hnd) as Hnd'.
  pose proof (wait_step_asleep _ _ _ _ _ _ _ _ E Hq) as Hs.
  pose proof (fun t => wait_step_queue _ _ _ _ _ _ _ _ t E) as Hother.
  split_and!; [done|intros t Ht; by apply Hother|..];
    destruct r; repeat case_match; naive_solver.
Qed.

(** Dropping the registration happens with the lock taken. *)
Lemma tstep_deregister p i ch w l w' l' :
  tstep p i ch w l = Some (w', l') -> registered l = true -> registered l' = false ->
  holds l' = true \/ fval w mod 2 = 1.
Proof.
  intros H Hr Hr'.
  destruct l, ch as [[]| | |]; simpl in H; try done; try (by simplify_eq/=); apply (inj Some) in H || idtac.
  - unfold slow_loop in H. step_cases H; naive_solver.
  - unfold park in H. repeat case_match; simplify_eq; done.
  - unfold undo_loop in H. rewrite land_one in H.
    destruct (Z.eqb_spec (expected mod 2) 0).
    + repeat case_match; simplify_eq; naive_solver.
    + destruct (cas _ _ _ _) as [[w1 ok] o] eqn:E. apply cas_cases in E as [(-> & Hv & ->)|(-> & -> & _)];
        simplify_eq/=. right. word_arith.
Qed.

Lemma tstep_release p i ch w l w' l' :
  tstep p i ch w l = Some (w', l') -> holds l = true -> holds l' = false ->
  l' = Notify \/ fval w <= 1.
Proof.
  intros H Hr Hr'. destruct l, ch as [[]| | |]; simpl in H; try done; simplify_eq/=; try done.
  unfold unlock in H. case_match; simplify_eq; bools; naive_solver lia.
Qed.

Lemma tstep_park_odd p i ch w l w' l' u e wp :
  tstep p i ch w l = Some (w', l') -> l' = Park u e wp ->
  (forall u' e' wp', l = Park u' e' wp' -> e' mod 2 = 1) -> e mod 2 = 1.
Proof.
  intros H -> Hl. destruct l, ch as [[]| | |]; simpl in H; try done; try (apply (inj Some) in H);
    try (unfold lock, spin, spin_functor, undo_loop, unlock in H; repeat case_match; simplify_eq; done).
  - unfold slow_loop in H. rewrite land_one in H. destruct (Z.eqb_spec (expected mod 2) 0).
    + repeat case_match; simplify_eq.
    + simplify_eq. word_arith.
  - unfold park in H. repeat case_match; simplify_eq. by eapply Hl.
Qed.

(** ** Preservation *)

Lemma parking_inv_init n : Inv n (init n).
Proof.
  assert (forall p l, l ∈ replicate n Idle -> p Idle = false -> p l = false) as Hall.
  { intros p l Hl. by apply elem_of_replicate_inv in Hl as ->. }
  assert (holders (init n) = 0) as Hh by (apply count_all_false; intros; by apply Hall).
  assert (waiters (init n) = 0) as Hw by (apply count_all_false; intros; by apply Hall).
  constructor; rewrite ?Hh, ?Hw; simpl; try done.
  - by rewrite length_replicate.
  - apply NoDup_nil_2.
  - by intros t ?%not_elem_of_nil.
  - intros t u e wp Ht. apply lookup_replicate in Ht as [? _]. done.
Qed.

Section preservation.
Context (p : policies) (n : nat).
(** Bits 1-31 count the waiters, so there must be fewer than 2^31 of them. *)
Hypothesis few_threads : Z.of_nat n < 2 ^ 31 - 2.

Context (c : pconfig) (i : nat) (ch : choice mutex_method) (l : pc) (w' : fword) (l' : pc).
Hypothesis HI : Inv n c.
Hypothesis Hl : threads c !! i = Some l.
Hypothesis Hstep : tstep p i ch (shared c) l = Some (w', l').
#[local] Notation c' := (Config w' (<[i := l']> (threads c))).

Lemma word_bounds :
  0 <= fval (shared c) /\ fval (shared c) + 2 < 2 ^ 32 /\
  (registered l = true -> 2 <= fval (shared c)) /\ (holds l = true -> fval (shared c) mod 2 = 1) /\
  0 <= holders c /\ (fval (shared c) mod 2 = 1 -> holders c = 1) /\
  (fval (shared c) mod 2 = 0 -> holders c = 0).
Proof.
  destruct HI as [Hn Hw He _ _ _ _]. unfold holders, waiters in *.
  pose proof (count_bounds holds (threads c)). pose proof (count_bounds registered (threads c)).
  rewrite Hn in *. split_and!; try lia; intros Hx; try word_arith.
  - pose proof (count_pos registered _ _ _ Hl Hx). lia.
  - pose proof (count_pos holds _ _ _ Hl Hx). word_arith.
Qed.

Lemma step_counts :
  holders c' = holders c - Z.b2z (holds l) + Z.b2z (holds l') /\
  waiters c' = waiters c - Z.b2z (registered l) + Z.b2z (registered l').
Proof. split; by apply count_insert. Qed.

Lemma preserved_word :
  fval w' = 2 * waiters c' + holders c' /\ holders c' <= 1.
Proof.
  destruct word_bounds as (H0 & Hb & Hr & Hh & Hpos & H1 & Hz). destruct step_counts as [-> ->].
  destruct (tstep_effect _ _ _ _ _ _ _ Hstep H0 Hb Hr Hh) as [-> Htake].
  unfold weight. rewrite (inv_word n c HI). pose proof (inv_excl n c HI).
  split; [lia|]. destruct (holds l), (holds l') eqn:?; simpl; rewrite ?Hz by auto; lia.
Qed.

Lemma in_queue_parked : i ∈ fqueue (shared c) -> exists u e, l = Park u e WAsleep.
Proof. intros (u & e & H)%(inv_queue n c HI). rewrite Hl in H. simplify_eq. eauto. Qed.

(** The queue after the step. *)
Lemma preserved_queue :
  NoDup (fqueue w') /\
  (forall t, t <> i -> t ∈ fqueue w' -> t ∈ fqueue (shared c)) /\
  (i ∈ fqueue w' -> exists u e, l' = Park u e WAsleep /\ holds l = false /\ fval (shared c) mod 2 = 1).
Proof.
  destruct word_bounds as (H0 & Hb & Hr & Hh & _).
  pose proof in_queue_parked as Hq. pose proof (inv_nodup n c HI) as Hnd.
  destruct (parked l) eqn:Hp.
  - destruct l as [| | | | | | | | |u e wp| | | |]; try done. destruct ch as [| |k|]; try done.
    destruct (park_queue i k u e (shared c) wp w' l' Hstep) as (? & ? & Ha & _); [|done|].
    { intros (? & ? & ?)%Hq. naive_solver. }
    split_and!; try done. intros [-> He]%Ha. exists u, e. split_and!; try done. rewrite He.
    by eapply (inv_park n c HI).
  - destruct (decide (l = Notify)) as [->|Hn].
    + destruct ch; simpl in Hstep; try done. injection Hstep as <- <-.
      unfold atomic_notify_one, wake; cbn. split_and!.
      * rewrite <- (take_drop 1 (fqueue (shared c))) in Hnd. by apply NoDup_app in Hnd as (_ & _ & ?).
      * intros t _. apply (wake_queue 1 (shared c)).
      * intros Hin%(wake_queue 1 (shared c)). by destruct (Hq Hin) as (? & ? & ?).
    + rewrite (tstep_same_queue _ _ _ _ _ _ _ Hstep) by (try done; lia).
      split_and!; try done. intros (? & ? & ->)%Hq. done.
Qed.

Lemma preserved_wake :
  fqueue w' <> [] -> holders c' = 0 ->
  exists j lj, threads c' !! j = Some lj /\ awake w' j lj.
Proof.
  intros Hne Hfree. destruct word_bounds as (H0 & Hb & Hr & Hh & Hpos & H1 & Hz).
  destruct step_counts as [Hhc _].
  destruct preserved_queue as (Hnd & Hold & Hself).
  assert (threads c' !! i = Some l') as Hl' by (apply list_lookup_insert_eq; by apply lookup_lt_Some in Hl).
  assert (forall j, j <> i -> threads c' !! j = threads c !! j) as Hothers
    by (intros; by apply list_lookup_insert_ne).
  destruct (decide (l = Notify)) as [->|HnN].
  { destruct ch; simpl in Hstep; try done. injection Hstep as <- <-.
    unfold atomic_notify_one, wake in *. cbn [fqueue fval] in *.
    pose proof (inv_nodup n c HI) as Hnd0.
    destruct (fqueue (shared c)) as [|x q] eqn:Eq; [done|]. cbn [drop] in *.
    destruct (inv_queue n c HI x) as (u & e & Hx); [rewrite Eq; left|].
    assert (x <> i) by (intros ->; rewrite Hl in Hx; simplify_eq).
    exists x, (Park u e WAsleep). rewrite Hothers by done. split; [done|].
    left. split; [done|]. cbn. by apply NoDup_cons in Hnd0 as [? _]. }
  destruct (decide (i ∈ fqueue w')) as [Hin|Hin].
  { destruct (Hself Hin) as (u & e & -> & Hnh & Hodd). rewrite Hnh in Hhc. simpl in Hhc.
    rewrite H1 in Hhc by done. lia. }
  destruct (registered l') eqn:Er'; [exists i, l'; split; [done|by left]|].
  destruct (decide (l' = Notify)) as [->|HnN']; [exists i, Notify; split; [done|by right]|].
  destruct (registered l) eqn:Er.
  { destruct (holds l) eqn:Ehl; [by destruct l|].
    destruct (tstep_deregister _ _ _ _ _ _ _ Hstep Er Er') as [Hh'|Hodd].
    - rewrite Hh' in Hhc. simpl in Hhc. lia.
    - rewrite H1 in Hhc by done. destruct (holds l'); simpl in Hhc; lia. }
  assert (parked l = false) as Hnp by (by destruct l).
  pose proof (tstep_same_queue _ _ _ _ _ _ _ Hstep Hnp HnN ltac:(lia) ltac:(congruence) Hh) as Hsq.
  assert (holders c = 0) as Hc0.
  { destruct (holds l') eqn:Ehl'; [simpl in Hhc; destruct (holds l); simpl in Hhc; lia|].
    destruct (holds l) eqn:Ehl; [|simpl in Hhc; lia].
    destruct (tstep_release _ _ _ _ _ _ _ Hstep Ehl Ehl') as [?|Hle]; [done|].
    destruct (fqueue (shared c)) as [|x q] eqn:Eq; [congruence|].
    destruct (inv_queue n c HI x) as (u & e & Hx); [rewrite Eq; left|].
    pose proof (count_pos registered _ _ _ Hx eq_refl).
    pose proof (inv_word n c HI). unfold waiters in *. lia. }
  rewrite Hsq in Hne. destruct (inv_wake n c HI Hne Hc0) as (j & lj & Hj & Haw).
  destruct (decide (j = i)) as [->|Hji].
  { rewrite Hl in Hj. simplify_eq. destruct Haw as [[? _]|?]; congruence. }
  exists j, lj. rewrite Hothers by done. split; [done|]. unfold awake in *. by rewrite Hsq.
Qed.

Lemma Inv_step : Inv n c'.
Proof.
  destruct preserved_word as [Hw He]. destruct preserved_queue as (Hnd & Hold & Hself).
  constructor; simpl; try done.
  - rewrite length_insert. apply (inv_threads n c HI).
  - intros t Ht. destruct (decide (t = i)) as [->|Hti].
    + destruct (Hself Ht) as (u & e & -> & _). exists u, e.
      apply list_lookup_insert_eq. by apply lookup_lt_Some in Hl.
    + rewrite list_lookup_insert_ne by done. by apply (inv_queue n c HI), Hold.
  - intros t u e wp. destruct (decide (t = i)) as [->|Hti].
    + rewrite list_lookup_insert_eq by (by apply lookup_lt_Some in Hl). intros [= ->].
      eapply tstep_park_odd; [done..|]. intros u' e' wp' ->. by eapply (inv_park n c HI).
    + rewrite list_lookup_insert_ne by done. apply (inv_park n c HI).
  - apply preserved_wake.
Qed.
End preservation.

Lemma parking_inv_reachable p n c :
  Z.of_nat n < 2 ^ 31 - 2 -> reachable (tstep p) (init n) c -> Inv n c.
Proof.
  intros Hn. apply invariant_reachable; [apply parking_inv_init|].
  intros i ch c1 l s' l' HI Hl Hs. by eapply Inv_step.
Qed.

(** ** Progress *)

Abbreviation acquires p := (reaches_alone (tstep p) benign (fun l => l = Holding)).

Section progress.
Context (p : policies) (i : nat) (w : fword).
Hypothesis free : fval w mod 2 = 0.
Hypothesis not_asleep : i ∉ fqueue w.

#[local] Ltac go c := eapply (reaches_step (tstep p) _ _ _ _ c); [|unfold benign; by eauto|].

Lemma loop_current u : acquires p i 1 w (Loop u (fval w)).
Proof.
  go (Act (M := mutex_method) false); [|by apply reaches_now]. simpl. unfold slow_loop, acquire_registered.
  rewrite land_one, free, (cas_same w (fval w)) by done. done.
Qed.

Lemma undo_current : acquires p i 1 w (UndoLoop (fval w)).
Proof.
  go (Act (M := mutex_method) false); [|by apply reaches_now]. simpl. unfold undo_loop, acquire_registered.
  rewrite land_one, free, (cas_same w (fval w)) by done. done.
Qed.

Lemma reload_acquires u : acquires p i 2 w (Reload u).
Proof. go (Act (M := mutex_method) false); [done|apply loop_current]. Qed.

Lemma wait_returns u e wp :
  e mod 2 = 1 -> wp <> WCall -> wp <> WAsleep -> acquires p i 3 w (Park u e wp).
Proof.
  intros He H1 H2. go (Kernel (M := mutex_method) Go); [|apply (reload_acquires u)]. simpl. unfold park.
  assert (fval w =? e = false) as Hne by (apply Z.eqb_neq; congruence).
  destruct wp; simpl; unfold spin_step; rewrite ?Hne; try done; simpl; by rewrite ?andb_false_r.
Qed.

Lemma park_acquires u e wp : e mod 2 = 1 -> acquires p i 4 w (Park u e wp).
Proof.
  intros He. assert (fval w =? e = false) as Hne by (apply Z.eqb_neq; congruence).
  destruct (decide (wp = WCall)) as [->|]; [|destruct (decide (wp = WAsleep)) as [->|]].
  - go (Kernel (M := mutex_method) Go); [|by apply (wait_returns u e WCheck)]. simpl. unfold park; simpl. unfold futex_wait. by rewrite Hne.
  - go (Kernel (M := mutex_method) Go); [|by apply (wait_returns u e WCheck)]. simpl. unfold park; simpl.
    apply asleep_false in not_asleep as ->. done.
  - eapply reaches_more; [|by apply wait_returns]. lia.
Qed.

(** A registered thread that is not asleep takes the free mutex in at most
    five of its own steps. *)
Lemma registered_acquires l :
  registered l = true -> (forall u e wp, l = Park u e wp -> e mod 2 = 1) ->
  acquires p i 5 w l.
Proof.
  intros Hr Hodd. destruct l as [| | | | | |u|u|u e|u e wp| |e| |]; try done.
  - eapply reaches_more; [|by apply reload_acquires]. lia.
  - destruct (decide (fval w = e)) as [<-|Hne]; [eapply reaches_more; [|by apply loop_current]; lia|].
    destruct (Z.eqb_spec (e mod 2) 0) as [He|He].
    + eapply reaches_more; [|go (Act (M := mutex_method) false); [|apply (loop_current u)]]; [lia|]. simpl.
      unfold slow_loop, acquire_registered. by rewrite land_one, He, (cas_differs w e).
    + go (Act (M := mutex_method) false); [|apply (park_acquires u e (if u then atomic_wait_until else atomic_wait)); word_arith].
      simpl. unfold slow_loop. rewrite land_one. by apply Z.eqb_neq in He as ->.
  - eapply reaches_more; [|apply park_acquires; by eapply Hodd]. lia.
  - eapply reaches_more; [|go (Act (M := mutex_method) false); [done|apply undo_current]]. lia.
  - destruct (decide (fval w = e)) as [<-|Hne]; [eapply reaches_more; [|by apply undo_current]; lia|].
    eapply reaches_more; [|go (Act (M := mutex_method) false); [|apply undo_current]]; [lia|]. simpl. unfold undo_loop, acquire_registered.
    rewrite land_one. destruct (e mod 2 =? 0); by rewrite (cas_differs w e).
Qed.
End progress.

(** The spin phase of [lock_slow] run to its end, the word being [ws !! k] when
    the functor is called for the [k]-th time. *)
Fixpoint spin_phase (ws : list fword) (expected : Z) (b : exponential_backoff) : pc :=
  match ws with
  | [] => Spin expected b
  | w :: ws' =>
      match snd (spin false w expected b) with
      | Spin expected' b' => spin_phase ws' expected' b'
      | l => l
      end
  end.

Lemma spin_phase_odd ws e b :
  e mod 2 = 1 -> spinning b -> Z.of_nat (length ws) = turns_left b ->
  spin_phase ws e b = Register false.
Proof.
  intros He. revert b. induction ws as [|w ws IH]; intros b Hb Hlen; simpl in *.
  - pose proof (turns_left_pos b Hb). lia.
  - unfold spin, spin_functor. rewrite land_one, He. simpl.
    destruct (turn_retry b Hb) as [(b' & -> & Hb' & Hl)|[-> _]]; [|done]. simpl.
    apply IH; [done|lia].
Qed.

(** ** Properties *)

(** C1: [parking_mutex] (all four variants) provides mutual exclusion: in every
    reachable state of [n] threads locking, trying, timing out and unlocking,
    with any spurious failures, signals and time-outs, at most one thread holds
    the mutex, and the state word is exactly twice the number of registered
    waiters plus the lock bit. *)
Theorem parking_mutex_exclusion p n c :
  Z.of_nat n < 2 ^ 31 - 2 -> reachable (tstep p) (init n) c ->
  fval (shared c) = 2 * waiters c + holders c /\ 0 <= holders c <= 1 /\
  (forall i j li lj, threads c !! i = Some li -> threads c !! j = Some lj ->
     holds li = true -> holds lj = true -> i = j).
Proof.
  intros Hn HI%parking_inv_reachable; [|done]. destruct HI as [_ Hw He _ _ _ _].
  split_and!; [done|apply count_bounds|done|]. intros i j li lj. by apply count_unique.
Qed.

(** C4: no lost wakeup in [parking_mutex]: whenever the mutex is free and some
    thread is asleep in the kernel, another thread is already on its way, either
    a registered waiter that will look at the word again or an unlocker that is
    about to wake a sleeper. *)
Theorem parking_mutex_no_lost_wakeup p n c :
  Z.of_nat n < 2 ^ 31 - 2 -> reachable (tstep p) (init n) c ->
  fqueue (shared c) <> [] -> holders c = 0 ->
  exists i l, threads c !! i = Some l /\ awake (shared c) i l.
Proof. intros Hn HI%parking_inv_reachable; [|done]. by apply (inv_wake n). Qed.

(** C5: progress of [lock_slow] and [lock_slow_until]: if the mutex is free and
    threads wait for it, some thread acquires it within seven steps in which the
    environment injects no spurious failure, signal or time-out. *)
Theorem parking_mutex_progress p n c :
  Z.of_nat n < 2 ^ 31 - 2 -> reachable (tstep p) (init n) c ->
  1 <= waiters c -> holders c = 0 ->
  exists sched c', (length sched <= 7)%nat /\ Forall (fun x => benign x.2) sched /\
    exec (tstep p) sched c = Some c' /\ exists i, threads c' !! i = Some Holding.
Proof.
  intros Hn HI%parking_inv_reachable Hw Hfree; [|done].
  assert (forall i l, fval (shared c) mod 2 = 0 -> threads c !! i = Some l -> registered l = true ->
            i ∉ fqueue (shared c) ->
            acquires p i 5 (shared c) l) as Hacq.
  { intros i l Hev Hi Hr Hq. apply registered_acquires; try done. intros u e wp ->. by eapply (inv_park n c HI). }
  assert (forall c i l, threads c !! i = Some l -> acquires p i 5 (shared c) l ->
            exists sched c', (length sched <= 5)%nat /\ Forall (fun x => benign x.2) sched /\
              exec (tstep p) sched c = Some c' /\ exists i, threads c' !! i = Some Holding) as Hfin.
  { clear. intros c i l Hi (chs & s' & l' & Hk & Hb & Ha & ->).
    eexists _, _. split_and!; [| |by eapply alone_exec|].
    - by rewrite length_fmap.
    - by rewrite Forall_fmap.
    - exists i. simpl. apply list_lookup_insert_eq. by apply lookup_lt_Some in Hi. }
  pose proof (inv_word n c HI) as Hword. rewrite Hfree in Hword.
  assert (fval (shared c) mod 2 = 0) as Hev by word_arith.
  destruct (fqueue (shared c)) as [|x q] eqn:Eq.
  - destruct (count_witness registered (threads c)) as (i & l & Hi & Hr); [unfold waiters in Hw; lia|].
    destruct (Hfin c i l Hi) as (sched & c' & ? & ? & ? & ?); [apply Hacq; rewrite ?Eq; auto using not_elem_of_nil|].
    exists sched, c'. split_and!; auto with lia.
  - destruct (inv_wake n c HI) as (i & l & Hi & [[Hr Hq]| ->]); [by rewrite Eq|done| |].
    + destruct (Hfin c i l Hi) as (sched & c' & ? & ? & ? & ?); [apply Hacq; rewrite ?Eq; auto; by rewrite <- Eq|].
      exists sched, c'. split_and!; auto with lia.
    + (* the unlocker wakes [x], which then acquires *)
      destruct (inv_queue n c HI x) as (u & e & Hx); [rewrite Eq; left|].
      assert (x <> i) as Hxi by (intros ->; rewrite Hi in Hx; simplify_eq).
      set (c1 := Config (atomic_notify_one (shared c)) (<[i := Idle]> (threads c))).
      assert (cstep (tstep p) i (Act false) c = Some c1) as Hc1 by (unfold cstep; by rewrite Hi).
      destruct (Hfin c1 x (Park u e WAsleep)) as (sched & c' & Hk & Hb & Hrun & Hhold).
      * simpl. by rewrite list_lookup_insert_ne.
      * eapply reaches_more; [|apply park_acquires]; [lia|by unfold atomic_notify_one, wake| |].
        -- simpl. unfold atomic_notify_one, wake. cbn. rewrite Eq. cbn.
           pose proof (inv_nodup n c HI) as Hnd. rewrite Eq in Hnd. by apply NoDup_cons in Hnd as [? _].
        -- by eapply (inv_park n c HI).
      * exists ((i, Act false) :: sched), c'. split_and!; simpl; [lia| |by rewrite Hc1|done].
        constructor; [unfold benign; by eauto|done].
Qed.

(** A waiter that times out leaves no trace: when every thread is outside
    the mutex's methods and nobody holds it, the word is 0 and no thread is
    queued, so the fast path of [lock()] is available again. *)
Theorem parking_mutex_quiescent p n c :
  Z.of_nat n < 2 ^ 31 - 2 -> reachable (tstep p) (init n) c ->
  (forall i l, threads c !! i = Some l -> l = Idle) ->
  shared c = FWord 0 [].
Proof.
  intros Hn HI%parking_inv_reachable Hidle; [|done].
  assert (forall q, q Idle = false -> count q (threads c) = 0) as H0.
  { intros q Hq. apply count_all_false. intros l (i & Hi)%list_elem_of_lookup. by rewrite (Hidle i l Hi). }
  pose proof (inv_word n c HI) as Hw. unfold waiters, holders in Hw. rewrite !H0 in Hw by done.
  destruct (shared c) as [v [|t q]] eqn:E; simpl in *; [by f_equal|].
  destruct (inv_queue n c HI t) as (u & e & Ht); [rewrite E; left|]. by apply Hidle in Ht.
Qed.

(** The spin phase of [parking_mutex_backoff::lock_slow] never looks at the
    mutex again once the first exchange saw it locked: whatever words the other
    threads leave behind during its 13 turns - free ones included - it gives up
    and registers as a waiter. *)
Theorem parking_spin_phase_is_blind ws expected :
  expected mod 2 = 1 -> length ws = 13%nat ->
  spin_phase ws expected backoff_init = Register false.
Proof.
  intros He Hlen. apply spin_phase_odd; [done|apply spinning_init|]. by rewrite Hlen.
Qed.

(** ** Witnesses *)

(** Thread 0 locks; thread 1 tries, registers and goes to sleep; thread 0
    unlocks up to the notification. *)
Definition demo_sched : list (nat * choice mutex_method) :=
  [(0, Call MLock); (0, Act false); (1, Call MLock); (1, Act false); (1, Act false); (1, Act false);
   (1, Act false)]%nat ++ replicate 15 (1%nat, Kernel Go) ++ [(0, Call MUnlock); (0, Act false)]%nat.

Definition plain : policies := Policies false false.
Definition demo_config : pconfig := Config (FWord 2 [1%nat]) [Notify; Park false 3 WAsleep].

Lemma demo_reachable : reachable (tstep plain) (init 2) demo_config.
Proof. apply (exec_reachable _ demo_sched). vm_compute. reflexivity. Qed.

Lemma parking_mutex_exclusion_witness :
  reachable (tstep plain) (init 2) demo_config /\ 0 <= holders demo_config <= 1.
Proof.
  split; [apply demo_reachable|].
  apply (parking_mutex_exclusion plain 2 demo_config); [lia|apply demo_reachable].
Defined.

Lemma parking_mutex_no_lost_wakeup_witness :
  exists i l, threads demo_config !! i = Some l /\ awake (shared demo_config) i l.
Proof.
  apply (parking_mutex_no_lost_wakeup plain 2 demo_config); [lia|apply demo_reachable|done|reflexivity].
Defined.

Lemma parking_mutex_progress_witness :
  exists sched c', (length sched <= 7)%nat /\ Forall (fun x => benign x.2) sched /\
    exec (tstep plain) sched demo_config = Some c' /\ exists i, threads c' !! i = Some Holding.
Proof.
  apply (parking_mutex_progress plain 2 demo_config);
    [lia|apply demo_reachable|vm_compute; congruence|reflexivity].
Defined.

Lemma parking_mutex_quiescent_witness :
  exists sched c, exec (tstep plain) sched (init 1) = Some c /\ shared c = FWord 0 [].
Proof.
  exists [(0%nat, Call MLock); (0%nat, Act false); (0%nat, Call MUnlock); (0%nat, Act false)], (init 1).
  split; [reflexivity|].
  apply (parking_mutex_quiescent plain 1 (init 1)); [lia|apply rtc_refl|].
  intros [|i] l; simpl; intros; by simplify_eq.
Defined.

Lemma parking_spin_phase_is_blind_witness :
  spin_phase (replicate 13 (FWord 0 [])) 1 backoff_init = Register false.
Proof. apply (parking_spin_phase_is_blind (replicate 13 (FWord 0 [])) 1); reflexivity. Defined.
