(* ===== verification/TicketMutex.v ===== *)
(** * The ticket mutex

    [ticket_mutex<>] and [ticket_mutex<with_backoff>]
    (include/nova/sync/mutex/ticket_mutex.hpp,
    source/nova/sync/mutex/ticket_mutex.cpp). *)
From S2P Require Import Prelude Machine Futex Backoff.
#[local] Open Scope Z_scope.

(** [serving_ticket_] (threads sleep on it) and [next_ticket_].  [served] is a
    ghost: the number of [unlock()]s so far, which the code knows only modulo
    2^32. *)
Record tickets := Tickets { serving : fword; next : Z; served : Z }.

Inductive pc :=
| Idle
| Holding
| Lock                                     (** [lock()]: [next_ticket_.fetch_add( 1 )] *)
| LockCheck (my : Z)                       (** [lock()]: is it my turn already? *)
| Spin (my : Z) (b : exponential_backoff)  (** [lock_slow_backoff]: the spin loop *)
| SlowLoad (my : Z)                        (** head of the [while ( true )] loop *)
| Park (my cur : Z) (w : wait_pc)          (** [atomic_wait_for( ..., hours( 24 ) )] *)
| TryLoad (until : bool)                   (** [try_lock()]: load [serving_ticket_] *)
| TryCas (until : bool) (cur seen : Z)     (** [try_lock()]: the exchange; ghost [seen] *)
| UntilLoad                                (** [try_lock_until()]: load [serving_ticket_] *)
| UntilClock (cur : Z)                     (** [try_lock_until()]: [Clock::now() >= abs_time] *)
| UntilPark (cur : Z) (w : wait_pc)        (** [try_lock_until()]: [atomic_wait_until] *)
| UnlockLoad                               (** [unlock()]: load [serving_ticket_] *)
| UnlockStore (v : Z)                      (** [unlock()]: store the next ticket *)
| UnlockNotify.                            (** [unlock()]: [atomic_notify_all] *)

#[export] Instance pc_eq_dec : EqDecision pc.
Proof. intros x y. unfold Decision. repeat (decide equality). Defined.

Definition with_serving (w : fword) (s : tickets) : tickets := Tickets w (next s) (served s).

(** [lock()]: take a ticket. *)
Definition lock (s : tickets) : tickets * pc :=
  (Tickets (serving s) (u32 (next s + 1)) (served s), LockCheck (next s)).

(** [lock()], second half, and the choice of the slow path. *)
Definition lock_check (use_backoff : bool) (s : tickets) (my : Z) : pc :=
  if fval (serving s) =? my then Holding
  else if use_backoff then Spin my backoff_init else SlowLoad my.

(** [lock_slow_backoff]: [while ( backoff.backoff < spin_limit )]. *)
Definition lock_slow_backoff (s : tickets) (my : Z) (b : exponential_backoff) : pc :=
  if backoff b <? spin_limit then
    if fval (serving s) =? my then Holding else Spin my (fst (run b))
  else SlowLoad my.

(** [lock_slow_plain], and the second loop of [lock_slow_backoff]. *)
Definition lock_slow_plain (s : tickets) (my : Z) : pc :=
  let cur := fval (serving s) in if cur =? my then Holding else Park my cur WEnter.

(** A wait on [serving_ticket_] whose result is dropped. *)
Definition park (tid : nat) (k : wchoice) (cur : Z) (s : tickets) (wp : wait_pc)
  (inside : wait_pc -> pc) (done : pc) : option (tickets * pc) :=
  match wait_step true tid k cur (serving s) wp with
  | None => None
  | Some (w', inl wp') => Some (with_serving w' s, inside wp')
  | Some (w', inr _) => Some (with_serving w' s, done)
  end.

(** [try_lock()]: [next_ticket_.compare_exchange_strong( expected, current_serving + 1 )]. *)
Definition try_lock_cas (s : tickets) (cur : Z) : tickets * bool :=
  if next s =? cur then (Tickets (serving s) (u32 (cur + 1)) (served s), true) else (s, false).

(** [unlock()]: publish the next ticket. *)
Definition unlock_store (s : tickets) (v : Z) : tickets :=
  Tickets (set_val v (serving s)) (next s) (served s + 1).

#[global] Arguments lock : simpl never.
#[global] Arguments try_lock_cas : simpl never.
#[global] Arguments unlock_store : simpl never.

Definition tstep (use_backoff : bool) (tid : nat) (ch : choice mutex_method) (s : tickets) (l : pc)
  : option (tickets * pc) :=
  match l, ch with
  | Idle, Call MLock => Some (s, Lock)
  | Idle, Call MTryLock => Some (s, TryLoad false)
  | Idle, Call MTryLockUntil => Some (s, TryLoad true)
  | Holding, Call MUnlock => Some (s, UnlockLoad)
  | Lock, Act _ => Some (lock s)
  | LockCheck my, Act _ => Some (s, lock_check use_backoff s my)
  | Spin my b, Act _ => Some (s, lock_slow_backoff s my b)
  | SlowLoad my, Act _ => Some (s, lock_slow_plain s my)
  | Park my cur wp, Kernel k => park tid k cur s wp (Park my cur) (SlowLoad my)
  | TryLoad u, Act _ => Some (s, TryCas u (fval (serving s)) (served s))
  | TryCas u cur _, Act _ =>
      let '(s', ok) := try_lock_cas s cur in
      Some (s', if ok then Holding else if u then UntilLoad else Idle)
  | UntilLoad, Act _ => Some (s, UntilClock (fval (serving s)))
  | UntilClock cur, Clock expired => Some (s, if expired then Idle else UntilPark cur WEnter)
  | UntilPark cur wp, Kernel k => park tid k cur s wp (UntilPark cur) (TryLoad true)
  | UnlockLoad, Act _ => Some (s, UnlockStore (u32 (fval (serving s) + 1)))
  | UnlockStore v, Act _ => Some (unlock_store s v, UnlockNotify)
  | UnlockNotify, Act _ => Some (with_serving (atomic_notify_all (serving s)) s, Idle)
  | _, _ => None
  end.

Abbreviation tconfig := (config tickets pc).

Definition init (n : nat) : tconfig := Config (Tickets (FWord 0 []) 0 0) (replicate n Idle).

(** ** The invariant *)

Definition holds (l : pc) : bool :=
  match l with Holding | UnlockLoad | UnlockStore _ => true | _ => false end.

(** The ticket of a thread that waits in [lock()]. *)
Definition ticket (l : pc) : option Z :=
  match l with
  | LockCheck my | Spin my _ | SlowLoad my | Park my _ _ => Some my
  | _ => None
  end.

Definition waits (l : pc) : bool := match ticket l with Some _ => true | None => false end.

(** Threads between taking a ticket and serving the next one. *)
Definition ticketed (l : pc) : bool := holds l || waits l.

Definition outstanding (c : tconfig) : Z := count ticketed (threads c).
Definition holders (c : tconfig) : Z := count holds (threads c).

(** How many tickets are served before ticket [t]. *)
Definition ahead (s : tickets) (t : Z) : Z := u32 (t - fval (serving s)).

(** What the local variables of a method say about the counters. *)
Definition local_ok (s : tickets) (l : pc) : Prop :=
  match l with
  | UnlockStore v => v = u32 (served s + 1)
  | TryCas _ cur seen => cur = u32 seen /\ seen <= served s
  | Park my cur _ => cur <> my
  | _ => True
  end.

Record Core (n : nat) (c : tconfig) : Prop := {
  core_threads : length (threads c) = n;
  core_serving : fval (serving (shared c)) = u32 (served (shared c));
  core_next : next (shared c) = u32 (served (shared c) + outstanding c);
  core_excl : holders c <= 1;
  core_ticket : forall i l t, threads c !! i = Some l -> ticket l = Some t ->
    exists k, t = u32 (served (shared c) + k) /\ holders c <= k < outstanding c;
  core_distinct : forall i j li lj t, threads c !! i = Some li -> threads c !! j = Some lj ->
    ticket li = Some t -> ticket lj = Some t -> i = j;
  core_local : forall i l, threads c !! i = Some l -> local_ok (shared c) l
}.

(** No [try_lock()] is preempted between its load and its exchange while about
    2^32 critical sections go by (the ticket it read would come round again). *)
Definition timely (n : nat) (c : tconfig) : Prop :=
  forall i u cur seen, threads c !! i = Some (TryCas u cur seen) ->
    served (shared c) + Z.of_nat n < seen + 2 ^ 32.

(** ** The five kinds of steps *)

Inductive kind (s : tickets) (l : pc) (s' : tickets) (l' : pc) : Prop :=
| KQuiet : served s' = served s -> next s' = next s -> fval (serving s') = fval (serving s) ->
    holds l' = holds l -> ticket l' = ticket l ->
    (l' = UnlockNotify -> False) -> kind s l s' l'
| KAcquire t : ticket l = Some t -> fval (serving s) = t -> s' = s -> l' = Holding -> kind s l s' l'
| KTicket : l = Lock -> s' = fst (lock s) -> l' = LockCheck (next s) -> kind s l s' l'
| KTry u cur seen : l = TryCas u cur seen -> next s = cur ->
    s' = fst (try_lock_cas s cur) -> l' = Holding -> kind s l s' l'
| KServe v : l = UnlockStore v -> s' = unlock_store s v -> l' = UnlockNotify -> kind s l s' l'.

Lemma park_val tid k cur s wp inside dn s' l' :
  park tid k cur s wp inside dn = Some (s', l') ->
  served s' = served s /\ next s' = next s /\ fval (serving s') = fval (serving s) /\
  (l' = dn \/ exists wp', l' = inside wp').
Proof.
  unfold park. intros H. destruct (wait_step true tid k cur (serving s) wp) as [[w' [wp'|b]]|] eqn:E;
    [| |done]; apply wait_step_val in E; simplify_eq/=; eauto 10.
Qed.

Lemma tstep_kind ub i ch s l s' l' : tstep ub i ch s l = Some (s', l') -> kind s l s' l'.
Proof.
  intros H.
  destruct l, ch as [[]|sp|k|ex]; simpl in H; try done; try (by simplify_eq; apply KQuiet).
  - unfold lock in H. simplify_eq. by apply KTicket.
  - unfold lock_check in H. destruct (Z.eqb_spec (fval (serving s)) my); simplify_eq.
    + by eapply KAcquire.
    + by destruct ub; apply KQuiet.
  - unfold lock_slow_backoff in H. destruct (backoff b <? spin_limit); [|by simplify_eq; apply KQuiet].
    destruct (Z.eqb_spec (fval (serving s)) my); simplify_eq; [by eapply KAcquire|by apply KQuiet].
  - unfold lock_slow_plain in H. destruct (Z.eqb_spec (fval (serving s)) my); simplify_eq;
      [by eapply KAcquire|by apply KQuiet].
  - apply park_val in H as (? & ? & ? & [->|(wp' & ->)]); by apply KQuiet.
  - destruct (try_lock_cas s cur) as [s1 ok] eqn:E.
    unfold try_lock_cas in E. destruct (Z.eqb_spec (next s) cur) as [Heq|Hne]; simplify_eq.
    + eapply KTry; [done..| |done]. unfold try_lock_cas. by rewrite Z.eqb_refl.
    + by destruct until; apply KQuiet.
  - simplify_eq. by destruct ex; apply KQuiet.
  - apply park_val in H as (? & ? & ? & [->|(wp' & ->)]); by apply KQuiet.
  - simplify_eq. by eapply KServe.
Qed.

(** The local variables computed by a step. *)
Lemma tstep_local ub i ch s l s' l' :
  tstep ub i ch s l = Some (s', l') -> fval (serving s) = u32 (served s) ->
  local_ok s l -> local_ok s' l'.
Proof.
  intros H Hs Hok.
  destruct l, ch as [[]|sp|k|ex]; simpl in H; try done; try (by simplify_eq).
  - unfold lock in H. by simplify_eq.
  - simplify_eq. unfold lock_check. by repeat case_match.
  - simplify_eq. unfold lock_slow_backoff. by repeat case_match.
  - unfold lock_slow_plain in H. destruct (Z.eqb_spec (fval (serving s)) my); by simplify_eq.
  - unfold park in H. by repeat case_match; simplify_eq.
  - destruct (try_lock_cas s cur) as [s1 ok]. by repeat case_match; simplify_eq.
  - simplify_eq. by case_match.
  - unfold park in H. by repeat case_match; simplify_eq.
  - simplify_eq/=. by rewrite Hs, u32_add_l.
Qed.

(** ** Preservation of the counters *)

Section core.
Context (n : nat) (c : tconfig) (i : nat) (l : pc) (s' : tickets) (l' : pc).
Hypothesis few_threads : Z.of_nat n < 2 ^ 32.
Hypothesis HI : Core n c.
Hypothesis Htime : timely n c.
Hypothesis Hl : threads c !! i = Some l.
#[local] Notation c' := (Config s' (<[i := l']> (threads c))).

Lemma outstanding_bounds : 0 <= holders c <= outstanding c /\ outstanding c <= Z.of_nat n.
Proof.
  pose proof (count_bounds ticketed (threads c)). pose proof (count_bounds holds (threads c)).
  rewrite (core_threads n c HI) in *. unfold holders, outstanding. split; [|lia]. split; [lia|].
  generalize (threads c). clear. induction l as [|x l IH]; simpl; [lia|].
  unfold ticketed at 1. destruct (holds x), (waits x); simpl; lia.
Qed.

Lemma count_next :
  holders c' = holders c - Z.b2z (holds l) + Z.b2z (holds l') /\
  outstanding c' = outstanding c - Z.b2z (ticketed l) + Z.b2z (ticketed l').
Proof. split; by apply count_insert. Qed.

Lemma lookup_next j lj : threads c' !! j = Some lj ->
  (j = i /\ lj = l') \/ (j <> i /\ threads c !! j = Some lj).
Proof.
  simpl. intros H. destruct (decide (j = i)) as [->|]; [left|right].
  - rewrite list_lookup_insert_eq in H by (by apply lookup_lt_Some in Hl). naive_solver.
  - by rewrite list_lookup_insert_ne in H.
Qed.

#[local] Notation H0 := (holders c).
#[local] Notation T0 := (outstanding c).
#[local] Notation S0 := (served (shared c)).

(** The ticket now served is held by at most one waiting thread, and only when
    nobody is in the critical section. *)
Lemma serving_ticket t : ticket l = Some t -> fval (serving (shared c)) = t -> H0 = 0.
Proof.
  intros Ht Hs. destruct (core_ticket n c HI i l t Hl Ht) as (k & -> & Hk).
  rewrite (core_serving n c HI) in Hs. apply u32_inj in Hs; pose proof outstanding_bounds; lia.
Qed.

Lemma try_lock_free u cur seen : l = TryCas u cur seen -> next (shared c) = cur -> T0 = 0.
Proof.
  intros -> Hn. destruct (core_local n c HI i _ Hl) as [Hcur Hseen].
  pose proof (Htime i u cur seen Hl) as Ht. rewrite (core_next n c HI), Hcur in Hn.
  apply u32_inj in Hn; pose proof outstanding_bounds; lia.
Qed.

Lemma holder_counts : holds l = true -> H0 = 1 /\ 1 <= T0.
Proof.
  intros Hh. pose proof (count_pos holds _ _ _ Hl Hh). pose proof (core_excl n c HI).
  pose proof outstanding_bounds. unfold holders in *. lia.
Qed.

(** The threads' tickets lie in the half-open interval [lo, hi) of the
    unbounded ticket numbers counted from the one now served. *)
Definition tickets_between (c0 : tconfig) (lo hi : Z) : Prop :=
  forall j lj t, threads c0 !! j = Some lj -> ticket lj = Some t ->
    exists k, t = u32 (served (shared c0) + k) /\ lo <= k < hi.

Lemma core_intro :
  fval (serving s') = u32 (served s') -> next s' = u32 (served s' + outstanding c') ->
  holders c' <= 1 -> tickets_between c' (holders c') (outstanding c') ->
  (forall t, ticket l' = Some t -> ticket l = Some t \/
     forall j lj, j <> i -> threads c !! j = Some lj -> ticket lj <> Some t) ->
  (forall j lj, threads c' !! j = Some lj -> local_ok s' lj) -> Core n c'.
Proof.
  intros Hs Hn Hh Hb Hd Hloc. constructor; try done.
  - simpl. rewrite length_insert. apply (core_threads n c HI).
  - intros a b la lb t Ha Hb' Hta Htb.
    apply lookup_next in Ha as [[-> ->]|[Hai Ha]]; apply lookup_next in Hb' as [[-> ->]|[Hbi Hb']]; try done.
    + destruct (Hd t Hta) as [Hl0|Hf]; [by eapply (core_distinct n c HI)|by destruct (Hf b lb Hbi Hb')].
    + destruct (Hd t Htb) as [Hl0|Hf]; [by eapply (core_distinct n c HI)|by destruct (Hf a la Hai Ha)].
    + by eapply (core_distinct n c HI).
Qed.

Lemma old_tickets : tickets_between c H0 T0.
Proof. intros j lj t. apply (core_ticket n c HI). Qed.

Lemma others_local :
  served s' = S0 -> local_ok s' l' -> forall j lj, threads c' !! j = Some lj -> local_ok s' lj.
Proof.
  intros Hs Hl' j lj [[-> ->]|[Hj Hlj]]%lookup_next; [done|].
  pose proof (core_local n c HI j lj Hlj) as Hok. by destruct lj; simpl in *; rewrite ?Hs.
Qed.

Lemma quiet_core :
  served s' = S0 -> next s' = next (shared c) -> fval (serving s') = fval (serving (shared c)) ->
  holds l' = holds l -> ticket l' = ticket l -> local_ok s' l' -> Core n c'.
Proof.
  intros Hs Hn Hv Hh Ht Hloc. destruct count_next as [Hh' Ht'].
  assert (ticketed l' = ticketed l) as He by (unfold ticketed, waits; by rewrite Hh, Ht).
  rewrite He in Ht'. rewrite Hh in Hh'.
  assert (holders c' = H0) as EH by lia. assert (outstanding c' = T0) as ET by lia.
  apply core_intro; rewrite ?EH, ?ET, ?Hs, ?Hn, ?Hv.
  - apply (core_serving n c HI). - apply (core_next n c HI). - apply (core_excl n c HI).
  - intros j lj t [[-> ->]|[Hj Hlj]]%lookup_next Hjt; simpl; rewrite Hs.
    + rewrite Ht in Hjt. by eapply old_tickets.
    + by eapply old_tickets.
  - intros t. rewrite Ht. by left.
  - by apply others_local.
Qed.

End core.

Section core_steps.
Context (n : nat) (c : tconfig) (i : nat) (l : pc).
Hypothesis few_threads : Z.of_nat n < 2 ^ 32.
Hypothesis HI : Core n c.
Hypothesis Htime : timely n c.
Hypothesis Hl : threads c !! i = Some l.
#[local] Notation after s' l' := (Config s' (<[i := l']> (threads c))).

Lemma acquire_core t :
  ticket l = Some t -> fval (serving (shared c)) = t -> Core n (after (shared c) Holding).
Proof.
  intros Ht Hs. destruct (count_next c i l (shared c) Holding Hl) as [Hh' Ht'].
  assert (holds l = false) as Hnh by (by destruct l).
  pose proof (serving_ticket n c i l few_threads HI Hl t Ht Hs) as Hfree.
  assert (ticketed l = true) as Hw by (unfold ticketed, waits; rewrite Ht; apply orb_true_r).
  rewrite Hnh, Hfree in Hh'. rewrite Hw in Ht'. cbn [ticketed holds waits ticket orb Z.b2z] in Hh', Ht'.
  eapply (core_intro n c i l); try done; rewrite ?Hh'; simpl.
  - apply (core_serving n c HI).
  - rewrite (core_next n c HI). f_equal. lia.
  - lia.
  - intros j lj tj [[-> ->]|[Hj Hlj]]%(lookup_next c i l _ _ Hl) Hjt; [done|]. simpl.
    destruct (old_tickets n c HI j lj tj Hlj Hjt) as (k & -> & Hk). exists k. split; [done|].
    destruct (decide (k = 0)) as [->|]; [|lia].
    rewrite (core_serving n c HI) in Hs. rewrite Z.add_0_r, Hs in Hjt.
    by destruct (Hj (core_distinct n c HI j i lj l t Hlj Hl Hjt Ht)).
  - by apply (others_local n c i l).
Qed.

Lemma ticket_core :
  l = Lock -> outstanding c < Z.of_nat n ->
  Core n (after (fst (lock (shared c))) (LockCheck (next (shared c)))).
Proof.
  intros El Hroom. destruct (count_next c i l (fst (lock (shared c))) (LockCheck (next (shared c))) Hl) as [Hh' Ht'].
  rewrite El in Hh', Ht'. cbn [ticketed holds waits ticket orb Z.b2z] in Hh', Ht'. pose proof (outstanding_bounds n c HI) as Hb.
  eapply (core_intro n c i l); try done; rewrite ?Hh', ?Ht'; unfold lock, unlock_store; simpl.
  - apply (core_serving n c HI).
  - rewrite (core_next n c HI), u32_add_l. f_equal. lia.
  - pose proof (core_excl n c HI). lia.
  - intros j lj tj [[-> ->]|[Hj Hlj]]%(lookup_next c i l _ _ Hl) Hjt; unfold lock in *; simpl in *.
    + simplify_eq. exists (outstanding c). rewrite (core_next n c HI). split; [done|lia].
    + destruct (old_tickets n c HI j lj tj Hlj Hjt) as (k & -> & Hk). exists k. split; [done|lia].
  - intros t [= <-]. right. intros j lj Hj Hlj Hjt.
    destruct (old_tickets n c HI j lj _ Hlj Hjt) as (k & Hk & Hlt). rewrite (core_next n c HI) in Hk.
    apply u32_inj in Hk; lia.
  - by apply (others_local n c i l).
Qed.

Lemma try_core u cur seen :
  l = TryCas u cur seen -> next (shared c) = cur ->
  Core n (after (fst (try_lock_cas (shared c) cur)) Holding).
Proof.
  intros El Hn. pose proof (try_lock_free n c i l HI Htime Hl u cur seen El Hn) as Hfree.
  pose proof (outstanding_bounds n c HI) as Hb.
  unfold try_lock_cas. rewrite Hn, Z.eqb_refl. simpl.
  destruct (count_next c i l (Tickets (serving (shared c)) (u32 (cur + 1)) (served (shared c))) Holding Hl)
    as [Hh' Ht'].
  rewrite El in Hh', Ht'. cbn [ticketed holds waits ticket orb Z.b2z] in Hh', Ht'.
  eapply (core_intro n c i l); try done; rewrite ?Hh', ?Ht'; unfold lock, unlock_store; simpl.
  - apply (core_serving n c HI).
  - rewrite <- Hn, (core_next n c HI), u32_add_l. f_equal. lia.
  - lia.
  - intros j lj tj [[-> ->]|[Hj Hlj]]%(lookup_next c i l _ _ Hl) Hjt; [done|].
    destruct (old_tickets n c HI j lj tj Hlj Hjt) as (k & -> & Hk). lia.
  - by apply (others_local n c i l).
Qed.

Lemma serve_core v :
  l = UnlockStore v -> Core n (after (unlock_store (shared c) v) UnlockNotify).
Proof.
  intros El. assert (holds l = true) as Hhl by (by rewrite El).
  destruct (holder_counts n c i l HI Hl Hhl) as [Hh Ht1].
  pose proof (core_local n c HI i _ Hl) as Hv. rewrite El in Hv. simpl in Hv.
  destruct (count_next c i l (unlock_store (shared c) v) UnlockNotify Hl) as [Hh' Ht'].
  rewrite El in Hh', Ht'. cbn [ticketed holds waits ticket orb Z.b2z] in Hh', Ht'.
  eapply (core_intro n c i l); try done; rewrite ?Hh', ?Ht'; unfold lock, unlock_store; simpl.
  - rewrite (core_next n c HI). f_equal. lia.
  - lia.
  - intros j lj tj [[-> ->]|[Hj Hlj]]%(lookup_next c i l _ _ Hl) Hjt; [done|]. simpl.
    destruct (old_tickets n c HI j lj tj Hlj Hjt) as (k & -> & Hk). exists (k - 1). split; [f_equal; lia|lia].
  - intros j lj [[-> ->]|[Hj Hlj]]%(lookup_next c i l (shared c) UnlockNotify Hl); [done|].
    pose proof (core_local n c HI j lj Hlj) as Hok. destruct lj; simpl in *; try done; [lia|].
    destruct Hj. eapply (count_unique holds (threads c)); [apply (core_excl n c HI)|done..].
Qed.

Lemma Core_step ub ch s' l' :
  tstep ub i ch (shared c) l = Some (s', l') -> Core n (after s' l').
Proof.
  intros Hstep. pose proof (core_local n c HI i l Hl) as Hok.
  pose proof (tstep_local _ _ _ _ _ _ _ Hstep (core_serving n c HI) Hok) as Hok'.
  destruct (tstep_kind _ _ _ _ _ _ _ Hstep) as
    [Hs Hn Hv Hh Ht _|t Ht Hs -> ->|El -> ->|u cur seen El Hn -> ->|v El -> ->].
  - by apply (quiet_core n c i l).
  - by eapply acquire_core.
  - apply ticket_core; [done|]. pose proof (count_disjoint ticketed (fun x => bool_decide (x = Lock)) (threads c)) as Hd.
    rewrite (core_threads n c HI) in Hd. unfold outstanding.
    pose proof (count_pos (fun x => bool_decide (x = Lock)) _ _ _ Hl) as Hp. rewrite El in Hp.
    specialize (Hp (bool_decide_eq_true_2 _ eq_refl)).
    enough (count ticketed (threads c) + count (fun x => bool_decide (x = Lock)) (threads c) <= Z.of_nat n) by lia.
    apply Hd. intros x Hx. apply bool_decide_eq_false. intros ->. done.
  - by eapply try_core.
  - by apply serve_core.
Qed.
End core_steps.

(** ** Every ticket between the one served and the next one is held *)

Definition Full (c : tconfig) : Prop :=
  forall k, holders c <= k < outstanding c ->
    exists j lj, threads c !! j = Some lj /\ ticket lj = Some (u32 (served (shared c) + k)).

Section full.
Context (n : nat) (c : tconfig) (i : nat) (l : pc) (ub : bool) (ch : choice mutex_method).
Context (s' : tickets) (l' : pc).
Hypothesis few_threads : Z.of_nat n < 2 ^ 32.
Hypothesis HI : Core n c.
Hypothesis Htime : timely n c.
Hypothesis Hl : threads c !! i = Some l.
Hypothesis Hstep : tstep ub i ch (shared c) l = Some (s', l').
#[local] Notation c' := (Config s' (<[i := l']> (threads c))).

Lemma self_after : threads c' !! i = Some l'.
Proof. simpl. apply list_lookup_insert_eq. by apply lookup_lt_Some in Hl. Qed.

Lemma other_after j lj : j <> i -> threads c !! j = Some lj -> threads c' !! j = Some lj.
Proof. intros Hj. simpl. by rewrite list_lookup_insert_ne. Qed.

Lemma Full_step : Full c -> Full c'.
Proof.
  intros HF k Hk. pose proof self_after as Hself. pose proof other_after as Hother.
  destruct (count_next c i l s' l' Hl) as [Hh' Ht'].
  pose proof (outstanding_bounds n c HI) as Hb.
  destruct (tstep_kind _ _ _ _ _ _ _ Hstep) as
    [Hs Hn Hv Hh Ht _|t Ht Hs Es El'|El Es El'|u cur seen El Hn Es El'|v El Es El'].
  - assert (ticketed l' = ticketed l) as He by (unfold ticketed, waits; by rewrite Hh, Ht).
    rewrite He in Ht'. rewrite Hh in Hh'.
    destruct (HF k) as (j & lj & Hj & Hjt); [lia|]. destruct (decide (j = i)) as [->|Hji].
    + exists i, l'. rewrite Hl in Hj. simplify_eq. rewrite Ht. split; [apply Hself|]. simpl. by rewrite Hs.
    + exists j, lj. simpl. rewrite Hs. split; [by apply Hother|done].
  - assert (ticketed l = true) as Hw by (unfold ticketed, waits; rewrite Ht; apply orb_true_r).
    assert (holds l = false) as Hnh by (by destruct l).
    assert (holds l' = true) as E1 by (by rewrite El'). assert (ticketed l' = true) as E2 by (by rewrite El').
    rewrite Hw, E2 in Ht'. rewrite Hnh, E1 in Hh'. cbn [Z.b2z] in Hh', Ht'.
    destruct (HF k) as (j & lj & Hj & Hjt); [lia|].
    assert (j <> i) as Hji.
    { intros ->. rewrite Hl in Hj. injection Hj as <-. rewrite Ht in Hjt. injection Hjt as Hjt.
      rewrite <- Hs, (core_serving n c HI) in Hjt. apply u32_inj in Hjt; lia. }
    exists j, lj. simpl. rewrite Es. split; [by apply Hother|done].
  - assert (holds l' = false) as E1 by (by rewrite El'). assert (ticketed l' = true) as E2 by (by rewrite El').
    rewrite El, E2 in Ht'. rewrite El, E1 in Hh'. cbn [ticketed holds waits ticket orb Z.b2z] in Hh', Ht'.
    destruct (decide (k = outstanding c)) as [->|Hne].
    + exists i, l'. split; [apply Hself|]. rewrite El'. simpl. rewrite Es. simpl.
      by rewrite (core_next n c HI).
    + destruct (HF k) as (j & lj & Hj & Hjt); [lia|].
      assert (j <> i) as Hji by (intros ->; rewrite Hl in Hj; simplify_eq; by rewrite El in Hjt).
      exists j, lj. simpl. rewrite Es. split; [by apply Hother|done].
  - pose proof (try_lock_free n c i l HI Htime Hl u cur seen El Hn) as Hfree.
    assert (holds l' = true) as E1 by (by rewrite El'). assert (ticketed l' = true) as E2 by (by rewrite El').
    rewrite El, E2 in Ht'. rewrite El, E1 in Hh'. cbn [ticketed holds waits ticket orb Z.b2z] in Hh', Ht'. lia.
  - assert (holds l = true) as Hhl by (by rewrite El).
    destruct (holder_counts n c i l HI Hl Hhl) as [Hh Ht1].
    assert (holds l' = false) as E1 by (by rewrite El'). assert (ticketed l' = false) as E2 by (by rewrite El').
    rewrite El, E2 in Ht'. rewrite El, E1 in Hh'. cbn [ticketed holds waits ticket orb Z.b2z] in Hh', Ht'.
    destruct (HF (k + 1)) as (j & lj & Hj & Hjt); [lia|].
    assert (j <> i) as Hji by (intros ->; rewrite Hl in Hj; simplify_eq; by rewrite El in Hjt).
    exists j, lj. simpl. rewrite Es. simpl. split; [by apply Hother|]. rewrite Hjt. do 2 f_equal. lia.
Qed.
End full.

(** ** The sleepers *)

Record Sleepers (c : tconfig) : Prop := {
  sleep_pc : forall i, i ∈ fqueue (serving (shared c)) ->
    (exists my cur, threads c !! i = Some (Park my cur WAsleep)) \/
    (exists cur, threads c !! i = Some (UntilPark cur WAsleep));
  sleep_wake : forall i my cur, i ∈ fqueue (serving (shared c)) ->
    threads c !! i = Some (Park my cur WAsleep) -> fval (serving (shared c)) = my ->
    exists j, threads c !! j = Some UnlockNotify
}.

Lemma ticket_park_queue tid k cur s wp inside dn s' l' :
  park tid k cur s wp inside dn = Some (s', l') ->
  (tid ∈ fqueue (serving s) -> wp = WAsleep) ->
  (forall t, t <> tid -> t ∈ fqueue (serving s') -> t ∈ fqueue (serving s)) /\
  (tid ∈ fqueue (serving s') -> l' = inside WAsleep /\ fval (serving s') = cur).
Proof.
  unfold park. intros H Hq.
  destruct (wait_step true tid k cur (serving s) wp) as [[w' r]|] eqn:E; [|done].
  assert (serving s' = w') as Hw by (destruct r; simplify_eq; done). rewrite Hw.
  pose proof (wait_step_asleep _ _ _ _ _ _ _ _ E Hq) as Hs.
  pose proof (wait_step_val _ _ _ _ _ _ _ _ E) as Hv.
  split; [intros t Ht ?; by eapply (wait_step_queue _ _ _ _ _ _ _ _ t E)|].
  intros [-> He]%Hs. split; [by simplify_eq|congruence].
Qed.

Lemma tstep_queue ub i ch s l s' l' :
  tstep ub i ch s l = Some (s', l') ->
  (i ∈ fqueue (serving s) -> (exists my cur, l = Park my cur WAsleep) \/ (exists cur, l = UntilPark cur WAsleep)) ->
  (forall t, t <> i -> t ∈ fqueue (serving s') -> t ∈ fqueue (serving s)) /\
  (i ∈ fqueue (serving s') ->
     (exists my cur wp, l = Park my cur wp /\ l' = Park my cur WAsleep /\ fval (serving s') = cur) \/
     (exists cur, l' = UntilPark cur WAsleep)) /\
  (l = UnlockNotify -> fqueue (serving s') = []).
Proof.
  intros H Hq. destruct (decide (l = UnlockNotify)) as [->|Hn].
  { destruct ch as [[]|sp|k|ex]; simpl in H; try done. simplify_eq.
    assert (fqueue (serving (with_serving (atomic_notify_all (serving s)) s)) = []) as ->
      by apply notify_all_queue.
    split_and!; [intros t _ []%not_elem_of_nil|intros []%not_elem_of_nil|done]. }
  destruct l; try (assert (fqueue (serving s') = fqueue (serving s)) as ->;
    [destruct ch as [[]|sp|k|ex]; simpl in H; try done;
       unfold lock, try_lock_cas, unlock_store in H; repeat case_match; by simplify_eq
    |split_and!; [done|intros Hin; by destruct (Hq Hin) as [(?&?&?)|(?&?)]|done]]).
  - destruct ch as [|sp|k|]; try done. apply ticket_park_queue in H as [H1 H2]; [|naive_solver].
    split_and!; [done| |done]. intros [-> ?]%H2. naive_solver.
  - destruct ch as [|sp|k|]; try done. apply ticket_park_queue in H as [H1 H2]; [|naive_solver].
    split_and!; [done| |done]. intros [-> ?]%H2. naive_solver.
Qed.

Lemma Sleepers_step n c i l ub ch s' l' :
  Core n c -> Sleepers c -> threads c !! i = Some l ->
  tstep ub i ch (shared c) l = Some (s', l') ->
  Sleepers (Config s' (<[i := l']> (threads c))).
Proof.
  intros HI [Hpc Hwk] Hl Hstep.
  destruct (tstep_queue _ _ _ _ _ _ _ Hstep) as (Hold & Hself & Hnot).
  { intros Hin. destruct (Hpc i Hin) as [(my & cur & H)|(cur & H)]; rewrite Hl in H; simplify_eq; eauto. }
  assert (<[i:=l']> (threads c) !! i = Some l') as Hi'
    by (apply list_lookup_insert_eq; by apply lookup_lt_Some in Hl).
  constructor; simpl.
  - intros t Ht. destruct (decide (t = i)) as [->|Hti].
    + rewrite Hi'. destruct (Hself Ht) as [(my & cur & wp & _ & -> & _)|(cur & ->)]; eauto.
    + rewrite list_lookup_insert_ne by done. by apply Hpc, Hold.
  - intros t my cur Ht Htl Hv. destruct (decide (t = i)) as [->|Hti].
    + rewrite Hi' in Htl. simplify_eq.
      destruct (Hself Ht) as [(my' & cur' & wp & -> & ? & Hc)|(cur' & ?)]; simplify_eq.
      by destruct (core_local n c HI i _ Hl).
    + rewrite list_lookup_insert_ne in Htl by done.
      destruct (decide (l' = UnlockNotify)) as [->|Hn']; [by exists i|].
      assert (fval (serving s') = fval (serving (shared c))) as Hvs.
      { destruct (tstep_kind _ _ _ _ _ _ _ Hstep) as [| |? ->|? ? ? ? ? ->|]; try done; try congruence.
        unfold try_lock_cas. by case_match. }
      destruct (Hwk t my cur (Hold t Hti Ht) Htl) as (j & Hj); [congruence|].
      destruct (decide (j = i)) as [->|Hji].
      * rewrite Hl in Hj. simplify_eq. rewrite Hnot in Ht by done. by apply not_elem_of_nil in Ht.
      * exists j. by rewrite list_lookup_insert_ne.
Qed.

(** ** The invariant *)

Record Inv (n : nat) (c : tconfig) : Prop := {
  inv_core : Core n c; inv_full : Full c; inv_sleepers : Sleepers c
}.

Lemma ticket_inv_init n : Inv n (init n).
Proof.
  assert (forall j lj, threads (init n) !! j = Some lj -> lj = Idle) as Hall.
  { intros j lj Hj. simpl in Hj. by apply lookup_replicate in Hj as [-> _]. }
  assert (forall q, q Idle = false -> count q (threads (init n)) = 0) as H0.
  { intros q Hq. apply count_all_false. intros l (j & Hj)%list_elem_of_lookup. by rewrite (Hall j l Hj). }
  assert (holders (init n) = 0) as Hh by (by apply H0).
  assert (outstanding (init n) = 0) as Ho by (by apply H0).
  constructor.
  - constructor; rewrite ?Hh, ?Ho; try done.
    + simpl. by rewrite length_replicate.
    + by intros j lj t ->%Hall.
    + by intros a b la lb t ->%Hall.
    + by intros j lj ->%Hall.
  - intros k. rewrite Hh, Ho. lia.
  - constructor; simpl; by intros ? ?%not_elem_of_nil || by intros ??? ?%not_elem_of_nil.
Qed.

Abbreviation reached ub n := (reachable_while (tstep ub) (timely n) (init n)).

Lemma ticket_inv_reachable ub n c : Z.of_nat n < 2 ^ 32 -> reached ub n c -> Inv n c.
Proof.
  intros Hn. apply invariant_reachable_while; [apply ticket_inv_init|].
  intros i ch c1 l s' l' Ht [HC HF HS] Hl Hs. constructor.
  - by eapply Core_step.
  - by eapply Full_step.
  - by eapply Sleepers_step.
Qed.

(** ** Progress *)

Abbreviation acquires ub := (reaches_alone (tstep ub) benign (fun l => l = Holding)).

Section progress.
Context (ub : bool) (i : nat) (s : tickets) (my : Z).
Hypothesis my_turn : fval (serving s) = my.
Hypothesis not_asleep : i ∉ fqueue (serving s).

#[local] Ltac go c := eapply (reaches_step (tstep ub) _ _ _ _ c);
  [|unfold benign; by eauto|].

Lemma slow_acquires : acquires ub i 1 s (SlowLoad my).
Proof.
  go (Act (M := mutex_method) false); [|by apply reaches_now]. simpl. unfold lock_slow_plain.
  by rewrite my_turn, Z.eqb_refl.
Qed.

Lemma ticket_wait_returns cur wp :
  cur <> my -> wp <> WCall -> wp <> WAsleep -> acquires ub i 2 s (Park my cur wp).
Proof.
  intros Hc H1 H2. assert (fval (serving s) =? cur = false) as Hne by (apply Z.eqb_neq; congruence).
  assert (with_serving (serving s) s = s) as Hs by (by destruct s).
  go (Kernel (M := mutex_method) Go); [|apply slow_acquires]. simpl. unfold park.
  destruct wp; try done; simpl; unfold spin_step; rewrite ?Hne; simpl; by rewrite Hs.
Qed.

Lemma ticket_park_acquires cur wp : cur <> my -> acquires ub i 3 s (Park my cur wp).
Proof.
  intros Hc. assert (fval (serving s) =? cur = false) as Hne by (apply Z.eqb_neq; congruence).
  assert (with_serving (serving s) s = s) as Hs by (by destruct s).
  destruct (decide (wp = WCall)) as [->|]; [|destruct (decide (wp = WAsleep)) as [->|]].
  - go (Kernel (M := mutex_method) Go); [|by apply (ticket_wait_returns cur WCheck)]. simpl. unfold park; simpl.
    unfold futex_wait. by rewrite Hne, Hs.
  - go (Kernel (M := mutex_method) Go); [|by apply (ticket_wait_returns cur WCheck)]. simpl. unfold park; simpl.
    apply asleep_false in not_asleep as ->. by rewrite Hs.
  - eapply reaches_more; [|by apply ticket_wait_returns]. lia.
Qed.

(** The thread whose ticket is served enters within four of its own steps,
    unless it is asleep. *)
Lemma turn_acquires l : ticket l = Some my -> local_ok s l -> acquires ub i 4 s l.
Proof.
  intros Ht Hok. destruct l; simpl in Ht; try done; injection Ht as ->.
  - go (Act (M := mutex_method) false); [done|apply reaches_now].
    unfold lock_check. by rewrite my_turn, Z.eqb_refl.
  - destruct (backoff b <? spin_limit) eqn:Eb.
    + go (Act (M := mutex_method) false); [done|apply reaches_now].
      unfold lock_slow_backoff. by rewrite Eb, my_turn, Z.eqb_refl.
    + eapply reaches_more; [|go (Act (M := mutex_method) false); [|apply slow_acquires]]; [lia|]. simpl.
      unfold lock_slow_backoff. by rewrite Eb.
  - eapply reaches_more; [|apply slow_acquires]. lia.
  - eapply reaches_more; [|by apply ticket_park_acquires]. lia.
Qed.
End progress.

Lemma holding_after ub i k c l :
  threads c !! i = Some l -> acquires ub i k (shared c) l ->
  exists sched c', (length sched <= k)%nat /\ Forall (fun x => benign x.2) sched /\
    exec (tstep ub) sched c = Some c' /\ threads c' !! i = Some Holding.
Proof.
  intros Hi (chs & s' & l' & Hk & Hb & Ha & ->). eexists _, _. split_and!; [| |by eapply alone_exec|].
  - by rewrite length_fmap.
  - by rewrite Forall_fmap.
  - simpl. apply list_lookup_insert_eq. by apply lookup_lt_Some in Hi.
Qed.

(** ** Properties *)

(** [ticket_mutex] provides mutual exclusion, with the ticket counters
    wrapping at 2^32: at most one of fewer than 2^32 threads holds it, and
    [next_ticket_ - serving_ticket_] (mod 2^32) is the number of threads that
    hold or wait for it. *)
Theorem ticket_mutex_exclusion ub n c :
  Z.of_nat n < 2 ^ 32 -> reached ub n c ->
  (forall i j li lj, threads c !! i = Some li -> threads c !! j = Some lj ->
     holds li = true -> holds lj = true -> i = j) /\
  u32 (next (shared c) - fval (serving (shared c))) = outstanding c.
Proof.
  intros Hn HI%ticket_inv_reachable; [|done]. destruct HI as [HC _ _]. split.
  - intros i j li lj. apply count_unique, (core_excl n c HC).
  - rewrite (core_next n c HC), (core_serving n c HC). pose proof (outstanding_bounds n c HC).
    unfold u32. rewrite <- Zminus_mod. replace (_ - _) with (outstanding c) by lia.
    apply Z.mod_small. lia.
Qed.

(** C29: the ticket lock is first-in first-out.  In any step of thread [i]:
    [lock()] hands out a ticket behind all the threads that hold or wait; a
    waiting thread enters only when no ticket is ahead of its own; [try_lock()]
    succeeds only when nobody holds or waits (it never overtakes); and the
    tickets ahead of another waiting thread only change when [unlock()] serves
    the next one, and then there is exactly one fewer. *)
Theorem ticket_mutex_fifo ub n c i ch l s' l' :
  Z.of_nat n < 2 ^ 32 -> reached ub n c -> timely n c -> threads c !! i = Some l ->
  tstep ub i ch (shared c) l = Some (s', l') ->
  (l = Lock -> exists t, ticket l' = Some t /\ ahead s' t = outstanding c) /\
  (forall t, ticket l = Some t -> l' = Holding -> ahead (shared c) t = 0 /\ holders c = 0) /\
  (ticket l = None -> l' = Holding -> outstanding c = 0) /\
  (forall j lj t, j <> i -> threads c !! j = Some lj -> ticket lj = Some t ->
     ahead s' t = ahead (shared c) t - (if decide (l' = UnlockNotify) then 1 else 0)).
Proof.
  intros Hn HI%ticket_inv_reachable Htime Hl Hstep; [|done]. destruct HI as [HC _ _].
  pose proof (outstanding_bounds n c HC) as Hb.
  assert (forall t j lj, threads c !! j = Some lj -> ticket lj = Some t ->
            exists k, t = u32 (served (shared c) + k) /\ holders c <= k < outstanding c /\
              ahead (shared c) t = k) as Hahead.
  { intros t j lj Hj Ht. destruct (core_ticket n c HC j lj t Hj Ht) as (k & -> & Hk).
    exists k. split_and!; try lia; try done. unfold ahead. rewrite (core_serving n c HC).
    unfold u32. rewrite <- Zminus_mod. replace (_ - _) with k by lia. apply Z.mod_small. lia. }
  destruct (tstep_kind _ _ _ _ _ _ _ Hstep) as
    [Hs Hnx Hv Hh Ht Hnn|t Ht Hs -> ->| -> -> ->|u cur seen -> Hnx -> ->|v -> -> ->].
  - split_and!.
    + intros ->. destruct ch as [[]|sp|k|ex]; simpl in Hstep; try done. unfold lock in Hstep. by simplify_eq.
    + intros t Hlt ->. by rewrite <- Ht in Hlt.
    + intros Hlt ->. destruct l; try done; destruct ch as [[]|sp|k|ex]; simpl in *; simplify_eq; done.
    + intros j lj t _ Hj Hjt. rewrite decide_False by done. unfold ahead. rewrite Hv. lia.
  - split_and!; try done; [by intros ->| | |].
    + intros t' Ht' _. rewrite Ht in Ht'. simplify_eq. split.
      * unfold ahead. rewrite Z.sub_diag. done.
      * by eapply serving_ticket.
    + by intros Ht'; rewrite Ht in Ht'.
    + intros j lj t' _ Hj Hjt. rewrite decide_False by done. lia.
  - split_and!; try done.
    + intros _. eexists. split; [done|]. unfold ahead. simpl. rewrite (core_next n c HC), (core_serving n c HC).
      unfold u32. rewrite <- Zminus_mod. replace (_ - _) with (outstanding c) by lia. apply Z.mod_small. lia.
    + intros j lj t' _ Hj Hjt. rewrite decide_False by done. unfold ahead; simpl. lia.
  - split_and!; try done.
    + intros _ _. by eapply try_lock_free.
    + intros j lj t' _ Hj Hjt. rewrite decide_False by done. unfold try_lock_cas, ahead.
      case_match; simpl; lia.
  - split_and!; try done. intros j lj t Hji Hj Hjt. rewrite decide_True by done.
    destruct (Hahead t j lj Hj Hjt) as (k & Ek & Hk & ->).
    destruct (holder_counts n c i _ HC Hl eq_refl) as [Hh1 _].
    pose proof (core_local n c HC i _ Hl) as Hv. simpl in Hv.
    unfold ahead, unlock_store. simpl. rewrite Ek, Hv. unfold u32. rewrite <- Zminus_mod.
    replace (_ - _) with (k - 1) by lia. apply Z.mod_small. lia.
Qed.

(** C37: a [ticket_mutex] that is free is taken: whenever nobody holds the mutex and
    tickets are outstanding, there is a schedule of at most five steps, without
    signal, time-out or spurious failure, after which some thread holds it.  It is
    assumed that there are fewer than [2^32] threads, and that no [try_lock()] is
    preempted while nearly [2^32] critical sections go by. *)
Theorem ticket_mutex_progress ub n c :
  Z.of_nat n < 2 ^ 32 -> reached ub n c -> holders c = 0 -> 1 <= outstanding c ->
  exists sched c' i, (length sched <= 5)%nat /\ Forall (fun x => benign x.2) sched /\
    exec (tstep ub) sched c = Some c' /\ threads c' !! i = Some Holding.
Proof.
  intros Hn HI%ticket_inv_reachable Hfree Hw; [|done]. destruct HI as [HC HF HS].
  destruct (HF 0) as (i & l & Hi & Ht); [lia|]. rewrite Z.add_0_r, <- (core_serving n c HC) in Ht.
  pose proof (core_local n c HC i l Hi) as Hok.
  destruct (decide (i ∈ fqueue (serving (shared c)))) as [Hq|Hq].
  - destruct (sleep_pc c HS i Hq) as [(my & cur & H)|(cur & H)]; rewrite Hi in H; simplify_eq.
    simpl in Ht. injection Ht as Hmy. symmetry in Hmy.
    destruct (sleep_wake c HS i my cur Hq Hi Hmy) as (j & Hj).
    assert (i <> j) by (intros ->; rewrite Hi in Hj; simplify_eq).
    set (c1 := Config (with_serving (atomic_notify_all (serving (shared c))) (shared c))
                      (<[j := Idle]> (threads c))).
    assert (cstep (tstep ub) j (Act false) c = Some c1) as Hc1 by (unfold cstep; by rewrite Hj).
    destruct (holding_after ub i 4 c1 (Park my cur WAsleep)) as (sched & c' & ? & ? & ? & ?).
    + simpl. by rewrite list_lookup_insert_ne.
    + apply (turn_acquires ub i (shared c1) my); try done.
      change (i ∉ fqueue (atomic_notify_all (serving (shared c)))). rewrite notify_all_queue. apply not_elem_of_nil.
    + exists ((j, Act false) :: sched), c', i. simpl. rewrite Hc1. split_and!; try done; [lia|].
      constructor; [unfold benign; by eauto|done].
  - destruct (holding_after ub i 4 c l Hi) as (sched & c' & ? & ? & ? & ?).
    + by apply (turn_acquires ub i (shared c) (fval (serving (shared c)))).
    + exists sched, c', i. split_and!; auto with lia.
Qed.

(** ** Witnesses *)

(** Whether every [try_lock()] in flight is recent, decidably. *)
Definition timelyb (n : nat) (c : tconfig) : bool :=
  forallb (fun l => match l with
                    | TryCas _ _ seen => served (shared c) + Z.of_nat n <? seen + 2 ^ 32
                    | _ => true end) (threads c).

Lemma timelyb_timely n c : timelyb n c = true -> timely n c.
Proof.
  intros H i u cur seen Hi. unfold timelyb in H. rewrite forallb_forall in H.
  apply Z.ltb_lt. apply (H (TryCas u cur seen)). apply list_elem_of_In.
  apply list_elem_of_lookup. by exists i.
Qed.

(** Thread 0 locks, thread 1 takes ticket 1 and goes to sleep, thread 0 unlocks
    up to the notification, thread 2 tries in vain. *)
Definition demo_sched : list (nat * choice mutex_method) :=
  [(0, Call MLock); (0, Act false); (0, Act false);
   (1, Call MLock); (1, Act false); (1, Act false); (1, Act false);
   (1, Kernel Go); (1, Kernel Go); (2, Call MTryLock); (2, Act false); (2, Act false);
   (0, Call MUnlock); (0, Act false); (0, Act false)]%nat.

Definition demo_config : tconfig :=
  Config (Tickets (FWord 1 [1%nat]) 2 1) [UnlockNotify; Park 1 0 WAsleep; Idle].

Lemma demo_reached : reached false 3 demo_config.
Proof.
  apply (exec_while_reachable _ _ (timelyb 3) demo_sched); [apply timelyb_timely|].
  vm_compute. reflexivity.
Qed.

Lemma ticket_mutex_exclusion_witness :
  u32 (next (shared demo_config) - fval (serving (shared demo_config))) = outstanding demo_config.
Proof. apply (ticket_mutex_exclusion false 3 demo_config); [lia|apply demo_reached]. Defined.

(** Thread 1 has been woken and is about to enter. *)
Definition demo_turn : tconfig := Config (Tickets (FWord 1 []) 2 1) [Idle; SlowLoad 1; Idle].

Lemma demo_turn_reached : reached false 3 demo_turn.
Proof.
  apply (exec_while_reachable _ _ (timelyb 3)
    (demo_sched ++ [(0, Act false); (1, Kernel Go); (1, Kernel Go)]%nat)); [apply timelyb_timely|].
  vm_compute. reflexivity.
Qed.

Lemma ticket_mutex_fifo_witness : ahead (shared demo_turn) 1 = 0 /\ holders demo_turn = 0.
Proof.
  destruct (ticket_mutex_fifo false 3 demo_turn 1%nat (Act false) (SlowLoad 1) (shared demo_turn) Holding)
    as (_ & H & _); [lia|apply demo_turn_reached|by apply timelyb_timely|reflexivity|reflexivity|].
  by apply (H 1).
Defined.

Lemma ticket_mutex_progress_witness :
  exists sched c' i, (length sched <= 5)%nat /\ Forall (fun x => benign x.2) sched /\
    exec (tstep false) sched demo_config = Some c' /\ threads c' !! i = Some Holding.
Proof.
  apply (ticket_mutex_progress false 3 demo_config);
    [lia|apply demo_reached|reflexivity|vm_compute; congruence].
Defined.
