(* ===== verification/ParkingSemaphore.v ===== *)
(** * The parking semaphores

    [parking_semaphore<Policies...>] and [timed_semaphore<Policies...>]
    (include/nova/sync/semaphore/parking_semaphore.hpp).  The second class
    repeats the first and adds the timed acquisition; the flag [is_timed] tells
    them apart. *)
From S2P Require Import Prelude Machine Futex Backoff.
#[local] Open Scope Z_scope.

Record policies := Policies { has_backoff : bool; is_timed : bool }.

(** [count_], and two ghosts: how many tokens were ever made available (the
    initial ones and the released ones), and how many acquisitions succeeded. *)
Record semaphore := Semaphore { count_ : fword; given : Z; taken : Z }.

Inductive pc :=
| Idle
| SpinLoad                                    (** [acquire()] with backoff: load [c] *)
| Spin (c : Z) (b : exponential_backoff)      (** the spin loop *)
| Claim (until : bool)                        (** [count_.fetch_sub( 1 )] *)
| Loop (until : bool)                         (** head of [while ( true )]: load [c] *)
| Park (until : bool) (c : Z) (w : wait_pc)   (** in [atomic_wait] / [atomic_wait_until] *)
| Undo                                        (** timed out: [count_.fetch_add( 1 )] *)
| Reclaim                                     (** [restored >= 0]: [count_.fetch_sub( 1 )] *)
| TryLoad (until : bool)                      (** [try_acquire()]: load [c] *)
| TryLoop (until : bool) (c : Z)              (** [try_acquire()]: [while ( c > 0 )] *)
| Release (n : Z)                             (** [release( n )]: [count_.fetch_add( n )] *)
| Wake (one : bool).                          (** [release( n )]: notify one or all *)

#[export] Instance pc_eq_dec : EqDecision pc.
Proof. intros x y. unfold Decision. repeat (decide equality). Defined.

(** The client's calls; [n] is a [std::ptrdiff_t] with [n >= 0] (asserted). *)
Inductive method := MAcquire | MTryAcquire | MTryAcquireUntil | MRelease (n : Z).

Definition with_count (w : fword) (s : semaphore) : semaphore := Semaphore w (given s) (taken s).
Definition take (s : semaphore) : semaphore := Semaphore (count_ s) (given s) (taken s + 1).
Definition add_count (n : Z) (s : semaphore) : semaphore :=
  with_count (set_val (i32 (fval (count_ s) + n)) (count_ s)) s.

(** A return with [success] (the ghost counts it) or without. *)
Definition return_ (ok : bool) (s : semaphore) : semaphore * pc := (if ok then take s else s, Idle).

(** The functor [acquire()] passes to [run_with_exponential_backoff_until]. *)
Definition spin_functor (sp : bool) (s : semaphore) (c : Z) : semaphore * backoff_result * Z :=
  if 0 <? c then
    let '(w', ok, c') := cas sp c (i32 (c - 1)) (count_ s) in
    (with_count w' s, if ok then success else retry_without_backoff, c')
  else (s, retry, c).

Definition spin (sp : bool) (s : semaphore) (c : Z) (b : exponential_backoff) : semaphore * pc :=
  let '(s', r, c') := spin_functor sp s c in
  match backoff_turn r b with
  | inl true => return_ true s'
  | inl false => (s', Claim false)
  | inr b' => (s', Spin c' b')
  end.

(** [auto prev = count_.fetch_sub( 1 ); if ( prev > 0 ) return] *)
Definition claim (until : bool) (s : semaphore) : semaphore * pc :=
  let prev := fval (count_ s) in
  let s' := add_count (-1) s in
  if 0 <? prev then return_ true s' else (s', Loop until).

(** Head of the [while ( true )] loop of [acquire()] and [try_acquire_until()]. *)
Definition loop (until : bool) (s : semaphore) : semaphore * pc :=
  let c := fval (count_ s) in
  if 0 <=? c then return_ true s
  else (s, Park until c (if until then atomic_wait_until else atomic_wait)).

Definition park (tid : nat) (k : wchoice) (until : bool) (c : Z) (s : semaphore) (wp : wait_pc)
  : option (semaphore * pc) :=
  match wait_step until tid k c (count_ s) wp with
  | None => None
  | Some (w', inl wp') => Some (with_count w' s, Park until c wp')
  | Some (w', inr woken) =>
      Some (with_count w' s, if until && negb woken then Undo else Loop until)
  end.

(** [try_acquire_until()] after a time-out. *)
Definition undo (s : semaphore) : semaphore * pc :=
  let restored := fval (count_ s) in
  let s' := add_count 1 s in
  if 0 <=? restored then (s', Reclaim) else return_ false s'.

Definition reclaim (s : semaphore) : semaphore * pc := return_ true (add_count (-1) s).

(** One turn of [try_acquire()]. *)
Definition try_loop (until : bool) (s : semaphore) (c : Z) : semaphore * pc :=
  if 0 <? c then
    let '(w', ok, c') := cas false c (i32 (c - 1)) (count_ s) in
    if ok then return_ true (with_count w' s) else (with_count w' s, TryLoop until c')
  else if until then (s, Claim true) else return_ false s.

(** [release( n )], up to the notification. *)
Definition release (n : Z) (s : semaphore) : semaphore * pc :=
  let prev := fval (count_ s) in
  let s1 := add_count (i32 n) s in
  let s' := Semaphore (count_ s1) (given s + n) (taken s) in
  if prev <? 0 then (s', Wake (Z.min (i32 n) (- prev) =? 1)) else (s', Idle).

Definition wake_waiters (one : bool) (s : semaphore) : semaphore :=
  with_count (if one then atomic_notify_one (count_ s) else atomic_notify_all (count_ s)) s.

Definition tstep (p : policies) (tid : nat) (ch : choice method) (s : semaphore) (l : pc)
  : option (semaphore * pc) :=
  match l, ch with
  | Idle, Call MAcquire => Some (s, if has_backoff p then SpinLoad else Claim false)
  | Idle, Call MTryAcquire => Some (s, TryLoad false)
  | Idle, Call MTryAcquireUntil => if is_timed p then Some (s, TryLoad true) else None
  | Idle, Call (MRelease n) => if 0 <=? n then Some (s, Release n) else None
  | SpinLoad, Act _ => Some (s, Spin (fval (count_ s)) backoff_init)
  | Spin c b, Act sp => Some (spin sp s c b)
  | Claim u, Act _ => Some (claim u s)
  | Loop u, Act _ => Some (loop u s)
  | Park u c wp, Kernel k => park tid k u c s wp
  | Undo, Act _ => Some (undo s)
  | Reclaim, Act _ => Some (reclaim s)
  | TryLoad u, Act _ => Some (s, TryLoop u (fval (count_ s)))
  | TryLoop u c, Act _ => Some (try_loop u s c)
  | Release n, Act _ => Some (release n s)
  | Wake one, Act _ => Some (wake_waiters one s, Idle)
  | _, _ => None
  end.

(** The two classes. *)
Definition parking_semaphore (use_backoff : bool) := tstep (Policies use_backoff false).
Definition timed_semaphore (use_backoff : bool) := tstep (Policies use_backoff true).

Abbreviation sconfig := (config semaphore pc).

(** A semaphore with [initial] tokens, used by [n] threads. *)
Definition init (initial : Z) (n : nat) : sconfig :=
  Config (Semaphore (FWord (i32 initial) []) initial 0) (replicate n Idle).

(** ** Token accounting *)

(** The thread has claimed a token and not returned yet. *)
Definition pending (l : pc) : bool :=
  match l with Loop _ | Park _ _ _ | Undo => true | _ => false end.

Definition claims (c : sconfig) : Z := count pending (threads c).

(** The tokens that are available, to the threads that wait for one as well. *)
Definition available (s : semaphore) : Z := given s - taken s.

(** The counter does not overflow: fewer than 2^31 tokens are available at a
    time, also after the releases under way. *)
Definition small (n : nat) (c : sconfig) : Prop :=
  Z.abs (available (shared c)) + Z.of_nat n < 2 ^ 31 /\
  (forall i m, threads c !! i = Some (Release m) -> m < 2 ^ 31 /\ available (shared c) + m < 2 ^ 31).

(** Program points of [acquire()], [try_acquire()] and [release()]; the others
    belong to [timed_semaphore::try_acquire_until()]. *)
Definition untimed_pc (l : pc) : bool :=
  match l with
  | Undo | Reclaim => false
  | Claim u | Loop u | Park u _ _ | TryLoad u | TryLoop u _ => negb u
  | _ => true
  end.

Record Inv (p : policies) (n : nat) (c : sconfig) : Prop := {
  inv_threads : length (threads c) = n;
  inv_count : fval (count_ (shared c)) = given (shared c) - taken (shared c) - claims c;
  inv_given : 0 <= given (shared c) /\ 0 <= taken (shared c);
  inv_release : forall i m, threads c !! i = Some (Release m) -> 0 <= m;
  inv_untimed : is_timed p = false ->
    taken (shared c) <= given (shared c) /\
    forall i l, threads c !! i = Some l -> untimed_pc l = true
}.

(** ** One step *)

(** The balance a step keeps: the counter, the ghosts and the thread's claim. *)
Definition balance (s : semaphore) (l : pc) : Z :=
  fval (count_ s) - given s + taken s + Z.b2z (pending l).

(** What a step is allowed to do to the ghosts. *)
Record outcome (s : semaphore) (l : pc) (s' : semaphore) (l' : pc) : Prop := {
  out_balance : balance s' l' = balance s l;
  out_given : given s <= given s' /\ (given s' <> given s -> exists m, l = Release m /\ given s' = given s + m);
  out_taken : taken s <= taken s' /\
    (taken s' <> taken s -> taken s' = taken s + 1 /\
       (l = Reclaim \/ 1 <= fval (count_ s) + Z.b2z (pending l)));
  out_release : forall m, l' = Release m -> 0 <= m
}.

Ltac outcome_done :=
  constructor; unfold balance in *; simpl in *; intros; try done; try lia; eauto with lia.

Lemma cas_counter sp c d s w' ok o :
  cas sp c d (count_ s) = (w', ok, o) ->
  (ok = true /\ fval (count_ s) = c /\ fval w' = d) \/ (ok = false /\ w' = count_ s /\ o = fval (count_ s)).
Proof. intros [(-> & ? & ->)|]%cas_cases; auto. Qed.

Lemma spin_outcome sp s c b s' l' :
  spin sp s c b = (s', l') -> - 2 ^ 31 < fval (count_ s) < 2 ^ 31 -> outcome s (Spin c b) s' l'.
Proof.
  unfold spin, spin_functor, return_. intros H Hr. destruct (Z.ltb_spec 0 c) as [Hc|Hc].
  - destruct (cas sp c (i32 (c - 1)) (count_ s)) as [[w' ok] o] eqn:E.
    apply cas_counter in E as [(-> & Hv & Hw)|(-> & -> & _)].
    + rewrite backoff_turn_success in H. simplify_eq. rewrite i32_small in Hw by lia. outcome_done.
    + destruct (backoff_turn retry_without_backoff b) as [[]|] eqn:Et;
        try (by apply backoff_turn_true in Et); simplify_eq; outcome_done.
  - destruct (backoff_turn retry b) as [[]|] eqn:Et; try (by apply backoff_turn_true in Et);
      simplify_eq; outcome_done.
Qed.

Lemma claim_outcome u s s' l' :
  claim u s = (s', l') -> - 2 ^ 31 < fval (count_ s) < 2 ^ 31 -> outcome s (Claim u) s' l'.
Proof.
  unfold claim, return_, add_count. intros H Hr. rewrite i32_small in H by lia.
  destruct (Z.ltb_spec 0 (fval (count_ s))); simplify_eq; outcome_done.
Qed.

Lemma loop_outcome u s s' l' : loop u s = (s', l') -> outcome s (Loop u) s' l'.
Proof.
  unfold loop, return_. intros H. destruct (Z.leb_spec 0 (fval (count_ s))); simplify_eq; outcome_done.
Qed.

Lemma park_outcome tid k u c s wp s' l' :
  park tid k u c s wp = Some (s', l') -> outcome s (Park u c wp) s' l'.
Proof.
  unfold park. intros H. destruct (wait_step u tid k c (count_ s) wp) as [[w' [wp'|b]]|] eqn:E; [| |done];
    apply wait_step_val in E; simplify_eq; [|case_match]; outcome_done.
Qed.

Lemma undo_outcome s s' l' :
  undo s = (s', l') -> - 2 ^ 31 <= fval (count_ s) + 1 < 2 ^ 31 -> outcome s Undo s' l'.
Proof.
  unfold undo, return_, add_count. intros H Hr. rewrite i32_small in H by lia.
  destruct (Z.leb_spec 0 (fval (count_ s))); simplify_eq; outcome_done.
Qed.

Lemma reclaim_outcome s s' l' :
  reclaim s = (s', l') -> - 2 ^ 31 < fval (count_ s) < 2 ^ 31 -> outcome s Reclaim s' l'.
Proof. unfold reclaim, return_, add_count. intros H Hr. rewrite i32_small in H by lia. simplify_eq. outcome_done. Qed.

Lemma try_loop_outcome u s c s' l' :
  try_loop u s c = (s', l') -> - 2 ^ 31 < fval (count_ s) < 2 ^ 31 -> outcome s (TryLoop u c) s' l'.
Proof.
  unfold try_loop, return_. intros H Hr. destruct (Z.ltb_spec 0 c) as [Hc|Hc].
  - destruct (cas false c (i32 (c - 1)) (count_ s)) as [[w' ok] o] eqn:E.
    apply cas_counter in E as [(-> & Hv & Hw)|(-> & -> & _)]; simplify_eq; [|outcome_done].
    rewrite i32_small in Hw by lia. outcome_done.
  - destruct u; simplify_eq; outcome_done.
Qed.

Lemma release_outcome n s s' l' :
  release n s = (s', l') -> 0 <= n < 2 ^ 31 -> - 2 ^ 31 <= fval (count_ s) -> fval (count_ s) + n < 2 ^ 31 ->
  outcome s (Release n) s' l'.
Proof.
  unfold release, add_count. intros H Hn H1 H2. rewrite (i32_small n), i32_small in H by lia.
  case_match; simplify_eq; outcome_done.
Qed.

#[global] Arguments spin : simpl never.
#[global] Arguments claim : simpl never.
#[global] Arguments loop : simpl never.
#[global] Arguments park : simpl never.
#[global] Arguments undo : simpl never.
#[global] Arguments reclaim : simpl never.
#[global] Arguments try_loop : simpl never.
#[global] Arguments release : simpl never.

Lemma tstep_outcome p i ch s l s' l' :
  tstep p i ch s l = Some (s', l') ->
  - 2 ^ 31 < fval (count_ s) -> fval (count_ s) + 1 < 2 ^ 31 + Z.b2z (pending l) -> fval (count_ s) < 2 ^ 31 ->
  (l = Undo -> fval (count_ s) + 1 < 2 ^ 31) ->
  (forall m, l = Release m -> 0 <= m < 2 ^ 31 /\ fval (count_ s) + m < 2 ^ 31) ->
  outcome s l s' l'.
Proof.
  intros H H1 H2 H3 Hu Hm.
  destruct l, ch as [[]|sp|k|ex]; simpl in H; try done.
  - simplify_eq. destruct (has_backoff p); outcome_done.
  - simplify_eq. outcome_done.
  - destruct (is_timed p); simplify_eq. outcome_done.
  - destruct (Z.leb_spec 0 n); simplify_eq. constructor; unfold balance; simpl; try done; try lia. naive_solver.
  - simplify_eq. outcome_done.
  - apply (inj Some) in H. eapply spin_outcome; [done|lia].
  - apply (inj Some) in H. eapply claim_outcome; [done|lia].
  - apply (inj Some) in H. by eapply loop_outcome.
  - by eapply park_outcome.
  - apply (inj Some) in H. eapply undo_outcome; [done|]. specialize (Hu eq_refl). lia.
  - apply (inj Some) in H. eapply reclaim_outcome; [done|lia].
  - simplify_eq. outcome_done.
  - apply (inj Some) in H. eapply try_loop_outcome; [done|lia].
  - apply (inj Some) in H. destruct (Hm n eq_refl). eapply release_outcome; try done; lia.
  - simplify_eq. unfold wake_waiters. destruct one; outcome_done.
Qed.

Lemma tstep_untimed p i ch s l s' l' :
  tstep p i ch s l = Some (s', l') -> is_timed p = false -> untimed_pc l = true -> untimed_pc l' = true.
Proof.
  intros H Hp Hl.
  destruct l, ch as [[]|sp|k|ex]; simpl in H; try done; simpl in Hl; try (apply (inj Some) in H);
    try (unfold spin, spin_functor, claim, loop, try_loop, release, return_ in H);
    try (rewrite Hp in H); try (apply negb_true_iff in Hl; subst); repeat case_match; simplify_eq; try done.
  all: unfold park in H; repeat case_match; simplify_eq; done.
Qed.

(** ** Preservation *)

Lemma sem_inv_step p n c i ch l s' l' :
  small n c -> Inv p n c -> threads c !! i = Some l -> tstep p i ch (shared c) l = Some (s', l') ->
  Inv p n (Config s' (<[i := l']> (threads c))).
Proof.
  intros (Hg & Hrel) [Hn Hc [Hg0 Ht0] Hr Hu] Hl Hs. unfold available in *.
  pose proof (count_insert pending (threads c) i l l' Hl) as Hcl.
  pose proof (count_bounds pending (threads c)) as Hb. unfold claims in Hc. rewrite Hn in Hb.
  pose proof (lookup_lt_Some _ _ _ Hl) as Hlt. rewrite Hn in Hlt.
  assert (pending l = true -> 1 <= count pending (threads c)) as Hpos by (by eapply count_pos).
  assert (outcome (shared c) l s' l') as [Hbal [Hg1 Hg2] [Ht1 Ht2] Hrl].
  { eapply tstep_outcome; [done| | | | |].
    - lia.
    - destruct (pending l); simpl; lia.
    - lia.
    - intros ->. specialize (Hpos eq_refl). lia.
    - intros m ->. specialize (Hr i m Hl). specialize (Hrel i m Hl). lia. }
  unfold balance in Hbal. constructor; simpl.
  - by rewrite length_insert.
  - unfold claims. simpl. rewrite Hcl. lia.
  - lia.
  - intros j m. destruct (decide (j = i)) as [->|Hj].
    + rewrite list_lookup_insert_eq by (by apply lookup_lt_Some in Hl). intros [= ->]. by apply Hrl.
    + rewrite list_lookup_insert_ne by done. apply Hr.
  - intros Hp. destruct (Hu Hp) as [Hle Hpcs]. split.
    + destruct (decide (taken s' = taken (shared c))) as [->|Hne]; [lia|].
      destruct (Ht2 Hne) as [-> [->|Hav]]; [by specialize (Hpcs i Reclaim Hl)|].
      destruct (pending l); simpl in *; lia.
    + intros j lj. destruct (decide (j = i)) as [->|Hj].
      * rewrite list_lookup_insert_eq by (by apply lookup_lt_Some in Hl). intros [= <-].
        eapply tstep_untimed; [done..|]. by eapply Hpcs.
      * rewrite list_lookup_insert_ne by done. apply Hpcs.
Qed.

Abbreviation reached p initial n := (reachable_while (tstep p) (small n) (init initial n)).

Lemma sem_inv_reachable p initial n c :
  0 <= initial < 2 ^ 31 -> reached p initial n c -> Inv p n c.
Proof.
  intros Hi. apply invariant_reachable_while.
  - assert (forall j lj, threads (init initial n) !! j = Some lj -> lj = Idle) as Hall.
    { intros j lj Hj. by apply lookup_replicate in Hj as [-> _]. }
    assert (claims (init initial n) = 0) as H0.
    { apply count_all_false. intros l (j & Hj)%list_elem_of_lookup. by rewrite (Hall j l Hj). }
    constructor; rewrite ?H0; simpl; try lia.
    + by rewrite length_replicate.
    + rewrite i32_small; lia.
    + intros j m Hj. by apply Hall in Hj.
    + intros _. split; [lia|]. intros j l Hj. by rewrite (Hall j l Hj).
  - intros. by eapply sem_inv_step.
Qed.

(** ** Properties *)

(** C30: token accounting of [parking_semaphore] and [timed_semaphore]: as long
    as fewer than 2^31 tokens are available at a time, the counter is always the tokens made
    available, less the successful acquisitions, less the claims of the threads
    that are still blocked - through every race of acquirers, releasers,
    failed and timed-out attempts. *)
Theorem semaphore_token_accounting p initial n c :
  0 <= initial < 2 ^ 31 -> reached p initial n c ->
  fval (count_ (shared c)) = given (shared c) - taken (shared c) - claims c.
Proof. intros Hi HI%sem_inv_reachable; [|done]. apply (inv_count _ _ _ HI). Qed.

(** [parking_semaphore] never hands out more tokens than there are: the
    acquisitions that succeeded never exceed the initial and released tokens. *)
Theorem semaphore_no_over_acquisition p initial n c :
  is_timed p = false -> 0 <= initial < 2 ^ 31 ->
  reachable_while (tstep p) (small n) (init initial n) c ->
  0 <= taken (shared c) <= given (shared c).
Proof.
  intros Hp Hi HI%sem_inv_reachable; [|done]. destruct (inv_untimed _ _ _ HI Hp). destruct (inv_given _ _ _ HI). lia.
Qed.

Definition timed : policies := Policies false true.
Definition plain : policies := Policies false false.

(** Thread 0 blocks in [try_acquire_until()], thread 1 releases one token just
    as it times out, thread 2 runs [try_acquire()] between the two halves of
    thread 0's undo. *)
Definition over_sched : list (nat * choice method) :=
  [(0, Call MTryAcquireUntil); (0, Act false); (0, Act false); (0, Act false); (0, Act false);
   (0, Kernel Go); (0, Kernel Go);
   (0, Kernel TimedOut); (0, Kernel Go);
   (1, Call (MRelease 1)); (1, Act false);
   (0, Act false);
   (2, Call MTryAcquire); (2, Act false); (2, Act false);
   (0, Act false); (1, Act false)]%nat.

(** [timed_semaphore] hands out a token twice: from an empty semaphore one
    [release( 1 )] lets two acquisitions succeed, because the timed-out waiter
    gives its claim back, sees the token, and takes it unconditionally after
    another thread may have acquired it. *)
Theorem timed_semaphore_over_acquires :
  exists c, exec (tstep timed) over_sched (init 0 3) = Some c /\
    given (shared c) = 1 /\ taken (shared c) = 2 /\
    (forall i l, threads c !! i = Some l -> l = Idle).
Proof.
  eexists. split; [vm_compute; reflexivity|]. split_and!; try reflexivity.
  intros [|[|[|i]]] l; simpl; intros; by simplify_eq.
Qed.

(** Threads 0 and 1 block in [acquire()]; thread 2 releases one token twice.
    The kernel wakes the oldest sleeper. *)
Definition stuck_sched : list (nat * choice method) :=
  [(0, Call MAcquire); (0, Act false); (0, Act false)]%nat ++ replicate 15 (0%nat, Kernel Go) ++
  [(1, Call MAcquire); (1, Act false); (1, Act false)]%nat ++ replicate 15 (1%nat, Kernel Go) ++
  [(2, Call (MRelease 1)); (2, Act false); (2, Act false)]%nat ++
  [(0, Kernel Go); (0, Kernel Go); (0, Kernel Go)]%nat ++
  [(2, Call (MRelease 1)); (2, Act false); (2, Act false)]%nat ++
  [(1, Kernel Go); (1, Kernel Go); (1, Act false)]%nat.

Definition stuck_config : sconfig :=
  Config (Semaphore (FWord 0 [0%nat]) 2 1) [Park false (-1) WAsleep; Idle; Idle].

(** [parking_semaphore] can lose a wakeup: after two [acquire()]s blocked
    and two tokens were released, one thread stays asleep although its token is
    there, and no later [release( n )] wakes it, since the counter is not
    negative any more. *)
Theorem parking_semaphore_loses_wakeup :
  exec (tstep plain) stuck_sched (init 0 3) = Some stuck_config /\
  (forall n, 0 <= n < 2 ^ 31 ->
     exists c', exec (tstep plain) [(2%nat, Call (MRelease n)); (2%nat, Act false)] stuck_config = Some c' /\
       threads c' = threads stuck_config /\ fqueue (count_ (shared c')) = [0%nat]).
Proof.
  split; [vm_compute; reflexivity|]. intros n Hn.
  exists (Config (Semaphore (FWord (i32 (0 + i32 n)) [0%nat]) (2 + n) 1) (threads stuck_config)).
  split; [|split; reflexivity]. simpl. unfold cstep at 1. simpl.
  destruct (Z.leb_spec 0 n); [|lia]. reflexivity.
Qed.

(** ** Witnesses *)

(** [small], decidably. *)
Definition smallb (n : nat) (c : sconfig) : bool :=
  (Z.abs (available (shared c)) + Z.of_nat n <? 2 ^ 31) &&
  forallb (fun l => match l with Release m => (m <? 2 ^ 31) && (available (shared c) + m <? 2 ^ 31) | _ => true end) (threads c).

Lemma smallb_small n c : smallb n c = true -> small n c.
Proof.
  unfold smallb. intros H. bools. split; [lia|]. intros i m Hi.
  rewrite forallb_forall in H0. assert (In (Release m) (threads c)) as Hin%H0; [|simpl in Hin; by bools].
  apply list_elem_of_In, list_elem_of_lookup. by exists i.
Qed.

Lemma stuck_reached : reached plain 0 3 stuck_config.
Proof.
  apply (exec_while_reachable _ _ (smallb 3) stuck_sched); [apply smallb_small|]. vm_compute. reflexivity.
Qed.

Lemma semaphore_token_accounting_witness :
  fval (count_ (shared stuck_config)) = given (shared stuck_config) - taken (shared stuck_config) - claims stuck_config.
Proof. apply (semaphore_token_accounting plain 0 3 stuck_config); [lia|apply stuck_reached]. Defined.

Lemma semaphore_no_over_acquisition_witness :
  0 <= taken (shared stuck_config) <= given (shared stuck_config).
Proof. apply (semaphore_no_over_acquisition plain 0 3 stuck_config); [reflexivity|lia|apply stuck_reached]. Defined.
