(* ===== verification/ManualResetEvent.v ===== *)
(** * The parking manual-reset event

    [parking_manual_reset_event<Policies...>]
    (include/nova/sync/event/parking_manual_reset_event.hpp). *)
From S2P Require Import Prelude Machine Futex Backoff.
#[local] Open Scope Z_scope.

(** Program points; [Ret r] is a thread that came back from a method with
    result [r] ([wait()] returns [true]). *)
Inductive pc :=
| Idle
| Ret (r : bool)
| Signal                         (** [signal()]: [state_.exchange( 1 )] *)
| SignalNotify                   (** [signal()]: [atomic_notify_all] *)
| Reset                          (** [reset()]: [state_.store( 0 )] *)
| TryWait                        (** [try_wait()] *)
| Spin (b : exponential_backoff) (** [wait()] with backoff: the spin loop *)
| First (until : bool)           (** the acquire load before the loop *)
| Loop (until : bool)            (** head of the [while] loop *)
| Park (until : bool) (w : wait_pc) (** in [atomic_wait] / [atomic_wait_until] *)
| Last.                          (** [try_wait_until()]: the load after a time-out *)

#[export] Instance pc_eq_dec : EqDecision pc.
Proof. intros x y. unfold Decision. repeat (decide equality). Defined.

Inductive method := MSignal | MReset | MTryWait | MWait | MTryWaitUntil.

(** [signal()], up to the notification. *)
Definition signal (w : fword) : fword * pc :=
  (set_val 1 w, if fval w =? 0 then SignalNotify else Ret true).

Definition reset (w : fword) : fword := set_val 0 w.

Definition try_wait (w : fword) : bool := negb (fval w =? 0).

(** The functor [wait()] passes to [run_with_exponential_backoff_until]. *)
Definition spin_functor (w : fword) : backoff_result :=
  if negb (fval w =? 0) then success else retry_without_backoff.

Definition spin (w : fword) (b : exponential_backoff) : pc :=
  match backoff_turn (spin_functor w) b with
  | inl true => Ret true
  | inl false => First false
  | inr b' => Spin b'
  end.

Definition first (until : bool) (w : fword) : pc :=
  if negb (fval w =? 0) then Ret true else Loop until.

Definition loop (until : bool) (w : fword) : pc :=
  if fval w =? 0 then Park until (if until then atomic_wait_until else atomic_wait) else Ret true.

Definition park (tid : nat) (k : wchoice) (until : bool) (w : fword) (wp : wait_pc) : option (fword * pc) :=
  match wait_step until tid k 0 w wp with
  | None => None
  | Some (w', inl wp') => Some (w', Park until wp')
  | Some (w', inr woken) => Some (w', if until && negb woken then Last else Loop until)
  end.

(** A thread between two calls. *)
Definition outside (l : pc) : bool := match l with Idle | Ret _ => true | _ => false end.

Definition enter (has_backoff : bool) (m : method) : pc :=
  match m with
  | MSignal => Signal | MReset => Reset | MTryWait => TryWait
  | MWait => if has_backoff then Spin backoff_init else First false
  | MTryWaitUntil => First true
  end.

Definition tstep (has_backoff : bool) (tid : nat) (ch : choice method) (w : fword) (l : pc)
  : option (fword * pc) :=
  match l, ch with
  | (Idle | Ret _), Call m => Some (w, enter has_backoff m)
  | Signal, Act _ => Some (signal w)
  | SignalNotify, Act _ => Some (atomic_notify_all w, Ret true)
  | Reset, Act _ => Some (reset w, Ret true)
  | TryWait, Act _ => Some (w, Ret (try_wait w))
  | Spin b, Act _ => Some (w, spin w b)
  | First u, Act _ => Some (w, first u w)
  | Loop u, Act _ => Some (w, loop u w)
  | Park u wp, Kernel k => park tid k u w wp
  | Last, Act _ => Some (w, Ret (negb (fval w =? 0)))
  | _, _ => None
  end.

Abbreviation econfig := (config fword pc).

Definition init (initially_set : bool) (n : nat) : econfig :=
  Config (FWord (if initially_set then 1 else 0) []) (replicate n Idle).

(** The threads that wait for the event. *)
Definition waiting (l : pc) : bool :=
  match l with TryWait | Spin _ | First _ | Loop _ | Park _ _ | Last => true | _ => false end.

(** ** The invariant *)

Record Inv (hb : bool) (c : econfig) : Prop := {
  inv_val : fval (shared c) = 0 \/ fval (shared c) = 1;
  inv_queue : forall i, i ∈ fqueue (shared c) -> exists u, threads c !! i = Some (Park u WAsleep);
  inv_wake : fval (shared c) = 1 -> fqueue (shared c) <> [] ->
    exists j, threads c !! j = Some SignalNotify;
  inv_spin : forall i b, threads c !! i = Some (Spin b) -> b = backoff_init;
  inv_never_park : hb = true -> forall i l, threads c !! i = Some l ->
    l <> First false /\ l <> Loop false /\ forall wp, l <> Park false wp
}.

Lemma manual_park_cases tid k u w wp w' l' :
  park tid k u w wp = Some (w', l') ->
  fval w' = fval w /\ ((exists wp', l' = Park u wp') \/ (l' = Last /\ u = true) \/ l' = Loop u).
Proof.
  unfold park. intros H. destruct (wait_step u tid k 0 w wp) as [[w1 [wp'|b]]|] eqn:E; [| |done];
    apply wait_step_val in E; simplify_eq; split; eauto.
  destruct u; simpl; [destruct (negb b)|]; eauto.
Qed.

Lemma manual_park_queue tid k u w wp w' l' :
  park tid k u w wp = Some (w', l') -> (tid ∈ fqueue w -> wp = WAsleep) ->
  (forall t, t <> tid -> t ∈ fqueue w' -> t ∈ fqueue w) /\
  (tid ∈ fqueue w' -> l' = Park u WAsleep /\ fval w' = 0).
Proof.
  unfold park. intros H Hq. destruct (wait_step u tid k 0 w wp) as [[w1 r]|] eqn:E; [|done].
  assert (w1 = w') as -> by (destruct r; by simplify_eq).
  pose proof (wait_step_asleep _ _ _ _ _ _ _ _ E Hq) as Hs.
  pose proof (wait_step_val _ _ _ _ _ _ _ _ E) as Hv.
  split; [intros t Ht ?; by eapply (wait_step_queue _ _ _ _ _ _ _ _ t E)|].
  intros [-> He]%Hs. split; [by simplify_eq|congruence].
Qed.

(** What a step does to the word and the queue. *)
Lemma manual_step_queue hb i ch w l w' l' :
  tstep hb i ch w l = Some (w', l') -> (i ∈ fqueue w -> exists u, l = Park u WAsleep) ->
  (forall t, t <> i -> t ∈ fqueue w' -> t ∈ fqueue w) /\
  (i ∈ fqueue w' -> (exists u, l' = Park u WAsleep) /\ fval w' = 0) /\
  (l = SignalNotify -> fqueue w' = []) /\
  (fval w' <> fval w -> (l = Signal /\ fval w' = 1 /\ (fval w = 0 -> l' = SignalNotify)) \/ (l = Reset /\ fval w' = 0)).
Proof.
  intros H Hq.
  destruct l, ch as [m|sp|k|ex]; simpl in H; try done;
    try (simplify_eq; simpl; split_and!; [by intros t _|intros Hin; by destruct (Hq Hin)|done|done]).
  - unfold signal in H. simplify_eq. split_and!; [by intros t _|intros Hin; by destruct (Hq Hin)|done|].
    intros _. left. split_and!; [done..|]. by intros Hz%Z.eqb_eq; rewrite Hz.
  - assert (fqueue w' = []) as -> by (simplify_eq; apply notify_all_queue).
    simplify_eq. split_and!; [by intros t _ ?%not_elem_of_nil|by intros ?%not_elem_of_nil|done|done].
  - simplify_eq. split_and!; [by intros t _|intros Hin; by destruct (Hq Hin)|done|].
    intros _. by right.
  - destruct (manual_park_queue _ _ _ _ _ _ _ H) as [H1 H2]; [intros [? ?]%Hq; by simplify_eq|].
    apply manual_park_cases in H as [Hv _].
    split_and!; try done. intros [-> ?]%H2; eauto.
Qed.

(** The local program points: the spin loop never backs off, so it never ends. *)
Lemma manual_step_local hb i ch w l w' l' :
  tstep hb i ch w l = Some (w', l') -> hb = true ->
  (forall b, l = Spin b -> b = backoff_init) ->
  (l <> First false /\ l <> Loop false /\ forall wp, l <> Park false wp) ->
  (l' <> First false /\ l' <> Loop false /\ forall wp, l' <> Park false wp).
Proof.
  intros H -> Hb (H1 & H2 & H3).
  destruct l, ch as [m|sp|k|ex]; simpl in H; try done; try (by simplify_eq);
    try (simplify_eq; by destruct m).
  - simplify_eq. unfold signal in *. simplify_eq. by case_match.
  - simplify_eq. unfold spin, spin_functor. rewrite (Hb b eq_refl). by destruct (fval w' =? 0).
  - destruct until; [|done]. simplify_eq. unfold first. by case_match.
  - destruct until; [|done]. simplify_eq. unfold loop. by case_match.
  - destruct until; [|by destruct (H3 w0)].
    apply manual_park_cases in H as [_ [[? ->]|[[-> _]| ->]]]; done.
Qed.

Lemma manual_step_spin hb i ch w l w' b :
  tstep hb i ch w l = Some (w', Spin b) -> (forall b', l = Spin b' -> b' = backoff_init) -> b = backoff_init.
Proof.
  intros H Hl.
  destruct l, ch as [m|sp|k|ex]; simpl in H; try done; try (by destruct m, hb; simplify_eq/=).
  - unfold signal in H. destruct (fval w =? 0); by simplify_eq.
  - unfold spin, spin_functor in H. rewrite (Hl b0 eq_refl) in H. destruct (fval w =? 0); cbv in H; by simplify_eq.
  - unfold first in H. destruct (fval w =? 0); by simplify_eq.
  - unfold loop in H. destruct (fval w =? 0); by simplify_eq.
  - apply manual_park_cases in H as [_ [[? ?]|[[? _]|?]]]; done.
Qed.

Lemma manual_inv_step hb c i ch l w' l' :
  Inv hb c -> threads c !! i = Some l -> tstep hb i ch (shared c) l = Some (w', l') ->
  Inv hb (Config w' (<[i := l']> (threads c))).
Proof.
  intros [Hv Hq Hw Hs Hn] Hl Hstep.
  destruct (manual_step_queue _ _ _ _ _ _ _ Hstep) as (Hold & Hself & Hnot & Hval).
  { intros [u Hu]%Hq. rewrite Hl in Hu. simplify_eq. eauto. }
  assert (<[i:=l']> (threads c) !! i = Some l') as Hi'
    by (apply list_lookup_insert_eq; by apply lookup_lt_Some in Hl).
  constructor; simpl.
  - destruct (decide (fval w' = fval (shared c))) as [->|Hne]; [done|].
    destruct (Hval Hne) as [(_ & -> & _)|(_ & ->)]; auto.
  - intros t Ht. destruct (decide (t = i)) as [->|Hti].
    + rewrite Hi'. destruct (Hself Ht) as [[u ->] _]. eauto.
    + rewrite list_lookup_insert_ne by done. by apply Hq, Hold.
  - intros H1 Hne. destruct (decide (l' = SignalNotify)) as [->|Hn']; [by exists i|].
    assert (fqueue (shared c) <> []) as Hne0.
    { destruct (fqueue w') as [|t q] eqn:Eq; [done|]. intros E0.
      destruct (decide (t = i)) as [->|Hti].
      - destruct Hself as [_ ?]; [left|]. lia.
      - assert (t ∈ fqueue (shared c)) as Hin by (apply Hold; [done|left]).
        rewrite E0 in Hin. by apply not_elem_of_nil in Hin. }
    destruct (decide (fval (shared c) = 1)) as [E1|E1].
    + destruct (Hw E1 Hne0) as [j Hj]. destruct (decide (j = i)) as [->|Hji].
      * rewrite Hl in Hj. simplify_eq. by rewrite Hnot in Hne.
      * exists j. by rewrite list_lookup_insert_ne.
    + destruct (Hval ltac:(lia)) as [(_ & _ & Hsn)|(_ & ?)]; [|lia].
      destruct Hn'. apply Hsn. lia.
  - intros t b. destruct (decide (t = i)) as [->|Hti].
    + rewrite Hi'. intros [= ->]. eapply manual_step_spin; [done|]. intros b' ->. by eapply Hs.
    + rewrite list_lookup_insert_ne by done. apply Hs.
  - intros Hhb t lt. destruct (decide (t = i)) as [->|Hti].
    + rewrite Hi'. intros [= <-]. eapply manual_step_local; [done..| |by eapply Hn].
      intros b ->. by eapply Hs.
    + rewrite list_lookup_insert_ne by done. by apply Hn.
Qed.

Lemma manual_inv_reachable hb s n c : reachable (tstep hb) (init s n) c -> Inv hb c.
Proof.
  apply invariant_reachable.
  - assert (forall j lj, threads (init s n) !! j = Some lj -> lj = Idle) as Hall.
    { intros j lj Hj. by apply lookup_replicate in Hj as [-> _]. }
    constructor; simpl.
    + destruct s; auto.
    + by intros i ?%not_elem_of_nil.
    + done.
    + by intros i b ?%Hall.
    + by intros _ i l ->%Hall.
  - intros i ch c1 l s' l' HI Hl Hs. by eapply manual_inv_step.
Qed.

(** ** Properties *)

(** C31: the manual-reset event loses no wakeup: whenever the event is set and
    some thread is asleep on it, a [signal()] is on its way to
    [atomic_notify_all], which wakes them all.  So after every [signal()] has
    returned, no waiter of a set event is left behind. *)
Theorem manual_event_no_lost_wakeup hb s n c :
  reachable (tstep hb) (init s n) c ->
  fval (shared c) <> 0 -> fqueue (shared c) <> [] ->
  exists j, threads c !! j = Some SignalNotify /\ fqueue (atomic_notify_all (shared c)) = [].
Proof.
  intros HI%manual_inv_reachable Hset Hne. destruct (inv_val _ _ HI) as [?|H1]; [done|].
  destruct (inv_wake _ _ HI H1 Hne) as [j Hj]. exists j. split; [done|apply notify_all_queue].
Qed.

(** [wait()], [try_wait()] and [try_wait_until()] report the truth: the
    step in which a waiter returns leaves the word alone, and it returns [true]
    exactly when the event is set in that step - a time-out that races with
    [signal()] included. *)
Theorem manual_event_wait_result hb tid ch w l w' r :
  tstep hb tid ch w l = Some (w', Ret r) -> waiting l = true ->
  w' = w /\ r = negb (fval w =? 0).
Proof.
  intros H Hl. destruct l as [|r0| | | | |b|u|u|u wp|], ch as [m|sp|k|ex]; try done; simpl in H.
  - by simplify_eq.
  - unfold spin, spin_functor in H. destruct (fval w =? 0) eqn:E; simpl in H; [|rewrite ?E; by simplify_eq].
    unfold backoff_turn in H. destruct (backoff b <? spin_limit); by simplify_eq.
  - unfold first in H. destruct (fval w =? 0) eqn:E; simplify_eq/=; by rewrite ?E.
  - unfold loop in H. destruct (fval w =? 0) eqn:E; simplify_eq/=; by rewrite ?E.
  - apply manual_park_cases in H as [_ [[? ?]|[[? _]|?]]]; done.
  - by simplify_eq.
Qed.

Ltac manual_go :=
  first [apply reaches_now; reflexivity
        |eapply reaches_step with (ch := Act false);
           [simpl; unfold first, loop, spin, spin_functor, try_wait;
            repeat (rewrite Z.eqb_refl || match goal with H : (_ =? _) = _ |- _ => rewrite H end); reflexivity
           |by left|manual_go]].

Lemma manual_park_returns hb tid w u wp :
  fval w = 1 -> tid ∉ fqueue w ->
  reaches_alone (tstep hb) benign (fun l => l = Ret true) tid 4 w (Park u wp).
Proof.
  intros Hv Hq.
  assert (E0 : (fval w =? 0) = false) by (by rewrite Hv).
  assert (Hloop : reaches_alone (tstep hb) benign (fun l => l = Ret true) tid 1 w (Loop u)) by manual_go.
  assert (Hret : forall wp', wp' <> WCall -> wp' <> WAsleep ->
     tstep hb tid (Kernel Go) w (Park u wp') = Some (w, Loop u)).
  { intros wp' ? ?. destruct wp'; try done; simpl; unfold park, wait_step, spin_step; rewrite E0; simpl;
      by rewrite ?andb_false_r. }
  assert (Hchk : reaches_alone (tstep hb) benign (fun l => l = Ret true) tid 2 w (Park u WCheck)).
  { eapply reaches_step; [by apply Hret|right; by left|done]. }
  destruct wp.
  1,2,5,6: eapply reaches_step; [by apply Hret|right; by left|]; eapply reaches_more; [|done]; lia.
  - eapply reaches_step with (ch := Kernel Go); [|right; by left|eapply reaches_more; [|done]; lia].
    simpl. unfold park, wait_step, futex_wait. by rewrite E0.
  - eapply reaches_step with (ch := Kernel Go); [|right; by left|eapply reaches_more; [|done]; lia].
    simpl. unfold park, wait_step. apply asleep_false in Hq. by rewrite Hq.
Qed.

(** A set event lets everybody through: in every reachable configuration
    where the event is set, each waiter that is not inside [FUTEX_WAIT] returns
    [true] within 4 steps of its own, from any program point of [wait()],
    [try_wait()] and [try_wait_until()], with or without backoff. *)
Theorem manual_event_set_releases hb s n c i l :
  reachable (tstep hb) (init s n) c -> fval (shared c) <> 0 ->
  threads c !! i = Some l -> waiting l = true -> i ∉ fqueue (shared c) ->
  reaches_alone (tstep hb) benign (fun l' => l' = Ret true) i 4 (shared c) l.
Proof.
  intros HI%manual_inv_reachable Hset Hl Hw Hq.
  destruct (inv_val _ _ HI) as [?|Hv]; [done|].
  assert (E0 : (fval (shared c) =? 0) = false) by (by rewrite Hv).
  destruct l; try done.
  - manual_go.
  - rewrite (inv_spin _ _ HI _ _ Hl). manual_go.
  - manual_go.
  - manual_go.
  - by apply manual_park_returns.
  - manual_go.
Qed.

(** [parking_manual_reset_event<with_backoff>::wait()] never parks: its
    functor asks for [retry_without_backoff], the backoff never grows, and the
    loop spins until the event is set, however long that takes.  In no reachable
    configuration is a thread of [wait()] past the spin loop. *)
Theorem manual_event_backoff_never_parks s n c i l :
  reachable (tstep true) (init s n) c -> threads c !! i = Some l ->
  l <> First false /\ l <> Loop false /\ (forall wp, l <> Park false wp).
Proof. intros HI%manual_inv_reachable Hl. by apply (inv_never_park _ _ HI eq_refl i). Qed.

(** ** Witnesses *)

(** Thread 0 sleeps, thread 1 is between [exchange] and [atomic_notify_all]. *)
Definition wake_sched : list (nat * choice method) :=
  [(0, Call MWait); (0, Act false); (0, Act false)]%nat ++ replicate 15 (0%nat, Kernel Go) ++
  [(1, Call MSignal); (1, Act false)]%nat.

Definition wake_config : econfig := Config (FWord 1 [0%nat]) [Park false WAsleep; SignalNotify; Idle].

Lemma wake_reachable : reachable (tstep false) (init false 3) wake_config.
Proof. apply (exec_reachable _ wake_sched). vm_compute. reflexivity. Qed.

Lemma manual_event_no_lost_wakeup_witness :
  exists j, threads wake_config !! j = Some SignalNotify /\ fqueue (atomic_notify_all (shared wake_config)) = [].
Proof. apply (manual_event_no_lost_wakeup false false 3); [apply wake_reachable|done|done]. Defined.

Lemma manual_event_wait_result_witness :
  FWord 1 [] = FWord 1 [] /\ true = negb (fval (FWord 1 []) =? 0).
Proof. apply (manual_event_wait_result false 0 (Act false) (FWord 1 []) Last); reflexivity. Defined.

(** Thread 0 is awake again and finds the event set. *)
Definition woken_config : econfig := Config (FWord 1 []) [Park false WAsleep; Ret true; Idle].

Lemma manual_event_set_releases_witness :
  reaches_alone (tstep false) benign (fun l' => l' = Ret true) 0 4 (shared woken_config) (Park false WAsleep).
Proof.
  apply (manual_event_set_releases false false 3 woken_config); try done.
  - apply (exec_reachable _ (wake_sched ++ [(1%nat, Act false)])). vm_compute. reflexivity.
  - by intros ?%not_elem_of_nil.
Defined.

Definition spinning_config : econfig := Config (FWord 0 []) [Spin backoff_init].

Lemma manual_event_backoff_never_parks_witness :
  Spin backoff_init <> First false /\ Spin backoff_init <> Loop false /\
  (forall wp, Spin backoff_init <> Park false wp).
Proof.
  apply (manual_event_backoff_never_parks false 1 spinning_config 0); [|done].
  apply (exec_reachable _ ((0%nat, Call MWait) :: replicate 100 (0%nat, Act false))). vm_compute. reflexivity.
Defined.
