(* ===== verification/AutoResetEvent.v ===== *)
(** * The parking auto-reset event

    [parking_auto_reset_event<Policies...>]
    (include/nova/sync/event/parking_auto_reset_event.hpp): [state_] is 1 with a
    stored token, 0 without, and below 0 it counts the waiters that claimed a
    slot and were not signalled yet. *)
From S2P Require Import Prelude Machine Futex Backoff.
#[local] Open Scope Z_scope.

(** [state_], and two ghosts: the tokens delivered (the initial one, and the
    [signal()]s that were not coalesced), and the waits that returned [true]. *)
Record event := Event { state_ : fword; given : Z; taken : Z }.

(** Who called [try_wait()]. *)
Inductive try_caller :=
| Client                               (** the client *)
| SpinLoop (b : exponential_backoff)   (** the functor of [wait()] with backoff *)
| Until.                               (** [try_wait_until()] *)

Inductive pc :=
| Idle
| Ret (r : bool)
| SignalLoad                                        (** [signal()]: load [s] *)
| SignalLoop (s : Z)                                (** [signal()]: [while ( true )] *)
| SignalNotify                                      (** [signal()]: [atomic_notify_all] *)
| TryLoad (k : try_caller)                          (** [try_wait()]: load [s] *)
| TryLoop (k : try_caller) (s : Z)                  (** [try_wait()]: [while ( s > 0 )] *)
| Claim (until : bool)                              (** [state_.fetch_sub( 1 )] *)
| Loop (until : bool) (my_slot : Z)                 (** load [cur] and test [cur <= my_slot] *)
| Park (until : bool) (my_slot cur : Z) (w : wait_pc) (** in [atomic_wait] / [atomic_wait_until] *)
| Last (my_slot : Z)                                (** the load of [cur] after a time-out *)
| Undo.                                             (** [state_.fetch_add( 1 )] *)

#[export] Instance pc_eq_dec : EqDecision pc.
Proof. intros x y. unfold Decision. repeat (decide equality). Defined.

Inductive method := MSignal | MTryWait | MWait | MTryWaitUntil.

Definition with_state (w : fword) (e : event) : event := Event w (given e) (taken e).
Definition take (e : event) : event := Event (state_ e) (given e) (taken e + 1).
Definition give (e : event) : event := Event (state_ e) (given e + 1) (taken e).
Definition add_state (n : Z) (e : event) : event :=
  with_state (set_val (i32 (fval (state_ e) + n)) (state_ e)) e.

(** One turn of the loop of [signal()]. *)
Definition signal_loop (sp : bool) (e : event) (s : Z) : event * pc :=
  if 1 <=? s then (e, Ret true)
  else
    let '(w', ok, s') := cas sp s (i32 (s + 1)) (state_ e) in
    if ok then (give (with_state w' e), if s <? 0 then SignalNotify else Ret true)
    else (with_state w' e, SignalLoop s').

(** What the caller of [try_wait()] does with its result. *)
Definition try_return (k : try_caller) (r : bool) : pc :=
  match k with
  | Client => Ret r
  | Until => if r then Ret true else Claim true
  | SpinLoop b =>
      match backoff_turn (if r then success else retry) b with
      | inl true => Ret true
      | inl false => Claim false
      | inr b' => TryLoad (SpinLoop b')
      end
  end.

(** One turn of the loop of [try_wait()]. *)
Definition try_loop (sp : bool) (k : try_caller) (e : event) (s : Z) : event * pc :=
  if 0 <? s then
    let '(w', ok, s') := cas sp s (i32 (s - 1)) (state_ e) in
    if ok then (take (with_state w' e), try_return k true) else (with_state w' e, TryLoop k s')
  else (e, try_return k false).

(** [prev = state_.fetch_sub( 1 ); if ( prev > 0 ) return; my_slot = prev - 1] *)
Definition claim (until : bool) (e : event) : event * pc :=
  let prev := fval (state_ e) in
  let e' := add_state (-1) e in
  if 0 <? prev then (take e', Ret true) else (e', Loop until (i32 (prev - 1))).

(** [cur = state_.load(); while ( cur <= my_slot ) ...] *)
Definition loop (until : bool) (my_slot : Z) (e : event) : event * pc :=
  let cur := fval (state_ e) in
  if cur <=? my_slot then (e, Park until my_slot cur (if until then atomic_wait_until else atomic_wait))
  else (take e, Ret true).

Definition park (tid : nat) (k : wchoice) (until : bool) (my_slot cur : Z) (e : event) (wp : wait_pc)
  : option (event * pc) :=
  match wait_step until tid k cur (state_ e) wp with
  | None => None
  | Some (w', inl wp') => Some (with_state w' e, Park until my_slot cur wp')
  | Some (w', inr woken) =>
      Some (with_state w' e, if until && negb woken then Last my_slot else Loop until my_slot)
  end.

(** [try_wait_until()] after a time-out. *)
Definition last (my_slot : Z) (e : event) : event * pc :=
  if my_slot <? fval (state_ e) then (take e, Ret true) else (e, Undo).

Definition enter (has_backoff : bool) (m : method) : pc :=
  match m with
  | MSignal => SignalLoad
  | MTryWait => TryLoad Client
  | MWait => if has_backoff then TryLoad (SpinLoop backoff_init) else Claim false
  | MTryWaitUntil => TryLoad Until
  end.

Definition tstep (has_backoff : bool) (tid : nat) (ch : choice method) (e : event) (l : pc)
  : option (event * pc) :=
  match l, ch with
  | (Idle | Ret _), Call m => Some (e, enter has_backoff m)
  | SignalLoad, Act _ => Some (e, SignalLoop (fval (state_ e)))
  | SignalLoop s, Act sp => Some (signal_loop sp e s)
  | SignalNotify, Act _ => Some (with_state (atomic_notify_all (state_ e)) e, Ret true)
  | TryLoad k, Act _ => Some (e, TryLoop k (fval (state_ e)))
  | TryLoop k s, Act sp => Some (try_loop sp k e s)
  | Claim u, Act _ => Some (claim u e)
  | Loop u m, Act _ => Some (loop u m e)
  | Park u m cur wp, Kernel k => park tid k u m cur e wp
  | Last m, Act _ => Some (last m e)
  | Undo, Act _ => Some (add_state 1 e, Ret false)
  | _, _ => None
  end.

Abbreviation aconfig := (config event pc).

Definition init (initially_set : bool) (n : nat) : aconfig :=
  let v := if initially_set then 1 else 0 in
  Config (Event (FWord v []) v 0) (replicate n Idle).

(** ** The specification of a step

    The event as its users see it: a state, the two ghosts, and for each waiter
    the slot it claimed. *)
Definition slot_of (l : pc) : option Z :=
  match l with
  | Loop _ m | Park _ m _ _ | Last m => Some m
  | _ => None
  end.

(** The waiters that hold a slot not below [k]. *)
Definition above (k : Z) (l : pc) : bool := match slot_of l with Some m => k <=? m | None => false end.
Definition pending (l : pc) : bool := match slot_of l with Some _ => true | None => false end.

(** Program points of a client that does not use [try_wait_until()]. *)
Definition untimed_pc (l : pc) : bool :=
  match l with
  | TryLoad Until | TryLoop Until _ | Claim true | Loop true _ | Park true _ _ _ | Last _ | Undo => false
  | _ => true
  end.

Inductive effect (e : event) (l : pc) (e' : event) (l' : pc) : Prop :=
| effect_none :
    fval (state_ e') = fval (state_ e) -> given e' = given e -> taken e' = taken e ->
    slot_of l' = slot_of l -> effect e l e' l'
| effect_signal :
    fval (state_ e) < 1 -> fval (state_ e') = fval (state_ e) + 1 ->
    given e' = given e + 1 -> taken e' = taken e -> slot_of l = None -> slot_of l' = None ->
    (fval (state_ e) < 0 -> l' = SignalNotify) -> effect e l e' l'
| effect_take :
    0 < fval (state_ e) -> fval (state_ e') = fval (state_ e) - 1 ->
    given e' = given e -> taken e' = taken e + 1 -> slot_of l = None -> slot_of l' = None ->
    effect e l e' l'
| effect_claim :
    fval (state_ e) <= 0 -> fval (state_ e') = fval (state_ e) - 1 ->
    given e' = given e -> taken e' = taken e ->
    slot_of l = None -> slot_of l' = Some (fval (state_ e) - 1) -> effect e l e' l'
| effect_return m :
    slot_of l = Some m -> m < fval (state_ e) -> fval (state_ e') = fval (state_ e) ->
    given e' = given e -> taken e' = taken e + 1 -> slot_of l' = None -> effect e l e' l'.

Lemma try_return_slot k r : slot_of (try_return k r) = None.
Proof. unfold try_return, backoff_turn. repeat case_match; done. Qed.

Lemma auto_park_effect tid k u m cur e wp e' l' :
  park tid k u m cur e wp = Some (e', l') -> effect e (Park u m cur wp) e' l'.
Proof.
  unfold park. intros H.
  destruct (wait_step u tid k cur (state_ e) wp) as [[w1 [wp'|b]]|] eqn:E; [| |done];
    apply wait_step_val in E; simplify_eq; apply effect_none; try done.
  by destruct (u && negb b).
Qed.

(** Every step of a client without [try_wait_until()] is one of the steps of
    the specification. *)
Lemma auto_step_effect hb tid ch e l e' l' :
  tstep hb tid ch e l = Some (e', l') -> untimed_pc l = true ->
  - 2 ^ 31 < fval (state_ e) <= 1 -> effect e l e' l'.
Proof.
  intros H Hu Hv.
  destruct l as [|r| |s| |k|k s|u|u m|u m cur wp|m|], ch as [me|sp|kc|ex]; try done; simpl in H.
  - simplify_eq. apply effect_none; try done. by destruct me, hb.
  - simplify_eq. apply effect_none; try done. by destruct me, hb.
  - simplify_eq. by apply effect_none.
  - unfold signal_loop in H. destruct (Z.leb_spec 1 s); simplify_eq; [by apply effect_none|].
    destruct (cas sp s (i32 (s + 1)) (state_ e)) as [[w' ok] s'] eqn:E.
    apply cas_cases in E as [(-> & Hs & ->)|(-> & -> & _)]; simplify_eq; [|by apply effect_none].
    apply effect_signal; simpl; try done; try lia; [rewrite i32_small; lia|by case_match|].
    intros Hn. by apply Z.ltb_lt in Hn as ->.
  - simplify_eq. by apply effect_none.
  - simplify_eq. by apply effect_none.
  - unfold try_loop in H. destruct (Z.ltb_spec 0 s).
    + destruct (cas sp s (i32 (s - 1)) (state_ e)) as [[w' ok] s'] eqn:E.
      apply cas_cases in E as [(-> & Hs & ->)|(-> & -> & _)]; simplify_eq; [|by apply effect_none].
      apply effect_take; simpl; try done; try lia; [rewrite i32_small; lia|apply try_return_slot].
    + simplify_eq. apply effect_none; try done. apply try_return_slot.
  - unfold claim in H. destruct (Z.ltb_spec 0 (fval (state_ e))); simplify_eq.
    + apply effect_take; simpl; try done. rewrite i32_small; lia.
    + apply effect_claim; simpl; try done; rewrite i32_small; (done || lia).
  - unfold loop in H. destruct (Z.leb_spec (fval (state_ e)) m); simplify_eq; [by apply effect_none|].
    by eapply effect_return.
  - by eapply auto_park_effect.
Qed.

(** What a step does to the queue: the sleepers of a step are those of before,
    or the thread itself, which went to sleep with a slot that is not signalled. *)
Lemma auto_step_queue hb tid ch e l e' l' :
  tstep hb tid ch e l = Some (e', l') ->
  (tid ∈ fqueue (state_ e) -> exists u m cur, l = Park u m cur WAsleep /\ cur <= m) ->
  (forall u m cur wp, l = Park u m cur wp -> cur <= m) ->
  (forall t, t <> tid -> t ∈ fqueue (state_ e') -> t ∈ fqueue (state_ e)) /\
  (tid ∈ fqueue (state_ e') ->
     exists u m cur, l' = Park u m cur WAsleep /\ fval (state_ e') <= m) /\
  (l = SignalNotify -> fqueue (state_ e') = []) /\
  (forall u m cur wp, l' = Park u m cur wp -> cur <= m).
Proof.
  intros H Hq Hcur.
  match goal with |- ?G =>
    assert (fqueue (state_ e') = fqueue (state_ e) -> l <> SignalNotify ->
            (forall u m cur wp, l <> Park u m cur wp) ->
            (forall u m cur wp, l' = Park u m cur wp -> cur <= m) -> G) as Hsame end.
  { intros Hs Hn Hp Hl'. split_and!; [by intros t _; rewrite Hs| |done|exact Hl'].
    rewrite Hs. intros (u & m & cur & -> & _)%Hq. by destruct (Hp u m cur WAsleep). }
  destruct l as [|r| |s| |k|k s|u|u m|u m cur wp|m|], ch as [me|sp|kc|ex]; try done; simpl in H.
  - apply Hsame; simplify_eq; try done. intros ? ? ? ?. by destruct me, hb.
  - apply Hsame; simplify_eq; try done. intros ? ? ? ?. by destruct me, hb.
  - apply Hsame; simplify_eq; try done.
  - unfold signal_loop, cas in H. apply Hsame; repeat case_match; simplify_eq; try done.
  - assert (fqueue (state_ e') = []) as -> by (simplify_eq; apply notify_all_queue).
    simplify_eq. split_and!; [by intros t _ ?%not_elem_of_nil|by intros ?%not_elem_of_nil|done|done].
  - apply Hsame; simplify_eq; done.
  - unfold try_loop, cas, try_return in H. apply Hsame; repeat case_match; simplify_eq; try done.
  - unfold claim in H. apply Hsame; repeat case_match; simplify_eq; try done.
  - unfold loop in H. apply Hsame; repeat case_match; simplify_eq; try done.
    all: intros ? ? ? ? [= <- <- <- _]; bools; lia.
  - specialize (Hcur _ _ _ _ eq_refl). unfold park in H.
    destruct (wait_step u tid kc cur (state_ e) wp) as [[w1 r]|] eqn:E; [|done].
    assert (state_ e' = w1) as He by (destruct r; by simplify_eq). rewrite He.
    pose proof (wait_step_val _ _ _ _ _ _ _ _ E) as Hv.
    split_and!; [intros t Ht; by apply (wait_step_queue _ _ _ _ _ _ _ _ t E Ht)| |done|].
    + intros Hin. apply (wait_step_asleep _ _ _ _ _ _ _ _ E) in Hin as [-> Hf];
        [|intros (?&?&?&?&?)%Hq; by simplify_eq].
      simplify_eq. exists u, m, (fval (state_ e)). split; [done|lia].
    + intros u' m' cur' wp' ->. destruct r; simplify_eq; [done|]. by destruct (u && negb b).
  - unfold last in H. apply Hsame; repeat case_match; simplify_eq; try done.
  - apply Hsame; simplify_eq; done.
Qed.

(** ** The invariant *)

Definition untimed (c : aconfig) : Prop := forall i l, threads c !! i = Some l -> untimed_pc l = true.

Record Inv (n : nat) (c : aconfig) : Prop := {
  inv_threads : length (threads c) = n;
  inv_balance :
    fval (state_ (shared c)) = given (shared c) - taken (shared c) - count pending (threads c);
  inv_le : fval (state_ (shared c)) <= 1;
  inv_slots : forall k, fval (state_ (shared c)) <= k <= 0 -> - k <= count (above k) (threads c);
  inv_queue : forall i, i ∈ fqueue (state_ (shared c)) ->
    exists u m cur, threads c !! i = Some (Park u m cur WAsleep);
  inv_cur : forall i u m cur wp, threads c !! i = Some (Park u m cur wp) -> cur <= m;
  inv_neg : forall i l m, threads c !! i = Some l -> slot_of l = Some m -> m < 0;
  inv_wake : forall i u m cur wp, i ∈ fqueue (state_ (shared c)) ->
    threads c !! i = Some (Park u m cur wp) -> m < fval (state_ (shared c)) ->
    exists j, threads c !! j = Some SignalNotify
}.

Lemma above_pending k l : above k l = true -> pending l = true.
Proof. unfold above, pending. by destruct (slot_of l). Qed.

Lemma inv_lower n c : Inv n c -> - Z.of_nat n <= fval (state_ (shared c)).
Proof.
  intros HI. destruct (Z.le_gt_cases (fval (state_ (shared c))) 0) as [H|]; [|lia].
  pose proof (inv_slots _ _ HI (fval (state_ (shared c)))).
  pose proof (count_bounds (above (fval (state_ (shared c)))) (threads c)) as Hb.
  rewrite (inv_threads _ _ HI) in Hb. lia.
Qed.

Lemma effect_slots e l e' l' k :
  effect e l e' l' -> fval (state_ e') <= k < 0 ->
  (fval (state_ e) <= k /\ (above k l = true -> above k l' = true)) \/
  (fval (state_ e) = k + 1 /\ slot_of l = None /\ above k l' = true).
Proof.
  intros Hef Hk. unfold above. destruct Hef as [? ? ? Hs|? ? ? ? Hs|? ? ? ? Hs|? ? ? ? Hs Hs'|m Hs].
  - left. rewrite Hs. split; [lia|done].
  - left. rewrite Hs. split; [lia|done].
  - left. rewrite Hs. split; [lia|done].
  - rewrite Hs, Hs'. destruct (Z.le_gt_cases (fval (state_ e)) k); [by left|right].
    split_and!; [lia|done|]. apply Z.leb_le. lia.
  - left. rewrite Hs. split; [lia|]. intros ?%Z.leb_le. lia.
Qed.

Lemma auto_inv_slots (ts : list pc) i l e e' l' k :
  ts !! i = Some l -> effect e l e' l' ->
  (forall k, fval (state_ e) <= k <= 0 -> - k <= count (above k) ts) ->
  fval (state_ e) <= 1 -> fval (state_ e') <= k <= 0 -> - k <= count (above k) (<[i:=l']> ts).
Proof.
  intros Hl Hef Hs Hle Hk.
  destruct (Z.eq_dec k 0) as [->|Hk0]; [pose proof (count_bounds (above 0) (<[i:=l']> ts)); lia|].
  rewrite (count_insert _ _ _ _ _ Hl).
  destruct (effect_slots _ _ _ _ k Hef ltac:(lia)) as [[Hf Ha]|(Hf & Hn & Ha)].
  - specialize (Hs k ltac:(lia)). destruct (above k l); [rewrite Ha by done; simpl; lia|]. destruct (above k l'); simpl; lia.
  - assert (above k l = false) as -> by (unfold above; by rewrite Hn). rewrite Ha. simpl.
    specialize (Hs (k + 1) ltac:(lia)).
    assert (count (above (k + 1)) ts <= count (above k) ts); [|lia].
    apply count_le. intros x. unfold above. destruct (slot_of x); [|done]. rewrite !Z.leb_le. lia.
Qed.

Lemma effect_balance e l e' l' :
  effect e l e' l' ->
  fval (state_ e') - given e' + taken e' + Z.b2z (pending l') =
  fval (state_ e) - given e + taken e + Z.b2z (pending l) /\
  (fval (state_ e) <= 1 -> fval (state_ e') <= 1).
Proof.
  unfold pending. intros [? ? ? Hs|? ? ? ? Hs Hs'|? ? ? ? Hs Hs'|? ? ? ? Hs Hs'|m Hs ? ? ? ? Hs'];
    rewrite ?Hs, ?Hs'; simpl; lia.
Qed.

(** A step that lets a sleeper's slot pass is a [signal()] that will notify. *)
Lemma effect_passes e l e' l' m :
  effect e l e' l' -> fval (state_ e) <= m -> m < 0 -> m < fval (state_ e') -> l' = SignalNotify.
Proof. intros [] ? ? ?; try lia. match goal with H : _ -> l' = _ |- _ => apply H; lia end. Qed.

Lemma effect_neg e l e' l' m :
  effect e l e' l' -> (forall m, slot_of l = Some m -> m < 0) -> slot_of l' = Some m -> m < 0.
Proof.
  intros [? ? ? Hs|? ? ? ? ? Hs|? ? ? ? ? Hs|? ? ? ? ? Hs|? ? ? ? ? ? Hs] Hl; rewrite Hs; try done.
  - apply Hl.
  - intros [= <-]. lia.
Qed.

(** Whoever sleeps below the new state has a [signal()] about to notify. *)
Lemma auto_inv_wake n hb c i ch l e' l' :
  Inv n c -> threads c !! i = Some l -> tstep hb i ch (shared c) l = Some (e', l') ->
  effect (shared c) l e' l' ->
  (forall t, t <> i -> t ∈ fqueue (state_ e') -> t ∈ fqueue (state_ (shared c))) ->
  (i ∈ fqueue (state_ e') -> exists u m cur, l' = Park u m cur WAsleep /\ fval (state_ e') <= m) ->
  (l = SignalNotify -> fqueue (state_ e') = []) ->
  forall t u m cur wp, t ∈ fqueue (state_ e') -> <[i:=l']> (threads c) !! t = Some (Park u m cur wp) ->
  m < fval (state_ e') -> exists j, <[i:=l']> (threads c) !! j = Some SignalNotify.
Proof.
  intros HI Hl Hstep Hef Hold Hself Hnot t u m cur wp Ht Htl Hm.
  assert (Hi' : <[i:=l']> (threads c) !! i = Some l')
    by (apply list_lookup_insert_eq; by apply lookup_lt_Some in Hl).
  destruct (decide (t = i)) as [->|Hti].
  - rewrite Hi' in Htl. destruct (Hself Ht) as (u' & m' & cur' & -> & ?). simplify_eq. lia.
  - rewrite list_lookup_insert_ne in Htl by done.
    assert (m < 0) by (by eapply (inv_neg _ _ HI _ _ _ Htl)).
    destruct (Z.lt_ge_cases m (fval (state_ (shared c)))) as [Hlt|Hge].
    + destruct (inv_wake _ _ HI _ _ _ _ _ (Hold _ Hti Ht) Htl Hlt) as [j Hj].
      destruct (decide (j = i)) as [->|Hji].
      * rewrite Hl in Hj. simplify_eq. rewrite Hnot in Ht by done. by apply not_elem_of_nil in Ht.
      * exists j. by rewrite list_lookup_insert_ne.
    + exists i. rewrite Hi'. f_equal. by eapply effect_passes.
Qed.

Lemma auto_inv_step hb n c i ch l e' l' :
  Z.of_nat n < 2 ^ 31 -> untimed c ->
  Inv n c -> threads c !! i = Some l -> tstep hb i ch (shared c) l = Some (e', l') ->
  Inv n (Config e' (<[i := l']> (threads c))).
Proof.
  intros Hn Hu HI Hl Hstep. pose proof (inv_lower _ _ HI) as Hlow.
  assert (Hef : effect (shared c) l e' l').
  { eapply auto_step_effect; [done|by eapply Hu|]. pose proof (inv_le _ _ HI). lia. }
  destruct (auto_step_queue _ _ _ _ _ _ _ Hstep) as (Hold & Hself & Hnot & Hcur).
  { intros Hin. destruct (inv_queue _ _ HI _ Hin) as (u & m & cur & Hp). rewrite Hl in Hp. simplify_eq.
    exists u, m, cur. split; [done|]. by eapply (inv_cur _ _ HI). }
  { intros u m cur wp ->. by eapply (inv_cur _ _ HI). }
  destruct (effect_balance _ _ _ _ Hef) as [Hb Hle].
  assert (Hi' : <[i:=l']> (threads c) !! i = Some l')
    by (apply list_lookup_insert_eq; by apply lookup_lt_Some in Hl).
  constructor; cbn [shared threads].
  - rewrite length_insert. apply (inv_threads _ _ HI).
  - rewrite (count_insert _ _ _ _ _ Hl). pose proof (inv_balance _ _ HI). lia.
  - apply Hle, (inv_le _ _ HI).
  - intros k Hk. eapply auto_inv_slots; [done..|apply (inv_slots _ _ HI)|apply (inv_le _ _ HI)|done].
  - intros t Ht. destruct (decide (t = i)) as [->|Hti].
    + rewrite Hi'. destruct (Hself Ht) as (u & m & cur & -> & _). eauto.
    + rewrite list_lookup_insert_ne by done. by apply (inv_queue _ _ HI), Hold.
  - intros t u m cur wp. destruct (decide (t = i)) as [->|Hti].
    + rewrite Hi'. intros [= ->]. by eapply Hcur.
    + rewrite list_lookup_insert_ne by done. apply (inv_cur _ _ HI).
  - intros t lt m. destruct (decide (t = i)) as [->|Hti].
    + rewrite Hi'. intros [= <-]. eapply effect_neg; [done|]. intros m'. by apply (inv_neg _ _ HI i).
    + rewrite list_lookup_insert_ne by done. apply (inv_neg _ _ HI).
  - by eapply auto_inv_wake.
Qed.

Abbreviation reached hb s n := (reachable_while (tstep hb) untimed (init s n)).

Lemma auto_inv_reachable hb s n c :
  Z.of_nat n < 2 ^ 31 -> reached hb s n c -> Inv n c.
Proof.
  intros Hn. apply invariant_reachable_while.
  - assert (forall j lj, threads (init s n) !! j = Some lj -> lj = Idle) as Hall.
    { intros j lj Hj. by apply lookup_replicate in Hj as [-> _]. }
    assert (count pending (threads (init s n)) = 0) as H0.
    { apply count_all_false. intros l (j & Hj)%list_elem_of_lookup. by rewrite (Hall j l Hj). }
    constructor; rewrite ?H0; cbn [shared threads init]; try (destruct s; simpl; lia).
    + by rewrite length_replicate.
    + intros k Hk. pose proof (count_bounds (above k) (replicate n Idle)). destruct s; simpl in *; lia.
    + by intros i ?%not_elem_of_nil.
    + intros i u m cur wp Hi. by apply Hall in Hi.
    + intros i l m Hi. by rewrite (Hall _ _ Hi).
    + by intros i u m cur wp ?%not_elem_of_nil.
  - intros. by eapply auto_inv_step.
Qed.

(** ** Properties *)

(** The waiters above the state are among those that hold a slot. *)
Lemma auto_inv_tokens n c : Inv n c -> taken (shared c) <= given (shared c).
Proof.
  intros HI. pose proof (inv_balance _ _ HI). pose proof (inv_le _ _ HI).
  destruct (Z.le_gt_cases (fval (state_ (shared c))) 0) as [Hle0|].
  - pose proof (inv_slots _ _ HI (fval (state_ (shared c)))).
    pose proof (count_le _ _ (threads c) (above_pending (fval (state_ (shared c))))). lia.
  - pose proof (count_bounds pending (threads c)). lia.
Qed.

(** C39: one wait per token: as long as nobody calls [try_wait_until()], through every
    race of signals, waits, failed attempts and backoff loops of fewer than [2^31]
    threads, the waits that returned [true] never exceed the tokens delivered, at
    most one token is stored, and the state is the tokens delivered less those taken
    and less the waiters that have claimed one and not returned.  (With a time-out
    it does not hold: [auto_event_phantom_token].) *)
Theorem auto_event_one_wait_per_token hb s n c :
  Z.of_nat n < 2 ^ 31 -> reached hb s n c ->
  taken (shared c) <= given (shared c) /\ fval (state_ (shared c)) <= 1 /\
  fval (state_ (shared c)) = given (shared c) - taken (shared c) - count pending (threads c).
Proof.
  intros Hn HI%auto_inv_reachable; [|done]. split_and!; [by eapply auto_inv_tokens|apply (inv_le _ _ HI)|].
  apply (inv_balance _ _ HI).
Qed.

(** No lost wakeup: a waiter that is asleep although its slot was passed
    (so that it would return if it looked) is about to be woken: some thread is
    in [signal()] just before its [atomic_notify_all]. *)
Theorem auto_event_no_lost_wakeup hb s n c i u m cur :
  Z.of_nat n < 2 ^ 31 -> reachable_while (tstep hb) untimed (init s n) c ->
  threads c !! i = Some (Park u m cur WAsleep) -> i ∈ fqueue (state_ (shared c)) ->
  m < fval (state_ (shared c)) -> exists j, threads c !! j = Some SignalNotify.
Proof. intros Hn HI%auto_inv_reachable Hi Hq Hm; [|done]. by eapply (inv_wake _ _ HI). Qed.

(** Thread 0 times out while thread 1 waits behind it. *)
Definition phantom_sched : list (nat * choice method) :=
  [(0, Call MTryWaitUntil); (0, Act false); (0, Act false); (0, Act false); (0, Act false);
   (1, Call MWait); (1, Act false); (1, Act false);
   (0, Kernel Go); (0, Act false); (0, Kernel Go); (0, Kernel Go); (0, Kernel TimedOut); (0, Kernel Go);
   (0, Act false); (0, Act false);
   (1, Kernel Go); (1, Act false)]%nat.

(** A time-out makes a token out of nothing: on a fresh, never signalled
    event, thread 0's [try_wait_until()] times out and returns [false], and its
    [fetch_add( 1 )] passes the slot of thread 1, whose [wait()] returns.  The
    state is left at -1 with nobody waiting, so the next [signal()] is lost. *)
Theorem auto_event_phantom_token :
  exists c, exec (tstep false) phantom_sched (init false 2) = Some c /\
    given (shared c) = 0 /\ taken (shared c) = 1 /\
    threads c = [Ret false; Ret true] /\ fval (state_ (shared c)) = -1.
Proof. eexists. split; [vm_compute; reflexivity|]. split_and!; reflexivity. Qed.

Definition sleep_of (i : nat) : list (nat * choice method) := (i, Act false) :: replicate 15 (i, Kernel Go).

(** Threads 0 and 1 wait, thread 3 signals, thread 2 waits before thread 1 looks. *)
Definition swallow_sched : list (nat * choice method) :=
  [(0, Call MWait); (0, Act false); (1, Call MWait); (1, Act false)]%nat ++
  [(3, Call MSignal); (3, Act false); (3, Act false); (3, Act false)]%nat ++
  [(2, Call MWait); (2, Act false)]%nat ++
  sleep_of 0 ++ sleep_of 1 ++ sleep_of 2.

Definition swallow_config : aconfig :=
  Config (Event (FWord (-2) [0; 1; 2]%nat) 1 0)
    [Park false (-1) (-2) WAsleep; Park false (-2) (-2) WAsleep; Park false (-2) (-2) WAsleep; Ret true].

(** A late waiter can swallow a signal: with two threads blocked in
    [wait()], a [signal()] that finds them is followed by a third [wait()], which
    is given the slot the signal has just passed; all three sleep, the token was
    delivered and nobody returned. *)
Theorem auto_event_swallows_signal :
  exec (tstep false) swallow_sched (init false 4) = Some swallow_config /\
  given (shared swallow_config) = 1 /\ taken (shared swallow_config) = 0.
Proof. split; [vm_compute; reflexivity|]. split; reflexivity. Qed.

(** ** Witnesses *)

Definition untimedb (c : aconfig) : bool := forallb untimed_pc (threads c).

Lemma untimedb_untimed c : untimedb c = true -> untimed c.
Proof.
  unfold untimedb. rewrite forallb_forall. intros H i l Hi. apply H.
  apply list_elem_of_In. apply list_elem_of_lookup. by exists i.
Qed.

Lemma auto_event_one_wait_per_token_witness :
  0 <= 1 /\ fval (state_ (shared swallow_config)) <= 1 /\
  fval (state_ (shared swallow_config)) = 1 - 0 - count pending (threads swallow_config).
Proof.
  apply (auto_event_one_wait_per_token false false 4 swallow_config); [done|].
  apply (exec_while_reachable _ _ untimedb swallow_sched); [apply untimedb_untimed|]. vm_compute. reflexivity.
Defined.

(** Thread 0 is asleep, thread 1 has signalled and not notified yet. *)
Definition signalled_sched : list (nat * choice method) :=
  [(0, Call MWait); (0, Act false)]%nat ++ sleep_of 0 ++
  [(1, Call MSignal); (1, Act false); (1, Act false)]%nat.

Definition signalled_config : aconfig :=
  Config (Event (FWord 0 [0%nat]) 1 0) [Park false (-1) (-1) WAsleep; SignalNotify].

Lemma auto_event_no_lost_wakeup_witness : exists j, threads signalled_config !! j = Some SignalNotify.
Proof.
  apply (auto_event_no_lost_wakeup false false 2 signalled_config 0 false (-1) (-1)); try done.
  - apply (exec_while_reachable _ _ untimedb signalled_sched); [apply untimedb_untimed|].
    vm_compute. reflexivity.
  - by left.
Defined.
