(* ===== verification/Spinlock.v ===== *)
(** * The spinlocks

    [impl::spinlock_plain], [impl::recursive_spinlock_plain],
    [impl::shared_spinlock_plain] and their [_backoff] variants
    (include/nova/sync/mutex/spinlock_mutex.hpp,
    source/nova/sync/mutex/spinlock_mutex.cpp).  A module per family; the
    variants differ in how the slow path idles, the argument [has_backoff]. *)
From S2P Require Import Prelude Machine Futex Backoff.
#[local] Open Scope Z_scope.

(** How a slow path idles between two loads: [detail::pause()], or
    [backoff.run()] on its own [exponential_backoff]. *)
Definition idler : Type := option exponential_backoff.

Definition new_idler (has_backoff : bool) : idler := if has_backoff then Some backoff_init else None.

Definition idle_once (b : idler) : idler := fst <$> (run <$> b).

(** ** [spinlock_plain], [spinlock_backoff] *)
Module Plain.

Inductive pc :=
| Idle
| Holding
| Lock                     (** [lock()]: [locked_.exchange( true )] *)
| SlowLoad (b : idler)     (** [lock_slow()]: [while ( locked_.load() )] *)
| SlowExchange (b : idler) (** [lock_slow()]: [locked_.exchange( true )] *)
| TryLoad                  (** [try_lock()]: [locked_.load()] *)
| TryExchange              (** [try_lock()]: [locked_.exchange( true )] *)
| Unlock.                  (** [unlock()]: [locked_.store( false )] *)

Definition lock (has_backoff locked_ : bool) : bool * pc :=
  (true, if negb locked_ then Holding else SlowLoad (new_idler has_backoff)).

Definition slow_load (locked_ : bool) (b : idler) : pc :=
  if locked_ then SlowLoad (idle_once b) else SlowExchange b.

Definition slow_exchange (locked_ : bool) (b : idler) : bool * pc :=
  (true, if negb locked_ then Holding else SlowLoad b).

Definition try_load (locked_ : bool) : pc := if locked_ then Idle else TryExchange.

Definition try_exchange (locked_ : bool) : bool * pc := (true, if negb locked_ then Holding else Idle).

Definition unlock (locked_ : bool) : bool * pc := (false, Idle).

Definition tstep (has_backoff : bool) (tid : nat) (ch : choice mutex_method) (locked_ : bool) (l : pc)
  : option (bool * pc) :=
  match l, ch with
  | Idle, Call MLock => Some (locked_, Lock)
  | Idle, Call MTryLock => Some (locked_, TryLoad)
  | Holding, Call MUnlock => Some (locked_, Unlock)
  | Lock, Act _ => Some (lock has_backoff locked_)
  | SlowLoad b, Act _ => Some (locked_, slow_load locked_ b)
  | SlowExchange b, Act _ => Some (slow_exchange locked_ b)
  | TryLoad, Act _ => Some (locked_, try_load locked_)
  | TryExchange, Act _ => Some (try_exchange locked_)
  | Unlock, Act _ => Some (unlock locked_)
  | _, _ => None
  end.

Definition spinlock_plain := tstep false.
Definition spinlock_backoff := tstep true.

Definition init (n : nat) : config bool pc := Config false (replicate n Idle).

(** Between the return of [lock()] and the store of [unlock()]. *)
Definition holds (l : pc) : bool := match l with Holding | Unlock => true | _ => false end.

(** Inside [lock()]. *)
Definition locking (l : pc) : bool :=
  match l with Lock | SlowLoad _ | SlowExchange _ => true | _ => false end.

(** The flag is set exactly when one thread holds the lock. *)
Definition Inv (c : config bool pc) : Prop := count holds (threads c) = Z.b2z (shared c).

Lemma spin_inv_reachable hb n c : reachable (tstep hb) (init n) c -> Inv c.
Proof.
  apply invariant_reachable; unfold Inv.
  - simpl. apply count_all_false. intros l (j & [-> _]%lookup_replicate)%list_elem_of_lookup. done.
  - intros i ch [s ts] l s' l' HI Hl Hs; cbn [shared threads] in *.
    rewrite (count_insert _ _ _ _ _ Hl), HI.
    pose proof (count_bounds holds ts).
    assert (holds l = true -> s = true).
    { intros Hh. pose proof (count_pos holds ts i l Hl Hh). destruct s; [done|simpl in *; lia]. }
    destruct l, ch as [[]|?|?|?]; try done; simpl in *;
      unfold lock, slow_load, slow_exchange, try_load, try_exchange, unlock in *;
      destruct s; simplify_eq/=; intuition (discriminate || lia).
Qed.

(** Mutual exclusion of [spinlock_mutex<>] and
    [spinlock_mutex<with_backoff>]: at most one thread is between the return of
    [lock()] or a successful [try_lock()] and the store of [unlock()], and then
    the flag is set. *)
Theorem spinlock_exclusion hb n c :
  reachable (tstep hb) (init n) c ->
  count holds (threads c) <= 1 /\ (forall i l, threads c !! i = Some l -> holds l = true -> shared c = true).
Proof.
  intros HI%spin_inv_reachable. unfold Inv in HI. split.
  - rewrite HI. destruct (shared c); simpl; lia.
  - intros i l Hl Hh. pose proof (count_pos _ _ _ _ Hl Hh). destruct (shared c); [done|simpl in *; lia].
Qed.

(** [lock()] succeeds once the lock is free: a thread at any point of
    [lock()] that runs while nobody else takes the lock holds it after at most
    two steps, however often it backed off before. *)
Theorem spinlock_progress hb tid l :
  locking l = true ->
  reaches_alone (tstep hb) benign (fun l' => l' = Holding) tid 2 false l.
Proof.
  intros Hl.
  assert (forall b, reaches_alone (tstep hb) benign (fun l' => l' = Holding) tid 1 false (SlowExchange b)) as Hx.
  { intros b. by eapply (reaches_step _ _ _ _ _ (Act false)); [|left|apply reaches_now]. }
  destruct l; try done; eapply (reaches_step _ _ _ _ _ (Act false)); try (by left); try done;
    try by apply reaches_now.
Qed.

Lemma spinlock_exclusion_witness :
  count holds [Holding; SlowLoad None] <= 1 /\
  (forall i l, [Holding; SlowLoad None] !! i = Some l -> holds l = true -> true = true).
Proof.
  apply (spinlock_exclusion false 2 (Config true [Holding; SlowLoad None])).
  apply (exec_reachable _ [(0, Call MLock); (0, Act false); (1, Call MLock); (1, Act false)]%nat).
  reflexivity.
Defined.

Lemma spinlock_progress_witness :
  reaches_alone (tstep true) benign (fun l' => l' = Holding) 0 2 false (SlowLoad (Some backoff_init)).
Proof. by apply (spinlock_progress true 0 (SlowLoad (Some backoff_init))). Defined.

End Plain.

(** ** [recursive_spinlock_plain], [recursive_spinlock_backoff] *)
Module Recursive.

(** [owner_] ([std::thread::id {}] is [None]) and [recursion_count_]. *)
Record mutex := Mutex { owner_ : option nat; recursion_count_ : Z }.

Inductive pc :=
| Out                      (** outside of every method *)
| Lock                     (** [lock()]: the first CAS *)
| TryLock                  (** [try_lock()]: the CAS *)
| SetOne                   (** CAS succeeded: [recursion_count_ = 1] *)
| Increment                (** [expected == tid]: [++recursion_count_] *)
| SlowLoad (b : idler)     (** [lock_slow()]: [while ( owner_.load() != empty_id )] *)
| SlowCas (b : idler)      (** [lock_slow()]: the weak CAS *)
| Decrement                (** [unlock()]: [--recursion_count_] *)
| StoreOwner.              (** [unlock()]: [owner_.store( {} )] *)

(** A thread: where it is, and a ghost: how many [lock()]s and successful
    [try_lock()]s it has not undone yet. *)
Record local := Local { at_ : pc; depth : Z }.

(** [owner_.compare_exchange_*( expected, tid )] with an empty [expected]. *)
Definition cas_owner (spurious : bool) (tid : nat) (s : mutex) : mutex * bool * option nat :=
  if negb spurious && bool_decide (owner_ s = None)
  then (Mutex (Some tid) (recursion_count_ s), true, None)
  else (s, false, owner_ s).

Definition lock (has_backoff : bool) (tid : nat) (s : mutex) : mutex * pc :=
  let '(s', ok, expected) := cas_owner false tid s in
  if ok then (s', SetOne)
  else if bool_decide (expected = Some tid) then (s', Increment)
  else (s', SlowLoad (new_idler has_backoff)).

Definition try_lock (tid : nat) (s : mutex) : mutex * pc :=
  let '(s', ok, expected) := cas_owner false tid s in
  if ok then (s', SetOne)
  else if bool_decide (expected = Some tid) then (s', Increment)
  else (s', Out).

Definition set_one (s : mutex) : mutex := Mutex (owner_ s) 1.
Definition increment (s : mutex) : mutex := Mutex (owner_ s) (u64 (recursion_count_ s + 1)).

Definition slow_load (s : mutex) (b : idler) : pc :=
  if bool_decide (owner_ s = None) then SlowCas b else SlowLoad (idle_once b).

Definition slow_cas (spurious : bool) (tid : nat) (s : mutex) (b : idler) : mutex * pc :=
  let '(s', ok, _) := cas_owner spurious tid s in (s', if ok then SetOne else SlowLoad b).

(** [unlock()]: [if ( --recursion_count_ == 0 )] *)
Definition decrement (s : mutex) : mutex * bool :=
  let n := u64 (recursion_count_ s - 1) in (Mutex (owner_ s) n, n =? 0).

Definition store_owner (s : mutex) : mutex := Mutex None (recursion_count_ s).

Definition tstep (has_backoff : bool) (tid : nat) (ch : choice mutex_method) (s : mutex) (l : local)
  : option (mutex * local) :=
  let d := depth l in
  let goto '(s', p) := Some (s', Local p d) in
  match at_ l, ch with
  | Out, Call MLock => goto (s, Lock)
  | Out, Call MTryLock => goto (s, TryLock)
  | Out, Call MUnlock => if 0 <? d then goto (s, Decrement) else None
  | Lock, Act _ => goto (lock has_backoff tid s)
  | TryLock, Act _ => goto (try_lock tid s)
  | SetOne, Act _ => Some (set_one s, Local Out (d + 1))
  | Increment, Act _ => Some (increment s, Local Out (d + 1))
  | SlowLoad b, Act _ => goto (s, slow_load s b)
  | SlowCas b, Act sp => goto (slow_cas sp tid s b)
  | Decrement, Act _ =>
      let '(s', last) := decrement s in
      Some (s', if last then Local StoreOwner d else Local Out (d - 1))
  | StoreOwner, Act _ => Some (store_owner s, Local Out (d - 1))
  | _, _ => None
  end.

Definition recursive_spinlock_plain := tstep false.
Definition recursive_spinlock_backoff := tstep true.

Definition init (n : nat) : config mutex local := Config (Mutex None 0) (replicate n (Local Out 0)).

(** The thread holds the lock. *)
Definition owns (l : local) : Prop := 0 < depth l \/ at_ l = SetOne.

(** What holds of thread [tid] in a reachable configuration. *)
Definition consistent (s : mutex) (tid : nat) (l : local) : Prop :=
  0 <= depth l /\ (owner_ s = Some tid <-> owns l) /\
  match at_ l with
  | Out | Lock | TryLock => owner_ s = Some tid -> recursion_count_ s = depth l
  | Increment | Decrement => 1 <= depth l /\ recursion_count_ s = depth l
  | StoreOwner => depth l = 1
  | SetOne | SlowLoad _ | SlowCas _ => depth l = 0
  end.

Definition Inv (c : config mutex local) : Prop :=
  (forall i l, threads c !! i = Some l -> consistent (shared c) i l) /\
  (forall i, owner_ (shared c) = Some i -> exists l, threads c !! i = Some l).

(** No thread locks 2^64 - 1 times without unlocking. *)
Definition bounded (c : config mutex local) : Prop :=
  forall i l, threads c !! i = Some l -> depth l < 2 ^ 64 - 1.

Abbreviation reached hb n := (reachable_while (tstep hb) bounded (init n)).

Lemma cas_owner_cases sp tid s s' ok e :
  cas_owner sp tid s = (s', ok, e) ->
  (ok = true /\ owner_ s = None /\ s' = Mutex (Some tid) (recursion_count_ s)) \/
  (ok = false /\ s' = s /\ e = owner_ s).
Proof. unfold cas_owner. intros H. case_match eqn:E; simplify_eq; [left|right]; bools; by case_bool_decide. Qed.

(** The owner does not change, or the thread takes or gives up ownership; the
    count changes only under ownership. *)
Definition frame (tid : nat) (s s' : mutex) : Prop :=
  (owner_ s' = owner_ s \/ (owner_ s = None /\ owner_ s' = Some tid) \/
     (owner_ s = Some tid /\ owner_ s' = None)) /\
  (recursion_count_ s' = recursion_count_ s \/ owner_ s = Some tid).

#[local] Ltac rec_done := simpl; intuition (congruence || lia).

Lemma recursive_step hb tid ch s l s' l' :
  tstep hb tid ch s l = Some (s', l') -> consistent s tid l -> depth l < 2 ^ 64 - 1 ->
  consistent s' tid l' /\ frame tid s s'.
Proof.
  intros H (Hd & Ho & Hat) Hb. destruct l as [p d]. unfold tstep, consistent, frame, owns in *.
  cbn [at_ depth] in *. assert (d = 0 \/ 0 < d) as Hd0 by lia.
  destruct p, ch as [[]|sp|k|ex]; try done; simpl in H, Hat.
  - simplify_eq. rec_done.
  - simplify_eq. rec_done.
  - destruct (Z.ltb_spec 0 d); simplify_eq. rec_done.
  - unfold lock in H. destruct (cas_owner false tid s) as [[m ok] e] eqn:E.
    apply cas_owner_cases in E as [(-> & Hn & ->)|(-> & -> & ->)].
    + simplify_eq. rec_done.
    + case_bool_decide; simplify_eq; rec_done.
  - unfold try_lock in H. destruct (cas_owner false tid s) as [[m ok] e] eqn:E.
    apply cas_owner_cases in E as [(-> & Hn & ->)|(-> & -> & ->)].
    + simplify_eq. rec_done.
    + case_bool_decide; simplify_eq; rec_done.
  - simplify_eq. rec_done.
  - simplify_eq. simpl. rewrite u64_small by lia. rec_done.
  - simplify_eq. unfold slow_load. case_bool_decide; rec_done.
  - unfold slow_cas in H. destruct (cas_owner sp tid s) as [[m ok] e] eqn:E.
    apply cas_owner_cases in E as [(-> & Hn & ->)|(-> & -> & ->)]; simplify_eq; rec_done.
  - unfold decrement in H. rewrite u64_small in H by lia.
    destruct (Z.eqb_spec (recursion_count_ s - 1) 0); simplify_eq; rec_done.
  - simplify_eq. rec_done.
Qed.

Lemma consistent_frame i j s s' l :
  consistent s j l -> frame i s s' -> i <> j -> consistent s' j l.
Proof.
  unfold consistent, frame. intros (Hd & Ho & Hat) [Hf Hc] Hij.
  assert (owner_ s' = Some j <-> owner_ s = Some j) as Ho' by intuition congruence.
  assert (owner_ s = Some j -> recursion_count_ s' = recursion_count_ s) as Hc' by intuition congruence.
  split_and!; [done|by rewrite Ho'|].
  assert (0 < depth l -> recursion_count_ s' = recursion_count_ s) as Hr
    by (intros H0; apply Hc', Ho; by left).
  unfold owns in *. destruct (at_ l); try done; try (intros Hj; rewrite Hc'; [apply Hat|]; by apply Ho').
  all: split; [lia|rewrite Hr; lia].
Qed.

Lemma rec_inv_reachable hb n c : reached hb n c -> Inv c.
Proof.
  apply invariant_reachable_while; unfold Inv.
  - split; simpl; [|done]. intros i l [-> _]%lookup_replicate. unfold consistent, owns; simpl.
    split_and!; [lia|split; [done|intros [?|?]; [lia|done]]|done].
  - intros i ch c0 l s' l' HP [HI Hex] Hl Hs. simpl.
    destruct (recursive_step _ _ _ _ _ _ _ Hs (HI _ _ Hl) (HP _ _ Hl)) as [Hc Hf].
    pose proof (lookup_lt_Some _ _ _ Hl) as Hlt. split.
    + intros j lj. destruct (decide (i = j)) as [<-|Hij].
      * rewrite list_lookup_insert_eq by done. by intros [= <-].
      * rewrite list_lookup_insert_ne by done. intros Hj. eapply consistent_frame; [|done..]. by apply HI.
    + intros j Hj. destruct (decide (i = j)) as [<-|Hij].
      * rewrite list_lookup_insert_eq by done. eauto.
      * rewrite list_lookup_insert_ne by done. apply Hex. destruct Hf as [[Hf|[[_ Hf]|[_ Hf]]] _]; congruence.
Qed.

(** Mutual exclusion of the recursive spinlock: two threads that hold it
    are the same thread, the owner recorded in [owner_]. *)
Theorem recursive_spinlock_exclusion hb n c i j li lj :
  reached hb n c -> threads c !! i = Some li -> threads c !! j = Some lj ->
  owns li -> owns lj -> i = j /\ owner_ (shared c) = Some i.
Proof.
  intros [HI _]%rec_inv_reachable Hi Hj Hoi Hoj.
  destruct (HI _ _ Hi) as (_ & Ho1 & _), (HI _ _ Hj) as (_ & Ho2 & _).
  apply Ho1 in Hoi. apply Ho2 in Hoj. split; [congruence|done].
Qed.

(** C32: the recursion count is exact, and the lock is freed by the last
    [unlock()] only: whatever the other threads did, the owner between two calls
    has [recursion_count_] equal to the number of its outstanding [lock()]s; its
    next [unlock()] decrements both, and clears [owner_] exactly when it was the
    last one; its next [lock()] or [try_lock()] increments both and does not
    block. *)
Theorem recursive_spinlock_depth hb n c i d :
  reached hb n c -> threads c !! i = Some (Local Out d) -> 0 < d < 2 ^ 64 - 1 ->
  recursion_count_ (shared c) = d /\
  alone (tstep hb) i (Call MUnlock :: Act false :: (if d =? 1 then [Act false] else [])) (shared c) (Local Out d) =
    Some (Mutex (if d =? 1 then None else Some i) (d - 1), Local Out (d - 1)) /\
  alone (tstep hb) i [Call MLock; Act false; Act false] (shared c) (Local Out d) =
    Some (Mutex (Some i) (d + 1), Local Out (d + 1)) /\
  alone (tstep hb) i [Call MTryLock; Act false; Act false] (shared c) (Local Out d) =
    Some (Mutex (Some i) (d + 1), Local Out (d + 1)).
Proof.
  intros [HI _]%rec_inv_reachable Hi Hd. destruct (HI _ _ Hi) as (_ & Ho & Hc). simpl in Hc.
  assert (owner_ (shared c) = Some i) as Hown by (apply Ho; left; simpl; lia).
  specialize (Hc Hown). destruct (shared c) as [o r]; simpl in *; subst o r.
  split_and!; [done|..].
  - cbn -[u64]. destruct (Z.ltb_spec 0 d); [|lia]. cbn -[u64]. rewrite u64_small by lia. destruct (Z.eqb_spec d 1) as [->|]; [done|].
    destruct (Z.eqb_spec (d - 1) 0); [lia|done].
  - unfold lock, cas_owner. cbn -[u64].
    rewrite bool_decide_true by done. cbn -[u64]. unfold increment. cbn -[u64]. by rewrite u64_small by lia.
  - unfold try_lock, cas_owner. cbn -[u64].
    rewrite bool_decide_true by done. cbn -[u64]. unfold increment. cbn -[u64]. by rewrite u64_small by lia.
Qed.

Definition boundedb (c : config mutex local) : bool := forallb (fun l => depth l <? 2 ^ 64 - 1) (threads c).

Lemma boundedb_bounded c : boundedb c = true -> bounded c.
Proof.
  unfold boundedb. rewrite forallb_forall. intros H i l Hi. apply Z.ltb_lt, H.
  apply list_elem_of_In. apply list_elem_of_lookup. by exists i.
Qed.

(** Thread 0 locks twice while thread 1 waits. *)
Definition twice_sched : list (nat * choice mutex_method) :=
  [(0, Call MLock); (0, Act false); (0, Act false); (1, Call MLock); (1, Act false); (1, Act false);
   (0, Call MLock); (0, Act false); (0, Act false)]%nat.

Definition twice_config : config mutex local :=
  Config (Mutex (Some 0%nat) 2) [Local Out 2; Local (SlowLoad (Some (Backoff 4))) 0].

Lemma twice_reached : reached true 2 twice_config.
Proof.
  apply (exec_while_reachable _ _ boundedb twice_sched); [apply boundedb_bounded|]. vm_compute. reflexivity.
Qed.

Lemma recursive_spinlock_exclusion_witness : 0%nat = 0%nat /\ owner_ (shared twice_config) = Some 0%nat.
Proof.
  apply (recursive_spinlock_exclusion true 2 twice_config 0 0 (Local Out 2) (Local Out 2));
    [apply twice_reached|done|done|by left|by left].
Defined.

Lemma recursive_spinlock_depth_witness : recursion_count_ (shared twice_config) = 2.
Proof. apply (recursive_spinlock_depth true 2 twice_config 0 2); [apply twice_reached|done|lia]. Defined.

End Recursive.

(** ** [shared_spinlock_plain], [shared_spinlock_backoff] *)
Module Shared.

Definition write_locked : Z := Z.shiftl 1 31.
Definition write_pending : Z := Z.shiftl 1 30.
Definition readers_mask : Z := not32 (Z.lor write_locked write_pending).

Inductive pc :=
| Idle
| Writer                               (** holds the lock exclusively *)
| Reader                               (** holds the lock shared *)
| Lock                                 (** [lock()]: the CAS from 0 *)
| SlowLoad (b : idler)                 (** [lock_slow()]: the loads that wait for the writer *)
| SlowPend (e : Z) (b : idler)         (** [lock_slow()]: the CAS that sets [write_pending] *)
| SlowWait (b : idler)                 (** [lock_slow()]: the loads that wait for the readers *)
| SlowTake (e : Z) (b : idler)         (** [lock_slow()]: the last CAS *)
| TryLoad                              (** [try_lock()]: the load *)
| TryCas (e : Z)                       (** [try_lock()]: the CAS *)
| Unlock                               (** [unlock()]: [state_.fetch_and( ~write_locked )] *)
| SharedLoad                           (** [lock_shared()]: the load *)
| SharedCas (e : Z)                    (** [lock_shared()]: the CAS *)
| SharedSlowLoad (b : idler)           (** [lock_shared_slow()]: the loads *)
| SharedSlowCas (e : Z) (b : idler)    (** [lock_shared_slow()]: the CAS *)
| SharedTryLoad                        (** [try_lock_shared()]: the load *)
| SharedTryCas (e : Z)                 (** [try_lock_shared()]: the CAS *)
| UnlockShared.                        (** [unlock_shared()]: [state_.fetch_sub( 1 )] *)

Inductive method := MLock | MTryLock | MUnlock | MLockShared | MTryLockShared | MUnlockShared.

(** [state_.compare_exchange_*( expected, desired )]; the CAS failures' value of
    [expected] is never used. *)
Definition cas (spurious : bool) (expected desired : Z) (state_ : Z) : Z * bool :=
  if negb spurious && (state_ =? expected) then (desired, true) else (state_, false).

Definition lock (hb : bool) (state_ : Z) : Z * pc :=
  let '(s, ok) := cas false 0 write_locked state_ in
  (s, if ok then Writer else SlowLoad (new_idler hb)).

(** [lock_slow()], from a load of [state_] to the next atomic operation. *)
Definition slow_load (state_ : Z) (b : idler) : pc :=
  if negb (Z.land state_ write_locked =? 0) then SlowLoad (idle_once b)
  else if 0 <? Z.land state_ readers_mask then
    if Z.land state_ write_pending =? 0 then SlowPend state_ b else SlowWait (idle_once b)
  else SlowTake state_ b.

(** Setting [write_pending]; [expected] still counts readers, so the inner loop
    idles before it loads again. *)
Definition slow_pend (sp : bool) (e : Z) (b : idler) (state_ : Z) : Z * pc :=
  let '(s, ok) := cas sp e (Z.lor e write_pending) state_ in
  (s, if ok then SlowWait (idle_once b) else SlowLoad b).

Definition slow_wait (state_ : Z) (b : idler) : pc :=
  if (0 <? Z.land state_ readers_mask) || negb (Z.land state_ write_locked =? 0)
  then SlowWait (idle_once b) else SlowTake state_ b.

(** [( expected & ~write_pending ) | write_locked] *)
Definition desired (e : Z) : Z := Z.lor (Z.land e (not32 write_pending)) write_locked.

Definition slow_take (sp : bool) (e : Z) (b : idler) (state_ : Z) : Z * pc :=
  let '(s, ok) := cas sp e (desired e) state_ in (s, if ok then Writer else SlowLoad b).

Definition try_load (state_ : Z) : pc :=
  if (Z.land state_ readers_mask =? 0) && (Z.land state_ write_locked =? 0) then TryCas state_ else Idle.

Definition try_cas (e : Z) (state_ : Z) : Z * pc :=
  let '(s, ok) := cas false e (desired e) state_ in (s, if ok then Writer else Idle).

Definition unlock (state_ : Z) : Z * pc := (Z.land state_ (not32 write_locked), Idle).

Definition no_writer (e : Z) : bool := Z.land e (Z.lor write_locked write_pending) =? 0.

Definition shared_load (hb : bool) (state_ : Z) : pc :=
  if no_writer state_ then SharedCas state_ else SharedSlowLoad (new_idler hb).

Definition shared_cas (hb : bool) (e : Z) (state_ : Z) : Z * pc :=
  let '(s, ok) := cas false e (u32 (e + 1)) state_ in
  (s, if ok then Reader else SharedSlowLoad (new_idler hb)).

Definition shared_slow_load (state_ : Z) (b : idler) : pc :=
  if no_writer state_ then SharedSlowCas state_ b else SharedSlowLoad (idle_once b).

Definition shared_slow_cas (sp : bool) (e : Z) (b : idler) (state_ : Z) : Z * pc :=
  let '(s, ok) := cas sp e (u32 (e + 1)) state_ in (s, if ok then Reader else SharedSlowLoad b).

Definition shared_try_load (state_ : Z) : pc := if no_writer state_ then SharedTryCas state_ else Idle.

Definition shared_try_cas (e : Z) (state_ : Z) : Z * pc :=
  let '(s, ok) := cas false e (u32 (e + 1)) state_ in (s, if ok then Reader else Idle).

Definition unlock_shared (state_ : Z) : Z * pc := (u32 (state_ - 1), Idle).

Definition enter (m : method) (l : pc) : option pc :=
  match l, m with
  | Idle, MLock => Some Lock
  | Idle, MTryLock => Some TryLoad
  | Idle, MLockShared => Some SharedLoad
  | Idle, MTryLockShared => Some SharedTryLoad
  | Writer, MUnlock => Some Unlock
  | Reader, MUnlockShared => Some UnlockShared
  | _, _ => None
  end.

Definition tstep (hb : bool) (tid : nat) (ch : choice method) (s : Z) (l : pc) : option (Z * pc) :=
  match ch with
  | Call m => pair s <$> enter m l
  | Act sp =>
      match l with
      | Lock => Some (lock hb s)
      | SlowLoad b => Some (s, slow_load s b)
      | SlowPend e b => Some (slow_pend sp e b s)
      | SlowWait b => Some (s, slow_wait s b)
      | SlowTake e b => Some (slow_take sp e b s)
      | TryLoad => Some (s, try_load s)
      | TryCas e => Some (try_cas e s)
      | Unlock => Some (unlock s)
      | SharedLoad => Some (s, shared_load hb s)
      | SharedCas e => Some (shared_cas hb e s)
      | SharedSlowLoad b => Some (s, shared_slow_load s b)
      | SharedSlowCas e b => Some (shared_slow_cas sp e b s)
      | SharedTryLoad => Some (s, shared_try_load s)
      | SharedTryCas e => Some (shared_try_cas e s)
      | UnlockShared => Some (unlock_shared s)
      | _ => None
      end
  | _ => None
  end.

Definition shared_spinlock_plain := tstep false.
Definition shared_spinlock_backoff := tstep true.

Abbreviation sconfig := (config Z pc).

Definition init (n : nat) : sconfig := Config 0 (replicate n Idle).

(** ** The layout of the word *)

(** A writer bit, a pending bit, and a count of the readers. *)
Definition enc (w p : bool) (r : Z) : Z := Z.b2z w * 2 ^ 31 + Z.b2z p * 2 ^ 30 + r.

Section layout.
Context (w p : bool) (r : Z).
Hypothesis Hr : 0 <= r < 2 ^ 30.

Lemma enc_range : 0 <= enc w p r < 2 ^ 32.
Proof. unfold enc. destruct w, p; simpl; lia. Qed.

Lemma enc_locked : Z.land (enc w p r) write_locked = Z.b2z w * 2 ^ 31.
Proof.
  change write_locked with (2 ^ 31). rewrite land_pow2 by lia. unfold enc.
  destruct w, p; simpl Z.b2z; Z.div_mod_to_equations; lia.
Qed.

Lemma enc_pending : Z.land (enc w p r) write_pending = Z.b2z p * 2 ^ 30.
Proof.
  change write_pending with (2 ^ 30). rewrite land_pow2 by lia. unfold enc.
  destruct w, p; simpl Z.b2z; Z.div_mod_to_equations; lia.
Qed.

Lemma enc_readers : Z.land (enc w p r) readers_mask = r.
Proof.
  change readers_mask with (Z.ones 30). rewrite Z.land_ones by lia. unfold enc.
  destruct w, p; simpl Z.b2z; Z.div_mod_to_equations; lia.
Qed.

Lemma enc_no_writer : no_writer (enc w p r) = negb w && negb p.
Proof.
  unfold no_writer. rewrite Z.land_lor_distr_r, enc_locked, enc_pending.
  destruct w, p; reflexivity.
Qed.

Lemma enc_set_pending : Z.lor (enc w p r) write_pending = enc w true r.
Proof.
  rewrite lor_land, enc_pending. change write_pending with (2 ^ 30). unfold enc. destruct p; simpl Z.b2z; lia.
Qed.

Lemma enc_unlock : Z.land (enc w p r) (not32 write_locked) = enc false p r.
Proof.
  rewrite land_not32 by apply enc_range. rewrite enc_locked. unfold enc. simpl Z.b2z. lia.
Qed.
End layout.

Lemma enc_desired w p r : 0 <= r < 2 ^ 30 -> desired (enc w p r) = enc true false r.
Proof.
  intros Hr. unfold desired. rewrite land_not32 by (by apply enc_range). rewrite enc_pending by done.
  replace (enc w p r - Z.b2z p * 2 ^ 30) with (enc w false r) by (unfold enc; simpl; lia).
  rewrite lor_land, enc_locked by done. change write_locked with (2 ^ 31). unfold enc. destruct w; simpl; lia.
Qed.

(** ** The invariant *)

Definition writes (l : pc) : bool := match l with Writer | Unlock => true | _ => false end.
Definition reads (l : pc) : bool := match l with Reader | UnlockShared => true | _ => false end.

(** Inside [lock_slow()]. *)
Definition slow (l : pc) : bool :=
  match l with SlowLoad _ | SlowPend _ _ | SlowWait _ | SlowTake _ _ => true | _ => false end.

(** What a thread knows of the word it loaded. *)
Definition loaded_ok (l : pc) : Prop :=
  match l with
  | SlowTake e _ | TryCas e => Z.land e readers_mask = 0 /\ Z.land e write_locked = 0
  | SharedCas e | SharedSlowCas e _ | SharedTryCas e => no_writer e = true
  | _ => True
  end.

Lemma shared_cas_cases sp e d s s' ok : cas sp e d s = (s', ok) -> (ok = true /\ s = e /\ s' = d) \/ (ok = false /\ s' = s).
Proof. unfold cas. intros H. case_match; simplify_eq; bools; auto. Qed.

(** The word before and after a step: what it counts follows the thread. *)
Definition follows (w p : bool) (r : Z) (l : pc) (s' : Z) (l' : pc) : Prop :=
  exists w' p' r', s' = enc w' p' r' /\
    Z.b2z w' = Z.b2z w - Z.b2z (writes l) + Z.b2z (writes l') /\
    r' = r - Z.b2z (reads l) + Z.b2z (reads l') /\
    (w' = true -> r' = 0) /\
    (p' = true -> slow l' = true \/ (p = true /\ slow l = false)).

Lemma follows_same w p r l l' :
  (w = true -> r = 0) -> writes l = writes l' -> reads l = reads l' ->
  (slow l = true -> slow l' = true) -> follows w p r l (enc w p r) l'.
Proof.
  intros Hw E1 E2 Hs. exists w, p, r. rewrite E1, E2. split_and!; try done; try lia.
  intros ->. destruct (slow l); auto.
Qed.

Section step.
Context (w p : bool) (r : Z).
Hypothesis Hr : 0 <= r < 2 ^ 30 - 1.
Hypothesis Hwr : w = true -> r = 0.

Lemma take_follows sp e s' ok l l' :
  cas sp e (desired e) (enc w p r) = (s', ok) ->
  Z.land e readers_mask = 0 -> Z.land e write_locked = 0 ->
  writes l = false -> reads l = false -> writes l' = ok -> reads l' = false ->
  (ok = false -> slow l = slow l') -> follows w p r l s' l'.
Proof.
  intros H He1 He2 Hl1 Hl2 Hl1' Hl2' Hs. apply shared_cas_cases in H as [(-> & <- & ->)|(-> & ->)].
  - rewrite enc_readers in He1 by lia. rewrite enc_locked in He2 by lia.
    rewrite enc_desired by lia. exists true, false, r.
    rewrite Hl1, Hl2, Hl1', Hl2'. destruct w; simpl in *; split_and!; (done || lia).
  - apply follows_same; [done|congruence..|]. by rewrite Hs.
Qed.

Lemma share_follows sp e s' ok l l' :
  cas sp e (u32 (e + 1)) (enc w p r) = (s', ok) -> no_writer e = true ->
  writes l = false -> reads l = false -> slow l = false -> writes l' = false -> reads l' = ok ->
  follows w p r l s' l'.
Proof.
  intros H He Hl1 Hl2 Hl3 Hl1' Hl2'. apply shared_cas_cases in H as [(-> & <- & ->)|(-> & ->)].
  - rewrite enc_no_writer in He by lia. bools. subst w p.
    exists false, false, (r + 1). rewrite Hl1, Hl2, Hl1', Hl2'. unfold enc. simpl. rewrite u32_small by lia.
    split_and!; (done || lia).
  - apply follows_same; [done|congruence..].
Qed.

Lemma pend_follows sp e b s' l' :
  slow_pend sp e b (enc w p r) = (s', l') -> follows w p r (SlowPend e b) s' l'.
Proof.
  unfold slow_pend. destruct (cas sp e (Z.lor e write_pending) (enc w p r)) as [s ok] eqn:H.
  apply shared_cas_cases in H as [(-> & <- & ->)|(-> & ->)]; intros [= <- <-].
  - rewrite enc_set_pending by lia. exists w, true, r. simpl. split_and!; (done || lia || auto).
  - by apply follows_same.
Qed.

Lemma load_follows l l' :
  writes l = false -> reads l = false -> writes l' = false -> reads l' = false ->
  (slow l = true -> slow l' = true) -> loaded_ok l' ->
  follows w p r l (enc w p r) l' /\ loaded_ok l'.
Proof. intros. split; [apply follows_same; (done || congruence)|done]. Qed.

Lemma slow_load_ok b :
  slow (slow_load (enc w p r) b) = true /\ loaded_ok (slow_load (enc w p r) b).
Proof.
  unfold slow_load. destruct (Z.eqb_spec (Z.land (enc w p r) write_locked) 0); [|done]. simpl.
  destruct (Z.ltb_spec 0 (Z.land (enc w p r) readers_mask)) as [|Hm]; [by case_match|].
  split; [done|]. split; [|done]. rewrite enc_readers in * by lia. lia.
Qed.

Lemma slow_wait_ok b :
  slow (slow_wait (enc w p r) b) = true /\ loaded_ok (slow_wait (enc w p r) b).
Proof.
  unfold slow_wait. destruct (Z.eqb_spec (Z.land (enc w p r) write_locked) 0); simpl;
    [|by rewrite orb_true_r].
  destruct (Z.ltb_spec 0 (Z.land (enc w p r) readers_mask)) as [|Hm]; [done|].
  split; [done|]. split; [|done]. rewrite enc_readers in * by lia. lia.
Qed.

Lemma slow_exclusive l : slow l = true -> writes l = false /\ reads l = false.
Proof. by destruct l. Qed.

Lemma slow_follows l l' :
  slow l = true -> slow l' = true /\ loaded_ok l' -> follows w p r l (enc w p r) l' /\ loaded_ok l'.
Proof.
  intros Hs [Hs' Hok]. destruct (slow_exclusive _ Hs), (slow_exclusive _ Hs'). by apply load_follows.
Qed.

Lemma unlock_follows : w = true -> follows w p r Unlock (fst (unlock (enc w p r))) Idle.
Proof.
  intros ->. simpl. rewrite enc_unlock by lia. exists false, p, r. simpl. split_and!; (done || lia || auto).
Qed.

Lemma unlock_shared_follows : 1 <= r -> follows w p r UnlockShared (fst (unlock_shared (enc w p r))) Idle.
Proof.
  intros H1. exists w, p, (r - 1). simpl.
  assert (w = false) as -> by (destruct w; [specialize (Hwr eq_refl); lia|done]).
  split_and!; (done || lia || auto). unfold enc. rewrite u32_small; destruct p; simpl; lia.
Qed.

Lemma lock_follows hb s' l' :
  lock hb (enc w p r) = (s', l') -> follows w p r Lock s' l' /\ loaded_ok l'.
Proof.
  unfold lock. destruct (cas false 0 write_locked (enc w p r)) as [s ok] eqn:E.
  apply shared_cas_cases in E as [(-> & H0 & ->)|(-> & ->)]; intros [= <- <-]; (split; [|done]);
    [|by apply follows_same].
  exists true, false, 0. unfold enc in H0 |- *. destruct w, p; simpl in *; split_and!; (done || lia).
Qed.

Lemma shared_step hb tid ch l s' l' :
  tstep hb tid ch (enc w p r) l = Some (s', l') -> loaded_ok l ->
  (writes l = true -> w = true) -> (reads l = true -> 1 <= r) ->
  follows w p r l s' l' /\ loaded_ok l'.
Proof.
  intros H Hok Hwl Hrl. destruct ch as [m|sp|k|ex]; simpl in H; try done.
  { destruct l, m; simplify_eq/=; (split; [by apply follows_same|done]). }
  destruct l; try done; injection H; clear H; intros H; try (intros <-; rename H into Hl'; subst l').
  - by apply lock_follows in H.
  - by apply slow_follows, slow_load_ok.
  - split; [by eapply pend_follows|]. unfold slow_pend in H.
    destruct (cas sp e (Z.lor e write_pending) (enc w p r)) as [? []]; by simplify_eq.
  - by apply slow_follows, slow_wait_ok.
  - unfold slow_take in H. destruct (cas sp e (desired e) (enc w p r)) as [s [|]] eqn:E; simplify_eq;
      (split; [|done]); by eapply take_follows; try apply Hok.
  - unfold try_load. case_match; bools; by apply load_follows.
  - unfold try_cas in H. destruct (cas false e (desired e) (enc w p r)) as [s [|]] eqn:E; simplify_eq;
      (split; [|done]); by eapply take_follows; try apply Hok.
  - split; [|done]. apply unlock_follows. by apply Hwl.
  - unfold shared_load. case_match eqn:E; by apply load_follows.
  - unfold shared_cas in H. destruct (cas false e (u32 (e + 1)) (enc w p r)) as [s [|]] eqn:E; simplify_eq;
      (split; [|done]); by eapply share_follows.
  - unfold shared_slow_load. case_match eqn:E; by apply load_follows.
  - unfold shared_slow_cas in H. destruct (cas sp e (u32 (e + 1)) (enc w p r)) as [s [|]] eqn:E; simplify_eq;
      (split; [|done]); by eapply share_follows.
  - unfold shared_try_load. case_match eqn:E; by apply load_follows.
  - unfold shared_try_cas in H. destruct (cas false e (u32 (e + 1)) (enc w p r)) as [s [|]] eqn:E; simplify_eq;
      (split; [|done]); by eapply share_follows.
  - split; [|done]. apply unlock_shared_follows. by apply Hrl.
Qed.
End step.

Record Inv (n : nat) (c : sconfig) : Prop := {
  inv_threads : length (threads c) = n;
  inv_loaded : forall i l, threads c !! i = Some l -> loaded_ok l;
  inv_word : exists w p, shared c = enc w p (count reads (threads c)) /\
    count writes (threads c) = Z.b2z w /\
    (w = true -> count reads (threads c) = 0) /\
    (p = true -> 1 <= count slow (threads c))
}.

Lemma shared_inv_step hb n c i ch l s' l' :
  Z.of_nat n < 2 ^ 30 - 1 -> Inv n c -> threads c !! i = Some l ->
  tstep hb i ch (shared c) l = Some (s', l') -> Inv n (Config s' (<[i := l']> (threads c))).
Proof.
  intros Hn [Hlen Hok (w & p & Hs & Hw & Hwr & Hp)] Hl Hstep.
  pose proof (count_bounds reads (threads c)) as Hrb. rewrite Hlen in Hrb.
  destruct (shared_step w p (count reads (threads c)) ltac:(lia) Hwr hb i ch l s' l')
    as [(w' & p' & r' & -> & Hw' & Hr' & Hwr' & Hp') Hok'].
  { by rewrite <- Hs. }
  { by apply (Hok i). }
  { intros H. pose proof (count_pos _ _ _ _ Hl H). destruct w; [done|simpl in *; lia]. }
  { intros H. apply (count_pos _ _ _ _ Hl H). }
  constructor; cbn [shared threads].
  - by rewrite length_insert.
  - intros j lj. destruct (decide (j = i)) as [->|Hji].
    + rewrite list_lookup_insert_eq by (by apply lookup_lt_Some in Hl). by intros [= <-].
    + rewrite list_lookup_insert_ne by done. apply Hok.
  - exists w', p'. rewrite !(count_insert _ _ _ _ _ Hl). rewrite <- Hr'. split_and!; [done|lia|done|].
    intros H. pose proof (count_bounds slow (<[i:=l']> (threads c))) as Hb.
    rewrite (count_insert _ _ _ _ _ Hl) in Hb. destruct (Hp' H) as [Hsl|[Hpt Hsl]].
    + rewrite <- (count_insert _ _ _ _ _ Hl).
      eapply count_pos; [|exact Hsl]. apply list_lookup_insert_eq. by apply lookup_lt_Some in Hl.
    + rewrite Hsl. specialize (Hp Hpt). destruct (slow l'); simpl; lia.
Qed.

Lemma shared_inv_reachable hb n c :
  Z.of_nat n < 2 ^ 30 - 1 -> reachable (tstep hb) (init n) c -> Inv n c.
Proof.
  intros Hn. apply invariant_reachable.
  - assert (forall q : pc -> bool, q Idle = false -> count q (threads (init n)) = 0) as H0.
    { intros q Hq. apply count_all_false. by intros l (j & [-> _]%lookup_replicate)%list_elem_of_lookup. }
    constructor.
    + simpl. by rewrite length_replicate.
    + by intros i l [-> _]%lookup_replicate.
    + exists false, false. by rewrite !H0 by done.
  - intros. by eapply shared_inv_step.
Qed.

(** Reader-writer exclusion of [spinlock_mutex<shared>], with or without
    backoff: at most one writer holds the lock, and while it does there is no
    reader, for fewer than 2^30 - 1 threads. *)
Theorem shared_spinlock_exclusion hb n c :
  Z.of_nat n < 2 ^ 30 - 1 -> reachable (tstep hb) (init n) c ->
  count writes (threads c) <= 1 /\ (1 <= count writes (threads c) -> count reads (threads c) = 0).
Proof.
  intros Hn [_ _ (w & p & _ & Hw & Hwr & _)]%shared_inv_reachable; [|done].
  rewrite Hw. destruct w; simpl; split; try lia; by intros _; apply Hwr.
Qed.

(** The word is exact, and [write_pending] is never left behind: the low
    bits count the readers, [write_locked] is set exactly while a writer holds
    the lock, and when [write_pending] blocks new readers some thread is inside
    [lock_slow()], whose acquisition clears it. *)
Theorem shared_spinlock_word hb n c :
  Z.of_nat n < 2 ^ 30 - 1 -> reachable (tstep hb) (init n) c ->
  Z.land (shared c) readers_mask = count reads (threads c) /\
  Z.land (shared c) write_locked = count writes (threads c) * 2 ^ 31 /\
  (Z.land (shared c) write_pending <> 0 -> exists i l, threads c !! i = Some l /\ slow l = true).
Proof.
  intros Hn [Hlen _ (w & p & Hs & Hw & Hwr & Hp)]%shared_inv_reachable; [|done].
  pose proof (count_bounds reads (threads c)) as Hrb. rewrite Hlen in Hrb.
  rewrite Hs, enc_readers, enc_locked, enc_pending, Hw by lia. split_and!; try done.
  intros H. apply count_witness. destruct p; [specialize (Hp eq_refl); lia|simpl in H; lia].
Qed.

(** A waiting writer gets in once the lock is free: with no reader and no
    writer, a thread anywhere in [lock_slow()] that runs alone holds the lock
    after at most three steps, whatever it had loaded before. *)
Theorem shared_spinlock_writer_progress hb n c i l :
  Z.of_nat n < 2 ^ 30 - 1 -> reachable (tstep hb) (init n) c ->
  count reads (threads c) = 0 -> count writes (threads c) = 0 ->
  threads c !! i = Some l -> slow l = true ->
  reaches_alone (tstep hb) benign (fun l' => l' = Writer) i 3 (shared c) l.
Proof.
  intros Hn [_ _ (w & p & Hs & Hw & _ & _)]%shared_inv_reachable Hr0 Hw0 Hl Hsl; [|done].
  rewrite Hr0 in Hs. rewrite Hw0 in Hw. assert (w = false) as -> by (by destruct w).
  rewrite Hs. clear Hs Hw. set (s := enc false p 0).
  assert (Htake : forall b, reaches_alone (tstep hb) benign (fun l' => l' = Writer) i 1 s (SlowTake s b)).
  { intros b. eapply (reaches_step _ _ _ _ _ (Act false)); [|by left|by apply reaches_now].
    simpl. unfold slow_take, cas. rewrite Z.eqb_refl. reflexivity. }
  assert (Hload : forall b, reaches_alone (tstep hb) benign (fun l' => l' = Writer) i 2 s (SlowLoad b)).
  { intros b. eapply (reaches_step _ _ _ _ _ (Act false)); [|by left|apply Htake].
    simpl. unfold slow_load, s. rewrite enc_locked, enc_readers by lia. reflexivity. }
  assert (Hwait : forall p' b, reaches_alone (tstep hb) benign (fun l' => l' = Writer) i 2 (enc false p' 0) (SlowWait b)).
  { intros p' b. eapply (reaches_step _ _ _ _ _ (Act false)); [|by left|].
    - simpl. unfold slow_wait. rewrite enc_locked, enc_readers by lia. reflexivity.
    - eapply (reaches_step _ _ _ _ _ (Act false)); [|by left|by apply reaches_now].
      simpl. unfold slow_take, cas. rewrite Z.eqb_refl. reflexivity. }
  destruct l as [| | | |b|e b|b|e b| | | | | | | | | |]; try done.
  - eapply reaches_more; [|apply Hload]. lia.
  - destruct (Z.eqb_spec s e) as [<-|Hne]; (eapply (reaches_step _ _ _ _ _ (Act false)); [|by left|]).
    + simpl. unfold slow_pend, cas. rewrite Z.eqb_refl. simpl. unfold s. rewrite enc_set_pending by lia. reflexivity.
    + apply Hwait.
    + simpl. unfold slow_pend, cas. apply Z.eqb_neq in Hne as ->. reflexivity.
    + apply Hload.
  - eapply reaches_more; [|apply Hwait]. lia.
  - destruct (Z.eqb_spec s e) as [<-|Hne].
    + eapply reaches_more; [|apply Htake]. lia.
    + eapply (reaches_step _ _ _ _ _ (Act false)); [|by left|apply Hload].
      simpl. unfold slow_take, cas. apply Z.eqb_neq in Hne as ->. reflexivity.
Qed.

(** A reader, a writer that waits for it with [write_pending] set. *)
Definition pending_sched : list (nat * choice method) :=
  [(0, Call MLockShared); (0, Act false); (0, Act false);
   (1, Call MLock); (1, Act false); (1, Act false); (1, Act false)]%nat.

Definition pending_config : sconfig := Config (2 ^ 30 + 1) [Reader; SlowWait None].

Lemma pending_reachable : reachable (tstep false) (init 2) pending_config.
Proof. apply (exec_reachable _ pending_sched). vm_compute. reflexivity. Qed.

Lemma shared_spinlock_exclusion_witness :
  count writes (threads pending_config) <= 1 /\
  (1 <= count writes (threads pending_config) -> count reads (threads pending_config) = 0).
Proof. apply (shared_spinlock_exclusion false 2 pending_config); [lia|apply pending_reachable]. Defined.

Lemma shared_spinlock_word_witness :
  Z.land (shared pending_config) readers_mask = 1 /\
  Z.land (shared pending_config) write_locked = 0 /\
  (Z.land (shared pending_config) write_pending <> 0 ->
     exists i l, threads pending_config !! i = Some l /\ slow l = true).
Proof. apply (shared_spinlock_word false 2 pending_config); [lia|apply pending_reachable]. Defined.

(** The reader is gone. *)
Definition free_config : sconfig := Config (2 ^ 30) [Idle; SlowWait None].

Lemma shared_spinlock_writer_progress_witness :
  reaches_alone (tstep false) benign (fun l' => l' = Writer) 1 3 (2 ^ 30) (SlowWait None).
Proof.
  apply (shared_spinlock_writer_progress false 2 free_config 1); [lia| |reflexivity|reflexivity|done|done].
  apply (exec_reachable _ (pending_sched ++ [(0, Call MUnlockShared); (0, Act false)]%nat)).
  vm_compute. reflexivity.
Defined.

End Shared.
