(* ===== verification/AsyncMutex.v ===== *)
(** * The mutexes with a native handle

    [detail::fast_eventfd_mutex_impl] (include/nova/sync/mutex/eventfd_mutex.hpp,
    source/nova/sync/mutex/eventfd_mutex.cpp) and
    [detail::fast_kqueue_mutex_impl] (kqueue_mutex.hpp, kqueue_mutex.cpp): a word
    with a lock bit and twice the number of waiters, and a kernel object that
    [unlock()] notifies and that waiters, threads and event loops alike, poll.
    Event loops register through [detail::async_waiter_guard]
    (support/async_waiter_guard.hpp).

    The kernel object is a parameter, a [Notifier] of [Kernel.v]. *)
From S2P Require Import Prelude Kernel Machine Futex Backoff.
#[local] Open Scope Z_scope.

Inductive platform := Eventfd | Kqueue.

#[export] Instance platform_eq_dec : EqDecision platform.
Proof. solve_decision. Defined.

(** Which of the waiting methods: [lock()], [try_lock_for()], or
    [try_lock_until()] with a [system_clock] or a [steady_clock] deadline. *)
Inductive wait_kind := Forever | For | Until (system : bool).

#[export] Instance wait_kind_eq_dec : EqDecision wait_kind.
Proof. solve_decision. Defined.

(** Who called [try_lock()]. *)
Inductive try_caller :=
| Client        (** the client, or [try_lock_for()] with no time left *)
| First (system : bool) (** [try_lock_until()], on entry *)
| LastTry       (** [try_lock_until()], after a time-out, registered *)
| GuardTry.     (** [async_waiter_guard::try_acquire()] *)

Inductive pc :=
| Idle
| Holding
| Lock                                              (** [lock()]: the CAS *)
| SpinLoad (u : wait_kind)                          (** [s = state_.load()] *)
| Spin (u : wait_kind) (s : Z) (b : exponential_backoff) (** the spin loop *)
| ForCas                                            (** kqueue [try_lock_for_impl()]: the CAS *)
| Register (u : wait_kind)                          (** [s = add_async_waiter()] *)
| Loop (u : wait_kind) (s : Z)                      (** head of [while ( true )] *)
| Wait (u : wait_kind)                              (** in [poll] / [ppoll] / [kevent] *)
| Consume (u : wait_kind)                           (** [consume_lock()] after the wait *)
| Load (u : wait_kind)                              (** [s = state_.load()] after the wait *)
| Drain                                             (** [consume_lock()] after the CAS *)
| TryLoad (k : try_caller)                          (** [try_lock()]: load [s] *)
| TryLoop (k : try_caller) (s : Z)                  (** [try_lock()]: the loop *)
| GuardAdd                                          (** the guard's constructor *)
| Guard (fresh : bool)                              (** an active guard; [fresh]: nothing tried yet *)
| GuardConsume                                      (** [try_acquire()]: [consume_lock()] *)
| Remove (ok : bool)                                (** [remove_async_waiter()], holding the lock or not *)
| Unlock                                            (** [unlock()]: [state_.fetch_and( ~1u )] *)
| UnlockNotify.                                     (** [unlock()]: notify the kernel object *)

#[export] Instance pc_eq_dec : EqDecision pc.
Proof. intros x y. unfold Decision. repeat (decide equality). Defined.

Inductive method :=
| MLock | MTryLock | MTryLockFor (zero : bool) | MTryLockUntil (system : bool) | MUnlock
| MGuard | MTryAcquire | MRelease.

(** [expected] is written back by [compare_exchange_weak]. *)
Definition cas (spurious : bool) (expected desired : Z) (v : Z) : Z * bool * Z :=
  if negb spurious && (v =? expected) then (desired, true, expected) else (v, false, v).

(** [( s & 1u ) == 0] *)
Definition is_free (s : Z) : bool := Z.land s 1 =? 0.

(** [state_.fetch_add( 2 ) + 2], [state_.fetch_sub( 2 )] *)
Definition add_async_waiter (v : Z) : Z := u32 (v + 2).
Definition remove_async_waiter (v : Z) : Z := u32 (v - 2).

Definition lock (spurious : bool) (v : Z) : Z * pc :=
  let '(v', ok, _) := cas spurious 0 1 v in (v', if ok then Holding else SpinLoad Forever).

(** The functor of [lock_slow()] and [try_lock_until()]. *)
Definition spin_functor (spurious : bool) (v s : Z) : Z * backoff_result * Z :=
  if is_free s then
    let '(v', ok, s') := cas spurious s (Z.lor s 1) v in
    (v', if ok then success else retry_without_backoff, s')
  else (v, retry, s).

Definition spin (spurious : bool) (u : wait_kind) (v s : Z) (b : exponential_backoff) : Z * pc :=
  let '(v', r, s') := spin_functor spurious v s in
  match backoff_turn r b with
  | inl true => (v', Holding)
  | inl false => (v', Register u)
  | inr b' => (v', Spin u s' b')
  end.

Definition for_cas (spurious : bool) (v : Z) : Z * pc :=
  let '(v', ok, _) := cas spurious 0 1 v in (v', if ok then Holding else Register For).

(** One turn of the waiting loop, up to the wait. *)
Definition loop (spurious : bool) (u : wait_kind) (v s : Z) : Z * pc :=
  if is_free s then
    let '(v', ok, s') := cas spurious s (Z.lor (u32 (s - 2)) 1) v in
    (v', if ok then Drain else Loop u s')
  else (v, Wait u).

Definition try_fail (p : platform) (k : try_caller) : pc :=
  match k with
  | Client => Idle
  | First sys => match p with Eventfd => SpinLoad (Until sys) | Kqueue => Register (Until sys) end
  | LastTry => Remove false
  | GuardTry => Guard false
  end.

Definition try_success (k : try_caller) : pc :=
  match k with Client | First _ => Holding | LastTry => Remove true | GuardTry => GuardConsume end.

Definition try_loop (p : platform) (spurious : bool) (k : try_caller) (v s : Z) : Z * pc :=
  if is_free s then
    let '(v', ok, s') := cas spurious s (Z.lor s 1) v in
    (v', if ok then try_success k else TryLoop k s')
  else (v, try_fail p k).

Definition unlock (v : Z) : Z * pc := (Z.land v not_one, if 1 <? v then UnlockNotify else Idle).

Section machine.
Context {K : Type} `{Notifier K}.

(** A wait that returned for lack of time, or by an error. *)
Definition gave_up (u : wait_kind) : pc :=
  match u with Forever => Consume Forever | For => Remove false | Until _ => TryLoad LastTry end.

(** [kevent_until( kqfd_, 1, system_clock deadline )] compares the identifier of
    the event, 2, with 1. *)
Definition mismatch (p : platform) (u : wait_kind) : bool :=
  match p, u with Kqueue, Until true => true | _, _ => false end.

(** The wait: [poll_intr], [ppoll_for], [ppoll_until], [kevent], [kevent_for],
    [kevent_until].  Only [lock()] on kqueue does not retry after [EINTR]; only
    kqueue's waits retrieve the event. *)
Definition wait (p : platform) (u : wait_kind) (ch : wchoice) (k : K) : option (K * pc) :=
  match ch with
  | Go =>
      if k_ready k then
        Some (match p with
              | Eventfd => (k, Consume u)
              | Kqueue =>
                  (k_consume k,
                   if mismatch p u then TryLoad LastTry
                   else match u with Forever => Load u | _ => Consume u end)
              end)
      else None
  | Interrupted => match p, u with Kqueue, Forever => Some (k, Load u) | _, _ => None end
  | TimedOut => match u with Forever => None | _ => Some (k, gave_up u) end
  | Fault => Some (k, match p, u with Kqueue, Forever => Load u | _, _ => gave_up u end)
  | Spurious => None
  end.

Definition enter (p : platform) (m : method) (l : pc) : option pc :=
  match l, m with
  | Idle, MLock => Some Lock
  | Idle, MTryLock => Some (TryLoad Client)
  | Idle, MTryLockFor true => Some (TryLoad Client)
  | Idle, MTryLockFor false => Some (match p with Eventfd => Register For | Kqueue => ForCas end)
  | Idle, MTryLockUntil sys => Some (TryLoad (First sys))
  | Holding, MUnlock => Some Unlock
  | Idle, MGuard => Some GuardAdd
  | Guard _, MTryAcquire => Some (TryLoad GuardTry)
  | Guard _, MRelease => Some (Remove false)
  | _, _ => None
  end.

Definition tstep (p : platform) (tid : nat) (ch : choice method) (s : Z * K) (l : pc)
  : option ((Z * K) * pc) :=
  let '(v, k) := s in
  let word '(v', l') := Some ((v', k), l') in
  match l, ch with
  | _, Call m => pair s <$> enter p m l
  | Lock, Act sp => word (lock sp v)
  | SpinLoad u, Act _ => word (v, Spin u v backoff_init)
  | Spin u x b, Act sp => word (spin sp u v x b)
  | ForCas, Act sp => word (for_cas sp v)
  | Register u, Act _ => word (add_async_waiter v, Loop u (add_async_waiter v))
  | Loop u x, Act sp => word (loop sp u v x)
  | Wait u, Kernel c => match wait p u c k with None => None | Some (k', l') => Some ((v, k'), l') end
  | Consume u, Act _ => Some ((v, k_consume k), Load u)
  | Load u, Act _ => word (v, Loop u v)
  | Drain, Act _ => Some ((v, k_consume k), Holding)
  | TryLoad c, Act _ => word (v, TryLoop c v)
  | TryLoop c x, Act sp => word (try_loop p sp c v x)
  | GuardAdd, Act _ => word (add_async_waiter v, Guard true)
  | GuardConsume, Act _ => Some ((v, k_consume k), Remove true)
  | Remove ok, Act _ => word (remove_async_waiter v, if ok then Holding else Idle)
  | Unlock, Act _ => word (unlock v)
  | UnlockNotify, Act _ => Some ((v, k_notify k), Idle)
  | _, _ => None
  end.

(** The two classes. *)
Definition fast_eventfd_mutex_impl := tstep Eventfd.
Definition fast_kqueue_mutex_impl := tstep Kqueue.

Definition init (n : nat) : config (Z * K) pc := Config (0, k_init) (replicate n Idle).
End machine.

(** ** What a thread contributes to the word *)

Definition registered (l : pc) : bool :=
  match l with
  | Loop _ _ | Wait _ | Consume _ | Load _ | Guard _ | GuardConsume | Remove _
  | TryLoad (LastTry | GuardTry) | TryLoop (LastTry | GuardTry) _ => true
  | _ => false
  end.

Definition holds (l : pc) : bool :=
  match l with Holding | Drain | GuardConsume | Remove true | Unlock => true | _ => false end.

(** Registered, and it will look at the word only when it is notified. *)
Definition passive (l : pc) : bool :=
  match l with
  | Wait _ | Guard false => true
  | Loop _ s | TryLoop GuardTry s => negb (is_free s)
  | _ => false
  end.

(** On its way to notify, or to see that the lock is free. *)
Definition active (l : pc) : bool :=
  match l with
  | UnlockNotify | Consume _ | Load _ | TryLoad (LastTry | GuardTry) => true
  | Loop _ s | TryLoop (LastTry | GuardTry) s => is_free s
  | _ => false
  end.

(** ** One step *)

Lemma is_free_mod s : is_free s = (s mod 2 =? 0).
Proof. unfold is_free. by rewrite land_one. Qed.

Lemma word_cas_cases sp e d v v' ok s' :
  cas sp e d v = (v', ok, s') -> (ok = true /\ v = e /\ v' = d) \/ (ok = false /\ v' = v /\ s' = v).
Proof. unfold cas. intros H. case_match; simplify_eq; bools; auto. Qed.

Section step.
Context {K : Type} `{Notifier K, !NotifierLaws K}.

(** The word counts the threads: [r] registered, [h] holding. *)
Definition word (r h : Z) : Z := 2 * r + h.

(** What a step does to the counts and to the wakeups, [k] before and [k']
    after.  A step after which the lock is free either leaves an active thread
    or a ready object, or nobody registered, or does not matter. *)
Definition accounts (r h : Z) (k : K) (l : pc) (s' : Z * K) (l' : pc) : Prop :=
  let r' := r - Z.b2z (registered l) + Z.b2z (registered l') in
  let h' := h - Z.b2z (holds l) + Z.b2z (holds l') in
  s'.1 = word r' h' /\ (h' = 0 \/ h' = 1) /\
  (h' = 0 -> active l' = true \/ k_ready s'.2 = true \/ r' = 0 \/
     (h = 0 /\ s'.2 = k /\ active l = false /\ (passive l' = true -> passive l = true))).

Context (r h : Z) (k : K).
Hypothesis Hr : 0 <= r < 2 ^ 31 - 2.
Hypothesis Hh : h = 0 \/ h = 1.

Lemma word_free : is_free (word r h) = (h =? 0).
Proof.
  rewrite is_free_mod. unfold word. destruct Hh as [-> | ->].
  - by replace (2 * r + 0) with (r * 2) by lia; rewrite Z.mod_mul.
  - replace ((2 * r + 1) mod 2) with 1; [done|]. Z.div_mod_to_equations; lia.
Qed.

(** A step that keeps the word and the roles of the thread. *)
Lemma accounts_local l l' :
  registered l' = registered l -> holds l' = holds l ->
  (h = 0 -> holds l = false -> active l' = true \/ (active l = false /\ (passive l' = true -> passive l = true))) ->
  (holds l = true -> h = 1) ->
  accounts r h k l (word r h, k) l'.
Proof.
  intros E1 E2 Ha Hl. unfold accounts. rewrite E1, E2. simpl. split_and!.
  - f_equal; lia.
  - lia.
  - intros H0. assert (h = 0) as H0' by lia.
    assert (holds l = false) as Hf by (destruct (holds l); [specialize (Hl eq_refl); lia|done]).
    destruct (Ha H0' Hf) as [?|[??]]; auto 10.
Qed.

(** A CAS that takes the free lock; [d] drops the registration or not. *)
Lemma accounts_take l l' d :
  h = 0 -> holds l = false -> holds l' = true ->
  d = word (r - Z.b2z (registered l) + Z.b2z (registered l')) 1 ->
  accounts r h k l (d, k) l'.
Proof. intros Hh0 H1 H2 Hd. unfold accounts. rewrite H1, H2, Hh0. simpl. split_and!; (done || lia || auto). Qed.

Lemma take_registered s : is_free s = true -> s = word r h -> 1 <= r -> h = 0 /\ Z.lor (u32 (s - 2)) 1 = word (r - 1) 1.
Proof.
  intros Hf -> Hr1. rewrite word_free in Hf. bools. subst h. split; [done|].
  rewrite lor_one, u32_small by (unfold word; lia). unfold word.
  replace (2 * r + 0 - 2) with ((r - 1) * 2) by lia. rewrite Z.mod_mul by lia. lia.
Qed.

Lemma take_plain s : is_free s = true -> s = word r h -> h = 0 /\ Z.lor s 1 = word r 1.
Proof.
  intros Hf ->. rewrite word_free in Hf. bools. subst h. split; [done|].
  rewrite lor_one. unfold word. replace (2 * r + 0) with (r * 2) by lia. rewrite Z.mod_mul by lia. lia.
Qed.

#[local] Ltac local_done :=
  apply accounts_local; try done; intros; simpl; try done; right; split; done.

Lemma lock_accounts sp v' l' :
  lock sp (word r h) = (v', l') -> accounts r h k Lock (v', k) l'.
Proof.
  unfold lock. destruct (cas sp 0 1 (word r h)) as [[v1 ok] s1] eqn:E.
  apply word_cas_cases in E as [(-> & Hv & ->)|(-> & -> & ->)]; intros [= <- <-].
  - unfold word in Hv. apply accounts_take; try done; [lia|]. unfold word. simpl. lia.
  - local_done.
Qed.

Lemma for_cas_accounts sp v' l' :
  for_cas sp (word r h) = (v', l') -> accounts r h k ForCas (v', k) l'.
Proof.
  unfold for_cas. destruct (cas sp 0 1 (word r h)) as [[v1 ok] s1] eqn:E.
  apply word_cas_cases in E as [(-> & Hv & ->)|(-> & -> & ->)]; intros [= <- <-].
  - unfold word in Hv. apply accounts_take; try done; [lia|]. unfold word. simpl. lia.
  - local_done.
Qed.

Lemma spin_accounts sp u s b v' l' :
  spin sp u (word r h) s b = (v', l') -> accounts r h k (Spin u s b) (v', k) l'.
Proof.
  unfold spin, spin_functor. intros Hs. destruct (is_free s) eqn:Ef.
  - destruct (cas sp s (Z.lor s 1) (word r h)) as [[v1 ok] s1] eqn:E.
    apply word_cas_cases in E as [(-> & Hv & ->)|(-> & -> & ->)].
    + rewrite backoff_turn_success in Hs. simplify_eq.
      destruct (take_plain _ Ef eq_refl) as [Hz Hd]. rewrite Hd. apply accounts_take; try done. simpl. unfold word. lia.
    + destruct (backoff_turn retry_without_backoff b) as [[]|b'] eqn:Eb; simplify_eq;
        try (by apply backoff_turn_true in Eb); local_done.
  - destruct (backoff_turn retry b) as [[]|b'] eqn:Eb; simplify_eq;
      try (by apply backoff_turn_true in Eb); local_done.
Qed.

Lemma loop_accounts sp u s v' l' :
  1 <= r -> loop sp u (word r h) s = (v', l') -> accounts r h k (Loop u s) (v', k) l'.
Proof.
  intros H1. unfold loop. destruct (is_free s) eqn:Ef.
  - destruct (cas sp s (Z.lor (u32 (s - 2)) 1) (word r h)) as [[v1 ok] s1] eqn:E.
    apply word_cas_cases in E as [(-> & Hv & ->)|(-> & -> & ->)]; intros [= <- <-].
    + destruct (take_registered s Ef) as [Hz Hd]; [done|done|]. rewrite Hd. apply accounts_take; try done.
      unfold word. simpl. lia.
    + apply accounts_local; try done. intros H0 _. left. simpl. rewrite word_free. by apply Z.eqb_eq.
  - intros [= <- <-]. apply accounts_local; try done. intros _ _. right. simpl. by rewrite Ef.
Qed.

Lemma try_accounts p sp c s v' l' :
  try_loop p sp c (word r h) s = (v', l') -> (registered (TryLoop c s) = true -> 1 <= r) ->
  accounts r h k (TryLoop c s) (v', k) l'.
Proof.
  unfold try_loop. intros Hs Hreg. destruct (is_free s) eqn:Ef.
  - destruct (cas sp s (Z.lor s 1) (word r h)) as [[v1 ok] s1] eqn:E.
    apply word_cas_cases in E as [(-> & Hv & ->)|(-> & -> & ->)]; simplify_eq.
    + destruct (take_plain _ Ef eq_refl) as [Hz Hd]. rewrite Hd.
      apply accounts_take; try done; [by destruct c|]. destruct c; simpl; unfold word; lia.
    + apply accounts_local; try done. intros H0 _.
      destruct c; simpl; rewrite ?word_free, ?H0; auto.
  - simplify_eq. apply accounts_local; try (by destruct c, p). intros _ _. right.
    destruct c, p; simpl; rewrite ?Ef; auto.
Qed.

Lemma unlock_accounts v' l' :
  h = 1 -> unlock (word r h) = (v', l') -> accounts r h k Unlock (v', k) l'.
Proof.
  intros H1 [= <- <-]. unfold accounts, word. rewrite H1.
  rewrite land_not_one by lia.
  replace ((2 * r + 1) mod 2) with 1 by (Z.div_mod_to_equations; lia).
  destruct (Z.ltb_spec 1 (2 * r + 1)); simpl; split_and!; lia || auto.
Qed.

Lemma add_accounts l l' :
  holds l = false -> holds l' = false -> registered l = false -> registered l' = true ->
  active l = false -> (is_free (word (r + 1) h) = true -> passive l' = true -> active l' = true) ->
  accounts r h k l (add_async_waiter (word r h), k) l'.
Proof.
  intros H1 H2 H3 H4 H5 H6. unfold accounts, add_async_waiter. rewrite H1, H2, H3, H4. simpl.
  split_and!; [unfold word; rewrite u32_small; lia|lia|]. intros H0.
  assert (is_free (word (r + 1) h) = true) as Hf.
  { rewrite is_free_mod. unfold word. replace (2 * (r + 1) + h) with ((r + 1) * 2) by lia. by rewrite Z.mod_mul. }
  destruct (passive l') eqn:Ep; [left; auto|].
  right; right; right. split_and!; (done || lia).
Qed.

Lemma remove_accounts ok :
  1 <= r -> (ok = true -> h = 1) ->
  accounts r h k (Remove ok) (remove_async_waiter (word r h), k) (if ok then Holding else Idle).
Proof.
  intros H1 Hok. unfold accounts, remove_async_waiter.
  destruct ok; simpl; (split_and!; [unfold word; rewrite u32_small; lia|lia|]); intros H0.
  - specialize (Hok eq_refl). lia.
  - right; right; right. split_and!; (done || lia).
Qed.

(** A step on the kernel object only. *)
Lemma accounts_kernel l k' l' :
  registered l' = registered l -> holds l' = holds l -> (holds l = true -> h = 1) ->
  (h = 0 -> holds l = false -> active l' = true \/ k_ready k' = true \/
     (k' = k /\ active l = false /\ (passive l' = true -> passive l = true))) ->
  accounts r h k l (word r h, k') l'.
Proof.
  intros E1 E2 Hl Ha. unfold accounts. rewrite E1, E2. simpl. split_and!; [f_equal; lia|lia|].
  intros H0. assert (h = 0) as H0' by lia.
  assert (holds l = false) as Hf by (destruct (holds l); [specialize (Hl eq_refl); lia|done]).
  destruct (Ha H0' Hf) as [?|[?|(?&?&?)]]; auto 10.
Qed.

Lemma wait_accounts p u ch k' l' :
  wait p u ch k = Some (k', l') -> accounts r h k (Wait u) (word r h, k') l'.
Proof.
  unfold wait. intros Hs.
  apply accounts_kernel; destruct ch, p, u as [| |[]]; simplify_eq; repeat case_match; simplify_eq/=; try done; auto 10.
Qed.

Lemma async_step p tid ch l v' k' l' :
  tstep p tid ch (word r h, k) l = Some ((v', k'), l') ->
  (registered l = true -> 1 <= r) -> (holds l = true -> h = 1) ->
  accounts r h k l (v', k') l'.
Proof.
  intros Hs Hreg Hhold. destruct ch as [m|sp|c|ex].
  { assert (pair (word r h, k) <$> enter p m l = Some ((v', k'), l')) as Hs' by (by destruct l).
    destruct (enter p m l) as [l1|] eqn:He; [|done]. injection Hs' as <- <- <-.
    apply accounts_local; try done; destruct l, m as [| |[]|sys| | | |]; simplify_eq/=; auto;
      destruct p; simpl; try done; intros; right; split; done. }
  all: destruct l; try done; simpl in Hs.
  - destruct (lock sp (word r h)) eqn:E; injection Hs as <- <- <-. by eapply lock_accounts.
  - injection Hs as <- <- <-. local_done.
  - destruct (spin sp u (word r h) s b) eqn:E; injection Hs as <- <- <-. by eapply spin_accounts.
  - destruct (for_cas sp (word r h)) eqn:E; injection Hs as <- <- <-. by eapply for_cas_accounts.
  - injection Hs as <- <- <-. apply add_accounts; try done. simpl. intros Hf Hp.
    unfold add_async_waiter in Hp. rewrite u32_small in Hp by (unfold word; lia).
    replace (word r h + 2) with (word (r + 1) h) in Hp by (unfold word; lia). by rewrite Hf in Hp.
  - destruct (loop sp u (word r h) s) eqn:E; injection Hs as <- <- <-. eapply loop_accounts; [by apply Hreg|done].
  - injection Hs as <- <- <-. by apply accounts_kernel; auto.
  - injection Hs as <- <- <-. apply accounts_local; try done. intros H0 _. left. simpl. rewrite word_free. by apply Z.eqb_eq.
  - injection Hs as <- <- <-. by apply accounts_kernel; auto.
  - injection Hs as <- <- <-. apply accounts_local; try (by destruct k0). intros H0 _.
    destruct k0; simpl; rewrite ?word_free, ?H0; auto.
  - destruct (try_loop p sp k0 (word r h) s) eqn:E; injection Hs as <- <- <-. by eapply try_accounts.
  - injection Hs as <- <- <-. by apply add_accounts.
  - injection Hs as <- <- <-. by apply accounts_kernel; auto.
  - injection Hs as <- <- <-. apply remove_accounts; [by apply Hreg|]. intros ->. by apply Hhold.
  - destruct (unlock (word r h)) eqn:E; injection Hs as <- <- <-. eapply unlock_accounts; [by apply Hhold|done].
  - injection Hs as <- <- <-. apply accounts_kernel; try done. intros _ _. right; left. apply k_notify_ready.
  - destruct (wait p u c k) as [[k1 l1]|] eqn:E; [|done]. injection Hs as <- <- <-. by eapply wait_accounts.
Qed.
End step.

(** ** The invariant *)

Lemma passive_registered l : passive l = true -> registered l = true.
Proof. by destruct l as [| | | | | | | | | | | |k|k s| |[]| | | |]; try destruct k. Qed.

Section properties.
Context {K : Type} `{Notifier K, !NotifierLaws K} (p : platform).

Record Inv (n : nat) (c : config (Z * K) pc) : Prop := {
  inv_threads : length (threads c) = n;
  inv_word : (shared c).1 = word (count registered (threads c)) (count holds (threads c));
  inv_holds : count holds (threads c) = 0 \/ count holds (threads c) = 1;
  inv_wake : count holds (threads c) = 0 -> 1 <= count passive (threads c) ->
    k_ready (shared c).2 = true \/ 1 <= count active (threads c)
}.

Lemma async_inv_step n c i ch l s' l' :
  Z.of_nat n < 2 ^ 31 - 2 -> Inv n c -> threads c !! i = Some l ->
  tstep p i ch (shared c) l = Some (s', l') -> Inv n (Config s' (<[i := l']> (threads c))).
Proof.
  intros Hn [Hlen Hw Hh Hwk] Hl Hs. destruct (shared c) as [v k], s' as [v' k']. cbn [fst snd] in *. subst v.
  pose proof (count_bounds registered (threads c)) as Hrb. rewrite Hlen in Hrb.
  apply async_step in Hs as (Hw' & Hh' & Ha); cycle 1.
  { lia. } { done. } { apply (count_pos _ _ _ _ Hl). }
  { intros Hx. pose proof (count_pos _ _ _ _ Hl Hx). lia. }
  cbn [fst snd] in *.
  constructor; cbn [shared threads fst snd]; rewrite ?(count_insert _ _ _ _ _ Hl).
  - by rewrite length_insert.
  - done.
  - done.
  - intros H0 Hp. destruct (Ha H0) as [Hx|[Hx|[Hx|(Hh0 & -> & Hx & Hpp)]]].
    + right. rewrite <- (count_insert _ _ _ _ _ Hl). eapply count_pos; [|exact Hx].
      apply list_lookup_insert_eq. by apply lookup_lt_Some in Hl.
    + by left.
    + pose proof (count_le passive registered (<[i:=l']> (threads c)) passive_registered) as Hle.
      rewrite !(count_insert _ _ _ _ _ Hl) in Hle. lia.
    + destruct (Hwk Hh0) as [?|?]; [|by left|].
      * destruct (passive l'); [rewrite Hpp in Hp by done|]; destruct (passive l); simpl in *; lia.
      * right. rewrite Hx. destruct (active l'); simpl; lia.
Qed.

Lemma async_inv_reachable n c : Z.of_nat n < 2 ^ 31 - 2 -> reachable (tstep p) (init n) c -> Inv n c.
Proof.
  intros Hn. apply invariant_reachable.
  - assert (forall q : pc -> bool, q Idle = false -> count q (replicate n Idle) = 0) as H0.
    { intros q Hq. apply count_all_false. by intros l (j & [-> _]%lookup_replicate)%list_elem_of_lookup. }
    constructor; cbn [shared threads init]; rewrite ?H0 by done; try done; auto.
    by rewrite length_replicate.
  - intros. by eapply async_inv_step.
Qed.

(** ** Properties *)

(** Mutual exclusion of [eventfd_mutex<with_backoff>] and
    [kqueue_mutex<with_backoff>], for any behaviour of the kernel object: at most
    one thread or event-loop client holds the mutex, and the word is exactly
    twice the registered waiters plus the lock bit, so that no registration is
    leaked by an acquisition, a time-out, a cancelled guard or a failed attempt. *)
Theorem async_mutex_exclusion n c :
  Z.of_nat n < 2 ^ 31 - 2 -> reachable (tstep p) (init n) c ->
  count holds (threads c) <= 1 /\
  (shared c).1 = 2 * count registered (threads c) + count holds (threads c).
Proof.
  intros Hn HI%async_inv_reachable; [|done]. destruct (inv_holds _ _ HI); rewrite (inv_word _ _ HI); split; done || lia.
Qed.

(** C38: no lost wakeup in the fast mutexes of eventfd_mutex.hpp and kqueue_mutex.hpp:
    when the mutex is free while a thread sleeps in the kernel, or will go to sleep
    on the word it has seen, or an event-loop client waits for the descriptor that
    has tried to lock since it registered, the kernel object is ready, or some
    thread is about to notify it or to look at the word again.  (For fewer than
    [2^31 - 2] threads.  Of a client that has not tried since it registered it does
    not hold: [AsyncSystem.system_late_registration].) *)
Theorem async_mutex_no_lost_wakeup n c i l :
  Z.of_nat n < 2 ^ 31 - 2 -> reachable (tstep p) (init n) c ->
  is_free (shared c).1 = true -> threads c !! i = Some l -> passive l = true ->
  k_ready (shared c).2 = true \/ exists j lj, threads c !! j = Some lj /\ active lj = true.
Proof.
  intros Hn HI%async_inv_reachable Hf Hl Hp; [|done].
  pose proof (count_bounds registered (threads c)) as Hb. rewrite (inv_threads _ _ HI) in Hb.
  pose proof (inv_holds _ _ HI). rewrite (inv_word _ _ HI), word_free in Hf by (done || lia). bools.
  destruct (inv_wake _ _ HI Hf) as [?|Ha]; [by eapply count_pos|by left|right].
  apply count_witness. lia.
Qed.

(** A notified waiter takes the mutex: when the mutex is free and the
    object ready, a thread inside any of the blocking waits, running alone, holds
    the mutex after at most four steps. *)
Theorem async_mutex_notified_acquires i u v k :
  is_free v = true -> k_ready k = true ->
  reaches_alone (tstep p) benign (fun l => holds l = true) i 4 (v, k) (Wait u).
Proof.
  intros Hf Hr.
  assert (Hloop : forall k', reaches_alone (tstep p) benign (fun l => holds l = true) i 1 (v, k') (Loop u v)).
  { intros k'. eapply (reaches_step _ _ _ _ _ (Act false)); [|by left|].
    - simpl. unfold loop, cas. rewrite Hf, Z.eqb_refl. reflexivity.
    - by apply reaches_now. }
  assert (Hload : forall k', reaches_alone (tstep p) benign (fun l => holds l = true) i 2 (v, k') (Load u)).
  { intros k'. eapply (reaches_step _ _ _ _ _ (Act false)); [done|by left|apply Hloop]. }
  assert (Hcons : forall k', reaches_alone (tstep p) benign (fun l => holds l = true) i 3 (v, k') (Consume u)).
  { intros k'. eapply (reaches_step _ _ _ _ _ (Act false)); [done|by left|apply Hload]. }
  assert (Htry : forall k', reaches_alone (tstep p) benign (fun l => holds l = true) i 2 (v, k') (TryLoad LastTry)).
  { intros k'. eapply (reaches_step _ _ _ _ _ (Act false)); [done|by left|].
    eapply (reaches_step _ _ _ _ _ (Act false)); [|by left|].
    - simpl. unfold try_loop, cas. rewrite Hf, Z.eqb_refl. reflexivity.
    - by apply reaches_now. }
  assert (Hgo : forall k' l', (if p then (k, Consume u) else
      (k_consume k, if mismatch p u then TryLoad LastTry
                    else match u with Forever => Load u | _ => Consume u end)) = (k', l') ->
    tstep p i (Kernel Go) (v, k) (Wait u) = Some ((v, k'), l')).
  { intros k' l' He. simpl. rewrite Hr. destruct p; injection He as <- <-; reflexivity. }
  destruct p; [|destruct u as [| |[]]];
    (eapply (reaches_step _ _ _ _ _ (Kernel Go)); [by apply Hgo|right; by left|]);
    (eapply reaches_more; [|apply Hcons || apply Hload || apply Htry]; lia).
Qed.
End properties.

(** Thread 0 holds the mutex, thread 1 waits for it with a [system_clock]
    deadline; thread 0 unlocks, thread 2 takes the mutex, thread 1 wakes up. *)
Definition early_sched : list (nat * choice method) :=
  [(0, Call MLock); (0, Act false);
   (1, Call (MTryLockUntil true)); (1, Act false); (1, Act false); (1, Act false); (1, Act false);
   (0, Call MUnlock); (0, Act false); (0, Act false);
   (2, Call MTryLock); (2, Act false); (2, Act false);
   (1, Kernel Go); (1, Act false); (1, Act false); (1, Act false)]%nat.

(** [kqueue_mutex<with_backoff>::try_lock_until()] with a [system_clock]
    deadline gives up before the deadline: it waits for event 1 while the mutex
    triggers event 2, so the first notification counts as a time-out.  Here no
    time-out occurs and thread 1 returns [false]; on eventfd the same notification
    sends the waiter back to its wait. *)
Theorem kqueue_try_lock_until_gives_up :
  (exists c, exec (tstep (H := kqueue_event) Kqueue) early_sched (init (H := kqueue_event) 3) = Some c /\
     threads c = [Idle; Idle; Holding]) /\
  (forall k k' l', k_ready k = true -> wait (H := eventfd_counter) Eventfd (Until true) Go k = Some (k', l') ->
     l' = Consume (Until true)).
Proof.
  split.
  - eexists. split; [vm_compute; reflexivity|reflexivity].
  - unfold wait. intros k k' l' -> [= _ <-]. done.
Qed.

(** What the asynchronous operations do: [try_lock()] fails, then the guard
    registers, then they wait for the descriptor.  Thread 0 unlocks in between. *)
Definition late_sched : list (nat * choice method) :=
  [(0, Call MLock); (0, Act false); (1, Call MTryLock); (1, Act false); (1, Act false);
   (0, Call MUnlock); (0, Act false); (1, Call MGuard); (1, Act false)]%nat.

(** An event-loop client that registers after a failed [try_lock()] and does not
    try again before it waits can wait for ever: the mutex is free, it is the only
    one registered, nothing is under way, and the kernel object is not ready.  So
    [Guard true] cannot be among the waiters that are not forgotten. *)
Theorem late_registration_loses_wakeup :
  (exists c, reachable (tstep (H := eventfd_counter) Eventfd) (init (H := eventfd_counter) 2) c /\
     threads c = [Idle; Guard true] /\ is_free (shared c).1 = true /\ k_ready (shared c).2 = false) /\
  (exists c, reachable (tstep (H := kqueue_event) Kqueue) (init (H := kqueue_event) 2) c /\
     threads c = [Idle; Guard true] /\ is_free (shared c).1 = true /\ @k_ready bool kqueue_event (shared c).2 = false).
Proof. split; eexists; (split; [apply (exec_reachable _ late_sched); by vm_compute|done]). Qed.

(** ** Witnesses *)

Definition handoff_sched : list (nat * choice method) :=
  [(0, Call MLock); (0, Act false); (1, Call (MTryLockFor false)); (1, Act false); (1, Act false);
   (0, Call MUnlock); (0, Act false); (0, Act false)]%nat.

(** Thread 1 sleeps, the mutex was unlocked and the eventfd written. *)
Definition handoff_config : config (Z * nat) pc := Config (2, 1%nat) [Idle; Wait For].

Lemma handoff_reachable : reachable (tstep Eventfd) (init 2) handoff_config.
Proof. apply (exec_reachable _ handoff_sched). vm_compute. reflexivity. Qed.

Lemma async_mutex_exclusion_witness :
  count holds (threads handoff_config) <= 1 /\
  2 = 2 * count registered (threads handoff_config) + count holds (threads handoff_config).
Proof. apply (async_mutex_exclusion Eventfd 2 handoff_config); [lia|apply handoff_reachable]. Defined.

Lemma async_mutex_no_lost_wakeup_witness :
  k_ready (shared handoff_config).2 = true \/
  exists j lj, threads handoff_config !! j = Some lj /\ active lj = true.
Proof.
  apply (async_mutex_no_lost_wakeup Eventfd 2 handoff_config 1 (Wait For)); try done. apply handoff_reachable.
Defined.

Lemma async_mutex_notified_acquires_witness :
  reaches_alone (tstep Eventfd) benign (fun l => holds l = true) 1 4 (2, 1%nat) (Wait For).
Proof.
  by apply (async_mutex_notified_acquires Eventfd 1 For 2 1%nat).
Defined.

Lemma kqueue_try_lock_until_gives_up_witness : Consume (Until true) = Consume (Until true).
Proof. by apply (proj2 kqueue_try_lock_until_gives_up 1%nat 1%nat). Defined.
