(* ===== verification/AtomicWait.v ===== *)
(** * Waiting on an atomic: the sequential view

    source/nova/sync/futex/atomic_wait.cpp on its four platforms.  [Futex.v] has
    the interleaved view of the Linux implementation that the parking primitives
    use; this file runs each function from its call to its return in a world that
    answers its loads, clock readings and system calls.

    The world is a parameter: [W] is its state, and every question to it returns
    the state after it.  Loops take fuel. *)
From S2P Require Import Prelude.
#[local] Open Scope Z_scope.

(** ** Time *)

Record timespec := Timespec { tv_sec : Z; tv_nsec : Z }.

Definition timespec_ns (t : timespec) : Z := tv_sec t * 1000000000 + tv_nsec t.

(** What the kernel accepts. *)
Definition normalised (t : timespec) : Prop := 0 <= tv_sec t /\ 0 <= tv_nsec t < 1000000000.

(** [/] and [%] of C++ truncate towards zero. *)
Definition to_abs_timespec (ns : Z) : timespec := Timespec (Z.quot ns 1000000000) (Z.rem ns 1000000000).

(** [clock_now_plus], [now] being the clock's reading. *)
Definition clock_now_plus (now : timespec) (ns : Z) : timespec :=
  let s := tv_sec now + Z.quot ns 1000000000 in
  let n := tv_nsec now + Z.rem ns 1000000000 in
  if 1000000000 <=? n then Timespec (s + 1) (n - 1000000000) else Timespec s n.

Lemma to_abs_timespec_ns ns : timespec_ns (to_abs_timespec ns) = ns.
Proof. unfold timespec_ns, to_abs_timespec; simpl. pose proof (Z.quot_rem' ns 1000000000). lia. Qed.

Lemma to_abs_timespec_normalised ns : 0 <= ns -> normalised (to_abs_timespec ns).
Proof.
  intros H. unfold normalised, to_abs_timespec; simpl. split.
  - apply Z.quot_pos; lia.
  - apply Z.rem_bound_pos; lia.
Qed.

(** C28: Deadlines are exact and acceptable to the kernel: [clock_now_plus] of a
    normalised clock reading and a non-negative duration is normalised and is that
    many nanoseconds later, the carry of the nanoseconds included. *)
Theorem clock_now_plus_exact now ns :
  normalised now -> 0 <= ns ->
  normalised (clock_now_plus now ns) /\
  timespec_ns (clock_now_plus now ns) = timespec_ns now + ns.
Proof.
  unfold normalised, clock_now_plus, timespec_ns. intros [Hs Hn] H.
  pose proof (Z.quot_rem' ns 1000000000). pose proof (Z.rem_bound_pos ns 1000000000 ltac:(lia) ltac:(lia)).
  pose proof (Z.quot_pos ns 1000000000 ltac:(lia) ltac:(lia)).
  destruct (Z.leb_spec 1000000000 (tv_nsec now + Z.rem ns 1000000000)); simpl; lia.
Qed.

Lemma clock_now_plus_exact_witness :
  normalised (clock_now_plus (Timespec 5 999999999) 1500000001) /\
  timespec_ns (clock_now_plus (Timespec 5 999999999) 1500000001) = timespec_ns (Timespec 5 999999999) + 1500000001.
Proof. apply clock_now_plus_exact; [split; simpl; lia|lia]. Defined.

Inductive clock_id := CLOCK_MONOTONIC | CLOCK_REALTIME.

(** [b] is the answer of the load that led to the world [w']: whether it saw a
    value other than [old]. *)
Definition reported {W} (load : W -> W * Z) (old : Z) (w' : W) (b : bool) : Prop :=
  exists w0 v, load w0 = (w', v) /\ b = negb (v =? old).

(** ** Linux *)
Module Linux.

(** What [futex_syscall] returns: 0, or -1 with an [errno]. *)
Inductive futex_result := Woken | EAGAIN | EINTR | ETIMEDOUT | OtherError.

Section linux.
Context {W : Type}.
Context (load : W -> W * Z).
Context (futex_syscall : Z -> option (clock_id * timespec) -> W -> W * futex_result).
Context (clock_gettime : clock_id -> W -> W * timespec).
Context (pause : Z -> W -> W) (yield : W -> W).

(** [acquire_and_check] *)
Definition acquire_and_check (old : Z) (w : W) : W * bool :=
  let '(w', v) := load w in (w', negb (v =? old)).

(** Phase 1 of [atomic_wait]: [n] iterations left, [pause_count] doubling. *)
Fixpoint active_spins (n : nat) (pause_count old : Z) (w : W) : W * bool :=
  match n with
  | O => (w, false)
  | S n' =>
      let '(w1, v) := load w in
      if negb (v =? old) then (w1, true)
      else active_spins n' (pause_count * 2) old (pause pause_count w1)
  end.

(** Phase 2. *)
Fixpoint yield_spins (n : nat) (old : Z) (w : W) : W * bool :=
  match n with
  | O => (w, false)
  | S n' =>
      let '(w1, v) := load w in
      if negb (v =? old) then (w1, true) else yield_spins n' old (yield w1)
  end.

(** The [while ( true )] loop of the four functions; [deadline] is [None] for
    [atomic_wait], whose result is dropped. *)
Fixpoint wait_loop (fuel : nat) (old : Z) (deadline : option (clock_id * timespec)) (w : W) : option (W * bool) :=
  match fuel with
  | O => None
  | S fuel' =>
      let '(w1, rc) := futex_syscall old deadline w in
      match rc with
      | Woken | EAGAIN =>
          let '(w2, changed) := acquire_and_check old w1 in
          if changed then Some (w2, true) else wait_loop fuel' old deadline w2
      | ETIMEDOUT =>
          match deadline with
          | None => Some (w1, false)
          | Some _ => let '(w2, v) := load w1 in Some (w2, negb (v =? old))
          end
      | EINTR => wait_loop fuel' old deadline w1
      | OtherError => Some (w1, false)
      end
  end.

Definition atomic_wait (fuel : nat) (old : Z) (w : W) : option W :=
  let '(w1, changed) := active_spins 10 1 old w in
  if changed then Some w1
  else
    let '(w2, changed) := yield_spins 4 old w1 in
    if changed then Some w2 else fst <$> wait_loop fuel old None w2.

(** The load before the loop of the timed functions. *)
Definition checked_wait (fuel : nat) (old : Z) (clk : clock_id) (abs_ts : timespec) (w : W) : option (W * bool) :=
  let '(w1, v) := load w in
  if negb (v =? old) then Some (w1, true) else wait_loop fuel old (Some (clk, abs_ts)) w1.

Definition atomic_wait_for (fuel : nat) (old rel : Z) (w : W) : option (W * bool) :=
  if rel <=? 0 then let '(w1, v) := load w in Some (w1, negb (v =? old))
  else
    let '(w1, now) := clock_gettime CLOCK_MONOTONIC w in
    checked_wait fuel old CLOCK_MONOTONIC (clock_now_plus now rel) w1.

(** The [steady_clock] and the [system_clock] overload; [deadline] in nanoseconds
    since the clock's epoch. *)
Definition atomic_wait_until_steady (fuel : nat) (old deadline : Z) (w : W) : option (W * bool) :=
  checked_wait fuel old CLOCK_MONOTONIC (to_abs_timespec deadline) w.

Definition atomic_wait_until_system (fuel : nat) (old deadline : Z) (w : W) : option (W * bool) :=
  checked_wait fuel old CLOCK_REALTIME (to_abs_timespec deadline) w.

(** The documented errors of [FUTEX_WAIT] on a valid, aligned word. *)
Hypothesis no_other_error : forall old deadline w, (futex_syscall old deadline w).2 <> OtherError.

(** Every wakeup, interruption or [EAGAIN] uses up some of the world's patience. *)
Context (patience : W -> nat).
Hypothesis load_patience : forall w, (patience (load w).1 <= patience w)%nat.
Hypothesis clock_patience : forall c w, (patience (clock_gettime c w).1 <= patience w)%nat.
Hypothesis futex_patience : forall old deadline w,
  (futex_syscall old deadline w).2 = ETIMEDOUT \/
  (patience (futex_syscall old deadline w).1 < patience w)%nat.

Lemma wait_loop_result fuel old clk ts w w' b :
  wait_loop fuel old (Some (clk, ts)) w = Some (w', b) -> reported load old w' b.
Proof.
  revert w. induction fuel as [|fuel IH]; intros w; simpl; [done|].
  pose proof (no_other_error old (Some (clk, ts)) w) as Hne.
  destruct (futex_syscall old (Some (clk, ts)) w) as [w1 []]; simpl in *; try done; unfold acquire_and_check.
  all: try apply IH.
  all: destruct (load w1) as [w2 v] eqn:E.
  3: { intros [= <- <-]. by exists w1, v. }
  all: destruct (negb (v =? old)) eqn:En; [|apply IH]; intros [= <- <-]; by exists w1, v.
Qed.

Lemma wait_loop_returns fuel old clk ts w :
  (patience w < fuel)%nat -> exists x, wait_loop fuel old (Some (clk, ts)) w = Some x.
Proof.
  revert w. induction fuel as [|fuel IH]; intros w Hf; simpl; [lia|].
  pose proof (no_other_error old (Some (clk, ts)) w) as Hne.
  pose proof (futex_patience old (Some (clk, ts)) w) as Hp.
  destruct (futex_syscall old (Some (clk, ts)) w) as [w1 []]; simpl in *; try done; unfold acquire_and_check.
  1,2: pose proof (load_patience w1) as Hl; destruct (load w1) as [w2 v]; simpl in *;
    destruct (negb (v =? old)); [eauto|]; apply IH; destruct Hp as [?|?]; [done|lia].
  - apply IH. destruct Hp as [?|?]; [done|lia].
  - destruct (load w1) as [w2 v]. eauto.
Qed.

(** [atomic_wait_for] on Linux returns, and tells the truth: in a world
    that lets it be woken, interrupted or refused only finitely often, it returns,
    and its result is [true] exactly when its last load of the atomic differed from
    [old] - a wakeup, a time-out and a deadline in the past alike. *)
Theorem linux_atomic_wait_for_total fuel old rel w :
  (patience w < fuel)%nat ->
  exists w' b, atomic_wait_for fuel old rel w = Some (w', b) /\ reported load old w' b.
Proof.
  intros Hf. unfold atomic_wait_for, checked_wait. destruct (rel <=? 0).
  - destruct (load w) as [w1 v] eqn:E. eexists _, _. split; [done|]. by exists w, v.
  - pose proof (clock_patience CLOCK_MONOTONIC w) as Hc.
    destruct (clock_gettime CLOCK_MONOTONIC w) as [w1 now]; simpl in *.
    pose proof (load_patience w1) as Hl. destruct (load w1) as [w2 v] eqn:E; simpl in *.
    destruct (negb (v =? old)) eqn:En.
    + eexists _, _. split; [done|]. by exists w1, v.
    + destruct (wait_loop_returns fuel old CLOCK_MONOTONIC (clock_now_plus now rel) w2) as [[w3 b] H]; [lia|].
      rewrite H. eexists _, _. split; [done|]. by eapply wait_loop_result.
Qed.

(** Both overloads of [atomic_wait_until] on Linux return and tell the
    truth: in a world that lets them be woken, interrupted or refused only finitely
    often, they return [true] exactly when their last load of the atomic differed
    from [old]. *)
Theorem linux_atomic_wait_until_total fuel old deadline w :
  (patience w < fuel)%nat ->
  (exists w' b, atomic_wait_until_steady fuel old deadline w = Some (w', b) /\ reported load old w' b) /\
  (exists w' b, atomic_wait_until_system fuel old deadline w = Some (w', b) /\ reported load old w' b).
Proof.
  intros Hf.
  assert (forall clk ts, exists w' b, checked_wait fuel old clk ts w = Some (w', b) /\ reported load old w' b) as H.
  { intros clk ts. unfold checked_wait. pose proof (load_patience w) as Hl.
    destruct (load w) as [w1 v] eqn:E; simpl in *. destruct (negb (v =? old)) eqn:En.
    - eexists _, _. split; [done|]. by exists w, v.
    - destruct (wait_loop_returns fuel old clk ts w1) as [[w3 b] H]; [lia|].
      rewrite H. eexists _, _. split; [done|]. by eapply wait_loop_result. }
  split; apply H.
Qed.
End linux.

(** A world for the witnesses: the value changes from 0 to 1 after [n] more
    answers of the futex; it is woken, interrupted, and then timed out. *)
Definition demo_load (w : nat) : nat * Z := (w, if (w =? 0)%nat then 1 else 0).
Definition demo_futex (old : Z) (d : option (clock_id * timespec)) (w : nat) : nat * futex_result :=
  match w with O => (O, ETIMEDOUT) | S w' => (w', if Nat.even w then Woken else EINTR) end.
Definition demo_clock (c : clock_id) (w : nat) : nat * timespec := (w, Timespec 0 0).

Lemma demo_no_error old d w : (demo_futex old d w).2 <> OtherError.
Proof. destruct w as [|w]; [done|]. unfold demo_futex. by destruct (Nat.even (S w)). Qed.

Lemma demo_patience old d w : (demo_futex old d w).2 = ETIMEDOUT \/ ((demo_futex old d w).1 < w)%nat.
Proof. destruct w; simpl; [by left|right; lia]. Qed.

Lemma linux_atomic_wait_for_total_witness :
  exists w' b, atomic_wait_for demo_load demo_futex demo_clock 5 0 1000 4%nat = Some (w', b) /\
    reported demo_load 0 w' b.
Proof.
  apply (linux_atomic_wait_for_total demo_load demo_futex demo_clock demo_no_error id);
    [simpl; lia|simpl; lia|apply demo_patience|unfold id; lia].
Defined.

Lemma linux_atomic_wait_until_total_witness :
  (exists w' b, atomic_wait_until_steady demo_load demo_futex 5 0 1000 4%nat = Some (w', b) /\
     reported demo_load 0 w' b) /\
  (exists w' b, atomic_wait_until_system demo_load demo_futex 5 0 1000 4%nat = Some (w', b) /\
     reported demo_load 0 w' b).
Proof.
  apply (linux_atomic_wait_until_total demo_load demo_futex demo_no_error id);
    [simpl; lia|apply demo_patience|unfold id; lia].
Defined.

End Linux.

(** ** Windows *)
Module Win32.

Definition INFINITE : Z := 2 ^ 32 - 1.

(** [timeout_ms] of [atomic_wait_for]. *)
Definition timeout_ms (rel : Z) : Z :=
  let ms := Z.quot rel 1000000 in
  let ms := if (ms =? 0) && (0 <? rel) then 1 else ms in
  Z.min ms (INFINITE - 1).

(** The time-out of [WaitOnAddress]: for every positive duration it is at
    least one millisecond and never [INFINITE], and it is the duration rounded
    towards zero except below a millisecond and above the 32-bit range. *)
Theorem win32_timeout_bounds rel :
  0 < rel ->
  1 <= timeout_ms rel < INFINITE /\
  (1000000 <= rel -> timeout_ms rel * 1000000 <= rel) /\
  (1000000 <= rel < (INFINITE - 1) * 1000000 -> rel < (timeout_ms rel + 1) * 1000000).
Proof.
  intros H. unfold timeout_ms, INFINITE.
  pose proof (Z.quot_rem' rel 1000000). pose proof (Z.rem_bound_pos rel 1000000 ltac:(lia) ltac:(lia)).
  pose proof (Z.quot_pos rel 1000000 ltac:(lia) ltac:(lia)).
  destruct (Z.ltb_spec 0 rel); [|lia].
  destruct (Z.eqb_spec (Z.quot rel 1000000) 0); simpl; lia.
Qed.

Lemma win32_timeout_bounds_witness :
  1 <= timeout_ms 1 < INFINITE /\
  (1000000 <= 1 -> timeout_ms 1 * 1000000 <= 1) /\
  (1000000 <= 1 < (INFINITE - 1) * 1000000 -> 1 < (timeout_ms 1 + 1) * 1000000).
Proof. apply win32_timeout_bounds. lia. Defined.

Section win32.
Context {W : Type}.
Context (load : W -> W * Z).
Context (WaitOnAddress : Z -> Z -> W -> W).
Context (now : clock_id -> W -> W * Z).

Fixpoint wait_loop (fuel : nat) (old : Z) (w : W) : option W :=
  match fuel with
  | O => None
  | S fuel' =>
      let '(w', v) := load (WaitOnAddress old INFINITE w) in
      if negb (v =? old) then Some w' else wait_loop fuel' old w'
  end.

Definition atomic_wait (fuel : nat) (old : Z) (w : W) : option W :=
  let '(w', v) := load w in
  if negb (v =? old) then Some w' else wait_loop fuel old w'.

Definition atomic_wait_for (old rel : Z) (w : W) : W * bool :=
  if rel <=? 0 then let '(w1, v) := load w in (w1, negb (v =? old))
  else
    let '(w1, v) := load w in
    if negb (v =? old) then (w1, true)
    else let '(w2, v) := load (WaitOnAddress old (timeout_ms rel) w1) in (w2, negb (v =? old)).

Fixpoint atomic_wait_until_steady (fuel : nat) (old deadline : Z) (w : W) : option (W * bool) :=
  match fuel with
  | O => None
  | S fuel' =>
      let '(w1, t) := now CLOCK_MONOTONIC w in
      if deadline - t <=? 0 then let '(w2, v) := load w1 in Some (w2, negb (v =? old))
      else
        let '(w2, woken) := atomic_wait_for old (deadline - t) w1 in
        if woken then Some (w2, true)
        else
          let '(w3, v) := load w2 in
          if negb (v =? old) then Some (w3, true)
          else
            let '(w4, t') := now CLOCK_MONOTONIC w3 in
            if deadline <=? t' then Some (w4, false) else atomic_wait_until_steady fuel' old deadline w4
  end.

Definition atomic_wait_until_system (old deadline : Z) (w : W) : W * bool :=
  let '(w1, t) := now CLOCK_REALTIME w in atomic_wait_for old (deadline - t) w1.

(** The clock had reached the deadline when the function gave up. *)
Definition expired (old deadline : Z) (w' : W) : Prop :=
  exists w0 w1 t, now CLOCK_MONOTONIC w0 = (w1, t) /\ deadline <= t /\ (w' = w1 \/ load w1 = (w', old)).

Lemma wait_for_reported old rel w : reported load old (atomic_wait_for old rel w).1 (atomic_wait_for old rel w).2.
Proof.
  unfold atomic_wait_for, reported. destruct (rel <=? 0).
  - destruct (load w) as [w1 v] eqn:E. eauto.
  - destruct (load w) as [w1 v] eqn:E. destruct (negb (v =? old)) eqn:En; [by exists w, v|].
    destruct (load (WaitOnAddress old (timeout_ms rel) w1)) as [w2 v2] eqn:E2. simpl. eauto.
Qed.

(** [atomic_wait_until] with a [steady_clock] deadline on Windows gives up
    only after the deadline: it returns [true] only after a load that saw the value
    changed, and [false] only after a clock reading at or past the deadline,
    whatever spurious wakeups [WaitOnAddress] has. *)
Theorem win32_wait_until_not_early fuel old deadline w w' b :
  atomic_wait_until_steady fuel old deadline w = Some (w', b) ->
  (b = true -> reported load old w' true) /\ (b = false -> expired old deadline w').
Proof.
  revert w. induction fuel as [|fuel IH]; intros w; [done|]. cbn [atomic_wait_until_steady].
  destruct (now CLOCK_MONOTONIC w) as [w1 t] eqn:Et. destruct (Z.leb_spec (deadline - t) 0).
  - destruct (load w1) as [w2 v] eqn:El. intros [= <- <-]. split; intros Hb.
    + exists w1, v. by rewrite Hb.
    + bools. subst v. exists w, w1, t. split_and!; [done|lia|by right].
  - pose proof (wait_for_reported old (deadline - t) w1) as Hr.
    destruct (atomic_wait_for old (deadline - t) w1) as [w2 []]; simpl in Hr; [by intros [= <- <-]|].
    destruct (load w2) as [w3 v] eqn:El. destruct (negb (v =? old)) eqn:En.
    + intros [= <- <-]. split; [|done]. intros _. by exists w2, v.
    + destruct (now CLOCK_MONOTONIC w3) as [w4 t'] eqn:Et'. destruct (Z.leb_spec deadline t'); [|apply IH].
      intros [= <- <-]. split; [done|]. intros _. exists w3, w4, t'. by split_and!; [|lia|left].
Qed.
End win32.

(** A world that is a clock: time passes only in [WaitOnAddress], which returns
    after one tick although the value, 0, did not change. *)
Definition spurious_load (w : Z) : Z * Z := (w, 0).
Definition spurious_wait (old timeout : Z) (w : Z) : Z := w + 1.
Definition spurious_now (c : clock_id) (w : Z) : Z * Z := (w, w).

Lemma win32_wait_until_not_early_witness :
  (false = true -> reported spurious_load 0 3 true) /\ (false = false -> expired spurious_load spurious_now 0 3 3).
Proof. by apply (win32_wait_until_not_early spurious_load spurious_wait spurious_now 5 0 3 0). Defined.

(** [atomic_wait_for], and [atomic_wait_until] with a [system_clock]
    deadline, report a spurious wakeup as a time-out on Windows: with a deadline 3
    ticks away and one spurious wakeup after one tick they return [false] at tick
    1, where the [steady_clock] overload waits until tick 3. *)
Theorem win32_system_deadline_gives_up :
  atomic_wait_until_system spurious_load spurious_wait spurious_now 0 3 0 = (1, false) /\
  atomic_wait_until_steady spurious_load spurious_wait spurious_now 5 0 3 0 = Some (3, false).
Proof. split; reflexivity. Qed.

End Win32.

(** ** Apple *)
Module Apple.
Section apple.
Context {W : Type}.
Context (load : W -> W * Z).
Context (os_sync_wait_on_address : Z -> option Z -> W -> W).
Context (now : clock_id -> W -> W * Z).

(** The value is passed as a [uint64_t], the time-out is [std::min] with
    [UINT64_MAX]. *)
Definition atomic_wait (old : Z) (w : W) : W :=
  let '(w1, v) := load w in
  if negb (v =? old) then w1 else os_sync_wait_on_address (u64 old) None w1.

Definition timeout_ns (rel : Z) : Z := Z.min (u64 rel) (2 ^ 64 - 1).

Definition atomic_wait_for (old rel : Z) (w : W) : W * bool :=
  if rel <=? 0 then let '(w1, v) := load w in (w1, negb (v =? old))
  else
    let '(w1, v) := load w in
    if negb (v =? old) then (w1, true)
    else
      let '(w2, v) := load (os_sync_wait_on_address (u64 old) (Some (timeout_ns rel)) w1) in
      (w2, negb (v =? old)).

Fixpoint until_loop (fuel : nat) (old deadline : Z) (w : W) : option (W * bool) :=
  match fuel with
  | O => None
  | S fuel' =>
      let '(w1, t) := now CLOCK_MONOTONIC w in
      if deadline - t <=? 0 then let '(w2, v) := load w1 in Some (w2, negb (v =? old))
      else
        let '(w2, v) := load (os_sync_wait_on_address (u64 old) (Some (timeout_ns (deadline - t))) w1) in
        if negb (v =? old) then Some (w2, true)
        else
          let '(w3, t') := now CLOCK_MONOTONIC w2 in
          if deadline <=? t' then Some (w3, false) else until_loop fuel' old deadline w3
  end.

Definition atomic_wait_until_steady (fuel : nat) (old deadline : Z) (w : W) : option (W * bool) :=
  let '(w1, v) := load w in
  if negb (v =? old) then Some (w1, true) else until_loop fuel old deadline w1.

(** [system_clock_to_steady] *)
Definition system_clock_to_steady (deadline : Z) (w : W) : W * Z :=
  let '(w1, system_now) := now CLOCK_REALTIME w in
  let '(w2, steady_now) := now CLOCK_MONOTONIC w1 in
  (w2, steady_now + (deadline - system_now)).

Definition atomic_wait_until_system (fuel : nat) (old deadline : Z) (w : W) : option (W * bool) :=
  let '(w1, v) := load w in
  if negb (v =? old) then Some (w1, true)
  else
    let '(w2, steady_deadline) := system_clock_to_steady deadline w1 in
    atomic_wait_until_steady fuel old steady_deadline w2.

Definition expired (old deadline : Z) (w' : W) : Prop :=
  exists w0 w1 t, now CLOCK_MONOTONIC w0 = (w1, t) /\ deadline <= t /\ (w' = w1 \/ load w1 = (w', old)).

Lemma until_loop_result fuel old deadline w w' b :
  until_loop fuel old deadline w = Some (w', b) ->
  (b = true -> reported load old w' true) /\ (b = false -> expired old deadline w').
Proof.
  revert w. induction fuel as [|fuel IH]; intros w; [done|]. cbn [until_loop].
  destruct (now CLOCK_MONOTONIC w) as [w1 t] eqn:Et. destruct (Z.leb_spec (deadline - t) 0).
  - destruct (load w1) as [w2 v] eqn:El. intros [= <- <-]. split; intros Hb.
    + exists w1, v. by rewrite Hb.
    + bools. subst v. exists w, w1, t. split_and!; [done|lia|by right].
  - destruct (load (os_sync_wait_on_address _ _ w1)) as [w2 v] eqn:El. destruct (negb (v =? old)) eqn:En.
    + intros [= <- <-]. split; [|done]. intros _. by eexists _, v.
    + destruct (now CLOCK_MONOTONIC w2) as [w4 t'] eqn:Et'. destruct (Z.leb_spec deadline t'); [|apply IH].
      intros [= <- <-]. split; [done|]. intros _. exists w2, w4, t'. by split_and!; [|lia|left].
Qed.

(** What is relied on: the monotonic clock is non-negative and goes forward; a
    wait ends early, which uses up some of the world's patience, or lasts for the
    time-out it was given. *)
Context (time : W -> Z) (patience : W -> nat).
Hypothesis now_time : forall w,
  time w <= time (now CLOCK_MONOTONIC w).1 /\ (now CLOCK_MONOTONIC w).2 = time (now CLOCK_MONOTONIC w).1.
Hypothesis now_patience : forall c w, (patience (now c w).1 <= patience w)%nat.
Hypothesis load_world : forall w, time w <= time (load w).1 /\ (patience (load w).1 <= patience w)%nat.
Hypothesis wait_world : forall old t w,
  let w' := os_sync_wait_on_address old (Some t) w in
  (patience w' < patience w)%nat \/ time w + t <= time w'.
Hypothesis time_nonneg : forall w, 0 <= time w.

Lemma timeout_ns_exact rel : 0 < rel < 2 ^ 64 -> timeout_ns rel = rel.
Proof. intros. unfold timeout_ns. rewrite u64_small; lia. Qed.

Lemma until_loop_returns fuel old deadline w :
  deadline < 2 ^ 63 -> (patience w < fuel)%nat -> is_Some (until_loop fuel old deadline w).
Proof.
  intros Hd. revert w. induction fuel as [|fuel IH]; intros w Hf; [lia|]. cbn [until_loop].
  destruct (now_time w) as [_ Ht]. pose proof (now_patience CLOCK_MONOTONIC w) as Hp.
  destruct (now CLOCK_MONOTONIC w) as [w1 t]; simpl in *. subst t.
  destruct (Z.leb_spec (deadline - time w1) 0); [destruct (load w1); by eexists|].
  pose proof (time_nonneg w1). rewrite timeout_ns_exact by lia.
  pose proof (wait_world (u64 old) (deadline - time w1) w1) as Hw. simpl in Hw.
  set (w2 := os_sync_wait_on_address _ _ w1) in *. destruct (load_world w2) as [Hl1 Hl2].
  destruct (load w2) as [w3 v]; simpl in *. destruct (negb (v =? old)); [by eexists|].
  destruct (now_time w3) as [Hn1 Hn2]. pose proof (now_patience CLOCK_MONOTONIC w3) as Hp3.
  destruct (now CLOCK_MONOTONIC w3) as [w4 t']; simpl in *. subst t'.
  destruct (Z.leb_spec deadline (time w4)); [by eexists|]. apply IH. destruct Hw; lia.
Qed.

Lemma until_steady_result fuel old deadline w :
  deadline < 2 ^ 63 -> (patience w < fuel)%nat ->
  exists w' b, atomic_wait_until_steady fuel old deadline w = Some (w', b) /\
    if b then reported load old w' true else expired old deadline w'.
Proof.
  intros Hd Hf. unfold atomic_wait_until_steady. destruct (load_world w) as [_ Hp].
  destruct (load w) as [w1 v] eqn:El; simpl in Hp. destruct (negb (v =? old)) eqn:En.
  - exists w1, true. split; [done|]. by exists w, v.
  - destruct (until_loop_returns fuel old deadline w1) as [[w2 b] Hu]; [done|lia|].
    destruct (until_loop_result _ _ _ _ _ _ Hu) as [Ht Hb]. exists w2, b. split; [done|]. destruct b; auto.
Qed.

(** On Apple platforms both overloads of [atomic_wait_until] return, after
    at most one wait more than the world interrupts: [true] only after a load that
    saw the value changed, and [false] only after the monotonic clock reached the
    deadline, a [system_clock] deadline being moved to the monotonic clock by the
    difference of the two clocks. *)
Theorem apple_wait_until_not_early fuel old deadline w :
  (patience w < fuel)%nat -> deadline < 2 ^ 63 ->
  (forall w0, (system_clock_to_steady deadline w0).2 < 2 ^ 63) ->
  (exists w' b, atomic_wait_until_steady fuel old deadline w = Some (w', b) /\
     if b then reported load old w' true else expired old deadline w') /\
  (exists w' b, atomic_wait_until_system fuel old deadline w = Some (w', b) /\
     if b then reported load old w' true
     else exists w0, expired old (system_clock_to_steady deadline w0).2 w').
Proof.
  intros Hf Hd Hs. split; [by apply until_steady_result|].
  unfold atomic_wait_until_system. destruct (load_world w) as [_ Hp].
  destruct (load w) as [w1 v] eqn:El; simpl in Hp. destruct (negb (v =? old)) eqn:En.
  { exists w1, true. split; [done|]. by exists w, v. }
  specialize (Hs w1). assert (patience (system_clock_to_steady deadline w1).1 <= patience w1)%nat as Hp2.
  { unfold system_clock_to_steady. pose proof (now_patience CLOCK_REALTIME w1).
    destruct (now CLOCK_REALTIME w1) as [x ?]. pose proof (now_patience CLOCK_MONOTONIC x).
    destruct (now CLOCK_MONOTONIC x); simpl in *. lia. }
  destruct (system_clock_to_steady deadline w1) as [w2 d] eqn:Ed; simpl in *.
  destruct (until_steady_result fuel old d w2) as (w' & b & E & Hb); [done|lia|].
  exists w', b. split; [done|]. destruct b; [done|]. exists w1. by rewrite Ed.
Qed.
End apple.

(** A world of a clock and a number of early wakeups; the value stays 7. *)
Definition early_wait (_ : Z) (t : option Z) (w : nat * nat) : nat * nat :=
  match t, w.2 with
  | Some t, O => ((w.1 + Z.to_nat t)%nat, O)
  | _, S k => (w.1, k)
  | None, O => w
  end.
Definition world_clock (c : clock_id) (w : nat * nat) : (nat * nat) * Z := (w, Z.of_nat w.1).

Lemma apple_wait_until_not_early_witness :
  exists w' b, atomic_wait_until_steady (fun w => (w, 7)) early_wait world_clock 3 7 100 (0, 2)%nat
      = Some (w', b) /\ b = false /\ w'.1 = 100%nat.
Proof.
  destruct (apple_wait_until_not_early (fun w : nat * nat => (w, 7)) early_wait world_clock
    (fun w => Z.of_nat w.1) snd) with (fuel := 3%nat) (old := 7) (deadline := 100) (w := (0, 2)%nat)
    as [(w' & b & E & _) _].
  - intros w; simpl. split; [lia|done].
  - done.
  - intros w; simpl. split; [lia|done].
  - intros old t [x [|k]]; unfold early_wait; cbn [fst snd]; [right|left]; lia.
  - intros w. lia.
  - simpl. lia.
  - lia.
  - intros w. unfold system_clock_to_steady, world_clock. simpl. lia.
  - exists w', b. split; [exact E|]. vm_compute in E. by injection E as <- <-.
Defined.

End Apple.

(** ** The portable fallback *)
Module Portable.

Definition bucket_count : Z := 67.

(** [h ^= h >> 16; h *= 0x9e3779b9u; h % bucket_count] on a 64-bit
    [std::uintptr_t]. *)
Definition bucket_for (addr : Z) : Z :=
  let h := Z.lxor addr (Z.shiftr addr 16) in
  u64 (h * 2654435769) mod bucket_count.

Section portable.
Context {W : Type}.
Context (load : W -> W * Z).
Context (lock_bucket unlock_bucket : Z -> W -> W).
Context (cv_wait : Z -> Z -> W -> W * bool).

(** [b.cv.wait_until( lock, deadline, pred )] of the standard library: [pred] is
    a load; [cv_wait] releases the mutex, waits and locks it again, and tells
    whether it timed out. *)
Fixpoint cv_wait_until (fuel : nat) (bucket deadline old : Z) (w : W) : option W :=
  match fuel with
  | O => None
  | S fuel' =>
      let '(w1, v) := load w in
      if negb (v =? old) then Some w1
      else
        let '(w2, timed_out) := cv_wait bucket deadline w1 in
        if timed_out then Some (load w2).1 else cv_wait_until fuel' bucket deadline old w2
  end.

(** The part of [atomic_wait_for] and [atomic_wait_until] that both share. *)
Definition bucket_wait (fuel : nat) (addr old deadline : Z) (w : W) : option (W * bool) :=
  let '(w1, v) := load w in
  if negb (v =? old) then Some (w1, true)
  else
    let bucket := bucket_for addr in
    let w2 := lock_bucket bucket w1 in
    let '(w3, v) := load w2 in
    if negb (v =? old) then Some (unlock_bucket bucket w3, true)
    else
      match cv_wait_until fuel bucket deadline old w3 with
      | None => None
      | Some w4 => let '(w5, v) := load w4 in Some (unlock_bucket bucket w5, negb (v =? old))
      end.

Definition atomic_wait_until (fuel : nat) (addr old deadline : Z) (w : W) : option (W * bool) :=
  bucket_wait fuel addr old deadline w.

(** [std::condition_variable::wait_for] is [wait_until] the monotonic clock's
    [now] plus [rel]. *)
Definition atomic_wait_for (now : W -> W * Z) (fuel : nat) (addr old rel : Z) (w : W) : option (W * bool) :=
  if rel <=? 0 then let '(w1, v) := load w in Some (w1, negb (v =? old))
  else let '(w1, t) := now w in bucket_wait fuel addr old (t + rel) w1.
End portable.

(** The threads asleep on the condition variables, with the address each waits
    on.  A condition variable cannot tell addresses apart. *)
Definition sleepers := list (nat * Z).

(** [atomic_notify_one( addr )]: the condition variable of the bucket wakes one
    of its waiters, the [i]-th of them. *)
Definition notify_one (i : nat) (addr : Z) (q : sleepers) : option (nat * Z) * sleepers :=
  let mine := filter (fun s => bucket_for s.2 = bucket_for addr) q in
  match mine !! i with
  | None => (None, q)
  | Some s => (Some s, filter (fun x => x.1 <> s.1) q)
  end.

(** [atomic_notify_all( addr )] *)
Definition notify_all (addr : Z) (q : sleepers) : sleepers :=
  filter (fun s => bucket_for s.2 <> bucket_for addr) q.

(** On the fallback [atomic_notify_all] wakes every thread that waits on
    the address, and [atomic_notify_one] may wake none of them: the words at
    4096 and 4364 share a condition variable, and the one waiter it wakes for the
    first word can be the thread that waits on the second. *)
Theorem portable_notify_one_may_miss :
  (forall addr q t, (t, addr) ∉ notify_all addr q) /\
  (exists addr other i q, (0%nat, addr) ∈ q /\
     notify_one i addr q = (Some (1%nat, other), [(0%nat, addr)]) /\ other <> addr).
Proof.
  split.
  - intros addr q t. unfold notify_all. rewrite list_elem_of_filter. naive_solver.
  - exists 4096, 4364, 0%nat, [(1%nat, 4364); (0%nat, 4096)].
    split_and!; [right; left|vm_compute; reflexivity|lia].
Qed.
End Portable.
