(* ===== verification/UnsignedWait.v ===== *)
(** * Waiting on an unsigned word

    The overloads of futex/atomic_wait.hpp for [std::atomic<std::uint32_t>]: they
    reinterpret the word as an [std::int32_t] and cast the expected value.  On Linux
    that is waiting on the unsigned word. *)
From S2P Require Import Prelude AtomicWait.
#[local] Open Scope Z_scope.

(** [std::bit_cast<std::int32_t>]; and back. *)
Definition bit_cast (v : Z) : Z := i32 v.
Definition bit_cast_back (v : Z) : Z := u32 v.

Section overloads.
Context {W R : Type} (load : W -> W * Z).

(** A load through [reinterpret_cast<std::atomic<std::int32_t>&>]. *)
Definition as_int32 (w : W) : W * Z := let '(w', v) := load w in (w', bit_cast v).

(** The functions on an [int32_t]: the word they load from, and what they expect. *)
Definition atomic_wait (wait32 : (W -> W * Z) -> Z -> W -> R) (old : Z) (w : W) : R :=
  wait32 as_int32 (bit_cast old) w.

Definition atomic_wait_until (wait32 : (W -> W * Z) -> Z -> Z -> W -> R) (old deadline : Z) (w : W) : R :=
  wait32 as_int32 (bit_cast old) deadline w.

Definition atomic_wait_for (wait32 : (W -> W * Z) -> Z -> Z -> W -> R) (old rel : Z) (w : W) : R :=
  wait32 as_int32 (bit_cast old) rel w.
End overloads.

(** ** Lemmas *)

Lemma bit_cast_roundtrip v : 0 <= v < 2 ^ 32 -> bit_cast_back (bit_cast v) = v.
Proof.
  unfold bit_cast_back, bit_cast, i32, u32. intros Hv. rewrite Zminus_mod_idemp_l.
  replace (v + 2 ^ 31 - 2 ^ 31) with v by lia. by apply Z.mod_small.
Qed.

Lemma bit_cast_eqb v old : 0 <= v < 2 ^ 32 -> 0 <= old < 2 ^ 32 -> (bit_cast v =? bit_cast old) = (v =? old).
Proof.
  intros Hv Ho. destruct (Z.eqb_spec v old) as [->|Hne]; [apply Z.eqb_refl|]. apply Z.eqb_neq. intros E. apply Hne.
  rewrite <- (bit_cast_roundtrip v), <- (bit_cast_roundtrip old) by done. by rewrite E.
Qed.

Section linux.
Context {W : Type} (load : W -> W * Z) (futex : Z -> option (clock_id * timespec) -> W -> W * Linux.futex_result).
Context (clock_gettime : clock_id -> W -> W * timespec) (pause : Z -> W -> W) (yield : W -> W).
Hypothesis load_unsigned : forall w, 0 <= (load w).2 < 2 ^ 32.
Context (old : Z).
Hypothesis old_unsigned : 0 <= old < 2 ^ 32.

(** The kernel compares 32 bits, whatever their sign. *)
Definition futex_unsigned (v : Z) := futex (bit_cast v).

Lemma changed_cast w :
  (let '(w', v) := as_int32 load w in (w', negb (v =? bit_cast old))) =
  (let '(w', v) := load w in (w', negb (v =? old))).
Proof.
  unfold as_int32. pose proof (load_unsigned w) as H. destruct (load w) as [w' v]. simpl in *. by rewrite bit_cast_eqb.
Qed.

#[local] Ltac load_cast w :=
  let H := fresh "H" in
  pose proof (changed_cast w) as H; destruct (load w) as [? ?], (as_int32 load w) as [? ?];
  apply pair_equal_spec in H as [-> H]; rewrite ?H.

Lemma active_spins_cast n k w : Linux.active_spins (as_int32 load) pause n k (bit_cast old) w = Linux.active_spins load pause n k old w.
Proof.
  revert k w. induction n as [|n IH]; intros k w; simpl; [done|]. load_cast w. by rewrite IH.
Qed.

Lemma yield_spins_cast n w : Linux.yield_spins (as_int32 load) yield n (bit_cast old) w = Linux.yield_spins load yield n old w.
Proof. revert w. induction n as [|n IH]; intros w; simpl; [done|]. load_cast w. by rewrite IH. Qed.

Lemma wait_loop_cast fuel d w :
  Linux.wait_loop (as_int32 load) futex fuel (bit_cast old) d w = Linux.wait_loop load futex_unsigned fuel old d w.
Proof.
  revert w. induction fuel as [|fuel IH]; intros w; simpl; [done|]. unfold futex_unsigned at 1, Linux.acquire_and_check.
  destruct (futex (bit_cast old) d w) as [w1 []]; try done.
  - load_cast w1. by rewrite IH.
  - load_cast w1. by rewrite IH.
  - destruct d; [|done]. by load_cast w1.
Qed.

Lemma checked_wait_cast fuel c t w :
  Linux.checked_wait (as_int32 load) futex fuel (bit_cast old) c t w = Linux.checked_wait load futex_unsigned fuel old c t w.
Proof. unfold Linux.checked_wait. load_cast w. by rewrite wait_loop_cast. Qed.

(** The overloads for [uint32_t] wait on the unsigned word: with the casts to
    [int32_t] and back, each returns the result and leaves the world of the Linux
    function that compares unsigned values; no two unsigned values are confused,
    so neither are a word and the value it is expected to have. *)
Theorem unsigned_wait_equivalent fuel deadline rel w :
  atomic_wait load (fun ld o => Linux.atomic_wait ld futex pause yield fuel o) old w =
    Linux.atomic_wait load futex_unsigned pause yield fuel old w /\
  atomic_wait_until load (fun ld o => Linux.atomic_wait_until_steady ld futex fuel o) old deadline w =
    Linux.atomic_wait_until_steady load futex_unsigned fuel old deadline w /\
  atomic_wait_until load (fun ld o => Linux.atomic_wait_until_system ld futex fuel o) old deadline w =
    Linux.atomic_wait_until_system load futex_unsigned fuel old deadline w /\
  atomic_wait_for load (fun ld o => Linux.atomic_wait_for ld futex clock_gettime fuel o) old rel w =
    Linux.atomic_wait_for load futex_unsigned clock_gettime fuel old rel w.
Proof.
  unfold atomic_wait, atomic_wait_until, atomic_wait_for, Linux.atomic_wait, Linux.atomic_wait_until_steady,
    Linux.atomic_wait_until_system, Linux.atomic_wait_for. split_and!.
  - rewrite active_spins_cast. destruct (Linux.active_spins _ _ _ _ _ _) as [w1 []]; [done|].
    rewrite yield_spins_cast. destruct (Linux.yield_spins _ _ _ _ _) as [w2 []]; [done|]. by rewrite wait_loop_cast.
  - apply checked_wait_cast.
  - apply checked_wait_cast.
  - destruct (rel <=? 0); [by load_cast w|]. destruct (clock_gettime CLOCK_MONOTONIC w). apply checked_wait_cast.
Qed.
End linux.

(** ** Witnesses *)

(** A world that is the word itself; the system call wakes at once, with the word
    changed to 1. *)
Lemma unsigned_wait_equivalent_witness :
  atomic_wait (W := Z) (fun w => (w, u32 w)) (fun ld o => Linux.atomic_wait ld (fun _ _ _ => (1, Linux.Woken)) (fun _ w => w) id 1 o)
    4294967295 4294967295 = Some 1.
Proof.
  destruct (unsigned_wait_equivalent (W := Z) (fun w => (w, u32 w)) (fun _ _ _ => (1, Linux.Woken))
    (fun _ w => (w, Timespec 0 0)) (fun _ w => w) id (fun w => u32_range w) 4294967295 ltac:(lia) 1%nat 0 0 4294967295) as [-> _].
  vm_compute. reflexivity.
Defined.
