(* ===== verification/PortableFutex.v ===== *)
(** * The portable fallback of the futex, with threads

    The last platform of futex/atomic_wait.cpp again, [NOVA_SYNC_FUTEX_PORTABLE],
    as an interleaving machine: [atomic_wait] is [std::atomic::wait], the timed
    waits sleep on the condition variable of the word's bucket, and a notification
    goes to both.  Words whose addresses hash alike share a bucket, and a store to
    the word does not take the bucket's mutex. *)
From S2P Require Import Prelude Machine AtomicWait.
From stdpp Require Import gmap.
#[local] Open Scope Z_scope.

Abbreviation bucket_for := AtomicWait.Portable.bucket_for.

(** The words by their address, the owners of the buckets' mutexes, the threads
    asleep on a bucket's condition variable, and those blocked in
    [std::atomic::wait] on a word. *)
Record state := State {
  word : gmap Z Z;
  mutex : gmap Z nat;
  cv : list (nat * Z);
  blocked : list (nat * Z)
}.

Definition load (a : Z) (s : state) : Z := default 0 (word s !! a).
Definition store (a v : Z) (s : state) : state := State (<[a := v]> (word s)) (mutex s) (cv s) (blocked s).
Definition set_mutex (m : gmap Z nat) (s : state) : state := State (word s) m (cv s) (blocked s).
Definition set_cv (q : list (nat * Z)) (s : state) : state := State (word s) (mutex s) q (blocked s).
Definition set_blocked (q : list (nat * Z)) (s : state) : state := State (word s) (mutex s) (cv s) q.

(** A client of the words stores a value and notifies one or all of the waiters. *)
Inductive method :=
| MWait (a old : Z)             (** [atomic_wait] *)
| MWaitFor (a old : Z)          (** [atomic_wait_for] with a time-out that is not positive *)
| MWaitUntil (a old : Z)        (** the other timed waits *)
| MPublish (a v : Z) (all : bool).

(** The environment: the next call, which of the waiters [notify_one] takes, and
    how a sleep ends that nobody ended. *)
Inductive choice := Call (m : method) | Act | Take (k : nat) | Spurious | Expire.

Inductive pc :=
| Idle
| Ret (r : bool)
| WordWait (a old : Z)      (** [atom.wait]: compare, and block while equal *)
| WordAsleep (a old : Z)
| Poll (a old : Z)          (** the load of [atomic_wait_for( rel <= 0 )] *)
| Check (a old : Z)         (** the load before the mutex *)
| Lock (a old : Z)          (** [std::unique_lock lock( b.mutex )] *)
| CheckLocked (a old : Z)   (** the load after it *)
| Pred (a old : Z)          (** [cv.wait_until]: the predicate *)
| Sleep (a old : Z)         (** [cv.wait_until]: unlock and sleep, in one step *)
| Asleep (a old : Z)
| Relock (a old : Z) (expired : bool)
| Last (a old : Z)          (** the last load *)
| Unlock (a : Z) (r : bool)
| Store (a v : Z) (all : bool)
| NotifyWord (a : Z) (all : bool)  (** [atom.notify_one()], [atom.notify_all()] *)
| NotifyLock (a : Z) (all : bool)  (** [std::lock_guard lock( b.mutex )] *)
| NotifyCv (a : Z) (all : bool)    (** [b.cv.notify_one()], [b.cv.notify_all()] *)
| NotifyUnlock (a : Z).

Definition enter (m : method) : pc :=
  match m with
  | MWait a old => WordWait a old
  | MWaitFor a old => Poll a old
  | MWaitUntil a old => Check a old
  | MPublish a v all => Store a v all
  end.

(** The queue without the waiters for [key], or without the [k]-th of them. *)
Definition wake (all : bool) (k : nat) (key : Z) (q : list (nat * Z)) : list (nat * Z) :=
  if all then filter (fun e => e.2 <> key) q
  else match filter (fun e => e.2 = key) q !! k with
       | None => q
       | Some e => filter (fun x => x <> e) q
       end.

Definition leave (tid : nat) (q : list (nat * Z)) : list (nat * Z) := filter (fun e => e.1 <> tid) q.

Definition lock (tid : nat) (b : Z) (s : state) : option state :=
  match mutex s !! b with None => Some (set_mutex (<[b := tid]> (mutex s)) s) | Some _ => None end.

Definition unlock (b : Z) (s : state) : state := set_mutex (delete b (mutex s)) s.

(** The word still has the old value: go on with [k], else with [k']. *)
Definition compare (a old : Z) (s : state) (k k' : pc) : state * pc := (s, if load a s =? old then k else k').

Definition pick (all : bool) (ch : choice) : option nat :=
  match ch with Act => if all then Some 0%nat else None | Take k => if all then None else Some k | _ => None end.

Definition tstep (tid : nat) (ch : choice) (s : state) (l : pc) : option (state * pc) :=
  match l, ch with
  | (Idle | Ret _), Call m => Some (s, enter m)
  | WordWait a old, Act =>
      if load a s =? old then Some (set_blocked (blocked s ++ [(tid, a)]) s, WordAsleep a old)
      else Some (s, Ret true)
  | WordAsleep a old, Act => if bool_decide ((tid, a) ∈ blocked s) then None else Some (s, WordWait a old)
  | WordAsleep a old, Spurious => Some (set_blocked (leave tid (blocked s)) s, WordWait a old)
  | Poll a old, Act => Some (compare a old s (Ret false) (Ret true))
  | Check a old, Act => Some (compare a old s (Lock a old) (Ret true))
  | Lock a old, Act => (fun s' => (s', CheckLocked a old)) <$> lock tid (bucket_for a) s
  | CheckLocked a old, Act => Some (compare a old s (Pred a old) (Unlock a true))
  | Pred a old, Act => Some (compare a old s (Sleep a old) (Last a old))
  | Sleep a old, Act =>
      Some (unlock (bucket_for a) (set_cv (cv s ++ [(tid, bucket_for a)]) s), Asleep a old)
  | Asleep a old, Act => if bool_decide ((tid, bucket_for a) ∈ cv s) then None else Some (s, Relock a old false)
  | Asleep a old, Spurious => Some (set_cv (leave tid (cv s)) s, Relock a old false)
  | Asleep a old, Expire => Some (set_cv (leave tid (cv s)) s, Relock a old true)
  | Relock a old ex, Act =>
      (fun s' => (s', if ex then Last a old else Pred a old)) <$> lock tid (bucket_for a) s
  | Last a old, Act => Some (compare a old s (Unlock a false) (Unlock a true))
  | Unlock a r, Act => Some (unlock (bucket_for a) s, Ret r)
  | Store a v all, Act => Some (store a v s, NotifyWord a all)
  | NotifyWord a all, _ =>
      (fun k => (set_blocked (wake all k a (blocked s)) s, NotifyLock a all)) <$> pick all ch
  | NotifyLock a all, Act => (fun s' => (s', NotifyCv a all)) <$> lock tid (bucket_for a) s
  | NotifyCv a all, _ =>
      (fun k => (set_cv (wake all k (bucket_for a) (cv s)) s, NotifyUnlock a)) <$> pick all ch
  | NotifyUnlock a, Act => Some (unlock (bucket_for a) s, Ret true)
  | _, _ => None
  end.

Definition init (words : gmap Z Z) (n : nat) : config state pc := Config (State words ∅ [] []) (replicate n Idle).

(** The bucket whose mutex a thread has. *)
Definition has (l : pc) : option Z :=
  match l with
  | CheckLocked a _ | Pred a _ | Sleep a _ | Last a _ | Unlock a _ | NotifyCv a _ | NotifyUnlock a => Some (bucket_for a)
  | _ => None
  end.

(** On its way to notify the waiters of a word: in [std::atomic::wait], on the
    condition variable. *)
Definition will_notify_word (a : Z) (l : pc) : Prop := l = NotifyWord a true.

Definition will_notify (a : Z) (l : pc) : Prop :=
  l = NotifyWord a true \/ l = NotifyLock a true \/ l = NotifyCv a true.

(** Asleep and not woken, or past the last look at the word before that. *)
Definition sleeps (i : nat) (s : state) (a old : Z) (l : pc) : Prop :=
  l = Sleep a old \/ (l = Asleep a old /\ (i, bucket_for a) ∈ cv s).

Definition sleeps_in_word (i : nat) (s : state) (a old : Z) (l : pc) : Prop :=
  l = WordAsleep a old /\ (i, a) ∈ blocked s.

(** Clients that only ever notify all. *)
Definition broadcasts (c : config state pc) : Prop :=
  Forall (fun l => match l with Store _ _ all | NotifyWord _ all | NotifyLock _ all | NotifyCv _ all => all = true
                           | _ => True end) (threads c).

(** ** The invariant *)

Record Inv (c : config state pc) : Prop := {
  inv_mutex : forall b i, mutex (shared c) !! b = Some i <-> exists l, threads c !! i = Some l /\ has l = Some b;
  inv_cv : forall i l a old, threads c !! i = Some l -> sleeps i (shared c) a old l -> load a (shared c) <> old ->
    exists j x, threads c !! j = Some x /\ will_notify a x;
  inv_word : forall i l a old, threads c !! i = Some l -> sleeps_in_word i (shared c) a old l ->
    load a (shared c) <> old -> exists j x, threads c !! j = Some x /\ will_notify_word a x
}.

Ltac sleepers :=
  repeat match goal with
  | H : (_, _) ∈ _ ++ [_] |- _ => apply elem_of_app in H as [H|H%list_elem_of_singleton]
  | H : _ ∈ filter _ _ |- _ => apply list_elem_of_filter in H as [? H]
  | H : _ ∈ leave _ _ |- _ => unfold leave in H
  end.

Ltac futex_cases H :=
  unfold tstep, compare, lock, pick in H;
  repeat first [progress simplify_option_eq | case_match; try done].

Lemma load_store a v b s : load b (store a v s) = if decide (a = b) then v else load b s.
Proof. unfold load, store; simpl. destruct (decide (a = b)) as [->|]; [by rewrite lookup_insert_eq|by rewrite lookup_insert_ne]. Qed.

Lemma wake_subset all k key q e : e ∈ wake all k key q -> e ∈ q.
Proof. unfold wake. destruct all; [|case_match]; rewrite ?list_elem_of_filter; naive_solver. Qed.

Lemma wake_all_none k key q i : (i, key) ∉ wake true k key q.
Proof. unfold wake. rewrite list_elem_of_filter. naive_solver. Qed.

(** A step changes only the word it stores to, and then notifies. *)
Lemma step_word i ch s l s' l' a :
  tstep i ch s l = Some (s', l') -> load a s' = load a s \/ exists v all, l = Store a v all /\ l' = NotifyWord a all.
Proof.
  intros H. destruct l, ch; try done; futex_cases H; try (by left).
  all: try (rewrite load_store; destruct (decide _) as [->|]; [right; by eauto|by left]).
Qed.

(** It adds only its own thread to the sleepers. *)
Lemma step_queues i ch s l s' l' k b :
  tstep i ch s l = Some (s', l') -> k <> i ->
  ((k, b) ∈ cv s' -> (k, b) ∈ cv s) /\ ((k, b) ∈ blocked s' -> (k, b) ∈ blocked s).
Proof.
  intros H Hk. destruct l, ch; try done; futex_cases H; simpl; split; intros He; try done; sleepers;
    try done; try congruence; by eapply wake_subset.
Qed.

(** A notifier of all is one until it has notified. *)
Lemma step_notifier i ch s l s' l' a :
  tstep i ch s l = Some (s', l') -> will_notify a l ->
  will_notify a l' \/ (has l = Some (bucket_for a) /\ forall k, (k, bucket_for a) ∉ cv s').
Proof.
  unfold will_notify. intros H [-> | [-> | ->]]; destruct ch; futex_cases H; eauto.
  right. split; [done|]. intros k. simpl. apply (wake_all_none 0).
Qed.

Lemma step_notifier_word i ch s l s' l' a :
  tstep i ch s l = Some (s', l') -> will_notify_word a l -> forall k, (k, a) ∉ blocked s'.
Proof. intros H -> k. destruct ch; futex_cases H. apply (wake_all_none 0). Qed.

(** Who goes to sleep has looked at the word. *)
Lemma step_sleeps i ch s l s' l' a old :
  tstep i ch s l = Some (s', l') -> sleeps i s' a old l' ->
  load a s' = old \/ (sleeps i s a old l /\ ~ will_notify a l /\ load a s' = load a s).
Proof.
  unfold sleeps, will_notify. intros H Hs. destruct l, ch; try done; futex_cases H; simpl in *;
    destruct Hs as [Hs|[Hs He]]; simplify_eq/=;
    try (left; by apply Z.eqb_eq); try by destruct m.
  right. split_and!; [by left|by intros [?|[?|?]]|done].
Qed.

Lemma step_sleeps_in_word i ch s l s' l' a old :
  tstep i ch s l = Some (s', l') -> sleeps_in_word i s' a old l' -> load a s' = old.
Proof.
  unfold sleeps_in_word. intros H [-> He]. destruct l, ch as [[]| | | |]; try done; futex_cases H. by apply Z.eqb_eq.
Qed.

(** The mutexes of the buckets: a step takes a free one, gives back its own, or
    does neither. *)
Lemma step_mutex i ch s l s' l' :
  tstep i ch s l = Some (s', l') ->
  (mutex s' = mutex s /\ has l' = has l) \/
  (exists b, mutex s !! b = None /\ mutex s' = <[b := i]> (mutex s) /\ has l = None /\ has l' = Some b) \/
  (exists b, mutex s' = delete b (mutex s) /\ has l = Some b /\ has l' = None).
Proof.
  intros H. destruct l, ch; try done; futex_cases H; simpl; eauto 10.
  all: try (by (left; destruct m)). all: right; left; exists (bucket_for a); destruct expired; by split_and!.
Qed.

Lemma mutex_step i ch c l s' l' :
  Inv c -> threads c !! i = Some l -> tstep i ch (shared c) l = Some (s', l') ->
  forall b k, mutex s' !! b = Some k <-> exists x, <[i := l']> (threads c) !! k = Some x /\ has x = Some b.
Proof.
  intros HI Hi Hs b k. pose proof (inv_mutex _ HI b k) as Hm.
  assert (has l = Some b -> mutex (shared c) !! b = Some i) as Hown by (intros; apply HI; eauto).
  assert (forall b', has l = Some b' -> mutex (shared c) !! b' = Some i) as Hown' by (intros; apply HI; eauto).
  assert (forall x, <[i := l']> (threads c) !! k = Some x <->
    (k = i /\ x = l') \/ (k <> i /\ threads c !! k = Some x)) as Hx.
  { intros x. rewrite list_lookup_insert_Some. apply lookup_lt_Some in Hi. naive_solver. }
  setoid_rewrite Hx. destruct (decide (k = i)) as [->|Hk].
  - assert (mutex s' !! b = Some i <-> has l' = Some b) as ->; [|naive_solver].
    destruct (step_mutex _ _ _ _ _ _ Hs) as [[-> ->]|[(b' & Hf & -> & Hl & ->)|(b' & -> & Hl & ->)]].
    + rewrite Hm. naive_solver.
    + destruct (decide (b = b')) as [->|]; [rewrite lookup_insert_eq; naive_solver|].
      rewrite lookup_insert_ne by done. rewrite Hm. naive_solver.
    + rewrite lookup_delete_Some. split; [|done]. intros [Hne E]. apply Hm in E as (x & E1 & E2). congruence.
  - transitivity (mutex (shared c) !! b = Some k); [|rewrite Hm; naive_solver].
    destruct (step_mutex _ _ _ _ _ _ Hs) as [[-> _]|[(b' & Hf & -> & _)|(b' & -> & Hl & _)]]; [done| |].
    + rewrite lookup_insert_Some. naive_solver.
    + rewrite lookup_delete_Some. specialize (Hown' _ Hl). naive_solver.
Qed.

Lemma portable_step_ok i ch c l s' l' :
  broadcasts c -> Inv c -> threads c !! i = Some l -> tstep i ch (shared c) l = Some (s', l') ->
  Inv (Config s' (<[i := l']> (threads c))).
Proof.
  intros HB HI Hi Hs. pose proof (Forall_lookup_1 _ _ _ _ HB Hi) as Hl. apply lookup_lt_Some in Hi as Hlt.
  assert (forall a, load a s' = load a (shared c) \/ l' = NotifyWord a true) as Hw.
  { intros a. destruct (step_word _ _ _ _ _ _ a Hs) as [?|(v & all & -> & ->)]; [by left|]. right. simpl in Hl. congruence. }
  split; cbn [shared threads]; [by eapply mutex_step|..].
  - intros k x a old Hk Hsl Hne.
    destruct (Hw a) as [Ea | ->]; [|exists i, (NotifyWord a true); rewrite list_lookup_insert_eq by done; split; [done|by left]].
    assert (exists y, threads c !! k = Some y /\ sleeps k (shared c) a old y) as (y & Hy & Hsy).
    { apply list_lookup_insert_Some in Hk as [(<- & <- & _)|[Hki Hk]].
      - destruct (step_sleeps _ _ _ _ _ _ _ _ Hs Hsl) as [?|(Hsl' & _)]; [done|by eauto].
      - exists x. split; [done|]. destruct Hsl as [->|[-> He]]; [by left|right; split; [done|]].
        by eapply (step_queues _ _ _ _ _ _ k _ Hs). }
    destruct (inv_cv _ HI k y a old Hy Hsy) as (j & z & Hj & Hz); [congruence|].
    destruct (decide (j = i)) as [->|Hji]; [|exists j, z; by rewrite list_lookup_insert_ne].
    simplify_eq. destruct (step_notifier _ _ _ _ _ _ a Hs Hz) as [?|[Hb Hno]];
      [exists i, l'; by rewrite list_lookup_insert_eq|].
    exfalso. apply list_lookup_insert_Some in Hk as [(<- & <- & _)|[Hki Hk]].
    + destruct (step_sleeps _ _ _ _ _ _ _ _ Hs Hsl) as [?|(_ & ? & _)]; done.
    + destruct Hsl as [->|[-> He]]; [|by apply (Hno k)].
      assert (mutex (shared c) !! bucket_for a = Some i) by (apply HI; eauto).
      assert (mutex (shared c) !! bucket_for a = Some k) by (apply HI; eauto). congruence.
  - intros k x a old Hk Hsl Hne.
    destruct (Hw a) as [Ea | ->]; [|exists i, (NotifyWord a true); by rewrite list_lookup_insert_eq].
    apply list_lookup_insert_Some in Hk as [(<- & <- & _)|[Hki Hk]].
    + exfalso. apply Hne. by eapply step_sleeps_in_word.
    + destruct Hsl as [-> He]. apply (step_queues _ _ _ _ _ _ k _ Hs) in He as He'; [|done].
      destruct (inv_word _ HI k _ a old Hk) as (j & z & Hj & Hz); [by split|congruence|].
      destruct (decide (j = i)) as [->|Hji]; [|exists j, z; by rewrite list_lookup_insert_ne].
      simplify_eq. exfalso. by eapply step_notifier_word.
Qed.

Lemma portable_inv_reachable words n c : reachable_while tstep broadcasts (init words n) c -> Inv c.
Proof.
  apply invariant_reachable_while; [|by intros; eapply portable_step_ok].
  split; cbn [shared threads init].
  - intros b i. simpl. split; [done|]. by intros (l & [-> _]%lookup_replicate & ?).
  - by intros i l a old [-> _]%lookup_replicate [?|[? _]].
  - by intros i l a old [-> _]%lookup_replicate [? _].
Qed.

(** ** Progress *)

(** No spurious wakeup, no time-out. *)
Definition gentle (ch : choice) : Prop := match ch with Act | Take _ => True | _ => False end.

(** Waiting for a word to differ from [old], with the result still open. *)
Definition waits (a old : Z) (l : pc) : Prop :=
  l = WordWait a old \/ l = WordAsleep a old \/ l = Check a old \/ l = Lock a old \/ l = CheckLocked a old \/
  l = Pred a old \/ l = Sleep a old \/ l = Asleep a old \/ (exists ex, l = Relock a old ex) \/ l = Last a old.

Section progress.
Context (i : nat).

Abbreviation finishes := (reaches_alone tstep gentle (fun l => l = Ret true) i).

#[local] Ltac go := eapply (reaches_step tstep _ _ _ _ Act); [|done|].

Lemma last_finishes a old s : load a s <> old -> finishes 2 s (Last a old).
Proof.
  intros Hne%Z.eqb_neq. go; [unfold tstep, compare; by rewrite Hne|]. go; [done|]. by apply reaches_now.
Qed.

Lemma pred_finishes a old s : load a s <> old -> finishes 3 s (Pred a old).
Proof.
  intros Hne. go; [|by apply last_finishes]. apply Z.eqb_neq in Hne. unfold tstep, compare. by rewrite Hne.
Qed.

Lemma relock_finishes a old ex s : load a s <> old -> mutex s !! bucket_for a = None -> finishes 4 s (Relock a old ex).
Proof.
  intros Hne Hm. go; [unfold tstep, lock; by rewrite Hm|]. simpl.
  destruct ex; [eapply reaches_more; [|by apply last_finishes]; lia|by apply pred_finishes].
Qed.

Lemma lock_finishes a old s : load a s <> old -> mutex s !! bucket_for a = None -> finishes 3 s (Lock a old).
Proof.
  intros Hne%Z.eqb_neq Hm. go; [unfold tstep, lock; by rewrite Hm|].
  go; [unfold tstep, compare; unfold load in *; simpl; by rewrite Hne|]. go; [done|]. by apply reaches_now.
Qed.

Lemma awake_finishes a old s l :
  waits a old l -> load a s <> old -> ~ sleeps i s a old l -> ~ sleeps_in_word i s a old l ->
  (has l = None -> mutex s !! bucket_for a = None) -> finishes 5 s l.
Proof.
  unfold waits, sleeps, sleeps_in_word. intros Hw Hne Hs Hsw Hm. pose proof Hne as Hne'%Z.eqb_neq.
  destruct Hw as [->|[->|[->|[->|[->|[->|[->|[->|[[ex ->] | ->]]]]]]]]].
  - go; [unfold tstep; by rewrite Hne'|]. by apply reaches_now.
  - go; [unfold tstep; rewrite bool_decide_eq_false_2; naive_solver|].
    go; [unfold tstep; by rewrite Hne'|]. by apply reaches_now.
  - go; [unfold tstep, compare; by rewrite Hne'|]. by apply reaches_now.
  - eapply reaches_more; [|by apply lock_finishes, Hm]. lia.
  - go; [unfold tstep, compare; by rewrite Hne'|]. go; [done|]. by apply reaches_now.
  - eapply reaches_more; [|by apply pred_finishes]. lia.
  - naive_solver.
  - go; [unfold tstep; rewrite bool_decide_eq_false_2; naive_solver|]. by apply relock_finishes, Hm.
  - eapply reaches_more; [|by apply relock_finishes, Hm]. lia.
  - eapply reaches_more; [|by apply last_finishes]. lia.
Qed.

(** Whoever has a bucket's mutex gives it back, or goes to sleep without it, in at
    most three steps of its own. *)
Lemma holder_releases b s l :
  has l = Some b -> reaches_alone tstep gentle (fun l => has l = None) i 3 s l.
Proof.
  assert (forall k a old, reaches_alone tstep gentle (fun l => has l = None) i (2 + k) s (Last a old)) as Hlast.
  { intros. go; [done|]. simpl. case_match; (go; [done|]; by apply reaches_now). }
  assert (forall a old, reaches_alone tstep gentle (fun l => has l = None) i 3 s (Pred a old)) as Hpred.
  { intros. go; [done|]. simpl. case_match; [|by apply (Hlast 0%nat)]. go; [done|]. by apply reaches_now. }
  intros Hb. destruct l; try discriminate Hb.
  - go; [done|]. simpl. destruct (load a s =? old) eqn:E; [|go; [done|]; by apply reaches_now].
    go; [unfold tstep, compare; by rewrite E|]. go; [done|]. by apply reaches_now.
  - apply Hpred.
  - go; [done|]. by apply reaches_now.
  - apply (Hlast 1%nat).
  - go; [done|]. by apply reaches_now.
  - eapply (reaches_step tstep _ _ _ _ (if all then Act else Take 0)); [by destruct all|by destruct all|].
    go; [done|]. by apply reaches_now.
  - go; [done|]. by apply reaches_now.
Qed.
End progress.

(** ** Theorems *)

(** C15: on the portable fallback, for clients that only ever notify all, a store
    never races with a wait, whatever words share a bucket: in every reachable
    configuration of clients that store and then notify all, a thread that waits for
    a word to differ from [old], while it does differ, sleeps only as long as a
    notifier is still on its way to it; awake, and while nobody else has the bucket's
    mutex, it returns [true] in at most five steps of its own; and that mutex has one
    owner, who gives it back in at most three steps.  (With [atomic_notify_one] it
    does not hold: [portable_notify_one_loses_wakeup].) *)
Theorem portable_no_lost_wakeup words n c i l a old :
  reachable_while tstep broadcasts (init words n) c ->
  threads c !! i = Some l -> waits a old l -> load a (shared c) <> old ->
  (sleeps i (shared c) a old l \/ sleeps_in_word i (shared c) a old l ->
     exists j x, threads c !! j = Some x /\ will_notify a x) /\
  (~ sleeps i (shared c) a old l -> ~ sleeps_in_word i (shared c) a old l ->
   (forall j, mutex (shared c) !! bucket_for a = Some j -> j = i) ->
     reaches_alone tstep gentle (fun l => l = Ret true) i 5 (shared c) l) /\
  (forall j, mutex (shared c) !! bucket_for a = Some j ->
     exists x, threads c !! j = Some x /\ reaches_alone tstep gentle (fun l => has l = None) j 3 (shared c) x).
Proof.
  intros HI%portable_inv_reachable Hi Hw Hne. split_and!.
  - intros [Hs|Hs]; [by eapply inv_cv|].
    destruct (inv_word _ HI _ _ _ _ Hi Hs Hne) as (j & x & ? & ?). exists j, x. split; [done|by left].
  - intros Hs Hsw Hm. apply (awake_finishes _ a old); try done. intros Hl.
    destruct (mutex (shared c) !! bucket_for a) as [j|] eqn:E; [|done].
    rewrite (Hm j) in E by done. apply (inv_mutex _ HI) in E as (x & Hx & Hb). congruence.
  - intros j Hj. apply (inv_mutex _ HI) in Hj as (x & Hx & Hb). exists x. split; [done|]. by eapply holder_releases.
Qed.

(** Words 4096 and 4364 share a bucket: thread 0 waits for the first, thread 1 for
    the second, both asleep; thread 2 stores to the first and notifies one. *)
Definition shared_bucket_sched : list (nat * choice) :=
  [(0, Call (MWaitUntil 4096 0)); (0, Act); (0, Act); (0, Act); (0, Act); (0, Act);
   (1, Call (MWaitUntil 4364 0)); (1, Act); (1, Act); (1, Act); (1, Act); (1, Act);
   (2, Call (MPublish 4096 1 false)); (2, Act); (2, Take 0); (2, Act); (2, Take 1); (2, Act)]%nat.

(** With [atomic_notify_one] it does: the waiter that the condition variable wakes
    can be one of another word, and the thread whose word has changed sleeps on
    with nobody on the way to wake it. *)
Theorem portable_notify_one_loses_wakeup :
  exists c, exec tstep shared_bucket_sched (init ∅ 3) = Some c /\
    threads c = [Asleep 4096 0; Asleep 4364 0; Ret true] /\
    load 4096 (shared c) = 1 /\ cv (shared c) = [(0%nat, bucket_for 4096)].
Proof. eexists. split; [vm_compute; reflexivity|]. by vm_compute. Qed.

(** Thread 0 checks the word and is about to sleep when thread 1 stores. *)
Definition late_store_sched : list (nat * choice) :=
  [(0, Call (MWaitUntil 4096 0)); (0, Act); (0, Act); (0, Act); (0, Act);
   (1, Call (MPublish 4096 1 true)); (1, Act); (0, Act)]%nat.

Definition late_store : config state pc := default (init ∅ 2) (exec tstep late_store_sched (init ∅ 2)).

Definition broadcasts_b (c : config state pc) : bool :=
  forallb (fun l => match l with Store _ _ all | NotifyWord _ all | NotifyLock _ all | NotifyCv _ all => all | _ => true end)
    (threads c).

Lemma broadcasts_b_spec c : broadcasts_b c = true -> broadcasts c.
Proof.
  unfold broadcasts_b, broadcasts. rewrite forallb_forall, Forall_forall. intros H l Hl.
  apply list_elem_of_In in Hl. specialize (H l Hl). by destruct l.
Qed.

Lemma portable_no_lost_wakeup_witness :
  threads late_store = [Asleep 4096 0; NotifyWord 4096 true] /\
  exists j x, threads late_store !! j = Some x /\ will_notify 4096 x.
Proof.
  split; [by vm_compute|].
  assert (reachable_while tstep broadcasts (init ∅ 2) late_store) as Hr.
  { apply (exec_while_reachable _ _ broadcasts_b late_store_sched); [apply broadcasts_b_spec|by vm_compute]. }
  destruct (portable_no_lost_wakeup ∅ 2 late_store 0%nat (Asleep 4096 0) 4096 0 Hr) as [H _]; [done|unfold waits; do 7 right; by left|by vm_compute|].
  apply H. left. right. split; [done|]. vm_compute. left.
Defined.
