(* ===== verification/Syscall.v ===== *)
(** * System calls that can be interrupted

    include/nova/sync/detail/syscall.hpp ([read_intr], [write_intr],
    [poll_intr]) and source/nova/sync/detail/timed_wait.cpp ([ppoll_for],
    [ppoll_until], [kevent_for], [kevent_until], [wait_handle_for],
    [wait_handle_until]).  The kernel is a parameter: a world [W] with the system
    calls as functions. *)
From S2P Require Import Prelude AtomicWait.
#[local] Open Scope Z_scope.

(** What a system call returns: a result, or -1 with an [errno]. *)
Inductive errno := EINTR | OtherErrno.
Inductive sysret := Ok (n : Z) | Err (e : errno).

#[export] Instance errno_eq_dec : EqDecision errno.
Proof. solve_decision. Defined.

#[export] Instance sysret_eq_dec : EqDecision sysret.
Proof. solve_decision. Defined.

(** The value of the call in C: [rc]. *)
Definition rc (r : sysret) : Z := match r with Ok n => n | Err _ => -1 end.

(** ** [read_intr], [write_intr], [poll_intr] *)
Section retry.
Context {W : Type}.

(** The [do ... while ( rc < 0 && errno == EINTR )] loop of [read_intr] and of
    [poll_intr] without a time-out. *)
Fixpoint retry_intr (fuel : nat) (call : W -> W * sysret) (w : W) : option (W * sysret) :=
  match fuel with
  | O => None
  | S fuel' =>
      let '(w', r) := call w in
      match r with Err EINTR => retry_intr fuel' call w' | _ => Some (w', r) end
  end.

Definition read_intr (fuel : nat) (read : nat -> nat -> W -> W * sysret) (fd len : nat) (w : W) :=
  retry_intr fuel (read fd len) w.

(** [read_intr] and the blocking [poll_intr] hide [EINTR] and nothing
    else: when the call is interrupted at most [k] times, they return after at
    most [k + 1] calls, never with [EINTR], and with the very answer of the last
    call they made. *)
Theorem retry_intr_spec (call : W -> W * sysret) (interruptions : W -> nat) fuel w :
  (forall w, (call w).2 = Err EINTR -> (interruptions (call w).1 < interruptions w)%nat) ->
  (interruptions w < fuel)%nat ->
  exists w' r, retry_intr fuel call w = Some (w', r) /\ r <> Err EINTR /\ exists w0, call w0 = (w', r).
Proof.
  intros Hi. revert w. induction fuel as [|fuel IH]; intros w Hf; simpl; [lia|].
  specialize (Hi w). destruct (call w) as [w1 [n|[]]] eqn:E; simpl in *.
  - eexists _, _. split_and!; [done|done|by exists w].
  - apply IH. specialize (Hi eq_refl). lia.
  - eexists _, _. split_and!; [done|done|by exists w].
Qed.

(** [write_intr]: the bytes [p + offset] still to be written. *)
Fixpoint write_loop (fuel : nat) (write : list Byte.byte -> W -> W * sysret)
  (rest : list Byte.byte) (w : W) : option (W * bool) :=
  match rest with
  | [] => Some (w, true)
  | _ =>
      match fuel with
      | O => None
      | S fuel' =>
          let '(w', r) := write rest w in
          match r with
          | Err EINTR => write_loop fuel' write rest w'
          | Err OtherErrno => Some (w', false)
          | Ok n => write_loop fuel' write (drop (Z.to_nat n) rest) w'
          end
      end
  end.

Definition write_intr (fuel : nat) (write : nat -> list Byte.byte -> W -> W * sysret)
  (fd : nat) (buf : list Byte.byte) (w : W) : option (W * Z) :=
  match write_loop fuel (write fd) buf w with
  | None => None
  | Some (w', true) => Some (w', Z.of_nat (length buf))
  | Some (w', false) => Some (w', -1)
  end.

(** The documented behaviour of [write( 2 )]: it appends a non-empty prefix of
    the bytes and returns its length, or fails and appends nothing. *)
Definition write_law (sent : W -> list Byte.byte) (write : list Byte.byte -> W -> W * sysret) : Prop :=
  forall bs w, bs <> [] ->
    match (write bs w).2 with
    | Ok n => 0 < n <= Z.of_nat (length bs) /\ sent (write bs w).1 = sent w ++ take (Z.to_nat n) bs
    | Err _ => sent (write bs w).1 = sent w
    end.

Lemma write_loop_spec (sent : W -> list Byte.byte) write (interruptions : W -> nat) fuel rest w :
  write_law sent write ->
  (forall bs w, (interruptions (write bs w).1 <= interruptions w)%nat) ->
  (forall bs w, (write bs w).2 = Err EINTR -> (interruptions (write bs w).1 < interruptions w)%nat) ->
  (interruptions w + length rest <= fuel)%nat ->
  exists w' ok, write_loop fuel write rest w = Some (w', ok) /\
    (if ok then sent w' = sent w ++ rest else exists k, sent w' = sent w ++ take k rest).
Proof.
  intros Hlaw Hle Hlt. revert rest w. induction fuel as [|fuel IH]; intros rest w Hf.
  { destruct rest; simpl in *; [|lia]. exists w, true. by rewrite app_nil_r. }
  destruct rest as [|b rest]; cbn [write_loop].
  { exists w, true. by rewrite app_nil_r. }
  specialize (Hlaw (b :: rest) w ltac:(done)). specialize (Hle (b :: rest) w). specialize (Hlt (b :: rest) w).
  destruct (write (b :: rest) w) as [w1 [n|[]]]; cbn [fst snd] in *.
  - destruct Hlaw as [Hn Hs]. destruct (IH (drop (Z.to_nat n) (b :: rest)) w1) as (w' & ok & -> & Hok).
    { rewrite length_drop. simpl in *. lia. }
    exists w', ok. split; [done|]. rewrite Hs in Hok. destruct ok.
    + by rewrite Hok, <- app_assoc, take_drop.
    + destruct Hok as [k Hk]. exists (Z.to_nat n + k)%nat. by rewrite Hk, <- app_assoc, <- take_take_drop.
  - destruct (IH (b :: rest) w1) as (w' & ok & -> & Hok); [specialize (Hlt eq_refl); lia|].
    exists w', ok. split; [done|]. by rewrite Hlaw in Hok.
  - exists w1, false. split; [done|]. exists 0%nat. by rewrite take_0, app_nil_r.
Qed.

(** [write_intr] writes everything, once and in order: through short writes
    and interruptions it returns the length of the buffer after the descriptor has
    received exactly the buffer's bytes, or -1 after a real error and a prefix of
    them.  It ends after at most one call per byte and interruption. *)
Theorem write_intr_spec (sent : W -> list Byte.byte) write (interruptions : W -> nat) fuel fd buf w :
  write_law sent (write fd) ->
  (forall bs w, (interruptions (write fd bs w).1 <= interruptions w)%nat) ->
  (forall bs w, (write fd bs w).2 = Err EINTR -> (interruptions (write fd bs w).1 < interruptions w)%nat) ->
  (interruptions w + length buf <= fuel)%nat ->
  exists w' r, write_intr fuel write fd buf w = Some (w', r) /\
    ((r = Z.of_nat (length buf) /\ sent w' = sent w ++ buf) \/
     (r = -1 /\ exists k, sent w' = sent w ++ take k buf)).
Proof.
  intros H1 H2 H3 H4. unfold write_intr.
  destruct (write_loop_spec sent (write fd) interruptions fuel buf w H1 H2 H3 H4) as (w' & [] & -> & Hok);
    eexists _, _; (split; [done|]); [left|right]; by split.
Qed.

(** [poll_intr( fds, timeout )], in milliseconds; the clock counts milliseconds.
    [start] is read once, [timeout] shrinks. *)
Fixpoint poll_loop (fuel : nat) (poll : Z -> W -> W * sysret) (now : W -> W * Z)
  (start timeout : Z) (w : W) : option (W * sysret) :=
  match fuel with
  | O => None
  | S fuel' =>
      let '(w1, r) := poll timeout w in
      match r with
      | Err EINTR =>
          let '(w2, t) := now w1 in
          let timeout' := timeout - (t - start) in
          if timeout' <=? 0 then Some (w2, Ok 0) else poll_loop fuel' poll now start timeout' w2
      | _ => Some (w1, r)
      end
  end.

Definition poll_intr (fuel : nat) (poll : Z -> W -> W * sysret) (now : W -> W * Z)
  (timeout : Z) (w : W) : option (W * sysret) :=
  if timeout <=? 0 then Some (poll 0 w)
  else let '(w1, start) := now w in poll_loop fuel poll now start timeout w1.
End retry.

(** A [poll] interrupted every 400 milliseconds, the world being its clock. *)
Definition every_400 (timeout : Z) (w : Z) : Z * sysret :=
  if timeout <=? 400 then (w + timeout, Ok 0) else (w + 400, Err EINTR).
Definition clock_ms (w : Z) : Z * Z := (w, w).

(** [poll_intr] with a time-out returns too early when it is interrupted
    more than once: the elapsed time is measured from the start of the call and
    subtracted from a time-out that was already reduced by it.  Interrupted every
    400 ms, a wait of one second is over after 800 ms. *)
Theorem poll_intr_times_out_early :
  poll_intr 10 every_400 clock_ms 1000 0 = Some (800, Ok 0).
Proof. reflexivity. Qed.

(** ** [ppoll_for] and [kevent_for]

    The two functions are the same loop over [ppoll] and [kevent]: the remaining
    time is the relative time less the time since the start; the first turn does
    not read the clock again. *)
Section wait_for.
Context {W : Type}.
Context (call : timespec -> W -> W * sysret).
Context (now : W -> W * Z).

Fixpoint for_loop (fuel : nat) (start rel : Z) (first : bool) (w : W) : option (W * bool) :=
  match fuel with
  | O => None
  | S fuel' =>
      let '(w1, elapsed) := if first then (w, 0) else let '(w1, t) := now w in (w1, t - start) in
      let remaining := rel - elapsed in
      if remaining <=? 0 then Some (w1, false)
      else
        let '(w2, r) := call (to_abs_timespec remaining) w1 in
        match r with
        | Ok n => Some (w2, 0 <? n)
        | Err EINTR => for_loop fuel' start rel false w2
        | Err OtherErrno => Some (w2, false)
        end
  end.

Definition ppoll_for (fuel : nat) (rel : Z) (w : W) : option (W * bool) :=
  let '(w1, start) := now w in for_loop fuel start rel true w1.

Definition kevent_for (fuel : nat) (rel : Z) (w : W) : option (W * bool) := ppoll_for fuel rel w.

(** The clock, and what is relied on: it is what [now] reads, and a call that
    answers 0 has waited for the time it was given. *)
Context (time : W -> Z).
Hypothesis now_time : forall w, time (now w).1 = time w /\ (now w).2 = time w.
Hypothesis call_waits : forall ts w, (call ts w).2 = Ok 0 -> time w + timespec_ns ts <= time (call ts w).1.
Hypothesis call_ok : forall ts w n, (call ts w).2 = Ok n -> 0 <= n.
Hypothesis call_errs : forall ts w, (call ts w).2 <> Err OtherErrno.
Context (interruptions : W -> nat).
Hypothesis now_interruptions : forall w, (interruptions (now w).1 <= interruptions w)%nat.
Hypothesis call_interruptions : forall ts w,
  (call ts w).2 = Err EINTR -> (interruptions (call ts w).1 < interruptions w)%nat.

Lemma for_loop_spec fuel start rel first w :
  (first = true -> time w = start) -> (interruptions w < fuel)%nat ->
  exists w' b, for_loop fuel start rel first w = Some (w', b) /\
    (b = false -> start + rel <= time w' \/ (first = true /\ rel <= 0)).
Proof.
  revert first w. induction fuel as [|fuel IH]; intros first w Hs Hf; [lia|]. cbn [for_loop].
  assert (exists w1 e, (if first then (w, 0) else let '(w1, t) := now w in (w1, t - start)) = (w1, e) /\
            time w1 = start + e /\ (first = true -> e = 0) /\ (interruptions w1 <= interruptions w)%nat)
    as (w1 & e & -> & Ht & He & Hint).
  { destruct first; [exists w, 0; split_and!; auto with lia; rewrite Hs by done; lia|].
    destruct (now_time w) as [H1 H2]. pose proof (now_interruptions w). destruct (now w) as [w1 t]; simpl in *.
    exists w1, (t - start). split_and!; (done || lia). }
  destruct (Z.leb_spec (rel - e) 0).
  { eexists _, _. split; [done|]. intros _. destruct first; [right; rewrite He in *; (done || lia)|left; lia]. }
  pose proof (call_waits (to_abs_timespec (rel - e)) w1) as Hw.
  pose proof (call_ok (to_abs_timespec (rel - e)) w1) as Hok.
  pose proof (call_errs (to_abs_timespec (rel - e)) w1) as Herr.
  pose proof (call_interruptions (to_abs_timespec (rel - e)) w1) as Hi.
  rewrite to_abs_timespec_ns in Hw.
  destruct (call (to_abs_timespec (rel - e)) w1) as [w2 [n|[]]]; simpl in *; [| |done].
  - eexists _, _. split; [done|]. intros Hn. bools. specialize (Hok n eq_refl).
    assert (n = 0) as -> by lia. specialize (Hw eq_refl). left. lia.
  - destruct (IH false w2) as (w' & b & -> & Hb); [done|specialize (Hi eq_refl); lia|].
    eexists _, _. split; [done|]. intros Hf'. destruct (Hb Hf') as [|[? ?]]; [by left|done].
Qed.

Lemma ppoll_for_spec fuel rel w :
  (interruptions w < fuel)%nat ->
  exists w' b, ppoll_for fuel rel w = Some (w', b) /\
    (b = false -> time w + rel <= time w' \/ rel <= 0).
Proof.
  intros Hf. unfold ppoll_for. destruct (now_time w) as [H1 H2]. pose proof (now_interruptions w).
  destruct (now w) as [w1 start]; simpl in *. subst start.
  destruct (for_loop_spec fuel (time w) rel true w1) as (w' & b & -> & Hb); [done|lia|].
  eexists _, _. split; [done|]. intros Hf'. destruct (Hb Hf') as [?|[_ ?]]; auto.
Qed.

(** [ppoll_for] and [kevent_for] do not time out early: interrupted finitely
    often they return, and they return [false] only when the time since the call
    has reached the relative time-out, since the remaining time is recomputed from
    the start of the call after every interruption (where [poll_intr] subtracts
    twice).  A non-positive time-out returns [false] at once. *)
Theorem wait_for_not_early fuel rel w :
  (interruptions w < fuel)%nat ->
  exists w' b, ppoll_for fuel rel w = Some (w', b) /\
    (b = false -> time w + rel <= time w' \/ rel <= 0).
Proof. apply ppoll_for_spec. Qed.

(** The [steady_clock] overload of [kevent_until] waits with [kevent_for] until
    the deadline; it does not look at identifiers. *)
Fixpoint kevent_until_steady (fuel : nat) (deadline : Z) (w : W) : option (W * bool) :=
  match fuel with
  | O => None
  | S fuel' =>
      let '(w1, t) := now w in
      if deadline - t <=? 0 then Some (w1, false)
      else
        match kevent_for fuel (deadline - t) w1 with
        | None => None
        | Some (w2, true) => Some (w2, true)
        | Some (w2, false) => kevent_until_steady fuel' deadline w2
        end
  end.

(** The [steady_clock] overload of [kevent_until] returns, after at most
    two rounds, and it returns [false] only at or past the deadline. *)
Theorem kevent_until_not_early fuel deadline w :
  (interruptions w < fuel)%nat ->
  exists w' b, kevent_until_steady (S fuel) deadline w = Some (w', b) /\
    (b = false -> deadline <= time w').
Proof.
  intros Hf. cbn [kevent_until_steady]. destruct (now_time w) as [H1 H2]. pose proof (now_interruptions w).
  destruct (now w) as [w1 t]; simpl in *. subst t. destruct (Z.leb_spec (deadline - time w) 0).
  { eexists _, _. split; [done|]. lia. }
  destruct (ppoll_for_spec (S fuel) (deadline - time w) w1) as (w2 & [] & E & Hb); [lia| |];
    unfold kevent_for; rewrite E; [by eexists _, _|].
  destruct (Hb eq_refl) as [Ht|]; [|lia]. destruct fuel as [|fuel]; [lia|]. cbn [kevent_until_steady].
  destruct (now_time w2) as [H3 H4]. destruct (now w2) as [w3 t]; simpl in *. subst t.
  rewrite (proj2 (Z.leb_le _ _)) by lia. eexists _, _. split; [done|]. lia.
Qed.
End wait_for.

(** ** [ppoll_until] *)
Section ppoll_until.
Context {W : Type}.

(** [ppoll] on the lock's and the timer's descriptor: an error, or the number of
    ready descriptors with whether each is readable. *)
Inductive poll2 := PollErr (e : errno) | Poll (n : Z) (lock_in timer_in : bool).

Context (ppoll : W -> W * poll2).
Context (timerfd_create : clock_id -> W -> W * Z).
Context (timerfd_settime : Z -> timespec -> W -> W * sysret).
Context (close : Z -> W -> W).
Context (now : clock_id -> W -> W * Z).

Fixpoint ppoll_loop (fuel : nat) (w : W) : option (W * bool) :=
  match fuel with
  | O => None
  | S fuel' =>
      let '(w1, r) := ppoll w in
      match r with
      | PollErr EINTR => ppoll_loop fuel' w1
      | PollErr OtherErrno => Some (w1, false)
      | Poll n lock_in timer_in =>
          if n =? 0 then ppoll_loop fuel' w1
          else if lock_in then Some (w1, true)
          else if timer_in then Some (w1, false)
          else Some (w1, false)
      end
  end.

(** Both overloads; the [scoped_file_descriptor] closes the timer on every
    return. *)
Definition ppoll_until (fuel : nat) (clk : clock_id) (deadline : Z) (w : W) : option (W * bool) :=
  let '(w1, timer_fd) := timerfd_create clk w in
  if timer_fd <? 0 then Some (w1, false)
  else
    let '(w2, t) := now clk w1 in
    if deadline - t <=? 0 then Some (close timer_fd w2, false)
    else
      let '(w3, r) := timerfd_settime timer_fd (to_abs_timespec (deadline - t)) w2 in
      if rc r <? 0 then Some (close timer_fd w3, false)
      else
        match ppoll_loop fuel w3 with
        | None => None
        | Some (w4, b) => Some (close timer_fd w4, b)
        end.

(** The descriptors that are open, and how the calls change them. *)
Context (opened : W -> list Z).
Hypothesis create_opens : forall clk w,
  let '(w', fd) := timerfd_create clk w in opened w' = if fd <? 0 then opened w else fd :: opened w.
Hypothesis close_closes : forall fd w l, opened w = fd :: l -> opened (close fd w) = l.
Hypothesis others_keep : forall w fd ts clk,
  opened (ppoll w).1 = opened w /\ opened (timerfd_settime fd ts w).1 = opened w /\ opened (now clk w).1 = opened w.

(** How often the loop goes round: interruptions and spurious answers. *)
Context (retries : W -> nat).
Hypothesis ppoll_retries : forall w,
  match (ppoll w).2 with
  | PollErr EINTR => (retries (ppoll w).1 < retries w)%nat
  | Poll n _ _ => n = 0 -> (retries (ppoll w).1 < retries w)%nat
  | _ => True
  end.
Hypothesis others_retries : forall w fd ts clk,
  (retries (timerfd_create clk w).1 <= retries w)%nat /\
  (retries (timerfd_settime fd ts w).1 <= retries w)%nat /\ (retries (now clk w).1 <= retries w)%nat.

Lemma ppoll_loop_spec fuel w :
  (retries w < fuel)%nat ->
  exists w' b, ppoll_loop fuel w = Some (w', b) /\ opened w' = opened w /\
    (b = true -> exists w0 n timer_in, (ppoll w0).2 = Poll n true timer_in).
Proof.
  revert w. induction fuel as [|fuel IH]; intros w Hf; simpl; [lia|].
  destruct (others_keep w 0 (Timespec 0 0) CLOCK_REALTIME) as (Ho & _ & _).
  pose proof (ppoll_retries w) as Hr.
  destruct (ppoll w) as [w1 [[]|n lin tin]] eqn:E; simpl in Ho, Hr; rewrite <- Ho.
  - apply IH. lia.
  - by eexists _, _.
  - destruct (Z.eqb_spec n 0) as [Hn|]; [apply IH; specialize (Hr Hn); lia|].
    destruct lin; [|destruct tin; by eexists _, _].
    eexists _, _. split_and!; [done|done|]. intros _. exists w, n, tin. by rewrite E.
Qed.

(** C35: [ppoll_until] returns and leaks no descriptor: on every path, a failing
    [timerfd_create], a deadline in the past, a failing [timerfd_settime], a
    time-out, a wakeup, the open descriptors after the call are those before it;
    and it returns [true] only when the lock's descriptor was readable. *)
Theorem ppoll_until_closes_timer fuel clk deadline w :
  (retries w < fuel)%nat ->
  exists w' b, ppoll_until fuel clk deadline w = Some (w', b) /\ opened w' = opened w /\
    (b = true -> exists w0 n timer_in, (ppoll w0).2 = Poll n true timer_in).
Proof.
  intros Hf. unfold ppoll_until. pose proof (create_opens clk w) as Hc.
  destruct (others_retries w 0 (Timespec 0 0) clk) as (Hr1 & _ & _).
  destruct (timerfd_create clk w) as [w1 fd]. destruct (fd <? 0); [by eexists _, _|].
  destruct (others_keep w1 fd (Timespec 0 0) clk) as (_ & _ & Hn).
  destruct (others_retries w1 fd (Timespec 0 0) clk) as (_ & _ & Hr2).
  destruct (now clk w1) as [w2 t]; simpl in Hn, Hr1, Hr2. rewrite Hc in Hn.
  destruct (deadline - t <=? 0); [eexists _, _; split_and!; [done|by apply close_closes|done]|].
  destruct (others_keep w2 fd (to_abs_timespec (deadline - t)) clk) as (_ & Hset & _).
  destruct (others_retries w2 fd (to_abs_timespec (deadline - t)) clk) as (_ & Hr3 & _).
  destruct (timerfd_settime fd _ w2) as [w3 r]; simpl in Hset, Hr3. rewrite Hn in Hset.
  destruct (rc r <? 0); [eexists _, _; split_and!; [done|by apply close_closes|done]|].
  destruct (ppoll_loop_spec fuel w3) as (w4 & b & -> & Ho & Hb); [lia|].
  eexists _, _. split_and!; [done| |done]. apply close_closes. congruence.
Qed.
End ppoll_until.

(** ** [kevent_until] *)
Section kevent_until.
Context {W : Type}.

(** A blocking [kevent]: an error, no event, or an event's identifier. *)
Inductive kresult := KErr (e : errno) | KNone | KEvent (ident : Z).

Context (kevent : W -> W * kresult).
Context (add_timer : Z -> Z -> W -> W * sysret) (delete_timer : Z -> W -> W).

Definition timer_ident : Z := 3735928559. (** 0xdeadbeef *)

Fixpoint kevent_loop (fuel : nat) (lock_ident timer : Z) (w : W) : option (W * bool) :=
  match fuel with
  | O => None
  | S fuel' =>
      let '(w1, r) := kevent w in
      match r with
      | KErr EINTR | KNone => kevent_loop fuel' lock_ident timer w1
      | KErr OtherErrno => Some (w1, false)
      | KEvent ident =>
          if ident =? lock_ident then Some (w1, true)
          else if ident =? timer then Some (w1, false)
          else Some (w1, false)
      end
  end.

Definition kevent_until_system (fuel : nat) (lock_ident deadline : Z) (w : W) : option (W * bool) :=
  let '(w1, r) := add_timer timer_ident deadline w in
  if rc r <? 0 then Some (w1, false)
  else
    match kevent_loop fuel lock_ident timer_ident w1 with
    | None => None
    | Some (w2, b) => Some (delete_timer timer_ident w2, b)
    end.

Context (armed : W -> bool) (retries : W -> nat).
Hypothesis delete_disarms : forall ident w, armed (delete_timer ident w) = false.
Hypothesis add_arms : forall ident t w,
  armed (add_timer ident t w).1 = (0 <=? rc (add_timer ident t w).2) || armed w.
Hypothesis add_retries : forall ident t w, (retries (add_timer ident t w).1 <= retries w)%nat.
Hypothesis kevent_retries : forall w,
  match (kevent w).2 with
  | KErr EINTR | KNone => (retries (kevent w).1 < retries w)%nat
  | _ => True
  end.

Lemma kevent_loop_spec fuel lock_ident timer w :
  (retries w < fuel)%nat ->
  exists w' b, kevent_loop fuel lock_ident timer w = Some (w', b) /\
    exists w0 r, kevent w0 = (w', r) /\ (b = true <-> r = KEvent lock_ident).
Proof.
  revert w. induction fuel as [|fuel IH]; intros w Hf; simpl; [lia|].
  pose proof (kevent_retries w) as Hr. destruct (kevent w) as [w1 [[]| |ident]] eqn:E; simpl in Hr.
  - apply IH. lia.
  - by eexists _, _; split; [done|]; eexists w, _.
  - apply IH. lia.
  - destruct (Z.eqb_spec ident lock_ident) as [->|Hne].
    + by eexists _, _; split; [done|]; eexists w, _.
    + destruct (ident =? timer); eexists _, _; (split; [done|]); exists w, (KEvent ident);
        (split; [done|]); split; congruence.
Qed.

(** The [system_clock] overload of [kevent_until] returns, leaves no timer
    armed, and after arming it returns [true] exactly when the event it received
    last carries the identifier it was asked for: any other event of the queue,
    such as the fast mutex's event 2 when the caller asks for 1, is consumed and
    reported as a time-out. *)
Theorem kevent_until_result fuel lock_ident deadline w :
  (retries w < fuel)%nat -> armed w = false ->
  exists w' b, kevent_until_system fuel lock_ident deadline w = Some (w', b) /\ armed w' = false /\
    (0 <= rc (add_timer timer_ident deadline w).2 ->
     exists w0 r, (kevent w0).2 = r /\ w' = delete_timer timer_ident (kevent w0).1 /\
       (b = true <-> r = KEvent lock_ident)).
Proof.
  intros Hf Ha. unfold kevent_until_system. pose proof (add_arms timer_ident deadline w) as Harm.
  pose proof (add_retries timer_ident deadline w) as Har.
  destruct (add_timer timer_ident deadline w) as [w1 r]; simpl in *.
  destruct (Z.ltb_spec (rc r) 0).
  - eexists _, _. split; [done|]. rewrite Ha, (proj2 (Z.leb_gt _ _)) in Harm by lia.
    split; [exact Harm|lia].
  - destruct (kevent_loop_spec fuel lock_ident timer_ident w1) as (w2 & b & -> & w0 & r0 & E & Hb); [lia|].
    eexists _, _. split; [done|]. split; [apply delete_disarms|]. intros _.
    exists w0, r0. by rewrite E.
Qed.
End kevent_until.

(** ** [wait_handle_for], [wait_handle_until] *)
Section wait_handle.
Context {W : Type}.
(** [CreateWaitableTimerW] (no handle is [None]), [SetWaitableTimer],
    [WaitForMultipleObjects], [CloseHandle]. *)
Context (create_timer : W -> W * option Z) (set_timer : Z -> Z -> W -> W * bool).
Context (wait_multiple : Z -> Z -> W -> W * Z) (close_handle : Z -> W -> W) (now : clock_id -> W -> W * Z).

(** [WAIT_OBJECT_0] is 0. *)
Definition wait_handle_until (lock_handle timer_handle : Z) (w : W) : W * bool :=
  let '(w1, r) := wait_multiple lock_handle timer_handle w in
  (w1, if r =? 0 then true else if r =? 0 + 1 then false else false).

(** Units of 100 nanoseconds, negative for a relative time. *)
Definition filetime_for (rel : Z) : Z :=
  let u := - Z.quot rel 100 in if u =? 0 then -1 else u.

Definition filetime_until (remaining : Z) : Z := - Z.quot remaining 100.

(** Arm the timer and wait; the [scoped_handle] closes it. *)
Definition timer_wait (timer lock_handle units : Z) (w : W) : W * bool :=
  let '(w1, ok) := set_timer timer units w in
  if negb ok then (close_handle timer w1, false)
  else let '(w2, b) := wait_handle_until lock_handle timer w1 in (close_handle timer w2, b).

Definition wait_handle_for (handle rel : Z) (w : W) : W * bool :=
  if rel <=? 0 then (w, false)
  else
    let '(w1, t) := create_timer w in
    match t with
    | None => (w1, false)
    | Some timer => timer_wait timer handle (filetime_for rel) w1
    end.

(** The [system_clock] and the [steady_clock] overload of [wait_handle_until]. *)
Definition wait_handle_until_clock (clk : clock_id) (handle deadline : Z) (w : W) : W * bool :=
  let '(w1, t) := create_timer w in
  match t with
  | None => (w1, false)
  | Some timer =>
      let '(w2, tm) := now clk w1 in
      if deadline - tm <=? 0 then (close_handle timer w2, false)
      else timer_wait timer handle (filetime_until (deadline - tm)) w2
  end.
End wait_handle.

(** The relative due time given to the waitable timer: for a positive
    duration it is negative (so relative, and never the absolute time 0), and the
    wait is at most the duration, or one tick of 100 ns for a shorter one;
    [wait_handle_until] lacks the correction and asks for 0 when less than 100 ns
    remain. *)
Theorem filetime_for_bounds rel :
  0 < rel ->
  filetime_for rel < 0 /\ - filetime_for rel * 100 <= Z.max rel 100 /\ rel < - filetime_for rel * 100 + 100 /\
  (rel < 100 -> filetime_until rel = 0).
Proof.
  intros H. unfold filetime_for, filetime_until.
  pose proof (Z.quot_rem' rel 100). pose proof (Z.rem_bound_pos rel 100 ltac:(lia) ltac:(lia)).
  pose proof (Z.quot_pos rel 100 ltac:(lia) ltac:(lia)).
  destruct (Z.eqb_spec (- Z.quot rel 100) 0); lia.
Qed.

(** ** Witnesses *)

(** Calls interrupted [w] more times. *)
Definition interrupted (w : nat) : nat * sysret := match w with O => (O, Ok 8) | S w' => (w', Err EINTR) end.

Lemma retry_intr_spec_witness :
  exists w' r, retry_intr 4 interrupted 3%nat = Some (w', r) /\ r <> Err EINTR /\
    exists w0, interrupted w0 = (w', r).
Proof. apply (retry_intr_spec interrupted id); [intros [|w]; simpl; [done|unfold id; lia]|unfold id; lia]. Defined.

(** A descriptor that takes at most two bytes at a time, and interrupts every
    second call while it can. *)
Definition two_bytes (fd : nat) (bs : list Byte.byte) (w : list Byte.byte * nat)
  : (list Byte.byte * nat) * sysret :=
  match w.2 with
  | S k => ((w.1, k), Err EINTR)
  | O => ((w.1 ++ take 2 bs, O), Ok (Z.of_nat (length (take 2 bs))))
  end.

Lemma two_bytes_law fd : write_law fst (two_bytes fd).
Proof.
  intros bs [s [|k]] Hne; unfold two_bytes; cbn [fst snd]; [|done]. split.
  - destruct bs as [|b [|b' bs]]; cbn [take length]; rewrite ?firstn_O; cbn [length]; [done|lia..].
  - f_equal. rewrite Nat2Z.id, length_take. destruct bs as [|b [|b' bs]]; done.
Qed.

Lemma write_intr_spec_witness :
  exists w' r, write_intr 6 two_bytes 1 [Byte.x00; Byte.x01; Byte.x02] ([], 3%nat) = Some (w', r) /\
    ((r = 3 /\ w'.1 = [] ++ [Byte.x00; Byte.x01; Byte.x02]) \/
     (r = -1 /\ exists k, w'.1 = [] ++ take k [Byte.x00; Byte.x01; Byte.x02])).
Proof.
  apply (write_intr_spec fst two_bytes snd 6 1 [Byte.x00; Byte.x01; Byte.x02] ([], 3%nat)); [apply two_bytes_law| | |simpl; lia];
    intros bs [s [|k]]; simpl; (done || lia).
Defined.

(** A clock with [w.2] interruptions left: a call waits for half its time and is
    interrupted, or waits to the end. *)
Definition half_call (ts : timespec) (w : Z * nat) : (Z * nat) * sysret :=
  match w.2 with
  | S k => ((w.1 + Z.quot (timespec_ns ts) 2, k), Err EINTR)
  | O => ((w.1 + timespec_ns ts, O), Ok 0)
  end.
Definition read_clock (w : Z * nat) : (Z * nat) * Z := (w, w.1).

Lemma wait_for_not_early_witness :
  exists w' b, ppoll_for half_call read_clock 5 1000 (0, 3%nat) = Some (w', b) /\
    (b = false -> 0 + 1000 <= w'.1 \/ 1000 <= 0).
Proof.
  apply (wait_for_not_early half_call read_clock fst) with (interruptions := snd);
    try (intros ts [s [|k]]; simpl; first [done|lia|intros n [= <-]; lia]); try (intros [s k]; simpl; first [done|lia]);
    simpl; lia.
Defined.

Lemma kevent_until_not_early_witness :
  exists w' b, kevent_until_steady half_call read_clock 5 1000 (0, 3%nat) = Some (w', b) /\
    (b = false -> 1000 <= w'.1).
Proof.
  apply (kevent_until_not_early half_call read_clock fst) with (interruptions := snd);
    try (intros ts [s [|k]]; simpl; first [done|lia|intros n [= <-]; lia]); try (intros [s k]; simpl; first [done|lia]);
    simpl; lia.
Defined.

(** A kernel whose state is the list of open descriptors. *)
Lemma ppoll_until_closes_timer_witness :
  exists w' b, ppoll_until (fun w : list Z => (w, Poll 1 true false)) (fun _ w => (4 :: w, 4))
    (fun _ _ w => (w, Ok 0)) (fun _ w => tail w) (fun _ w => (w, 0)) 1 CLOCK_REALTIME 100 [3] = Some (w', b) /\
    w' = [3].
Proof.
  destruct (ppoll_until_closes_timer (fun w : list Z => (w, Poll 1 true false)) (fun _ w => (4 :: w, 4))
           (fun _ _ w => (w, Ok 0)) (fun _ w => tail w) (fun _ w => (w, 0)) id)
    with (retries := fun _ : list Z => 0%nat) (fuel := 1%nat) (clk := CLOCK_REALTIME) (deadline := 100) (w := [3])
    as (w' & b & E & Ho & _); try done.
  - by intros fd w l; unfold id; intros ->.
  - simpl. lia.
  - exists w', b. by split.
Defined.

(** A queue on which event 2 is pending; the world is whether the timer is armed. *)
Lemma kevent_until_result_witness :
  exists w', kevent_until_system (fun w : bool => (w, KEvent 2)) (fun _ _ w => (true, Ok 0)) (fun _ _ => false)
    1 1 0 false = Some (w', false) /\ w' = false.
Proof.
  destruct (kevent_until_result (fun w : bool => (w, KEvent 2)) (fun _ _ w => (true, Ok 0)) (fun _ _ => false)
    id (fun _ => 0%nat)) with (fuel := 1%nat) (lock_ident := 1) (deadline := 0) (w := false)
    as (w' & b & E & Ha & _); try done; try (simpl; lia).
  exists w'. injection E as <- <-. done.
Defined.

Lemma filetime_for_bounds_witness :
  filetime_for 50 < 0 /\ - filetime_for 50 * 100 <= Z.max 50 100 /\ 50 < - filetime_for 50 * 100 + 100 /\
  (50 < 100 -> filetime_until 50 = 0).
Proof. apply filetime_for_bounds. lia. Defined.
