(* ===== verification/Win32Mutex.v ===== *)
(** * The Windows mutexes

    [win32_mutex] (mutex/win32_mutex.hpp and .cpp), a semaphore with one token, and
    [win32_event_mutex] (mutex/win32_event_mutex.hpp and .cpp), the same with an
    auto-reset event for event loops and a word that counts the clients registered
    with [async_waiter_guard].  One machine with a flag.  The semaphore is a
    [Counter] and the event a [Notifier] of [Kernel.v]; an event loop that waits for
    the auto-reset event consumes it. *)
From S2P Require Import Prelude Kernel Machine Futex.
#[local] Open Scope Z_scope.

Inductive pc :=
| Idle
| Holding
| Lock                    (** [lock()]: [WaitForSingleObject( handle_, INFINITE )] *)
| TryLock (guard : bool)  (** [try_lock()], called by a client or by [try_acquire()] of a guard *)
| UntilCheck              (** [try_lock_until()]: [Clock::now() >= abs_time] *)
| TimedWait               (** [try_lock_until()]: [wait_handle_until] *)
| Unlock                  (** [unlock()]: [ReleaseSemaphore] *)
| UnlockLoad              (** [unlock()]: [state_.load()] *)
| UnlockSet               (** [unlock()]: [SetEvent] *)
| GuardAdd                (** the guard's constructor: [add_async_waiter()] *)
| Guard (tried : bool)    (** the event loop waits for [event_]; was [try_acquire()] called since the registration? *)
| Woken                   (** the wait for [event_] is over *)
| GuardConsume            (** [try_acquire()]: [consume_lock()] *)
| Remove (ok : bool).     (** [remove_async_waiter()], holding the lock or not *)

Inductive method :=
| MLock | MTryLock | MTryLockFor (zero : bool) | MTryLockUntil | MUnlock | MGuard | MTryAcquire | MRelease.

Record state (K E : Type) := State { handle_ : K; state_ : Z; event_ : E }.
#[global] Arguments State {K E}. #[global] Arguments handle_ {K E}. #[global] Arguments state_ {K E}.
#[global] Arguments event_ {K E}.

Section machine.
Context {K E : Type} `{Counter K, Notifier E} (has_event : bool).
Implicit Types s : state K E.

Definition set_handle (k : K) s : state K E := State k (state_ s) (event_ s).
Definition set_event (e : E) s : state K E := State (handle_ s) (state_ s) e.

Definition add_async_waiter s : state K E := State (handle_ s) (u32 (state_ s + 2)) (event_ s).
Definition remove_async_waiter s : state K E := State (handle_ s) (u32 (state_ s - 2)) (event_ s).

(** A wait for [handle_] that takes the token. *)
Definition wait_handle s : option (state K E * pc) :=
  let '(k, ok) := k_take (handle_ s) in if ok then Some (set_handle k s, Holding) else None.

Definition try_lock (guard : bool) s : state K E * pc :=
  let '(k, ok) := k_take (handle_ s) in
  (set_handle k s, if guard then if ok then GuardConsume else Guard true else if ok then Holding else Idle).

(** [( s >> 1 ) != 0] *)
Definition has_waiters (v : Z) : bool := negb (Z.shiftr v 1 =? 0).

Definition consume_lock s : state K E := set_event (k_consume (event_ s)) s.

Definition enter (m : method) (l : pc) : option pc :=
  match l, m with
  | Idle, MLock => Some Lock
  | Idle, (MTryLock | MTryLockFor true) => Some (TryLock false)
  | Idle, (MTryLockFor false | MTryLockUntil) => Some UntilCheck
  | Holding, MUnlock => Some Unlock
  | Idle, MGuard => if has_event then Some GuardAdd else None
  | (Guard _ | Woken), MTryAcquire => Some (TryLock true)
  | (Guard _ | Woken), MRelease => Some (Remove false)
  | _, _ => None
  end.

Definition tstep (tid : nat) (ch : choice method) s (l : pc) : option (state K E * pc) :=
  match l, ch with
  | _, Call m => pair s <$> enter m l
  | Lock, Kernel Go => wait_handle s
  | TryLock g, Act _ => Some (try_lock g s)
  | UntilCheck, Clock expired => Some (s, if expired then Idle else TimedWait)
  | TimedWait, Kernel Go => wait_handle s
  | TimedWait, Kernel (TimedOut | Fault) => Some (s, Idle)
  | Unlock, Act _ => Some (set_handle (k_post 1 (handle_ s)) s, if has_event then UnlockLoad else Idle)
  | UnlockLoad, Act _ => Some (s, if has_waiters (state_ s) then UnlockSet else Idle)
  | UnlockSet, Act _ => Some (set_event (k_notify (event_ s)) s, Idle)
  | GuardAdd, Act _ => Some (add_async_waiter s, Guard false)
  | Guard _, Kernel Go => if k_ready (event_ s) then Some (consume_lock s, Woken) else None
  | GuardConsume, Act _ => Some (consume_lock s, Remove true)
  | Remove ok, Act _ => Some (remove_async_waiter s, if ok then Holding else Idle)
  | _, _ => None
  end.

(** Event loops that try to acquire whenever they are woken. *)
Definition tstep_obliging (tid : nat) (ch : choice method) s (l : pc) : option (state K E * pc) :=
  match l, ch with
  | Woken, Call MRelease => None
  | _, _ => tstep tid ch s l
  end.

Definition init (n : nat) : config (state K E) pc := Config (State (k_create 1) 0 k_init) (replicate n Idle).

(** ** The invariant *)

Definition holds (l : pc) : bool :=
  match l with Holding | Unlock | GuardConsume | Remove true => true | _ => false end.

Definition registered (l : pc) : bool :=
  match l with Guard _ | Woken | TryLock true | GuardConsume | Remove _ => true | _ => false end.

(** With a guard, so with an event. *)
Definition eventful (l : pc) : bool := match l with GuardAdd => true | _ => registered l end.

(** An event loop that tried and now waits for the event. *)
Definition passive (l : pc) : bool := match l with Guard true => true | _ => false end.

(** On its way to set the event, or to try. *)
Definition active (l : pc) : bool := match l with UnlockLoad | UnlockSet | Woken | TryLock true => true | _ => false end.

Record Inv (n : nat) (c : config (state K E) pc) : Prop := {
  inv_threads : length (threads c) = n;
  inv_tokens : 0 <= k_tokens (handle_ (shared c)) /\
    k_tokens (handle_ (shared c)) + count holds (threads c) = 1;
  inv_event : Forall (fun l => eventful l = true -> has_event = true) (threads c);
  inv_word : state_ (shared c) = 2 * count registered (threads c)
}.

Definition Wake (c : config (state K E) pc) : Prop :=
  k_tokens (handle_ (shared c)) = 1 -> 1 <= count passive (threads c) ->
  k_ready (event_ (shared c)) = true \/ 1 <= count active (threads c).

Context `{!CounterLaws K, !NotifierLaws E}.

Lemma has_waiters_count n : has_waiters (2 * n) = negb (n =? 0).
Proof. unfold has_waiters. rewrite Z.mul_comm, Z.shiftr_div_pow2, Z.div_mul by lia. done. Qed.

Lemma win32_inv_init n : Inv n (init n) /\ Wake (init n).
Proof.
  split; [|intros _; simpl; by rewrite count_replicate].
  constructor; cbn [init shared threads state_ handle_]; rewrite ?length_replicate, ?count_replicate by done; try done.
  - pose proof (k_max_pos (K := K)). rewrite k_create_tokens by lia. lia.
  - by apply Forall_replicate.
Qed.

Section step.
Context (i : nat) (ch : choice method) (s s' : state K E) (l l' : pc).
Hypothesis Hs : tstep i ch s l = Some (s', l').
Hypothesis Hpos : 0 <= k_tokens (handle_ s).

Ltac win32_cases Hs :=
  pose proof (k_take_tokens (handle_ s) Hpos) as Htk; pose proof (k_post_empty (handle_ s)) as Hp;
  destruct l as [| | |g| | | | | | |tr| | |ok]; destruct ch as [m|b|[]|ex]; try discriminate Hs; simpl in Hs;
  try (destruct m as [| |[]| | | | | ]); try discriminate Hs; try (destruct ok); try (destruct g);
  unfold wait_handle, try_lock, consume_lock, add_async_waiter, remove_async_waiter, set_handle, set_event in *;
  step_cases Hs; repeat (case_match; simplify_eq/=); simpl in *.

(** The token is in the handle or with the thread. *)
Lemma win32_tokens :
  k_tokens (handle_ s) + Z.b2z (holds l) <= 1 ->
  k_tokens (handle_ s') + Z.b2z (holds l') = k_tokens (handle_ s) + Z.b2z (holds l) /\ 0 <= k_tokens (handle_ s').
Proof using Hs Hpos CounterLaws0. intros Hone. win32_cases Hs; lia. Qed.

Lemma win32_word n : state_ s = 2 * n -> 0 <= n - Z.b2z (registered l) ->
  n - Z.b2z (registered l) + Z.b2z (registered l') < 2 ^ 31 ->
  state_ s' = 2 * (n - Z.b2z (registered l) + Z.b2z (registered l')).
Proof using Hs Hpos CounterLaws0. intros Hw Hn Hb. win32_cases Hs; rewrite ?u32_small by lia; lia. Qed.

Lemma win32_event : eventful l' = true -> eventful l = true \/ has_event = true.
Proof using Hs Hpos CounterLaws0. intros Hl. win32_cases Hs; auto; congruence. Qed.

(** A step after which the lock is free keeps the event ready, or somebody on the
    way, or leaves nobody to wake. *)
Lemma win32_wake :
  (l = Woken -> ch <> Call MRelease) -> k_tokens (handle_ s) + Z.b2z (holds l) <= 1 -> k_tokens (handle_ s') = 1 ->
  k_ready (event_ s') = true \/ active l' = true \/ has_event = false \/
  (l = UnlockLoad /\ has_waiters (state_ s) = false) \/
  (active l = false /\ k_tokens (handle_ s) = 1 /\ (passive l' = true -> passive l = true) /\
   (k_ready (event_ s) = true -> k_ready (event_ s') = true)).
Proof using Hs Hpos CounterLaws0 NotifierLaws0.
  intros Hm Hh Ht. win32_cases Hs; rewrite ?k_notify_ready; auto 10; try lia; try congruence;
    try (by destruct Hm); right; right; right; right; split_and!; done || lia.
Qed.
End step.

Lemma win32_step_ok n i ch c l s' l' :
  Z.of_nat n < 2 ^ 31 -> Inv n c -> threads c !! i = Some l -> tstep i ch (shared c) l = Some (s', l') ->
  Inv n (Config s' (<[i := l']> (threads c))).
Proof.
  intros Hn [Hl [Hp Ht] He Hw] Hi Hs. destruct c as [s ts]; cbn [shared threads] in *.
  pose proof (count_others holds _ _ _ Hi).
  destruct (win32_tokens _ _ _ _ _ _ Hs Hp) as [? ?]; [lia|]. pose proof (count_others registered _ _ _ Hi).
  pose proof (count_bounds registered (<[i := l']> ts)) as Hb. rewrite length_insert, (count_insert _ _ _ _ _ Hi) in Hb.
  constructor; cbn [shared threads]; rewrite ?length_insert, ?(count_insert _ _ _ _ _ Hi); [done|lia|..].
  - apply Forall_insert; [done|]. intros El.
    destruct (win32_event _ _ _ _ _ _ Hs Hp El); [by apply (Forall_lookup_1 _ _ _ _ He Hi)|done].
  - apply (win32_word _ _ _ _ _ _ Hs Hp); [done|lia..].
Qed.

Lemma win32_wake_ok n i ch c l s' l' :
  Inv n c -> Wake c -> threads c !! i = Some l -> (l = Woken -> ch <> Call MRelease) ->
  tstep i ch (shared c) l = Some (s', l') -> Wake (Config s' (<[i := l']> (threads c))).
Proof.
  intros [Hl [Hp Ht] He Hw] HW Hi Hm Hs. unfold Wake; cbn [shared threads]. rewrite !(count_insert _ _ _ _ _ Hi).
  intros Hfree Hpas. pose proof (count_others holds _ _ _ Hi). pose proof (count_others active _ _ _ Hi).
  pose proof (count_others passive _ _ _ Hi).
  assert (forall x : pc, passive x = true -> registered x = true /\ eventful x = true) as Hpr by (by intros []).
  assert (1 <= count passive (threads c) -> has_event = true /\ has_waiters (state_ (shared c)) = true) as Hreg.
  { intros Hc. destruct (count_witness passive (threads c)) as (j & x & Hj & Hx%Hpr); [lia|].
    split; [apply (Forall_lookup_1 _ _ _ _ He Hj), Hx|]. rewrite Hw, has_waiters_count.
    pose proof (count_pos registered _ _ _ Hj (proj1 Hx)). apply negb_true_iff, Z.eqb_neq. lia. }
  destruct (win32_wake _ _ _ _ _ _ Hs Hp Hm) as [?|[El|[Ee|[[-> Ee]|(Ea & E1 & E2 & E3)]]]]; [lia|done|by left|..].
  - rewrite El. right. simpl. lia.
  - assert (passive l' = false) as El.
    { destruct (passive l') eqn:El; [|done]. pose proof (proj2 (Hpr l' El)) as Hev.
      destruct (win32_event _ _ _ _ _ _ Hs Hp Hev) as [Hev'|?]; [|congruence].
      pose proof (Forall_lookup_1 _ _ _ _ He Hi Hev'). congruence. }
    rewrite El in Hpas. simpl in Hpas. destruct Hreg; [destruct (passive l); simpl in *; lia|congruence].
  - assert (passive l' = false) as El.
    { simpl in Hs. destruct ch; try discriminate Hs; simpl in Hs; rewrite ?Ee in Hs; by simplify_eq. }
    rewrite El in Hpas. simpl in Hpas. destruct Hreg; [lia|congruence].
  - destruct HW as [?|?]; [done| |left; auto|right; rewrite Ea in *; destruct (active l'); simpl in *; lia].
    destruct (passive l') eqn:El'; [rewrite E2 in * by done|destruct (passive l)]; simpl in *; lia.
Qed.

Lemma win32_inv_reachable n c : Z.of_nat n < 2 ^ 31 -> reachable tstep (init n) c -> Inv n c.
Proof. intros Hn. apply invariant_reachable; [apply win32_inv_init|]. intros. by eapply win32_step_ok. Qed.

Lemma obliging_step i ch s l r : tstep_obliging i ch s l = Some r -> tstep i ch s l = Some r /\ (l = Woken -> ch <> Call MRelease).
Proof. unfold tstep_obliging. intros Hs. destruct l; try (by split). by destruct ch as [[]| | |]. Qed.

Lemma win32_wake_reachable n c :
  Z.of_nat n < 2 ^ 31 -> reachable tstep_obliging (init n) c -> Inv n c /\ Wake c.
Proof.
  intros Hn. apply (invariant_reachable _ (fun c => Inv n c /\ Wake c)); [apply win32_inv_init|].
  intros i ch d l s' l' [HI HW] Hi [Hs Hm]%obliging_step. split; [by eapply win32_step_ok|by eapply win32_wake_ok].
Qed.

(** ** Theorems *)

(** Mutual exclusion of the Windows mutexes: at most one thread or event loop
    holds the mutex, exactly when the semaphore is empty, and the word of
    [win32_event_mutex] is twice the clients registered. *)
Theorem win32_mutex_exclusion n c :
  Z.of_nat n < 2 ^ 31 -> reachable tstep (init n) c ->
  count holds (threads c) <= 1 /\ (count holds (threads c) = 1 <-> k_tokens (handle_ (shared c)) = 0) /\
  state_ (shared c) = 2 * count registered (threads c).
Proof.
  intros Hn [_ [H1 H2] _ Hw]%win32_inv_reachable; [|done]. pose proof (count_bounds holds (threads c)).
  split_and!; [lia|lia|done].
Qed.

(** C26: no lost wakeup of [win32_event_mutex], if event loops that are woken try to
    acquire: while the mutex is free and an event loop that has tried waits, the
    event is set, or somebody is about to set it or to try. *)
Theorem win32_event_mutex_no_lost_wakeup n c i :
  Z.of_nat n < 2 ^ 31 -> reachable tstep_obliging (init n) c ->
  k_tokens (handle_ (shared c)) = 1 -> threads c !! i = Some (Guard true) ->
  k_ready (event_ (shared c)) = true \/ exists j l, threads c !! j = Some l /\ active l = true.
Proof.
  intros Hn [HI HW]%win32_wake_reachable Hf Hi; [|done]. pose proof (count_pos passive _ _ _ Hi eq_refl) as Hc.
  destruct (HW Hf Hc) as [?|Ha]; [by left|right]. apply count_witness. lia.
Qed.
End machine.

#[global] Arguments tstep {K E _ _} has_event tid ch s l.

(** The two classes. *)
Definition win32_mutex {K E : Type} `{Counter K, Notifier E} := tstep (K := K) (E := E) false.
Definition win32_event_mutex {K E : Type} `{Counter K, Notifier E} := tstep (K := K) (E := E) true.

(** Two event loops have tried and wait; thread 0 unlocks; the first is woken,
    which consumes the event, and its operation was cancelled. *)
Definition cancel_sched : list (nat * choice method) :=
  [(0, Call MLock); (0, Kernel Go);
   (1, Call MGuard); (1, Act false); (1, Call MTryAcquire); (1, Act false);
   (2, Call MGuard); (2, Act false); (2, Call MTryAcquire); (2, Act false);
   (0, Call MUnlock); (0, Act false); (0, Act false); (0, Act false);
   (1, Kernel Go); (1, Call MRelease); (1, Act false)]%nat.

(** An event loop that registers after a failed [try_lock()], with the [unlock()]
    in between, as in [AsyncMutex.late_sched]. *)
Definition late_sched : list (nat * choice method) :=
  [(0, Call MLock); (0, Kernel Go); (1, Call MTryLock); (1, Act false);
   (0, Call MUnlock); (0, Act false); (0, Act false); (1, Call MGuard); (1, Act false)]%nat.

#[local] Existing Instance kqueue_event.

(** The event loops of [win32_event_mutex] can sleep on a free mutex: the
    auto-reset event is consumed by the wait, so a cancelled operation, which
    unregisters without trying to acquire, takes the wakeup from the other
    waiters; and a late registration is not noticed by [unlock()]. *)
Theorem win32_event_mutex_loses_wakeup :
  (exists c, reachable (tstep (K := Z) (E := bool) true) (init 3) c /\
     threads c = [Idle; Idle; Guard true] /\ k_tokens (handle_ (shared c)) = 1 /\ event_ (shared c) = false) /\
  (exists c, reachable (tstep (K := Z) (E := bool) true) (init 2) c /\
     threads c = [Idle; Guard false] /\ k_tokens (handle_ (shared c)) = 1 /\ event_ (shared c) = false).
Proof.
  split; eexists; split.
  - apply (exec_reachable _ cancel_sched). by vm_compute.
  - done.
  - apply (exec_reachable _ late_sched). by vm_compute.
  - done.
Qed.

(** ** Witnesses *)

(** Thread 1 has tried and waits, thread 0 has unlocked and set the event. *)
Definition handoff_sched : list (nat * choice method) :=
  [(0, Call MLock); (0, Kernel Go); (1, Call MGuard); (1, Act false); (1, Call MTryAcquire); (1, Act false);
   (0, Call MUnlock); (0, Act false); (0, Act false); (0, Act false)]%nat.

Definition handoff_config : config (state Z bool) pc := Config (State 1 2 true) [Idle; Guard true].

Lemma win32_mutex_exclusion_witness :
  count holds (threads handoff_config) <= 1 /\
  (count holds (threads handoff_config) = 1 <-> k_tokens (handle_ (shared handoff_config)) = 0) /\
  state_ (shared handoff_config) = 2 * count registered (threads handoff_config).
Proof.
  apply (win32_mutex_exclusion true 2 handoff_config); [lia|].
  apply (exec_reachable _ handoff_sched). by vm_compute.
Defined.

Lemma win32_event_mutex_no_lost_wakeup_witness :
  k_ready (event_ (shared handoff_config)) = true \/
  exists j l, threads handoff_config !! j = Some l /\ active l = true.
Proof.
  apply (win32_event_mutex_no_lost_wakeup true 2 handoff_config 1); [lia| |done..].
  apply (exec_reachable _ handoff_sched). by vm_compute.
Defined.
