(* ===== verification/SystemLock.v ===== *)
(** * The mutexes that are a lock of the system

    [win32_srw_mutex] (mutex/win32_srw_mutex.hpp and .cpp),
    [win32_critical_section_mutex] (mutex/win32_critical_section_mutex.hpp),
    [pthread_spinlock_mutex], [apple_os_unfair_mutex], and [lock()], [try_lock()] and
    [unlock()] of [pthread_mutex] and of the exclusive side of
    [pthread_rwlock_mutex].  Each method is one call of the system; the lock is a
    parameter, a class with its documented behaviour.  The blocking calls of POSIX
    may fail, and [lock()] ignores that: exclusion is proved of the locks whose
    blocking call does not fail ([Infallible]; those of Windows and Apple return
    nothing), and a lock that fails breaks it.  [Pthread.v] has the deadlines. *)
From S2P Require Import Prelude Machine MutexSpec Futex.
#[local] Open Scope Z_scope.

(** A lock of the system.  [l_enter] is the blocking call, [None] while it blocks,
    with the error number it returns, 0 if it returns nothing; [l_try] is the
    attempt, with its result; [l_leave] gives the lock back. *)
Class KernelLock (K : Type) := {
  l_new : K;
  l_enter : nat -> K -> option (K * Z);
  l_try : nat -> K -> K * Z;
  l_leave : nat -> K -> K;
  l_owner : K -> option nat;
  l_count : K -> Z              (** how often its owner has taken it *)
}.

(** How the attempts of a system report: those of POSIX with 0 for success and an
    error number, those of Windows and Apple with a truth value. *)
Inductive convention := ErrorNumber | TruthValue.

Definition reports (v : convention) (ok : bool) (r : Z) : Prop :=
  match v with
  | ErrorNumber => if ok then r = 0 else r <> 0
  | TruthValue => if ok then r <> 0 else r = 0
  end.

(** A lock can be taken when it is free; a recursive one, also by its owner. *)
Definition grants {K : Type} `{KernelLock K} (recursive : bool) (tid : nat) (k : K) : bool :=
  match l_owner k with None => true | Some o => recursive && (o =? tid)%nat end.

(** The lock after [tid] took it. *)
Definition taken_by {K : Type} `{KernelLock K} (tid : nat) (k k' : K) : Prop :=
  l_owner k' = Some tid /\ l_count k' = (match l_owner k with Some _ => l_count k | None => 0 end) + 1.

(** A call that succeeds takes a lock that it may take; one that fails takes
    nothing, and an attempt may fail for any reason. *)
Class KernelLockLaws (K : Type) `{KernelLock K} (recursive : bool) (v : convention) := {
  l_new_free : l_owner l_new = None /\ l_count l_new = 0;
  l_enter_law tid k k' r :
    l_enter tid k = Some (k', r) ->
    if r =? 0 then grants recursive tid k = true /\ taken_by tid k k' else k' = k;
  l_try_law tid k k' r :
    l_try tid k = (k', r) ->
    exists ok, reports v ok r /\ if ok then grants recursive tid k = true /\ taken_by tid k k' else k' = k;
  l_leave_law tid k :
    l_owner k = Some tid ->
    if l_count k =? 1 then l_owner (l_leave tid k) = None /\ l_count (l_leave tid k) = 0
    else l_owner (l_leave tid k) = Some tid /\ l_count (l_leave tid k) = l_count k - 1
}.

(** The blocking call does not fail. *)
Class Infallible (K : Type) `{KernelLock K} :=
  l_no_error : forall tid k k' r, l_enter tid k = Some (k', r) -> r = 0.

(** ** The wrappers *)

Inductive wrapper :=
| Win32Srw
| Win32CriticalSection
| PthreadMutex (recursive : bool)
| PthreadRwlockWriter
| PthreadSpinlock
| AppleUnfair.

(** [concepts_is_recursive]: the locks that their owner can take again. *)
Definition is_recursive (w : wrapper) : bool :=
  match w with Win32CriticalSection => true | PthreadMutex r => r | _ => false end.

Definition system_of (w : wrapper) : convention :=
  match w with Win32Srw | Win32CriticalSection | AppleUnfair => TruthValue | _ => ErrorNumber end.

(** The spin count a critical section is created with: that of the policy
    [win32_spin_count<N>], or 4000. *)
Definition extract_win32_spin_count (policy : option Z) : Z := match policy with Some n => n | None => 4000 end.

(** What [try_lock()] returns: [== 0] for POSIX, [!= FALSE], [!= 0] or the [bool]
    itself elsewhere. *)
Definition try_result (w : wrapper) (r : Z) : bool :=
  match w with
  | Win32Srw | Win32CriticalSection | AppleUnfair => negb (r =? 0)
  | PthreadMutex _ | PthreadRwlockWriter | PthreadSpinlock => r =? 0
  end.

Inductive pc :=
| Idle
| Entering   (** in [AcquireSRWLockExclusive], [EnterCriticalSection], [pthread_mutex_lock], ... *)
| Trying     (** [TryAcquireSRWLockExclusive], [TryEnterCriticalSection], ... *)
| Leaving.   (** [ReleaseSRWLockExclusive], [LeaveCriticalSection], ... *)

(** A thread with the number of times it has the mutex. *)
Record local := Local { at_ : pc; depth : Z }.

Section machine.
Context {K : Type} `{KernelLock K} (w : wrapper).

(** A client unlocks what it has locked. *)
Definition enter (m : mutex_method) (l : local) : option local :=
  match m with
  | MLock => Some (Local Entering (depth l))
  | MTryLock => Some (Local Trying (depth l))
  | MUnlock => if 0 <? depth l then Some (Local Leaving (depth l)) else None
  | _ => None
  end.

(** [lock()] ignores the result. *)
Definition lock (tid : nat) (k : K) (l : local) : option (K * local) :=
  '(k', _) ← l_enter tid k; Some (k', Local Idle (depth l + 1)).

Definition try_lock (tid : nat) (k : K) (l : local) : K * local :=
  let '(k', r) := l_try tid k in (k', Local Idle (if try_result w r then depth l + 1 else depth l)).

Definition unlock (tid : nat) (k : K) (l : local) : K * local := (l_leave tid k, Local Idle (depth l - 1)).

Definition tstep (tid : nat) (ch : choice mutex_method) (k : K) (l : local) : option (K * local) :=
  match at_ l, ch with
  | Idle, Call m => pair k <$> enter m l
  | Entering, Kernel Go => lock tid k l
  | Trying, Act _ => Some (try_lock tid k l)
  | Leaving, Act _ => Some (unlock tid k l)
  | _, _ => None
  end.

Definition init (n : nat) : config K local := Config l_new (replicate n (Local Idle 0)).

Definition owns (l : local) : bool := 0 <? depth l.

(** ** The invariant *)

Context `{!KernelLockLaws K (is_recursive w) (system_of w), !Infallible K}.

Record Inv (c : config K local) : Prop := {
  inv_depth : forall i l, threads c !! i = Some l -> depth l =
    if decide (l_owner (shared c) = Some i) then l_count (shared c) else 0;
  inv_count : 0 <= l_count (shared c) /\ (l_owner (shared c) <> None -> 0 < l_count (shared c)) /\
    (is_recursive w = false -> l_count (shared c) <= 1);
  inv_leaving : forall i l, threads c !! i = Some l -> at_ l = Leaving -> 0 < depth l
}.

Lemma lock_init_ok n : Inv (init n).
Proof.
  pose proof (l_new_free (K := K)) as [Ho Hc]. constructor; cbn [shared threads init]; rewrite ?Ho, ?Hc.
  - intros i l [-> _]%lookup_replicate. by destruct (decide _).
  - split_and!; (done || lia).
  - by intros i l [-> _]%lookup_replicate.
Qed.

(** The other threads keep their depth when the owner was, or becomes, this one. *)
Lemma replace_local c i l k' l' :
  Inv c -> threads c !! i = Some l ->
  (forall j, j <> i -> l_owner (shared c) = Some j -> l_owner k' = Some j /\ l_count k' = l_count (shared c)) ->
  (forall j, j <> i -> l_owner k' = Some j -> l_owner (shared c) = Some j) ->
  depth l' = (if decide (l_owner k' = Some i) then l_count k' else 0) ->
  (0 <= l_count k' /\ (l_owner k' <> None -> 0 < l_count k') /\ (is_recursive w = false -> l_count k' <= 1)) ->
  (at_ l' = Leaving -> 0 < depth l') ->
  Inv (Config k' (<[i := l']> (threads c))).
Proof.
  intros [Hd Hc Hl] Hi Ho Ho' Hdl Hcl Hll. split; cbn [shared threads]; [|exact Hcl|].
  - intros j x. rewrite list_lookup_insert_Some. intros [(<- & <- & _)|[Hne Hj]]; [done|].
    rewrite (Hd j x Hj). destruct (decide (l_owner (shared c) = Some j)) as [E|E].
    + destruct (Ho j) as [-> ->]; [done..|]. by rewrite decide_True.
    + rewrite decide_False; [done|]. intros E'. by apply E, Ho'.
  - intros j x. rewrite list_lookup_insert_Some. intros [(<- & <- & _)|[Hne Hj]]; [done|]. by apply (Hl j).
Qed.

Lemma try_result_reports ok r : reports (system_of w) ok r -> try_result w r = ok.
Proof. destruct w, ok; simpl; intros; subst; try done; destruct (Z.eqb_spec r 0); done. Qed.

(** The lock is taken. *)
Lemma enter_ok c i l k' :
  Inv c -> threads c !! i = Some l -> grants (is_recursive w) i (shared c) = true -> taken_by i (shared c) k' ->
  Inv (Config k' (<[i := Local Idle (depth l + 1)]> (threads c))).
Proof.
  intros HI Hi Hg [Eo' Ec']. pose proof (inv_depth _ HI i l Hi) as Hd.
  destruct (inv_count _ HI) as (H0 & H1 & H2). unfold grants in Hg.
  destruct (l_owner (shared c)) as [o|] eqn:Eo; simpl in Ec'.
  - apply andb_true_iff in Hg as [Er ->%Nat.eqb_eq].
    rewrite decide_True in Hd by done. apply (replace_local c i l); try done; rewrite ?Eo', ?Ec'; try congruence.
    + by rewrite decide_True, <- Hd.
    + rewrite Er. split_and!; (done || lia).
  - rewrite decide_False in Hd by done.
    apply (replace_local c i l); try done; rewrite ?Eo', ?Ec'; try congruence.
    + rewrite decide_True by done. cbn [depth]. by rewrite Hd.
    + lia.
Qed.

Lemma lock_step_ok i ch c l k' l' :
  Inv c -> threads c !! i = Some l -> tstep i ch (shared c) l = Some (k', l') -> Inv (Config k' (<[i := l']> (threads c))).
Proof.
  intros HI Hi Hs. destruct l as [p d]. pose proof (inv_depth _ HI i _ Hi) as Hd. simpl in Hd.
  assert (forall q, (q = Leaving -> 0 < d) -> Inv (Config (shared c) (<[i := Local q d]> (threads c)))) as Hkeep.
  { intros q Hq. apply (replace_local c i (Local p d)); try done. apply HI. }
  pose proof (fun k' => enter_ok c i _ k' HI Hi) as Henter. cbn [depth] in Henter.
  unfold tstep in Hs. destruct p, ch as [m|sp|[]|ex]; try done; cbn [at_] in Hs.
  - destruct m; simpl in Hs; try done; repeat case_match; simplify_eq/=; apply Hkeep; try done.
    intros _. by apply Z.ltb_lt.
  - unfold lock in Hs. destruct (l_enter i (shared c)) as [[k1 r]|] eqn:E; simplify_eq/=.
    pose proof (l_no_error i _ _ _ E) as ->. apply l_enter_law in E as [Hg Ht]. by apply Henter.
  - unfold try_lock in Hs. destruct (l_try i (shared c)) as [k1 r] eqn:E.
    apply l_try_law in E as (ok & Hr%try_result_reports & Hk). rewrite Hr in Hs.
    destruct ok; simplify_eq/=; [destruct Hk; by apply Henter|by apply Hkeep].
  - unfold unlock in Hs. simplify_eq/=. pose proof (inv_leaving _ HI i _ Hi eq_refl) as Hpos. simpl in Hpos.
    destruct (decide (l_owner (shared c) = Some i)) as [Eo|]; [|lia]. pose proof (l_leave_law i (shared c) Eo) as Hr.
    destruct (inv_count _ HI) as (H0 & H1 & H2).
    destruct (Z.eqb_spec (l_count (shared c)) 1); destruct Hr as [Er Ec];
      apply (replace_local c i (Local Leaving (l_count (shared c)))); try done; rewrite ?Er, ?Ec; try congruence; simpl; try lia.
    + split_and!; (done || lia).
    + by rewrite decide_True.
    + split_and!; [lia|lia|]. intros E. specialize (H2 E). lia.
Qed.

Lemma lock_inv_reachable n c : reachable tstep (init n) c -> Inv c.
Proof. apply invariant_reachable; [apply lock_init_ok|]. intros. by eapply lock_step_ok. Qed.

Lemma owns_exclusive c : Inv c -> count owns (threads c) <= 1.
Proof.
  intros HI. apply count_at_most_one. intros i j x y Hi Hj Hx%Z.ltb_lt Hy%Z.ltb_lt.
  pose proof (inv_depth _ HI i x Hi). pose proof (inv_depth _ HI j y Hj).
  destruct (decide (l_owner (shared c) = Some i)), (decide (l_owner (shared c) = Some j)); (congruence || lia).
Qed.

(** Where the blocking call does not fail the wrappers add nothing to the lock of the
    system and lose nothing: at most one
    thread has the mutex, as often as it has locked and not unlocked it, which is
    what the lock counts; only a recursive one is had more than once; and it is
    free exactly if no thread has it. *)
Theorem system_lock_exclusion n c :
  reachable tstep (init n) c ->
  count owns (threads c) <= 1 /\
  (forall i l, threads c !! i = Some l -> owns l = true ->
     l_owner (shared c) = Some i /\ depth l = l_count (shared c) /\ (is_recursive w = false -> depth l = 1)) /\
  (forall i l, threads c !! i = Some l -> l_owner (shared c) = Some i -> owns l = true).
Proof.
  intros HI%lock_inv_reachable. split_and!; [by apply owns_exclusive| |].
  - intros i l Hi Ho%Z.ltb_lt. pose proof (inv_depth _ HI i l Hi) as Hd. destruct (inv_count _ HI) as (_ & _ & H2).
    destruct (decide (l_owner (shared c) = Some i)); [|lia]. split_and!; try done. intros E. specialize (H2 E). lia.
  - intros i l Hi Ho. pose proof (inv_depth _ HI i l Hi) as Hd. rewrite decide_True in Hd by done.
    destruct (inv_count _ HI) as (_ & H1 & _). apply Z.ltb_lt. rewrite Hd. apply H1. by rewrite Ho.
Qed.
End machine.

(** ** The classes: the machine with the calls and the result of each of them *)

Section classes.
Context {K : Type} `{KernelLock K}.

Definition win32_srw_mutex : nat -> choice mutex_method -> K -> local -> option (K * local) := tstep Win32Srw.
Definition win32_critical_section_mutex : nat -> choice mutex_method -> K -> local -> option (K * local) := tstep Win32CriticalSection.
Definition pthread_spinlock_mutex : nat -> choice mutex_method -> K -> local -> option (K * local) := tstep PthreadSpinlock.
Definition apple_os_unfair_mutex : nat -> choice mutex_method -> K -> local -> option (K * local) := tstep AppleUnfair.
End classes.

(** ** Witnesses *)

(** A lock that keeps its owner and a count. *)
Definition owned_enter (recursive : bool) (tid : nat) (k : option (nat * Z)) : option (option (nat * Z) * Z) :=
  match k with
  | None => Some (Some (tid, 1), 0)
  | Some (o, n) => if recursive && (o =? tid)%nat then Some (Some (tid, n + 1), 0) else None
  end.

#[export] Instance owned_lock (recursive : bool) (v : convention) : KernelLock (option (nat * Z)) := {
  l_new := None;
  l_enter := owned_enter recursive;
  l_try := fun tid k =>
    match owned_enter recursive tid k, v with
    | Some (k', _), TruthValue => (k', 1) | Some (k', _), ErrorNumber => (k', 0)
    | None, TruthValue => (k, 0) | None, ErrorNumber => (k, 16)
    end;
  l_leave := fun tid k => match k with Some (o, n) => if n =? 1 then None else Some (o, n - 1) | None => None end;
  l_owner := fun k => fst <$> k;
  l_count := fun k => match k with Some (_, n) => n | None => 0 end
}.

#[export] Instance owned_lock_laws recursive v : @KernelLockLaws _ (owned_lock recursive v) recursive v.
Proof.
  constructor; unfold grants, taken_by; simpl.
  - done.
  - intros tid [[o n]|] k' r; simpl; [destruct (recursive && (o =? tid)%nat) eqn:E|]; intros [= <- <-]; done.
  - intros tid [[o n]|] k' r; simpl; [destruct (recursive && (o =? tid)%nat) eqn:E|]; destruct v; intros [= <- <-];
      (by exists true) || (by exists false).
  - intros tid [[o n]|] [= ->]; simpl. by destruct (n =? 1).
Qed.

#[export] Instance owned_lock_infallible recursive v : @Infallible _ (owned_lock recursive v).
Proof. intros tid [[o n]|] k' r; simpl; [destruct (recursive && (o =? tid)%nat)|]; by intros [= <- <-]. Qed.

(** The same with a priority ceiling that thread 1 is above: it gets [EINVAL]. *)
Definition ceiling_lock : KernelLock (option (nat * Z)) := {|
  l_new := None;
  l_enter := fun tid k => match tid with 1%nat => Some (k, 22) | _ => owned_enter false tid k end;
  l_try := fun tid k => match tid with 1%nat => (k, 22) | _ => l_try (KernelLock := owned_lock false ErrorNumber) tid k end;
  l_leave := l_leave (KernelLock := owned_lock false ErrorNumber);
  l_owner := l_owner (KernelLock := owned_lock false ErrorNumber);
  l_count := l_count (KernelLock := owned_lock false ErrorNumber)
|}.

Lemma ceiling_lock_laws : @KernelLockLaws _ ceiling_lock false ErrorNumber.
Proof.
  pose proof (owned_lock_laws false ErrorNumber) as [H1 H2 H3 H4]. constructor; [exact H1| | |exact H4].
  - intros [|[|tid]] k k' r; [apply H2| |apply H2]. by intros [= <- <-].
  - intros [|[|tid]] k k' r; [apply H3| |apply H3]. intros [= <- <-]. by exists false.
Qed.

(** A lock of the system that fails: thread 1 locks a [pthread_mutex] above its
    priority ceiling, and returns from [lock()] while thread 0 has the mutex. *)
Theorem system_lock_error_breaks_exclusion :
  exists c, reachable (tstep (H := ceiling_lock) (PthreadMutex false)) (init (H := ceiling_lock) 2) c /\
    count owns (threads c) = 2.
Proof.
  exists (Config (Some (0%nat, 1)) [Local Idle 1; Local Idle 1]). split; [|done].
  by apply (exec_reachable _ [(0, Call MLock); (0, Kernel Go); (1, Call MLock); (1, Kernel Go)]%nat).
Qed.

(** Thread 1 enters the critical section twice while thread 0 waits for it. *)
Definition nested_sched : list (nat * choice mutex_method) :=
  [(1, Call MLock); (1, Kernel Go); (0, Call MLock); (1, Call MTryLock); (1, Act false)]%nat.

Lemma system_lock_exclusion_witness :
  l_owner (KernelLock := owned_lock true TruthValue) (Some (1%nat, 2)) = Some 1%nat /\
  depth (Local Idle 2) = l_count (KernelLock := owned_lock true TruthValue) (Some (1%nat, 2)).
Proof.
  assert (reachable (tstep (H := owned_lock true TruthValue) Win32CriticalSection) (init (H := owned_lock true TruthValue) 2)
    (Config (Some (1%nat, 2)) [Local Entering 0; Local Idle 2])) as Hr by (by apply (exec_reachable _ nested_sched)).
  destruct (system_lock_exclusion (H := owned_lock true TruthValue) Win32CriticalSection 2 _ Hr) as (_ & H1 & _).
  destruct (H1 1%nat (Local Idle 2)) as (E1 & E2 & _); [done|done|]. by split.
Defined.
