(* ===== verification/SystemRwlock.v ===== *)
(** * The reader-writer lock of the system

    [pthread_rwlock_mutex] (mutex/pthread_rwlock_mutex.hpp), both sides: each method is
    one call of the system, whose result decides what the attempts return.  The lock is
    a parameter, a class with its documented behaviour.  Every call may fail;
    [lock()] and [lock_shared()] ignore that, and exclusion is proved of the locks
    whose blocking calls do not fail ([RwInfallible]); a lock that fails breaks it.
    The deadlines of the timed attempts are in [Pthread.v]. *)
From S2P Require Import Prelude Machine Futex.
#[local] Open Scope Z_scope.

(** [pthread_rwlock_wrlock] and [_rdlock], [None] while they block, and the attempts,
    with their error numbers; [pthread_rwlock_unlock], of whichever side the caller has. *)
Class KernelRwLock (K : Type) := {
  r_new : K;
  r_wrlock : K -> option (K * Z);
  r_rdlock : K -> option (K * Z);
  r_trywrlock : K -> K * Z;
  r_tryrdlock : K -> K * Z;
  r_unlock : K -> K;
  r_writer : K -> bool;
  r_readers : K -> Z
}.

(** The lock before and after a call of a side that succeeded: a writer gets the lock
    only when nobody has it, a reader only when no writer has it. *)
Definition taken_side {K : Type} `{KernelRwLock K} (excl : bool) (k k' : K) : Prop :=
  r_writer k = false /\
  if excl then r_readers k = 0 /\ r_writer k' = true /\ r_readers k' = 0
  else r_writer k' = false /\ r_readers k' = r_readers k + 1.

(** A call that fails leaves the lock alone; it may fail for any reason (a deadlock it
    detects, too many readers). *)
Class KernelRwLockLaws (K : Type) `{KernelRwLock K} := {
  r_new_free : r_writer r_new = false /\ r_readers r_new = 0;
  r_wrlock_law k k' r : r_wrlock k = Some (k', r) -> if r =? 0 then taken_side true k k' else k' = k;
  r_rdlock_law k k' r : r_rdlock k = Some (k', r) -> if r =? 0 then taken_side false k k' else k' = k;
  r_trywrlock_law k k' r : r_trywrlock k = (k', r) -> if r =? 0 then taken_side true k k' else k' = k;
  r_tryrdlock_law k k' r : r_tryrdlock k = (k', r) -> if r =? 0 then taken_side false k k' else k' = k;
  r_unlock_law k :
    if r_writer k then r_writer (r_unlock k) = false /\ r_readers (r_unlock k) = r_readers k
    else r_writer (r_unlock k) = false /\ (0 < r_readers k -> r_readers (r_unlock k) = r_readers k - 1)
}.

(** The blocking calls do not fail. *)
Class RwInfallible (K : Type) `{KernelRwLock K} := {
  r_wrlock_no_error : forall k k' r, r_wrlock k = Some (k', r) -> r = 0;
  r_rdlock_no_error : forall k k' r, r_rdlock k = Some (k', r) -> r = 0
}.

Inductive pc :=
| Idle
| Writer                     (** has the lock exclusively *)
| Reader                     (** shares it *)
| Locking (excl : bool)      (** in [pthread_rwlock_wrlock] or [_rdlock] *)
| Trying (excl : bool)       (** in [pthread_rwlock_trywrlock] or [_tryrdlock] *)
| TimedTry (excl : bool)     (** in [pthread_rwlock_clockwrlock], [_timedrdlock], ... *)
| Unlocking (excl : bool).   (** in [pthread_rwlock_unlock] *)

#[export] Instance rw_pc_eq_dec : EqDecision pc.
Proof. solve_decision. Defined.

Inductive method :=
| MLock | MTryLock | MTryLockUntil | MUnlock
| MLockShared | MTryLockShared | MTryLockSharedUntil | MUnlockShared.

Section machine.
Context {K : Type} `{KernelRwLock K}.

(** A client unlocks what it has locked. *)
Definition enter (m : method) (l : pc) : option pc :=
  match l, m with
  | Idle, MLock => Some (Locking true)
  | Idle, MTryLock => Some (Trying true)
  | Idle, MTryLockUntil => Some (TimedTry true)
  | Idle, MLockShared => Some (Locking false)
  | Idle, MTryLockShared => Some (Trying false)
  | Idle, MTryLockSharedUntil => Some (TimedTry false)
  | Writer, MUnlock => Some (Unlocking true)
  | Reader, MUnlockShared => Some (Unlocking false)
  | _, _ => None
  end.

Definition side (excl : bool) : pc := if excl then Writer else Reader.

(** The blocking call of a side. *)
Definition blocking (excl : bool) (k : K) : option (K * Z) := if excl then r_wrlock k else r_rdlock k.

(** [lock()] and [lock_shared()] ignore the result. *)
Definition lock (excl : bool) (k : K) : option (K * pc) := '(k', _) ← blocking excl k; Some (k', side excl).

Definition try_lock (excl : bool) (k : K) : K * pc :=
  let '(k', rc) := if excl then r_trywrlock k else r_tryrdlock k in (k', if rc =? 0 then side excl else Idle).

(** A timed call gets the lock, or it returns [ETIMEDOUT], [EINVAL], [EAGAIN] or
    [EDEADLK], which is tested. *)
Definition timed_lock (excl : bool) (c : wchoice) (k : K) : option (K * pc) :=
  match c with
  | Go => '(k', rc) ← blocking excl k; Some (k', if rc =? 0 then side excl else Idle)
  | TimedOut | Fault => Some (k, Idle)
  | _ => None
  end.

Definition tstep (tid : nat) (ch : choice method) (k : K) (l : pc) : option (K * pc) :=
  match l, ch with
  | _, Call m => pair k <$> enter m l
  | Locking x, Kernel Go => lock x k
  | Trying x, Act _ => Some (try_lock x k)
  | TimedTry x, Kernel c => timed_lock x c k
  | Unlocking _, Act _ => Some (r_unlock k, Idle)
  | _, _ => None
  end.

Definition init (n : nat) : config K pc := Config r_new (replicate n Idle).

Definition writes (l : pc) : bool := match l with Writer | Unlocking true => true | _ => false end.
Definition reads (l : pc) : bool := match l with Reader | Unlocking false => true | _ => false end.

(** ** The invariant *)

Definition Inv (c : config K pc) : Prop :=
  count writes (threads c) = Z.b2z (r_writer (shared c)) /\ count reads (threads c) = r_readers (shared c) /\
  (r_writer (shared c) = true -> r_readers (shared c) = 0).

Context `{!KernelRwLockLaws K, !RwInfallible K}.

(** What the lock counts follows the thread. *)
Definition follows (k : K) (l : pc) (k' : K) (l' : pc) : Prop :=
  Z.b2z (r_writer k') = Z.b2z (r_writer k) - Z.b2z (writes l) + Z.b2z (writes l') /\
  r_readers k' = r_readers k - Z.b2z (reads l) + Z.b2z (reads l') /\
  (r_writer k' = true -> r_readers k' = 0).

Lemma rw_quiet (k : K) l l' :
  (r_writer k = true -> r_readers k = 0) -> writes l' = writes l -> reads l' = reads l -> follows k l k l'.
Proof. unfold follows. intros Hk -> ->. split_and!; (done || lia). Qed.

Lemma taken_follows x (k k' : K) l :
  taken_side x k k' -> writes l = false -> reads l = false -> follows k l k' (side x).
Proof.
  unfold taken_side, follows. intros [Hw Ht] -> ->. rewrite Hw.
  destruct x; destruct Ht as [? Ht]; [destruct Ht as [E1 E2]; rewrite E1, E2|rewrite H0; split_and!; simpl; try done; lia].
  simpl. split_and!; (done || lia).
Qed.

Lemma blocking_law x (k k' : K) r : blocking x k = Some (k', r) -> if r =? 0 then taken_side x k k' else k' = k.
Proof. destruct x; [apply r_wrlock_law|apply r_rdlock_law]. Qed.

Lemma blocking_no_error x (k k' : K) r : blocking x k = Some (k', r) -> r = 0.
Proof. destruct x; [apply r_wrlock_no_error|apply r_rdlock_no_error]. Qed.

Lemma try_follows x (k : K) k' l' l :
  try_lock x k = (k', l') -> (r_writer k = true -> r_readers k = 0) ->
  writes l = false -> reads l = false -> follows k l k' l'.
Proof.
  unfold try_lock. intros Ht Hk Hw Hr.
  destruct x; [destruct (r_trywrlock k) as [k1 rc] eqn:E; apply r_trywrlock_law in E
              |destruct (r_tryrdlock k) as [k1 rc] eqn:E; apply r_tryrdlock_law in E];
    destruct (rc =? 0); simplify_eq; try (apply rw_quiet; by rewrite ?Hw, ?Hr);
    by apply (taken_follows true) || apply (taken_follows false).
Qed.

Lemma rw_step i ch (k : K) l k' l' :
  tstep i ch k l = Some (k', l') -> (r_writer k = true -> r_readers k = 0) -> 0 <= r_readers k ->
  (writes l = true -> r_writer k = true) -> (reads l = true -> 0 < r_readers k) -> follows k l k' l'.
Proof.
  intros Hs Hk H0 Hw Hr. destruct ch as [m|sp|c|ex].
  - assert (tstep i (Call m) k l = pair k <$> enter m l) as E by (by destruct l). rewrite E in Hs.
    destruct l, m; simpl in Hs; simplify_eq; by apply rw_quiet.
  - destruct l as [| | |x|x|x|x]; try done; simpl in Hs; simplify_eq; [by eapply try_follows|].
    pose proof (r_unlock_law k) as Hu. unfold follows. destruct x; simpl in *.
    + rewrite Hw in * by done. destruct Hu as [-> Er]. rewrite Er, Hk by done. simpl. split_and!; (done || lia).
    + specialize (Hr eq_refl). destruct (r_writer k); [specialize (Hk eq_refl); lia|]. destruct Hu as [-> Hu].
      rewrite (Hu Hr). simpl. split_and!; (done || lia).
  - destruct l as [| | |x|x|x|x]; try done; simpl in Hs.
    + destruct c; try done. unfold lock in Hs. destruct (blocking x k) as [[k1 r]|] eqn:E; simplify_eq/=.
      pose proof (blocking_no_error _ _ _ _ E) as ->. apply blocking_law in E. by apply taken_follows.
    + unfold timed_lock in Hs. destruct c; simplify_eq/=; try by apply rw_quiet.
      destruct (blocking x k) as [[k1 r]|] eqn:E; simplify_eq/=. apply blocking_law in E.
      destruct (r =? 0); [by apply taken_follows|subst; by apply rw_quiet].
  - by destruct l.
Qed.

Lemma rwlock_inv_reachable n c : reachable tstep (init n) c -> Inv c.
Proof.
  apply invariant_reachable; unfold Inv.
  - destruct (r_new_free (K := K)) as [E1 E2]. cbn [init shared threads]. rewrite E1, E2, !count_replicate by done. done.
  - intros i ch c0 l k' l' (Hw & Hr & Hk) Hl Hs. cbn [shared threads].
    pose proof (count_bounds reads (threads c0)).
    destruct (rw_step i ch (shared c0) l k' l' Hs Hk) as (Ew & Er & Hk'); [lia| | |].
    + intros E. pose proof (count_pos _ _ _ _ Hl E). destruct (r_writer (shared c0)); [done|simpl in *; lia].
    + intros E. pose proof (count_pos _ _ _ _ Hl E). lia.
    + rewrite !(count_insert _ _ _ _ _ Hl). split_and!; [lia|lia|done].
Qed.

(** Where the blocking calls do not fail the wrappers give the lock to nobody the system does not give it to: the threads
    that have it, exclusively or shared, are the writer and the readers the system
    counts, one writer or readers but not both, through refused attempts and deadlines
    that pass. *)
Theorem rwlock_exclusion n c :
  reachable tstep (init n) c ->
  count writes (threads c) = Z.b2z (r_writer (shared c)) /\ count reads (threads c) = r_readers (shared c) /\
  (1 <= count writes (threads c) -> count reads (threads c) = 0).
Proof.
  intros (Hw & Hr & Hk)%rwlock_inv_reachable. split_and!; [done|done|]. rewrite Hw, Hr.
  destruct (r_writer (shared c)); [by intros _; apply Hk|simpl; lia].
Qed.
End machine.

(** ** Witness *)

(** A lock that prefers readers, of which it admits [most]; 16 is [EBUSY], 11 is
    [EAGAIN]. *)
Definition limited_rwlock (most : Z) : KernelRwLock (bool * Z) := {|
  r_new := (false, 0);
  r_wrlock := fun k => if negb k.1 && (k.2 =? 0) then Some (true, 0, 0) else None;
  r_rdlock := fun k => if k.1 then None else if k.2 <? most then Some (false, k.2 + 1, 0) else Some (k, 11);
  r_trywrlock := fun k => if negb k.1 && (k.2 =? 0) then (true, 0, 0) else (k, 16);
  r_tryrdlock := fun k => if k.1 then (k, 16) else if k.2 <? most then (false, k.2 + 1, 0) else (k, 11);
  r_unlock := fun k => if k.1 then (false, k.2) else (false, k.2 - 1);
  r_writer := fst;
  r_readers := snd
|}.

Lemma limited_rwlock_laws most : @KernelRwLockLaws (bool * Z) (limited_rwlock most).
Proof.
  constructor; unfold taken_side; simpl; [done|..]; try intros [w r] k' rc; simpl.
  - destruct w, (Z.eqb_spec r 0); simpl; intros [= <- <-]. by subst.
  - destruct w; [done|]. destruct (r <? most); by intros [= <- <-].
  - destruct w, (Z.eqb_spec r 0); simpl; intros [= <- <-]; by subst.
  - destruct w; [by intros [= <- <-]|]. destruct (r <? most); by intros [= <- <-].
  - intros [[] r]; done.
Qed.

(** A lock that fails: the system refuses thread 1 with [EAGAIN], which [lock_shared()]
    ignores; what thread 1 unlocks is the lock of thread 0, and thread 2 writes while
    thread 0 reads. *)
Theorem rwlock_error_breaks_exclusion :
  exists c, reachable (tstep (H := limited_rwlock 1)) (init (H := limited_rwlock 1) 3) c /\
    threads c = [Reader; Idle; Writer].
Proof.
  exists (Config (true, 0) [Reader; Idle; Writer]). split; [|done].
  by apply (exec_reachable _ [(0, Call MLockShared); (0, Kernel Go); (1, Call MLockShared); (1, Kernel Go);
    (1, Call MUnlockShared); (1, Act false); (2, Call MLock); (2, Kernel Go)]%nat).
Qed.

(** The lock without a limit. *)
#[export] Instance counted_rwlock : KernelRwLock (bool * Z) := {
  r_new := (false, 0);
  r_wrlock := fun k => if negb k.1 && (k.2 =? 0) then Some (true, 0, 0) else None;
  r_rdlock := fun k => if k.1 then None else Some (false, k.2 + 1, 0);
  r_trywrlock := fun k => if negb k.1 && (k.2 =? 0) then (true, 0, 0) else (k, 16);
  r_tryrdlock := fun k => if k.1 then (k, 16) else (false, k.2 + 1, 0);
  r_unlock := fun k => if k.1 then (false, k.2) else (false, k.2 - 1);
  r_writer := fst;
  r_readers := snd
}.

#[export] Instance counted_rwlock_laws : KernelRwLockLaws (bool * Z).
Proof.
  constructor; unfold taken_side; simpl; [done|..]; try intros [w r] k' rc; simpl.
  - destruct w, (Z.eqb_spec r 0); simpl; intros [= <- <-]. by subst.
  - destruct w; by intros [= <- <-].
  - destruct w, (Z.eqb_spec r 0); simpl; intros [= <- <-]; by subst.
  - destruct w; by intros [= <- <-].
  - intros [[] r]; done.
Qed.

#[export] Instance counted_rwlock_infallible : RwInfallible (bool * Z).
Proof.
  constructor; intros [w r] k' rc; simpl; [destruct (negb w && (r =? 0))|destruct w]; by intros [= <- <-].
Qed.

(** Two readers, and a writer that runs into its deadline. *)
Lemma rwlock_exclusion_witness :
  exists c, exec tstep [(0, Call MLockShared); (0, Kernel Go); (1, Call MTryLockShared); (1, Act false);
      (2, Call MTryLockUntil); (2, Kernel TimedOut)]%nat (init 3) = Some c /\ count reads (threads c) = 2.
Proof.
  exists (Config (false, 2) [Reader; Reader; Idle]). split; [reflexivity|].
  assert (count reads [Reader; Reader; Idle] = r_readers (K := bool * Z) (false, 2)) as E; [|exact E].
  apply (rwlock_exclusion (K := bool * Z) 3 (Config (false, 2) [Reader; Reader; Idle])).
  by apply (exec_reachable _ [(0, Call MLockShared); (0, Kernel Go); (1, Call MTryLockShared); (1, Act false);
    (2, Call MTryLockUntil); (2, Kernel TimedOut)]%nat).
Defined.
