(* ===== verification/SharedLibrary.v ===== *)
(** * The reader-writer mutexes of nova_sync keep the promise

    [spinlock_mutex<shared>] (mutex/spinlock_mutex.hpp), with and without backoff, and
    [pthread_rwlock_mutex] (mutex/pthread_rwlock_mutex.hpp) as instances of
    [SharedSpec]: what [SharedSpec.v] proves of a mutex with the promise holds of each. *)
From S2P Require Import Prelude Machine MutexSpec SharedSpec Futex Spinlock SystemRwlock.
#[local] Open Scope Z_scope.

Inductive library_shared :=
| SharedSpinning (has_backoff : bool)
| PthreadRwlock.

Section library.
Context {R : Type} `{KernelRwLock R, !KernelRwLockLaws R, !RwInfallible R}.

Definition shared_of (k : library_shared) : shared_mutex :=
  match k with
  | SharedSpinning hb => SharedMutex _ _ _ (Shared.tstep hb) Shared.init Shared.writes Shared.reads
      (fun n => Z.of_nat n < 2 ^ 30 - 1)
  | PthreadRwlock => SharedMutex _ _ _ (SystemRwlock.tstep (K := R)) SystemRwlock.init SystemRwlock.writes SystemRwlock.reads
      (fun _ => True)
  end.

(** A step of the spinlock takes or gives back one kind of lock. *)
Lemma spinning_one_kind hb i ch s l s' l' :
  Shared.tstep hb i ch s l = Some (s', l') -> Shared.writes l' = Shared.writes l \/ Shared.reads l' = Shared.reads l.
Proof.
  intros Hs. destruct ch as [m|sp|k|ex]; simpl in Hs; try done; [destruct l, m; simplify_eq/=; auto|].
  destruct l; try done; simplify_eq; try (unfold Shared.lock, Shared.slow_load, Shared.slow_pend, Shared.slow_wait, Shared.slow_take,
    Shared.try_load, Shared.try_cas, Shared.unlock, Shared.shared_load, Shared.shared_cas, Shared.shared_slow_load,
    Shared.shared_slow_cas, Shared.shared_try_load, Shared.shared_try_cas, Shared.unlock_shared in *);
    repeat case_match; simplify_eq/=; auto.
Qed.

Lemma rwlock_one_kind i ch (s : R) l s' l' :
  SystemRwlock.tstep i ch s l = Some (s', l') ->
  SystemRwlock.writes l' = SystemRwlock.writes l \/ SystemRwlock.reads l' = SystemRwlock.reads l.
Proof.
  intros Hs. destruct ch as [m|sp|k|ex].
  - assert (SystemRwlock.tstep i (Call m) s l = pair s <$> SystemRwlock.enter m l) as E by (by destruct l).
    rewrite E in Hs. destruct l, m; simpl in Hs; simplify_eq; auto.
  - destruct l as [| | |x|x|x|x]; try done; simpl in Hs; simplify_eq/=; [|destruct x; auto].
    unfold SystemRwlock.try_lock in *. repeat case_match; simplify_eq/=; auto.
  - destruct l as [| | |x|x|x|x], k; try done; simpl in Hs; unfold SystemRwlock.lock in Hs; simplify_eq/=; auto;
      destruct (SystemRwlock.blocking x s) as [[k1 r]|]; simplify_eq/=; try destruct (r =? 0); destruct x; auto.
  - by destruct l.
Qed.

#[global] Instance shared_library_spec (k : library_shared) : SharedSpec (shared_of k).
Proof.
  split.
  - intros n. destruct k; (split; by apply count_replicate).
  - intros n c Hn Hr. unfold sh_reachable in Hr. destruct k as [hb|]; cbn in c, Hn, Hr |- *.
    + destruct (Shared.shared_inv_reachable hb n c Hn Hr) as [_ _ (w & p & _ & -> & Hwr & _)].
      destruct w; simpl; (split; [lia|]); [by intros _; apply Hwr|lia].
    + destruct (SystemRwlock.rwlock_inv_reachable n c Hr) as (-> & -> & Hk).
      destruct (r_writer (shared c)); simpl; (split; [lia|]); [by intros _; apply Hk|lia].
  - intros i ch s l s' l' Hs. destruct k as [hb|]; cbn in *; [by eapply spinning_one_kind|by eapply rwlock_one_kind].
Qed.

(** Every step of every shared mutex of the library is a step of the abstract
    reader-writer lock: it takes the free lock for its thread, gives it back, adds a
    reader when there is no writer, removes one, or leaves the lock alone. *)
Theorem library_shared_refine_rwlock (k : library_shared) n c i ch c' :
  sh_fits (shared_of k) n -> sh_reachable (shared_of k) n c -> cstep (sh_step (shared_of k)) i ch c = Some c' ->
  rw_action i (rw_state (shared_of k) c) (rw_state (shared_of k) c').
Proof. apply shared_refines, shared_library_spec. Qed.

(** C3: With any shared mutex of the library ([spinlock_mutex<shared>], and
    [pthread_rwlock_mutex] on a lock whose blocking calls do not fail) readers see one
    version and writers update it atomically: in every interleaving the data is the initial value with
    the stored updates applied in order, none lost; whatever a reader saw, at however
    many looks, is the current version, which cannot change before the reader is
    done; and a writer works on the current version with nobody beside it. *)
Theorem library_shared_snapshot (k : library_shared) {T : Type} (v : T) n c :
  sh_fits (shared_of k) n -> visitors_reachable (shared_of k) v n c ->
  version (shared c) = update_all (history (shared c)) v /\
  (forall i l seen, threads c !! i = Some l -> visit_ l = Some (Looking seen) ->
     Forall (eq (version (shared c))) seen /\
     forall j ch c', j <> i -> cstep (visitor_step (shared_of k)) j ch c = Some c' -> version (shared c') = version (shared c)) /\
  (forall i l x f, threads c !! i = Some l -> visit_ l = Some (Updating x f) ->
     x = version (shared c) /\ forall j l', threads c !! j = Some l' -> j <> i -> visit_ l' = None).
Proof.
  intros Hn Hr. pose proof (visits_reachable (shared_of k) v n c Hn Hr) as [Hm Hv Hall]. split; [done|].
  assert (forall i l x f, threads c !! i = Some l -> visit_ l = Some (Updating x f) ->
    x = version (shared c) /\ forall j l', threads c !! j = Some l' -> j <> i -> visit_ l' = None) as Hup.
  { intros i l x f Hi El. pose proof (Forall_lookup_1 _ _ _ _ Hall Hi) as Hl. unfold visit_ok in Hl. rewrite El in Hl.
    destruct Hl as [-> Hw]. split; [done|]. intros j l' Hj Hne. pose proof (Forall_lookup_1 _ _ _ _ Hall Hj) as Hl'.
    pose proof (writer_alone (shared_of k) n c i j l l' Hn Hm Hi Hj Hw Hne) as Ha. unfold visit_ok, holds_any in *.
    destruct (visit_ l') as [[y g|seen]|]; [| |done]; destruct Hl' as [_ Hl']; [by rewrite Hl' in Ha|congruence]. }
  split; [|exact Hup]. intros i l seen Hi El. pose proof (Forall_lookup_1 _ _ _ _ Hall Hi) as Hl.
  unfold visit_ok in Hl. rewrite El in Hl. split; [apply Hl|].
  intros j ch c' Hne (lj & s' & lj' & Hj & Hs & ->)%cstep_inv. cbn [shared].
  unfold visitor_step in Hs. destruct ch as [ch|f| | | |], (visit_ lj) as [[x g|sn]|] eqn:Ej; try done; simplify_eq/=; try done.
  - destruct (sh_step _ j ch _ _) as [[k1 x]|]; by simplify_eq/=.
  - repeat case_match; by simplify_eq.
  - destruct (Hup j lj x g Hj Ej) as [_ Hx]. specialize (Hx i l Hi (not_eq_sym Hne)). congruence.
  - repeat case_match; by simplify_eq.
Qed.
End library.

(** ** Witnesses *)

Definition demo_shared : shared_mutex := shared_of (R := bool * Z) PthreadRwlock.

Abbreviation rw_ch ch := (OfShared (m := demo_shared) (T := Z) ch).

(** Thread 0 adds one and unlocks; thread 1 looks twice; thread 2 waits to write. *)
Definition visit_sched : list (nat * visitor_choice demo_shared (T := Z)) :=
  [(0%nat, rw_ch (Call MLock)); (0%nat, rw_ch (Kernel Go)); (0%nat, BeginUpdate (Z.add 1)); (0%nat, EndUpdate);
   (0%nat, rw_ch (Call MUnlock)); (0%nat, rw_ch (Act false));
   (1%nat, rw_ch (Call MLockShared)); (1%nat, rw_ch (Kernel Go)); (1%nat, BeginLook); (1%nat, Look);
   (2%nat, rw_ch (Call MLock)); (1%nat, Look)].

Definition visit_after : config (guarded demo_shared (T := Z)) (visitor demo_shared (T := Z)) :=
  Config (Guarded (m := demo_shared) (false, 1) 8 [Z.add 1])
    [Visitor (m := demo_shared) Idle None; Visitor (m := demo_shared) Reader (Some (Looking [8; 8]));
     Visitor (m := demo_shared) (Locking true) None].

Lemma visit_after_reachable : visitors_reachable demo_shared 7 3 visit_after.
Proof. apply (exec_reachable _ visit_sched). reflexivity. Qed.

Lemma library_shared_snapshot_witness : 8 = update_all [Z.add 1] 7 /\ Forall (eq 8) [8; 8].
Proof.
  destruct (library_shared_snapshot (R := bool * Z) PthreadRwlock 7 3 visit_after I visit_after_reachable) as (E & Hl & _).
  split; [exact E|]. by destruct (Hl 1%nat (Visitor (m := demo_shared) Reader (Some (Looking [8; 8]))) [8; 8]).
Defined.

Lemma library_shared_refine_rwlock_witness :
  exists c', cstep (sh_step demo_shared) 1%nat (Kernel Go) (Config (false, 1) [Reader; Locking false]) = Some c' /\
    rw_action 1%nat (None, 1) (rw_state demo_shared c').
Proof.
  exists (Config (false, 2) [Reader; Reader]). split; [reflexivity|].
  apply (library_shared_refine_rwlock (R := bool * Z) PthreadRwlock 2 (Config (false, 1) [Reader; Locking false]) 1%nat (Kernel Go));
    [done| |reflexivity].
  by apply (exec_reachable _ [(0%nat, Call MLockShared); (0%nat, Kernel Go); (1%nat, Call MLockShared)]).
Defined.
