(* ===== verification/Pthread.v ===== *)
(** * The wrappers of the POSIX locks

    [pthread_mutex] (mutex/pthread_mutex.hpp), [pthread_rwlock_mutex]
    (mutex/pthread_rwlock_mutex.hpp), [pthread_spinlock_mutex]
    (mutex/pthread_spinlock_mutex.hpp) and [apple_os_unfair_mutex]
    (mutex/apple_os_unfair_mutex.hpp): the calls they make, the deadlines they pass,
    and what they do with the results.  The locks themselves are not code of the
    library: they are a class, [SystemLock], whose operations return an error
    number.  A run is sequential, in a world with the clocks. *)
From S2P Require Import Prelude AtomicWait.
#[local] Open Scope Z_scope.

(** [pthread_mutex_lock], [_trylock], [_unlock], [_clocklock] and [_timedlock], or
    those of a side of a reader-writer lock; 0 is success. *)
Class SystemLock (W : Type) := {
  p_lock : W -> W * Z;
  p_trylock : W -> W * Z;
  p_unlock : W -> W * Z;
  p_clocklock : clock_id -> timespec -> W -> W * Z;
  p_timedlock : timespec -> W -> W * Z
}.

(** The clock of a time point: [system_clock], [steady_clock] or another one. *)
Inductive clock := System | Steady | Other.

Section wrapper.
Context {W : Type} `{SystemLock W} (now : clock -> W -> W * Z).

(** The wrappers ignore the results of [lock] and [unlock]. *)
Definition lock (w : W) : W := (p_lock w).1.
Definition unlock (w : W) : W := (p_unlock w).1.
Definition try_lock (w : W) : W * bool := let '(w', rc) := p_trylock w in (w', rc =? 0).

(** How a call ends: it returns, or it flows off the end of the function. *)
Inductive result := Returns (w : W) (r : bool) | FlowsOff (w : W).

Definition returns (x : W * Z) : result := Returns x.1 (x.2 =? 0).

(** [secs] and [nsecs] of [try_lock_until()]. *)
Definition to_timespec (ns : Z) : timespec :=
  let secs := Z.quot ns 1000000000 in Timespec secs (ns - secs * 1000000000).

(** The call with a deadline; without a clock it is on [CLOCK_REALTIME]. *)
Definition timed_call (clk : bool) (id : clock_id) (t : timespec) (w : W) : W * Z :=
  match id with
  | CLOCK_REALTIME => if clk then p_clocklock CLOCK_REALTIME t w else p_timedlock t w
  | CLOCK_MONOTONIC => p_clocklock CLOCK_MONOTONIC t w
  end.

(** [try_lock_until( abs_time )], whose last branch is [try_lock_for( abs_time -
    Clock::now() )].  [clk]: a [system_clock] deadline is passed with a clock;
    [rw] is the reader-writer lock, where elsewhere than on Linux the branch of
    [steady_clock] is empty. *)
Fixpoint try_lock_until (fuel : nat) (clk linux rw : bool) (c : clock) (abs : Z) (w : W) : option result :=
  match fuel with
  | O => None
  | S fuel' =>
      let recurse w' rel := let '(w2, t) := now Steady w' in try_lock_until fuel' clk linux rw Steady (t + rel) w2 in
      match c with
      | System => Some (returns (timed_call clk CLOCK_REALTIME (to_timespec abs) w))
      | Steady =>
          if linux then Some (returns (timed_call clk CLOCK_MONOTONIC (to_timespec abs) w))
          else if rw then Some (FlowsOff w)
          else let '(w', t) := now Steady w in recurse w' (abs - t)
      | Other => let '(w', t) := now Other w in recurse w' (abs - t)
      end
  end.

(** [try_lock_for( rel_time )]. *)
Definition try_lock_for (fuel : nat) (clk linux rw : bool) (rel : Z) (w : W) : option result :=
  let '(w', t) := now Steady w in try_lock_until fuel clk linux rw Steady (t + rel) w'.

(** The classes, with their calls of the system; nothing defines
    [NOVA_SYNC_USE_PTHREAD_RWLOCK_CLOCK], so the shared side has no clock. *)
Definition mutex_try_lock_until (fuel : nat) (linux : bool) := try_lock_until fuel linux linux false.
Definition rwlock_try_lock_until (fuel : nat) (linux : bool) := try_lock_until fuel linux linux true.
Definition rwlock_try_lock_shared_until (fuel : nat) (use_rwlock_clock linux : bool) :=
  try_lock_until fuel use_rwlock_clock linux true.
End wrapper.

(** ** The attributes of [pthread_mutex] *)

Record policies := Policies {
  use_inherit : bool;
  use_ceiling : option Z;
  use_recursive : bool;
  use_errorcheck : bool;
  use_adaptive : bool
}.

(** The [requires] clause of the class. *)
Definition valid (p : policies) : bool :=
  negb (use_inherit p && bool_decide (is_Some (use_ceiling p))) && negb (use_recursive p && use_errorcheck p) &&
  negb (use_recursive p && use_adaptive p) && negb (use_errorcheck p && use_adaptive p).

(** The calls on the attributes. *)
Inductive attr_call :=
| SetType (t : Z)
| SetProtocol (t : Z)
| SetPrioCeiling (n : Z).

(** The constants of [<pthread.h>]. *)
Record constants := Constants {
  PTHREAD_MUTEX_RECURSIVE : Z; PTHREAD_MUTEX_ERRORCHECK : Z; PTHREAD_MUTEX_ADAPTIVE_NP : Z;
  PTHREAD_PRIO_INHERIT : Z; PTHREAD_PRIO_PROTECT : Z
}.

Definition initialize (k : constants) (linux rt : bool) (p : policies) : list attr_call :=
  (if use_recursive p then [SetType (PTHREAD_MUTEX_RECURSIVE k)]
   else if use_errorcheck p then [SetType (PTHREAD_MUTEX_ERRORCHECK k)]
   else if linux && use_adaptive p then [SetType (PTHREAD_MUTEX_ADAPTIVE_NP k)] else []) ++
  (if rt then
     if use_inherit p || bool_decide (is_Some (use_ceiling p)) then
       SetProtocol (if use_inherit p then PTHREAD_PRIO_INHERIT k else PTHREAD_PRIO_PROTECT k) ::
       match use_ceiling p with Some n => [SetPrioCeiling n] | None => [] end
     else []
   else []).

(** ** Proofs *)

Lemma to_timespec_abs ns : to_timespec ns = to_abs_timespec ns.
Proof. unfold to_timespec, to_abs_timespec. f_equal. pose proof (Z.quot_rem' ns 1000000000). lia. Qed.

Section timed.
Context {W : Type} `{SystemLock W} (now : clock -> W -> W * Z).

(** The deadline of a time point on the monotonic clock, and the world after the
    clock was read. *)
Definition deadline (c : clock) (abs : Z) (w : W) : W * clock_id * Z :=
  match c with
  | System => (w, CLOCK_REALTIME, abs)
  | Steady => (w, CLOCK_MONOTONIC, abs)
  | Other =>
      let '(w1, t) := now Other w in let '(w2, s) := now Steady w1 in (w2, CLOCK_MONOTONIC, s + (abs - t))
  end.

(** C27: on Linux a timed attempt terminates for every clock, and is one call of
    the system with exactly its deadline, on the clock of the time point or moved to
    the monotonic one; a deadline after the epoch is valid for the system, and
    the attempt returns [true] exactly if the call succeeded. *)
Theorem pthread_try_lock_until_exact clk rw c abs (w : W) fuel :
  (2 <= fuel)%nat ->
  let '(w1, id, ns) := deadline c abs w in
  try_lock_until now fuel clk true rw c abs w =
    Some (Returns (timed_call clk id (to_timespec ns) w1).1 ((timed_call clk id (to_timespec ns) w1).2 =? 0)) /\
  timespec_ns (to_timespec ns) = ns /\ (0 <= ns -> normalised (to_timespec ns)).
Proof.
  intros Hf. destruct (deadline c abs w) as [[w1 id] ns] eqn:E. rewrite !to_timespec_abs.
  split_and!; [|apply to_abs_timespec_ns|apply to_abs_timespec_normalised].
  destruct fuel as [|[|fuel]]; [lia..|]. unfold deadline in E.
  destruct c; cbn [try_lock_until]; [by simplify_eq; rewrite to_timespec_abs..|].
  destruct (now Other w) as [w' t]. destruct (now Steady w') as [w2 s]. simplify_eq.
  cbn [try_lock_until]. by rewrite to_timespec_abs.
Qed.

(** Elsewhere than on Linux the timed attempts of [pthread_mutex] with a
    [steady_clock] deadline, so also [try_lock_for()] and those with other clocks,
    call themselves for ever; those of [pthread_rwlock_mutex] return no value. *)
Theorem pthread_steady_recursion clk fuel c abs rel (w : W) :
  c <> System ->
  try_lock_until now fuel clk false false c abs w = None /\ try_lock_for now fuel clk false false rel w = None /\
  exists w', try_lock_until now (S (S fuel)) clk false true c abs w = Some (FlowsOff w').
Proof.
  assert (forall n a (v : W), try_lock_until now n clk false false Steady a v = None) as Hs.
  { induction n as [|n IH]; intros a v; simpl; [done|]. destruct (now Steady v) as [v1 t], (now Steady v1). apply IH. }
  intros Hc. split_and!.
  - destruct c; [done|apply Hs|]. destruct fuel as [|n]; simpl; [done|].
    destruct (now Other w) as [v1 t], (now Steady v1). apply Hs.
  - unfold try_lock_for. destruct (now Steady w). apply Hs.
  - destruct c; [done|by eexists|]. simpl. destruct (now Other w) as [v1 t], (now Steady v1). by eexists.
Qed.
End timed.

(** What the policies ask for reaches the attributes: one type, one protocol. *)
Lemma initialize_calls k p :
  valid p = true ->
  initialize k true true p =
    (if use_recursive p then [SetType (PTHREAD_MUTEX_RECURSIVE k)] else []) ++
    (if use_errorcheck p then [SetType (PTHREAD_MUTEX_ERRORCHECK k)] else []) ++
    (if use_adaptive p then [SetType (PTHREAD_MUTEX_ADAPTIVE_NP k)] else []) ++
    (if use_inherit p then [SetProtocol (PTHREAD_PRIO_INHERIT k)] else []) ++
    match use_ceiling p with Some n => [SetProtocol (PTHREAD_PRIO_PROTECT k); SetPrioCeiling n] | None => [] end.
Proof. destruct p as [[] [c|] [] [] []]; done. Qed.

(** A mutex with a priority ceiling: a thread above the ceiling gets [EINVAL]. *)
Record ceiling_world := CeilingWorld { owner_ : option nat; self_ : nat; above : bool }.

#[local] Instance ceiling_lock : SystemLock ceiling_world := {
  p_lock := fun w => if above w then (w, 22) else (CeilingWorld (Some (self_ w)) (self_ w) (above w), 0);
  p_trylock := fun w =>
    if above w then (w, 22) else match owner_ w with None => (CeilingWorld (Some (self_ w)) (self_ w) (above w), 0) | _ => (w, 16) end;
  p_unlock := fun w => (CeilingWorld None (self_ w) (above w), 0);
  p_clocklock := fun _ _ w => (w, 110);
  p_timedlock := fun _ w => (w, 110)
}.

(** [lock()] returns without the lock when the system refuses: the caller of a
    [pthread_priority_ceiling_mutex] whose priority is above the ceiling. *)
Theorem pthread_lock_ignores_errors :
  exists w : ceiling_world, owner_ (lock w) = None /\ (p_lock w).2 <> 0.
Proof. by exists (CeilingWorld None 1 true). Qed.

(** ** Witnesses *)

(** A clock of its own that is 1000 ns behind [steady_clock]. *)
Definition demo_now (c : clock) (w : ceiling_world) : ceiling_world * Z :=
  (w, match c with System => 7 | Steady => 5000 | Other => 4000 end).

Lemma pthread_try_lock_until_exact_witness :
  try_lock_until demo_now 2 true true false Other 2500004000 (CeilingWorld None 1 false) =
    Some (Returns (CeilingWorld None 1 false) false) /\
  timespec_ns (Timespec 2 500005000) = 2500005000 /\ (0 <= 2500005000 -> normalised (Timespec 2 500005000)).
Proof. exact (pthread_try_lock_until_exact demo_now true false Other 2500004000 (CeilingWorld None 1 false) 2 ltac:(lia)). Defined.

Lemma pthread_steady_recursion_witness :
  try_lock_until demo_now 10 false false false Steady 6000 (CeilingWorld None 1 false) = None.
Proof. by apply (pthread_steady_recursion demo_now false 10 Steady 6000 0 (CeilingWorld None 1 false)). Defined.
