(* ===== verification/PthreadPolicies.v ===== *)
(** * The policies of [pthread_mutex]

    What the template of mutex/pthread_mutex.hpp makes of its parameters: the tags and
    flags of [pthread_policy], the constraint of the class, the members it derives from
    the pack, and the aliases.  [nova::parameter] is not code of the library: it is a
    class, here with flags and integral parameters.  [Pthread.v] has what the class does
    with the policies. *)
From S2P Require Import Prelude AtomicWait Pthread.
#[local] Open Scope Z_scope.

(** The tags of [pthread_policy::tags], and [detail::recursive_tag]. *)
Inductive tag :=
| priority_inherit_tag | priority_ceiling_tag | recursive_tag | pthread_errorcheck_tag | pthread_adaptive_tag
| other_tag (n : nat).   (** the tags of other policies *)

#[export] Instance pthread_tag_eq_dec : EqDecision tag.
Proof. solve_decision. Defined.

(** [nova::parameter] for flags and [int] parameters. *)
Class ParameterLibrary (P : Type) := {
  flag_param : tag -> P;
  integral_param : tag -> Z -> P;
  has_parameter : tag -> list P -> bool;
  extract_integral_or : tag -> Z -> list P -> Z;
  valid_parameters : list tag -> list P -> bool
}.

Definition mentions {P : Type} `{ParameterLibrary P} (t : tag) (ps : list P) : Prop :=
  flag_param t ∈ ps \/ exists n, integral_param t n ∈ ps.

(** A pack has a parameter if it is in it; what is extracted is the value in the pack, if
    it has one; a valid pack mentions allowed tags only. *)
Class ParameterLaws (P : Type) `{ParameterLibrary P} := {
  has_parameter_law t ps : has_parameter t ps = true <-> mentions t ps;
  extract_law t d n ps : integral_param t n ∈ ps -> (forall m, integral_param t m ∈ ps -> m = n) ->
    extract_integral_or t d ps = n;
  valid_parameters_law allowed ps t : valid_parameters allowed ps = true -> mentions t ps -> t ∈ allowed
}.

Section policies.
Context {P : Type} `{ParameterLibrary P}.
Implicit Types ps : list P.

Definition priority_inherit : P := flag_param priority_inherit_tag.
Definition priority_ceiling (ceiling : Z) : P := integral_param priority_ceiling_tag ceiling.
Definition pthread_errorcheck : P := flag_param pthread_errorcheck_tag.
Definition pthread_adaptive : P := flag_param pthread_adaptive_tag.
Definition recursive : P := flag_param recursive_tag.

Definition pthread_allowed_tags : list tag :=
  [priority_inherit_tag; priority_ceiling_tag; recursive_tag; pthread_errorcheck_tag; pthread_adaptive_tag].

Definition has_priority_inherit_v ps : bool := has_parameter priority_inherit_tag ps.
Definition has_priority_ceiling_v ps : bool := has_parameter priority_ceiling_tag ps.
Definition extract_priority_ceiling_v ps : Z := extract_integral_or priority_ceiling_tag 0 ps.
Definition has_pthread_errorcheck_v ps : bool := has_parameter pthread_errorcheck_tag ps.
Definition has_pthread_adaptive_v ps : bool := has_parameter pthread_adaptive_tag ps.
Definition has_recursive_v ps : bool := has_parameter recursive_tag ps.

(** The members [use_inherit], [use_ceiling] with [ceiling_val], and the others. *)
Definition members ps : policies :=
  Policies (has_priority_inherit_v ps)
    (if has_priority_ceiling_v ps then Some (extract_priority_ceiling_v ps) else None)
    (has_recursive_v ps) (has_pthread_errorcheck_v ps) (has_pthread_adaptive_v ps).

(** The class for a pack; [None] where the constraint rejects it. *)
Definition pthread_mutex ps : option policies :=
  if valid_parameters pthread_allowed_tags ps
     && negb (has_priority_inherit_v ps && has_priority_ceiling_v ps)
     && negb (has_recursive_v ps && has_pthread_errorcheck_v ps)
     && negb (has_recursive_v ps && has_pthread_adaptive_v ps)
     && negb (has_pthread_errorcheck_v ps && has_pthread_adaptive_v ps)
  then Some (members ps) else None.

(** The aliases. *)
Definition pthread_default_mutex := pthread_mutex [].
Definition pthread_priority_inherit_mutex := pthread_mutex [priority_inherit].
Definition pthread_priority_ceiling_mutex (ceiling : Z) := pthread_mutex [priority_ceiling ceiling].
Definition pthread_recursive_mutex := pthread_mutex [recursive].

(** The specialisation of [concepts_is_recursive]. *)
Definition concepts_is_recursive ps : bool := has_recursive_v ps.

(** ** Proofs *)

Context `{!ParameterLaws P}.

Lemma members_valid ps p : pthread_mutex ps = Some p -> p = members ps /\ valid p = true.
Proof.
  unfold pthread_mutex. destruct (valid_parameters _ ps && _ && _ && _ && _) eqn:E; [|done]. intros [= <-]. split; [done|].
  unfold valid, members. simpl. destruct (has_priority_ceiling_v ps), (has_priority_inherit_v ps), (has_recursive_v ps),
    (has_pthread_errorcheck_v ps), (has_pthread_adaptive_v ps), (valid_parameters pthread_allowed_tags ps);
    simpl in E; try discriminate; by simpl.
Qed.

(** What a policy asks of the attributes of the mutex. *)
Definition asks (k : constants) (t : tag) (ceiling : Z) : list attr_call :=
  match t with
  | priority_inherit_tag => [SetProtocol (PTHREAD_PRIO_INHERIT k)]
  | priority_ceiling_tag => [SetProtocol (PTHREAD_PRIO_PROTECT k); SetPrioCeiling ceiling]
  | recursive_tag => [SetType (PTHREAD_MUTEX_RECURSIVE k)]
  | pthread_errorcheck_tag => [SetType (PTHREAD_MUTEX_ERRORCHECK k)]
  | pthread_adaptive_tag => [SetType (PTHREAD_MUTEX_ADAPTIVE_NP k)]
  | other_tag _ => []
  end.

Lemma if_elem {A} (b : bool) (l : list A) a : a ∈ (if b then l else []) <-> b = true /\ a ∈ l.
Proof. destruct b; [tauto|]. split; [by intros ?%not_elem_of_nil|by intros [? _]]. Qed.

Lemma ceiling_elem (k : constants) (b : bool) n a :
  a ∈ match (if b then Some n else None) with
      | Some n => [SetProtocol (PTHREAD_PRIO_PROTECT k); SetPrioCeiling n] | None => [] end <->
  b = true /\ a ∈ asks k priority_ceiling_tag n.
Proof. destruct b; simpl; [tauto|]. split; [by intros ?%not_elem_of_nil|by intros [? _]]. Qed.

(** Packs with the same policies have the same parameters. *)
Lemma has_parameter_perm ps ps' t : ps' ≡ₚ ps -> has_parameter t ps' = has_parameter t ps.
Proof.
  intros Hp. apply eq_true_iff_eq. rewrite !has_parameter_law. unfold mentions. by setoid_rewrite Hp.
Qed.

(** Of every pack the class accepts, on a system with all attributes, the calls of
    [initialize()] are those its policies ask for, and no others; the order of the pack
    does not matter; and the class is a recursive mutex for the concepts exactly if it is
    one for the system.  The ceiling is the one in the pack, if the pack has one only. *)
Theorem pthread_policies_applied (k : constants) ps p ceiling :
  pthread_mutex ps = Some p ->
  (forall c, priority_ceiling c ∈ ps -> c = ceiling) -> flag_param priority_ceiling_tag ∉ ps ->
  (forall a, a ∈ initialize k true true p <-> exists t, mentions t ps /\ a ∈ asks k t ceiling) /\
  concepts_is_recursive ps = use_recursive p /\
  (forall ps', ps' ≡ₚ ps -> members ps' = p).
Proof.
  intros Hp Hc Hf. destruct (members_valid ps p Hp) as [-> Hv].
  assert (forall qs, qs ≡ₚ ps -> has_priority_ceiling_v qs = true -> extract_priority_ceiling_v qs = ceiling) as Hex.
  { intros qs Hqs Hh. apply has_parameter_law in Hh as [Hfl|[n Hn]]; [by rewrite Hqs in Hfl|].
    rewrite Hqs in Hn. pose proof (Hc n Hn) as ->.
    apply extract_law; [by rewrite Hqs|]. intros m. rewrite Hqs. apply Hc. }
  split_and!.
  - intros a. rewrite initialize_calls by done. unfold members; simpl. rewrite !elem_of_app, ceiling_elem, !if_elem.
    setoid_rewrite <- has_parameter_law. split.
    + intros [[E Ha]|[[E Ha]|[[E Ha]|[[E Ha]|[E Ha]]]]]; eexists; (split; [exact E|]); try exact Ha.
      by rewrite (Hex ps) in Ha by done.
    + intros ([] & Ht & Ha); simpl in Ha; try (by apply not_elem_of_nil in Ha); auto 10.
      do 4 right. rewrite (Hex ps) by done. auto.
  - done.
  - intros ps' Hps. pose proof (fun t => has_parameter_perm ps ps' t Hps) as He. unfold members, has_priority_inherit_v,
      has_priority_ceiling_v, has_recursive_v, has_pthread_errorcheck_v, has_pthread_adaptive_v. rewrite !He.
    destruct (has_parameter priority_ceiling_tag ps) eqn:E; [|done].
    rewrite (Hex ps' Hps), (Hex ps); [done|done|exact E|]. unfold has_priority_ceiling_v. by rewrite He.
Qed.
End policies.

(** ** The aliases *)

(** Packs as lists of tags with values. *)
#[export] Instance tag_packs : ParameterLibrary (tag * option Z) := {
  flag_param := fun t => (t, None);
  integral_param := fun t n => (t, Some n);
  has_parameter := fun t ps => bool_decide (Exists (fun x => x.1 = t) ps);
  extract_integral_or := fun t d ps =>
    match list_find (fun x => x.1 = t /\ x.2 <> None) ps with Some (_, (_, Some n)) => n | _ => d end;
  valid_parameters := fun allowed ps => bool_decide (Forall (fun x => x.1 ∈ allowed) ps)
}.

#[export] Instance tag_packs_laws : ParameterLaws (tag * option Z).
Proof.
  constructor; unfold mentions; simpl.
  - intros t ps. rewrite bool_decide_eq_true, Exists_exists. split.
    + intros ([t' [n|]] & Hx & [= ->]); eauto.
    + intros [Hx|[n Hx]]; eauto.
  - intros t d n ps Hn Hu. destruct (list_find _ ps) as [[i [t' o]]|] eqn:E.
    + apply list_find_Some in E as (Hi & [Et Ho] & _). simpl in *. subst t'. destruct o as [m|]; [|done].
      apply Hu. by eapply list_elem_of_lookup_2.
    + apply list_find_None in E. rewrite Forall_forall in E. destruct (E _ Hn). by split.
  - intros allowed ps t Hv Hm. apply bool_decide_eq_true in Hv. rewrite Forall_forall in Hv.
    destruct Hm as [Hm|[n Hm]]; by apply Hv in Hm.
Qed.

(** The attributes of the aliases. *)
Lemma pthread_aliases k n :
  let attributes := fmap (M := option) (initialize k true true) in
  attributes (pthread_default_mutex (P := tag * option Z)) = Some [] /\
  attributes (pthread_priority_inherit_mutex (P := tag * option Z)) = Some [SetProtocol (PTHREAD_PRIO_INHERIT k)] /\
  attributes (pthread_priority_ceiling_mutex (P := tag * option Z) n) =
    Some [SetProtocol (PTHREAD_PRIO_PROTECT k); SetPrioCeiling n] /\
  attributes (pthread_recursive_mutex (P := tag * option Z)) = Some [SetType (PTHREAD_MUTEX_RECURSIVE k)].
Proof. by split_and!. Qed.

(** ** Witness *)

Definition demo_constants : constants := Constants 1 2 3 1 2.

(** A recursive mutex with a ceiling, its policies in either order. *)
Lemma pthread_policies_applied_witness :
  members [(priority_ceiling_tag, Some 7); (recursive_tag, None)] =
    Policies false (Some 7) true false false /\
  (SetPrioCeiling 7 ∈ initialize demo_constants true true (Policies false (Some 7) true false false)).
Proof.
  assert (forall c, priority_ceiling (P := tag * option Z) c ∈ [(recursive_tag, None); (priority_ceiling_tag, Some 7)] -> c = 7) as Hc.
  { intros c. rewrite !elem_of_cons, elem_of_nil. intros [E|[E|E]]; [discriminate E|by injection E|done]. }
  destruct (pthread_policies_applied (P := tag * option Z) demo_constants [(recursive_tag, None); (priority_ceiling_tag, Some 7)]
    (Policies false (Some 7) true false false) 7) as (H1 & _ & H2).
  - reflexivity.
  - exact Hc.
  - simpl. rewrite !elem_of_cons, elem_of_nil. intros [E|[E|E]]; (discriminate E || done).
  - split; [apply H2; constructor|]. apply H1. exists priority_ceiling_tag. split; [|simpl; set_solver].
    right. exists 7. simpl. set_solver.
Defined.
