(* ===== verification/NativeSemaphore.v ===== *)
(** * Semaphores and mutexes on a kernel counter

    [posix_semaphore], [mach_semaphore], [dispatch_semaphore], [win32_semaphore]
    and [eventfd_semaphore] (include/nova/sync/semaphore/,
    source/nova/sync/semaphore/), the plain [eventfd_mutex_impl] and
    [kqueue_mutex_impl] (mutex/eventfd_mutex.hpp, kqueue_mutex.hpp), and
    [kqueue_semaphore], which keeps its own count.

    The kernel objects are parameters, the [Counter] and [Notifier] of [Kernel.v]. *)
From S2P Require Import Prelude Kernel Machine Futex.
#[local] Open Scope Z_scope.

(** ** The semaphores *)
Module Semaphore.

(** The implementations. *)
Inductive kind := Posix | Mach | Dispatch | Win32 | Eventfd.

#[export] Instance kind_eq_dec : EqDecision kind.
Proof. solve_decision. Defined.

(** [release( n )] posts token by token, or all at once. *)
Definition one_by_one (k : kind) : bool :=
  match k with Posix | Mach | Dispatch => true | Win32 | Eventfd => false end.

(** [acquire()] blocks in the kernel, or polls and tries. *)
Definition polls (k : kind) : bool := match k with Eventfd => true | _ => false end.

(** The [std::ptrdiff_t] a semaphore is created with, and the one a call of
    [release()] passes on at once, as the system's call takes it: [unsigned( initial )],
    [int( initial )], [LONG( initial )]; [LONG( n )], [uint64_t( n )]. *)
Definition initial_value (k : kind) (initial : Z) : Z :=
  match k with Posix | Eventfd => u32 initial | Mach | Win32 => i32 initial | Dispatch => initial end.

Definition release_value (k : kind) (n : Z) : Z :=
  match k with Win32 => i32 n | Eventfd => u64 n | Posix | Mach | Dispatch => n end.

(** The kernel object; ghosts: the tokens that were released, or there from the
    beginning, and the acquisitions that succeeded. *)
Record state (K : Type) := State { obj : K; given : Z; taken : Z }.
#[global] Arguments State {K}. #[global] Arguments obj {K}. #[global] Arguments given {K}. #[global] Arguments taken {K}.

Inductive pc :=
| Idle
| Ret (ok : bool)
| Blocked               (** [acquire()]: [sem_wait], [semaphore_wait], ... *)
| TryAcquire (timed : bool) (** [acquire()] on eventfd and the timed methods: [try_acquire()] *)
| Polling (timed : bool)    (** in [poll_intr], [ppoll_for] or [ppoll_until] *)
| TryOnce                   (** [try_acquire()], or the last attempt after a time-out *)
| Timed                     (** in [sem_timedwait], [semaphore_timedwait], ... *)
| Releasing (left : Z).     (** [release( n )]: tokens left to post *)

Inductive method := MAcquire | MTryAcquire | MTryAcquireFor | MRelease (n : Z).

Section machine.
Context {K : Type} `{Counter K} (kd : kind).
Implicit Types s : state K.

Definition take s : state K * bool :=
  let '(o, ok) := k_take (obj s) in (State o (given s) (if ok then taken s + 1 else taken s), ok).

(** A call that releases [n] tokens by posting [v]; its result is not looked at. *)
Definition post (v n : Z) s : state K := State (k_post v (obj s)) (given s + n) (taken s).

(** One turn of the blocking wait: [KERN_ABORTED] and [EINTR] are retried. *)
Definition blocked (ch : wchoice) s : option (state K * pc) :=
  match ch with
  | Go => let '(s', ok) := take s in if ok then Some (s', Ret true) else None
  | Interrupted => match kd with Posix | Mach => Some (s, Blocked) | _ => None end
  | _ => None
  end.

Definition timed (ch : wchoice) s : option (state K * pc) :=
  match ch with
  | Go => let '(s', ok) := take s in if ok then Some (s', Ret true) else None
  | Interrupted => match kd with Posix => Some (s, Timed) | Mach => Some (s, Ret false) | _ => None end
  | TimedOut => Some (s, Ret false)
  | _ => None
  end.

Definition try_acquire (retry_ : option bool) s : state K * pc :=
  let '(s', ok) := take s in
  (s', if ok then Ret true else match retry_ with Some t => Polling t | None => Ret false end).

(** Level-triggered: [poll] returns when a token is there; a time-out leads to
    one more attempt. *)
Definition polling (ch : wchoice) (timed_ : bool) s : option (state K * pc) :=
  match ch with
  | Go => if 0 <? k_tokens (obj s) then Some (s, TryAcquire timed_) else None
  | TimedOut => if timed_ then Some (s, TryOnce) else None
  | _ => None
  end.

Definition release (left : Z) s : state K * pc :=
  if one_by_one kd then
    if 0 <? left then (post 1 1 s, Releasing (left - 1)) else (s, Ret true)
  else (post (release_value kd left) left s, Ret true).

Definition enter (m : method) : option pc :=
  match m with
  | MAcquire => Some (if polls kd then TryAcquire false else Blocked)
  | MTryAcquire => Some TryOnce
  | MTryAcquireFor => Some (if polls kd then TryAcquire true else Timed)
  | MRelease n => if (0 <=? n) && (n <? 2 ^ 63) then Some (Releasing n) else None
  end.

Definition tstep (tid : nat) (ch : choice method) s (l : pc) : option (state K * pc) :=
  match l, ch with
  | (Idle | Ret _), Call m => pair s <$> enter m
  | Blocked, Kernel c => blocked c s
  | Timed, Kernel c => timed c s
  | Polling t, Kernel c => polling c t s
  | TryAcquire t, Act _ => Some (try_acquire (Some t) s)
  | TryOnce, Act _ => Some (try_acquire None s)
  | Releasing n, Act _ => Some (release n s)
  | _, _ => None
  end.

(** The constructors; [dispatch_semaphore] signals an empty semaphore. *)
Definition create (initial : Z) : K :=
  match kd with
  | Dispatch => Nat.iter (Z.to_nat initial) (k_post 1) (k_create 0)
  | _ => k_create (initial_value kd initial)
  end.

Definition init (initial : Z) (n : nat) : config (state K) pc :=
  Config (State (create initial) initial 0) (replicate n Idle).

(** The initial counts that the types and the object have room for. *)
Definition initial_fits (initial : Z) : Prop := 0 <= initial <= k_max K /\ initial_value kd initial = initial.

(** Whoever releases passes on a number that the type of the system's call has room
    for, and the object has room for the tokens. *)
Definition room (c : config (state K) pc) : Prop :=
  forall i n, threads c !! i = Some (Releasing n) ->
    release_value kd n = n /\ given (shared c) - taken (shared c) + n <= k_max K.

Definition Inv (c : config (state K) pc) : Prop :=
  k_tokens (obj (shared c)) <= given (shared c) - taken (shared c) /\ 0 <= k_tokens (obj (shared c)) /\
  0 <= taken (shared c) /\ forall i n, threads c !! i = Some (Releasing n) -> 0 <= n < 2 ^ 63.

Context `{!CounterLaws K}.

Lemma create_tokens initial : initial_fits initial -> k_tokens (create initial) = initial.
Proof.
  intros [Hi Hv]. unfold create. destruct kd; rewrite ?Hv; try by apply k_create_tokens.
  assert (forall j, Z.of_nat j <= k_max K -> k_tokens (Nat.iter j (k_post 1) (k_create (K := K) 0)) = Z.of_nat j) as Hj.
  { induction j as [|j IH]; intros Hj; [apply k_create_tokens; lia|]. specialize (IH ltac:(lia)).
    simpl Nat.iter. rewrite k_post_room; lia. }
  rewrite Hj; lia.
Qed.

(** What the conversion of a released number leaves is not more. *)
Lemma release_value_le n : 0 <= n < 2 ^ 63 -> release_value kd n <= n.
Proof. intros Hn. unfold release_value. destruct kd; try lia; [apply i32_le; lia|rewrite u64_small by lia; lia]. Qed.

Lemma take_spec s : 0 <= k_tokens (obj s) ->
  given (take s).1 = given s /\
  (if (take s).2 then 0 < k_tokens (obj s) /\ k_tokens (obj (take s).1) = k_tokens (obj s) - 1 /\ taken (take s).1 = taken s + 1
   else k_tokens (obj s) = 0 /\ k_tokens (obj (take s).1) = k_tokens (obj s) /\ taken (take s).1 = taken s).
Proof.
  intros H0. unfold take. pose proof (k_take_tokens (obj s) H0). destruct (k_take (obj s)) as [o []]; simpl in *; tauto.
Qed.

(** The tokens of the object, less those that are accounted for. *)
Definition excess s : Z := k_tokens (obj s) - (given s - taken s).

(** The counts a step may change, and by how much. *)
Definition counts s (l : pc) s' (l' : pc) : Prop :=
  excess s' <= excess s /\ 0 <= k_tokens (obj s') /\ taken s <= taken s' /\ (forall n, l' = Releasing n -> 0 <= n < 2 ^ 63) /\
  (excess s = 0 -> (forall n, l = Releasing n -> release_value kd n = n /\ given s - taken s + n <= k_max K) -> excess s' = 0).

(** A post of [n] tokens, which the object may refuse. *)
Lemma post_counts s l l' v n :
  0 <= k_tokens (obj s) -> v <= n -> 0 <= n -> (forall m, l' = Releasing m -> 0 <= m < 2 ^ 63) ->
  ((forall m, l = Releasing m -> release_value kd m = m /\ given s - taken s + m <= k_max K) ->
    v = n /\ given s - taken s + n <= k_max K) ->
  counts s l (post v n s) l'.
Proof.
  intros H0 Hv Hn Hl Hroom. unfold counts, excess, post. cbn [obj given taken]. rewrite k_post_tokens. split_and!; try done.
  - destruct (_ && _); lia.
  - destruct (Z.leb_spec 0 v), (_ <=? _); simpl; lia.
  - intros He Hr. destruct (Hroom Hr) as [-> Hm].
    destruct (Z.leb_spec 0 n), (Z.leb_spec (k_tokens (obj s) + n) (k_max K)); simpl; lia.
Qed.

Lemma native_step tid ch s l s' l' :
  tstep tid ch s l = Some (s', l') -> 0 <= k_tokens (obj s) -> (forall n, l = Releasing n -> 0 <= n < 2 ^ 63) ->
  counts s l s' l'.
Proof.
  intros Hs H0 Hn. pose proof (take_spec s H0) as Ht.
  assert (Hsame : forall p, (forall n, p = Releasing n -> 0 <= n < 2 ^ 63) -> counts s l s p)
    by (intros p Hp; unfold counts; split_and!; (done || lia)).
  assert (Htake : forall p, (forall n, p = Releasing n -> 0 <= n < 2 ^ 63) -> counts s l (take s).1 p).
  { intros p Hp. unfold counts, excess. destruct (take s) as [s1 []]; simpl in *; split_and!; (done || lia). }
  destruct l as [|r| |t|t| | |left], ch as [m|sp|c|ex]; try done; simpl in Hs.
  1,2: destruct (enter m) as [p|] eqn:Ee; simplify_eq/=; apply Hsame; intros n ->;
    destruct m as [| | |x]; simpl in Ee; try (destruct (polls kd); by simplify_eq); try done;
    destruct ((0 <=? x) && (x <? 2 ^ 63)) eqn:Eb; [|done]; injection Ee as <-; bools; lia.
  - unfold blocked in Hs. destruct (take s) as [s1 []] eqn:E; cbn [fst] in Htake; destruct c, kd; simplify_eq; first [by apply Hsame | by apply Htake].
  - unfold try_acquire in Hs. destruct (take s) as [s1 []] eqn:E; cbn [fst] in Htake; simplify_eq; by apply Htake.
  - unfold polling in Hs. destruct c, t; try done; try (destruct (0 <? _)); simplify_eq; by apply Hsame.
  - unfold try_acquire in Hs. destruct (take s) as [s1 []] eqn:E; cbn [fst] in Htake; simplify_eq; by apply Htake.
  - unfold timed in Hs. destruct (take s) as [s1 []] eqn:E; cbn [fst] in Htake; destruct c, kd; simplify_eq; first [by apply Hsame | by apply Htake].
  - specialize (Hn left eq_refl). unfold release in Hs. destruct (one_by_one kd).
    + destruct (Z.ltb_spec 0 left); simplify_eq; [|by apply Hsame].
      apply post_counts; try lia; [intros n [= <-]; lia|]. intros Hr. destruct (Hr left eq_refl). lia.
    + simplify_eq. pose proof (release_value_le left Hn). apply post_counts; (done || lia || eauto).
Qed.

Lemma native_inv_reachable initial n c :
  initial_fits initial -> reachable tstep (init initial n) c -> Inv c.
Proof.
  intros Hi. apply invariant_reachable.
  - unfold Inv, init; cbn [shared threads obj given taken]. rewrite create_tokens by done. destruct Hi. split_and!; try lia.
    by intros i m [? _]%lookup_replicate.
  - intros i ch c0 l s' l' (Ht & H0 & Htk & Hr) Hl Hs.
    destruct (native_step _ _ _ _ _ _ Hs H0) as (Hc & H0' & Htk' & Hr' & _).
    { intros m ->. by eapply Hr. }
    unfold Inv, excess in *; cbn [shared threads]. split_and!; try lia.
    intros j m. destruct (decide (j = i)) as [->|Hji].
    + rewrite list_lookup_insert_eq by (by apply lookup_lt_Some in Hl). intros [= ->]. by apply Hr'.
    + rewrite list_lookup_insert_ne by done. apply Hr.
Qed.

Lemma native_exact initial n c :
  initial_fits initial -> reachable_while tstep room (init initial n) c -> Inv c /\ excess (shared c) = 0.
Proof.
  intros Hi Hr. split; [by eapply native_inv_reachable, reachable_while_reachable|].
  cut (Inv c /\ excess (shared c) = 0); [tauto|]. revert c Hr. apply invariant_reachable_while.
  - split; [apply (native_inv_reachable initial n); [done|apply rtc_refl]|].
    unfold excess, init; cbn [shared obj given taken]. rewrite create_tokens by done. lia.
  - intros i ch c0 l s' l' Hroom [HI He] Hl Hs. pose proof HI as (Ht & H0 & Htk & Hr).
    destruct (native_step _ _ _ _ _ _ Hs H0) as (Hc & H0' & Htk' & Hr' & Hx).
    { intros m ->. by eapply Hr. }
    split; [|apply Hx; [done|]; intros m ->; by apply (Hroom i)].
    unfold Inv, excess in *; cbn [shared threads]. split_and!; try lia.
    intros j m. destruct (decide (j = i)) as [->|Hji].
    + rewrite list_lookup_insert_eq by (by apply lookup_lt_Some in Hl). intros [= ->]. by apply Hr'.
    + rewrite list_lookup_insert_ne by done. apply Hr.
Qed.

(** C36: the semaphores on a kernel counter ([posix_semaphore], [mach_semaphore],
    [dispatch_semaphore], [win32_semaphore] and [eventfd_semaphore]), created with a
    number of tokens that their types have room for, never hand out a token that was
    not released: through interruptions, time-outs, failed attempts, conversions
    that cut off a number and releases that the system refuses, the acquisitions
    that succeeded and the tokens left are at most those there were and those
    released.  No token is lost either as long as every call of [release()] passes a
    number that the type of the system's call has room for and finds room for the
    tokens: then they are exactly as many. *)
Theorem native_semaphore_accounting initial n c :
  initial_fits initial -> reachable tstep (init initial n) c ->
  0 <= k_tokens (obj (shared c)) /\ 0 <= taken (shared c) /\
  taken (shared c) + k_tokens (obj (shared c)) <= given (shared c) /\
  (reachable_while tstep room (init initial n) c ->
     taken (shared c) + k_tokens (obj (shared c)) = given (shared c)).
Proof.
  intros Hi (Ht & H0 & Htk & _)%native_inv_reachable; [|done]. split_and!; try lia.
  intros [_ He]%native_exact; [|done]. unfold excess in He. lia.
Qed.

(** A token is there for whoever waits: in any state with a token, a thread
    inside [acquire()] or a timed acquisition that runs alone acquires it within
    two steps. *)
Theorem native_semaphore_progress tid s l :
  0 < k_tokens (obj s) -> l = Blocked \/ l = Timed \/ (exists t, l = TryAcquire t) \/ (exists t, l = Polling t) ->
  reaches_alone tstep benign (fun l' => l' = Ret true) tid 2 s l.
Proof.
  intros Hpos Hl. pose proof (take_spec s ltac:(lia)) as [_ Ht].
  assert (exists s1, take s = (s1, true)) as [s1 Hs1].
  { destruct (take s) as [s1 []]; [eauto|]. simpl in Ht. lia. }
  assert (Htry : forall t, reaches_alone tstep benign (fun l' => l' = Ret true) tid 1 s (TryAcquire t)).
  { intros t. eapply (reaches_step _ _ _ _ _ (Act false)); [|by left|by apply reaches_now].
    simpl. unfold try_acquire. rewrite Hs1. done. }
  destruct Hl as [->|[->|[[t ->]|[t ->]]]].
  - eapply (reaches_step _ _ _ _ _ (Kernel Go)); [|right; by left|by apply reaches_now].
    simpl. rewrite Hs1. done.
  - eapply (reaches_step _ _ _ _ _ (Kernel Go)); [|right; by left|by apply reaches_now].
    simpl. rewrite Hs1. done.
  - eapply reaches_more; [|apply Htry]. lia.
  - eapply (reaches_step _ _ _ _ _ (Kernel Go)); [|right; by left|apply Htry].
    simpl. by apply Z.ltb_lt in Hpos as ->.
Qed.
End machine.

(** The five classes. *)
Definition posix_semaphore {K} `{Counter K} := tstep (K := K) Posix.
Definition mach_semaphore {K} `{Counter K} := tstep (K := K) Mach.
Definition dispatch_semaphore {K} `{Counter K} := tstep (K := K) Dispatch.
Definition win32_semaphore {K} `{Counter K} := tstep (K := K) Win32.
Definition eventfd_semaphore {K} `{Counter K} := tstep (K := K) Eventfd.

(** [release( 2^31 )] of [win32_semaphore], whose [LONG( n )] is negative, and a
    [release( 1 )] of a [posix_semaphore] that has as many tokens as fit: both return,
    and no token is there that was not there before. *)
Theorem native_release_loses_tokens :
  (exists c, exec (tstep (K := Z) Win32) [(0, Call (MRelease (2 ^ 31))); (0, Act false)]%nat (init Win32 0 1) = Some c /\
     threads c = [Ret true] /\ given (shared c) = 2 ^ 31 /\ k_tokens (obj (shared c)) = 0) /\
  (exists c, exec (tstep (K := Z) Posix) [(0, Call (MRelease 1)); (0, Act false); (0, Act false)]%nat
       (init Posix (2 ^ 31 - 1) 1) = Some c /\
     threads c = [Ret true] /\ given (shared c) = 2 ^ 31 /\ k_tokens (obj (shared c)) = 2 ^ 31 - 1).
Proof. split; eexists; (split; [vm_compute; reflexivity|]); by vm_compute. Qed.

(** One token released one by one, one acquisition after an interruption. *)
Definition demo_sched : list (nat * choice method) :=
  [(0, Call MAcquire); (0, Kernel Interrupted); (1, Call (MRelease 2)); (1, Act false); (0, Kernel Go)]%nat.

Lemma native_semaphore_accounting_witness :
  reachable (tstep (K := Z) Posix) (init Posix 0 2) (Config (State 0 1 1) [Ret true; Releasing 1]) /\
  1 + k_tokens (K := Z) 0 <= 1.
Proof.
  assert (reachable (tstep (K := Z) Posix) (init Posix 0 2) (Config (State 0 1 1) [Ret true; Releasing 1])) as Hr
    by (apply (exec_reachable _ demo_sched); vm_compute; reflexivity).
  split; [exact Hr|].
  apply (native_semaphore_accounting Posix 0 2 (Config (State 0 1 1) [Ret true; Releasing 1])); [|exact Hr].
  split; [vm_compute; split; discriminate|reflexivity].
Defined.

Lemma native_semaphore_progress_witness :
  reaches_alone (tstep Eventfd) benign (fun l' => l' = Ret true) 0 2 (State 1 1 0) (Polling true).
Proof. apply (native_semaphore_progress Eventfd 0 (State 1 1 0)); [done|]. right; right; right. eauto. Defined.

End Semaphore.

(** ** [eventfd_mutex_impl] *)
Module EventfdMutex.

Inductive pc :=
| Idle
| Holding
| TryLock (retry_ : option bool) (** [try_lock()]: once, or in the loop of a blocking or timed lock *)
| Polling (timed : bool)         (** in [poll_intr], [ppoll_for] or [ppoll_until] *)
| Unlock.                        (** [unlock()]: [write_intr] *)

Inductive method := MLock | MTryLock | MTryLockFor (zero : bool) | MTryLockUntil | MUnlock.

Section machine.
Context {K : Type} `{Counter K}.

Definition try_lock (retry_ : option bool) (k : K) : K * pc :=
  let '(k', ok) := k_take k in
  (k', if ok then Holding else match retry_ with Some t => Polling t | None => Idle end).

Definition polling (ch : wchoice) (timed : bool) (k : K) : option pc :=
  match ch with
  | Go => if 0 <? k_tokens k then Some (TryLock (Some timed)) else None
  | TimedOut => if timed then Some (TryLock None) else None
  | Fault => Some (if timed then TryLock None else TryLock (Some timed))
  | _ => None
  end.

Definition tstep (tid : nat) (ch : choice method) (k : K) (l : pc) : option (K * pc) :=
  match l, ch with
  | Idle, Call MLock => Some (k, TryLock (Some false))
  | Idle, Call (MTryLock | MTryLockFor true) => Some (k, TryLock None)
  | Idle, Call (MTryLockFor false | MTryLockUntil) => Some (k, TryLock (Some true))
  | Holding, Call MUnlock => Some (k, Unlock)
  | TryLock r, Act _ => Some (try_lock r k)
  | Polling t, Kernel c => match polling c t k with None => None | Some l' => Some (k, l') end
  | Unlock, Act _ => Some (k_post 1 k, Idle)
  | _, _ => None
  end.

(** [eventfd( 1, EFD_NONBLOCK | EFD_SEMAPHORE )] *)
Definition init (n : nat) : config K pc := Config (k_create 1) (replicate n Idle).

Definition holds (l : pc) : bool := match l with Holding | Unlock => true | _ => false end.

Context `{!CounterLaws K}.

Definition Inv (c : config K pc) : Prop :=
  0 <= k_tokens (shared c) /\ k_tokens (shared c) + count holds (threads c) = 1.

Lemma eventfd_inv_reachable n c : reachable tstep (init n) c -> Inv c.
Proof.
  apply invariant_reachable.
  - unfold Inv, init; cbn [shared threads]. pose proof (k_max_pos (K := K)). rewrite k_create_tokens by lia. split; [lia|].
    rewrite count_all_false; [lia|]. by intros l (j & [-> _]%lookup_replicate)%list_elem_of_lookup.
  - intros i ch [k ts] l s' l' [H0 HI] Hl Hs. unfold Inv; cbn [shared threads] in *.
    rewrite (count_insert _ _ _ _ _ Hl).
    pose proof (k_take_tokens k H0) as Ht. pose proof (k_post_empty k) as Hp.
    pose proof (count_pos holds ts i _ Hl) as Hh.
    destruct l as [| |r|t|], ch as [[| |[]| |]|sp|ck|ex]; try done; simpl in Hs; simplify_eq/=; try lia.
    + unfold try_lock in Hs. destruct (k_take k) as [k' []]; simpl in Ht; simplify_eq; simpl; [lia|].
      destruct r; simpl; lia.
    + destruct (polling ck t k) as [l1|] eqn:E; simplify_eq.
      unfold polling in E. destruct ck, t; try done; try (destruct (0 <? k_tokens _)); simplify_eq; simpl; lia.
Qed.

(** Mutual exclusion of [eventfd_mutex<>]: the token of the eventfd and the
    holder of the mutex are one: at most one thread holds it, and exactly when
    the eventfd is empty. *)
Theorem eventfd_mutex_exclusion n c :
  reachable tstep (init n) c ->
  count holds (threads c) <= 1 /\ (count holds (threads c) = 1 <-> k_tokens (shared c) = 0).
Proof. intros [H0 HI]%eventfd_inv_reachable. lia. Qed.
End machine.

Lemma eventfd_mutex_exclusion_witness :
  count holds [Holding; Polling false] <= 1 /\
  (count holds [Holding; Polling false] = 1 <-> k_tokens (K := Z) 0 = 0).
Proof.
  apply (eventfd_mutex_exclusion 2 (Config 0 [Holding; Polling false])).
  apply (exec_reachable _ [(0, Call MLock); (0, Act false); (1, Call MLock); (1, Act false)]%nat).
  vm_compute. reflexivity.
Defined.
End EventfdMutex.

(** ** [kqueue_mutex_impl] *)
Module KqueueMutex.

Inductive pc :=
| Idle
| Holding
| Lock                (** [lock()]: the blocking [kevent] *)
| TryLock (retry_ : bool) (** [try_lock()]: [kevent] with a zero time-out; then the timed wait, or return *)
| Timed               (** in [kevent_for] or [kevent_until] *)
| Unlock.             (** [unlock()]: [NOTE_TRIGGER] *)

Section machine.
Context {K : Type} `{Notifier K}.

(** [lock()] does not look at the result of [kevent]. *)
Definition lock (ch : wchoice) (k : K) : option (K * pc) :=
  match ch with
  | Go => if k_ready k then Some (k_consume k, Holding) else None
  | Interrupted | Fault => Some (k, Holding)
  | _ => None
  end.

Definition try_lock (retry_ : bool) (k : K) : K * pc :=
  if k_ready k then (k_consume k, Holding) else (k, if retry_ then Timed else Idle).

Definition timed (ch : wchoice) (k : K) : option (K * pc) :=
  match ch with
  | Go => if k_ready k then Some (k_consume k, Holding) else None
  | TimedOut | Fault => Some (k, TryLock false)
  | _ => None
  end.

Definition tstep (tid : nat) (ch : choice mutex_method) (k : K) (l : pc) : option (K * pc) :=
  match l, ch with
  | Idle, Call MLock => Some (k, Lock)
  | Idle, Call MTryLock => Some (k, TryLock false)
  | Idle, Call MTryLockUntil => Some (k, TryLock true)
  | Holding, Call MUnlock => Some (k, Unlock)
  | Lock, Kernel c => lock c k
  | TryLock r, Act _ => Some (try_lock r k)
  | Timed, Kernel c => timed c k
  | Unlock, Act _ => Some (k_notify k, Idle)
  | _, _ => None
  end.

(** The event is added in the triggered state. *)
Definition init (n : nat) : config K pc := Config (k_notify k_init) (replicate n Idle).

Definition holds (l : pc) : bool := match l with Holding | Unlock => true | _ => false end.

(** The same machine where the [kevent] of [lock()] does not fail: the process
    takes no signals. *)
Definition tstep_no_signals (tid : nat) (ch : choice mutex_method) (k : K) (l : pc) : option (K * pc) :=
  match l, ch with Lock, Kernel (Interrupted | Fault) => None | _, _ => tstep tid ch k l end.

(** [EV_CLEAR]: retrieving the event resets it. *)
Hypothesis notify_ready : forall k, k_ready (k_notify k) = true.
Hypothesis consume_clears : forall k, k_ready (k_consume k) = false.

Definition Inv (c : config K pc) : Prop :=
  Z.b2z (k_ready (shared c)) + count holds (threads c) = 1.

Lemma kqueue_inv_reachable n c : reachable tstep_no_signals (init n) c -> Inv c.
Proof.
  apply invariant_reachable.
  - unfold Inv, init; cbn [shared threads]. rewrite notify_ready, count_all_false; [done|].
    by intros l (j & [-> _]%lookup_replicate)%list_elem_of_lookup.
  - intros i ch [k ts] l s' l' HI Hl Hs. unfold Inv in *; cbn [shared threads] in *.
    rewrite (count_insert _ _ _ _ _ Hl).
    assert (holds l = true -> k_ready k = false) as Hh.
    { intros Hh. pose proof (count_pos _ _ _ _ Hl Hh). destruct (k_ready k); [simpl in *; lia|done]. }
    destruct l as [| | |r| |], ch as [[]|sp|[]|ex]; try done; simpl in Hs; simplify_eq/=;
      unfold try_lock in *; try (destruct (k_ready k) eqn:E); simplify_eq/=;
      rewrite ?consume_clears, ?notify_ready, ?E; try (by specialize (Hh eq_refl)); try destruct r; simpl in *; lia.
Qed.

(** Mutual exclusion of [kqueue_mutex<>] without signals: the triggered
    event and the holder are one. *)
Theorem kqueue_mutex_exclusion n c :
  reachable tstep_no_signals (init n) c -> count holds (threads c) <= 1.
Proof. intros HI%kqueue_inv_reachable. unfold Inv in HI. destruct (k_ready _); simpl in HI; lia. Qed.
End machine.

Lemma kqueue_mutex_exclusion_witness : count holds [Holding; Timed] <= 1.
Proof.
  apply (kqueue_mutex_exclusion (H := kqueue_event)) with (n := 2%nat) (c := Config false [Holding; Timed]); try done.
  apply (exec_reachable _ [(0, Call MLock); (0, Kernel Go); (1, Call MTryLockUntil); (1, Act false)]%nat).
  vm_compute. reflexivity.
Defined.

(** A signal breaks the mutual exclusion of [kqueue_mutex<>]: [lock()]
    ignores the result of [kevent], so a thread whose wait is interrupted ([EINTR])
    returns from [lock()] while another thread holds the mutex. *)
Theorem kqueue_mutex_lock_interrupted :
  exists c, exec (tstep (H := kqueue_event))
      [(0, Call MLock); (0, Kernel Go); (1, Call MLock); (1, Kernel Interrupted)]%nat
      (init (H := kqueue_event) 2) = Some c /\
    threads c = [Holding; Holding].
Proof. eexists. split; [vm_compute; reflexivity|reflexivity]. Qed.
End KqueueMutex.

(** ** [kqueue_semaphore] *)
Module KqueueSemaphore.

(** [count_], the kqueue, and two ghosts. *)
Record state (K : Type) := State { count_ : Z; obj : K; given : Z; taken : Z }.
#[global] Arguments State {K}. #[global] Arguments count_ {K}. #[global] Arguments obj {K}.
#[global] Arguments given {K}. #[global] Arguments taken {K}.

(** Who called [try_acquire()]. *)
Inductive try_caller :=
| Client        (** the client, or [try_acquire_for()] with no time left *)
| For           (** [try_acquire_for()] *)
| Until         (** [try_acquire_until()], on entry and after a wakeup *)
| UntilLast.    (** [try_acquire_until()], after a time-out *)

Inductive pc :=
| Idle
| Ret (ok : bool)
| Claim (timed : bool)    (** [count_.fetch_sub( 1 )] *)
| Wait                    (** [acquire()]: the blocking [kevent] *)
| Renotify                (** [acquire()]: [notify()] *)
| TryLoad (k : try_caller) (** [try_acquire()]: load [c] *)
| TryLoop (k : try_caller) (c : Z)
| TimedWait               (** in [kevent_for] *)
| UntilWait               (** in [kevent_until] *)
| Undo                    (** [count_.fetch_add( 1 )] *)
| UndoConsume             (** [kevent] with a zero time-out *)
| Release (n : Z)         (** [release( n )]: [count_.fetch_add( n )] *)
| Notify (left : Z).      (** [release( n )]: [notify()], [left] times *)

Inductive method := MAcquire | MTryAcquire | MTryAcquireFor (zero : bool) | MTryAcquireUntil | MRelease (n : Z).

Section machine.
Context {K : Type} `{Notifier K}.
Implicit Types s : state K.

Definition add_count (n : Z) s : state K := State (i32 (count_ s + n)) (obj s) (given s) (taken s).
Definition set_obj (k : K) s : state K := State (count_ s) k (given s) (taken s).
Definition take s : state K := State (count_ s) (obj s) (given s) (taken s + 1).

Definition claim (timed : bool) s : state K * pc :=
  if 0 <? count_ s then (take (add_count (-1) s), Ret true)
  else (add_count (-1) s, if timed then TimedWait else Wait).

Definition try_fail (k : try_caller) : pc :=
  match k with Client | UntilLast => Ret false | For => Claim true | Until => UntilWait end.

Definition try_loop (sp : bool) (k : try_caller) (c : Z) s : state K * pc :=
  if 0 <? c then
    if negb sp && (count_ s =? c) then (take (add_count (-1) s), Ret true)
    else (s, TryLoop k (count_ s))
  else (s, try_fail k).

Definition undo s : state K * pc :=
  if 0 <=? count_ s then (add_count 1 s, UndoConsume) else (add_count 1 s, Ret false).

Definition release (n : Z) s : state K * pc :=
  let prev := count_ s in
  let s1 := add_count (i32 n) s in
  (State (count_ s1) (obj s1) (given s1 + n) (taken s1),
   Notify (if prev <? 0 then Z.min (i32 n) (- prev) else 1)).

(** The loop of [try_acquire_until()], after [kevent_until] has returned an event or not. *)
Definition try_acquire_until (event : bool) s : state K * pc :=
  if event then (set_obj (k_consume (obj s)) s, TryLoad Until) else (s, TryLoad UntilLast).

Definition tstep (tid : nat) (ch : choice method) s (l : pc) : option (state K * pc) :=
  match l, ch with
  | (Idle | Ret _), Call MAcquire => Some (s, Claim false)
  | (Idle | Ret _), Call (MTryAcquire | MTryAcquireFor true) => Some (s, TryLoad Client)
  | (Idle | Ret _), Call (MTryAcquireFor false) => Some (s, TryLoad For)
  | (Idle | Ret _), Call MTryAcquireUntil => Some (s, TryLoad Until)
  | (Idle | Ret _), Call (MRelease n) => if 0 <=? n then Some (s, Release n) else None
  | Claim t, Act _ => Some (claim t s)
  | Wait, Kernel Go => if k_ready (obj s) then Some (set_obj (k_consume (obj s)) s, Renotify) else None
  | Wait, Kernel Interrupted => Some (s, Wait)
  | Renotify, Act _ => Some (take (set_obj (k_notify (obj s)) s), Ret true)
  | TryLoad k, Act _ => Some (s, TryLoop k (count_ s))
  | TryLoop k c, Act sp => Some (try_loop sp k c s)
  | TimedWait, Kernel Go =>
      if k_ready (obj s) then Some (take (set_obj (k_consume (obj s)) s), Ret true) else None
  | TimedWait, Kernel (TimedOut | Fault) => Some (s, Undo)
  | UntilWait, Kernel Go => if k_ready (obj s) then Some (try_acquire_until true s) else None
  | UntilWait, Kernel (TimedOut | Fault) => Some (try_acquire_until false s)
  | Undo, Act _ => Some (undo s)
  | UndoConsume, Act _ => Some (take (set_obj (k_consume (obj s)) s), Ret true)
  | Release n, Act _ => Some (release n s)
  | Notify m, Act _ =>
      if 0 <? m then Some (set_obj (k_notify (obj s)) s, Notify (m - 1)) else Some (s, Ret true)
  | _, _ => None
  end.

Definition init (initial : Z) (n : nat) : config (state K) pc :=
  Config (State (i32 initial) k_init initial 0) (replicate n Idle).
End machine.

(** Thread 0 releases one token; thread 1 takes it on the fast path; thread 2
    blocks, and the event of the release is still triggered. *)
Definition stale_sched : list (nat * choice method) :=
  [(0, Call (MRelease 1)); (0, Act false); (0, Act false); (0, Act false);
   (1, Call MAcquire); (1, Act false);
   (2, Call MAcquire); (2, Act false); (2, Kernel Go); (2, Act false)]%nat.

(** [kqueue_semaphore] hands out tokens that do not exist: [release( 1 )]
    triggers the event even when nobody waits, an acquisition on the fast path
    leaves it triggered, and the next [acquire()] takes the stale event for a
    token; it even triggers it again, so every later [acquire()] returns too. *)
Theorem kqueue_semaphore_over_acquires :
  exists c, exec (tstep (H := kqueue_event)) stale_sched (init (H := kqueue_event) 0 3) = Some c /\
    given (shared c) = 1 /\ taken (shared c) = 2 /\ threads c = [Ret true; Ret true; Ret true] /\
    k_ready (Notifier := kqueue_event) (obj (shared c)) = true.
Proof. eexists. split; [vm_compute; reflexivity|]. split_and!; reflexivity. Qed.

(** Thread 0 blocks in [acquire()], thread 1 in [try_acquire_until()]; thread 2
    releases a token, and thread 1 gets the event. *)
Definition thief_sched : list (nat * choice method) :=
  [(0, Call MAcquire); (0, Act false); (1, Call MTryAcquireUntil); (1, Act false); (1, Act false);
   (2, Call (MRelease 1)); (2, Act false); (2, Act false); (2, Act false);
   (1, Kernel Go); (1, Act false); (1, Act false)]%nat.

(** [kqueue_semaphore] loses wakeups: [try_acquire_until()] waits without a claim
    and retrieves the event meant for a blocked [acquire()]; it finds no token, waits
    again, and the thread whose token it was sleeps although it was released. *)
Theorem kqueue_semaphore_loses_wakeup :
  exists c, reachable (tstep (H := kqueue_event)) (init (H := kqueue_event) 0 3) c /\
    given (shared c) = 1 /\ taken (shared c) = 0 /\ threads c = [Wait; UntilWait; Ret true] /\
    k_ready (Notifier := kqueue_event) (obj (shared c)) = false.
Proof.
  eexists. split; [apply (exec_reachable _ thief_sched); by vm_compute|]. by split_and!.
Qed.
End KqueueSemaphore.
