(* ===== verification/SemaphoreTime.v ===== *)
(** * The timed acquisitions of the native semaphores

    [try_acquire_for] and [try_acquire_until] of [posix_semaphore],
    [mach_semaphore], [dispatch_semaphore], [win32_semaphore] and
    [eventfd_semaphore] (semaphore/, headers and sources), from the call to the
    return, with the conversions of the time-outs to what the system calls take.
    [NativeSemaphore.v] has the interleaved view, where a timed call just ends.

    The world answers the system calls and the clocks; it is a parameter. *)
From S2P Require Import Prelude AtomicWait Pthread.
#[local] Open Scope Z_scope.

(** ** Durations *)

(** [std::chrono::duration<Rep, std::ratio<num, den>>]. *)
Record duration := Duration { count_ : Z; num : Z; den : Z }.

Definition well_formed (d : duration) : Prop := 0 < num d /\ 0 < den d.

(** [ratio_divide<ratio<num, den>, nano>], in lowest terms. *)
Definition in_nanos (d : duration) : Z * Z :=
  let g := Z.gcd (num d * 1000000000) (den d) in (num d * 1000000000 / g, den d / g).

(** [duration_cast<nanoseconds>], which multiplies and then divides in 64 bits and
    truncates towards zero; an overflow, which C++ leaves undefined, wraps around. *)
Definition to_ns (d : duration) : Z := i64 (Z.quot (i64 (count_ d * (in_nanos d).1)) (in_nanos d).2).

(** The multiplication does not overflow. *)
Definition in_range (d : duration) : Prop := - 2 ^ 63 <= count_ d * (in_nanos d).1 < 2 ^ 63.

(** [d <= d.zero()]. *)
Definition not_positive (d : duration) : bool := count_ d <=? 0.

(** [std::chrono::nanoseconds]. *)
Definition of_ns (ns : Z) : duration := Duration ns 1 1000000000.

(** [mach_timespec_t]: an [unsigned] and an [int]. *)
Definition to_mach_timespec (ns : Z) : timespec :=
  let secs := Z.quot ns 1000000000 in Timespec (u32 secs) (i32 (ns - secs * 1000000000)).

(** ** The system calls *)

Inductive sem_result := SemOk | SemIntr | SemTimedOut | SemError.

Definition is_ok (r : sem_result) : bool := match r with SemOk => true | _ => false end.

(** The calls on the kernel object of a semaphore. *)
Class SemaphoreCalls (W : Type) := {
  sem_trywait : W -> W * bool;                    (** every non-blocking attempt *)
  sem_timedwait : timespec -> W -> W * sem_result;       (** a [CLOCK_REALTIME] deadline *)
  semaphore_timedwait : timespec -> W -> W * sem_result; (** Mach: a relative time *)
  dispatch_wait : Z -> W -> W * bool;             (** [dispatch_time( DISPATCH_TIME_NOW, ns )] *)
  wait_handle : clock_id -> Z -> W -> W * bool;   (** [detail::wait_handle_until] *)
  poll_for : Z -> W -> W * bool;                  (** [detail::ppoll_for] *)
  poll_until : clock_id -> Z -> W -> W * bool     (** [detail::ppoll_until] *)
}.

Section semaphores.
Context {W : Type} `{SemaphoreCalls W} (now : clock -> W -> W * Z).

(** *** [posix_semaphore] *)

Definition try_acquire (w : W) : W * bool := sem_trywait w.

(** [try_acquire_until_system( abs_time )]. *)
Fixpoint try_acquire_until_system (fuel : nat) (abs : Z) (w : W) : option (W * bool) :=
  match fuel with
  | O => None
  | S fuel' =>
      let '(w', r) := sem_timedwait (to_timespec abs) w in
      match r with
      | SemOk => Some (w', true)
      | SemIntr => try_acquire_until_system fuel' abs w'
      | SemTimedOut | SemError => Some (w', false)
      end
  end.

Definition posix_try_acquire_for (fuel : nat) (rel : Z) (w : W) : option (W * bool) :=
  let '(w', t) := now System w in try_acquire_until_system fuel (t + rel) w'.

Definition posix_try_acquire_until (fuel : nat) (c : clock) (abs : Z) (w : W) : option (W * bool) :=
  match c with
  | System => try_acquire_until_system fuel abs w
  | _ =>
      let '(w', t) := now c w in
      if abs - t <=? 0 then Some (try_acquire w') else posix_try_acquire_for fuel (abs - t) w'
  end.

(** *** [mach_semaphore] *)

Definition timed_wait (ts : timespec) (w : W) : W * bool :=
  let '(w', r) := semaphore_timedwait ts w in (w', is_ok r).

Definition mach_try_acquire_for (d : duration) (w : W) : W * bool := timed_wait (to_mach_timespec (to_ns d)) w.

Definition mach_try_acquire_until (c : clock) (abs : Z) (w : W) : W * bool :=
  let '(w', t) := now c w in
  if abs - t <=? 0 then try_acquire w' else mach_try_acquire_for (of_ns (abs - t)) w'.

(** *** [dispatch_semaphore] *)

Definition dispatch_try_acquire_for (d : duration) (w : W) : W * bool :=
  let ns := to_ns d in if ns <=? 0 then try_acquire w else dispatch_wait ns w.

Definition dispatch_try_acquire_until (c : clock) (abs : Z) (w : W) : W * bool :=
  let '(w', t) := now c w in
  if abs - t <=? 0 then try_acquire w' else dispatch_try_acquire_for (of_ns (abs - t)) w'.

(** *** [win32_semaphore] *)

Definition clock_id_of (c : clock) : clock_id := match c with System => CLOCK_REALTIME | _ => CLOCK_MONOTONIC end.

(** [try_acquire_until] with a deadline of [system_clock] or [steady_clock]. *)
Definition win32_until_clock (c : clock) (abs : Z) (w : W) : W * bool :=
  let '(w', t) := now c w in
  if abs <=? t then try_acquire w' else wait_handle (clock_id_of c) abs w'.

Definition win32_try_acquire_for (rel : Z) (w : W) : W * bool :=
  if rel <=? 0 then try_acquire w
  else let '(w', t) := now Steady w in win32_until_clock Steady (t + rel) w'.

Definition win32_try_acquire_until (c : clock) (abs : Z) (w : W) : W * bool :=
  match c with
  | Other => let '(w', t) := now Other w in win32_try_acquire_for (abs - t) w'
  | _ => win32_until_clock c abs w
  end.

(** *** [eventfd_semaphore] *)

(** [while ( !try_acquire() ) if ( !ppoll_for( evfd_, rel_ns ) ) return
    try_acquire()], and the same with [ppoll_until] after one attempt. *)
Fixpoint eventfd_loop (fuel : nat) (wait : W -> W * bool) (w : W) : option (W * bool) :=
  match fuel with
  | O => None
  | S fuel' =>
      let '(w1, ok) := try_acquire w in
      if ok then Some (w1, true)
      else let '(w2, ready) := wait w1 in
           if ready then eventfd_loop fuel' wait w2 else Some (try_acquire w2)
  end.

Definition eventfd_try_acquire_for_ns (fuel : nat) (rel : Z) (w : W) : option (W * bool) :=
  if rel <=? 0 then Some (try_acquire w) else eventfd_loop fuel (poll_for rel) w.

Definition eventfd_try_acquire_for (fuel : nat) (d : duration) (w : W) : option (W * bool) :=
  eventfd_try_acquire_for_ns fuel (to_ns d) w.

Definition eventfd_try_acquire_until (fuel : nat) (c : clock) (abs : Z) (w : W) : option (W * bool) :=
  match c with
  | Other =>
      let '(w1, ok) := try_acquire w in
      if ok then Some (w1, true)
      else let '(w2, t) := now Other w1 in eventfd_try_acquire_for_ns fuel (abs - t) w2
  | _ => eventfd_loop fuel (poll_until (clock_id_of c) abs) w
  end.
End semaphores.

(** ** The conversions *)

Lemma to_timespec_rem ns : to_timespec ns = Timespec (Z.quot ns 1000000000) (Z.rem ns 1000000000).
Proof. unfold to_timespec. f_equal. pose proof (Z.quot_rem' ns 1000000000). lia. Qed.

Lemma to_timespec_ns ns : timespec_ns (to_timespec ns) = ns.
Proof. rewrite to_timespec_rem. apply to_abs_timespec_ns. Qed.

(** In range the cast is the division by the ratio. *)
Lemma to_ns_quot d :
  well_formed d -> in_range d -> to_ns d = Z.quot (count_ d * (num d * 1000000000)) (den d).
Proof.
  unfold to_ns, in_range, in_nanos. simpl. intros [Hn Hd] Hr.
  set (g := Z.gcd (num d * 1000000000) (den d)) in *.
  assert (0 < g) as Hg by (pose proof (Z.gcd_nonneg (num d * 1000000000) (den d));
    pose proof (Z.gcd_eq_0_r (num d * 1000000000) (den d)); lia).
  destruct (Z.gcd_divide_l (num d * 1000000000) (den d)) as [a Ha].
  destruct (Z.gcd_divide_r (num d * 1000000000) (den d)) as [b Hb]. fold g in Ha, Hb.
  rewrite Ha, Hb, !Z.div_mul in * by lia. rewrite (i64_small (count_ d * a)) by done.
  rewrite Z.mul_assoc, Z.quot_mul_cancel_r by nia. apply i64_small.
  assert (0 < b) by nia. pose proof (Z.quot_abs (count_ d * a) b ltac:(lia)) as Hq.
  rewrite (Z.abs_eq b) in Hq by lia. rewrite Z.quot_div_nonneg in Hq by lia.
  assert (Z.abs (count_ d * a) / b <= Z.abs (count_ d * a)) by (apply Z.div_le_upper_bound; nia).
  destruct (Z.le_gt_cases 0 (count_ d * a)) as [Hz|Hz].
  - pose proof (Z.quot_pos (count_ d * a) b Hz ltac:(lia)). lia.
  - pose proof (Z.quot_pos (- (count_ d * a)) b ltac:(lia) ltac:(lia)). rewrite Z.quot_opp_l in * by lia. lia.
Qed.

(** A whole number of nanoseconds is converted exactly. *)
Lemma to_ns_exact d :
  well_formed d -> in_range d -> (num d * 1000000000) mod den d = 0 -> to_ns d * den d = count_ d * (num d * 1000000000).
Proof.
  intros Hw Hr Hm. rewrite (to_ns_quot d Hw Hr). destruct Hw as [Hn Hd]. apply Z.mod_divide in Hm as [k Hk]; [|lia].
  rewrite Hk. rewrite Z.mul_assoc, Z.quot_mul by lia. lia.
Qed.

Lemma to_ns_of_ns ns : - 2 ^ 63 <= ns < 2 ^ 63 -> to_ns (of_ns ns) = ns.
Proof. intros H. unfold to_ns, of_ns, in_nanos. simpl. rewrite Z.mul_1_r, Z.quot_1_r, !i64_small; rewrite ?i64_small; lia. Qed.

(** Otherwise it is less by less than a nanosecond. *)
Lemma to_ns_truncates d :
  well_formed d -> in_range d -> 0 <= count_ d ->
  to_ns d * den d <= count_ d * (num d * 1000000000) < (to_ns d + 1) * den d.
Proof.
  intros Hw Hr Hc. rewrite (to_ns_quot d Hw Hr). destruct Hw as [Hn Hd]. rewrite Z.quot_div_nonneg by nia.
  pose proof (Z.mul_div_le (count_ d * (num d * 1000000000)) (den d) Hd).
  pose proof (Z.mul_succ_div_gt (count_ d * (num d * 1000000000)) (den d) Hd). lia.
Qed.

Lemma to_mach_timespec_small ns :
  0 <= ns < 2 ^ 32 * 1000000000 -> to_mach_timespec ns = to_timespec ns.
Proof.
  intros H. unfold to_mach_timespec, to_timespec.
  assert (0 <= Z.quot ns 1000000000 < 2 ^ 32) as Hq.
  { rewrite Z.quot_div_nonneg by lia. split; [apply Z.div_pos; lia|apply Z.div_lt_upper_bound; lia]. }
  rewrite u32_small by done. f_equal. apply i32_small.
  pose proof (Z.quot_rem' ns 1000000000). pose proof (Z.rem_bound_pos ns 1000000000 ltac:(lia) ltac:(lia)). lia.
Qed.

(** C22: what the native semaphores pass to the kernel denotes the deadline or the
    time-out, within bounds.  The [timespec] of [posix_semaphore] denotes the deadline
    for every time point, before the epoch too, and is acceptable from the epoch on.
    The [mach_timespec_t] of [mach_semaphore] denotes a time-out that is not negative
    and less than [2^32] seconds, and two such time-outs are never confused.  A
    [duration_cast] of a count that is not negative and whose 64-bit product does not
    overflow loses less than a nanosecond, and nothing where the unit is a whole
    number of nanoseconds; nanoseconds themselves are kept whatever their sign.
    (Negative time-outs of [mach_semaphore] do not survive:
    [mach_negative_timeout].) *)
Theorem time_conversions_roundtrip abs ns ns' d :
  0 <= ns < 2 ^ 32 * 1000000000 -> 0 <= ns' < 2 ^ 32 * 1000000000 ->
  well_formed d -> in_range d -> 0 <= count_ d ->
  (timespec_ns (to_timespec abs) = abs /\ (0 <= abs -> normalised (to_timespec abs))) /\
  (timespec_ns (to_mach_timespec ns) = ns /\ normalised (to_mach_timespec ns) /\ tv_sec (to_mach_timespec ns) < 2 ^ 32 /\
   (to_mach_timespec ns = to_mach_timespec ns' -> ns = ns')) /\
  ((forall t, - 2 ^ 63 <= t < 2 ^ 63 -> to_ns (of_ns t) = t) /\
   to_ns d * den d <= count_ d * (num d * 1000000000) < (to_ns d + 1) * den d /\
   ((num d * 1000000000) mod den d = 0 -> to_ns d * den d = count_ d * (num d * 1000000000))).
Proof.
  intros Hns Hns' Hd Hr Hc. rewrite !to_mach_timespec_small by done. split; [|split].
  - split; [apply to_timespec_ns|]. rewrite to_timespec_rem. apply to_abs_timespec_normalised.
  - split_and!; [apply to_timespec_ns| | |].
    + rewrite to_timespec_rem. apply to_abs_timespec_normalised. lia.
    + rewrite to_timespec_rem. simpl. rewrite Z.quot_div_nonneg by lia. apply Z.div_lt_upper_bound; lia.
    + intros E%(f_equal timespec_ns). by rewrite !to_timespec_ns in E.
  - split_and!; [apply to_ns_of_ns|by apply to_ns_truncates|by apply to_ns_truncates|by apply to_ns_exact].
Qed.

(** [mach_semaphore::try_acquire_for] does not look at the sign: a time-out of
    minus [k] seconds becomes one of 2^32 - k seconds. *)
Theorem mach_negative_timeout k :
  0 < k <= 2 ^ 32 -> to_mach_timespec (- k * 1000000000) = Timespec (2 ^ 32 - k) 0.
Proof.
  intros H. unfold to_mach_timespec. rewrite Z.quot_mul by lia. f_equal.
  - unfold u32. replace (- k) with (2 ^ 32 - k + (-1) * 2 ^ 32) by lia. rewrite Z.mod_add by lia. apply Z.mod_small. lia.
  - replace (- k * 1000000000 - - k * 1000000000) with 0 by lia. done.
Qed.

(** ** The calls *)

Section calls.
Context {W : Type} `{SemaphoreCalls W} (now : clock -> W -> W * Z).

(** How often the world still interrupts a call, or lets another thread take the
    token that a poll has seen. *)
Variable left : W -> nat.
Hypothesis timedwait_left : forall ts w, (sem_timedwait ts w).2 = SemIntr -> (left (sem_timedwait ts w).1 < left w)%nat.

Lemma posix_system_exact fuel abs w :
  (left w < fuel)%nat ->
  exists w0 w' r, try_acquire_until_system fuel abs w = Some (w', is_ok r) /\
    sem_timedwait (to_timespec abs) w0 = (w', r) /\ r <> SemIntr.
Proof using timedwait_left.
  revert w. induction fuel as [|fuel IH]; intros w Hf; [lia|]. simpl.
  pose proof (timedwait_left (to_timespec abs) w) as Hl.
  destruct (sem_timedwait (to_timespec abs) w) as [w' r] eqn:E. destruct r; simpl in Hl.
  - by exists w, w', SemOk.
  - specialize (Hl eq_refl). destruct (IH w') as (w0 & w2 & r & H1 & H2 & H3); [lia|]. by exists w0, w2, r.
  - by exists w, w', SemTimedOut.
  - by exists w, w', SemError.
Qed.

(** The timed acquisition of [posix_semaphore] returns, once the world stops
    interrupting it, and its result is that of one [sem_timedwait] that was not
    interrupted.  A [system_clock] deadline is passed exactly; for another clock
    an expired deadline is one attempt without blocking, and otherwise the deadline
    passed is the reading of [system_clock] plus exactly what remains. *)
Theorem posix_try_acquire_until_exact fuel c abs w :
  (forall w, (left (now System w).1 <= left w)%nat) -> (left (now c w).1 <= left w)%nat -> (left w < fuel)%nat ->
  let w1 := (now c w).1 in let remaining := abs - (now c w).2 in
  match c with
  | System => exists w0 w' r, posix_try_acquire_until now fuel System abs w = Some (w', is_ok r) /\
      sem_timedwait (to_timespec abs) w0 = (w', r) /\ r <> SemIntr
  | _ =>
      if remaining <=? 0 then posix_try_acquire_until now fuel c abs w = Some (sem_trywait w1)
      else exists w0 w' r, posix_try_acquire_until now fuel c abs w = Some (w', is_ok r) /\
        sem_timedwait (to_timespec ((now System w1).2 + remaining)) w0 = (w', r) /\ r <> SemIntr
  end.
Proof using timedwait_left.
  intros Hs Hc Hf w1 remaining. subst w1 remaining. unfold posix_try_acquire_until, posix_try_acquire_for.
  destruct c; [by apply posix_system_exact|..].
  all: destruct (now _ w) as [w1 t]; simpl in *; case_match; [done|];
    specialize (Hs w1); destruct (now System w1) as [w2 t2]; simpl in *; apply posix_system_exact; lia.
Qed.

Lemma eventfd_loop_returns fuel wait w :
  (forall w1, (wait w1).2 = true -> (sem_trywait (wait w1).1).2 = false ->
     (left (sem_trywait (wait w1).1).1 < left w1)%nat) ->
  (S (left (sem_trywait w).1) < fuel)%nat ->
  exists w0 w' b, eventfd_loop fuel wait w = Some (w', b) /\ sem_trywait w0 = (w', b).
Proof.
  intros Hst. revert w. induction fuel as [|fuel IH]; intros w Hf; [lia|]. simpl. unfold try_acquire.
  destruct (sem_trywait w) as [w1 []] eqn:E; [by exists w, w1, true|]. simpl in Hf.
  specialize (Hst w1). destruct (wait w1) as [w2 []]; simpl in Hst.
  - destruct (sem_trywait w2) as [w3 b3] eqn:E3. simpl in Hst. destruct fuel as [|fuel']; [lia|]. destruct b3.
    + exists w2, w3, true. split; [|done]. simpl. unfold try_acquire. by rewrite E3.
    + destruct (IH w2) as (w0 & w' & b & H1 & H2); [rewrite E3; specialize (Hst eq_refl eq_refl); simpl; lia|].
      by exists w0, w', b.
  - destruct (sem_trywait w2) as [w3 b3] eqn:E3. by exists w2, w3, b3.
Qed.
End calls.

(** An expired deadline is one attempt without blocking, on every semaphore that
    compares it with the clock. *)
Theorem expired_deadlines_try_once {W} `{SemaphoreCalls W} (now : clock -> W -> W * Z) fuel c abs w w' t :
  now c w = (w', t) -> abs <= t ->
  mach_try_acquire_until now c abs w = sem_trywait w' /\ dispatch_try_acquire_until now c abs w = sem_trywait w' /\
  win32_try_acquire_until now c abs w = sem_trywait w' /\
  (c <> System -> posix_try_acquire_until now fuel c abs w = Some (sem_trywait w')).
Proof.
  intros E Ht. unfold mach_try_acquire_until, dispatch_try_acquire_until, win32_try_acquire_until, win32_until_clock,
    win32_try_acquire_for, posix_try_acquire_until.
  assert (abs - t <=? 0 = true) as E1 by lia. assert (abs <=? t = true) as E2 by lia.
  destruct c; rewrite E, ?E1, ?E2; done.
Qed.

(** ** Witnesses *)

(** A world with a number of interruptions to come, and a token or not. *)
Definition interrupted_calls : SemaphoreCalls (nat * bool) := {|
  sem_trywait := fun w => ((w.1, false), w.2);
  sem_timedwait := fun _ w => match w.1 with S n => ((n, w.2), SemIntr) | O => ((O, false), if w.2 then SemOk else SemTimedOut) end;
  semaphore_timedwait := fun _ w => ((w.1, false), if w.2 then SemOk else SemTimedOut);
  dispatch_wait := fun _ w => ((w.1, false), w.2);
  wait_handle := fun _ _ w => ((w.1, false), w.2);
  poll_for := fun _ w => (w, w.2);
  poll_until := fun _ _ w => (w, w.2)
|}.

Lemma time_conversions_roundtrip_witness :
  timespec_ns (to_timespec (-1500000000)) = -1500000000 /\
  to_ns (Duration 5 1 3) * 3 <= 5 * (1 * 1000000000) < (to_ns (Duration 5 1 3) + 1) * 3.
Proof.
  assert (well_formed (Duration 5 1 3)) as Hd by (split; simpl; lia).
  assert (in_range (Duration 5 1 3)) as Hr by (split; by vm_compute).
  destruct (time_conversions_roundtrip (-1500000000) 7 8 (Duration 5 1 3) ltac:(lia) ltac:(lia) Hd Hr ltac:(simpl; lia))
    as ((H1 & _) & _ & (_ & H2 & _)). split; [exact H1|exact H2].
Defined.

Lemma mach_negative_timeout_witness : to_mach_timespec (- 1 * 1000000000) = Timespec 4294967295 0.
Proof. by apply (mach_negative_timeout 1). Defined.

Lemma posix_try_acquire_until_exact_witness :
  exists w0 w' r, posix_try_acquire_until (H := interrupted_calls) (fun _ w => (w, 100)) 4 Steady 105 (3%nat, true) =
      Some (w', is_ok r) /\
    sem_timedwait (SemaphoreCalls := interrupted_calls) (to_timespec (100 + 5)) w0 = (w', r) /\ r <> SemIntr.
Proof.
  apply (posix_try_acquire_until_exact (H := interrupted_calls) (fun _ w => (w, 100)) fst ltac:(intros ts [[|n] []]; simpl; (done || lia))
    4 Steady 105 (3%nat, true)); simpl; lia.
Defined.

Lemma expired_deadlines_try_once_witness :
  mach_try_acquire_until (H := interrupted_calls) (fun _ w => (w, 100)) Steady 100 (0%nat, true) =
  sem_trywait (SemaphoreCalls := interrupted_calls) (0%nat, true).
Proof.
  by apply (expired_deadlines_try_once (H := interrupted_calls) (fun _ w => (w, 100)) 1 Steady 100 (0%nat, true) _ 100).
Defined.
