(* ===== verification/NativeEvent.v ===== *)
(** * The native events

    [native_auto_reset_event] (include/nova/sync/event/native_auto_reset_event.hpp,
    source/nova/sync/event/native_auto_reset_event.cpp): the Linux implementation,
    an eventfd and a count of the waiters, and the Apple implementation, a count of
    tokens, a count of the waiters and a kqueue.  The kernel objects are the
    [Counter] and the [Notifier] of [Kernel.v].  [NativeEventPlatforms.v] has the other
    platforms. *)
From S2P Require Import Prelude Kernel Machine Futex.
#[local] Open Scope Z_scope.

Inductive method := MSignal | MTryWait | MWait | MTryWaitFor (zero : bool) | MTryWaitUntil.

(** ** Linux *)
Module LinuxAuto.

(** [handle_], [wait_count_]; ghosts: tokens written, waits that succeeded. *)
Record state (K : Type) := State { obj : K; wait_count_ : Z; given : Z; taken : Z }.
#[global] Arguments State {K}. #[global] Arguments obj {K}. #[global] Arguments wait_count_ {K}.
#[global] Arguments given {K}. #[global] Arguments taken {K}.

Inductive pc :=
| Idle
| Ret (r : bool)
| SignalLoad    (** [signal()]: load [wait_count_] *)
| SignalPoll    (** [signal()]: [try_poll] *)
| SignalWrite   (** [signal()]: [write_intr] *)
| TryWait       (** [try_wait()]: [read_intr] *)
| WaitInc       (** [wait()]: [wait_count_.fetch_add( 1 )] *)
| WaitTry       (** [wait()]: [try_wait()] *)
| WaitPoll      (** [wait()]: [poll_intr] *)
| WaitDec       (** [wait()]: [wait_count_.fetch_sub( 1 )] *)
| TimedPoll.    (** in [ppoll_for] or [ppoll_until] *)

Section machine.
Context {K : Type} `{Counter K}.
Implicit Types s : state K.

Definition add_waiter (n : Z) s : state K := State (obj s) (u32 (wait_count_ s + n)) (given s) (taken s).

Definition try_wait s : state K * bool :=
  let '(o, ok) := k_take (obj s) in (State o (wait_count_ s) (given s) (if ok then taken s + 1 else taken s), ok).

Definition write s : state K := State (k_post 1 (obj s)) (wait_count_ s) (given s + 1) (taken s).

Definition readable s : bool := 0 <? k_tokens (obj s).

Definition enter (m : method) : pc :=
  match m with
  | MSignal => SignalLoad
  | MTryWait | MTryWaitFor true => TryWait
  | MWait => WaitInc
  | MTryWaitFor false | MTryWaitUntil => TimedPoll
  end.

Definition tstep (tid : nat) (ch : choice method) s (l : pc) : option (state K * pc) :=
  match l, ch with
  | (Idle | Ret _), Call m => Some (s, enter m)
  | SignalLoad, Act _ => Some (s, if wait_count_ s =? 0 then SignalPoll else SignalWrite)
  | SignalPoll, Act _ => Some (s, if readable s then Ret true else SignalWrite)
  | SignalWrite, Act _ => Some (write s, Ret true)
  | TryWait, Act _ => let '(s', ok) := try_wait s in Some (s', Ret ok)
  | WaitInc, Act _ => Some (add_waiter 1 s, WaitTry)
  | WaitTry, Act _ => let '(s', ok) := try_wait s in Some (s', if ok then WaitDec else WaitPoll)
  | WaitPoll, Kernel Go => if readable s then Some (s, WaitTry) else None
  | WaitPoll, Kernel Fault => Some (s, WaitTry)
  | WaitDec, Act _ => Some (add_waiter (-1) s, Ret true)
  | TimedPoll, Kernel Go => if readable s then Some (s, TryWait) else None
  | TimedPoll, Kernel (TimedOut | Fault) => Some (s, Ret false)
  | _, _ => None
  end.

Definition init (initially_set : bool) (n : nat) : config (state K) pc :=
  let v := if initially_set then 1 else 0 in
  Config (State (if initially_set then k_post 1 (k_create 0) else k_create 0) 0 v 0) (replicate n Idle).

(** Between the increment and the decrement of [wait_count_]. *)
Definition counted (l : pc) : bool := match l with WaitTry | WaitPoll | WaitDec => true | _ => false end.

Definition Inv (n : nat) (c : config (state K) pc) : Prop :=
  length (threads c) = n /\
  k_tokens (obj (shared c)) <= given (shared c) - taken (shared c) /\ 0 <= k_tokens (obj (shared c)) /\
  0 <= taken (shared c) /\ wait_count_ (shared c) = count counted (threads c).

Context `{!CounterLaws K}.

Lemma linux_auto_inv_reachable set n c :
  Z.of_nat n < 2 ^ 32 -> reachable tstep (init set n) c -> Inv n c.
Proof.
  intros Hn. apply invariant_reachable.
  - unfold Inv, init; cbn [shared threads obj given taken wait_count_].
    rewrite count_all_false by (by intros l (j & [-> _]%lookup_replicate)%list_elem_of_lookup).
    rewrite length_replicate. pose proof (k_max_pos (K := K)). assert (k_tokens (k_create (K := K) 0) = 0) as Hc by (apply k_create_tokens; lia).
    destruct set; rewrite ?k_post_empty by done; split_and!; (done || lia).
  - intros i ch [s ts] l s' l' (Hlen & Ht & H0 & Htk & Hw) Hl Hs.
    unfold Inv; cbn [shared threads] in *.
    rewrite length_insert, (count_insert _ _ _ _ _ Hl).
    pose proof (count_bounds counted (<[i:=l']> ts)) as Hb.
    rewrite length_insert, (count_insert _ _ _ _ _ Hl) in Hb.
    pose proof (k_take_tokens (obj s) H0) as Hk. pose proof (k_post_bounds 1 (obj s) ltac:(lia)) as Hp.
    destruct l as [|r| | | | | | | | |], ch as [[| | |[]|]|sp|[]|ex]; try done; simpl in Hs;
      unfold try_wait, write, add_waiter in *; try (destruct (wait_count_ s =? 0)); try (destruct (readable s));
      try (destruct (k_take (obj s)) as [o []]); simplify_eq/=; rewrite ?u32_small by lia; split_and!; (done || lia).
Qed.

(** Tokens of the Linux auto-reset event: the waits that returned [true] and the
    eventfd's counter are at most the tokens written, so no wait succeeds without a
    token, and [wait_count_] is exactly the number of threads inside [wait()]. *)
Theorem linux_auto_event_accounting set n c :
  Z.of_nat n < 2 ^ 32 -> reachable tstep (init set n) c ->
  0 <= k_tokens (obj (shared c)) /\ 0 <= taken (shared c) /\
  taken (shared c) + k_tokens (obj (shared c)) <= given (shared c) /\ wait_count_ (shared c) = count counted (threads c).
Proof. intros Hn (_ & Ht & H0 & Htk & Hw)%linux_auto_inv_reachable; [|done]. split_and!; (done || lia). Qed.
End machine.

(** Two concurrent [signal()]s on an event nobody waits for, then two [try_wait()]s. *)
Definition double_sched : list (nat * choice method) :=
  [(0, Call MSignal); (0, Act false); (0, Act false);
   (1, Call MSignal); (1, Act false); (1, Act false); (0, Act false); (1, Act false);
   (0, Call MTryWait); (0, Act false); (1, Call MTryWait); (1, Act false)]%nat.

(** A token wakes a timed waiter and is taken by [try_wait()] before it looks. *)
Definition stolen_sched : list (nat * choice method) :=
  [(0, Call (MTryWaitFor false)); (1, Call MSignal); (1, Act false); (1, Act false); (1, Act false);
   (0, Kernel Go); (1, Call MTryWait); (1, Act false); (0, Act false)]%nat.

(** Two things the Linux auto-reset event does not promise: [signal()] is
    idempotent only without a race (two concurrent signals of an unset event that
    nobody waits for store two tokens), and [try_wait_for()] can return [false]
    long before its time-out, when the token that woke it was taken by another
    thread. *)
Theorem linux_auto_event_races :
  (exists c, exec tstep double_sched (init false 2) = Some c /\ threads c = [Ret true; Ret true]) /\
  (exists c, exec tstep stolen_sched (init false 2) = Some c /\ threads c = [Ret false; Ret true]).
Proof. split; eexists; (split; [vm_compute; reflexivity|reflexivity]). Qed.

Lemma linux_auto_event_accounting_witness : 0 <= k_tokens (K := Z) 1 /\ 0 <= 0 /\ 0 + k_tokens (K := Z) 1 <= 1 /\ 1 = count counted [WaitPoll; Ret true].
Proof.
  apply (linux_auto_event_accounting false 2 (Config (State 1 1 1 0) [WaitPoll; Ret true])); [lia|].
  apply (exec_reachable _ [(0, Call MWait); (0, Act false); (0, Act false);
                           (1, Call MSignal); (1, Act false); (1, Act false)]%nat).
  vm_compute. reflexivity.
Defined.
End LinuxAuto.

(** ** Apple *)
Module AppleAuto.

Record state (K : Type) := State { obj : K; token_count_ : Z; wait_count_ : Z }.
#[global] Arguments State {K}. #[global] Arguments obj {K}. #[global] Arguments token_count_ {K}.
#[global] Arguments wait_count_ {K}.

(** Who called [try_wait()]; [timed] is [try_wait_for()]. *)
Inductive caller :=
| Client
| Fast (timed : bool)  (** the fast path *)
| Pre (timed : bool)   (** after the increment of [wait_count_], before [kevent] *)
| Post (timed : bool). (** after [kevent] *)

Inductive pc :=
| Idle
| Ret (r : bool)
| SignalLoad            (** [signal()]: load [wait_count_] *)
| SignalCas             (** [signal()]: [compare_exchange_strong( 0, 1 )] *)
| SignalAdd             (** [signal()]: [token_count_.fetch_add( 1 )] *)
| SignalFire            (** [signal()]: [NOTE_TRIGGER] *)
| TryLoad (k : caller)  (** [try_wait()]: load [s] *)
| TryLoop (k : caller) (s : Z)
| WaitInc (timed : bool)
| Kevent (timed : bool)
| ChainToken            (** chain wakeup: load [token_count_] *)
| ChainWait             (** chain wakeup: load [wait_count_] *)
| ChainFire             (** chain wakeup: [NOTE_TRIGGER] *)
| WaitDec (r : bool).   (** [wait_count_.fetch_sub( 1 )] *)

Section machine.
Context {K : Type} `{Notifier K}.
Implicit Types s : state K.

Definition set_obj (k : K) s : state K := State k (token_count_ s) (wait_count_ s).
Definition set_tokens (n : Z) s : state K := State (obj s) n (wait_count_ s).
Definition add_waiter (n : Z) s : state K := State (obj s) (token_count_ s) (u32 (wait_count_ s + n)).

Definition signal_cas s : state K * pc :=
  if token_count_ s =? 0 then (set_tokens 1 s, SignalFire) else (s, Ret true).

Definition signal_add s : state K * pc :=
  (set_tokens (i32 (token_count_ s + 1)) s, if token_count_ s =? 0 then SignalFire else Ret true).

Definition try_return (k : caller) (r : bool) : pc :=
  match k with
  | Client => Ret r
  | Fast t => if r then Ret true else WaitInc t
  | Pre t => if r then ChainToken else Kevent t
  | Post t => if r then ChainToken else if t then WaitDec false else TryLoad (Pre t)
  end.

Definition try_loop (sp : bool) (k : caller) (c : Z) s : state K * pc :=
  if 0 <? c then
    if negb sp && (token_count_ s =? c) then (set_tokens (c - 1) s, try_return k true)
    else (s, TryLoop k (token_count_ s))
  else (s, try_return k false).

Definition kevent (ch : wchoice) (timed : bool) s : option (state K * pc) :=
  match ch with
  | Go => if k_ready (obj s) then Some (set_obj (k_consume (obj s)) s, TryLoad (Post timed)) else None
  | Interrupted | Fault => if timed then None else Some (s, TryLoad (Post timed))
  | TimedOut => if timed then Some (s, WaitDec false) else None
  | Spurious => None
  end.

Definition enter (m : method) : pc :=
  match m with
  | MSignal => SignalLoad
  | MTryWait | MTryWaitFor true => TryLoad Client
  | MWait => TryLoad (Fast false)
  | MTryWaitFor false | MTryWaitUntil => TryLoad (Fast true)
  end.

Definition tstep (tid : nat) (ch : choice method) s (l : pc) : option (state K * pc) :=
  match l, ch with
  | (Idle | Ret _), Call m => Some (s, enter m)
  | SignalLoad, Act _ => Some (s, if wait_count_ s =? 0 then SignalCas else SignalAdd)
  | SignalCas, Act _ => Some (signal_cas s)
  | SignalAdd, Act _ => Some (signal_add s)
  | SignalFire, Act _ => Some (set_obj (k_notify (obj s)) s, Ret true)
  | TryLoad k, Act _ => Some (s, TryLoop k (token_count_ s))
  | TryLoop k c, Act sp => Some (try_loop sp k c s)
  | WaitInc t, Act _ => Some (add_waiter 1 s, TryLoad (Pre t))
  | Kevent t, Kernel c => kevent c t s
  | ChainToken, Act _ => Some (s, if 0 <? token_count_ s then ChainWait else WaitDec true)
  | ChainWait, Act _ => Some (s, if 1 <? wait_count_ s then ChainFire else WaitDec true)
  | ChainFire, Act _ => Some (set_obj (k_notify (obj s)) s, WaitDec true)
  | WaitDec r, Act _ => Some (add_waiter (-1) s, Ret r)
  | _, _ => None
  end.

Definition init (initially_set : bool) (n : nat) : config (state K) pc :=
  Config (State (if initially_set then k_notify k_init else k_init) (if initially_set then 1 else 0) 0)
    (replicate n Idle).
End machine.

(** Counted in [wait_count_]. *)
Definition counted (l : pc) : bool :=
  match l with
  | TryLoad (Pre _ | Post _) | TryLoop (Pre _ | Post _) _ | Kevent _ | ChainToken | ChainWait | ChainFire
  | WaitDec _ => true
  | _ => false
  end.

(** Blocked in [kevent], or about to block. *)
Definition passive (l : pc) : bool :=
  match l with Kevent _ => true | TryLoop (Pre _) s => s <=? 0 | _ => false end.

(** About to trigger the event, or to look at the tokens. *)
Definition active (l : pc) : bool :=
  match l with
  | SignalFire | ChainToken | ChainWait | ChainFire | TryLoad (Post _) => true
  | TryLoop (Post _) s => 0 <? s
  | _ => false
  end.

Section proofs.
Context {K : Type} `{Notifier K, !NotifierLaws K}.
Implicit Types s : state K.

(** No overflow: fewer than 2^31 - 1 unconsumed tokens. *)
Definition bounded (c : config (state K) pc) : Prop := token_count_ (shared c) < 2 ^ 31 - 1.

(** What a step does: it keeps the tokens non-negative, counts itself, and when
    tokens remain it leaves an active thread, a triggered event, nobody else
    waiting, or everything as it was for the waiters. *)
Definition keeps (waiters : Z) s (l : pc) s' (l' : pc) : Prop :=
  0 <= token_count_ s' /\
  wait_count_ s' = wait_count_ s - Z.b2z (counted l) + Z.b2z (counted l') /\
  (0 < token_count_ s' ->
     active l' = true \/ k_ready (obj s') = true \/
     (waiters <= 1 /\ counted l = true /\ counted l' = true /\ passive l' = false) \/
     (0 < token_count_ s /\ obj s' = obj s /\ active l = false /\ (passive l' = true -> passive l = true))).

Lemma apple_step tid ch s l s' l' :
  tstep tid ch s l = Some (s', l') -> 0 <= token_count_ s < 2 ^ 31 - 1 ->
  0 <= wait_count_ s - Z.b2z (counted l) -> wait_count_ s < 2 ^ 32 - 1 ->
  keeps (wait_count_ s) s l s' l'.
Proof.
  intros Hs Ht Hw0 Hw. unfold keeps.
  assert (Hquiet : forall p, counted p = counted l -> active l = false -> (passive p = true -> passive l = true) ->
    0 <= token_count_ s /\ wait_count_ s = wait_count_ s - Z.b2z (counted l) + Z.b2z (counted p) /\
    (0 < token_count_ s -> active p = true \/ k_ready (obj s) = true \/
       (wait_count_ s <= 1 /\ counted l = true /\ counted p = true /\ passive p = false) \/
       (0 < token_count_ s /\ obj s = obj s /\ active l = false /\ (passive p = true -> passive l = true)))).
  { intros p -> Ha Hp. split_and!; [lia|lia|]. intros. right; right; right. by split_and!. }
  destruct l as [|r| | | | |k|k x|t|t| | | |r], ch as [m|sp|c|ex]; try done; simpl in Hs.
  - simplify_eq. by apply Hquiet; destruct m as [| | |[]|].
  - simplify_eq. by apply Hquiet; destruct m as [| | |[]|].
  - simplify_eq. destruct (wait_count_ s' =? 0); by apply Hquiet.
  - unfold signal_cas in Hs. destruct (token_count_ s =? 0); simplify_eq; [|by apply Hquiet].
    simpl. split_and!; (lia || auto).
  - unfold signal_add in Hs. destruct (Z.eqb_spec (token_count_ s) 0) as [E|E]; simplify_eq; simpl;
      rewrite i32_small by lia; split_and!; try lia; auto.
    intros _. right; right; right. split_and!; (done || lia).
  - simplify_eq; simpl. split_and!; try lia. intros _. right; left. apply k_notify_ready.
  - simplify_eq. split_and!; [lia|destruct k; simpl; lia|]. intros Hpos. simpl.
    destruct k; try (right; right; right; split_and!; try done; intros; bools; lia).
    left. by apply Z.ltb_lt.
  - unfold try_loop in Hs. destruct (Z.ltb_spec 0 x).
    + destruct (negb sp && (token_count_ s =? x)) eqn:E; simplify_eq; simpl.
      * bools. destruct k as [|t|t|t]; simpl; split_and!; try lia; auto; intros _;
          right; right; right; split_and!; (done || lia).
      * split_and!; [lia|destruct k; simpl; lia|]. intros Hpos.
        destruct k; simpl; try (right; right; right; split_and!; try done; intros; bools; lia).
        left. by apply Z.ltb_lt.
    + simplify_eq. destruct k as [|t|t|t]; [by apply Hquiet..| |].
      * apply Hquiet; [done|done|]. intros _. simpl. by apply Z.leb_le.
      * apply Hquiet; simpl; try (by destruct t). apply Z.ltb_ge. lia.
  - simplify_eq; simpl. rewrite u32_small by (simpl in *; lia). split_and!; try lia.
    intros Hpos. right; right; right. by split_and!.
  - unfold kevent in Hs. destruct c; simplify_eq; simpl in *.
    + destruct (k_ready (obj s)); simplify_eq; simpl. split_and!; (lia || auto).
    + destruct t; simplify_eq; simpl. split_and!; (lia || auto).
    + destruct t; simplify_eq. apply Hquiet; done.
    + destruct t; simplify_eq; simpl. split_and!; (lia || auto).
  - simplify_eq. destruct (Z.ltb_spec 0 (token_count_ s')); simpl; split_and!; try lia; auto.
  - simplify_eq. destruct (Z.ltb_spec 1 (wait_count_ s')); simpl; split_and!; try lia; auto.
  - simplify_eq; simpl. split_and!; try lia. intros _. right; left. apply k_notify_ready.
  - simplify_eq; simpl in *. rewrite u32_small by lia. split_and!; try lia.
    intros Hpos. right; right; right. by split_and!.
Qed.

Lemma passive_counted l : passive l = true -> counted l = true.
Proof. by destruct l as [| | | | | |k|[] x|t|t| | | |r]. Qed.

Record Inv (n : nat) (c : config (state K) pc) : Prop := {
  inv_threads : length (threads c) = n;
  inv_tokens : 0 <= token_count_ (shared c);
  inv_waiters : wait_count_ (shared c) = count counted (threads c);
  inv_wake : 0 < token_count_ (shared c) -> 1 <= count passive (threads c) ->
    k_ready (obj (shared c)) = true \/ 1 <= count active (threads c)
}.

(** A counted thread that is not passive leaves one waiter fewer to be passive. *)
Lemma passive_others (ts : list pc) i l :
  ts !! i = Some l -> counted l = true -> passive l = false -> count passive ts <= count counted ts - 1.
Proof.
  intros Hl Hc Hp.
  pose proof (count_le passive counted (<[i:=Idle]> ts) passive_counted) as Hle.
  rewrite !(count_insert _ _ _ _ _ Hl), Hc, Hp in Hle. simpl in Hle. lia.
Qed.

Lemma apple_inv_step n c i ch l s' l' :
  Z.of_nat n < 2 ^ 32 - 1 -> bounded c -> Inv n c -> threads c !! i = Some l ->
  tstep i ch (shared c) l = Some (s', l') -> Inv n (Config s' (<[i := l']> (threads c))).
Proof.
  intros Hn Hb [Hlen Ht Hw Hwk] Hl Hs. unfold bounded in Hb.
  pose proof (count_bounds counted (threads c)) as Hcb. rewrite Hlen in Hcb.
  assert (0 <= wait_count_ (shared c) - Z.b2z (counted l)) as Hw0.
  { rewrite Hw. destruct (counted l) eqn:E; [pose proof (count_pos _ _ _ _ Hl E)|]; simpl; lia. }
  apply apple_step in Hs as (Ht' & Hw' & Hk); [|lia|lia|lia].
  assert (<[i:=l']> (threads c) !! i = Some l') as Hi'
    by (apply list_lookup_insert_eq; by apply lookup_lt_Some in Hl).
  constructor; cbn [shared threads].
  - by rewrite length_insert.
  - done.
  - rewrite (count_insert _ _ _ _ _ Hl). lia.
  - intros Hpos Hp. destruct (Hk Hpos) as [Ha|[Hr|[(H1 & Hcl & Hc & Hnp)|(Hpos0 & Ho & Ha & Hpp)]]].
    + right. by eapply count_pos.
    + by left.
    + pose proof (passive_others _ _ _ Hi' Hc Hnp) as Hpo.
      pose proof (count_insert counted (threads c) i l l' Hl). rewrite Hc, Hcl in *. simpl in *. lia.
    + rewrite (count_insert _ _ _ _ _ Hl) in Hp.
      destruct (Hwk Hpos0) as [?|?]; [|left; congruence|].
      * destruct (passive l'); [rewrite Hpp in Hp by done|]; destruct (passive l); simpl in *; lia.
      * right. rewrite (count_insert _ _ _ _ _ Hl), Ha. destruct (active l'); simpl; lia.
Qed.

Lemma apple_inv_reachable b n c :
  Z.of_nat n < 2 ^ 32 - 1 -> reachable_while tstep bounded (init b n) c -> Inv n c.
Proof.
  intros Hn. apply invariant_reachable_while.
  - assert (forall q : pc -> bool, q Idle = false -> count q (replicate n Idle) = 0) as H0.
    { intros q Hq. apply count_all_false. by intros l (j & [-> _]%lookup_replicate)%list_elem_of_lookup. }
    constructor; cbn [shared threads init token_count_ wait_count_]; rewrite ?H0 by done; try done.
    + by rewrite length_replicate.
    + by destruct b.
  - intros. by eapply apple_inv_step.
Qed.

(** C34: the Apple auto-reset event loses no wakeup although its triggers
    coalesce: whenever tokens are left and a waiter is blocked in [kevent], the
    event is triggered, or some thread is about to trigger it or to take a token
    and pass the wakeup on; and [wait_count_], which the chain wakeup relies on, is
    exact. *)
Theorem apple_auto_event_no_lost_wakeup b n c i l :
  Z.of_nat n < 2 ^ 32 - 1 -> reachable_while tstep bounded (init b n) c ->
  wait_count_ (shared c) = count counted (threads c) /\
  (0 < token_count_ (shared c) -> threads c !! i = Some l -> passive l = true ->
   k_ready (obj (shared c)) = true \/ exists j lj, threads c !! j = Some lj /\ active lj = true).
Proof.
  intros Hn HI%apple_inv_reachable; [|done]. split; [apply (inv_waiters _ _ HI)|].
  intros Ht Hl Hp. destruct (inv_wake _ _ HI Ht) as [?|?]; [by eapply count_pos|by left|right].
  apply count_witness. lia.
Qed.
End proofs.

(** Threads 0 and 1 wait; two signals, of which only the first fires; thread 0
    wakes up and takes a token. *)
Definition chain_sched : list (nat * choice method) :=
  [(0, Call MWait); (0, Act false); (0, Act false); (0, Act false); (0, Act false); (0, Act false);
   (1, Call MWait); (1, Act false); (1, Act false); (1, Act false); (1, Act false); (1, Act false);
   (2, Call MSignal); (2, Act false); (2, Act false); (2, Act false);
   (2, Call MSignal); (2, Act false); (2, Act false);
   (0, Kernel Go); (0, Act false); (0, Act false)]%nat.

Definition chain_config : config (state bool) pc :=
  Config (State false 1 2) [ChainToken; Kevent false; Ret true].

Definition boundedb {K} (c : config (state K) pc) : bool := token_count_ (shared c) <? 2 ^ 31 - 1.

Lemma apple_boundedb_bounded {K} (c : config (state K) pc) : boundedb c = true -> bounded c.
Proof. apply Z.ltb_lt. Qed.

Lemma apple_auto_event_no_lost_wakeup_witness :
  wait_count_ (shared chain_config) = count counted (threads chain_config) /\
  (0 < token_count_ (shared chain_config) -> threads chain_config !! 1%nat = Some (Kevent false) ->
   passive (Kevent false) = true ->
   k_ready (Notifier := kqueue_event) (obj (shared chain_config)) = true \/
   exists j lj, threads chain_config !! j = Some lj /\ active lj = true).
Proof.
  apply (apple_auto_event_no_lost_wakeup (H := kqueue_event) false 3 chain_config); [lia|].
  apply (exec_while_reachable _ _ boundedb chain_sched); [apply apple_boundedb_bounded|]. vm_compute. reflexivity.
Defined.
End AppleAuto.
