(* ===== verification/NativeEventPlatforms.v ===== *)
(** * The auto-reset event on pipes and on Windows

    The other two platforms of [native_auto_reset_event] (event/
    native_auto_reset_event.hpp and .cpp): a pipe, whose bytes are the signals, and
    an auto-reset event [HANDLE] of Windows.  [NativeEvent.v] has Linux and Apple. *)
From S2P Require Import Prelude Kernel Machine Futex NativeEvent.
#[local] Open Scope Z_scope.

(** ** A pipe *)
Module PipeAuto.

(** A non-blocking pipe: [p_write] is one byte, and fails only when the pipe is
    full; [p_read n] reads at most [n] bytes and returns how many, or -1. *)
Class Pipe (P : Type) := {
  p_new : P;
  p_write : P -> P * bool;
  p_read : Z -> P -> P * Z;
  p_bytes : P -> Z
}.

Class PipeLaws (P : Type) `{Pipe P} := {
  p_new_empty : p_bytes p_new = 0;
  p_write_law p : 0 <= p_bytes p ->
    if (p_write p).2 then p_bytes (p_write p).1 = p_bytes p + 1 else (p_write p).1 = p /\ 0 < p_bytes p;
  p_read_law n p : 0 < n -> 0 <= p_bytes p ->
    if 0 <? p_bytes p then 0 < (p_read n p).2 <= n /\ p_bytes (p_read n p).1 = p_bytes p - (p_read n p).2 /\
                           0 <= p_bytes (p_read n p).1
    else (p_read n p).1 = p /\ (p_read n p).2 <= 0
}.

(** [fds_]; ghosts: bytes written, bytes read, waits that returned [true]. *)
Record state (P : Type) := State { fds : P; given : Z; drained : Z; taken : Z }.
#[global] Arguments State {P}. #[global] Arguments fds {P}. #[global] Arguments given {P}.
#[global] Arguments drained {P}. #[global] Arguments taken {P}.

(** Who called [try_wait()]. *)
Inductive caller := Client | InWait.

Inductive pc :=
| Idle
| Ret (r : bool)
| Signal                                  (** [signal()]: [write_intr] *)
| TryRead (k : caller) (signaled : bool)  (** [try_wait()]: [read_intr] *)
| Poll (timed : bool)                     (** [wait()], [try_wait_for()]: [poll_intr] *)
| UntilNow.                               (** [try_wait_until()]: [Clock::now()] *)

Section machine.
Context {P : Type} `{Pipe P}.
Implicit Types s : state P.

Definition signal s : state P :=
  let '(p, ok) := p_write (fds s) in State p (if ok then given s + 1 else given s) (drained s) (taken s).

(** The buffer has 128 bytes. *)
Definition try_wait (k : caller) (signaled : bool) s : state P * pc :=
  let '(p, n) := p_read 128 (fds s) in
  if 0 <? n then (State p (given s) (drained s + n) (taken s), TryRead k true)
  else (State p (given s) (drained s) (if signaled then taken s + 1 else taken s),
        match k with Client => Ret signaled | InWait => if signaled then Ret true else Poll false end).

Definition try_wait_for (zero : bool) : pc := if zero then TryRead Client false else Poll true.

Definition enter (m : method) : pc :=
  match m with
  | MSignal => Signal
  | MTryWait => TryRead Client false
  | MWait => TryRead InWait false
  | MTryWaitFor zero => try_wait_for zero
  | MTryWaitUntil => UntilNow
  end.

Definition readable s : bool := 0 <? p_bytes (fds s).

Definition tstep (tid : nat) (ch : choice method) s (l : pc) : option (state P * pc) :=
  match l, ch with
  | (Idle | Ret _), Call m => Some (s, enter m)
  | Signal, Act _ => Some (signal s, Ret true)
  | TryRead k b, Act _ => Some (try_wait k b s)
  | Poll timed, Kernel Go => if readable s then Some (s, TryRead (if timed then Client else InWait) false) else None
  | Poll true, Kernel (TimedOut | Fault) => Some (s, TryRead Client false)
  | Poll false, Kernel Fault => Some (s, TryRead InWait false)
  | UntilNow, Clock expired => Some (s, try_wait_for expired)
  | _, _ => None
  end.

(** The constructor signals an event that is initially set. *)
Definition init (initially_set : bool) (n : nat) : config (state P) pc :=
  let s := State p_new 0 0 0 in Config (if initially_set then signal s else s) (replicate n Idle).

(** In [try_wait()], with something read. *)
Definition has_read (l : pc) : bool := match l with TryRead _ true => true | _ => false end.

Record Inv (c : config (state P) pc) : Prop := {
  inv_bytes : 0 <= p_bytes (fds (shared c));
  inv_given : given (shared c) = p_bytes (fds (shared c)) + drained (shared c);
  inv_taken : 0 <= taken (shared c) /\ taken (shared c) + count has_read (threads c) <= drained (shared c)
}.

Context `{!PipeLaws P}.

Lemma pipe_signal_ok s : 0 <= p_bytes (fds s) -> given s = p_bytes (fds s) + drained s ->
  0 <= p_bytes (fds (signal s)) /\ given (signal s) = p_bytes (fds (signal s)) + drained (signal s) /\
  drained (signal s) = drained s /\ taken (signal s) = taken s.
Proof.
  intros H0 Hg. pose proof (p_write_law (fds s) H0) as Hp. unfold signal.
  destruct (p_write (fds s)) as [p []]; simpl in *; [lia|]. destruct Hp as [-> _]. lia.
Qed.

Lemma try_wait_ok k b s : 0 <= p_bytes (fds s) -> given s = p_bytes (fds s) + drained s ->
  let '(s', l') := try_wait k b s in
  0 <= p_bytes (fds s') /\ given s' = p_bytes (fds s') + drained s' /\ taken s <= taken s' /\
  taken s' + Z.b2z (has_read l') - drained s' <= taken s + Z.b2z b - drained s.
Proof.
  intros H0 Hg. pose proof (p_read_law 128 (fds s) ltac:(lia) H0) as Hp. unfold try_wait.
  destruct (p_read 128 (fds s)) as [p n]; simpl in Hp.
  destruct (Z.ltb_spec 0 (p_bytes (fds s))); destruct (Z.ltb_spec 0 n); try lia; simpl.
  - destruct b; simpl; lia.
  - destruct Hp as [-> _]. destruct b, k; simpl; lia.
Qed.

Lemma pipe_inv_reachable set n c : reachable tstep (init set n) c -> Inv c.
Proof.
  apply invariant_reachable.
  - pose proof p_new_empty (P := P) as Hb. pose proof (pipe_signal_ok (State p_new 0 0 0)) as Hs. simpl in Hs.
    destruct set; split; cbn [shared threads init]; rewrite ?count_replicate by done; simpl; rewrite ?Hb; try lia.
  - intros i ch c0 l s' l' [H0 Hg [Ht Hd]] Hl Hs. pose proof (count_others has_read _ _ _ Hl).
    pose proof (pipe_signal_ok _ H0 Hg) as Hsig.
    destruct l as [|r| |k b|t|], ch as [m|sp|x|ex]; try done; simpl in Hs.
    3: { injection Hs as <- <-. destruct Hsig as (? & ? & ? & ?). split; cbn [shared threads];
         rewrite ?(count_insert _ _ _ _ _ Hl); simpl in *; lia. }
    3: { pose proof (try_wait_ok k b _ H0 Hg) as Ht'. destruct (try_wait k b (shared c0)) as [s1 l1]. simplify_eq.
         split; cbn [shared threads]; rewrite ?(count_insert _ _ _ _ _ Hl); simpl in *; try lia.
         destruct Ht' as (? & ? & ? & ?). destruct b; simpl in *; lia. }
    all: assert (s' = shared c0 /\ has_read l' = false) as [-> Hr]
      by (unfold enter, try_wait_for in *; repeat (case_match || simplify_eq/=); done).
    all: split; cbn [shared threads]; rewrite ?(count_insert _ _ _ _ _ Hl), ?Hr; simpl in *; lia.
Qed.

(** Alone, [try_wait()] reads the pipe empty, in a read per byte at most. *)
Lemma try_wait_returns i k b s :
  0 <= p_bytes (fds s) -> (b || readable s = true \/ k = Client) ->
  reaches_alone tstep (fun ch => ch = Act (M := method) false) (fun l => l = Ret (b || readable s)) i
    (Z.to_nat (p_bytes (fds s)) + 1) s (TryRead k b).
Proof.
  unfold readable. remember (Z.to_nat (p_bytes (fds s))) as f eqn:Ef.
  revert b s Ef. induction f as [f IH] using lt_wf_ind. intros b s -> H0 Hk.
  pose proof (p_read_law 128 (fds s) ltac:(lia) H0) as Hp. destruct (p_read 128 (fds s)) as [p n] eqn:E. simpl in Hp.
  assert (tstep i (Act false) s (TryRead k b) = Some (try_wait k b s)) as Hstep by done.
  unfold try_wait in Hstep. rewrite E in Hstep. rewrite Nat.add_comm.
  destruct (Z.ltb_spec 0 (p_bytes (fds s))) as [Hpos|Hzero].
  - destruct Hp as (Hn & Hb & Hb'). assert (0 <? n = true) as En by (apply Z.ltb_lt; lia). rewrite En in Hstep.
    eapply (reaches_step tstep _ _ _ _ (Act false)); [exact Hstep|done|]. rewrite orb_true_r.
    eapply reaches_more; [|apply (IH (Z.to_nat (p_bytes p))); simpl; try lia; auto]. simpl. lia.
  - destruct Hp as [-> Hn]. assert (0 <? n = false) as En by (apply Z.ltb_ge; lia). rewrite En in Hstep.
    eapply (reaches_step tstep _ _ _ _ (Act false)); [exact Hstep|done|].
    apply reaches_now. rewrite orb_false_r in *. by destruct k, b; destruct Hk.
Qed.

(** The pipe's auto-reset event accounts for its signals: the bytes in the
    pipe are the signals written and not read, no wait returns [true] without a
    signal that nobody else has returned for, and a thread in [try_wait()] that runs
    alone returns, after at most one read for each byte and one more, whether there
    has been one. *)
Theorem pipe_event_accounting set n c :
  reachable tstep (init set n) c ->
  0 <= p_bytes (fds (shared c)) /\
  given (shared c) = p_bytes (fds (shared c)) + drained (shared c) /\
  0 <= taken (shared c) <= drained (shared c) /\
  (forall i b, threads c !! i = Some (TryRead Client b) ->
     reaches_alone tstep (fun ch => ch = Act (M := method) false) (fun l => l = Ret (b || readable (shared c))) i
       (Z.to_nat (p_bytes (fds (shared c))) + 1) (shared c) (TryRead Client b)).
Proof.
  intros [H0 Hg [Ht Hd]]%pipe_inv_reachable. pose proof (count_bounds has_read (threads c)).
  split_and!; try lia. intros i b _. apply try_wait_returns; auto.
Qed.
End machine.

(** A pipe of 65536 bytes. *)
#[export] Instance bytes_pipe : Pipe Z := {
  p_new := 0;
  p_write := fun p => if p <? 65536 then (p + 1, true) else (p, false);
  p_read := fun n p => if 0 <? p then (p - Z.min n p, Z.min n p) else (p, -1);
  p_bytes := id
}.

#[export] Instance bytes_pipe_laws : PipeLaws Z.
Proof.
  constructor; unfold id; simpl; unfold id; [done|..].
  - intros p Hp. destruct (Z.ltb_spec p 65536); simpl; lia.
  - intros n p Hn Hp. destruct (Z.ltb_spec 0 p); simpl; lia.
Qed.

(** Two threads wait; two signals; the first of the threads reads both. *)
Definition drained_sched : list (nat * choice method) :=
  [(0, Call MWait); (0, Act false); (1, Call MWait); (1, Act false);
   (2, Call MSignal); (2, Act false); (2, Call MSignal); (2, Act false);
   (0, Kernel Go); (0, Act false); (0, Act false)]%nat.

(** The pipe does not deliver one token per signal: a waiter takes all that is in
    it, and a second one that a second signal was for waits on. *)
Theorem pipe_event_coalesces :
  exists c, exec tstep drained_sched (init false 3) = Some c /\
    threads c = [Ret true; Poll false; Ret true] /\ given (shared c) = 2 /\ taken (shared c) = 1 /\
    forall ch, ch <> Kernel Fault -> cstep tstep 1%nat ch c = None.
Proof.
  eexists. split; [vm_compute; reflexivity|]. split_and!; try done.
  intros [m|sp|[]|ex] Hne; try done.
Qed.

Lemma pipe_event_accounting_witness : p_bytes 1 = 1 /\ 0 <= 0 <= 1.
Proof.
  destruct (pipe_event_accounting (P := Z) false 2 (Config (State 1 2 1 0) [TryRead InWait true; Ret true])) as (_ & E & H & _);
    [|by split].
  apply (exec_reachable _ [(0, Call MWait); (0, Act false); (1, Call MSignal); (1, Act false);
    (0, Kernel Go); (0, Act false); (1, Call MSignal); (1, Act false)]%nat). vm_compute. reflexivity.
Defined.
End PipeAuto.

(** ** Windows *)
Module WindowsAuto.

(** [handle_], whose [WaitForSingleObject] resets it; ghosts: [SetEvent]s that found
    it reset, waits that were satisfied. *)
Record state (K : Type) := State { handle : K; stored : Z; taken : Z }.
#[global] Arguments State {K}. #[global] Arguments handle {K}.
#[global] Arguments stored {K}. #[global] Arguments taken {K}.

Inductive pc :=
| Idle
| Ret (r : bool)
| Signal      (** [signal()]: [SetEvent] *)
| TryWait     (** [try_wait()]: [WaitForSingleObject( 0 )] *)
| Wait        (** [wait()]: [WaitForSingleObject( INFINITE )] *)
| TimedWait.  (** in [wait_handle_for] or [wait_handle_until] *)

Section machine.
Context {K : Type} `{Flag K}.
Implicit Types s : state K.

Definition signal s : state K :=
  State (f_set (handle s)) (if f_ready (handle s) then stored s else stored s + 1) (taken s).

(** A wait that is satisfied. *)
Definition take s : option (state K) :=
  if f_ready (handle s) then Some (State (f_reset (handle s)) (stored s) (taken s + 1)) else None.

Definition enter (m : method) : pc :=
  match m with
  | MSignal => Signal
  | MTryWait => TryWait
  | MWait => Wait
  | MTryWaitFor _ | MTryWaitUntil => TimedWait
  end.

(** A failed wait: [wait()] returns nevertheless. *)
Definition tstep (tid : nat) (ch : choice method) s (l : pc) : option (state K * pc) :=
  match l, ch with
  | (Idle | Ret _), Call m => Some (s, enter m)
  | Signal, Act _ => Some (signal s, Ret true)
  | TryWait, Act _ => Some (match take s with Some s' => (s', Ret true) | None => (s, Ret false) end)
  | (Wait | TimedWait), Kernel Go => (fun s' => (s', Ret true)) <$> take s
  | TimedWait, Kernel (TimedOut | Fault) => Some (s, Ret false)
  | Wait, Kernel Fault => Some (s, Ret true)
  | _, _ => None
  end.

Definition init (initially_set : bool) (n : nat) : config (state K) pc :=
  let s := State f_new 0 0 in Config (if initially_set then signal s else s) (replicate n Idle).

Definition Inv (c : config (state K) pc) : Prop :=
  f_open (handle (shared c)) = true /\ 0 <= taken (shared c) /\
  stored (shared c) = taken (shared c) + Z.b2z (f_ready (handle (shared c))).

Context `{!FlagLaws K}.

Lemma event_signal_ok s : f_open (handle s) = true -> 0 <= taken s -> stored s = taken s + Z.b2z (f_ready (handle s)) ->
  f_open (handle (signal s)) = true /\ 0 <= taken (signal s) /\
  stored (signal s) = taken (signal s) + Z.b2z (f_ready (handle (signal s))).
Proof.
  intros Ho Ht Hs. destruct (f_set_state (handle s)) as [Hr Ho']. unfold signal; simpl. rewrite Hr, Ho', Ho.
  destruct (f_ready (handle s)); simpl in *; lia.
Qed.

Lemma take_ok s s' : f_open (handle s) = true -> 0 <= taken s -> stored s = taken s + Z.b2z (f_ready (handle s)) ->
  take s = Some s' -> f_open (handle s') = true /\ 0 <= taken s' /\ stored s' = taken s' + Z.b2z (f_ready (handle s')).
Proof.
  unfold take. intros Ho Ht Hs. destruct (f_ready (handle s)); [|done]. intros [= <-]. simpl in *.
  destruct (f_reset_state (handle s)) as [-> ->]. simpl. split_and!; (done || lia).
Qed.

Lemma windows_inv_reachable set n c : reachable tstep (init set n) c -> Inv c.
Proof.
  apply invariant_reachable; unfold Inv.
  - destruct (f_new_state (K := K)) as [Hr Ho]. destruct set; [apply event_signal_ok|]; simpl; rewrite ?Hr, ?Ho; done.
  - intros i ch c0 l s' l' (Ho & Ht & Hst) Hl Hs. cbn [shared].
    pose proof (event_signal_ok _ Ho Ht Hst). pose proof (take_ok (shared c0)) as Htk.
    destruct l as [|r| | | |], ch as [m|sp|[]|ex]; try done; cbn [tstep] in Hs; try (by simplify_eq);
      destruct (take (shared c0)) as [s1|] eqn:E; simplify_eq/=; eauto.
Qed.

(** The Windows event holds one token at most: the signals that found it
    unset are the waits it has satisfied and the token it has; a wait is satisfied
    exactly when it has it. *)
Theorem windows_event_accounting set n c :
  reachable tstep (init set n) c ->
  0 <= taken (shared c) <= stored (shared c) /\ stored (shared c) <= taken (shared c) + 1 /\
  (f_ready (handle (shared c)) = true <-> taken (shared c) < stored (shared c)).
Proof.
  intros (_ & Ht & Hs)%windows_inv_reachable. destruct (f_ready (handle (shared c))); simpl in Hs; split_and!; try lia;
    split; (done || lia).
Qed.
End machine.

(** Two signals; one wait is satisfied, and nothing is left. *)
Lemma windows_event_accounting_witness :
  exists c, exec (tstep (H := written 0))
      [(0, Call MSignal); (0, Act false); (0, Call MSignal); (0, Act false); (1, Call MWait); (1, Kernel Go)]%nat
      (init (H := written 0) false 2) = Some c /\
    stored (shared c) = 1 /\ ~ (taken (shared c) < stored (shared c)).
Proof.
  eexists. split; [vm_compute; reflexivity|]. split; [done|].
  assert (reachable (tstep (H := written 0)) (init (H := written 0) false 2)
    (Config (State (0%nat, true) 1 1) [Ret true; Ret true])) as Hr.
  { apply (exec_reachable _ [(0, Call MSignal); (0, Act false); (0, Call MSignal); (0, Act false);
      (1, Call MWait); (1, Kernel Go)]%nat). by vm_compute. }
  destruct (windows_event_accounting (H := written 0) false 2 _ Hr) as (_ & _ & Hb). intros Hlt. by apply Hb in Hlt.
Defined.
End WindowsAuto.
