(* ===== verification/NativeManualEvent.v ===== *)
(** * The native manual-reset event

    [native_manual_reset_event] (include/nova/sync/event/native_manual_reset_event.hpp,
    source/nova/sync/event/native_manual_reset_event.cpp) on all four platforms: an
    eventfd on Linux, a user event in a kqueue on Apple systems, a pipe elsewhere,
    and a manual-reset event on Windows.  The kernel object is a [Flag] of
    [Kernel.v].  The abstract event is a flag that [signal()] sets and [reset()]
    clears. *)
From S2P Require Import Prelude Kernel Machine Futex.
#[local] Open Scope Z_scope.

Inductive platform := Linux | Apple | Pipe | Windows.

Definition is_windows (p : platform) : bool := match p with Windows => true | _ => false end.
Definition is_pipe (p : platform) : bool := match p with Pipe => true | _ => false end.

(** [other_clock]: neither [system_clock] nor [steady_clock]; [zero]: no time left. *)
Inductive method :=
| MSignal | MReset | MTryWait | MWait | MTryWaitFor (zero : bool) | MTryWaitUntil (other_clock zero : bool).

Inductive pc :=
| Idle
| Ret (r : bool)
| SignalPoll               (** [signal()]: [try_poll] *)
| SignalSet                (** [signal()]: [write_intr], [NOTE_TRIGGER] or [SetEvent] *)
| ResetRead                (** [reset()]: [read_intr] *)
| ResetDelete              (** [reset()]: [EV_DELETE] *)
| ResetAdd                 (** [reset()]: [EV_ADD] *)
| ResetEvent               (** [reset()]: [ResetEvent] *)
| TryWait                  (** [try_wait()], also at the end of [try_wait_for()] *)
| WaitTry                  (** [wait()]: [try_wait()] *)
| WaitPoll                 (** [wait()]: [poll_intr] or [WaitForSingleObject] *)
| TimedWait (again : bool). (** the timed wait of the platform; [try_wait()] follows *)

Section machine.
Context {K : Type} `{Flag K} (p : platform).

Definition enter (m : method) : pc :=
  match m with
  | MSignal => match p with Linux | Pipe => SignalPoll | Apple | Windows => SignalSet end
  | MReset => match p with Linux | Pipe => ResetRead | Apple => ResetDelete | Windows => ResetEvent end
  | MTryWait => TryWait
  | MWait => match p with Windows => WaitPoll | _ => WaitTry end
  | MTryWaitFor zero =>
      if is_windows p then TimedWait false else if zero then TryWait else TimedWait true
  | MTryWaitUntil other zero =>
      if other || is_pipe p then if is_windows p then TimedWait false else if zero then TryWait else TimedWait true
      else TimedWait false
  end.

(** How a timed wait ends: [try_wait_for()] of the pipe looks at the event in any case. *)
Definition timed_end (again : bool) (r : bool) : pc := if again && (r || is_pipe p) then TryWait else Ret r.

Definition tstep (tid : nat) (ch : choice method) (k : K) (l : pc) : option (K * pc) :=
  match l, ch with
  | (Idle | Ret _), Call m => Some (k, enter m)
  | SignalPoll, Act _ => Some (k, if f_ready k then Ret true else SignalSet)
  | SignalSet, Act _ => Some (f_set k, Ret true)
  | ResetRead, Act _ => let '(k', more) := f_read k in Some (k', if more then ResetRead else Ret true)
  | ResetDelete, Act _ => Some (f_delete k, ResetAdd)
  | ResetAdd, Act _ => Some (f_add k, Ret true)
  | ResetEvent, Act _ => Some (f_reset k, Ret true)
  | TryWait, Act _ => Some (k, Ret (f_ready k))
  | WaitTry, Act _ => Some (k, if f_ready k then Ret true else WaitPoll)
  | WaitPoll, Kernel Go => if f_ready k then Some (k, if is_windows p then Ret true else WaitTry) else None
  | WaitPoll, Kernel Fault => if is_windows p then None else Some (k, WaitTry)
  | TimedWait again, Kernel Go => if f_ready k then Some (k, timed_end again true) else None
  | TimedWait again, Kernel (TimedOut | Fault) => Some (k, timed_end again false)
  | _, _ => None
  end.

Definition init (initially_set : bool) (n : nat) : config K pc :=
  Config (if initially_set then f_set f_new else f_new) (replicate n Idle).

(** ** The abstract event *)

(** What a step does to the flag. *)
Inductive effect :=
| Sets
| SetsBeforeReset (** a [signal()] that a [reset()] under way undoes at once *)
| Clears
| Sees (b : bool)
| Silent.

Definition abstract_step (e : effect) (b b' : bool) : Prop :=
  match e with
  | Sets => b' = true
  | SetsBeforeReset => b = false /\ b' = false
  | Clears => b' = false
  | Sees x => b = x /\ b' = x
  | Silent => b' = b
  end.

Definition resetting (l : pc) : bool := match l with ResetAdd => true | _ => false end.

(** The methods a program point belongs to may set, clear and look. *)
Definition permits (l : pc) (e : effect) : Prop :=
  match e with
  | Sets | SetsBeforeReset => l = SignalPoll \/ l = SignalSet
  | Clears => l = ResetRead \/ l = ResetDelete \/ l = ResetEvent
  | Sees _ | Silent => True
  end.

(** What a method has done when it returns [r] from [l]: [signal()] set the flag;
    [reset()] cleared it (on Apple systems in the step that led to [ResetAdd]); the
    waits saw it, and only a timed wait returns [false] without looking. *)
Definition accomplishes (l : pc) (r : bool) (e : effect) : Prop :=
  match l with
  | SignalPoll | SignalSet => e = Sets \/ e = SetsBeforeReset
  | ResetRead | ResetEvent => e = Clears
  | ResetAdd => True
  | TryWait | WaitTry => e = Sees r
  | WaitPoll => r = true /\ e = Sees true
  | TimedWait _ => if r then e = Sees true else e = Silent
  | _ => False
  end.
End machine.

(** ** Proofs *)

Section proofs.
Context {K : Type} `{FlagLaws K} (p : platform).

(** The event is missing from the kqueue only inside a [reset()]. *)
Definition Inv (c : config K pc) : Prop := f_open (shared c) = false -> 1 <= count resetting (threads c).

Lemma init_open set n : f_open (shared (init (K := K) set n)) = true.
Proof.
  destruct f_new_state as [_ Ho]. unfold init; simpl. destruct set; [|done].
  by destruct (f_set_state f_new) as [_ ->].
Qed.

Lemma manual_step_open i ch k l k' l' :
  tstep p i ch k l = Some (k', l') -> f_open k' = false ->
  resetting l' = true \/ f_open k = false /\ resetting l = false.
Proof.
  intros Hs Hk. pose proof (f_set_state k) as [_ Eset]. pose proof (f_read_state k) as (_ & Eread & _).
  pose proof (f_add_state k) as [_ Eadd]. pose proof (f_reset_state k) as [_ Ereset].
  destruct l as [|r| | | | | | | | | |again]; destruct ch as [m|b|[]|b]; try discriminate Hs; simpl in Hs;
    step_cases Hs; auto; try congruence; right; (split; [congruence|done]).
Qed.

Lemma native_manual_inv_reachable set n c : reachable (tstep p) (init set n) c -> Inv c.
Proof.
  apply invariant_reachable; unfold Inv; [by rewrite init_open|].
  intros i ch d l s' l' HI Hi Hs. cbn [shared threads]. rewrite (count_insert _ _ _ _ _ Hi). intros Ho.
  pose proof (count_others resetting _ _ _ Hi).
  destruct (manual_step_open _ _ _ _ _ _ Hs Ho) as [->|[E ->]]; simpl; [lia|].
  specialize (HI E). destruct (resetting l'); simpl; lia.
Qed.

(** What one step does to the abstract event. *)
Lemma manual_step_effect i ch k l k' l' :
  tstep p i ch k l = Some (k', l') ->
  exists e, abstract_step e (f_ready k) (f_ready k') /\ permits l e /\ (e = SetsBeforeReset -> f_open k = false) /\
    (forall r, l' = Ret r -> accomplishes l r e) /\ (l' = ResetAdd -> e = Clears).
Proof.
  intros Hs. pose proof (f_ready_open k) as Ho. pose proof (f_set_state k) as [Hset _].
  pose proof (f_read_state k) as (Hr1 & _ & Hr3 & _). pose proof (f_delete_state k) as [Hd _].
  pose proof (f_add_state k) as [Ha _]. pose proof (f_reset_state k) as [Hrs _].
  assert (forall m, exists e, abstract_step e (f_ready k) (f_ready k) /\ permits l e /\
    (e = SetsBeforeReset -> f_open k = false) /\ (forall r, enter p m = Ret r -> accomplishes l r e) /\
    (enter p m = ResetAdd -> e = Clears)) as Hcall.
  { intros m. exists Silent. split_and!; try done; destruct m as [| | | |[]|[] []], p; done. }
  destruct l as [|r| | | | | | | | | |again]; destruct ch as [m|b|[]|b]; try discriminate Hs; simpl in Hs.
  - by injection Hs as <- <-.
  - by injection Hs as <- <-.
  - destruct (f_ready k) eqn:E; injection Hs as <- <-; [exists Sets|exists Silent]; split_and!; simpl; auto; naive_solver.
  - injection Hs as <- <-. destruct (f_open k) eqn:E.
    + exists Sets. split_and!; simpl; auto; naive_solver.
    + exists SetsBeforeReset. assert (f_ready k = false) by (destruct (f_ready k); naive_solver).
      split_and!; simpl; auto; naive_solver.
  - destruct (f_read k) as [k1 more] eqn:E. simpl in *. injection Hs as <- <-. subst more.
    destruct (f_ready k) eqn:Er.
    + destruct (f_ready k1) eqn:E1; [exists Silent|exists Clears]; split_and!; simpl; intros; try congruence; auto.
    + rewrite Hr3, Er by done. exists Clears. split_and!; simpl; auto; naive_solver.
  - injection Hs as <- <-. exists Clears. split_and!; simpl; auto; naive_solver.
  - injection Hs as <- <-. exists Silent. split_and!; simpl; auto; naive_solver.
  - injection Hs as <- <-. exists Clears. split_and!; simpl; auto; naive_solver.
  - injection Hs as <- <-. exists (Sees (f_ready k)). split_and!; simpl; auto; naive_solver.
  - destruct (f_ready k) eqn:E; injection Hs as <- <-; [exists (Sees true)|exists Silent]; split_and!; simpl; auto; naive_solver.
  - destruct (f_ready k) eqn:E; [|done]. injection Hs as <- <-. exists (Sees true).
    split_and!; simpl; auto; destruct p; naive_solver.
  - destruct (is_windows p); [done|]. injection Hs as <- <-. exists Silent. split_and!; simpl; auto; naive_solver.
  - destruct (f_ready k) eqn:E; [|done]. injection Hs as <- <-. exists (Sees true).
    unfold timed_end. split_and!; simpl; auto; destruct again; naive_solver.
  - injection Hs as <- <-. exists Silent. unfold timed_end. split_and!; simpl; auto; destruct again, p; naive_solver.
  - injection Hs as <- <-. exists Silent. unfold timed_end. split_and!; simpl; auto; destruct again, p; naive_solver.
Qed.
End proofs.

(** ** Theorems *)

Section properties.
Context {K : Type} `{FlagLaws K} (p : platform).

(** C25: the native manual-reset event refines the abstract event, a flag, on all
    platforms, under every interleaving: each step sets it, clears it, sees it or
    leaves it alone, only [signal()] sets and only [reset()] clears; a [signal()]
    that returns has set the flag, or met a [reset()] under way; a [reset()] has
    cleared it; [try_wait()] returns what it saw, and no wait returns [true]
    without having seen the flag set in its last step. *)
Theorem native_manual_event_refines set n c i l ch c' l' :
  reachable (tstep p) (init set n) c -> threads c !! i = Some l ->
  cstep (tstep p) i ch c = Some c' -> threads c' !! i = Some l' ->
  exists e, abstract_step e (f_ready (shared c)) (f_ready (shared c')) /\ permits l e /\
    (e = SetsBeforeReset -> 1 <= count resetting (threads c)) /\
    (forall r, l' = Ret r -> accomplishes l r e) /\ (l' = ResetAdd -> e = Clears).
Proof.
  intros HI%native_manual_inv_reachable Hi (l1 & s' & l2 & Hl1 & Hs & ->)%cstep_inv Hl'. cbn [shared threads] in *.
  rewrite list_lookup_insert_eq in Hl' by (by eapply lookup_lt_Some). simplify_eq.
  destruct (manual_step_effect p _ _ _ _ _ _ Hs) as (e & H1 & H2 & H3 & H4 & H5). exists e. split_and!; auto.
Qed.

(** The program points of the waiting methods. *)
Definition waiting (l : pc) : bool :=
  match l with TryWait | WaitTry | WaitPoll | TimedWait _ => true | _ => false end.

(** No lost wakeup: while the event is set, a thread anywhere in a waiting
    method, blocked or not, returns [true] within two steps of its own. *)
Theorem native_manual_event_releases i k l :
  f_ready k = true -> waiting l = true -> reaches_alone (tstep p) benign (fun l => l = Ret true) i 2 k l.
Proof.
  intros Hk Hl.
  assert (forall l1, l1 = Ret true \/ l1 = TryWait \/ l1 = WaitTry ->
    reaches_alone (tstep p) benign (fun l => l = Ret true) i 1 k l1) as Hone.
  { intros l1 [->|[-> | ->]]; [by apply reaches_now|..]; (eapply (reaches_step _ _ _ _ _ (Act false));
      [simpl; rewrite Hk; done|by left|by apply reaches_now]). }
  destruct l as [|r| | | | | | | | | |again]; try discriminate Hl; try (eapply reaches_more; [|apply Hone; auto]; lia);
    (eapply (reaches_step _ _ _ _ _ (Kernel Go)); [simpl; rewrite Hk; done|right; by left|apply Hone]).
  - destruct (is_windows p); auto.
  - unfold timed_end. destruct again; simpl; auto.
Qed.

(** The reads of a [reset()] that runs alone. *)
Lemma reads_end i n k :
  (f_level k < n)%nat -> f_open k = true -> exists chs k', (length chs <= n)%nat /\ alone (tstep p) i chs k ResetRead = Some (k', Ret true) /\
    f_ready k' = false /\ f_open k' = true.
Proof.
  revert k. induction n as [|n IH]; intros k Hn Ho; [lia|].
  destruct (f_read_state k) as (Hr & Hro & Hr0 & Hr1). destruct (f_read k) as [k1 more] eqn:E. simpl in *.
  destruct (f_ready k) eqn:Ek.
  - destruct (IH k1) as (chs & k' & Hl & Ha & Hk); [specialize (Hr1 eq_refl); lia|congruence|].
    exists (Act false :: chs), k'. simpl. rewrite E, Hr. split_and!; [lia|done|apply Hk..].
  - exists [Act false], k. simpl. rewrite E, Hr, Hr0 by done. split_and!; [lia|done..].
Qed.

(** [signal()] and [reset()] terminate and do what they say: running alone
    [signal()] returns within two steps with the event set, and [reset()] within as
    many steps as there are writes to read, plus two, with the event cleared and
    ready to be set again. *)
Theorem native_manual_event_sets_and_resets i k :
  f_open k = true ->
  (exists chs k', (length chs <= 2)%nat /\ alone (tstep p) i chs k (enter p MSignal) = Some (k', Ret true) /\
     f_ready k' = true /\ f_open k' = true) /\
  (exists chs k', (length chs <= S (S (f_level k)))%nat /\ alone (tstep p) i chs k (enter p MReset) = Some (k', Ret true) /\
     f_ready k' = false /\ f_open k' = true).
Proof.
  intros Ho. destruct (f_set_state k) as [Hs Hso].
  assert (alone (tstep p) i [Act false] k SignalSet = Some (f_set k, Ret true)) as Hset by done.
  split.
  - destruct (f_ready k) eqn:Ek; destruct p; simpl.
    all: try (exists [Act false], (f_set k); split_and!; [simpl; lia|done|congruence|congruence]).
    all: try (exists [Act false], k; simpl; rewrite Ek; split_and!; [lia|done..]).
    all: exists [Act false; Act false], (f_set k); simpl; rewrite Ek; split_and!; [lia|done|congruence|congruence].
  - destruct (f_delete_state k) as [Hd _], (f_add_state (f_delete k)) as [Ha Hao], (f_reset_state k) as [Hr Hro].
    destruct (reads_end i (S (f_level k)) k) as (chs & k' & Hl & Hk); [lia|done|].
    destruct p; simpl; try (exists chs, k'; split_and!; [lia|apply Hk..]).
    + exists [Act false; Act false], (f_add (f_delete k)). split_and!; [simpl; lia|done|congruence|congruence].
    + exists [Act false], (f_reset k). split_and!; [simpl; lia|done|congruence|congruence].
Qed.
End properties.

(** A waiter is woken by [signal()], and [reset()] comes before it looks. *)
Definition early_sched : list (nat * choice method) :=
  [(0, Call (MTryWaitFor false)); (1, Call MSignal); (1, Act false); (1, Act false); (0, Kernel Go);
   (1, Call MReset); (1, Act false); (1, Act false); (0, Act false)]%nat.

(** [try_wait_for()] can return [false] before its time-out: when the event is
    reset between the wakeup and the look at it, it does not wait again. *)
Theorem native_manual_event_gives_up_early :
  exists c, exec (tstep (K := nat * bool) (H := written 0) Linux) early_sched (init (H := written 0) false 2) = Some c /\
    threads c = [Ret false; Ret true].
Proof. eexists. split; [by vm_compute|done]. Qed.

(** ** Witnesses *)

Definition pair_config : config (nat * bool) pc := Config (1%nat, true) [WaitPoll; Ret true].

(** Thread 0 is in [wait()], thread 1 has signalled. *)
Lemma pair_reachable : reachable (tstep (H := written 0) Linux) (init (H := written 0) false 2) pair_config.
Proof.
  apply (exec_reachable _ [(0, Call MWait); (0, Act false); (1, Call MSignal); (1, Act false); (1, Act false)]%nat).
  by vm_compute.
Qed.

Lemma native_manual_event_refines_witness :
  exists e, abstract_step e true true /\ permits WaitPoll e /\
    (e = SetsBeforeReset -> 1 <= count resetting (threads pair_config)) /\
    (forall r, WaitTry = Ret r -> accomplishes WaitPoll r e) /\ (WaitTry = ResetAdd -> e = Clears).
Proof.
  apply (native_manual_event_refines (H := written 0) Linux false 2 pair_config 0 WaitPoll (Kernel Go)
    (Config (1%nat, true) [WaitTry; Ret true]) WaitTry); [apply pair_reachable|done..].
Defined.

Lemma native_manual_event_releases_witness :
  reaches_alone (tstep (H := written 0) Linux) benign (fun l => l = Ret true) 0 2 (1%nat, true) WaitPoll.
Proof. apply (native_manual_event_releases (H := written 0) Linux 0 (1%nat, true) WaitPoll); done. Defined.

Lemma native_manual_event_sets_and_resets_witness :
  exists chs k', (length chs <= 2)%nat /\
    alone (tstep (H := written 0) Apple) 0 chs (0%nat, true) SignalSet = Some (k', Ret true) /\
    f_ready (Flag := written 0) k' = true /\ f_open (Flag := written 0) k' = true.
Proof. apply (native_manual_event_sets_and_resets (H := written 0) Apple 0 (0%nat, true)); done. Defined.
