(* ===== verification/ScopedFd.v ===== *)
(** * Owned file descriptors and handles

    [scoped_file_descriptor] and [scoped_handle] of
    detail/native_handle_support.hpp: objects in slots, each with its descriptor
    or [HANDLE], and the ones that are open in the process.  A program is any
    sequence of operations on the objects, together with descriptors that other
    code opens, closes and hands over.  The outcome of [dup] is chosen by the
    environment: an error, or a descriptor that was not open. *)
From S2P Require Import Prelude.
From stdpp Require Import gmap.
#[local] Open Scope Z_scope.

(** What the objects own: a file descriptor, or the [HANDLE] of a
    [std::unique_ptr<void, handle_deleter>]. *)
Inductive kind := FileDescriptor | WindowsHandle.

#[export] Instance kind_eq_dec : EqDecision kind.
Proof. solve_decision. Defined.

(** [-1], [nullptr]; and [INVALID_HANDLE_VALUE]. *)
Definition nil_handle (k : kind) : Z := match k with FileDescriptor => -1 | WindowsHandle => 0 end.
Definition invalidHandle : Z := 2 ^ 64 - 1.

(** The condition of [reset()], the destructor and [handle_deleter]. *)
Definition valid (k : kind) (h : Z) : bool :=
  match k with
  | FileDescriptor => 0 <=? h
  | WindowsHandle => negb (h =? 0) && negb (h =? invalidHandle)
  end.

Lemma valid_nil k : valid k (nil_handle k) = false.
Proof. by destruct k. Qed.

(** The objects ([None] after the destructor), the open descriptors, those that
    belong to other code, and whether [close] was ever called on a descriptor that
    is not open. *)
Record world := World {
  slots : list (option Z);
  open_fds : gset Z;
  raw : gset Z;
  bad_close : bool
}.

Definition set_slots (ss : list (option Z)) (w : world) : world := World ss (open_fds w) (raw w) (bad_close w).
Definition set_raw (r : gset Z) (w : world) : world := World (slots w) (open_fds w) r (bad_close w).

(** [::close( fd )]. *)
Definition close (fd : Z) (w : world) : world :=
  World (slots w) (open_fds w ∖ {[fd]}) (raw w) (bad_close w || negb (bool_decide (fd ∈ open_fds w))).

Inductive operation :=
| Default                     (** [scoped_file_descriptor()] *)
| Adopt (fd : Z)              (** [scoped_file_descriptor( fd )] *)
| FromDup (source_fd r : Z)
| MoveCtor (src : nat)
| MoveAssign (dst src : nat)
| Release (i : nat)
| Reset (i : nat) (fd : Z)
| Destructor (i : nat)
| OtherOpen (r : Z)           (** other code opens a descriptor *)
| OtherClose (fd : Z).        (** other code closes one of its own *)

Section owner.
Context (k : kind).

(** [if ( fd_ >= 0 ) ::close( fd_ );] and [handle_deleter]. *)
Definition close_owned (fd : Z) (w : world) : world := if valid k fd then close fd w else w.

(** A new object. *)
Definition construct (fd : Z) (w : world) : world := set_slots (slots w ++ [Some fd]) w.

(** [fd_] of the object in slot [i]. *)
Definition get (i : nat) (w : world) : option Z := mjoin (slots w !! i).

Definition put (i : nat) (fd : Z) (w : world) : world := set_slots (<[i := Some fd]> (slots w)) w.

(** [release()]. *)
Definition release (i : nat) (w : world) : option (world * Z) :=
  match get i w with Some fd => Some (put i (nil_handle k) w, fd) | None => None end.

(** [reset( fd )]. *)
Definition reset (i : nat) (fd : Z) (w : world) : option world :=
  match get i w with Some old => Some (put i fd (close_owned old w)) | None => None end.

(** [~scoped_file_descriptor()]. *)
Definition destroy (i : nat) (w : world) : option world :=
  match get i w with
  | Some fd => let w' := close_owned fd w in Some (set_slots (<[i := None]> (slots w')) w')
  | None => None
  end.

(** [from_dup( source_fd )], where [::dup] returns [r]; only of descriptors. *)
Definition from_dup (source_fd r : Z) (w : world) : option world :=
  if bool_decide (k = WindowsHandle) then None
  else if negb (valid k source_fd) then Some (construct (nil_handle k) w)
  else if negb (valid k r) then Some (construct (nil_handle k) w)
  else if bool_decide (r ∈ open_fds w) then None
  else Some (construct r (World (slots w) ({[r]} ∪ open_fds w) (raw w) (bad_close w))).

(** The move constructor. *)
Definition move_ctor (src : nat) (w : world) : option world :=
  match release src w with Some (w', fd) => Some (construct fd w') | None => None end.

(** The move assignment: [reset( other.release() )]. *)
Definition move_assign (dst src : nat) (w : world) : option world :=
  match release src w with Some (w', fd) => reset dst fd w' | None => None end.

(** A [unique_ptr] only compares with [nullptr]. *)
Definition to_bool (i : nat) (w : world) : option bool :=
  (fun fd => match k with FileDescriptor => 0 <=? fd | WindowsHandle => negb (fd =? 0) end) <$> get i w.

(** A descriptor handed to an object belonged to the caller; an invalid one is
    no descriptor. *)
Definition hand_over (fd : Z) (w : world) : option world :=
  if negb (valid k fd) then Some w
  else if bool_decide (fd ∈ raw w) then Some (set_raw (raw w ∖ {[fd]}) w) else None.

Definition operate (op : operation) (w : world) : option world :=
  match op with
  | Default => Some (construct (nil_handle k) w)
  | Adopt fd => construct fd <$> hand_over fd w
  | FromDup source_fd r => from_dup source_fd r w
  | MoveCtor src => move_ctor src w
  | MoveAssign dst src => move_assign dst src w
  | Release i =>
      match release i w with
      | Some (w', fd) => Some (if valid k fd then set_raw ({[fd]} ∪ raw w') w' else w')
      | None => None
      end
  | Reset i fd => w' ← hand_over fd w; reset i fd w'
  | Destructor i => destroy i w
  | OtherOpen r =>
      if negb (valid k r) || bool_decide (r ∈ open_fds w) then None
      else Some (World (slots w) ({[r]} ∪ open_fds w) ({[r]} ∪ raw w) (bad_close w))
  | OtherClose fd =>
      if negb (valid k fd) then None else close fd <$> hand_over fd w
  end.

Fixpoint run (ops : list operation) (w : world) : option world :=
  match ops with [] => Some w | op :: ops' => w' ← operate op w; run ops' w' end.

Definition start : world := World [] ∅ ∅ false.

(** ** The invariant *)

Definition owns (fd : Z) (x : option Z) : bool := bool_decide (x = Some fd).
Definition within (fd : Z) (s : gset Z) : Z := Z.b2z (bool_decide (fd ∈ s)).

(** Every open descriptor has one owner, an object or other code. *)
Definition accounted (w : world) : Prop :=
  bad_close w = false /\
  forall fd, valid k fd = true -> count (owns fd) (slots w) + within fd (raw w) = within fd (open_fds w).

Lemma within_union fd x s : within fd ({[x]} ∪ s) = if decide (fd = x) then 1 else within fd s.
Proof.
  unfold within. case_decide as E; [subst; by rewrite bool_decide_true by set_solver|].
  f_equal. apply bool_decide_ext. set_solver.
Qed.

Lemma within_difference fd x s : within fd (s ∖ {[x]}) = if decide (fd = x) then 0 else within fd s.
Proof.
  unfold within. case_decide as E; [subst; by rewrite bool_decide_false by set_solver|].
  f_equal. apply bool_decide_ext. set_solver.
Qed.

Lemma within_bounds fd s : 0 <= within fd s <= 1.
Proof. unfold within. destruct (bool_decide _); simpl; lia. Qed.

Lemma within_in fd s : fd ∈ s <-> within fd s = 1.
Proof. unfold within. case_bool_decide; simpl; split; (done || lia). Qed.

Lemma owns_eq fd x : Z.b2z (owns fd (Some x)) = if decide (fd = x) then 1 else 0.
Proof. unfold owns. case_bool_decide; case_decide; simplify_eq; done. Qed.

Lemma get_some i w fd : get i w = Some fd <-> slots w !! i = Some (Some fd).
Proof. unfold get. destruct (slots w !! i) as [[x|]|]; simpl; split; intros; by simplify_eq. Qed.

(** The descriptor [h] is in a variable of the code under way. *)
Definition in_hand (h : Z) (w : world) : Prop :=
  bad_close w = false /\
  forall fd, valid k fd = true ->
    count (owns fd) (slots w) + within fd (raw w) + (if decide (fd = h) then 1 else 0) = within fd (open_fds w).

Lemma in_hand_none h w : valid k h = false -> in_hand h w <-> accounted w.
Proof.
  intros Hh. unfold in_hand, accounted. split; intros [? Ha]; split; try done; intros fd Hfd; specialize (Ha fd Hfd);
    rewrite decide_False in * by congruence; lia.
Qed.

Lemma construct_ok h w : in_hand h w -> accounted (construct h w).
Proof.
  intros [Hb Ha]. split; [done|]. intros fd Hfd. specialize (Ha fd Hfd).
  unfold construct, set_slots; simpl. rewrite count_app, count_one, owns_eq. lia.
Qed.

Lemma release_ok i w w' h : accounted w -> release i w = Some (w', h) -> in_hand h w'.
Proof.
  intros [Hb Ha]. unfold release. destruct (get i w) as [x|] eqn:E; [|done]. intros [= <- <-].
  apply get_some in E. split; [done|]. intros fd Hfd. specialize (Ha fd Hfd).
  unfold put, set_slots; simpl. rewrite (count_insert _ _ _ _ _ E), !owns_eq, (decide_False (P := fd = nil_handle k)) by (intros ->; by rewrite valid_nil in Hfd). lia.
Qed.

Lemma close_owned_ok h w : in_hand h w -> accounted (close_owned h w).
Proof.
  intros [Hb Ha]. unfold close_owned. destruct (valid k h) eqn:Hh; [|by apply (in_hand_none h)].
  pose proof (Ha h Hh) as Hin. rewrite decide_True in Hin by done.
  pose proof (count_bounds (owns h) (slots w)). pose proof (within_bounds h (raw w)).
  pose proof (within_bounds h (open_fds w)).
  split; simpl.
  - rewrite Hb, bool_decide_true by (apply within_in; lia). done.
  - intros fd Hfd. specialize (Ha fd Hfd). rewrite within_difference. case_decide; subst; lia.
Qed.

Lemma reset_ok i h w w' : in_hand h w -> reset i h w = Some w' -> accounted w'.
Proof.
  intros [Hb Ha]. unfold reset. destruct (get i w) as [x|] eqn:E; [|done]. intros [= <-]. apply get_some in E.
  assert (put i h (close_owned x w) = close_owned x (put i h w)) as ->
    by (unfold close_owned; by destruct (valid k x)).
  apply close_owned_ok. split; [done|]. intros fd Hfd. specialize (Ha fd Hfd).
  unfold put, set_slots; simpl. rewrite (count_insert _ _ _ _ _ E), !owns_eq. lia.
Qed.

Lemma destroy_ok i w w' : accounted w -> destroy i w = Some w' -> accounted w'.
Proof.
  intros [Hb Ha]. unfold destroy. destruct (get i w) as [x|] eqn:E; [|done]. intros [= <-]. apply get_some in E.
  assert (set_slots (<[i := None]> (slots (close_owned x w))) (close_owned x w) =
    close_owned x (set_slots (<[i := None]> (slots w)) w)) as ->
    by (unfold close_owned; by destruct (valid k x)).
  apply close_owned_ok. split; [done|]. intros fd Hfd. specialize (Ha fd Hfd). simpl.
  rewrite (count_insert _ _ _ _ _ E), owns_eq.
  assert (owns fd None = false) as -> by (unfold owns; by case_bool_decide). simpl. lia.
Qed.

Lemma hand_over_ok fd w w' : accounted w -> hand_over fd w = Some w' -> in_hand fd w'.
Proof.
  intros Hw. unfold hand_over. destruct (valid k fd) eqn:Hfd; simpl.
  - case_bool_decide as Hin; [|done]. intros [= <-]. destruct Hw as [Hb Ha]. split; [done|].
    intros x Hx. specialize (Ha x Hx). simpl. rewrite within_difference. apply within_in in Hin.
    case_decide; subst; lia.
  - intros [= <-]. by apply in_hand_none.
Qed.

(** A descriptor the system has just opened. *)
Lemma opened_ok r w :
  accounted w -> r ∉ open_fds w ->
  in_hand r (World (slots w) ({[r]} ∪ open_fds w) (raw w) (bad_close w)).
Proof.
  intros [Hb Ha] Hn. split; [done|]. intros fd Hfd. specialize (Ha fd Hfd). simpl. rewrite within_union.
  case_decide; subst; [|lia].
  assert (within r (open_fds w) = 0) by (unfold within; by rewrite bool_decide_false). lia.
Qed.

(** A descriptor that goes to other code. *)
Lemma give_ok h w : in_hand h w -> accounted (if valid k h then set_raw ({[h]} ∪ raw w) w else w).
Proof.
  intros Hw. destruct (valid k h) eqn:Hh; [|by apply (in_hand_none h)].
  destruct Hw as [Hb Ha]. split; [done|]. intros fd Hfd. pose proof (Ha fd Hfd) as Hf. simpl. rewrite within_union.
  case_decide as E; [subst|lia]. pose proof (count_bounds (owns h) (slots w)). pose proof (within_bounds h (raw w)).
  pose proof (within_bounds h (open_fds w)). lia.
Qed.

Lemma operate_ok op w w' : accounted w -> operate op w = Some w' -> accounted w'.
Proof.
  intros Hw. destruct op as [|fd|sf r|src|dst src|i|i fd|i|r|fd]; simpl.
  - intros [= <-]. apply construct_ok. apply in_hand_none; [apply valid_nil|done].
  - intros (w1 & H1 & ->)%fmap_Some. apply construct_ok. by eapply hand_over_ok.
  - unfold from_dup. case_bool_decide; [done|]. pose proof (valid_nil k).
    destruct (valid k sf); [|intros [= <-]; by apply construct_ok, in_hand_none].
    destruct (valid k r); [|intros [= <-]; by apply construct_ok, in_hand_none]. simpl.
    case_bool_decide; [done|]. intros [= <-]. by apply construct_ok, opened_ok.
  - unfold move_ctor. destruct (release src w) as [[w1 h]|] eqn:E; [|done]. intros [= <-].
    apply construct_ok. by eapply release_ok.
  - unfold move_assign. destruct (release src w) as [[w1 h]|] eqn:E; [|done].
    apply reset_ok. by eapply release_ok.
  - destruct (release i w) as [[w1 h]|] eqn:E; [|done]. intros [= <-]. apply give_ok. by eapply release_ok.
  - intros (w1 & H1 & H2)%bind_Some. eapply reset_ok; [by eapply hand_over_ok|done].
  - by apply destroy_ok.
  - destruct (valid k r) eqn:Hr; [|done]. simpl. case_bool_decide; [done|]. intros [= <-].
    pose proof (give_ok r _ (opened_ok r w Hw ltac:(done))) as Hg. by rewrite Hr in Hg.
  - destruct (valid k fd) eqn:Hfd; [|done]. simpl. intros (w1 & H1 & ->)%fmap_Some.
    pose proof (close_owned_ok fd w1 (hand_over_ok _ _ _ Hw H1)) as Hc. unfold close_owned in Hc. by rewrite Hfd in Hc.
Qed.

Lemma run_ok ops w w' : accounted w -> run ops w = Some w' -> accounted w'.
Proof.
  revert w. induction ops as [|op ops IH]; simpl; intros w Hw; [by intros [= <-]|].
  intros (w1 & H1 & H2)%bind_Some. eapply IH; [by eapply operate_ok|done].
Qed.

Lemma start_ok : accounted start.
Proof. split; [done|]. intros fd _. unfold within. by rewrite !bool_decide_false by set_solver. Qed.

(** ** Theorems *)

(** C24: descriptors are closed exactly once, whatever a program does with its
    objects: [close] is never called on a descriptor that is not open, the
    descriptor of an object is open and belongs to nobody else, and when all objects
    are destroyed the open descriptors are those that belong to other code. *)
Theorem descriptors_closed_once ops w :
  run ops start = Some w ->
  bad_close w = false /\
  (forall i j fd, valid k fd = true -> get i w = Some fd ->
     fd ∈ open_fds w /\ fd ∉ raw w /\ (get j w = Some fd -> i = j)) /\
  (Forall (eq None) (slots w) -> forall fd, valid k fd = true -> fd ∈ open_fds w <-> fd ∈ raw w).
Proof.
  intros Hr. destruct (run_ok _ _ _ start_ok Hr) as [Hb Ha]. split_and!; [done| |].
  - intros i j fd Hfd Hi%get_some. specialize (Ha fd Hfd).
    assert (owns fd (Some fd) = true) as Ho by (unfold owns; by rewrite bool_decide_true).
    pose proof (count_pos (owns fd) _ _ _ Hi Ho). pose proof (within_bounds fd (raw w)).
    pose proof (within_bounds fd (open_fds w)). split_and!.
    + apply within_in. lia.
    + rewrite within_in. lia.
    + intros Hj%get_some. by apply (count_unique (owns fd) (slots w) i j _ _ ltac:(lia) Hi Hj Ho Ho).
  - intros Hn fd Hfd. specialize (Ha fd Hfd). rewrite count_all_false in Ha.
    + rewrite !within_in. split; lia.
    + intros x Hx. rewrite Forall_forall in Hn. rewrite <- (Hn x Hx). unfold owns. by case_bool_decide.
Qed.

(** A self move keeps the descriptor, and a move leaves the source without one. *)
Theorem descriptor_moves dst src w w' fd old :
  get src w = Some fd -> get dst w = Some old -> move_assign dst src w = Some w' ->
  get dst w' = Some fd /\ (dst <> src -> get src w' = Some (nil_handle k)) /\
  open_fds w' = if decide (dst = src) then open_fds w else open_fds (close_owned old w).
Proof.
  intros Hs Hd. unfold move_assign, release. rewrite Hs. unfold reset.
  apply get_some in Hs as Hs'. apply lookup_lt_Some in Hs' as Hl. apply get_some in Hd as Hd'.
  apply lookup_lt_Some in Hd' as Hld.
  destruct (decide (dst = src)) as [->|Hne].
  - assert (get src (put src (nil_handle k) w) = Some (nil_handle k)) as -> by (apply get_some; by apply list_lookup_insert_eq).
    unfold close_owned. rewrite valid_nil. intros [= <-]. split_and!; [apply get_some|done|done]. simpl. apply list_lookup_insert_eq.
    by rewrite length_insert.
  - assert (get dst (put src (nil_handle k) w) = Some old) as ->
      by (apply get_some; simpl; by rewrite list_lookup_insert_ne).
    intros [= <-]. unfold close_owned. destruct (valid k old); split_and!; try done; try intros _; apply get_some; simpl;
      try (apply list_lookup_insert_eq; by rewrite length_insert);
      rewrite list_lookup_insert_ne by done; by apply list_lookup_insert_eq.
Qed.

End owner.

(** ** Witnesses *)

(** Two objects; one is moved over the other, which closes its descriptor. *)
Definition demo_ops : list operation :=
  [OtherOpen 3; FromDup 3 4; FromDup 3 5; MoveAssign 0 1; MoveCtor 0; Release 2].

Definition demo_world : world := default start (run FileDescriptor demo_ops start).

Lemma descriptors_closed_once_witness :
  bad_close demo_world = false /\ slots demo_world = [Some (-1); Some (-1); Some (-1)] /\
  elements (open_fds demo_world) = elements (raw demo_world).
Proof.
  split; [|split; by vm_compute].
  apply (descriptors_closed_once FileDescriptor demo_ops demo_world). by vm_compute.
Defined.

Definition pair_world : world := default start (run FileDescriptor [OtherOpen 3; FromDup 3 4; FromDup 3 5] start).

Lemma descriptor_moves_witness :
  get 0 (default start (move_assign FileDescriptor 0 1 pair_world)) = Some 5.
Proof.
  apply (descriptor_moves FileDescriptor 0 1 pair_world (default start (move_assign FileDescriptor 0 1 pair_world)) 5 4); by vm_compute.
Defined.
