(* ===== verification/AsyncOp.v ===== *)
(** * What the asynchronous operations have in common

    The result a handler is called with (detail/async_support.hpp and the
    async_support.hpp of mutex/, semaphore/ and event/), and the ledger of an
    operation: what it took from the primitive, what it gave back, and the calls of
    its handler.  [AsioAcquire.v], [DispatchAcquire.v] and [QtAcquire.v] model the
    operations of the three event loops. *)
From S2P Require Import Prelude.
#[local] Open Scope Z_scope.

(** The argument of the handler: [invoke_with_lock], [invoke_semaphore_success]
    and [invoke_event_success], or an error, which is always
    [errc::operation_canceled]. *)
Inductive outcome := Acquired | Canceled.

#[export] Instance outcome_eq_dec : EqDecision outcome.
Proof. solve_decision. Defined.

Definition is_acquired (r : outcome) : bool := match r with Acquired => true | Canceled => false end.

(** What an operation waits for. *)
Inductive primitive :=
| PMutex (async_waiter : bool)  (** is the mutex an [async_waiter_mutex]? *)
| PSemaphore
| PEvent.

Definition is_mutex (p : primitive) : bool := match p with PMutex _ => true | _ => false end.

(** The lock, token or signal taken, the waiters registered with the mutex, and
    the calls of the handler, oldest first. *)
Record ledger := Ledger { taken : Z; registered : Z; delivered : list outcome }.

Definition fresh : ledger := Ledger 0 0 [].

Definition add_taken (n : Z) (g : ledger) : ledger := Ledger (taken g + n) (registered g) (delivered g).
Definition add_registered (n : Z) (g : ledger) : ledger := Ledger (taken g) (registered g + n) (delivered g).
Definition add_call (r : outcome) (g : ledger) : ledger := Ledger (taken g) (registered g) (delivered g ++ [r]).

Definition calls (g : ledger) : Z := Z.of_nat (length (delivered g)).
Definition successes (g : ledger) : Z := count is_acquired (delivered g).

Lemma calls_taken n g : calls (add_taken n g) = calls g.
Proof. done. Qed.

Lemma calls_registered n g : calls (add_registered n g) = calls g.
Proof. done. Qed.

Lemma calls_call r g : calls (add_call r g) = calls g + 1.
Proof. unfold calls. simpl. rewrite length_app. simpl. lia. Qed.

Lemma successes_call r g : successes (add_call r g) = successes g + Z.b2z (is_acquired r).
Proof. unfold successes. simpl. by rewrite count_app, count_one. Qed.

Lemma successes_taken n g : successes (add_taken n g) = successes g.
Proof. done. Qed.

Lemma successes_registered n g : successes (add_registered n g) = successes g.
Proof. done. Qed.

Lemma successes_calls g : 0 <= successes g <= calls g.
Proof. apply count_bounds. Qed.

Lemma calls_none g : calls g = 0 <-> delivered g = [].
Proof. unfold calls. destruct (delivered g); simpl; split; intros; (done || lia). Qed.

Create Rewrite HintDb ledger.
#[export] Hint Rewrite calls_taken calls_registered calls_call successes_taken successes_registered successes_call
  : ledger.

(** ** The protocol of the waiter guard

    The calls an operation makes on a mutex that is an [async_waiter_mutex], through
    [async_waiter_guard] (mutex/support/async_waiter_guard.hpp), and what it may
    call when.  [try_acquire()] of the guard is three calls: [try_lock()],
    [consume_lock()] and [release()]. *)
Inductive mutex_call :=
| TryLock        (** [mtx.try_lock()], without a guard *)
| AddGuard       (** the constructor of the guard: [add_async_waiter()] *)
| TryAcquire     (** [try_lock()] in [try_acquire()] *)
| ConsumeLock    (** [consume_lock()] in [try_acquire()] *)
| ReleaseGuard   (** [release()] of an active guard: [remove_async_waiter()] *)
| UnlockMutex.   (** [mtx.unlock()] *)

#[export] Instance mutex_call_eq_dec : EqDecision mutex_call.
Proof. solve_decision. Defined.

Definition is_try (m : mutex_call) : bool := match m with TryLock | TryAcquire => true | _ => false end.

(** What an operation has: the lock, an active guard, and whether it must call
    [consume_lock()] next. *)
Record rights := Rights { has_lock : bool; has_guard : bool; must_consume : bool }.

(** The calls that are allowed, and what they change; [b] is the result of a try. *)
Definition perform (m : mutex_call) (b : bool) (r : rights) : option rights :=
  match m, r with
  | TryLock, Rights false false false => Some (Rights b false false)
  | AddGuard, Rights false false false => Some (Rights false true false)
  | TryAcquire, Rights false true false => Some (Rights b true b)
  | ConsumeLock, Rights true true true => Some (Rights true true false)
  | ReleaseGuard, Rights lock true false => Some (Rights lock false false)
  | UnlockMutex, Rights true false false => Some (Rights false false false)
  | _, _ => None
  end.

(** The rights of an operation, [consuming] of whose threads must consume. *)
Definition rights_in (g : ledger) (consuming : Z) : rights :=
  Rights (0 <? taken g) (0 <? registered g) (0 <? consuming).

(** A step of an operation: the call it makes, if any, is allowed. *)
Definition conforms (m : option mutex_call) (b : bool) (r r' : rights) : Prop :=
  match m with Some m => perform m b r = Some r' | None => r' = r end.
