(* ===== verification/AsyncSupport.v ===== *)
(** * Calling handlers, and guarding a waiter's registration

    The helpers the asynchronous operations share: how a handler is called with an
    [expected] (detail/async_support.hpp and the async_support.hpp of mutex/,
    semaphore/ and event/), and [async_waiter_guard]
    (mutex/support/async_waiter_guard.hpp) with the functions of
    mutex/detail/async_support.hpp around it.  [AsyncOp.v] has the protocol in which
    the operations use the guard. *)
From S2P Require Import Prelude AsyncOp.
#[local] Open Scope Z_scope.

(** ** Handlers *)

Section handlers.
(** The value of a result, an error code, and the world the handlers run in; a handler
    that owns its argument is given it, so the last step of a call is in the handler. *)
Context {T EC W : Type}.

Abbreviation expected := (T + EC)%type.

(** A handler and the types it can be called with: [std::expected] and [tl::expected]. *)
Record handler := Handler {
  with_std : option (expected -> W -> W);
  with_tl : option (expected -> W -> W)
}.

(** [NOVA_SYNC_HAS_STD_EXPECTED] and [NOVA_SYNC_HAS_TL_EXPECTED]. *)
Context (has_std has_tl : bool).

(** [std::invocable< Handler, std_expected_type >] and the other one. *)
Definition std_invocable (h : handler) : bool := match with_std h with Some _ => true | None => false end.
Definition tl_invocable (h : handler) : bool := match with_tl h with Some _ => true | None => false end.

(** The body all the functions share; [None] is the end that is not reached, the
    assertion and [std::unreachable()]. *)
Definition invoke_with (h : handler) (r : expected) (w : W) : option W :=
  match (if has_std then with_std h else None) with
  | Some f => Some (f r w)
  | None =>
      match (if has_tl then with_tl h else None) with
      | Some f => Some (f r w)
      | None => None
      end
  end.

Definition invoke_handler_success (h : handler) (value : T) : W -> option W := invoke_with h (inl value).
Definition invoke_handler_error (h : handler) (ec : EC) : W -> option W := invoke_with h (inr ec).

(** The concept the functions of the API require of a handler. *)
Definition invocable_with_expected (h : handler) : bool :=
  false || (has_std && std_invocable h) || (has_tl && tl_invocable h).

End handlers.

Arguments handler : clear implicits.

(** The overloads that take a [std::errc], and the functions of each primitive: a lock
    for mutexes, nothing for semaphores and events. *)
Section overloads.
Context {EC Errc W : Type} (make_error_code : Errc -> EC) (has_std has_tl : bool).

Definition invoke_with_lock {Lock} : handler Lock EC W -> Lock -> W -> option W := invoke_handler_success has_std has_tl.
Definition invoke_with_error {Lock} (h : handler Lock EC W) (ec : Errc) : W -> option W :=
  invoke_handler_error has_std has_tl h (make_error_code ec).

Definition invoke_void_handler_success (h : handler unit EC W) : W -> option W := invoke_handler_success has_std has_tl h tt.

Definition invoke_semaphore_success : handler unit EC W -> W -> option W := invoke_void_handler_success.
Definition invoke_semaphore_error (h : handler unit EC W) (ec : Errc) : W -> option W :=
  invoke_handler_error has_std has_tl h (make_error_code ec).

Definition invoke_event_success : handler unit EC W -> W -> option W := invoke_void_handler_success.
Definition invoke_event_error (h : handler unit EC W) (ec : Errc) : W -> option W :=
  invoke_handler_error has_std has_tl h (make_error_code ec).
End overloads.

(** A handler that the concept lets through is called, once, with what it is told:
    with [std::expected] if it takes that, and with [tl::expected] otherwise; one that
    the concept refuses would run into the end that is not reached. *)
Theorem handlers_invoked {T EC W : Type} (has_std has_tl : bool) (h : handler T EC W) r w :
  invocable_with_expected has_std has_tl h = true <->
  exists f, invoke_with has_std has_tl h r w = Some (f r w) /\
    ((has_std = true /\ with_std h = Some f) \/
     (has_std && std_invocable h = false /\ has_tl = true /\ with_tl h = Some f)).
Proof.
  unfold invoke_with, invocable_with_expected, std_invocable, tl_invocable.
  destruct h as [[f|] [g|]], has_std, has_tl; simpl; (split; [intros E|intros (f' & E & _)]); try discriminate;
    try reflexivity; eexists; (split; [reflexivity|auto]).
Qed.

(** ** [async_waiter_guard] *)

Section guard.
Context {M : Type}.

(** What the guard calls of the mutex. *)
Class WaiterMutex := {
  w_try_lock : M -> M * bool;
  w_consume_lock : M -> M;
  w_add_async_waiter : M -> M;
  w_remove_async_waiter : M -> M;
  w_waiters : M -> Z             (** the waiters it counts *)
}.

Class WaiterMutexLaws `{WaiterMutex} := {
  w_try_waiters m : w_waiters (w_try_lock m).1 = w_waiters m;
  w_consume_waiters m : w_waiters (w_consume_lock m) = w_waiters m;
  w_add_waiters m : w_waiters (w_add_async_waiter m) = w_waiters m + 1;
  w_remove_waiters m : w_waiters (w_remove_async_waiter m) = w_waiters m - 1
}.

(** Is the mutex an [async_waiter_mutex]? *)
Context `{WaiterMutex} (is_waiter : bool).

(** The mutex, and [active_]. *)
Record guard := Guard { mtx_ : M; active_ : bool }.

Definition register_async_waiter (m : M) : M := if is_waiter then w_add_async_waiter m else m.
Definition unregister_async_waiter (m : M) : M := if is_waiter then w_remove_async_waiter m else m.

Definition guard_ctor (m : M) : guard := Guard (register_async_waiter m) true.

(** With [adopt_async_waiter]. *)
Definition guard_adopt (m : M) : guard := Guard m true.

Definition release (g : guard) : guard :=
  if active_ g then Guard (unregister_async_waiter (mtx_ g)) false else g.

Definition dismiss (g : guard) : guard := Guard (mtx_ g) false.

Definition active (g : guard) : bool := active_ g.

Definition guard_dtor (g : guard) : M := mtx_ (release g).

(** The free function of mutex/detail/async_support.hpp, and the first half of
    [try_acquire()]. *)
Definition platform_try_acquire_after_wait (m : M) : M * bool :=
  let '(m', ok) := w_try_lock m in
  if negb ok then (m', false) else (if is_waiter then w_consume_lock m' else m', true).

Definition try_acquire (g : guard) : guard * bool :=
  let '(m', ok) := platform_try_acquire_after_wait (mtx_ g) in
  if negb ok then (Guard m' (active_ g), false) else (release (Guard m' (active_ g)), true).

(** [with_async_waiter( mtx, fn )]; the guard's destructor runs after a return and after
    an exception. *)
Definition with_async_waiter {R : Type} (fn : M -> M * R) (m : M) : M * R :=
  let g := guard_ctor m in let '(m', r) := fn (mtx_ g) in (guard_dtor (Guard m' (active_ g)), r).

(** What a client does with a guard, between the constructor and the destructor. *)
Inductive guard_op := GTryAcquire | GRelease | GDismiss.

Definition guard_step (g : guard) (o : guard_op) : guard :=
  match o with GTryAcquire => (try_acquire g).1 | GRelease => release g | GDismiss => dismiss g end.

Definition guard_scope (ops : list guard_op) (g : guard) : M := guard_dtor (fold_left guard_step ops g).

(** The guard was dismissed while it was active. *)
Fixpoint dismissed (g : guard) (ops : list guard_op) : bool :=
  match ops with
  | [] => false
  | o :: ops' =>
      match o with GDismiss => active_ g | _ => false end || dismissed (guard_step g o) ops'
  end.

Context `{!WaiterMutexLaws}.

(** The waiters, the guard's own one not counted. *)
Definition others (g : guard) : Z := w_waiters (mtx_ g) - (if is_waiter then Z.b2z (active_ g) else 0).

Lemma release_others g : others (release g) = others g /\ active_ (release g) = false.
Proof.
  unfold others, release, unregister_async_waiter. destruct (active_ g) eqn:E; [|by rewrite E].
  destruct is_waiter; simpl; rewrite ?w_remove_waiters; (split; [lia|done]).
Qed.

Lemma platform_try_others m a :
  others (Guard (platform_try_acquire_after_wait m).1 a) = others (Guard m a).
Proof.
  unfold others, platform_try_acquire_after_wait. pose proof (w_try_waiters m) as Ht.
  destruct (w_try_lock m) as [m' []]; simpl in *; destruct is_waiter; simpl; rewrite ?w_consume_waiters; lia.
Qed.

Lemma guard_step_others g o :
  others (guard_step g o) =
    others g + match o with GDismiss => if is_waiter then Z.b2z (active_ g) else 0 | _ => 0 end.
Proof.
  destruct o; simpl.
  - unfold try_acquire. pose proof (platform_try_others (mtx_ g) (active_ g)) as Hp.
    destruct (platform_try_acquire_after_wait (mtx_ g)) as [m' ok]. simpl in Hp.
    assert (others (Guard (mtx_ g) (active_ g)) = others g) as Eg by (by destruct g).
    destruct ok; simpl; [rewrite (proj1 (release_others _))|]; lia.
  - rewrite (proj1 (release_others _)). lia.
  - unfold others. simpl. destruct is_waiter, (active_ g); simpl; lia.
Qed.

(** A successful [try_acquire()] ends the registration. *)
Lemma try_acquire_ends g : (try_acquire g).2 = true -> active_ (try_acquire g).1 = false.
Proof.
  unfold try_acquire. destruct (platform_try_acquire_after_wait (mtx_ g)) as [m' []]; simpl; [|done].
  intros _. apply release_others.
Qed.

Lemma scope_others ops g :
  w_waiters (guard_scope ops g) = others g + (if is_waiter && dismissed g ops then 1 else 0).
Proof.
  unfold guard_scope. revert g. induction ops as [|o ops IH]; intros g; simpl.
  - unfold guard_dtor. destruct (release_others g) as [E1 E2]. unfold others in E1 at 1. rewrite E2 in E1.
    rewrite andb_false_r. cbn [Z.b2z] in E1. assert ((if is_waiter then 0 else 0) = 0) by (by destruct is_waiter). lia.
  - rewrite IH, guard_step_others. destruct is_waiter; simpl; [|destruct o; lia].
    destruct o; simpl; try lia. destruct (active_ g) eqn:E; simpl; [|by rewrite Z.add_0_r].
    assert (forall ops' g', active_ g' = false -> dismissed g' ops' = false) as Hd.
    { clear. induction ops' as [|o' ops' IH']; intros g' E'; simpl; [done|]. rewrite IH'.
      - destruct o'; by rewrite ?E'.
      - destruct o'; simpl; [|unfold release; by rewrite E'|done]. unfold try_acquire.
        destruct (platform_try_acquire_after_wait _) as [m' []]; simpl; [|done]. unfold release. simpl. by rewrite E'. }
    rewrite (Hd ops (dismiss g)) by done. lia.
Qed.

(** Whatever is done with a guard, its destructor leaves the mutex with the waiters it
    had before the constructor - and with one more exactly if the guard was dismissed
    while active, which hands the registration to the caller; with the adopting
    constructor, with those less the adopted one.  [with_async_waiter] keeps them, also
    around a function that throws, and inside it there is one more. *)
Theorem guard_registrations {R : Type} ops (m : M) (fn : M -> M * R) :
  w_waiters (guard_scope ops (guard_ctor m)) =
    w_waiters m + (if is_waiter && dismissed (guard_ctor m) ops then 1 else 0) /\
  w_waiters (guard_scope ops (guard_adopt m)) =
    w_waiters m - (if is_waiter && negb (dismissed (guard_adopt m) ops) then 1 else 0) /\
  w_waiters (mtx_ (guard_ctor m)) = w_waiters m + Z.b2z is_waiter /\
  ((forall m', w_waiters (fn m').1 = w_waiters m') -> w_waiters (with_async_waiter fn m).1 = w_waiters m).
Proof.
  assert (others (guard_ctor m) = w_waiters m) as Ec.
  { unfold others, guard_ctor, register_async_waiter. destruct is_waiter; simpl; rewrite ?w_add_waiters; lia. }
  split_and!.
  - by rewrite scope_others, Ec.
  - rewrite scope_others. unfold others, guard_adopt. destruct is_waiter; simpl; [|lia].
    destruct (dismissed _ ops); simpl; lia.
  - unfold guard_ctor, register_async_waiter. destruct is_waiter; simpl; rewrite ?w_add_waiters; lia.
  - intros Hfn. unfold with_async_waiter. specialize (Hfn (mtx_ (guard_ctor m))).
    destruct (fn (mtx_ (guard_ctor m))) as [m' r]. simpl in *.
    pose proof (scope_others [] (Guard m' true)) as Hs. unfold guard_scope in Hs. simpl in Hs.
    unfold others in Hs, Ec. simpl in *. rewrite andb_false_r in Hs. destruct is_waiter; simpl in *; lia.
Qed.
End guard.

(** ** Witnesses *)

(** A mutex that counts its waiters and is taken or not. *)
#[local] Instance counting_mutex : WaiterMutex (M := bool * Z) := {
  w_try_lock := fun m => (true, m.2, negb m.1);
  w_consume_lock := id;
  w_add_async_waiter := fun m => (m.1, m.2 + 1);
  w_remove_async_waiter := fun m => (m.1, m.2 - 1);
  w_waiters := snd
}.

#[local] Instance counting_mutex_laws : WaiterMutexLaws (M := bool * Z).
Proof. by constructor. Qed.

(** A function that takes the lock and throws. *)
Lemma guard_registrations_witness :
  w_waiters (guard_scope true [GTryAcquire; GRelease; GTryAcquire] (guard_ctor true (false, 3))) = 3 /\
  w_waiters (with_async_waiter true (R := unit + Z) (fun m => (true, m.2, inr 1)) (false, 3)).1 = 3.
Proof.
  destruct (guard_registrations true (R := unit + Z) [GTryAcquire; GRelease; GTryAcquire] (false, 3)
    (fun m => (true, m.2, inr 1))) as (E1 & _ & _ & E2). split; [exact E1|]. by apply E2.
Defined.

(** A handler that takes [tl::expected] only, on a platform with both. *)
Definition tl_handler : handler Z Z (list (Z + Z)) := Handler None (Some (fun r w => w ++ [r])).

Lemma handlers_invoked_witness :
  exists f, invoke_with true true tl_handler (inl 7) [] = Some (f (inl 7) []) /\
    ((true = true /\ with_std tl_handler = Some f) \/
     (true && std_invocable tl_handler = false /\ true = true /\ with_tl tl_handler = Some f)).
Proof. apply (handlers_invoked true true tl_handler (inl 7) []). reflexivity. Defined.
