(* ===== verification/AsioAcquire.v ===== *)
(** * Asynchronous acquisition on Boost.Asio

    The operations of mutex/support/boost_asio_support.hpp,
    semaphore/support/boost_asio_support.hpp and event/support/boost_asio_support.hpp:
    [async_acquire], [async_acquire_cancellable], [async_wait] and
    [async_wait_cancellable] with their operation objects, as one machine.  The
    machine has one operation and any number of threads: the one that starts it,
    threads that run the [io_context], and threads that cancel it.

    What is relied on of Boost.Asio: a handler passed to [async_wait] on a
    descriptor is called once, by a thread that runs the [io_context], after the
    descriptor became readable, failed or was cancelled; [cancel()] affects only a
    wait that is pending.  The primitive is seen through the results of the calls,
    each of which the environment chooses.

    The overloads that return a future are in [AsioFuture.v]. *)
From S2P Require Import Prelude Machine AsyncOp.
#[local] Open Scope Z_scope.

(** The operation objects. *)
Inductive flavour :=
| MutexOp (async_waiter : bool)  (** [async_acquire_op]; is the mutex an [async_waiter_mutex]? *)
| PlainOp                        (** [async_semaphore_acquire_op], [async_event_wait_op] *)
| CancellableOp.                 (** [async_semaphore_acquire_cancellable_op], [async_event_wait_cancellable_op] *)

Definition is_mutex (fl : flavour) : bool := match fl with MutexOp _ => true | _ => false end.

(** The operations that [cancel()] tells by a flag. *)
Definition has_flag (fl : flavour) : bool := match fl with PlainOp => false | _ => true end.

(** On Windows the wait for a semaphore or an event consumes it. *)
Definition wait_takes (fl : flavour) (windows : bool) : bool := windows && negb (is_mutex fl).

(** The descriptor [sd_]: no wait, a pending wait, or a completed wait whose
    handler has not run, with an error code or without. *)
Inductive wait := Quiet | Waiting | Completed (bec : bool).

Definition waits (w : wait) : bool := match w with Quiet => false | _ => true end.

Record op := Op {
  started : bool;
  handle : bool;                   (** the caller has the [..._handle] of the operation *)
  cancellation_requested_ : bool;
  handler_invoked_ : bool;
  waiter_guard_ : bool;            (** [waiter_guard_.active()] *)
  sd_ : wait;
  posted : bool;                   (** the handler was passed to [boost::asio::dispatch] *)
  book : ledger                    (** ghost *)
}.

Definition set_sd (w : wait) (s : op) : op :=
  Op (started s) (handle s) (cancellation_requested_ s) (handler_invoked_ s) (waiter_guard_ s) w (posted s) (book s).
Definition set_posted (b : bool) (s : op) : op :=
  Op (started s) (handle s) (cancellation_requested_ s) (handler_invoked_ s) (waiter_guard_ s) (sd_ s) b (book s).
Definition set_book (g : ledger) (s : op) : op :=
  Op (started s) (handle s) (cancellation_requested_ s) (handler_invoked_ s) (waiter_guard_ s) (sd_ s) (posted s) g.

Inductive pc :=
| Idle
| TryNow                   (** [async_acquire]: [try_lock()], [try_acquire()], [try_wait()] *)
| Dispatch                 (** [async_acquire]: [boost::asio::dispatch] *)
| Construct                (** the constructor of the operation registers the waiter *)
| StartWait                (** [start_wait()] *)
| CancelStore              (** [cancel()]: store [cancellation_requested_] *)
| CancelWait               (** [cancel()]: [sd_->cancel()] *)
| OnWait (bec : bool)      (** the handler of the wait *)
| Retry                    (** in the handler: try to acquire *)
| Consume                  (** [waiter_guard_.try_acquire()]: [consume_lock()] *)
| Release (r : outcome)    (** [waiter_guard_.release()] *)
| Mark (r : outcome)       (** compare-exchange of [handler_invoked_] *)
| Invoke (r : outcome).    (** call [handler_] *)

Inductive choice :=
| Start               (** a client starts the operation *)
| Cancel              (** a client calls [cancel()] on the handle, or destroys it *)
| Ready (bec : bool)  (** the reactor completes the wait *)
| RunHandler          (** the [io_context] runs the handler of the wait *)
| RunPosted           (** the [io_context] runs the dispatched handler *)
| Act (b : bool).     (** the next step; the result of a try, or whether [dispatch] calls inline *)

Section machine.
Context (fl : flavour) (windows : bool).

(** [async_acquire_op( ioc, dup_fd, mtx, handler )] or the one without a guard. *)
Definition construct (s : op) : op :=
  match fl with
  | MutexOp w =>
      Op (started s) (handle s) (cancellation_requested_ s) (handler_invoked_ s) true (sd_ s) (posted s)
        (add_registered (Z.b2z w) (book s))
  | _ => s
  end.

(** [start_wait()]; the first one ends [async_acquire_cancellable]. *)
Definition start_wait (s : op) : op :=
  Op (started s) (has_flag fl) (cancellation_requested_ s) (handler_invoked_ s) (waiter_guard_ s) Waiting
    (posted s) (book s).

(** [cancel()]. *)
Definition request_cancellation (s : op) : op :=
  Op (started s) (handle s) true (handler_invoked_ s) (waiter_guard_ s) (sd_ s) (posted s) (book s).

Definition cancel_wait (s : op) : op :=
  match sd_ s with Waiting => set_sd (Completed true) s | _ => s end.

(** The reactor: a readable descriptor, or an error. *)
Definition complete (bec : bool) (s : op) : op :=
  set_book (if negb bec && wait_takes fl windows then add_taken 1 (book s) else book s) (set_sd (Completed bec) s).

Definition fail : pc :=
  match fl with MutexOp _ => Release Canceled | PlainOp => Invoke Canceled | CancellableOp => Mark Canceled end.

Definition succeed : pc :=
  match fl with MutexOp _ => Consume | PlainOp => Invoke Acquired | CancellableOp => Mark Acquired end.

(** The handler of the wait up to its attempt to acquire. *)
Definition on_wait (bec : bool) (s : op) : pc :=
  if (has_flag fl && cancellation_requested_ s) || bec then fail
  else if wait_takes fl windows then succeed else Retry.

(** [waiter_guard_.release()]. *)
Definition release_guard (s : op) : op :=
  if waiter_guard_ s then
    Op (started s) (handle s) (cancellation_requested_ s) (handler_invoked_ s) false (sd_ s) (posted s)
      (add_registered (match fl with MutexOp w => - Z.b2z w | _ => 0 end) (book s))
  else s.

(** [handler_invoked_.compare_exchange_strong( expected, true )]. *)
Definition mark (s : op) : op * bool :=
  if handler_invoked_ s then (s, false)
  else (Op (started s) (handle s) (cancellation_requested_ s) true (waiter_guard_ s) (sd_ s) (posted s) (book s), true).

Definition begin (s : op) : op :=
  Op true (handle s) (cancellation_requested_ s) (handler_invoked_ s) (waiter_guard_ s) (sd_ s) (posted s) (book s).

Definition tstep (tid : nat) (ch : choice) (s : op) (l : pc) : option (op * pc) :=
  match l, ch with
  | Idle, Start => if started s then None else Some (begin s, TryNow)
  | TryNow, Act true => Some (set_book (add_taken 1 (book s)) s, Dispatch)
  | TryNow, Act false => Some (s, if is_mutex fl then Construct else StartWait)
  | Dispatch, Act inline => if inline then Some (s, Invoke Acquired) else Some (set_posted true s, Idle)
  | Construct, Act _ => Some (construct s, StartWait)
  | StartWait, Act _ => Some (start_wait s, Idle)
  | Idle, Cancel => if handle s then Some (s, CancelStore) else None
  | CancelStore, Act _ => Some (request_cancellation s, CancelWait)
  | CancelWait, Act _ => Some (cancel_wait s, Idle)
  | Idle, Ready bec => match sd_ s with Waiting => Some (complete bec s, Idle) | _ => None end
  | Idle, RunHandler =>
      match sd_ s with Completed bec => Some (set_sd Quiet s, OnWait bec) | _ => None end
  | Idle, RunPosted => if posted s then Some (set_posted false s, Invoke Acquired) else None
  | OnWait bec, Act _ => Some (s, on_wait bec s)
  | Retry, Act true => Some (set_book (add_taken 1 (book s)) s, succeed)
  | Retry, Act false => Some (s, StartWait)
  | Consume, Act _ => Some (s, Release Acquired)
  | Release r, Act _ => Some (release_guard s, Invoke r)
  | Mark r, Act _ => let '(s', ok) := mark s in Some (s', if ok then Invoke r else Idle)
  | Invoke r, Act _ => Some (set_book (add_call r (book s)) s, Idle)
  | _, _ => None
  end.
End machine.

(** The operations of the source. *)
Definition async_acquire_op (async_waiter : bool) := tstep (MutexOp async_waiter).
Definition async_semaphore_acquire_op := tstep PlainOp.
Definition async_semaphore_acquire_cancellable_op := tstep CancellableOp.
Definition async_event_wait_op := tstep PlainOp.
Definition async_event_wait_cancellable_op := tstep CancellableOp.

Definition new_op : op := Op false false false false false Quiet false fresh.

Definition init (n : nat) : config op pc := Config new_op (replicate n Idle).

(** ** The invariant *)

(** The thread carries the operation. *)
Definition live (l : pc) : bool :=
  match l with Idle | CancelStore | CancelWait => false | _ => true end.

(** The thread has the lock or token. *)
Definition holding (l : pc) : bool :=
  match l with Dispatch | Consume | Release Acquired | Mark Acquired | Invoke Acquired => true | _ => false end.

(** The thread is before the registration of the waiter or after its end. *)
Definition unregistered (l : pc) : bool :=
  match l with TryNow | Dispatch | Construct | Mark _ | Invoke _ => true | _ => false end.

Definition marked (l : pc) : bool := match l with Invoke _ => true | _ => false end.

(** The program points of each operation. *)
Definition shape (fl : flavour) (l : pc) : bool :=
  match l with
  | Construct | Consume | Release _ => is_mutex fl
  | Mark _ => match fl with CancellableOp => true | _ => false end
  | _ => true
  end.

Record Inv (fl : flavour) (windows : bool) (c : config op pc) : Prop := {
  inv_live : Z.b2z (started (shared c)) =
    count live (threads c) + Z.b2z (posted (shared c)) + Z.b2z (waits (sd_ (shared c))) + calls (book (shared c));
  inv_mark : handler_invoked_ (shared c) = true -> 1 <= count marked (threads c) + calls (book (shared c));
  inv_taken : wait_takes fl windows = false ->
    taken (book (shared c)) =
      count holding (threads c) + Z.b2z (posted (shared c)) + successes (book (shared c));
  inv_guard : waiter_guard_ (shared c) = true -> is_mutex fl = true /\ started (shared c) = true /\
    count unregistered (threads c) = 0 /\ posted (shared c) = false /\ calls (book (shared c)) = 0;
  inv_registered : registered (book (shared c)) =
    match fl with MutexOp w => Z.b2z (w && waiter_guard_ (shared c)) | _ => 0 end;
  inv_shape : Forall (fun l => shape fl l = true) (threads c)
}.

Lemma unregistered_live l : unregistered l = true -> live l = true.
Proof. by destruct l. Qed.

Lemma marked_live l : marked l = true -> live l = true.
Proof. by destruct l. Qed.

Lemma asio_init_ok fl windows n : Inv fl windows (init n).
Proof.
  constructor; simpl; rewrite ?count_replicate by done; try done.
  - by destruct fl as [[]| |].
  - by apply Forall_replicate.
Qed.

(** The three ways a handler of a wait goes on. *)
Lemma on_wait_cases fl windows bec s :
  on_wait fl windows bec s = fail fl \/
  (on_wait fl windows bec s = Retry /\ wait_takes fl windows = false) \/
  (on_wait fl windows bec s = succeed fl /\ wait_takes fl windows = true).
Proof.
  unfold on_wait. destruct (_ || bec); [by left|]. destruct (wait_takes fl windows); auto.
Qed.

(** Case analysis of a step. *)
Ltac asio_cases Hs :=
  match type of Hs with
  | tstep ?fl ?w _ ?ch ?s ?l = _ =>
      destruct l as [| | | | | | |bec| | |r|r|r], ch as [| |bec'| | |b]; try discriminate Hs; simpl in Hs;
      try (destruct (on_wait_cases fl w bec s) as [Ew|[[Ew Et]|[Ew Et]]]; rewrite Ew in Hs; clear Ew);
      try (is_var fl; destruct fl as [aw| |])
  end;
  unfold mark, release_guard, construct, succeed, fail, cancel_wait, complete in Hs; step_cases Hs.

Lemma holding_live l : holding l = true -> live l = true.
Proof. by destruct l as [| | | | | | | | | |[]|[]|[]]. Qed.

(** The thread is in the handler of a wait that completed without an error. *)
Definition waited (l : pc) : bool := match l with OnWait false => true | _ => false end.

Lemma waited_live l : waited l = true -> live l = true.
Proof. by destruct l. Qed.

Definition readable (w : wait) : bool := match w with Completed false => true | _ => false end.

(** The thread is about to call the handler with [operation_canceled]. *)
Definition canceling (l : pc) : bool :=
  match l with Release Canceled | Mark Canceled | Invoke Canceled => true | _ => false end.

Lemma canceling_live l : canceling l = true -> live l = true.
Proof. by destruct l. Qed.

Definition failures (g : ledger) : Z := calls g - successes g.

(** Tokens that waits have consumed, and whose handlers have not looked yet. *)
Definition in_wait (fl : flavour) (windows : bool) (c : config op pc) : Z :=
  Z.b2z (wait_takes fl windows) * (count waited (threads c) + Z.b2z (readable (sd_ (shared c)))).

(** What the operation took and neither has in hand nor gave to its handler. *)
Definition lost (fl : flavour) (windows : bool) (c : config op pc) : Z :=
  taken (book (shared c)) - successes (book (shared c)) - count holding (threads c) - Z.b2z (posted (shared c))
  - in_wait fl windows c.

(** Split the conditionals of the goal and count. *)
Ltac asio_count :=
  repeat match goal with |- context [match ?x with _ => _ end] => destruct x eqn:? end;
  repeat (autorewrite with ledger; simpl;
    try match goal with H : _ ?s = _ |- context [_ ?s] => rewrite H end); try lia.

(** Who carries the operation is the only one who does. *)
Definition carrier (s : op) (l : pc) : Prop :=
  live l = true -> waits (sd_ s) = false /\ posted s = false /\ started s = true /\ calls (book s) = 0.

Definition unmarked (s : op) (l : pc) : Prop := handler_invoked_ s = true -> forall r, l <> Mark r.

Section step.
Context (fl : flavour) (windows : bool) (i : nat) (ch : choice) (s s' : op) (l l' : pc).
Hypothesis Hs : tstep fl windows i ch s l = Some (s', l').
Hypothesis Hl : shape fl l = true.
Hypothesis Ha : carrier s l.
Hypothesis Hm : unmarked s l.

Lemma asio_shape : shape fl l' = true.
Proof using Hs Hl. clear Ha Hm. asio_cases Hs; done. Qed.

Ltac carried :=
  unfold carrier, unmarked in *; asio_cases Hs; simpl in *; try discriminate;
  try destruct (Ha eq_refl) as (? & ? & ? & ?); try (by edestruct (Hm eq_refl)).

(** What a step does to the counters of the invariant. *)
Lemma asio_live :
  Z.b2z (started s') - Z.b2z (started s) =
    Z.b2z (live l') - Z.b2z (live l) + (Z.b2z (posted s') - Z.b2z (posted s)) +
    (Z.b2z (waits (sd_ s')) - Z.b2z (waits (sd_ s))) + (calls (book s') - calls (book s)).
Proof using Hs Hl Ha Hm. carried; asio_count. Qed.

Lemma asio_taken :
  wait_takes fl windows = false ->
  taken (book s') - taken (book s) =
    Z.b2z (holding l') - Z.b2z (holding l) + (Z.b2z (posted s') - Z.b2z (posted s)) +
    (successes (book s') - successes (book s)).
Proof using Hs Hl Ha Hm. intros Ht. carried; rewrite ?Ht, ?andb_false_r; try congruence; asio_count. Qed.

(** A token is lost only in the handler of a wait that consumed it, when that sees
    the cancellation. *)
Lemma asio_lost_step :
  let d := taken (book s') - taken (book s) - (successes (book s') - successes (book s))
    - (Z.b2z (holding l') - Z.b2z (holding l)) - (Z.b2z (posted s') - Z.b2z (posted s))
    - Z.b2z (wait_takes fl windows)
      * (Z.b2z (waited l') - Z.b2z (waited l) + (Z.b2z (readable (sd_ s')) - Z.b2z (readable (sd_ s)))) in
  0 <= d /\
  d <= Z.b2z (canceling l') - Z.b2z (canceling l) + (failures (book s') - failures (book s)) /\
  (d <> 0 -> wait_takes fl windows = true /\ has_flag fl = true /\ cancellation_requested_ s = true) /\
  (cancellation_requested_ s = true -> cancellation_requested_ s' = true).
Proof using Hs Hl Ha Hm.
  unfold failures, carrier, unmarked in *.
  assert ((exists bec, l = OnWait bec) \/ forall bec, l <> OnWait bec) as [[bec ->]|Hn] by (destruct l; eauto).
  - simpl in Hs. unfold on_wait in Hs. destruct ch; try discriminate Hs. simplify_eq.
    destruct fl as [[]| |], windows, (cancellation_requested_ s'), bec; simpl; lia || (split_and!; (done || lia)).
  - asio_cases Hs; try (by edestruct Hn); try (by edestruct (Hm eq_refl));
      try (destruct (Ha eq_refl) as (Ew & ? & ? & ?); destruct (sd_ s) eqn:?; try discriminate Ew);
      unfold wait_takes in *; destruct windows; simplify_eq/=; split_and!; try done; asio_count; intros; (lia || congruence || simplify_eq/=; lia).
Qed.

Lemma asio_marked :
  handler_invoked_ s' = true ->
  (handler_invoked_ s = true /\
     Z.b2z (marked l) + calls (book s) <= Z.b2z (marked l') + calls (book s')) \/ marked l' = true.
Proof using Hs Hl Ha Hm. carried; asio_count; intros; first [by right | left; split; [done|lia] | congruence]. Qed.

Lemma asio_guard :
  (waiter_guard_ s = true -> is_mutex fl = true /\ started s = true /\ unregistered l = false /\ posted s = false) ->
  waiter_guard_ s' = true ->
  is_mutex fl = true /\ started s' = true /\ unregistered l' = false /\ posted s' = false /\
  (unregistered l = false -> waiter_guard_ s = true) /\ calls (book s') = calls (book s).
Proof using Hs Hl Ha Hm.
  intros Hg. carried; intros Hg'; repeat (case_match; simpl in * ); simplify_eq; try congruence;
    try destruct (Hg eq_refl) as (? & ? & ? & ?); try destruct (Hg Hg') as (? & ? & ? & ?); simplify_eq/=; try tauto;
    by split_and!.
Qed.

Definition registrations (s : op) : Z :=
  match fl with MutexOp w => Z.b2z (w && waiter_guard_ s) | _ => 0 end.

Lemma asio_registered :
  (waiter_guard_ s = true -> unregistered l = false) ->
  registered (book s) = registrations s -> registered (book s') = registrations s'.
Proof using Hs Hl Ha Hm.
  unfold registrations. intros Hg Hr. carried; repeat (case_match; simpl in * ); simplify_eq/=;
    rewrite ?Hr; try lia; try congruence; try (by destruct aw).
  destruct (waiter_guard_ s); [by specialize (Hg eq_refl)|]. by destruct aw.
Qed.
End step.

Lemma alone_inv fl windows c i l :
  Inv fl windows c -> threads c !! i = Some l -> carrier (shared c) l /\ unmarked (shared c) l.
Proof.
  intros [Hl Hm _ _ _ _] Hi. pose proof (successes_calls (book (shared c))).
  pose proof (count_others live _ _ _ Hi) as Hc. pose proof (count_others_le _ _ _ _ _ marked_live Hi) as Hk. split.
  - intros E. rewrite E in Hc. destruct (started _), (posted _), (waits _); simpl in *; split_and!; (done || lia).
  - intros E r ->. specialize (Hm E). simpl in *.
    destruct (started _), (posted _), (waits _); simpl in *; lia.
Qed.

Lemma asio_step_ok fl windows i ch c l s' l' :
  Inv fl windows c -> threads c !! i = Some l -> tstep fl windows i ch (shared c) l = Some (s', l') ->
  Inv fl windows (Config s' (<[i := l']> (threads c))).
Proof.
  intros HI Hi Hs. destruct (alone_inv _ _ _ _ _ HI Hi) as [Ha Hm].
  destruct HI as [Il Im It Ig Ir Is]. pose proof (Forall_lookup_1 _ _ _ _ Is Hi) as Hl. simpl in Hl.
  pose proof (asio_live _ _ _ _ _ _ _ _ Hs Hl Ha Hm) as Hlive.
  pose proof (asio_marked _ _ _ _ _ _ _ _ Hs Hl Ha Hm) as Hmark.
  assert (waiter_guard_ (shared c) = true -> unregistered l = false) as Hu.
  { intros E. destruct (Ig E) as (_ & _ & Hu & _). destruct (unregistered l) eqn:El; [|done].
    pose proof (count_pos _ _ _ _ Hi El). lia. }
  pose proof (count_others marked _ _ _ Hi). pose proof (count_others unregistered _ _ _ Hi).
  pose proof (count_others_le _ _ _ _ _ unregistered_live Hi). pose proof (successes_calls (book s')).
  constructor; cbn [shared threads]; rewrite ?(count_insert _ _ _ _ _ Hi).
  - lia.
  - intros E. specialize (Hmark E) as [[E' Hle]|E']; [specialize (Im E'); lia|]. rewrite E'. simpl. lia.
  - intros Ht. pose proof (asio_taken _ _ _ _ _ _ _ _ Hs Hl Ha Hm Ht). specialize (It Ht). lia.
  - intros E.
    destruct (asio_guard _ _ _ _ _ _ _ _ Hs Hl Ha Hm) as (? & ? & E1 & ? & E2 & E3); [|done|].
    { intros E'. destruct (Ig E') as (? & ? & _ & ? & _). auto. }
    rewrite E1, E3. destruct (unregistered l) eqn:El.
    + assert (live l = true) as Elive by (by destruct l). destruct (Ha Elive) as (? & ? & Est & ?).
      assert (posted s' = false) as Ep by done. rewrite Elive, Est in *.
      split_and!; try done; destruct (posted (shared c)), (waits (sd_ (shared c))); simpl in *; lia.
    + destruct (Ig (E2 eq_refl)) as (_ & _ & ? & _ & ?). split_and!; (done || simpl; lia).
  - rewrite (asio_registered _ _ _ _ _ _ _ _ Hs Hl Ha Hm Hu); [done|]. exact Ir.
  - apply Forall_insert; [done|]. by eapply asio_shape.
Qed.

Lemma asio_inv_reachable fl windows n c : reachable (tstep fl windows) (init n) c -> Inv fl windows c.
Proof. apply invariant_reachable; [apply asio_init_ok|]. intros. by eapply asio_step_ok. Qed.

(** Unless the wait takes tokens, what was taken was given to the handler. *)
Lemma asio_result fl windows n c r :
  wait_takes fl windows = false -> reachable (tstep fl windows) (init n) c -> delivered (book (shared c)) = [r] ->
  taken (book (shared c)) = Z.b2z (is_acquired r).
Proof.
  intros Hw [Hl _ Ht _ _ _]%asio_inv_reachable Hd. rewrite (Ht Hw).
  unfold calls, successes in *. rewrite Hd in *. rewrite count_one. simpl in *.
  pose proof (count_le _ _ (threads c) holding_live). pose proof (count_bounds holding (threads c)).
  destruct (started _), (posted _), (waits _); simpl in *; lia.
Qed.

(** At most one token is lost, and only on Windows by a cancelled operation. *)
Definition Losses (fl : flavour) (windows : bool) (c : config op pc) : Prop :=
  0 <= lost fl windows c <= count canceling (threads c) + failures (book (shared c)) /\
  (lost fl windows c <> 0 ->
     wait_takes fl windows = true /\ has_flag fl = true /\ cancellation_requested_ (shared c) = true).

Lemma asio_losses fl windows n c : reachable (tstep fl windows) (init n) c -> Losses fl windows c.
Proof.
  intros Hr. cut (Inv fl windows c /\ Losses fl windows c); [tauto|]. revert c Hr. apply invariant_reachable.
  - split; [apply asio_init_ok|]. unfold Losses, lost, in_wait, failures. simpl. rewrite !count_replicate by done.
    rewrite Z.mul_0_r. simpl. split; [done|]. by intros [].
  - intros i ch c l s' l' [HI [Hb Hw]] Hi Hs. split; [by eapply asio_step_ok|].
    destruct (alone_inv _ _ _ _ _ HI Hi) as [Ha Hm].
    pose proof (Forall_lookup_1 _ _ _ _ (inv_shape _ _ _ HI) Hi) as Hl. simpl in Hl.
    destruct (asio_lost_step _ _ _ _ _ _ _ _ Hs Hl Ha Hm) as (H1 & H2 & H3 & H4).
    unfold Losses, lost, in_wait in *. cbn [shared threads]. rewrite !(count_insert _ _ _ _ _ Hi).
    destruct (wait_takes fl windows); simpl Z.b2z in *; (split; [lia|]); intros Hn.
    + assert (has_flag fl = true /\ cancellation_requested_ (shared c) = true) as [? ?]; [|auto].
      match type of H3 with ?x <> 0 -> _ => destruct (decide (x = 0)) as [Hz|Hz]; [|by destruct (H3 Hz) as (_ & ? & ?)] end.
      destruct Hw as (_ & ? & ?); [lia|done].
    + match type of H3 with ?x <> 0 -> _ => destruct (decide (x = 0)) as [Hz|Hz]; [|by destruct (H3 Hz)] end.
      destruct Hw as [? _]; [lia|done].
Qed.

(** What an operation whose handler was called has, on every system. *)
Lemma asio_finished fl windows n c r :
  reachable (tstep fl windows) (init n) c -> delivered (book (shared c)) = [r] ->
  exists gone, taken (book (shared c)) = Z.b2z (is_acquired r) + gone /\ 0 <= gone <= 1 /\
    (gone <> 0 -> wait_takes fl windows = true /\ has_flag fl = true /\ r = Canceled).
Proof.
  intros Hreach Hd. pose proof (asio_losses _ _ _ _ Hreach) as [Hlost Hwhy].
  apply asio_inv_reachable in Hreach as [Hl _ _ _ _ _].
  exists (lost fl windows c). unfold failures, calls, successes in *. rewrite Hd, ?count_one in *. simpl in *.
  pose proof (count_bounds live (threads c)).
  assert (count live (threads c) = 0 /\ posted (shared c) = false /\ waits (sd_ (shared c)) = false) as (E1 & E2 & E3)
    by (destruct (started _), (posted _), (waits _); simpl in Hl; split_and!; (done || lia)).
  pose proof (count_le _ _ (threads c) holding_live). pose proof (count_bounds holding (threads c)).
  pose proof (count_le _ _ (threads c) canceling_live). pose proof (count_bounds canceling (threads c)).
  pose proof (count_le _ _ (threads c) waited_live). pose proof (count_bounds waited (threads c)).
  assert (lost fl windows c = taken (book (shared c)) - Z.b2z (is_acquired r)) as E.
  { unfold lost, in_wait, successes. rewrite Hd, count_one, E2. destruct (sd_ _); try done. simpl.
    destruct (wait_takes _ _); simpl; lia. }
  split_and!; [lia|lia|destruct r; simpl in *; lia|].
  intros Hg. destruct (Hwhy Hg) as (? & ? & _). split_and!; [done..|]. destruct r; [simpl in *; lia|done].
Qed.

(** An operation gives back no token it does not have. *)
Lemma asio_nonneg fl windows n c : reachable (tstep fl windows) (init n) c -> 0 <= taken (book (shared c)).
Proof.
  intros Hr. destruct (asio_losses _ _ _ _ Hr) as [Hl _]. unfold lost, in_wait in Hl.
  pose proof (successes_calls (book (shared c))). pose proof (count_bounds holding (threads c)).
  pose proof (count_bounds waited (threads c)).
  destruct (posted _), (wait_takes _ _), (readable _); cbn [Z.b2z] in Hl; lia.
Qed.

(** The handler is called by the operation, and only by it. *)
Lemma asio_started fl windows i ch s l s' l' :
  tstep fl windows i ch s l = Some (s', l') -> started s = true -> started s' = true.
Proof.
  intros Hs Hst. asio_cases Hs; simpl; repeat case_match; try done; congruence.
Qed.

Lemma asio_delivered fl windows i ch s l s' l' :
  tstep fl windows i ch s l = Some (s', l') -> carrier s l ->
  delivered (book s') = delivered (book s) \/
  started s = true /\ started s' = true /\ exists r, delivered (book s') = delivered (book s) ++ [r].
Proof.
  intros Hs Ha. unfold carrier in Ha.
  asio_cases Hs; simpl in *; try (left; repeat case_match; done);
    destruct (Ha eq_refl) as (_ & _ & ? & _); right; eauto.
Qed.

(** ** The calls on the mutex *)

(** The call a thread makes in its next step. *)
Definition mutex_call (s : op) (l : pc) : option AsyncOp.mutex_call :=
  match l with
  | TryNow => Some TryLock
  | Construct => Some AddGuard
  | Retry => Some TryAcquire
  | Consume => Some ConsumeLock
  | Release _ => if waiter_guard_ s then Some ReleaseGuard else None
  | _ => None
  end.

Definition consuming (l : pc) : bool := match l with Consume => true | _ => false end.

(** The thread carries the operation, and the guard is active. *)
Definition guarded (l : pc) : bool :=
  match l with StartWait | OnWait _ | Retry | Consume | Release _ => true | _ => false end.

Lemma consuming_live l : consuming l = true -> live l = true.
Proof. by destruct l. Qed.

Section calls.
Context (guards : bool).

(** From its construction to its release the guard is active. *)
Definition armed (c : config op pc) : Prop :=
  1 <= count guarded (threads c) \/ waits (sd_ (shared c)) = true -> waiter_guard_ (shared c) = true.

Lemma guarded_live l : guarded l = true -> live l = true.
Proof. by destruct l. Qed.

Lemma asio_armed_step i ch s s' l l' :
  tstep (MutexOp guards) false i ch s l = Some (s', l') -> shape (MutexOp guards) l = true ->
  (guarded l = true \/ waits (sd_ s) = true -> waiter_guard_ s = true) ->
  (guarded l' = true \/ waits (sd_ s') = true -> waiter_guard_ s' = true \/ (live l = true /\ waits (sd_ s) = true)) /\
  (waiter_guard_ s = true -> waiter_guard_ s' = true \/ live l = true).
Proof.
  intros Hs Hl Ha. asio_cases Hs; simpl in *; intuition (try congruence); repeat case_match; simpl in *; auto;
    by match goal with E : sd_ ?s = _, H : waits (sd_ ?s) = true |- _ => rewrite E in H end.
Qed.

Lemma asio_armed n c : reachable (tstep (MutexOp guards) false) (init n) c -> armed c.
Proof.
  intros Hr. cut (Inv (MutexOp guards) false c /\ armed c); [tauto|]. revert c Hr. apply invariant_reachable.
  - split; [apply asio_init_ok|]. unfold armed. simpl. rewrite count_replicate by done. lia.
  - intros i ch c l s' l' [HI Ha] Hi Hs. split; [by eapply asio_step_ok|].
    destruct (alone_inv _ _ _ _ _ HI Hi) as [Hc _].
    pose proof (Forall_lookup_1 _ _ _ _ (inv_shape _ _ _ HI) Hi) as Hl. simpl in Hl.
    destruct (asio_armed_step i ch (shared c) s' l l' Hs Hl) as [H1 H2].
    { intros [E|E]; apply Ha; [left; by eapply count_pos|by right]. }
    unfold armed. cbn [shared threads]. rewrite (count_insert _ _ _ _ _ Hi). intros Hg.
    pose proof (count_others_le _ _ _ _ _ guarded_live Hi) as Hle. pose proof (count_others guarded _ _ _ Hi).
    pose proof (inv_live _ _ _ HI) as Hlive. pose proof (successes_calls (book (shared c))).
    pose proof (count_others live _ _ _ Hi).
    destruct (guarded l') eqn:Eg; [destruct H1 as [?|[E1 E2]]; auto; by destruct (Hc E1); congruence|].
    destruct (waits (sd_ s')) eqn:Ew; [destruct H1 as [?|[E1 E2]]; auto; by destruct (Hc E1); congruence|].
    assert (1 <= count guarded (threads c)) as Hg' by (destruct (guarded l); simpl in *; destruct Hg; (done || lia)).
    destruct (H2 (Ha (or_introl Hg'))) as [?|E]; [done|].
    destruct (Hc E) as (E1 & E2 & E3 & E4).
    rewrite E1, E2, E3, E4 in Hlive. rewrite E in *. simpl in *. destruct Hg; (done || lia).
Qed.
End calls.

(** What the ledger says while a thread carries an operation on an
    [async_waiter_mutex]. *)
Lemma asio_carried n c i l :
  reachable (tstep (MutexOp true) false) (init n) c -> threads c !! i = Some l -> live l = true ->
  taken (book (shared c)) = Z.b2z (holding l) /\ registered (book (shared c)) = Z.b2z (waiter_guard_ (shared c)) /\
  count consuming (threads c) = Z.b2z (consuming l) /\ (guarded l = true -> waiter_guard_ (shared c) = true) /\
  (waiter_guard_ (shared c) = true -> unregistered l = false) /\ count live (threads c) = 1.
Proof.
  intros Hr Hi El. pose proof (asio_armed _ _ _ Hr) as Ha. apply asio_inv_reachable in Hr as HI.
  destruct (alone_inv _ _ _ _ _ HI Hi) as [Hc _]. destruct (Hc El) as (E1 & E2 & E3 & E4).
  destruct HI as [Il _ It Ig Ir _]. rewrite E1, E2, E3, E4 in Il.
  pose proof (successes_calls (book (shared c))).
  pose proof (count_others_le _ _ _ _ _ holding_live Hi). pose proof (count_others holding _ _ _ Hi).
  pose proof (count_others_le _ _ _ _ _ consuming_live Hi). pose proof (count_others consuming _ _ _ Hi).
  rewrite El in *. simpl in *. split_and!; try lia.
  - rewrite It, E2 by done. simpl. lia.
  - intros Eg. apply Ha. left. by eapply count_pos.
  - intros Eg. destruct (Ig Eg) as (_ & _ & Hu & _). destruct (unregistered l) eqn:Eu; [|done].
    pose proof (count_pos _ _ _ _ Hi Eu). lia.
Qed.

Definition result (ch : choice) : bool := match ch with Act b => b | _ => false end.

Definition asio_rights (c : config op pc) : rights := rights_in (book (shared c)) (count consuming (threads c)).

(** An operation keeps to the protocol of the guard. *)
Lemma asio_conforms n c i ch l s' l' :
  reachable (tstep (MutexOp true) false) (init n) c -> threads c !! i = Some l ->
  tstep (MutexOp true) false i ch (shared c) l = Some (s', l') ->
  conforms (mutex_call (shared c) l) (result ch) (asio_rights c) (asio_rights (Config s' (<[i := l']> (threads c)))).
Proof.
  intros Hr Hi Hs. unfold asio_rights, rights_in. cbn [shared threads]. rewrite (count_insert _ _ _ _ _ Hi).
  destruct (live l) eqn:El.
  - destruct (asio_carried _ _ _ _ Hr Hi El) as (Ht & Hn & -> & Hg & Hu & _).
    generalize dependent (shared c). intros s **.
    destruct (waiter_guard_ s) eqn:Eg; [specialize (Hu eq_refl)|clear Hu];
      asio_cases Hs; simplify_eq/=; try (by specialize (Hg eq_refl)); rewrite ?Eg, ?Ht, ?Hn; simpl; rewrite ?Ht, ?Hn; try done.
  - destruct l; try discriminate El; asio_cases Hs; simplify_eq/=; rewrite ?Z.sub_0_r, ?Z.add_0_r; try done;
      repeat (case_match; simplify_eq/=; try done); by destruct bec'.
Qed.

(** ** Theorems *)


(** The schedule on which one thread runs the handler of a wait to its end. *)
Definition handler_steps (fl : flavour) (fails : bool) : list choice :=
  RunHandler :: replicate
    match fl, fails with MutexOp _, true => 3 | MutexOp _, false => 5 | PlainOp, true => 2
    | PlainOp, false => 3 | CancellableOp, true => 3 | CancellableOp, false => 4 end (Act true).

(** C40: on Boost.Asio on POSIX systems a completed wait can complete the operation:
    the idle thread that runs its handler, alone and with an attempt to acquire that
    succeeds, calls the user's handler after at most five more steps of its own:
    with [operation_canceled] if the wait failed or the cancellation was requested,
    otherwise with the lock or token; the handler was not called before, and at the
    end no waiter is registered. *)
Theorem asio_completion fl n c i bec :
  reachable (tstep fl false) (init n) c -> threads c !! i = Some Idle -> sd_ (shared c) = Completed bec ->
  let fails := (has_flag fl && cancellation_requested_ (shared c)) || bec in
  exists s', alone (tstep fl false) i (handler_steps fl fails) (shared c) Idle = Some (s', Idle) /\
    delivered (book s') = [if fails then Canceled else Acquired] /\ registered (book s') = 0.
Proof.
  intros HI%asio_inv_reachable Hi Hsd fails.
  destruct HI as [Hl Hm _ _ Hr _]. rewrite Hsd in Hl. simpl in Hl.
  pose proof (count_bounds live (threads c)). pose proof (successes_calls (book (shared c))).
  pose proof (count_le _ _ (threads c) marked_live).
  assert (delivered (book (shared c)) = []) as Hd.
  { apply calls_none. destruct (started _), (posted _); simpl in Hl; lia. }
  assert (handler_invoked_ (shared c) = false) as Hh.
  { destruct (handler_invoked_ _); [|done]. specialize (Hm eq_refl).
    destruct (started _), (posted _); simpl in Hl; lia. }
  destruct (shared c) as [st h cr hi wg sd po bk] eqn:Es. simpl in *. subst sd hi.
  subst fails. destruct fl as [aw| |], cr, bec, wg; simpl; rewrite ?Hd; eexists; split_and!; try done;
    simpl; simpl in Hr; try rewrite Hr; try (by destruct aw); try lia; by rewrite Hd.
Qed.

(** A cancellation can be lost: a wait completes, the handler has seen no
    cancellation and fails to acquire; [cancel()] sets the flag and cancels the
    descriptor, where nothing is pending at this point; the handler then starts the
    next wait.  Everything is at rest, the cancellation was requested and
    the handler was not called. *)
Definition lost_cancel_sched : list (nat * choice) :=
  [(0%nat, Start); (0%nat, Act false); (0%nat, Act true); (0%nat, Ready false);
   (1%nat, RunHandler); (1%nat, Act true); (1%nat, Act false);
   (0%nat, Cancel); (0%nat, Act true); (0%nat, Act true); (1%nat, Act true)].

(** Cancellation can be lost: there is a schedule after which the cancellation
    was requested, every thread is at rest, the handler was not called and a
    wait is pending that nothing will cancel. *)
Theorem asio_cancellation_lost :
  exists c, reachable (tstep CancellableOp false) (init 2) c /\
    cancellation_requested_ (shared c) = true /\ Forall (eq Idle) (threads c) /\
    sd_ (shared c) = Waiting /\ posted (shared c) = false /\ delivered (book (shared c)) = [].
Proof.
  eexists. split; [by apply (exec_reachable _ lost_cancel_sched)|].
  split_and!; try done. by repeat constructor.
Qed.

(** A completed wait has consumed the token; the cancellation comes before the
    handler looks. *)
Definition windows_sched : list (nat * choice) :=
  [(0%nat, Start); (0%nat, Act false); (0%nat, Act true); (0%nat, Ready false);
   (0%nat, Cancel); (0%nat, Act true); (0%nat, Act true);
   (1%nat, RunHandler); (1%nat, Act true); (1%nat, Act true); (1%nat, Act true)].

(** On Windows a cancelled operation can keep a token: it took one and called
    its handler, once, with [operation_canceled]. *)
Theorem asio_windows_loses_token :
  exists c, reachable (tstep CancellableOp true) (init 2) c /\
    taken (book (shared c)) = 1 /\ delivered (book (shared c)) = [Canceled] /\
    count live (threads c) = 0.
Proof. eexists. split; [by apply (exec_reachable _ windows_sched)|]. done. Qed.

(** ** Witnesses *)

(** The wait completes after a [cancel()] that came before the handler. *)
Definition cancelled_sched : list (nat * choice) :=
  [(0%nat, Start); (0%nat, Act false); (0%nat, Act true); (0%nat, Act true);
   (1%nat, Cancel); (1%nat, Act true); (1%nat, Act true)].

Definition cancelled_config : config op pc :=
  default (init 2) (exec (tstep (MutexOp true) false) cancelled_sched (init 2)).

Lemma asio_cancelled_reachable : reachable (tstep (MutexOp true) false) (init 2) cancelled_config.
Proof. by apply (exec_reachable _ cancelled_sched). Qed.


Lemma asio_completion_witness :
  exists s', alone (tstep (MutexOp true) false) 1%nat (handler_steps (MutexOp true) true)
      (shared cancelled_config) Idle = Some (s', Idle) /\
    delivered (book s') = [Canceled] /\ registered (book s') = 0.
Proof.
  apply (asio_completion (MutexOp true) 2 cancelled_config 1%nat true);
    [apply asio_cancelled_reachable|reflexivity|reflexivity].
Defined.
