(* ===== verification/AsioFuture.v ===== *)
(** * Asynchronous acquisition with a future, on Boost.Asio

    The overloads of [async_acquire] and [async_wait] in
    mutex/support/boost_asio_support.hpp, semaphore/support/boost_asio_support.hpp
    and event/support/boost_asio_support.hpp that return a [std::future]: a closure
    [*do_wait] starts a wait whose handler, on a spurious wakeup, calls the closure
    again.  What matters is where the promise is: the closure and the pending
    handler either refer to it or do not, and the last reference that goes breaks
    it.  Waits complete one after the other, so the model is a fold over the
    completed waits. *)
From S2P Require Import Prelude AsyncOp.
#[local] Open Scope Z_scope.

(** How the closure [*do_wait] hands the promise to the handler of a wait. *)
Inductive capture :=
| Moved      (** a [std::promise], moved; with [__cpp_lib_move_only_function] *)
| MovedPtr   (** a [std::shared_ptr], moved; mutexes, without the feature *)
| CopiedPtr. (** a [std::shared_ptr], copied; semaphores and events, without the feature *)

Definition moves (k : capture) : bool := match k with CopiedPtr => false | _ => true end.

(** The shared state of the future: [broken_promise] is an error stored in it. *)
Inductive future_state := NotReady | HasValue | BrokenPromise.

(** How a handler ends that finds no promise. *)
Inductive failure :=
| NoState      (** [set_value] throws [std::future_error] out of [io_context::run] *)
| NullPointer. (** a null [std::shared_ptr] is dereferenced *)

Record state := State {
  closure : bool;           (** [*do_wait] refers to the promise *)
  handler : option bool;    (** a wait is pending; does its handler refer to the promise? *)
  future : future_state;
  failed : option failure;
  book : ledger
}.

Section overload.
Context (k : capture) (mutex : bool).

Definition registrations : Z := Z.b2z mutex.

(** The destructor of the last reference breaks the promise. *)
Definition settle (s : state) : state :=
  match future s with
  | NotReady =>
      if closure s || bool_decide (handler s = Some true) then s
      else State (closure s) (handler s) BrokenPromise (failed s) (book s)
  | _ => s
  end.

(** [std::invoke( *do_wait )]. *)
Definition do_wait (s : state) : state :=
  State (if moves k then false else closure s) (Some (closure s)) (future s) (failed s) (book s).

(** The error branch of the handler: [wg->release()], [*do_wait = nullptr]. *)
Definition on_error (s : state) : state :=
  State false None (future s) (failed s) (add_registered (- registrations) (book s)).

(** [wg->try_acquire()] or [try_acquire()] succeeded: [set_value], with the
    handler's promise [p], and [*do_wait = nullptr].  When [set_value] throws, the
    [unique_lock] passed to it unlocks the mutex; a token stays taken. *)
Definition on_acquired (p : bool) (s : state) : state :=
  let g := add_registered (- registrations) (add_taken 1 (book s)) in
  if p then State false None HasValue (failed s) g
  else State (closure s) None (future s) (Some (match k with Moved => NoState | _ => NullPointer end))
         (if mutex then add_taken (-1) g else g).

(** The handler of a wait: the error code, and the result of the attempt. *)
Definition on_wait (ec ok : bool) (s : state) : state :=
  match handler s with
  | None => s
  | Some p => settle (if ec then on_error s else if ok then on_acquired p s else do_wait s)
  end.

(** The operation after the waits [evs] completed, if the first attempt failed. *)
Definition start : state := do_wait (State true None NotReady None (add_registered registrations fresh)).

Definition run (evs : list (bool * bool)) : state := fold_left (fun s e => on_wait e.1 e.2 s) evs start.

(** [async_acquire] or [async_wait] that returns a future. *)
Definition async_acquire (immediately : bool) (evs : list (bool * bool)) : state :=
  if immediately then State false None HasValue None (add_taken 1 fresh) else run evs.

(** [~async_acquire_future_state()]: cancels the wait on the descriptor, if there is
    one, and its handler runs with an error; a state that was made by a successful first
    attempt has no descriptor. *)
Definition destroy_future_state (immediately : bool) (evs : list (bool * bool)) : state :=
  on_wait true false (async_acquire immediately evs).

End overload.

(** The overloads of the source, with [__cpp_lib_move_only_function] or without. *)
Definition mutex_async_acquire (move_only : bool) := async_acquire (if move_only then Moved else MovedPtr) true.
Definition semaphore_async_acquire (move_only : bool) := async_acquire (if move_only then Moved else CopiedPtr) false.
Definition event_async_wait (move_only : bool) := async_acquire (if move_only then Moved else CopiedPtr) false.

(** What the future should become: spurious wakeups do not count. *)
Fixpoint expected (evs : list (bool * bool)) : future_state :=
  match evs with
  | [] => NotReady
  | (true, _) :: _ => BrokenPromise
  | (false, true) :: _ => HasValue
  | (false, false) :: evs' => expected evs'
  end.

Definition spurious_first (evs : list (bool * bool)) : bool :=
  match evs with (false, false) :: _ => true | _ => false end.

Section facts.
Context (k : capture) (mutex : bool).

Lemma run_done s evs : handler s = None -> fold_left (fun s e => on_wait k mutex e.1 e.2 s) evs s = s.
Proof. intros Hs. induction evs as [|e evs IH]; simpl; [done|]. unfold on_wait at 2. by rewrite Hs. Qed.

(** The first wait. *)
Lemma start_error ok :
  on_wait k mutex true ok (start k mutex) =
    State false None BrokenPromise None (Ledger 0 (registrations mutex - registrations mutex) []).
Proof. unfold start. by destruct k, mutex. Qed.

Lemma start_acquired :
  on_wait k mutex false true (start k mutex) =
    State false None HasValue None (Ledger 1 (registrations mutex - registrations mutex) []).
Proof. unfold start. by destruct k, mutex. Qed.

Lemma start_spurious :
  on_wait k mutex false false (start k mutex) =
    if moves k then State false (Some false) BrokenPromise None (Ledger 0 (registrations mutex) [])
    else start k mutex.
Proof. unfold start. by destruct k, mutex. Qed.

(** The copied pointer: every wait refers to the promise. *)
Lemma run_copied evs :
  moves k = false ->
  future (run k mutex evs) = expected evs /\ failed (run k mutex evs) = None /\
  taken (book (run k mutex evs)) = match expected evs with HasValue => 1 | _ => 0 end /\
  registered (book (run k mutex evs)) = match expected evs with NotReady => registrations mutex | _ => 0 end.
Proof.
  intros Hk. unfold run. induction evs as [|[[] []] evs IH]; cbn [fold_left fst snd expected].
  - unfold start. by destruct k, mutex.
  - rewrite start_error, run_done by done. simpl. split_and!; (done || lia).
  - rewrite start_error, run_done by done. simpl. split_and!; (done || lia).
  - rewrite start_acquired, run_done by done. simpl. split_and!; (done || lia).
  - by rewrite start_spurious, Hk.
Qed.

(** A moved promise is gone after one spurious wakeup. *)
Definition lost (g : ledger) : state := State false (Some false) BrokenPromise None g.

Lemma lost_spurious g : moves k = true -> on_wait k mutex false false (lost g) = lost g.
Proof. intros Hk. unfold on_wait, do_wait; simpl. by rewrite Hk. Qed.

Lemma run_lost evs g :
  moves k = true ->
  let s := fold_left (fun s e => on_wait k mutex e.1 e.2 s) evs (lost g) in
  future s = BrokenPromise /\ (failed s <> None <-> expected evs = HasValue).
Proof.
  intros Hk. induction evs as [|[[] []] evs IH]; cbn [fold_left fst snd expected]; try done.
  - by rewrite run_done.
  - by rewrite run_done.
  - by rewrite run_done.
  - by rewrite lost_spurious.
Qed.

(** A wait is pending with its registration, or over with the result in the future; and
    without a promise in its handler the result is already there. *)
Definition settled (s : state) : Prop :=
  match handler s with
  | Some p => registered (book s) = registrations mutex /\ (p = false -> closure s = false /\ future s <> NotReady)
  | None => registered (book s) = 0 /\ future s <> NotReady
  end.

Lemma on_wait_settled ec ok s : settled s -> settled (on_wait k mutex ec ok s).
Proof.
  unfold settled, on_wait. destruct (handler s) as [p|] eqn:E; [intros [Hr Hp]|by rewrite E].
  unfold settle, on_error, on_acquired, do_wait.
  destruct (future s) eqn:Ef, (closure s) eqn:Ec, p, ec, ok; simpl; rewrite ?Ef, ?Ec; simpl;
    try (destruct (Hp eq_refl); congruence); destruct (moves k), mutex; simpl in *; rewrite ?Ef, ?Hr;
    split; (done || lia).
Qed.

Lemma async_acquire_settled immediately evs : settled (async_acquire k mutex immediately evs).
Proof.
  destruct immediately; [done|]. simpl. unfold run. assert (settled (start k mutex)) as H0.
  { unfold settled, start. by destruct k, mutex. }
  revert H0. generalize (start k mutex). induction evs as [|e evs IH]; intros s Hs; [done|]. simpl. by apply IH, on_wait_settled.
Qed.

(** Dropping the state of a future leaves nothing behind, whatever waits have
    completed: no wait is pending, no waiter stays registered, and the future has a value
    or a broken promise. *)
Theorem future_state_cleans_up immediately evs :
  let s := destroy_future_state k mutex immediately evs in
  handler s = None /\ registered (book s) = 0 /\ future s <> NotReady.
Proof.
  pose proof (async_acquire_settled immediately evs) as Hs. pose proof (on_wait_settled true false _ Hs) as Hd.
  unfold destroy_future_state. set (s := async_acquire k mutex immediately evs) in *.
  assert (handler (on_wait k mutex true false s) = None) as E.
  { unfold on_wait. destruct (handler s) as [p|] eqn:E; [|done]. unfold settle, on_error. simpl. by destruct (future s). }
  unfold settled in Hd. rewrite E in Hd. tauto.
Qed.

(** The future of an asynchronous acquisition: while the first wakeup decides,
    or if the promise is shared by copies, it gets its value exactly when an attempt
    succeeds, after any number of spurious wakeups, and no handler fails.  But where
    the closure moves its promise into the handler, a first spurious wakeup breaks
    the promise for good, and the attempt that later succeeds ends in an exception
    or a null pointer. *)
Theorem asio_future evs :
  (moves k && spurious_first evs = false -> future (run k mutex evs) = expected evs /\ failed (run k mutex evs) = None) /\
  (moves k && spurious_first evs = true ->
     future (run k mutex evs) = BrokenPromise /\ (failed (run k mutex evs) <> None <-> expected evs = HasValue)).
Proof.
  destruct (moves k) eqn:Hk; simpl; (split; [|try done]).
  - unfold run. destruct evs as [|[[] []] evs]; cbn [fold_left fst snd expected spurious_first]; try done; intros _.
    + by rewrite start_error, run_done.
    + by rewrite start_error, run_done.
    + by rewrite start_acquired, run_done.
  - unfold run. destruct evs as [|[[] []] evs]; cbn [fold_left fst snd expected spurious_first]; try done; intros _.
    rewrite start_spurious, Hk. by apply run_lost.
  - intros _. by destruct (run_copied evs Hk) as (? & ? & _).
Qed.
End facts.

Lemma asio_future_witness :
  future (run Moved true [(false, false); (false, true)]) = BrokenPromise /\
  failed (run Moved true [(false, false); (false, true)]) = Some NoState /\
  future (run CopiedPtr false [(false, false); (false, true)]) = HasValue.
Proof.
  split; [|split].
  - by apply (asio_future Moved true [(false, false); (false, true)]).
  - reflexivity.
  - destruct (asio_future CopiedPtr false [(false, false); (false, true)]) as [H _].
    by destruct (H eq_refl).
Defined.
