(* ===== verification/DispatchAcquire.v ===== *)
(** * Asynchronous acquisition on libdispatch

    The operations of mutex/support/libdispatch_support.hpp,
    semaphore/support/libdispatch_support.hpp and event/support/libdispatch_support.hpp:
    the [..._state] and [..._cancellable_state] classes and the handles.  One machine
    has one operation and any number of threads: the one that starts it, threads of
    the dispatch queues, and threads that cancel it through the handle.

    What is relied on of libdispatch: the event handler of a source runs only after
    the source was resumed, not twice at a time and not after
    [dispatch_source_cancel], except that a run under way is finished; the cancel
    handler runs once, after that, and then the source lets go of both; a block
    passed to [dispatch_async] runs once.  The destructor, which also releases the
    source, runs when nothing refers to the operation, and finds nothing to release.
    The results of the calls to the primitive are chosen by the environment. *)
From S2P Require Import Prelude Machine AsyncOp.
#[local] Open Scope Z_scope.

(** The operation as the queues see it: not started, in [start()], the source has
    no handler running, its event handler runs, its cancel handler runs, and nothing
    is left to run. *)
Inductive phase := Fresh | Starting | Resting | Firing | Cleaning | Over.

#[export] Instance phase_eq_dec : EqDecision phase.
Proof. solve_decision. Defined.

Record op := Op {
  at_phase : phase;
  handle : bool;            (** the caller has the [..._handle] *)
  cancelled : bool;
  handler_invoked : bool;   (** for an operation without a handle a ghost: the result is decided *)
  waiter_guard_ : bool;
  src_ : bool;              (** [src_] is not null *)
  source_cancelled : bool;
  posted : list outcome;    (** blocks given to [dispatch_async] *)
  releases : Z;             (** ghost: calls of [dispatch_release] on the source *)
  misused : bool;           (** ghost: the source was used after its release *)
  book : ledger
}.

Definition set_phase (ph : phase) (s : op) : op :=
  Op ph (handle s) (cancelled s) (handler_invoked s) (waiter_guard_ s) (src_ s) (source_cancelled s) (posted s)
    (releases s) (misused s) (book s).
Definition set_invoked (s : op) : op :=
  Op (at_phase s) (handle s) (cancelled s) true (waiter_guard_ s) (src_ s) (source_cancelled s) (posted s)
    (releases s) (misused s) (book s).
Definition set_book (g : ledger) (s : op) : op :=
  Op (at_phase s) (handle s) (cancelled s) (handler_invoked s) (waiter_guard_ s) (src_ s) (source_cancelled s)
    (posted s) (releases s) (misused s) g.
Definition set_posted (p : list outcome) (s : op) : op :=
  Op (at_phase s) (handle s) (cancelled s) (handler_invoked s) (waiter_guard_ s) (src_ s) (source_cancelled s) p
    (releases s) (misused s) (book s).

(** Where a result is delivered from: [start()], the event handler before and
    after it tried to acquire, and the cancel handler. *)
Inductive place := AtStart | AfterCheck | AfterTry | InCancel.

Inductive pc :=
| Idle
| Check                          (** [start()]: [is_cancelled()] *)
| TryNow                         (** [start()]: [try_lock()], [try_acquire()], [try_wait()] *)
| Recheck                        (** [start()]: [is_cancelled()] again *)
| Register                       (** [start()]: [waiter_guard_.emplace( mtx_ )] *)
| Create                         (** [start()]: create the source, set its handlers, resume it *)
| OnEvent                        (** the event handler: [is_cancelled()] *)
| Retry                          (** the event handler: try to acquire *)
| Consume                        (** [try_acquire()] of the guard: [consume_lock()] *)
| Unregister                     (** [try_acquire()] of the guard: [release()] *)
| EventRecheck                   (** the event handler: [is_cancelled()] again *)
| Undo (p : place)               (** [mtx_.unlock()], [sem_.release()] *)
| Mark (p : place) (r : outcome) (** [try_mark_invoked()] *)
| Reset (p : place)              (** [waiter_guard_.reset()] *)
| SourceCancel (p : place) (r : outcome) (** [dispatch_source_cancel( src_ )] *)
| Post (p : place) (r : outcome) (** [dispatch_async] *)
| OnCancel                       (** the cancel handler: release [src_] *)
| CancelCheck                    (** the cancel handler: [is_cancelled()] *)
| Store                          (** [cancel()]: store [cancelled] *)
| Load                           (** [cancellation_callback_]: test [src_] *)
| CancelSource                   (** [cancellation_callback_]: [dispatch_source_cancel( src_ )] *)
| Invoke (r : outcome).          (** the block: call [handler_] *)

Inductive choice :=
| Start          (** a client starts the operation *)
| Cancel         (** a client calls [cancel()] on the handle, or destroys it *)
| Fire           (** the queue runs the event handler *)
| RunCancel      (** the queue runs the cancel handler *)
| RunPosted      (** a queue runs a block *)
| Destroy        (** the last reference to the operation goes *)
| Act (b : bool). (** the next step; the result of a try *)

Section machine.
Context (prim : primitive) (cancellable : bool).

(** The end of [start()], of the event handler or of the cancel handler. *)
Definition finish (p : place) (s : op) : op :=
  match p with
  | AtStart =>
      Op (if src_ s then Resting else Over) cancellable (cancelled s) (handler_invoked s) (waiter_guard_ s) (src_ s)
        (source_cancelled s) (posted s) (releases s) (misused s) (book s)
  | AfterCheck | AfterTry => set_phase Resting s
  | InCancel => set_phase Over s
  end.

(** A try that succeeded in [start()] or in the event handler. *)
Definition acquired_now (s : op) : op * pc :=
  if cancellable then (set_book (add_taken 1 (book s)) s, Recheck)
  else (set_invoked (set_book (add_taken 1 (book s)) s), Post AtStart Acquired).

(** What follows [try_acquire()] in the event handler: the operation with a
    handle checks for cancellation again if it waits for a mutex. *)
Definition after_acquire (s : op) : op * pc :=
  if cancellable then (s, if is_mutex prim then EventRecheck else Mark AfterTry Acquired)
  else (set_invoked s, SourceCancel AfterTry Acquired).

Definition acquired_event (s : op) : op * pc :=
  let s' := set_book (add_taken 1 (book s)) s in
  if is_mutex prim then (s', Consume) else after_acquire s'.

(** [waiter_guard_.emplace( mtx_ )]. *)
Definition emplace (s : op) : op :=
  match prim with
  | PMutex w =>
      Op (at_phase s) (handle s) (cancelled s) (handler_invoked s) true (src_ s) (source_cancelled s) (posted s)
        (releases s) (misused s) (add_registered (Z.b2z w) (book s))
  | _ => s
  end.

(** [release()] of the guard, also by [waiter_guard_.reset()]. *)
Definition release_guard (s : op) : op :=
  if waiter_guard_ s then
    Op (at_phase s) (handle s) (cancelled s) (handler_invoked s) false (src_ s) (source_cancelled s) (posted s)
      (releases s) (misused s) (add_registered (match prim with PMutex w => - Z.b2z w | _ => 0 end) (book s))
  else s.

(** [dispatch_source_create], the handlers, [dispatch_resume], and the end of
    [start()]. *)
Definition create (s : op) : op :=
  Op Resting cancellable (cancelled s) (handler_invoked s) (waiter_guard_ s) true false (posted s)
    (releases s) (misused s) (book s).

(** [mtx_.unlock()] or [sem_.release()]; an event has nothing to give back. *)
Definition undo (s : op) : op :=
  match prim with PEvent => s | _ => set_book (add_taken (-1) (book s)) s end.

(** After [try_mark_invoked()] returned [true]. *)
Definition deliver (p : place) (r : outcome) : pc :=
  match p with
  | AtStart => Post p r
  | AfterCheck => if is_mutex prim then Reset p else SourceCancel p r
  | AfterTry => SourceCancel p r
  | InCancel => if is_mutex prim then Reset p else Post p r
  end.

(** [dispatch_source_cancel( src_ )]. *)
Definition cancel_source (s : op) : op :=
  Op (at_phase s) (handle s) (cancelled s) (handler_invoked s) (waiter_guard_ s) (src_ s) true (posted s)
    (releases s) (misused s || (0 <? releases s)) (book s).

(** The cancel handler: [release_dispatch_object( src_ )], [src_ = nullptr]. *)
Definition release_source (s : op) : op :=
  if src_ s then
    Op (at_phase s) (handle s) (cancelled s) (handler_invoked s) (waiter_guard_ s) false (source_cancelled s)
      (posted s) (releases s + 1) (misused s) (book s)
  else s.

Definition request_cancellation (s : op) : op :=
  Op (at_phase s) (handle s) true (handler_invoked s) (waiter_guard_ s) (src_ s) (source_cancelled s) (posted s)
    (releases s) (misused s) (book s).

(** The operation is referenced by [start()], by the handlers of its source until
    the cancel handler has run, and by the blocks; the one with a handle also by the
    callback in its own cancellation state, a cycle that nothing breaks. *)
Definition unreferenced (s : op) : bool :=
  negb cancellable && bool_decide (at_phase s = Over) && match posted s with [] => true | _ => false end.

(** The destructor: release [src_], if it is not null; then [waiter_guard_] goes. *)
Definition destroy (s : op) : op := release_guard (release_source s).

Definition tstep (tid : nat) (ch : choice) (s : op) (l : pc) : option (op * pc) :=
  match l, ch with
  | Idle, Start =>
      match at_phase s with
      | Fresh => Some (set_phase Starting s, if cancellable then Check else TryNow)
      | _ => None
      end
  | Check, Act _ => Some (s, if cancelled s then Mark AtStart Canceled else TryNow)
  | TryNow, Act true => Some (acquired_now s)
  | TryNow, Act false => Some (s, if is_mutex prim then Register else Create)
  | Recheck, Act _ => Some (s, if cancelled s then Undo AtStart else Mark AtStart Acquired)
  | Register, Act _ => Some (emplace s, Create)
  | Create, Act _ => Some (create s, Idle)
  | Idle, Fire =>
      match at_phase s with
      | Resting =>
          if source_cancelled s then None
          else Some (set_phase Firing s, if cancellable then OnEvent else Retry)
      | _ => None
      end
  | OnEvent, Act _ => Some (s, if cancelled s then Mark AfterCheck Canceled else Retry)
  | Retry, Act true => Some (acquired_event s)
  | Retry, Act false => Some (finish AfterTry s, Idle)
  | Consume, Act _ => Some (s, Unregister)
  | Unregister, Act _ => Some (after_acquire (release_guard s))
  | EventRecheck, Act _ => Some (s, if cancelled s then Undo AfterTry else Mark AfterTry Acquired)
  | Undo p, Act _ => Some (undo s, Mark p Canceled)
  | Mark p r, Act _ =>
      if handler_invoked s then Some (finish p s, Idle) else Some (set_invoked s, deliver p r)
  | Reset p, Act _ =>
      Some (release_guard s, match p with InCancel => Post p Canceled | _ => SourceCancel p Canceled end)
  | SourceCancel p r, Act _ => Some (cancel_source s, Post p r)
  | Post p r, Act _ => Some (finish p (set_posted (posted s ++ [r]) s), Idle)
  | Idle, RunCancel =>
      match at_phase s with
      | Resting => if source_cancelled s then Some (set_phase Cleaning s, OnCancel) else None
      | _ => None
      end
  | OnCancel, Act _ =>
      if cancellable then Some (release_source s, CancelCheck) else Some (finish InCancel (release_source s), Idle)
  | CancelCheck, Act _ => if cancelled s then Some (s, Mark InCancel Canceled) else Some (finish InCancel s, Idle)
  | Idle, Cancel => if handle s then Some (s, Store) else None
  | Store, Act _ => Some (request_cancellation s, Load)
  | Load, Act _ => Some (s, if src_ s then CancelSource else Idle)
  | CancelSource, Act _ => Some (cancel_source s, Idle)
  | Idle, RunPosted =>
      match posted s with r :: rs => Some (set_posted rs s, Invoke r) | [] => None end
  | Idle, Destroy => if unreferenced s then Some (destroy s, Idle) else None
  | Invoke r, Act _ => Some (set_book (add_call r (book s)) s, Idle)
  | _, _ => None
  end.
End machine.

(** The operations of the source. *)
Definition dispatch_acquire_state (async_waiter : bool) := tstep (PMutex async_waiter) false.
Definition dispatch_acquire_cancellable_state (async_waiter : bool) := tstep (PMutex async_waiter) true.
Definition dispatch_semaphore_acquire_state := tstep PSemaphore false.
Definition dispatch_semaphore_acquire_cancellable_state := tstep PSemaphore true.
Definition dispatch_event_wait_state := tstep PEvent false.
Definition dispatch_event_wait_cancellable_state := tstep PEvent true.

Definition new_op : op := Op Fresh false false false false false false [] 0 false fresh.

Definition init (n : nat) : config op pc := Config new_op (replicate n Idle).

(** ** The invariant *)

(** The thread runs [start()] or a handler of the source. *)
Definition token (l : pc) : bool :=
  match l with Idle | Store | Load | CancelSource | Invoke _ => false | _ => true end.

(** The phases in which a thread does. *)
Definition busy (ph : phase) : bool :=
  match ph with Starting | Firing | Cleaning => true | _ => false end.

(** The thread carries a result that was decided. *)
Definition committed (l : pc) : bool :=
  match l with Reset _ | SourceCancel _ _ | Post _ _ | Invoke _ => true | _ => false end.

(** The thread has the lock or token. *)
Definition holding (l : pc) : bool :=
  match l with
  | Recheck | Consume | Unregister | EventRecheck | Undo _ | Mark _ Acquired | SourceCancel _ Acquired
  | Post _ Acquired | Invoke Acquired => true
  | _ => false
  end.

(** The thread is between the two parts of [cancel()]. *)
Definition cancelling (l : pc) : bool := match l with Load | CancelSource => true | _ => false end.

Definition phase_of (p : place) : phase :=
  match p with AtStart => Starting | AfterCheck | AfterTry => Firing | InCancel => Cleaning end.

Section facts.
Context (prim : primitive) (cancellable : bool).

Definition undecided (s : op) : Prop := handler_invoked s = false.

(** In [start()] nobody else has the operation. *)
Definition private (s : op) : Prop :=
  at_phase s = Starting /\ undecided s /\ cancelled s = false /\ src_ s = false /\ waiter_guard_ s = false.

(** In the cancel handler, before it delivers. *)
Definition cleaning (s : op) : Prop :=
  source_cancelled s = true /\ (handler_invoked s = true -> waiter_guard_ s = false).

(** What is known of the operation where a thread is. *)
Definition fits (s : op) (l : pc) : Prop :=
  match l with
  | Idle | Invoke _ => True
  | Check | TryNow | Recheck => private s
  | Register => private s /\ is_mutex prim = true
  | Create =>
      at_phase s = Starting /\ undecided s /\ cancelled s = false /\ src_ s = false
  | OnEvent | Retry => at_phase s = Firing /\ undecided s
  | Consume | Unregister => at_phase s = Firing /\ undecided s /\ is_mutex prim = true
  | EventRecheck =>
      at_phase s = Firing /\ undecided s /\ waiter_guard_ s = false /\ cancellable = true /\ is_mutex prim = true
  | Undo p =>
      p = AfterTry /\ at_phase s = Firing /\ undecided s /\ waiter_guard_ s = false /\ cancelled s = true /\
      is_mutex prim = true
  | Mark AtStart r => r = Acquired /\ private s
  | Mark AfterCheck r => r = Canceled /\ at_phase s = Firing /\ undecided s
  | Mark AfterTry r => at_phase s = Firing /\ undecided s /\ waiter_guard_ s = false
  | Mark InCancel r => r = Canceled /\ at_phase s = Cleaning /\ cleaning s /\ src_ s = false
  | Reset p => (p = AfterCheck \/ p = InCancel) /\ at_phase s = phase_of p /\ handler_invoked s = true /\
      (p = InCancel -> source_cancelled s = true /\ src_ s = false)
  | SourceCancel p r =>
      (p = AfterCheck \/ p = AfterTry) /\ at_phase s = Firing /\ handler_invoked s = true /\ waiter_guard_ s = false
  | Post p r =>
      at_phase s = phase_of p /\ handler_invoked s = true /\ waiter_guard_ s = false /\
      match p with
      | AtStart => src_ s = false
      | InCancel => source_cancelled s = true /\ src_ s = false
      | _ => source_cancelled s = true
      end
  | OnCancel => at_phase s = Cleaning /\ cleaning s
  | CancelCheck => at_phase s = Cleaning /\ cleaning s /\ src_ s = false
  | Store => handle s = true
  | Load | CancelSource => handle s = true /\ cancelled s = true
  end.

(** What is known of the operation otherwise. *)
Definition rests (s : op) : Prop :=
  match at_phase s with
  | Fresh => undecided s /\ cancelled s = false /\ src_ s = false /\ waiter_guard_ s = false /\ handle s = false
  | Starting => handle s = false
  | Resting =>
      (handler_invoked s = true -> source_cancelled s = true /\ waiter_guard_ s = false) /\
      (source_cancelled s = true -> undecided s -> cancelled s = true)
  | Firing => source_cancelled s = true -> undecided s -> cancelled s = true
  | Cleaning => undecided s -> cancelled s = true
  | Over => handler_invoked s = true /\ waiter_guard_ s = false /\ src_ s = false
  end.

(** Once the source was released [src_] is null. *)
Definition released_once (s : op) : Prop :=
  0 <= releases s /\ releases s + Z.b2z (src_ s) <= 1 /\
  (at_phase s = Fresh \/ at_phase s = Starting -> releases s = 0).

Record Inv (c : config op pc) : Prop := {
  inv_token : count token (threads c) = Z.b2z (busy (at_phase (shared c)));
  inv_fits : Forall (fits (shared c)) (threads c);
  inv_rests : rests (shared c);
  inv_calls : Z.b2z (handler_invoked (shared c)) =
    count committed (threads c) + Z.of_nat (length (posted (shared c))) + calls (book (shared c));
  inv_taken : taken (book (shared c)) =
    count holding (threads c) + count is_acquired (posted (shared c)) + successes (book (shared c));
  inv_registered : registered (book (shared c)) =
    match prim with PMutex w => Z.b2z (w && waiter_guard_ (shared c)) | _ => 0 end;
  inv_cancel : cancelled (shared c) = true ->
    1 <= count cancelling (threads c) \/ source_cancelled (shared c) = true \/ handler_invoked (shared c) = true;
  inv_src : src_ (shared c) = false ->
    at_phase (shared c) = Fresh \/ at_phase (shared c) = Starting \/
    source_cancelled (shared c) = true \/ handler_invoked (shared c) = true;
  inv_handle : handle (shared c) = true -> cancellable = true;
  inv_cancelled : cancelled (shared c) = true -> cancellable = true;
  inv_guard : waiter_guard_ (shared c) = true -> is_mutex prim = true;
  inv_releases : released_once (shared c)
}.

(** Case analysis of a step, with what is known at its program point. *)
Ltac dispatch_cases Hs Hf :=
  match type of Hs with
  | tstep _ _ _ ?ch _ ?l = _ =>
      destruct l as [| | | | | | | | | | |p|p r|p|p r|p r| | | | | |r], ch as [| | | | | |b]; try discriminate Hs;
      try (destruct p)
  end; simpl in Hs, Hf; unfold private, undecided, cleaning in *; destruct_and?; simplify_eq; step_cases Hs;
  unfold destroy, unreferenced, finish, acquired_now, acquired_event, after_acquire, emplace, release_guard, create,
    undo, deliver, cancel_source, release_source, request_cancellation in *; bools;
  try match goal with H : bool_decide _ = true |- _ => apply bool_decide_eq_true in H end;
  repeat (case_match; simplify_eq/=; try congruence).

Section step.
Context (i : nat) (ch : choice) (s s' : op) (l l' : pc).
Hypothesis Hs : tstep prim cancellable i ch s l = Some (s', l').
Hypothesis Hf : fits s l.
Hypothesis Hr : rests s.
Hypothesis Hh : handle s = true -> cancellable = true.
Hypothesis Hc : cancelled s = true -> cancellable = true.
Hypothesis Hg : waiter_guard_ s = true -> is_mutex prim = true.
Hypothesis Hsrc : src_ s = false ->
    at_phase s = Fresh \/ at_phase s = Starting \/ source_cancelled s = true \/ handler_invoked s = true.

Lemma dispatch_token : Z.b2z (busy (at_phase s')) - Z.b2z (busy (at_phase s)) = Z.b2z (token l') - Z.b2z (token l).
Proof using Hs Hf Hr Hh Hc Hg Hsrc. dispatch_cases Hs Hf; simpl; try congruence; try lia;
  try (match goal with H : at_phase _ = _ |- _ => rewrite H end; done). Qed.

(** The flags of the operation, when propositional reasoning needs them. *)
Ltac flags :=
  intuition (try congruence);
  match goal with _ : handle ?s = true -> _ |- _ =>
    destruct (handler_invoked s) eqn:?, (cancelled s) eqn:?, (waiter_guard_ s) eqn:?
  end; intuition congruence.

Lemma dispatch_fits : fits s' l'.
Proof using Hs Hf Hr Hh Hc Hg Hsrc.
  unfold rests in Hr. dispatch_cases Hs Hf; simpl; unfold private, undecided, cleaning; simpl; flags.
Qed.

Lemma dispatch_rests : rests s'.
Proof using Hs Hf Hr Hh Hc Hg Hsrc. unfold rests in *. dispatch_cases Hs Hf; simpl in *; flags. Qed.

(** Count the cases with what is known of the flags. *)
Ltac tally :=
  autorewrite with ledger; rewrite ?length_app, ?count_app; simpl;
  repeat match goal with H : _ ?s = _ |- context [_ ?s] => rewrite H end; simpl; try lia.

Lemma dispatch_calls :
  Z.b2z (handler_invoked s') - Z.b2z (handler_invoked s) =
    Z.b2z (committed l') - Z.b2z (committed l) +
    (Z.of_nat (length (posted s')) - Z.of_nat (length (posted s))) + (calls (book s') - calls (book s)).
Proof using Hs Hf Hr Hh Hc Hg Hsrc. dispatch_cases Hs Hf; tally. Qed.

Lemma dispatch_taken :
  taken (book s') - taken (book s) =
    Z.b2z (holding l') - Z.b2z (holding l) +
    (count is_acquired (posted s') - count is_acquired (posted s)) +
    (successes (book s') - successes (book s)).
Proof using Hs Hf Hr Hh Hc Hg Hsrc.
  dispatch_cases Hs Hf; try (destruct r); simpl in *; tally; simpl; lia.
Qed.

Definition registrations (s : op) : Z :=
  match prim with PMutex w => Z.b2z (w && waiter_guard_ s) | _ => 0 end.

Lemma dispatch_registered : registered (book s) = registrations s -> registered (book s') = registrations s'.
Proof using Hs Hf Hr Hh Hc Hg Hsrc.
  unfold registrations. intros Hr'. dispatch_cases Hs Hf; simpl in *; rewrite ?andb_false_r, ?andb_true_r in *;
    simpl in *; try lia; try congruence.
  all: destruct (waiter_guard_ _), async_waiter; simpl in *; (done || lia).
Qed.

Lemma dispatch_cancel :
  cancelled s' = true ->
  source_cancelled s' = true \/ handler_invoked s' = true \/ cancelling l' = true \/
  (cancelled s = true /\ cancelling l = false /\ source_cancelled s = source_cancelled s' /\
   handler_invoked s = handler_invoked s').
Proof using Hs Hf Hr Hh Hc Hg Hsrc.
  assert (handle s = true -> at_phase s <> Fresh /\ at_phase s <> Starting) as Hp.
  { unfold rests in Hr. destruct (at_phase s); intuition congruence. }
  dispatch_cases Hs Hf; simpl in *; intuition congruence.
Qed.

Lemma dispatch_src :
  src_ s' = false ->
  at_phase s' = Fresh \/ at_phase s' = Starting \/ source_cancelled s' = true \/ handler_invoked s' = true.
Proof using Hs Hf Hr Hh Hc Hg Hsrc.
  assert (at_phase s = Over -> handler_invoked s = true) as Ho by (intros E; unfold rests in Hr; rewrite E in Hr; apply Hr).
  dispatch_cases Hs Hf; simpl in *; intuition congruence.
Qed.

Lemma dispatch_flags :
  (handle s' = true -> cancellable = true) /\ (cancelled s' = true -> cancellable = true) /\
  (waiter_guard_ s' = true -> is_mutex prim = true).
Proof using Hs Hf Hr Hh Hc Hg Hsrc. dispatch_cases Hs Hf; simpl in *; intuition congruence. Qed.

Lemma dispatch_releases : released_once s -> released_once s'.
Proof using Hs Hf Hr Hh Hc Hg Hsrc.
  unfold released_once. intros (H0 & H1 & H2).
  dispatch_cases Hs Hf; simpl in *; (split_and!; [try done; lia|try done; try lia|try (intuition congruence)]);
  try (assert (releases s = 0) by auto; lia); tally.
Qed.

(** What the other threads know is kept. *)
Lemma dispatch_frame x :
  (token x = true -> token l = false /\ token l' = false) -> fits s x -> fits s' x.
Proof using Hs Hf Hr Hh Hc Hg Hsrc.
  intros Ht Hx. destruct (token x) eqn:Ex.
  - destruct (Ht eq_refl) as [Hl Hl'].
    assert (at_phase s' = at_phase s /\ handler_invoked s' = handler_invoked s /\ src_ s' = src_ s /\
      waiter_guard_ s' = waiter_guard_ s /\ (source_cancelled s = true -> source_cancelled s' = true) /\
      (cancelled s = true -> cancelled s' = true) /\ (at_phase s = Starting -> cancelled s' = cancelled s))
      as (E1 & E2 & E3 & E4 & E5 & E6 & E7).
    { clear Hx. unfold rests in Hr. dispatch_cases Hs Hf; simpl in *; intuition congruence. }
    destruct x as [| | | | | | | | | | |p|p r|p|p r|p r| | | | | |r]; try discriminate Ex; try destruct p; simpl in *;
      unfold private, undecided, cleaning in *; rewrite ?E1, ?E2, ?E3, ?E4; intuition (try congruence).
  - assert ((handle s = true -> handle s' = true) /\ (cancelled s = true -> cancelled s' = true)) as [E1 E2].
    { clear Hx. dispatch_cases Hs Hf; simpl in *; intuition congruence. }
    destruct x; try discriminate Ex; simpl in *; intuition congruence.
Qed.
End step.

Lemma dispatch_init_ok n : Inv (init n).
Proof.
  constructor; simpl; rewrite ?count_replicate by done; try done; auto.
  - by apply Forall_replicate.
  - by destruct prim as [[]| |].
Qed.

(** Who runs [start()] or a handler of the source is alone. *)
Lemma token_alone (c : config op pc) i j l x :
  count token (threads c) <= 1 -> threads c !! i = Some l -> threads c !! j = Some x -> i <> j ->
  token x = true -> token l = false.
Proof.
  intros Hc Hi Hj Hij Hx. destruct (token l) eqn:El; [|done].
  destruct Hij. by apply (count_unique token (threads c) i j l x).
Qed.

Lemma dispatch_step_ok i ch c l s' l' :
  Inv c -> threads c !! i = Some l -> tstep prim cancellable i ch (shared c) l = Some (s', l') ->
  Inv (Config s' (<[i := l']> (threads c))).
Proof.
  intros [It If Ir Ic Ik Ig Ia Is Ih Ie Iu Il] Hi Hs.
  pose proof (Forall_lookup_1 _ _ _ _ If Hi) as Hf. simpl in Hf.
  pose proof (dispatch_token _ _ _ _ _ _ Hs Hf Ir Ih Ie Iu Is) as Htok.
  constructor; cbn [shared threads]; rewrite ?(count_insert _ _ _ _ _ Hi).
  - lia.
  - apply Forall_lookup_2. intros j x. rewrite list_lookup_insert_Some.
    intros [(<- & <- & _)|[Hne Hj]]; [by eapply dispatch_fits|].
    eapply dispatch_frame; try done; [|by apply (Forall_lookup_1 _ _ _ _ If Hj)].
    intros Hx. pose proof (count_pos _ _ _ _ Hj Hx) as Hp.
    assert (token l = false) as El.
    { apply (token_alone c i j l x); try done. destruct (busy _); simpl in It; lia. }
    split; [done|]. rewrite El in Htok.
    destruct (token l'), (busy (at_phase s')), (busy (at_phase (shared c))); simpl in *; (done || lia).
  - by eapply dispatch_rests.
  - pose proof (dispatch_calls _ _ _ _ _ _ Hs Hf Ir Ih Ie Iu Is). lia.
  - pose proof (dispatch_taken _ _ _ _ _ _ Hs Hf Ir Ih Ie Iu Is). lia.
  - by eapply dispatch_registered.
  - intros E. pose proof (count_others cancelling _ _ _ Hi).
    destruct (dispatch_cancel _ _ _ _ _ _ Hs Hf Ir Ih Ie Iu Is E) as [?|[?|[El|(E1 & El & E2 & E3)]]]; auto.
    + left. rewrite El. simpl. lia.
    + destruct (Ia E1) as [?|[?|?]]; [left; rewrite El; destruct (cancelling l'); simpl; lia|..];
        right; [left|right]; congruence.
  - by eapply dispatch_src.
  - by eapply dispatch_flags.
  - by eapply dispatch_flags.
  - by eapply dispatch_flags.
  - by eapply dispatch_releases.
Qed.

(** ** The calls on the mutex *)

(** The thread is in a handler of the source, or about to create it, and the guard
    is active. *)
Definition guarded (l : pc) : bool :=
  match l with Create | OnEvent | Retry | Consume | Unregister | Mark AfterCheck _ => true | _ => false end.

(** While the operation waits, the guard is active. *)
Definition armed (c : config op pc) : Prop :=
  is_mutex prim = true ->
  (at_phase (shared c) = Resting -> undecided (shared c) -> waiter_guard_ (shared c) = true) /\
  Forall (fun l => guarded l = true -> waiter_guard_ (shared c) = true) (threads c).

Lemma dispatch_armed_step i ch s s' l l' :
  tstep prim cancellable i ch s l = Some (s', l') -> fits s l -> rests s -> is_mutex prim = true ->
  (at_phase s = Resting -> undecided s -> waiter_guard_ s = true) -> (guarded l = true -> waiter_guard_ s = true) ->
  (at_phase s' = Resting -> undecided s' -> waiter_guard_ s' = true) /\ (guarded l' = true -> waiter_guard_ s' = true) /\
  (token l = false -> waiter_guard_ s' = waiter_guard_ s).
Proof.
  intros Hs Hf Hq Hp Hr Hl. unfold rests in Hq. dispatch_cases Hs Hf; simpl in *; intuition (try congruence);
    destruct (handler_invoked s); intuition congruence.
Qed.

Lemma dispatch_armed n c : reachable (tstep prim cancellable) (init n) c -> Inv c /\ armed c.
Proof.
  revert c. apply invariant_reachable.
  - split; [apply dispatch_init_ok|]. intros _. simpl. split; [done|]. by apply Forall_replicate.
  - intros i ch c l s' l' [HI Ha] Hi Hs. split; [by eapply dispatch_step_ok|]. intros Hp.
    destruct (Ha Hp) as [H1 H2]. pose proof (Forall_lookup_1 _ _ _ _ (inv_fits _ HI) Hi) as Hf. simpl in Hf.
    destruct (dispatch_armed_step _ _ _ _ _ _ Hs Hf (inv_rests _ HI) Hp H1 (Forall_lookup_1 _ _ _ _ H2 Hi)) as (H3 & H4 & H5).
    split; [done|]. apply Forall_lookup_2. cbn [threads]. intros j x. rewrite list_lookup_insert_Some.
    intros [(<- & <- & _)|[Hne Hj]]; [done|]. intros Hg. cbn [shared].
    rewrite H5; [by apply (Forall_lookup_1 _ _ _ _ H2 Hj)|].
    assert (token x = true) as Hx by (by destruct x).
    apply (token_alone c i j l x); try done. rewrite (inv_token _ HI). by destruct (busy _).
Qed.

(** The call a thread makes in its next step. *)
Definition mutex_call (s : op) (l : pc) : option AsyncOp.mutex_call :=
  match l with
  | TryNow => Some TryLock
  | Register => Some AddGuard
  | Retry => Some TryAcquire
  | Consume => Some ConsumeLock
  | Unregister | Reset _ => if waiter_guard_ s then Some ReleaseGuard else None
  | Undo _ => Some UnlockMutex
  | _ => None
  end.

Definition consuming (l : pc) : bool := match l with Consume => true | _ => false end.

Definition result (ch : choice) : bool := match ch with Act b => b | _ => false end.

Lemma mutex_call_token s l : mutex_call s l <> None -> token l = true.
Proof. by destruct l. Qed.

Lemma consuming_token l : consuming l = true -> token l = true.
Proof. by destruct l. Qed.

(** What the ledger says before a call. *)
Lemma dispatch_carried c i l :
  Inv c -> threads c !! i = Some l -> mutex_call (shared c) l <> None ->
  taken (book (shared c)) = Z.b2z (holding l) /\ count consuming (threads c) = Z.b2z (consuming l) /\
  count token (threads c) = 1 /\ delivered (book (shared c)) = [].
Proof.
  intros HI Hi Hm. pose proof (mutex_call_token _ _ Hm) as El.
  pose proof (Forall_lookup_1 _ _ _ _ (inv_fits _ HI) Hi) as Hf. simpl in Hf.
  assert (Z.b2z (handler_invoked (shared c)) = Z.b2z (committed l)) as E.
  { destruct l; try done; try (destruct p); simpl in *; unfold private, undecided in Hf; destruct_and?;
      destruct (handler_invoked (shared c)); try done; naive_solver. }
  pose proof (inv_calls _ HI) as Ic. rewrite E in Ic.
  pose proof (count_others committed _ _ _ Hi). pose proof (successes_calls (book (shared c))).
  assert (posted (shared c) = []) as Ep by (destruct (posted (shared c)); [done|simpl in *; lia]).
  pose proof (inv_taken _ HI) as It. rewrite Ep in It, Ic. simpl in It, Ic.
  pose proof (inv_token _ HI) as Hk. pose proof (count_pos _ _ _ _ Hi El).
  assert (count token (threads c) = 1) as E1 by (destruct (busy _); simpl in Hk; lia).
  pose proof (count_others_le _ _ _ _ _ consuming_token Hi). pose proof (count_others consuming _ _ _ Hi).
  rewrite El, E1 in *. simpl in *. split_and!; try lia.
  - rewrite It, (count_only holding (threads c) i l Hi); [|intros j x Hne Hj].
    + pose proof (successes_calls (book (shared c))). lia.
    + assert (token x = false) by (eapply count_rest_false; [|exact Hi|done|done]; rewrite El, E1; done).
      assert (committed x = false) by (eapply count_rest_false; [|exact Hi|done|done]; lia).
      by destruct x as [| | | | | | | | | | |?|? []|?|? []|? []| | | | | |[]].
  - apply calls_none. lia.
Qed.

Definition dispatch_rights (c : config op pc) : rights := rights_in (book (shared c)) (count consuming (threads c)).

(** The destructor finds nothing to release. *)
Lemma destroy_nothing s : unreferenced cancellable s = true -> rests s -> destroy prim s = s.
Proof.
  unfold unreferenced, rests, destroy, release_source, release_guard. intros Hu Hr. bools.
  match goal with H : bool_decide _ = true |- _ => apply bool_decide_eq_true in H; rewrite H in Hr end.
  destruct Hr as (_ & Eg & ->). by rewrite Eg.
Qed.

(** A step that makes no call changes nothing that the rights are about. *)
Lemma dispatch_silent i ch s s' l l' :
  tstep prim cancellable i ch s l = Some (s', l') -> rests s -> mutex_call s l = None ->
  taken (book s') = taken (book s) /\ registered (book s') = registered (book s) /\
  consuming l = false /\ consuming l' = false.
Proof.
  intros Hs Hr Hm. pose proof (fun E => destroy_nothing s E Hr) as Hd.
  destruct l as [| | | | | | | | | | |p|p r|p|p r|p r| | | | | |r], ch as [| | | | | |b]; try discriminate Hs;
    simpl in Hs, Hm; try discriminate Hm; step_cases Hs;
    try (by rewrite Hd);
    unfold after_acquire, finish, release_guard, release_source, create, request_cancellation in *;
    unfold deliver; repeat (case_match; simplify_eq/=; try congruence); auto.
Qed.

(** An operation keeps to the protocol of the guard. *)
Lemma dispatch_conforms n c i ch l s' l' :
  prim = PMutex true -> reachable (tstep prim cancellable) (init n) c -> threads c !! i = Some l ->
  tstep prim cancellable i ch (shared c) l = Some (s', l') ->
  conforms (mutex_call (shared c) l) (result ch) (dispatch_rights c)
    (dispatch_rights (Config s' (<[i := l']> (threads c)))).
Proof.
  intros Hp [HI Ha]%dispatch_armed Hi Hs. unfold dispatch_rights, rights_in. cbn [shared threads].
  rewrite (count_insert _ _ _ _ _ Hi).
  destruct (mutex_call (shared c) l) as [m|] eqn:Em; cycle 1.
  { destruct (dispatch_silent _ _ _ _ _ _ Hs (inv_rests _ HI) Em) as (-> & -> & -> & ->). simpl. by rewrite Z.sub_0_r, Z.add_0_r. }
  destruct (dispatch_carried c i l HI Hi) as (Ht & Hk & _ & _); [congruence|].
  pose proof (inv_registered _ HI) as Hn. rewrite Hp in Hn. destruct Ha as [_ Hg]; [by rewrite Hp|].
  pose proof (Forall_lookup_1 _ _ _ _ Hg Hi) as Hgl. pose proof (Forall_lookup_1 _ _ _ _ (inv_fits _ HI) Hi) as Hf.
  clear Hg HI Hi. simpl in Hgl, Hf, Hn. rewrite Hk, Ht, Hn. clear Hk. generalize dependent (shared c). intros s **.
  destruct (waiter_guard_ s) eqn:Eg;
    dispatch_cases Hs Hf; simpl in *; simplify_eq/=; try congruence; try (by specialize (Hgl eq_refl));
    rewrite ?Ht, ?Hn; simpl; try done.
Qed.

(** Once the result is decided and carried by nobody, the guard is gone. *)
Lemma decided_unguarded c :
  Inv c -> handler_invoked (shared c) = true -> count committed (threads c) = 0 ->
  waiter_guard_ (shared c) = false.
Proof.
  intros [It If Ir _ _ _ _ _ _ _ _ _] Ed E0. unfold rests, undecided in Ir.
  assert (forall l, token l = true -> fits (shared c) l -> committed l = false -> waiter_guard_ (shared c) = false)
    as Hfit.
  { intros l Hl Hfl Hcl. destruct l as [| | | | | | | | | | |p|p r|p|p r|p r| | | | | |r]; try done; try destruct p;
      simpl in Hfl; unfold private, undecided, cleaning in Hfl; destruct_and?; try congruence; auto. }
  destruct (busy (at_phase (shared c))) eqn:Eb.
  - destruct (count_witness token (threads c)) as (i & l & Hi & Hl); [rewrite It; simpl; lia|].
    apply (Hfit l); [done|by apply (Forall_lookup_1 _ _ _ _ If Hi)|].
    destruct (committed l) eqn:El; [|done]. pose proof (count_pos _ _ _ _ Hi El). lia.
  - destruct (at_phase (shared c)); try discriminate Eb; destruct_and?; try congruence; intuition congruence.
Qed.

(** Then nobody else has the lock or token. *)
Lemma dispatch_decided_holds c :
  Inv c -> handler_invoked (shared c) = true -> count committed (threads c) = 0 -> count holding (threads c) = 0.
Proof.
  intros HI Ed E0. apply count_all_false. intros l [i Hi]%list_elem_of_lookup.
  pose proof (Forall_lookup_1 _ _ _ _ (inv_fits _ HI) Hi) as Hf. simpl in Hf.
  destruct (holding l) eqn:El; [|done]. destruct (committed l) eqn:Ec; [pose proof (count_pos _ _ _ _ Hi Ec); lia|].
  destruct l as [| | | | | | | | | | |p|p r|p|p r|p r| | | | | |r]; try done; try destruct p; try destruct r; try done;
    simpl in Hf; unfold private, undecided in Hf; destruct_and?; congruence.
Qed.

Lemma dispatch_inv_reachable n c : reachable (tstep prim cancellable) (init n) c -> Inv c.
Proof. apply invariant_reachable; [apply dispatch_init_ok|]. intros. by eapply dispatch_step_ok. Qed.
End facts.

(** The handler is called by the operation, and only by it. *)
Lemma dispatch_started prim cancellable i ch s l s' l' :
  tstep prim cancellable i ch s l = Some (s', l') -> at_phase s <> Fresh -> at_phase s' <> Fresh.
Proof.
  intros Hs Hst. destruct l as [| | | | | | | | | | |p|p r|p|p r|p r| | | | | |r], ch as [| | | | | |b];
    try (destruct p); try discriminate Hs; simpl in Hs; step_cases Hs;
    unfold destroy, finish, acquired_now, acquired_event, after_acquire, emplace, release_guard, create, undo,
      cancel_source, release_source in *; repeat (case_match; simplify_eq/=); congruence.
Qed.

Lemma dispatch_delivered prim cancellable i ch c l s' l' :
  Inv prim cancellable c -> threads c !! i = Some l ->
  tstep prim cancellable i ch (shared c) l = Some (s', l') ->
  delivered (book s') = delivered (book (shared c)) \/
  at_phase (shared c) <> Fresh /\ at_phase s' <> Fresh /\
  exists r, delivered (book s') = delivered (book (shared c)) ++ [r].
Proof.
  intros HI Hi Hs. pose proof (dispatch_started _ _ _ _ _ _ _ _ Hs) as Hst.
  assert ((exists r, l = Invoke r) \/ (forall r, l <> Invoke r)) as [[r ->]|Hn] by (destruct l; eauto).
  - right. assert (at_phase (shared c) <> Fresh) as Hp.
    { intros Ep. pose proof (inv_rests _ _ _ HI) as Ir. unfold rests, undecided in Ir. rewrite Ep in Ir.
      destruct Ir as [Ed _]. pose proof (inv_calls _ _ _ HI) as Ic. rewrite Ed in Ic.
      pose proof (count_pos committed _ _ _ Hi eq_refl). pose proof (successes_calls (book (shared c))).
      simpl in Ic. lia. }
    destruct ch; try discriminate Hs; simpl in Hs; simplify_eq/=. eauto.
  - left. destruct l as [| | | | | | | | | | |p|p r|p|p r|p r| | | | | |r], ch as [| | | | | |b];
      try (destruct p); try discriminate Hs; simpl in Hs; step_cases Hs;
      unfold destroy, finish, acquired_now, acquired_event, after_acquire, emplace, release_guard, create, undo,
        cancel_source, release_source in *; repeat (case_match; simplify_eq/=); try done. by edestruct Hn.
Qed.

(** ** Theorems *)

(** Everything libdispatch has to run was run, and no thread is under way. *)
Definition quiescent (c : config op pc) : Prop :=
  Forall (eq Idle) (threads c) /\ posted (shared c) = [] /\
  (at_phase (shared c) = Resting -> source_cancelled (shared c) = false).

Lemma quiescent_count (f : pc -> bool) c : quiescent c -> f Idle = false -> count f (threads c) = 0.
Proof.
  intros (Hq & _) Hf. apply count_all_false. intros x Hx.
  rewrite Forall_forall in Hq. by rewrite <- (Hq x Hx).
Qed.

(** C17: the handler of an asynchronous acquisition is called at most once, under
    every interleaving of the queues and of cancellation; the lock or token was
    taken exactly as often as the handler was or will be called with success; when
    it was called no waiter is registered; and the source is released at most
    once, by the cancel handler or by the destructor. *)
Theorem dispatch_handler_once prim cancellable n c :
  reachable (tstep prim cancellable) (init n) c ->
  calls (book (shared c)) <= 1 /\ releases (shared c) <= 1 /\
  taken (book (shared c)) =
    successes (book (shared c)) + count holding (threads c) + count is_acquired (posted (shared c)) /\
  (calls (book (shared c)) = 1 ->
     registered (book (shared c)) = 0 /\ posted (shared c) = [] /\ count committed (threads c) = 0).
Proof.
  intros HI%dispatch_inv_reachable. pose proof (inv_calls _ _ _ HI) as Ic.
  pose proof (count_bounds committed (threads c)). pose proof (successes_calls (book (shared c))).
  assert (Z.b2z (handler_invoked (shared c)) <= 1) by (destruct (handler_invoked _); simpl; lia).
  split_and!; [lia| |rewrite (inv_taken _ _ _ HI); lia|].
  { destruct (inv_releases _ _ _ HI) as (_ & ? & _). destruct (src_ (shared c)); simpl in *; lia. }
  intros E. assert (count committed (threads c) = 0) as E0 by lia.
  assert (handler_invoked (shared c) = true) as Ed by (destruct (handler_invoked _); [done|simpl in *; lia]).
  split_and!; [|destruct (posted _); [done|simpl in *; lia]|done].
  rewrite (inv_registered _ _ _ HI).
  enough (waiter_guard_ (shared c) = false) as -> by (destruct prim as [[]| |]; done).
  by eapply decided_unguarded.
Qed.

(** C18: the handler is called exactly once, cancellation included: when nothing is
    left to run, an operation that was started has called its handler, or else it
    still waits, its source armed, and nobody has cancelled it. *)
Theorem dispatch_completes prim cancellable n c :
  reachable (tstep prim cancellable) (init n) c -> quiescent c -> at_phase (shared c) <> Fresh ->
  calls (book (shared c)) = 1 \/
  (at_phase (shared c) = Resting /\ source_cancelled (shared c) = false /\ cancelled (shared c) = false).
Proof.
  intros HI%dispatch_inv_reachable Hq Hf. destruct HI as [It _ Ir Ic _ _ Ia _ _ _ _ _].
  pose proof Hq as (_ & Hp & Hrest).
  rewrite (quiescent_count token _ Hq) in It by done. rewrite (quiescent_count committed _ Hq), Hp in Ic by done.
  rewrite (quiescent_count cancelling _ Hq) in Ia by done. simpl in Ic.
  unfold rests in Ir. destruct (at_phase (shared c)) eqn:Ep; try done.
  - specialize (Hrest eq_refl). destruct (handler_invoked (shared c)) eqn:Eh; [left; simpl in Ic; lia|].
    right. split_and!; try done. destruct (cancelled (shared c)); [|done].
    destruct (Ia eq_refl) as [?|[?|?]]; [lia|congruence|congruence].
  - left. destruct Ir as [Eh _]. rewrite Eh in Ic. simpl in Ic. lia.
Qed.

(** Cancellation from another thread while the operation completes. *)
Definition use_after_release_sched : list (nat * choice) :=
  [(0%nat, Start); (0%nat, Act true); (0%nat, Act false); (0%nat, Act true);
   (0%nat, Cancel); (0%nat, Act true); (0%nat, Act true);
   (1%nat, Cancel); (1%nat, Act true); (1%nat, Act true); (1%nat, Act true);
   (1%nat, RunCancel); (1%nat, Act true); (0%nat, Act true)].

(** [cancel()] races with the release of the source: between its test of
    [src_] and [dispatch_source_cancel( src_ )] the cancel handler can release the
    source, and the released source is used. *)
Theorem dispatch_source_used_after_release :
  exists c, reachable (tstep PSemaphore true) (init 2) c /\
    misused (shared c) = true /\ releases (shared c) = 1 /\ src_ (shared c) = false.
Proof. eexists. split; [apply (exec_reachable _ use_after_release_sched); by vm_compute|]. done. Qed.

(** ** Witnesses *)

(** A cancelled wait, run to its end. *)
Definition cancelled_sched : list (nat * choice) :=
  [(0%nat, Start); (0%nat, Act true); (0%nat, Act false); (0%nat, Act true); (0%nat, Act true);
   (0%nat, Cancel); (0%nat, Act true); (0%nat, Act true); (0%nat, Act true);
   (1%nat, RunCancel); (1%nat, Act true); (1%nat, Act true); (1%nat, Act true); (1%nat, Act true);
   (1%nat, Act true); (0%nat, RunPosted); (0%nat, Act true)].

Definition cancelled_config : config op pc :=
  default (init 2) (exec (tstep (PMutex true) true) cancelled_sched (init 2)).

Lemma dispatch_cancelled_reachable : reachable (tstep (PMutex true) true) (init 2) cancelled_config.
Proof. apply (exec_reachable _ cancelled_sched). by vm_compute. Qed.

Lemma dispatch_handler_once_witness :
  delivered (book (shared cancelled_config)) = [Canceled] /\ registered (book (shared cancelled_config)) = 0.
Proof.
  split; [reflexivity|].
  apply (dispatch_handler_once (PMutex true) true 2 cancelled_config); [apply dispatch_cancelled_reachable|reflexivity].
Defined.

Lemma dispatch_completes_witness :
  calls (book (shared cancelled_config)) = 1 \/
  (at_phase (shared cancelled_config) = Resting /\ source_cancelled (shared cancelled_config) = false /\
   cancelled (shared cancelled_config) = false).
Proof.
  apply (dispatch_completes (PMutex true) true 2 cancelled_config); [apply dispatch_cancelled_reachable| |discriminate].
  split; [by repeat constructor|]. split; [reflexivity|discriminate].
Defined.
