(* ===== verification/DispatchFuture.v ===== *)
(** * Asynchronous acquisition with a future, on libdispatch

    The overloads of [async_acquire] and [async_wait] in
    mutex/support/libdispatch_support.hpp, semaphore/support/libdispatch_support.hpp
    and event/support/libdispatch_support.hpp that return a [std::future]: a block
    [*retry_func] creates a source, whose event handler tries to acquire; it then
    cancels the source and queues a block that sets the promise, or [*retry_func]
    again.  One machine has one operation and any number of threads of the queues.
    What is relied on of libdispatch is said in [DispatchAcquire.v]. *)
From S2P Require Import Prelude Machine AsyncOp.
#[local] Open Scope Z_scope.

(** A source: resumed, its event handler runs, the same after
    [dispatch_source_cancel], cancelled, and released by its cancel handler. *)
Inductive source := Armed | Firing | Cancelling | Cancelled | Released.

Definition is_armed (x : source) : bool := match x with Armed => true | _ => false end.

Record op := Op {
  started : bool;
  waiter_guard_ : bool;     (** [wg] holds a registration *)
  sources : list source;    (** in the order of their creation *)
  retries : nat;            (** blocks queued that call [*retry_func] *)
  values : nat;             (** blocks queued that set the promise *)
  satisfied : Z;            (** calls of [set_value] *)
  book : ledger
}.

Definition set_source (i : nat) (x : source) (s : op) : op :=
  Op (started s) (waiter_guard_ s) (<[i := x]> (sources s)) (retries s) (values s) (satisfied s) (book s).
Definition set_queued (r v : nat) (s : op) : op :=
  Op (started s) (waiter_guard_ s) (sources s) r v (satisfied s) (book s).
Definition set_book (g : ledger) (s : op) : op :=
  Op (started s) (waiter_guard_ s) (sources s) (retries s) (values s) (satisfied s) g.

Inductive pc :=
| Idle
| TryNow                             (** [try_lock()], [try_acquire()], [try_wait()] *)
| Register                           (** the guard [wg] *)
| FirstRetry                         (** [dispatch_async( queue, .. )] before the return *)
| Create                             (** [*retry_func]: create and resume a source *)
| OnEvent (i : nat)                  (** the event handler: try to acquire *)
| Consume (i : nat)                  (** [wg->try_acquire()]: [consume_lock()] *)
| Unregister (i : nat)               (** [wg->try_acquire()]: [release()] *)
| SourceCancel (i : nat) (ok : bool) (** [dispatch_source_cancel( src )] *)
| Post (i : nat) (ok : bool)         (** [dispatch_async] of [set_value] or of [*retry_func] *)
| SetValue.                          (** the block: [promise->set_value] *)

Inductive choice :=
| Start               (** a client calls [async_acquire] *)
| RunRetry            (** the queue runs [*retry_func] *)
| Fire (i : nat)      (** the queue runs the event handler of a source *)
| RunCancel (i : nat) (** the queue runs the cancel handler of a source *)
| RunValue            (** the global queue runs the block that sets the promise *)
| Act (b : bool).     (** the next step; the result of a try *)

Section machine.
Context (prim : primitive).

Definition begin (s : op) : op :=
  Op true (waiter_guard_ s) (sources s) (retries s) (values s) (satisfied s) (book s).

(** [promise->set_value]. *)
Definition set_value (s : op) : op :=
  Op (started s) (waiter_guard_ s) (sources s) (retries s) (values s) (satisfied s + 1) (book s).

Definition emplace (s : op) : op :=
  Op (started s) true (sources s) (retries s) (values s) (satisfied s)
    (match prim with PMutex w => add_registered (Z.b2z w) (book s) | _ => book s end).

Definition release_guard (s : op) : op :=
  if waiter_guard_ s then
    Op (started s) false (sources s) (retries s) (values s) (satisfied s)
      (match prim with PMutex w => add_registered (- Z.b2z w) (book s) | _ => book s end)
  else s.

(** [*retry_func]. *)
Definition create (s : op) : op :=
  Op (started s) (waiter_guard_ s) (sources s ++ [Armed]) (retries s) (values s) (satisfied s) (book s).

Definition tstep (tid : nat) (ch : choice) (s : op) (l : pc) : option (op * pc) :=
  match l, ch with
  | Idle, Start => if started s then None else Some (begin s, TryNow)
  | TryNow, Act true => Some (set_value (set_book (add_taken 1 (book s)) s), Idle)
  | TryNow, Act false => Some (s, if is_mutex prim then Register else FirstRetry)
  | Register, Act _ => Some (emplace s, FirstRetry)
  | FirstRetry, Act _ => Some (set_queued (S (retries s)) (values s) s, Idle)
  | Idle, RunRetry => match retries s with S r => Some (set_queued r (values s) s, Create) | O => None end
  | Create, Act _ => Some (create s, Idle)
  | Idle, Fire i =>
      match sources s !! i with Some Armed => Some (set_source i Firing s, OnEvent i) | _ => None end
  | OnEvent i, Act true =>
      Some (set_book (add_taken 1 (book s)) s, if is_mutex prim then Consume i else SourceCancel i true)
  | OnEvent i, Act false => Some (s, SourceCancel i false)
  | Consume i, Act _ => Some (s, Unregister i)
  | Unregister i, Act _ => Some (release_guard s, SourceCancel i true)
  | SourceCancel i ok, Act _ => Some (set_source i Cancelling s, Post i ok)
  | Post i ok, Act _ =>
      let s' := set_source i Cancelled s in
      Some (if ok then set_queued (retries s) (S (values s)) s' else set_queued (S (retries s)) (values s) s', Idle)
  | Idle, RunCancel i =>
      match sources s !! i with Some Cancelled => Some (set_source i Released s, Idle) | _ => None end
  | Idle, RunValue => match values s with S v => Some (set_queued (retries s) v s, SetValue) | O => None end
  | SetValue, Act _ => Some (set_value s, Idle)
  | _, _ => None
  end.
End machine.

(** The overloads of the source. *)
Definition mutex_async_acquire (async_waiter : bool) := tstep (PMutex async_waiter).
Definition semaphore_async_acquire := tstep PSemaphore.
Definition event_async_wait := tstep PEvent.

Definition new_op : op := Op false false [] 0 0 0 fresh.

Definition init (n : nat) : config op pc := Config new_op (replicate n Idle).

(** ** The invariant *)

(** The operation is in exactly one place: not started, with a thread, in a
    queue, in an armed source, or done. *)
Definition token (l : pc) : bool := match l with Idle => false | _ => true end.

Definition places (s : op) : Z :=
  Z.b2z (negb (started s)) + Z.of_nat (retries s) + Z.of_nat (values s) + satisfied s + count is_armed (sources s).

(** The thread has the lock or token. *)
Definition holding (l : pc) : bool :=
  match l with Consume _ | Unregister _ | SourceCancel _ true | Post _ true | SetValue => true | _ => false end.

(** The thread has it, and the guard is released. *)
Definition won (l : pc) : bool :=
  match l with SourceCancel _ true | Post _ true | SetValue => true | _ => false end.

(** The source whose event handler the thread runs. *)
Definition fits (prim : primitive) (s : op) (l : pc) : Prop :=
  match l with
  | TryNow => waiter_guard_ s = false
  | Register => waiter_guard_ s = false /\ is_mutex prim = true
  | OnEvent i | Consume i | Unregister i | SourceCancel i _ => sources s !! i = Some Firing
  | Post i _ => sources s !! i = Some Cancelling
  | _ => True
  end.

Definition running (x : source) : bool := match x with Firing | Cancelling => true | _ => false end.
Definition handling (l : pc) : bool :=
  match l with OnEvent _ | Consume _ | Unregister _ | SourceCancel _ _ | Post _ _ => true | _ => false end.

Section facts.
Context (prim : primitive).

Definition registrations (s : op) : Z :=
  match prim with PMutex w => Z.b2z (w && waiter_guard_ s) | _ => 0 end.

Record Inv (c : config op pc) : Prop := {
  inv_token : places (shared c) + count token (threads c) = 1;
  inv_satisfied : 0 <= satisfied (shared c);
  inv_taken : taken (book (shared c)) =
    satisfied (shared c) + Z.of_nat (values (shared c)) + count holding (threads c);
  inv_registered : registered (book (shared c)) = registrations (shared c);
  inv_guard : Z.b2z (waiter_guard_ (shared c)) + Z.of_nat (values (shared c)) + satisfied (shared c) +
    count won (threads c) <= 1;
  inv_fresh : started (shared c) = false -> waiter_guard_ (shared c) = false;
  inv_mutex : waiter_guard_ (shared c) = true -> is_mutex prim = true;
  inv_fits : Forall (fits prim (shared c)) (threads c);
  inv_running : count running (sources (shared c)) = count handling (threads c)
}.

Lemma future_init_ok n : Inv (init n).
Proof.
  constructor; simpl; rewrite ?count_replicate by done; try done.
  - unfold registrations. by destruct prim as [[]| |].
  - by apply Forall_replicate.
Qed.

Section step.
Context (i : nat) (ch : choice) (s s' : op) (l l' : pc).
Hypothesis Hs : tstep prim i ch s l = Some (s', l').
Hypothesis Hf : fits prim s l.

Ltac future_cases Hs Hf :=
  destruct l as [| | | | |k|k|k|k ok|k ok|], ch as [| |k'|k'| |[]]; try discriminate Hs; simpl in Hs, Hf;
  destruct_and?; step_cases Hs; unfold release_guard in *; repeat (case_match; simplify_eq/=).

Lemma future_places : places s' - places s = Z.b2z (token l) - Z.b2z (token l').
Proof using Hs Hf.
  future_cases Hs Hf; unfold places; simpl;
    rewrite ?count_app, ?(count_insert is_armed _ _ _ _ ltac:(eassumption)); simpl;
    repeat match goal with H : _ = _ |- _ => rewrite H end; simpl; lia.
Qed.

(** Rewrite with what is known of the record and count. *)
Ltac tally :=
  simpl; rewrite ?count_app, ?(count_insert running _ _ _ _ ltac:(eassumption)); simpl;
  repeat match goal with H : ?f s = _ |- context [?f s] => rewrite H end; simpl; try lia.

Lemma future_taken :
  taken (book s') - taken (book s) =
  satisfied s' - satisfied s + (Z.of_nat (values s') - Z.of_nat (values s)) + Z.b2z (holding l') - Z.b2z (holding l).
Proof using Hs Hf. future_cases Hs Hf; tally. Qed.

Lemma future_registered : registered (book s) = registrations s -> registered (book s') = registrations s'.
Proof using Hs Hf.
  intros Hr. unfold registrations in *. future_cases Hs Hf; simpl in *; try done;
    repeat match goal with H : waiter_guard_ s = _ |- _ => rewrite H in * end; simpl in *;
    rewrite ?andb_true_r, ?andb_false_r in *; simpl in *; lia.
Qed.

Lemma future_running : count running (sources s') - count running (sources s) = Z.b2z (handling l') - Z.b2z (handling l).
Proof using Hs Hf. future_cases Hs Hf; tally. Qed.

Lemma future_satisfied : satisfied s <= satisfied s'.
Proof using Hs. clear Hf. future_cases Hs Hs; simpl; lia. Qed.

Lemma future_fits : (started s = false -> waiter_guard_ s = false) -> fits prim s' l'.
Proof using Hs Hf.
  intros Hg. future_cases Hs Hf; auto; apply list_lookup_insert_eq; by eapply lookup_lt_Some.
Qed.

(** The guard takes its registration before anything was won, and gives it back. *)
Lemma future_guard :
  (waiter_guard_ s = true -> is_mutex prim = true) ->
  Z.b2z (waiter_guard_ s') + Z.of_nat (values s') + satisfied s' + Z.b2z (won l') <=
    Z.b2z (waiter_guard_ s) + Z.of_nat (values s) + satisfied s + Z.b2z (won l) \/
  token l = true /\ Z.b2z (waiter_guard_ s') + Z.of_nat (values s') + satisfied s' + Z.b2z (won l') <=
    1 + Z.of_nat (values s) + satisfied s.
Proof using Hs Hf.
  intros Hg. destruct (waiter_guard_ s) eqn:Eg; [specialize (Hg eq_refl)|clear Hg];
  future_cases Hs Hf; simpl; try congruence;
    repeat match goal with H : waiter_guard_ _ = _ |- _ => rewrite H; clear H end;
    try (left; simpl; lia); (right; split; [done|]; simpl; lia).
Qed.

Lemma future_mutex : (waiter_guard_ s = true -> is_mutex prim = true) -> waiter_guard_ s' = true ->
  l = Register \/ is_mutex prim = true.
Proof using Hs Hf. intros Hg. future_cases Hs Hf; auto; intros; (done || congruence). Qed.

Lemma future_fresh : (started s = false -> waiter_guard_ s = false) -> places s + Z.b2z (token l) <= 1 ->
  0 <= satisfied s -> started s' = false -> waiter_guard_ s' = false.
Proof using Hs Hf.
  intros Hg Hp Hn. unfold places in Hp. pose proof (count_bounds is_armed (sources s)).
  future_cases Hs Hf; try done; auto; intros E; rewrite E in *; simpl in *; (done || lia).
Qed.

(** What another thread relies on. *)
Lemma future_frame x :
  (token x = true -> token l = false) -> fits prim s x -> fits prim s' x.
Proof using Hs Hf.
  intros Hx. destruct (token x) eqn:Ex; [|by destruct x]. specialize (Hx eq_refl).
  destruct l; try discriminate Hx. destruct ch as [| |k|k| |]; try discriminate Hs; simpl in Hs; step_cases Hs;
    try (by destruct x).
  all: destruct x as [| | | | |j|j|j|j ok|j ok|]; try discriminate Ex; simpl; try done; intros Hj.
  all: (destruct (decide (k = j)) as [->|]; [congruence|by rewrite list_lookup_insert_ne]).
Qed.
End step.

Lemma future_step_ok i ch c l s' l' :
  Inv c -> threads c !! i = Some l -> tstep prim i ch (shared c) l = Some (s', l') ->
  Inv (Config s' (<[i := l']> (threads c))).
Proof.
  intros [It Ip Ik Ir Ig Iu Im If In] Hi Hs. pose proof (Forall_lookup_1 _ _ _ _ If Hi) as Hf. simpl in Hf.
  pose proof (future_places _ _ _ _ _ _ Hs Hf). pose proof (count_others token _ _ _ Hi) as Ht.
  pose proof (future_satisfied _ _ _ _ _ _ Hs).
  constructor; cbn [shared threads]; rewrite ?(count_insert _ _ _ _ _ Hi).
  - lia.
  - lia.
  - pose proof (future_taken _ _ _ _ _ _ Hs Hf). lia.
  - by eapply future_registered.
  - destruct (future_guard _ _ _ _ _ _ Hs Hf Im) as [|[El Hle]]; [lia|].
    (* a thread under way is the only one *)
    assert (count won (threads c) - Z.b2z (won l) <= count token (threads c) - Z.b2z (token l)) as Hw
      by (apply (count_others_le _ _ _ i); [by intros []|done]).
    unfold places in It. pose proof (count_bounds is_armed (sources (shared c))).
    rewrite El in *. destruct (started (shared c)); simpl in *; lia.
  - eapply future_fresh; try done. lia.
  - intros Eg. destruct (future_mutex _ _ _ _ _ _ Hs Hf Im Eg) as [->|]; [|done]. by destruct Hf.
  - apply Forall_lookup_2. intros j x. rewrite list_lookup_insert_Some.
    intros [(<- & <- & _)|[Hne Hj]]; [by eapply future_fits|].
    eapply future_frame; try done; [|by apply (Forall_lookup_1 _ _ _ _ If Hj)].
    intros Hx. destruct (token l) eqn:El; [|done]. destruct Hne.
    apply (count_unique token (threads c) i j l x); try done.
    unfold places in It. pose proof (count_bounds is_armed (sources (shared c))).
    destruct (started (shared c)); simpl in *; lia.
  - pose proof (future_running _ _ _ _ _ _ Hs Hf). lia.
Qed.

Lemma future_inv_reachable n c : reachable (tstep prim) (init n) c -> Inv c.
Proof. apply invariant_reachable; [apply future_init_ok|]. intros. by eapply future_step_ok. Qed.
End facts.

(** ** Theorems *)

(** Everything libdispatch has to run was run, and no thread is under way. *)
Definition quiescent (c : config op pc) : Prop :=
  Forall (eq Idle) (threads c) /\ retries (shared c) = 0%nat /\ values (shared c) = 0%nat /\
  Cancelled ∉ sources (shared c).

(** The promise of a libdispatch future is satisfied at most once, so [set_value]
    never throws, under every interleaving of the queues; the lock or token is
    taken exactly when the promise was or will be satisfied; at most one source is
    armed; and a satisfied future leaves no waiter registered. *)
Theorem dispatch_future_once prim n c :
  reachable (tstep prim) (init n) c ->
  0 <= satisfied (shared c) <= 1 /\
  taken (book (shared c)) =
    satisfied (shared c) + Z.of_nat (values (shared c)) + count holding (threads c) /\
  count is_armed (sources (shared c)) <= 1 /\
  (satisfied (shared c) = 1 -> registered (book (shared c)) = 0 /\ count is_armed (sources (shared c)) = 0).
Proof.
  intros [It Ip Ik Ir Ig _ _ _ _]%future_inv_reachable. unfold places in It.
  pose proof (count_bounds is_armed (sources (shared c))). pose proof (count_bounds token (threads c)).
  pose proof (count_bounds won (threads c)).
  assert (0 <= Z.b2z (negb (started (shared c)))) by (by destruct (started _)).
  assert (0 <= Z.b2z (waiter_guard_ (shared c))) by (by destruct (waiter_guard_ _)).
  split_and!; try lia. intros E. split; [|lia]. rewrite Ir. unfold registrations.
  assert (waiter_guard_ (shared c) = false) as -> by (destruct (waiter_guard_ _); [simpl in *; lia|done]).
  destruct prim as [[]| |]; done.
Qed.

(** A libdispatch future loses no wakeup: when nothing is left to run, an
    operation that was started has satisfied its promise, or exactly one source is
    armed; every other source was cancelled and released. *)
Theorem dispatch_future_waits prim n c :
  reachable (tstep prim) (init n) c -> quiescent c -> started (shared c) = true ->
  satisfied (shared c) + count is_armed (sources (shared c)) = 1 /\
  Forall (fun x => x = Armed \/ x = Released) (sources (shared c)).
Proof.
  intros [It _ _ _ _ _ _ _ In]%future_inv_reachable (Hq & Hr & Hv & Hc) Hst.
  assert (forall f : pc -> bool, f Idle = false -> count f (threads c) = 0) as H0.
  { intros f Hf. apply count_all_false. intros x Hx. rewrite Forall_forall in Hq. by rewrite <- (Hq x Hx). }
  unfold places in It. rewrite Hst, Hr, Hv, (H0 token) in It by done. rewrite (H0 handling) in In by done.
  split; [simpl in It; lia|]. apply Forall_forall. intros x Hx. pose proof Hx as [k Hk]%list_elem_of_lookup.
  destruct x; auto; try done; pose proof (count_pos running _ _ _ Hk eq_refl); lia.
Qed.

(** ** Witnesses *)

(** A spurious wakeup, then an acquisition, run to its end on two threads. *)
Definition demo_sched : list (nat * choice) :=
  [(0%nat, Start); (0%nat, Act false); (0%nat, Act true); (0%nat, Act true);
   (1%nat, RunRetry); (1%nat, Act true); (1%nat, Fire 0); (1%nat, Act false); (1%nat, Act true); (1%nat, Act true);
   (0%nat, RunCancel 0); (1%nat, RunRetry); (1%nat, Act true); (0%nat, Fire 1); (0%nat, Act true); (0%nat, Act true);
   (0%nat, Act true); (0%nat, Act true); (0%nat, Act true); (1%nat, RunValue); (0%nat, RunCancel 1); (1%nat, Act true)].

Definition demo_config : config op pc := default (init 2) (exec (tstep (PMutex true)) demo_sched (init 2)).

Lemma dispatch_future_demo_reachable : reachable (tstep (PMutex true)) (init 2) demo_config.
Proof. apply (exec_reachable _ demo_sched). by vm_compute. Qed.

Lemma dispatch_future_once_witness :
  satisfied (shared demo_config) = 1 /\ taken (book (shared demo_config)) = 1 /\
  registered (book (shared demo_config)) = 0.
Proof.
  split; [reflexivity|]. split; [reflexivity|].
  apply (dispatch_future_once (PMutex true) 2 demo_config); [apply dispatch_future_demo_reachable|reflexivity].
Defined.

Lemma dispatch_future_waits_witness :
  satisfied (shared demo_config) + count is_armed (sources (shared demo_config)) = 1 /\
  Forall (fun x => x = Armed \/ x = Released) (sources (shared demo_config)).
Proof.
  apply (dispatch_future_waits (PMutex true) 2); [apply dispatch_future_demo_reachable| |reflexivity].
  unfold quiescent. assert (threads demo_config = [Idle; Idle]) as -> by (by vm_compute).
  assert (sources (shared demo_config) = [Released; Released]) as -> by (by vm_compute).
  split; [by repeat constructor|]. split; [by vm_compute|]. split; [by vm_compute|]. set_solver.
Defined.
