(* ===== verification/QtAcquire.v ===== *)
(** * Asynchronous acquisition on the Qt event loop

    The operations of mutex/support/qt_support.hpp, semaphore/support/qt_support.hpp
    and event/support/qt_support.hpp: [qt_acquire_op], [qt_acquire_cancellable_op] and
    their counterparts for semaphores and events, with the handles.  Thread 0 is the
    thread of the context object and runs its event loop; the operation is started
    there, since Qt allows a notifier to be created and enabled only in its own
    thread.  The other threads cancel.

    What is relied on of Qt: an enabled notifier is activated only by the loop, one
    slot at a time, and never after it was deleted; [QMetaObject::invokeMethod] calls
    at once in the context's thread, and from another thread queues the call for
    the loop.  The notifier is that of POSIX systems, a [QSocketNotifier] on a
    duplicated descriptor, which consumes nothing; the [QWinEventNotifier] of Windows
    waits for the handle itself, and what its wait consumes is not modelled.  The
    results of the calls to the primitive and of [dup] are chosen by the environment. *)
From S2P Require Import Prelude Machine AsyncOp.
#[local] Open Scope Z_scope.

(** [op_] of the handle: none yet, the operation, in [cancel()], reset. *)
Inductive handle_state := NoHandle | Held | InCancel | Dropped.

#[export] Instance handle_state_eq_dec : EqDecision handle_state.
Proof. solve_decision. Defined.

Record op := Op {
  started : bool;
  handle : handle_state;
  cancellation_requested_ : bool;
  handler_invoked_ : bool;    (** for an operation without a handle a ghost: the result is decided *)
  waiter_guard_ : bool;
  notifier_ : option bool;    (** the notifier, enabled or not *)
  dup_fd_ : option bool;      (** [from_dup] was called; did it succeed? *)
  queued : bool;              (** the cancellation is queued for the loop *)
  destroyed : bool;           (** the last reference to the operation is gone *)
  book : ledger
}.

Definition set_flags (h : handle_state) (cr hi : bool) (s : op) : op :=
  Op (started s) h cr hi (waiter_guard_ s) (notifier_ s) (dup_fd_ s) (queued s) (destroyed s) (book s).
Definition set_notifier (n : option bool) (s : op) : op :=
  Op (started s) (handle s) (cancellation_requested_ s) (handler_invoked_ s) (waiter_guard_ s) n (dup_fd_ s)
    (queued s) (destroyed s) (book s).
Definition set_queued (h : handle_state) (q : bool) (s : op) : op :=
  Op (started s) h (cancellation_requested_ s) (handler_invoked_ s) (waiter_guard_ s) (notifier_ s) (dup_fd_ s)
    q (destroyed s) (book s).
Definition set_book (g : ledger) (s : op) : op :=
  Op (started s) (handle s) (cancellation_requested_ s) (handler_invoked_ s) (waiter_guard_ s) (notifier_ s)
    (dup_fd_ s) (queued s) (destroyed s) g.

Inductive pc :=
| Idle
| Check                    (** [start()]: [is_cancelled()] *)
| TryNow                   (** [start()]: [try_lock()], [try_acquire()], [try_wait()] *)
| Recheck                  (** [start()]: [is_cancelled()] again *)
| Register                 (** [start()]: [waiter_guard_.emplace( mtx_ )] *)
| Dup                      (** [create_and_arm_notifier()]: [from_dup] *)
| Arm                      (** [create_and_arm_notifier()]: the notifier *)
| OnNotified               (** [on_notified()]: [setEnabled( false )] *)
| EventCheck               (** [on_notified()]: [is_cancelled()] *)
| Retry                    (** [on_notified()]: try to acquire *)
| Consume                  (** [try_acquire()] of the guard: [consume_lock()] *)
| Unregister               (** [try_acquire()] of the guard: [release()] *)
| EventRecheck             (** [on_notified()]: [is_cancelled()] again *)
| Undo (in_event : bool)   (** [mtx_.unlock()], [sem_.release()] *)
| Rearm                    (** [on_notified()]: [setEnabled( true )] *)
| ResetGuard               (** [on_notified()]: [waiter_guard_.reset()] *)
| Delete (r : outcome)     (** [delete_notifier( notifier_ )] *)
| Mark (r : outcome)       (** [try_mark_invoked()] *)
| Invoke (r : outcome)     (** [handler_] *)
| Store                    (** [cancel()]: store [cancellation_requested_] *)
| Queue.                   (** [cancel()]: [QMetaObject::invokeMethod] *)

Inductive choice :=
| Start          (** a client starts the operation *)
| Cancel         (** a client calls [cancel()] on the handle, or destroys it *)
| Activated      (** the loop activates the notifier *)
| RunQueued      (** the loop runs the queued cancellation *)
| Destroy        (** the last reference to the operation goes *)
| Act (b : bool). (** the next step; the result of a try or of [dup] *)

Section machine.
Context (prim : primitive) (cancellable : bool).

Definition begin (s : op) : op :=
  Op true (handle s) (cancellation_requested_ s) (handler_invoked_ s) (waiter_guard_ s) (notifier_ s) (dup_fd_ s)
    (queued s) (destroyed s) (book s).

(** The end of [start()]: the caller gets the handle. *)
Definition return_handle (s : op) : op :=
  match handle s with
  | NoHandle => if cancellable then set_flags Held (cancellation_requested_ s) (handler_invoked_ s) s else s
  | _ => s
  end.

Definition emplace (s : op) : op :=
  match prim with
  | PMutex w =>
      Op (started s) (handle s) (cancellation_requested_ s) (handler_invoked_ s) true (notifier_ s) (dup_fd_ s)
        (queued s) (destroyed s) (add_registered (Z.b2z w) (book s))
  | _ => s
  end.

(** [release()] of the guard, also by [reset()] and by the destructor. *)
Definition release_guard (s : op) : op :=
  if waiter_guard_ s then
    Op (started s) (handle s) (cancellation_requested_ s) (handler_invoked_ s) false (notifier_ s) (dup_fd_ s)
      (queued s) (destroyed s) (add_registered (match prim with PMutex w => - Z.b2z w | _ => 0 end) (book s))
  else s.

(** [from_dup( native_handle() )]. *)
Definition dup (ok : bool) (s : op) : op :=
  Op (started s) (handle s) (cancellation_requested_ s) (handler_invoked_ s) (waiter_guard_ s) (notifier_ s)
    (Some ok) (queued s) (destroyed s) (book s).

Definition enable (b : bool) (s : op) : op :=
  match notifier_ s with Some _ => set_notifier (Some b) s | None => s end.

Definition undo (s : op) : op :=
  match prim with PEvent => s | _ => set_book (add_taken (-1) (book s)) s end.

(** [deliver_success()] or [deliver_cancellation()]: the operation without a
    handle does not mark. *)
Definition deliver (r : outcome) (s : op) : op * pc :=
  if cancellable then (s, Mark r)
  else (set_flags (handle s) (cancellation_requested_ s) true s, Invoke r).

(** After [try_acquire()] in [on_notified()]. *)
Definition after_acquire (s : op) : op * pc :=
  (s, if cancellable && is_mutex prim then EventRecheck else Delete Acquired).

Definition acquired_event (s : op) : op * pc :=
  let s' := set_book (add_taken 1 (book s)) s in
  if is_mutex prim then (s', Consume) else after_acquire s'.

(** The operation is referenced by the handle, the notifier's connection and
    the queued cancellation. *)
Definition unreferenced (s : op) : bool :=
  started s && negb (destroyed s) && negb (queued s) &&
  match notifier_ s with None => true | _ => false end &&
  match handle s with NoHandle | Dropped => true | _ => false end.

(** The destructor of the operation. *)
Definition destroy (s : op) : op :=
  let s' := release_guard s in
  Op (started s') (handle s') (cancellation_requested_ s') (handler_invoked_ s') (waiter_guard_ s') (notifier_ s')
    (dup_fd_ s') (queued s') true (book s').

(** Steps of the loop. *)
Definition loop_step (ch : choice) (s : op) (l : pc) : option (op * pc) :=
  match l, ch with
  | Idle, Start => if started s then None else Some (begin s, if cancellable then Check else TryNow)
  | Check, Act _ => Some (s, if cancellation_requested_ s then Mark Canceled else TryNow)
  | TryNow, Act true =>
      let s' := set_book (add_taken 1 (book s)) s in
      Some (if cancellable then (s', Recheck) else deliver Acquired s')
  | TryNow, Act false => Some (s, if is_mutex prim then Register else Dup)
  | Recheck, Act _ => Some (s, if cancellation_requested_ s then Undo false else Mark Acquired)
  | Register, Act _ => Some (emplace s, Dup)
  | Dup, Act true => Some (dup true s, Arm)
  | Dup, Act false => Some (return_handle (dup false s), Idle)
  | Arm, Act _ => Some (return_handle (set_notifier (Some true) s), Idle)
  | Idle, Activated => match notifier_ s with Some true => Some (s, OnNotified) | _ => None end
  | OnNotified, Act _ => Some (enable false s, if cancellable then EventCheck else Retry)
  | EventCheck, Act _ =>
      Some (s, if cancellation_requested_ s then if is_mutex prim then ResetGuard else Delete Canceled else Retry)
  | Retry, Act true => Some (acquired_event s)
  | Retry, Act false => Some (s, Rearm)
  | Consume, Act _ => Some (s, Unregister)
  | Unregister, Act _ => Some (after_acquire (release_guard s))
  | EventRecheck, Act _ => Some (s, if cancellation_requested_ s then Undo true else Delete Acquired)
  | Undo in_event, Act _ => Some (undo s, if in_event then Delete Canceled else Mark Canceled)
  | Rearm, Act _ => Some (enable true s, Idle)
  | ResetGuard, Act _ => Some (release_guard s, Delete Canceled)
  | Delete r, Act _ => Some (deliver r (set_notifier None s))
  | Mark r, Act _ =>
      if handler_invoked_ s then Some (return_handle s, Idle)
      else Some (set_flags (handle s) (cancellation_requested_ s) true s, Invoke r)
  | Invoke r, Act _ => Some (return_handle (set_book (add_call r (book s)) s), Idle)
  | Idle, RunQueued => if queued s then Some (set_queued (handle s) false s, Delete Canceled) else None
  | Idle, Destroy => if unreferenced s then Some (destroy s, Idle) else None
  | _, _ => None
  end.

(** [cancel()] of the handle, by any thread; in thread 0 the lambda runs at once. *)
Definition cancel_step (tid : nat) (ch : choice) (s : op) (l : pc) : option (op * pc) :=
  match l, ch with
  | Idle, Cancel =>
      match handle s with
      | Held => Some (set_flags InCancel (cancellation_requested_ s) (handler_invoked_ s) s, Store)
      | _ => None
      end
  | Store, Act _ => Some (set_flags (handle s) true (handler_invoked_ s) s, Queue)
  | Queue, Act _ =>
      match tid with
      | 0%nat => Some (set_queued Dropped (queued s) s, Delete Canceled)
      | _ => Some (set_queued Dropped true s, Idle)
      end
  | _, _ => None
  end.

Definition tstep (tid : nat) (ch : choice) (s : op) (l : pc) : option (op * pc) :=
  match cancel_step tid ch s l with
  | Some r => Some r
  | None => match tid with 0%nat => loop_step ch s l | _ => None end
  end.
End machine.

(** The operations of the source. *)
Definition qt_acquire_op (async_waiter : bool) := tstep (PMutex async_waiter) false.
Definition qt_acquire_cancellable_op (async_waiter : bool) := tstep (PMutex async_waiter) true.
Definition qt_semaphore_acquire_op := tstep PSemaphore false.
Definition qt_semaphore_acquire_cancellable_op := tstep PSemaphore true.
Definition qt_event_wait_op := tstep PEvent false.
Definition qt_event_wait_cancellable_op := tstep PEvent true.

Definition new_op : op := Op false NoHandle false false false None None false false fresh.

Definition init (n : nat) : config op pc := Config new_op (replicate n Idle).

(** ** The invariant *)

(** The thread runs the loop. *)
Definition loops (l : pc) : bool := match l with Idle | Store | Queue => false | _ => true end.

(** The thread is inside [cancel()]. *)
Definition cancelling (l : pc) : bool := match l with Store | Queue => true | _ => false end.

(** The thread is about to mark the operation. *)
Definition delivering (l : pc) : bool := match l with Delete _ | Mark _ => true | _ => false end.

Definition invoking (l : pc) : bool := match l with Invoke _ => true | _ => false end.

(** The thread has the lock or token. *)
Definition holding (l : pc) : bool :=
  match l with
  | Recheck | Consume | Unregister | EventRecheck | Undo _ | Delete Acquired | Mark Acquired | Invoke Acquired => true
  | _ => false
  end.

Section facts.
Context (prim : primitive) (cancellable : bool).

(** In [start()]. *)
Definition starting (s : op) : Prop :=
  started s = true /\ handle s = NoHandle /\ handler_invoked_ s = false /\ notifier_ s = None /\
  queued s = false /\ destroyed s = false.

(** In [on_notified()]. *)
Definition notified (s : op) : Prop :=
  started s = true /\ handler_invoked_ s = false /\ notifier_ s <> None /\ destroyed s = false.

(** What is known of the operation where a thread is. *)
Definition fits (s : op) (l : pc) : Prop :=
  match l with
  | Idle => True
  | Check | Recheck => starting s /\ waiter_guard_ s = false /\ cancellable = true
  | TryNow => starting s /\ waiter_guard_ s = false
  | Register => starting s /\ waiter_guard_ s = false /\ is_mutex prim = true
  | Dup | Arm => starting s
  | OnNotified | Retry | Rearm => notified s
  | EventCheck => notified s /\ cancellable = true
  | Consume | Unregister => notified s /\ is_mutex prim = true
  | EventRecheck => notified s /\ waiter_guard_ s = false /\ is_mutex prim = true /\ cancellable = true
  | Undo in_event =>
      in_event = true /\ notified s /\ waiter_guard_ s = false /\ is_mutex prim = true /\
      cancellation_requested_ s = true
  | ResetGuard => notified s /\ is_mutex prim = true /\ cancellation_requested_ s = true
  | Delete Acquired => notified s /\ waiter_guard_ s = false
  | Delete Canceled =>
      started s = true /\ cancellation_requested_ s = true /\ destroyed s = false /\ cancellable = true
  | Mark Acquired => started s = true /\ handler_invoked_ s = false /\ notifier_ s = None /\ waiter_guard_ s = false /\
      destroyed s = false /\ cancellable = true
  | Mark Canceled => started s = true /\ notifier_ s = None /\ cancellation_requested_ s = true /\ destroyed s = false
  | Invoke r => started s = true /\ handler_invoked_ s = true /\ notifier_ s = None /\ destroyed s = false
  | Store => handle s = InCancel
  | Queue => handle s = InCancel /\ cancellation_requested_ s = true
  end.

(** What is known of the operation everywhere. *)
Record sane (s : op) : Prop := {
  sane_fresh : started s = false -> handle s = NoHandle /\ handler_invoked_ s = false /\ notifier_ s = None /\
    queued s = false /\ destroyed s = false /\ waiter_guard_ s = false;
  sane_decided : handler_invoked_ s = true -> notifier_ s = None;
  sane_handle : handle s <> NoHandle -> cancellable = true;
  sane_cancelled : cancellation_requested_ s = true -> handle s = InCancel \/ handle s = Dropped;
  sane_queued : queued s = true -> handle s = Dropped /\ cancellation_requested_ s = true /\ destroyed s = false;
  sane_destroyed : destroyed s = true ->
    waiter_guard_ s = false /\ notifier_ s = None /\ (handle s = NoHandle \/ handle s = Dropped);
  sane_guard : waiter_guard_ s = true -> is_mutex prim = true
}.

(** Case analysis of a step, with what is known of the operation. *)
Ltac qt_cases Hs Hf Hr :=
  destruct Hr as [Rf Rd Rh Rc Rq Ry Rg];
  match type of Hs with
  | tstep _ _ ?i ?ch _ ?l = _ =>
      destruct l as [| | | | | | | | | | | | |ie| | |r|r|r| |], ch as [| | | | |b]; try (destruct r); destruct i as [|k]
  end;
  unfold tstep, cancel_step in Hs; simpl in Hs; try discriminate Hs; simpl in Hf;
  unfold starting, notified in *; destruct_and?;
  unfold acquired_event, after_acquire, deliver in Hs; simplify_eq; step_cases Hs;
  unfold destroy in *; unfold emplace, release_guard, enable, undo, return_handle, unreferenced in *; bools;
  repeat (case_match; simplify_eq/=; try congruence); bools.

Section step.
Context (i : nat) (ch : choice) (s s' : op) (l l' : pc).
Hypothesis Hs : tstep prim cancellable i ch s l = Some (s', l').
Hypothesis Hf : fits s l.
Hypothesis Hr : sane s.

(** The flags of the operation, when propositional reasoning needs them. *)
Ltac flags :=
  intuition (try congruence);
  try (by match goal with E : ?p = PMutex _ |- is_mutex ?p = true => rewrite E end);
  try (match goal with |- ?x = _ => destruct x eqn:? end; intuition congruence).

Lemma qt_fits : fits s' l'.
Proof using Hs Hf Hr. qt_cases Hs Hf Hr; simpl; unfold starting, notified; simpl; flags. Qed.

Lemma qt_sane : sane s'.
Proof using Hs Hf Hr. qt_cases Hs Hf Hr; constructor; simpl in *; flags. Qed.

(** Count the cases with what is known of the flags. *)
Ltac tally :=
  autorewrite with ledger; simpl;
  repeat match goal with H : _ ?s = _ |- context [_ ?s] => rewrite H end; simpl; try lia.

Lemma qt_calls :
  Z.b2z (handler_invoked_ s') - Z.b2z (handler_invoked_ s) =
    Z.b2z (invoking l') - Z.b2z (invoking l) + (calls (book s') - calls (book s)).
Proof using Hs Hf Hr. qt_cases Hs Hf Hr; tally. Qed.

Lemma qt_taken :
  taken (book s') - taken (book s) =
    Z.b2z (holding l') - Z.b2z (holding l) + (successes (book s') - successes (book s)).
Proof using Hs Hf Hr. qt_cases Hs Hf Hr; simpl in *; tally. Qed.

Definition registrations (s : op) : Z :=
  match prim with PMutex w => Z.b2z (w && waiter_guard_ s) | _ => 0 end.

Lemma qt_registered : registered (book s) = registrations s -> registered (book s') = registrations s'.
Proof using Hs Hf Hr.
  unfold registrations. intros Hr'. qt_cases Hs Hf Hr; simpl in *; rewrite ?andb_false_r, ?andb_true_r in *;
    simpl in *; try lia; try congruence.
  destruct (waiter_guard_ _), async_waiter; simpl in *; (done || lia).
Qed.

(** Only thread 0 runs the loop, and only one thread is in [cancel()]. *)
Lemma qt_loops : loops l = true \/ loops l' = true -> i = 0%nat.
Proof using Hs Hf.
  unfold tstep, cancel_step in Hs. destruct i; [done|].
  destruct l, ch; try done; simpl in *; step_cases Hs; intros []; done.
Qed.

Lemma qt_cancelling :
  Z.b2z (bool_decide (handle s' = InCancel)) - Z.b2z (bool_decide (handle s = InCancel)) =
    Z.b2z (cancelling l') - Z.b2z (cancelling l).
Proof using Hs Hf Hr. qt_cases Hs Hf Hr; tally. Qed.

(** A cancellation under way stays under way until it delivers. *)
Lemma qt_late :
  cancellation_requested_ s' = true -> handler_invoked_ s' = false ->
  queued s' = true \/ handle s' = InCancel \/ delivering l' = true \/
  (delivering l = false /\ cancellation_requested_ s = true /\ handler_invoked_ s = false /\
   (queued s = true -> queued s' = true) /\ (handle s = InCancel -> handle s' = InCancel)).
Proof using Hs Hf Hr. qt_cases Hs Hf Hr; simpl in *; intuition congruence. Qed.

(** An operation that was started and is not in the loop waits or cannot. *)
Lemma qt_waits :
  started s' = true -> handler_invoked_ s' = false ->
  loops l' = true \/ notifier_ s' = Some true \/ dup_fd_ s' = Some false \/
  (loops l = false /\ started s = true /\ handler_invoked_ s = false /\ notifier_ s' = notifier_ s /\
   dup_fd_ s' = dup_fd_ s).
Proof using Hs Hf Hr. qt_cases Hs Hf Hr; simpl in *; intuition congruence. Qed.

(** What the other threads know is kept: a thread other than 0 only cancels. *)
Lemma qt_frame j x :
  (loops x = true -> j = 0%nat) -> i <> j -> (cancelling x = true -> cancelling l = false) ->
  fits s x -> fits s' x.
Proof using Hs Hf Hr.
  intros Hj Hij Hc Hx. destruct (loops x) eqn:Ex.
  - rewrite (Hj eq_refl) in Hij. clear Hj Hc.
    unfold tstep, cancel_step in Hs. destruct i as [|k]; [done|]. clear Hr.
    destruct l, ch; try done; simpl in Hs, Hf; step_cases Hs;
      destruct x; try discriminate Ex; try (destruct r); simpl in *; unfold starting, notified in *; simpl in *;
      intuition congruence.
  - assert (handle s = InCancel -> cancelling l = false -> handle s' = InCancel) as E1.
    { clear Hx Hc. intros E El. qt_cases Hs Hf Hr; simpl in *; congruence. }
    assert (cancellation_requested_ s = true -> cancellation_requested_ s' = true) as E2.
    { clear Hx Hc. intros E. qt_cases Hs Hf Hr; simpl in *; congruence. }
    destruct x; try discriminate Ex; simpl in *; intuition.
Qed.
End step.

Record Inv (c : config op pc) : Prop := {
  inv_loops : forall j x, threads c !! j = Some x -> loops x = true -> j = 0%nat;
  inv_cancelling : count cancelling (threads c) = Z.b2z (bool_decide (handle (shared c) = InCancel));
  inv_fits : Forall (fits (shared c)) (threads c);
  inv_sane : sane (shared c);
  inv_calls : Z.b2z (handler_invoked_ (shared c)) = count invoking (threads c) + calls (book (shared c));
  inv_taken : taken (book (shared c)) = count holding (threads c) + successes (book (shared c));
  inv_registered : registered (book (shared c)) = registrations (shared c);
  inv_late : cancellation_requested_ (shared c) = true -> handler_invoked_ (shared c) = false ->
    queued (shared c) = true \/ handle (shared c) = InCancel \/ 1 <= count delivering (threads c);
  inv_waits : started (shared c) = true -> handler_invoked_ (shared c) = false ->
    1 <= count loops (threads c) \/ notifier_ (shared c) = Some true \/ dup_fd_ (shared c) = Some false
}.

Lemma qt_init_ok n : Inv (init n).
Proof.
  constructor; simpl; rewrite ?count_replicate by done; try done.
  - intros j x [-> _]%lookup_replicate. done.
  - by apply Forall_replicate.
  - unfold registrations. simpl. by destruct prim as [[]| |].
Qed.

Lemma qt_step_ok i ch c l s' l' :
  Inv c -> threads c !! i = Some l -> tstep prim cancellable i ch (shared c) l = Some (s', l') ->
  Inv (Config s' (<[i := l']> (threads c))).
Proof.
  intros [Io Ik If Ir Ic It Ig Il Iw] Hi Hs.
  pose proof (Forall_lookup_1 _ _ _ _ If Hi) as Hf. simpl in Hf.
  constructor; cbn [shared threads]; rewrite ?(count_insert _ _ _ _ _ Hi).
  - intros j x. rewrite list_lookup_insert_Some. intros [(<- & <- & _)|[_ Hj]] Hx; [|by eapply Io].
    eapply (qt_loops i); eauto.
  - pose proof (qt_cancelling _ _ _ _ _ _ Hs Hf Ir). lia.
  - apply Forall_lookup_2. intros j x. rewrite list_lookup_insert_Some.
    intros [(<- & <- & _)|[Hne Hj]]; [by eapply qt_fits|].
    eapply (qt_frame _ _ _ _ _ _ Hs Hf Ir j x); [by apply Io|done| |by apply (Forall_lookup_1 _ _ _ _ If Hj)].
    intros Hx. destruct (cancelling l) eqn:El; [|done]. destruct Hne.
    apply (count_unique cancelling (threads c) i j l x); try done.
    rewrite Ik. destruct (bool_decide _); simpl; lia.
  - by eapply qt_sane.
  - pose proof (qt_calls _ _ _ _ _ _ Hs Hf Ir). lia.
  - pose proof (qt_taken _ _ _ _ _ _ Hs Hf Ir). lia.
  - by eapply qt_registered.
  - intros E Ed. pose proof (count_others delivering _ _ _ Hi).
    destruct (qt_late _ _ _ _ _ _ Hs Hf Ir E Ed) as [?|[?|[El|(El & E1 & E2 & E3 & E4)]]]; auto.
    + rewrite El. simpl. right; right. lia.
    + rewrite El. destruct (Il E1 E2) as [?|[?|?]]; auto.
      right; right. destruct (delivering l'); simpl; lia.
  - intros E Ed. pose proof (count_others loops _ _ _ Hi).
    destruct (qt_waits _ _ _ _ _ _ Hs Hf Ir E Ed) as [El|[?|[?|(El & E1 & E2 & -> & ->)]]]; auto.
    + rewrite El. simpl. left. lia.
    + rewrite El. destruct (Iw E1 E2) as [?|[?|?]]; auto. left. destruct (loops l'); simpl; lia.
Qed.

(** Once the result is decided and the handler was called, nobody has the lock
    or token on behalf of the operation. *)
Lemma qt_decided_holds c :
  Inv c -> handler_invoked_ (shared c) = true -> count invoking (threads c) = 0 -> count holding (threads c) = 0.
Proof.
  intros HI Ed E0. apply count_all_false. intros l [i Hi]%list_elem_of_lookup.
  pose proof (Forall_lookup_1 _ _ _ _ (inv_fits _ HI) Hi) as Hf. simpl in Hf.
  destruct (holding l) eqn:El; [|done]. destruct (invoking l) eqn:Ec; [pose proof (count_pos _ _ _ _ Hi Ec); lia|].
  destruct l; try done; try destruct r; try done; simpl in Hf; unfold starting, notified in Hf;
    destruct_and?; congruence.
Qed.

Lemma qt_inv_reachable n c : reachable (tstep prim cancellable) (init n) c -> Inv c.
Proof. apply invariant_reachable; [apply qt_init_ok|]. intros. by eapply qt_step_ok. Qed.

(** ** The calls on the mutex *)

(** The thread is where the guard is active. *)
Definition guarded (l : pc) : bool :=
  match l with Dup | Arm | OnNotified | EventCheck | Retry | Consume | Unregister | Rearm | ResetGuard => true | _ => false end.

(** The thread is between the release of the guard and the end of the notifier. *)
Definition disarmed (l : pc) : bool := match l with EventRecheck | Undo true | Delete _ => true | _ => false end.

(** While the operation waits, the guard is active. *)
Definition armed (c : config op pc) : Prop :=
  is_mutex prim = true ->
  Forall (fun l => guarded l = true -> waiter_guard_ (shared c) = true) (threads c) /\
  (notifier_ (shared c) <> None -> waiter_guard_ (shared c) = true \/ 1 <= count disarmed (threads c)).

Lemma qt_armed_step i ch s s' l l' :
  tstep prim cancellable i ch s l = Some (s', l') -> fits s l -> sane s -> is_mutex prim = true ->
  (guarded l = true -> waiter_guard_ s = true) ->
  (notifier_ s <> None -> waiter_guard_ s = true \/ disarmed l = true) ->
  (guarded l' = true -> waiter_guard_ s' = true) /\
  (notifier_ s' <> None -> waiter_guard_ s' = true \/ disarmed l' = true).
Proof. intros Hs Hf Hr Hp Hg Hn. qt_cases Hs Hf Hr; simpl in *; intuition (try congruence). Qed.

(** A thread other than 0 does not touch what the loop works with. *)
Lemma qt_outside i ch s s' l l' :
  tstep prim cancellable (S i) ch s l = Some (s', l') ->
  waiter_guard_ s' = waiter_guard_ s /\ notifier_ s' = notifier_ s /\ book s' = book s /\
  loops l = false /\ loops l' = false.
Proof.
  unfold tstep, cancel_step. destruct l, ch; try done; simpl; intros Hs; step_cases Hs; done.
Qed.

Lemma disarmed_loops l : disarmed l = true -> loops l = true.
Proof. by destruct l. Qed.

Lemma guarded_loops l : guarded l = true -> loops l = true.
Proof. by destruct l. Qed.

(** Of a kind of thread that runs the loop there is at most one. *)
Lemma loops_only (q : pc -> bool) c l :
  Inv c -> (forall x, q x = true -> loops x = true) -> threads c !! 0%nat = Some l ->
  count q (threads c) = Z.b2z (q l).
Proof.
  intros HI Hq Hi. apply (count_only q _ _ _ Hi). intros j y Hne Hj. destruct (q y) eqn:E; [|done].
  destruct Hne. by apply (inv_loops _ HI j y Hj), Hq.
Qed.

Lemma qt_armed n c : reachable (tstep prim cancellable) (init n) c -> Inv c /\ armed c.
Proof.
  revert c. apply invariant_reachable.
  - split; [apply qt_init_ok|]. intros _. simpl. split; [by apply Forall_replicate|done].
  - intros i ch c l s' l' [HI Ha] Hi Hs.
    assert (Inv (Config s' (<[i:=l']> (threads c)))) as HI' by (by eapply qt_step_ok).
    split; [done|]. intros Hp. destruct (Ha Hp) as [H1 H2]. destruct i as [|i].
    + pose proof (Forall_lookup_1 _ _ _ _ (inv_fits _ HI) Hi) as Hf. simpl in Hf.
      rewrite (loops_only disarmed c l HI disarmed_loops Hi) in H2.
      destruct (qt_armed_step _ _ _ _ _ _ Hs Hf (inv_sane _ HI) Hp (Forall_lookup_1 _ _ _ _ H1 Hi)) as [H3 H4].
      { intros E. destruct (H2 E) as [?|Hd]; [by left|right]. by destruct (disarmed l). }
      assert (<[0%nat:=l']> (threads c) !! 0%nat = Some l') as Hi'
        by (apply list_lookup_insert_eq; by apply lookup_lt_Some in Hi).
      pose proof (loops_only disarmed _ l' HI' disarmed_loops Hi') as Hd. cbn [shared threads] in *. rewrite Hd. split.
      * apply Forall_lookup_2. intros j x Hj Hg. apply (inv_loops _ HI') in Hj as Hj0; [|by apply guarded_loops].
        subst j. rewrite Hi' in Hj. simplify_eq. auto.
      * intros E. destruct (H4 E) as [?|E']; [by left|right]. by rewrite E'.
    + destruct (qt_outside _ _ _ _ _ _ Hs) as (E1 & E2 & _ & E3 & E4). cbn [shared threads].
      rewrite (count_insert _ _ _ _ _ Hi), E1, E2. split.
      * apply Forall_insert; [done|]. intros E%guarded_loops. congruence.
      * intros E. destruct (H2 E) as [?|?]; [by left|right].
        destruct (disarmed l) eqn:Ed; [apply disarmed_loops in Ed; congruence|]. destruct (disarmed l'); simpl; lia.
Qed.

(** The call a thread makes in its next step. *)
Definition mutex_call (ch : choice) (s : op) (l : pc) : option AsyncOp.mutex_call :=
  match l, ch with
  | TryNow, _ => Some TryLock
  | Register, _ => Some AddGuard
  | Retry, _ => Some TryAcquire
  | Consume, _ => Some ConsumeLock
  | Unregister, _ | ResetGuard, _ | Idle, Destroy => if waiter_guard_ s then Some ReleaseGuard else None
  | Undo _, _ => Some UnlockMutex
  | _, _ => None
  end.

Definition consuming (l : pc) : bool := match l with Consume => true | _ => false end.

Definition result (ch : choice) : bool := match ch with Act b => b | _ => false end.

Definition qt_rights (c : config op pc) : rights := rights_in (book (shared c)) (count consuming (threads c)).

Lemma consuming_loops l : consuming l = true -> loops l = true.
Proof. by destruct l. Qed.

Lemma holding_loops l : holding l = true -> loops l = true.
Proof. by destruct l as [| | | | | | | | | | | | |?| | |[]|[]|[]| |]. Qed.

(** An operation keeps to the protocol of the guard. *)
Lemma qt_conforms n c i ch l s' l' :
  prim = PMutex true -> reachable (tstep prim cancellable) (init n) c -> threads c !! i = Some l ->
  tstep prim cancellable i ch (shared c) l = Some (s', l') ->
  conforms (mutex_call ch (shared c) l) (result ch) (qt_rights c) (qt_rights (Config s' (<[i := l']> (threads c)))).
Proof.
  intros Hp [HI Ha]%qt_armed Hi Hs. unfold qt_rights, rights_in. cbn [shared threads].
  rewrite (count_insert _ _ _ _ _ Hi). destruct i as [|i]; cycle 1.
  { destruct (qt_outside _ _ _ _ _ _ Hs) as (_ & _ & -> & E3 & E4).
    assert (mutex_call ch (shared c) l = None) as ->.
    { unfold tstep, cancel_step in Hs. by destruct l, ch. }
    assert (consuming l = false) as -> by (by destruct l). assert (consuming l' = false) as -> by (by destruct l').
    simpl. by rewrite Z.sub_0_r, Z.add_0_r. }
  destruct Ha as [Hg _]; [by rewrite Hp|]. pose proof (Forall_lookup_1 _ _ _ _ Hg Hi) as Hgl. simpl in Hgl.
  pose proof (inv_registered _ HI) as Hn. pose proof (inv_calls _ HI) as Hc. pose proof (inv_taken _ HI) as Ht.
  pose proof (inv_sane _ HI) as Hr. pose proof (Forall_lookup_1 _ _ _ _ (inv_fits _ HI) Hi) as Hf. simpl in Hf.
  rewrite (loops_only consuming c l HI consuming_loops Hi).
  rewrite (loops_only holding c l HI holding_loops Hi) in Ht.
  pose proof (count_bounds invoking (threads c)). pose proof (successes_calls (book (shared c))) as Hq.
  assert (handler_invoked_ (shared c) = false -> successes (book (shared c)) = 0) as Hsu
    by (intros E; rewrite E in Hc; simpl in Hc; lia).
  unfold registrations in Hn. rewrite Hp in Hn. clear Hg Hc H Hq HI Hi. generalize dependent (shared c). intros s **.
  destruct (waiter_guard_ s) eqn:Eg;
    qt_cases Hs Hf Hr; simpl in *; simplify_eq/=; try congruence; try (by specialize (Hgl eq_refl));
    rewrite ?Ht, ?Hn; try rewrite Hsu by done; simpl; try done; try (by rewrite ?Hsu in * by done; lia).
Qed.

(** An operation that delivered the lock has no guard. *)
Definition unguarded (c : config op pc) : Prop :=
  (Invoke Acquired ∈ threads c \/ Acquired ∈ delivered (book (shared c))) -> waiter_guard_ (shared c) = false.

Lemma qt_unguarded_step i ch s s' l l' :
  tstep prim cancellable i ch s l = Some (s', l') -> fits s l -> sane s ->
  (l = Invoke Acquired \/ Acquired ∈ delivered (book s) -> waiter_guard_ s = false) ->
  (Acquired ∈ delivered (book s) -> handler_invoked_ s = true) ->
  (l' = Invoke Acquired \/ Acquired ∈ delivered (book s') -> waiter_guard_ s' = false).
Proof.
  intros Hs Hf Hr Hg Hd. qt_cases Hs Hf Hr; simpl in *; rewrite ?elem_of_app, ?list_elem_of_singleton;
    intuition (try congruence).
Qed.

Lemma qt_unguarded n c : reachable (tstep prim cancellable) (init n) c -> Inv c /\ unguarded c.
Proof.
  revert c. apply invariant_reachable.
  - split; [apply qt_init_ok|done].
  - intros i ch c l s' l' [HI Hu] Hi Hs.
    assert (Inv (Config s' (<[i:=l']> (threads c)))) as HI' by (by eapply qt_step_ok). split; [done|].
    pose proof (Forall_lookup_1 _ _ _ _ (inv_fits _ HI) Hi) as Hf. simpl in Hf.
    assert (Acquired ∈ delivered (book (shared c)) -> handler_invoked_ (shared c) = true) as Hd.
    { intros E. pose proof (inv_calls _ HI) as Hc. pose proof (count_bounds invoking (threads c)).
      unfold calls in Hc. destruct (delivered _); [by inversion E|]. destruct (handler_invoked_ _); simpl in *; (done || lia). }
    intros Hx. cbn [shared threads] in *.
    assert (Invoke Acquired ∈ <[i:=l']> (threads c) -> (<[i:=l']> (threads c)) !! 0%nat = Some (Invoke Acquired)) as H0.
    { intros [j Hj]%list_elem_of_lookup. assert (j = 0%nat) as -> by (by eapply (inv_loops _ HI')). done. }
    destruct i as [|i]; cycle 1.
    { destruct (qt_outside _ _ _ _ _ _ Hs) as (E1 & _ & E2 & _). rewrite E1. apply Hu. rewrite <- E2.
      destruct Hx as [Hx%H0|?]; [left|by right]. rewrite list_lookup_insert_ne in Hx by done. by eapply list_elem_of_lookup_2. }
    eapply (qt_unguarded_step 0 ch (shared c) s' l l'); try done; [apply HI| |].
    + intros [->|E]; apply Hu; [left; by eapply list_elem_of_lookup_2|by right].
    + destruct Hx as [Hx%H0|?]; [left|by right].
      rewrite list_lookup_insert_eq in Hx by (by apply lookup_lt_Some in Hi). by simplify_eq.
Qed.
End facts.

(** The handler is called by the operation, and only by it. *)
Lemma qt_started prim cancellable i ch s l s' l' :
  tstep prim cancellable i ch s l = Some (s', l') -> started s = true -> started s' = true.
Proof.
  intros Hs Hst. unfold tstep, cancel_step in Hs.
  destruct l, ch, i; try discriminate Hs; simpl in Hs;
    unfold acquired_event, after_acquire, deliver in Hs; step_cases Hs;
    unfold destroy in *; unfold emplace, release_guard, enable, undo, return_handle in *;
    repeat (case_match; simplify_eq/=); congruence.
Qed.

Lemma qt_delivered prim cancellable i ch c l s' l' :
  Inv prim cancellable c -> threads c !! i = Some l ->
  tstep prim cancellable i ch (shared c) l = Some (s', l') ->
  delivered (book s') = delivered (book (shared c)) \/
  started (shared c) = true /\ started s' = true /\
  exists r, delivered (book s') = delivered (book (shared c)) ++ [r].
Proof.
  intros HI Hi Hs. pose proof (qt_started _ _ _ _ _ _ _ _ Hs) as Hst.
  pose proof (Forall_lookup_1 _ _ _ _ (inv_fits _ _ _ HI) Hi) as Hf. simpl in Hf.
  unfold tstep, cancel_step in Hs.
  destruct l, ch, i; try discriminate Hs; simpl in Hs, Hf;
    unfold acquired_event, after_acquire, deliver in Hs; step_cases Hs;
    unfold destroy in *; unfold emplace, release_guard, enable, undo, return_handle in *;
    repeat (case_match; simplify_eq/=); try (by left); right; destruct_and?; eauto.
Qed.

(** ** Theorems *)

(** C19: the handler of an asynchronous acquisition on Qt is called at most once, under
    every interleaving of the loop and of cancellation; the lock or token was taken
    exactly as often as the handler was or will be called with success; and an
    operation that was destroyed left no waiter registered. *)
Theorem qt_handler_once prim cancellable n c :
  reachable (tstep prim cancellable) (init n) c ->
  calls (book (shared c)) <= 1 /\
  taken (book (shared c)) = successes (book (shared c)) + count holding (threads c) /\
  (destroyed (shared c) = true -> registered (book (shared c)) = 0).
Proof.
  intros [_ _ _ Ir Ic It Ig _ _]%qt_inv_reachable. pose proof (count_bounds invoking (threads c)). split_and!.
  - destruct (handler_invoked_ _); simpl in Ic; lia.
  - lia.
  - intros E. destruct (sane_destroyed _ _ _ Ir E) as [Eg _]. rewrite Ig. unfold registrations. rewrite Eg.
    by destruct prim as [[]| |].
Qed.

(** C20: what has become of an operation on Qt when the loop is idle.  When no
    thread is under way and nothing is queued for the loop, an operation that was
    started has one of three outcomes: it has called its handler once; or nobody has
    cancelled it, and it waits with its notifier enabled; or nobody has cancelled it,
    and it was unable to duplicate the descriptor of the primitive.  So a cancelled
    operation has called its handler, and one that has its descriptor either has or
    waits.  In the third outcome the handler can be dropped without a call, contrary to
    the comments ([qt_dup_failure_drops_handler]). *)
Theorem qt_completes prim cancellable n c :
  reachable (tstep prim cancellable) (init n) c -> Forall (eq Idle) (threads c) ->
  queued (shared c) = false -> started (shared c) = true ->
  calls (book (shared c)) = 1 \/
  (cancellation_requested_ (shared c) = false /\
   (notifier_ (shared c) = Some true \/ dup_fd_ (shared c) = Some false)).
Proof.
  intros [_ Ik _ _ Ic _ _ Il Iw]%qt_inv_reachable Hq Hn Hst.
  assert (forall f, f Idle = false -> count f (threads c) = 0) as H0.
  { intros f Hf. apply count_all_false. intros x Hx. rewrite Forall_forall in Hq. by rewrite <- (Hq x Hx). }
  rewrite (H0 cancelling) in Ik by done. rewrite (H0 invoking) in Ic by done.
  rewrite (H0 delivering) in Il by done. rewrite (H0 loops) in Iw by done.
  destruct (handler_invoked_ (shared c)); [left; simpl in Ic; lia|]. right. split.
  - destruct (cancellation_requested_ (shared c)); [|done].
    destruct (Il eq_refl eq_refl) as [?|[E|?]]; [congruence| |lia].
    rewrite E, bool_decide_true in Ik by done. done.
  - destruct (Iw Hst eq_refl) as [?|[?|?]]; [lia|auto|auto].
Qed.

(** When [dup] fails the handler is never called: the operation is
    destroyed, it has not acquired anything, and there was no error to report. *)
Theorem qt_dup_failure_drops_handler :
  exists c, reachable (tstep (PMutex true) false) (init 1) c /\
    destroyed (shared c) = true /\ delivered (book (shared c)) = [] /\ queued (shared c) = false /\
    forall ch c', cstep (tstep (PMutex true) false) 0 ch c = Some c' -> False.
Proof.
  eexists. split.
  - apply (exec_reachable _ [(0%nat, Start); (0%nat, Act false); (0%nat, Act true); (0%nat, Act false);
      (0%nat, Destroy)]). by vm_compute.
  - split_and!; try done. by intros [| | | | |] c'.
Qed.

(** ** Witnesses *)

(** The operation is cancelled by thread 1 while the loop is in [on_notified()]. *)
Definition cancelled_sched : list (nat * choice) :=
  [(0%nat, Start); (0%nat, Act true); (0%nat, Act false); (0%nat, Act true); (0%nat, Act true); (0%nat, Act true);
   (0%nat, Activated); (1%nat, Cancel); (1%nat, Act true); (0%nat, Act true); (0%nat, Act true);
   (0%nat, Act true); (0%nat, Act true); (0%nat, Act true); (1%nat, Act true); (0%nat, Act true);
   (0%nat, RunQueued); (0%nat, Act true); (0%nat, Act true); (0%nat, Destroy)].

Definition cancelled_config : config op pc :=
  default (init 2) (exec (tstep (PMutex true) true) cancelled_sched (init 2)).

Lemma qt_cancelled_reachable : reachable (tstep (PMutex true) true) (init 2) cancelled_config.
Proof. apply (exec_reachable _ cancelled_sched). by vm_compute. Qed.

Lemma qt_handler_once_witness :
  delivered (book (shared cancelled_config)) = [Canceled] /\ registered (book (shared cancelled_config)) = 0.
Proof.
  split; [reflexivity|].
  apply (qt_handler_once (PMutex true) true 2 cancelled_config); [apply qt_cancelled_reachable|reflexivity].
Defined.

Lemma qt_completes_witness :
  calls (book (shared cancelled_config)) = 1 \/
  (cancellation_requested_ (shared cancelled_config) = false /\
   (notifier_ (shared cancelled_config) = Some true \/ dup_fd_ (shared cancelled_config) = Some false)).
Proof.
  apply (qt_completes (PMutex true) true 2 cancelled_config);
    [apply qt_cancelled_reachable|vm_compute; by repeat constructor|by vm_compute|by vm_compute].
Defined.
