(* ===== verification/AsyncStart.v ===== *)
(** * The free functions that start an asynchronous operation

    [async_acquire], [async_wait], [qt_async_acquire], [qt_async_wait] and their
    [_cancellable] forms (the support headers of mutex/, semaphore/ and event/ for the
    three event loops), as one call each: what the call does when nothing happens
    beside it.  They are the first steps of the machines of [AsioAcquire.v],
    [DispatchAcquire.v] and [QtAcquire.v], which have the interleavings; the theorem
    says that the calls are runs of those machines, and what the caller has then. *)
From S2P Require Import Prelude Machine AsyncOp AsioAcquire DispatchAcquire QtAcquire.
#[local] Open Scope Z_scope.

(** ** Boost.Asio *)

Module Asio.
Import AsioAcquire.

Section asio.
Context (fl : flavour).

(** [boost::asio::dispatch( ioc, ... )]: at once when the caller runs the context. *)
Definition dispatch (inline : bool) (s : op) : op :=
  if inline then set_book (add_call Acquired (book s)) s else set_posted true s.

(** The result of the first attempt; the returned handle is empty on success. *)
Definition free_function (ok inline : bool) : op :=
  let s := begin new_op in
  if ok then dispatch inline (set_book (add_taken 1 (book s)) s)
  else start_wait fl (construct fl s).

Definition schedule (ok inline : bool) : list choice :=
  if ok then [Start; Act true; Act inline] ++ (if inline then [Act false] else [])
  else [Start; Act false] ++ (if AsioAcquire.is_mutex fl then [Act false] else []) ++ [Act false].

End asio.

Lemma free_function_runs fl windows ok inline i :
  alone (tstep fl windows) i (schedule fl ok inline) new_op Idle = Some (free_function fl ok inline, Idle).
Proof. by destruct ok, inline, fl. Qed.

(** The functions of the three headers. *)
Definition mutex_async_acquire (async_waiter : bool) := free_function (MutexOp async_waiter).
Definition mutex_async_acquire_cancellable (async_waiter : bool) := free_function (MutexOp async_waiter).
Definition semaphore_async_acquire := free_function PlainOp.
Definition semaphore_async_acquire_cancellable := free_function CancellableOp.
Definition event_async_wait := free_function PlainOp.
Definition event_async_wait_cancellable := free_function CancellableOp.
End Asio.

(** ** libdispatch *)

Module Dispatch.
Import DispatchAcquire.

Section dispatch.
Context (prim : primitive) (cancellable : bool).

(** [state->start()]: an attempt that succeeds posts the handler to the queue. *)
Definition free_function (ok : bool) : op :=
  let s := set_phase Starting new_op in
  if ok then
    let s1 := set_invoked (set_book (add_taken 1 (book s)) s) in
    finish cancellable AtStart (set_posted [Acquired] s1)
  else create cancellable (emplace prim s).

Definition schedule (ok : bool) : list choice :=
  [Start] ++ (if cancellable then [Act false] else []) ++
  (if ok then [Act true] ++ (if cancellable then [Act false; Act false] else []) ++ [Act false]
   else [Act false] ++ (if AsyncOp.is_mutex prim then [Act false] else []) ++ [Act false]).

End dispatch.

Lemma free_function_runs_dispatch prim cancellable ok i :
  alone (tstep prim cancellable) i (schedule prim cancellable ok) new_op Idle =
    Some (free_function prim cancellable ok, Idle).
Proof. by destruct ok, cancellable, prim. Qed.

Definition mutex_async_acquire (async_waiter : bool) := free_function (PMutex async_waiter) false.
Definition mutex_async_acquire_cancellable (async_waiter : bool) := free_function (PMutex async_waiter) true.
Definition semaphore_async_acquire := free_function PSemaphore false.
Definition semaphore_async_acquire_cancellable := free_function PSemaphore true.
Definition event_async_wait := free_function PEvent false.
Definition event_async_wait_cancellable := free_function PEvent true.
End Dispatch.

(** ** Qt *)

Module Qt.
Import QtAcquire.

Section qt.
Context (prim : primitive) (cancellable : bool).

(** [state->start()], in the thread of the loop: an attempt that succeeds calls the
    handler at once; otherwise the descriptor is duplicated, which may fail, and the
    notifier armed. *)
Definition free_function (ok dup_ok : bool) : op :=
  let s := begin new_op in
  return_handle cancellable
    (if ok then
       let s1 := set_flags (handle s) (cancellation_requested_ s) true (set_book (add_taken 1 (book s)) s) in
       set_book (add_call Acquired (book s1)) s1
     else
       let s1 := dup dup_ok (emplace prim s) in
       if dup_ok then set_notifier (Some true) s1 else s1).

Definition schedule (ok dup_ok : bool) : list choice :=
  [Start] ++ (if cancellable then [Act false] else []) ++
  (if ok then [Act true] ++ (if cancellable then [Act false; Act false] else []) ++ [Act false]
   else [Act false] ++ (if AsyncOp.is_mutex prim then [Act false] else []) ++ [Act dup_ok] ++ (if dup_ok then [Act false] else [])).

End qt.

Lemma free_function_runs_qt prim cancellable ok dup_ok :
  alone (tstep prim cancellable) 0 (schedule prim cancellable ok dup_ok) new_op Idle =
    Some (free_function prim cancellable ok dup_ok, Idle).
Proof. by destruct ok, dup_ok, cancellable, prim. Qed.

Definition mutex_qt_async_acquire (async_waiter : bool) := free_function (PMutex async_waiter) false.
Definition mutex_qt_async_acquire_cancellable (async_waiter : bool) := free_function (PMutex async_waiter) true.
Definition semaphore_qt_async_acquire := free_function PSemaphore false.
Definition semaphore_qt_async_acquire_cancellable := free_function PSemaphore true.
Definition event_qt_async_wait := free_function PEvent false.
Definition event_qt_async_wait_cancellable := free_function PEvent true.
End Qt.

(** ** What the caller has after the call *)

Inductive event_loop := BoostAsio | Libdispatch | QtLoop.

(** What was taken and registered, whether the operation waits for the descriptor, and
    the results that were delivered or are on their way. *)
Record summary := Summary {
  took : Z; registrations : Z; waiting : bool; results : list outcome
}.

Definition summarise_asio (s : AsioAcquire.op) : summary :=
  Summary (taken (AsioAcquire.book s)) (registered (AsioAcquire.book s)) (AsioAcquire.waits (AsioAcquire.sd_ s))
    (delivered (AsioAcquire.book s) ++ (if AsioAcquire.posted s then [Acquired] else [])).

Definition summarise_dispatch (s : DispatchAcquire.op) : summary :=
  Summary (taken (DispatchAcquire.book s)) (registered (DispatchAcquire.book s)) (DispatchAcquire.src_ s)
    (delivered (DispatchAcquire.book s) ++ DispatchAcquire.posted s).

Definition summarise_qt (s : QtAcquire.op) : summary :=
  Summary (taken (QtAcquire.book s)) (registered (QtAcquire.book s)) (bool_decide (QtAcquire.notifier_ s = Some true))
    (delivered (QtAcquire.book s)).

(** The operation object of Boost.Asio for a primitive. *)
Definition asio_flavour (prim : primitive) (cancellable : bool) : AsioAcquire.flavour :=
  match prim with PMutex w => MutexOp w | _ => if cancellable then CancellableOp else PlainOp end.

(** A call on an event loop: the result of the first attempt; [extra] is whether the
    caller runs the context (Boost.Asio), or whether [dup] succeeds (Qt). *)
Definition free_call (e : event_loop) (prim : primitive) (cancellable ok extra : bool) : summary :=
  match e with
  | BoostAsio => summarise_asio (Asio.free_function (asio_flavour prim cancellable) ok extra)
  | Libdispatch => summarise_dispatch (Dispatch.free_function prim cancellable ok)
  | QtLoop => summarise_qt (Qt.free_function prim cancellable ok extra)
  end.

Definition waiter_of (prim : primitive) : Z := match prim with PMutex w => Z.b2z w | _ => 0 end.

(** What all eighteen functions are to do: keep what a successful attempt took and pass on
    a success, or else register a waiter, with the mutexes that count them, and wait. *)
Definition expected_call (prim : primitive) (ok waits : bool) : summary :=
  if ok then Summary 1 0 false [Acquired] else Summary 0 (waiter_of prim) waits [].

(** The schedules of a call on each loop, by the thread that makes it. *)
Definition call_runs (e : event_loop) (prim : primitive) (cancellable ok extra : bool) : Prop :=
  match e with
  | BoostAsio => forall windows i, exists chs, alone (AsioAcquire.tstep (asio_flavour prim cancellable) windows) i chs
      AsioAcquire.new_op AsioAcquire.Idle = Some (Asio.free_function (asio_flavour prim cancellable) ok extra, AsioAcquire.Idle)
  | Libdispatch => forall i, exists chs, alone (DispatchAcquire.tstep prim cancellable) i chs
      DispatchAcquire.new_op DispatchAcquire.Idle = Some (Dispatch.free_function prim cancellable ok, DispatchAcquire.Idle)
  | QtLoop => exists chs, alone (QtAcquire.tstep prim cancellable) 0 chs
      QtAcquire.new_op QtAcquire.Idle = Some (Qt.free_function prim cancellable ok extra, QtAcquire.Idle)
  end.

(** The free functions of the three event loops, for mutexes, semaphores and events,
    with and without a handle, do the same: a first attempt that succeeds is kept and its
    success passed on, and nothing is left waiting; otherwise nothing is taken, a waiter
    is registered exactly with an [async_waiter_mutex], and the operation waits - but on
    Qt not when the descriptor cannot be duplicated, when the call ends as if it waited.
    Each call is a run of the operation's machine by the calling thread alone. *)
Theorem free_functions_start e prim cancellable ok extra :
  call_runs e prim cancellable ok extra /\
  free_call e prim cancellable ok extra =
    expected_call prim ok (match e with QtLoop => extra | _ => true end).
Proof.
  split.
  - destruct e; simpl.
    + intros windows i. eexists. apply Asio.free_function_runs.
    + intros i. eexists. apply Dispatch.free_function_runs_dispatch.
    + eexists. apply Qt.free_function_runs_qt.
  - by destruct e, prim as [[]| |], cancellable, ok, extra.
Qed.
