(* ===== verification/QtFuture.v ===== *)
(** * Asynchronous acquisition with a future, on the Qt event loop

    The overloads of [qt_async_acquire] and [qt_async_wait] in
    mutex/support/qt_support.hpp, semaphore/support/qt_support.hpp and
    event/support/qt_support.hpp that return a [std::future]: a closure [*do_wait]
    starts an operation without a handle, whose handler sets the promise or, on an
    error, calls the closure again.  The operation is that of [QtAcquire.v]; this file
    says what the handler does with its results. *)
From S2P Require Import Prelude Machine AsyncOp QtAcquire.
#[local] Open Scope Z_scope.

(** Where the promise is: the closure moves its [std::shared_ptr] into the handler. *)
Record promise := Promise {
  in_closure : bool;
  in_handler : bool;
  has_value : bool;
  null_promise : bool    (** a null [std::shared_ptr] was dereferenced *)
}.

(** [std::invoke( *do_wait )]. *)
Definition do_wait (p : promise) : promise := Promise false (in_closure p) (has_value p) (null_promise p).

(** The handler. *)
Definition handler (p : promise) (r : outcome) : promise :=
  match r with
  | Acquired =>
      if in_handler p then Promise false false true (null_promise p)
      else Promise (in_closure p) false (has_value p) true
  | Canceled => do_wait p
  end.

(** The future after the results [rs] of the operation. *)
Definition qt_future (rs : list outcome) : promise := fold_left handler rs (do_wait (Promise true false false false)).

(** The overloads of the source; [immediately] is the result of the first try. *)
Definition qt_async (immediately : bool) (rs : list outcome) : promise :=
  if immediately then Promise false false true false else qt_future rs.
Definition mutex_qt_async_acquire := qt_async.
Definition semaphore_qt_async_acquire := qt_async.
Definition event_qt_async_wait := qt_async.

Section plain.
Context (prim : primitive).

(** An operation without a handle has no error to report. *)
Definition uncancelled (c : config op pc) : Prop :=
  Inv prim false c /\ Forall (fun l => l <> Invoke Canceled) (threads c) /\
  Forall (eq Acquired) (delivered (book (shared c))).

Lemma plain_step_ok i ch s l s' l' :
  tstep prim false i ch s l = Some (s', l') -> fits prim false s l -> sane prim false s ->
  l <> Invoke Canceled -> Forall (eq Acquired) (delivered (book s)) ->
  l' <> Invoke Canceled /\ Forall (eq Acquired) (delivered (book s')).
Proof.
  intros Hs Hf Hr Hl Hd.
  assert (cancellation_requested_ s = true -> False) as Hc.
  { intros E. assert (handle s <> NoHandle) as Hn by (destruct (sane_cancelled _ _ _ Hr E) as [-> | ->]; done).
    by pose proof (sane_handle _ _ _ Hr Hn). }
  clear Hr. destruct l as [| | | | | | | | | | | | |ie| | |r|r|r| |], ch as [| | | | |b]; try (destruct r); destruct i as [|k];
    unfold tstep, cancel_step in Hs; simpl in Hs; try discriminate Hs; simpl in Hf;
    unfold acquired_event, after_acquire, deliver in Hs; simplify_eq; try (step_cases Hs); destruct_and?;
    try (by destruct Hc); unfold destroy, emplace, release_guard, enable, undo, return_handle in *;
    repeat (case_match; simplify_eq/=); try (by split); try congruence.
  all: split; [done|]; simpl; apply Forall_app; auto.
Qed.

Lemma plain_reachable n c : reachable (tstep prim false) (init n) c -> uncancelled c.
Proof.
  apply invariant_reachable.
  - split; [apply qt_init_ok|]. split; [by apply Forall_replicate|constructor].
  - intros i ch d l s' l' (HI & Ht & Hd) Hi Hs. split; [by eapply qt_step_ok|].
    pose proof (Forall_lookup_1 _ _ _ _ (inv_fits _ _ _ HI) Hi) as Hf.
    destruct (plain_step_ok _ _ _ _ _ _ Hs Hf (inv_sane _ _ _ HI) (Forall_lookup_1 _ _ _ _ Ht Hi) Hd).
    split; [|done]. by apply Forall_insert.
Qed.
End plain.

(** ** Theorems *)

(** A Qt future gets its value exactly when the operation behind it acquires:
    the operation never reports an error, so the handler never starts another one
    with the promise it has moved away, and no null promise is dereferenced. *)
Theorem qt_future_value prim n c :
  reachable (tstep prim false) (init n) c ->
  null_promise (qt_future (delivered (book (shared c)))) = false /\
  (has_value (qt_future (delivered (book (shared c)))) = true <-> calls (book (shared c)) = 1) /\
  Forall (eq Acquired) (delivered (book (shared c))).
Proof.
  intros (HI & _ & Hd)%plain_reachable. pose proof (inv_calls _ _ _ HI) as Ic.
  pose proof (count_bounds invoking (threads c)). unfold calls in *. destruct (delivered _) as [|r [|r' rs]].
  - split_and!; done.
  - apply Forall_cons in Hd as [<- _]. split_and!; [done..|by repeat constructor].
  - simpl in Ic. destruct (handler_invoked_ _); simpl in Ic; lia.
Qed.

(** The branch of the handler that is never taken would lose the promise. *)
Example retry_loses_promise : null_promise (qt_future [Canceled; Acquired]) = true.
Proof. reflexivity. Qed.

(** ** Witnesses *)

(** A wait that is woken without success, then acquires. *)
Definition demo_sched : list (nat * choice) :=
  [(0%nat, Start); (0%nat, Act false); (0%nat, Act true); (0%nat, Act true); (0%nat, Act true);
   (0%nat, Activated); (0%nat, Act true); (0%nat, Act false); (0%nat, Act true);
   (0%nat, Activated); (0%nat, Act true); (0%nat, Act true); (0%nat, Act true); (0%nat, Act true); (0%nat, Act true);
   (0%nat, Act true)].

Definition demo_config : config op pc := default (init 1) (exec (tstep (PMutex true) false) demo_sched (init 1)).

Lemma qt_future_demo_reachable : reachable (tstep (PMutex true) false) (init 1) demo_config.
Proof. apply (exec_reachable _ demo_sched). by vm_compute. Qed.

Lemma qt_future_value_witness :
  has_value (qt_future (delivered (book (shared demo_config)))) = true /\
  delivered (book (shared demo_config)) = [Acquired].
Proof.
  split; [|by vm_compute].
  apply (qt_future_value (PMutex true) 1 demo_config); [apply qt_future_demo_reachable|by vm_compute].
Defined.
