(* ===== verification/AsyncLibrary.v ===== *)
(** * The asynchronous operations keep one promise

    What the documentation of the asynchronous operations promises on the three
    event loops, as a class: the handler of an operation is called at most once, by
    an operation that was started, and with a success exactly if the operation keeps
    the lock or token.  The machines of [AsioAcquire.v] on POSIX systems,
    [DispatchAcquire.v] and [QtAcquire.v] are its instances; [AsyncSystem.v] and
    [AsyncTokens.v] are its clients. *)
From S2P Require Import Prelude Machine AsyncOp AsioAcquire DispatchAcquire QtAcquire.
#[local] Open Scope Z_scope.

Record async_machine := AsyncMachine {
  am_state : Type;
  am_local : Type;
  am_choice : Type;
  am_step : nat -> am_choice -> am_state -> am_local -> option (am_state * am_local);
  am_init : nat -> config am_state am_local;
  am_started : am_state -> bool;
  am_book : am_state -> ledger
}.

Definition am_reachable (m : async_machine) (n : nat) : config (am_state m) (am_local m) -> Prop :=
  reachable (am_step m) (am_init m n).

Class AsyncSpec (m : async_machine) : Prop := {
  as_once : forall n c, am_reachable m n c -> calls (am_book m (shared c)) <= 1;
  as_owned : forall n c r, am_reachable m n c -> delivered (am_book m (shared c)) = [r] ->
    taken (am_book m (shared c)) = Z.b2z (is_acquired r);
  as_started : forall n c i ch c', am_reachable m n c -> cstep (am_step m) i ch c = Some c' ->
    am_started m (shared c) = true -> am_started m (shared c') = true;
  as_calls : forall n c i ch c', am_reachable m n c -> cstep (am_step m) i ch c = Some c' ->
    delivered (am_book m (shared c')) = delivered (am_book m (shared c)) \/
    am_started m (shared c) = true /\ am_started m (shared c') = true /\
    exists r, delivered (am_book m (shared c')) = delivered (am_book m (shared c)) ++ [r];
  as_fresh : forall n, am_started m (shared (am_init m n)) = false /\
    delivered (am_book m (shared (am_init m n))) = []
}.

(** ** The three event loops *)

Definition asio_machine (fl : AsioAcquire.flavour) (windows : bool) : async_machine :=
  AsyncMachine _ _ _ (AsioAcquire.tstep fl windows) AsioAcquire.init AsioAcquire.started AsioAcquire.book.

(** The operations that keep the promise: on Windows the wait of Boost.Asio for a
    semaphore or an event consumes it, and a cancelled operation may lose what it
    consumed ([AsioAcquire.asio_handler_once]). *)
Inductive async_operation :=
| OnAsio (fl : AsioAcquire.flavour)                       (** on POSIX systems *)
| OnDispatch (prim : primitive) (cancellable : bool)
| OnQt (prim : primitive) (cancellable : bool).

Definition machine_of (k : async_operation) : async_machine :=
  match k with
  | OnAsio fl => asio_machine fl false
  | OnDispatch p b => AsyncMachine _ _ _ (DispatchAcquire.tstep p b) DispatchAcquire.init
      (fun s => bool_decide (DispatchAcquire.at_phase s <> DispatchAcquire.Fresh)) DispatchAcquire.book
  | OnQt p b => AsyncMachine _ _ _ (QtAcquire.tstep p b) QtAcquire.init QtAcquire.started QtAcquire.book
  end.

Lemma dispatch_result p b n c r :
  reachable (DispatchAcquire.tstep p b) (DispatchAcquire.init n) c ->
  delivered (DispatchAcquire.book (shared c)) = [r] ->
  taken (DispatchAcquire.book (shared c)) = Z.b2z (is_acquired r).
Proof.
  intros HI%DispatchAcquire.dispatch_inv_reachable Hd.
  assert (calls (DispatchAcquire.book (shared c)) = 1) as Hc by (unfold calls; by rewrite Hd).
  pose proof (DispatchAcquire.inv_calls _ _ _ HI) as Ic. rewrite Hc in Ic.
  pose proof (count_bounds DispatchAcquire.committed (threads c)).
  assert (DispatchAcquire.handler_invoked (shared c) = true) as Ed
    by (destruct (DispatchAcquire.handler_invoked _); [done|simpl in *; lia]).
  rewrite Ed in Ic. simpl in Ic. rewrite (DispatchAcquire.inv_taken _ _ _ HI).
  assert (DispatchAcquire.posted (shared c) = []) as -> by (destruct (DispatchAcquire.posted _); [done|simpl in *; lia]).
  rewrite (DispatchAcquire.dispatch_decided_holds p b c HI Ed) by lia.
  unfold successes. rewrite Hd, count_one. simpl. lia.
Qed.

Lemma dispatch_nonneg p b n c :
  reachable (DispatchAcquire.tstep p b) (DispatchAcquire.init n) c -> 0 <= taken (DispatchAcquire.book (shared c)).
Proof.
  intros HI%DispatchAcquire.dispatch_inv_reachable. rewrite (DispatchAcquire.inv_taken _ _ _ HI).
  pose proof (successes_calls (DispatchAcquire.book (shared c))).
  pose proof (count_bounds DispatchAcquire.holding (threads c)).
  pose proof (count_bounds is_acquired (DispatchAcquire.posted (shared c))). lia.
Qed.

Lemma qt_nonneg p b n c :
  reachable (QtAcquire.tstep p b) (QtAcquire.init n) c -> 0 <= taken (QtAcquire.book (shared c)).
Proof.
  intros HI%QtAcquire.qt_inv_reachable. rewrite (QtAcquire.inv_taken _ _ _ HI).
  pose proof (successes_calls (QtAcquire.book (shared c))).
  pose proof (count_bounds QtAcquire.holding (threads c)). lia.
Qed.

Lemma qt_result p b n c r :
  reachable (QtAcquire.tstep p b) (QtAcquire.init n) c ->
  delivered (QtAcquire.book (shared c)) = [r] -> taken (QtAcquire.book (shared c)) = Z.b2z (is_acquired r).
Proof.
  intros HI%QtAcquire.qt_inv_reachable Hd.
  assert (calls (QtAcquire.book (shared c)) = 1) as Hc by (unfold calls; by rewrite Hd).
  pose proof (QtAcquire.inv_calls _ _ _ HI) as Ic. rewrite Hc in Ic.
  pose proof (count_bounds QtAcquire.invoking (threads c)).
  assert (QtAcquire.handler_invoked_ (shared c) = true) as Ed
    by (destruct (QtAcquire.handler_invoked_ _); [done|simpl in *; lia]).
  rewrite Ed in Ic. simpl in Ic. rewrite (QtAcquire.inv_taken _ _ _ HI).
  rewrite (QtAcquire.qt_decided_holds p b c HI Ed) by lia.
  unfold successes. rewrite Hd, count_one. lia.
Qed.

#[global] Instance async_library_spec (k : async_operation) : AsyncSpec (machine_of k).
Proof.
  destruct k as [fl|p b|p b]; split; unfold am_reachable; cbn; try done.
  - intros n c [Hl _ _ _ _ _]%AsioAcquire.asio_inv_reachable.
    pose proof (count_bounds AsioAcquire.live (threads c)).
    destruct (AsioAcquire.started _), (AsioAcquire.posted _), (AsioAcquire.waits _); simpl in *; lia.
  - intros n c r. apply AsioAcquire.asio_result. by destruct fl.
  - intros n c i ch c' _ (l & s' & l' & _ & Hs & ->)%cstep_inv. apply (AsioAcquire.asio_started _ _ _ _ _ _ _ _ Hs).
  - intros n c i ch c' HI%AsioAcquire.asio_inv_reachable (l & s' & l' & Hi & Hs & ->)%cstep_inv.
    eapply AsioAcquire.asio_delivered; [exact Hs|]. by eapply AsioAcquire.alone_inv.
  - intros n c HI%DispatchAcquire.dispatch_inv_reachable. pose proof (DispatchAcquire.inv_calls _ _ _ HI).
    pose proof (count_bounds DispatchAcquire.committed (threads c)).
    destruct (DispatchAcquire.handler_invoked _); simpl in *; lia.
  - apply dispatch_result.
  - intros n c i ch c' _ (l & s' & l' & _ & Hs & ->)%cstep_inv. rewrite !bool_decide_eq_true.
    apply (DispatchAcquire.dispatch_started _ _ _ _ _ _ _ _ Hs).
  - intros n c i ch c' HI%DispatchAcquire.dispatch_inv_reachable (l & s' & l' & Hi & Hs & ->)%cstep_inv.
    rewrite !bool_decide_eq_true. by eapply DispatchAcquire.dispatch_delivered.
  - intros n c HI%QtAcquire.qt_inv_reachable. pose proof (QtAcquire.inv_calls _ _ _ HI).
    pose proof (count_bounds QtAcquire.invoking (threads c)).
    destruct (QtAcquire.handler_invoked_ _); simpl in *; lia.
  - apply qt_result.
  - intros n c i ch c' _ (l & s' & l' & _ & Hs & ->)%cstep_inv. apply (QtAcquire.qt_started _ _ _ _ _ _ _ _ Hs).
  - intros n c i ch c' HI%QtAcquire.qt_inv_reachable (l & s' & l' & Hi & Hs & ->)%cstep_inv.
    by eapply QtAcquire.qt_delivered.
Qed.
