(* ===== verification/MutexClient.v ===== *)
(** * The asynchronous operations as clients of a mutex

    What an operation may call on an [async_waiter_mutex] is the protocol of
    [AsyncOp.v].  The class below says that a machine keeps to it, that no two of
    its threads call the mutex at a time, that a success that was delivered comes
    with the lock and nothing else, and that the result of a try is the mutex's to
    choose.  The operations for mutexes on the three event loops are instances;
    [AsyncSystem.v] composes any instance with the mutex. *)
From S2P Require Import Prelude Machine AsyncOp AsioAcquire DispatchAcquire QtAcquire AsyncLibrary.
#[local] Open Scope Z_scope.

Class MutexClient (m : async_machine) := {
  mc_call : am_choice m -> am_state m -> am_local m -> option AsyncOp.mutex_call; (** the call the step makes *)
  mc_result : am_choice m -> bool;      (** the result of a try in a choice *)
  mc_consuming : am_local m -> bool     (** [consume_lock()] is next *)
}.

Definition mc_rights (m : async_machine) `{MutexClient m} (c : config (am_state m) (am_local m)) : rights :=
  rights_in (am_book m (shared c)) (count mc_consuming (threads c)).

Class MutexClientLaws (m : async_machine) `{MutexClient m} := {
  mc_conforms n c i ch l s' l' :
    am_reachable m n c -> threads c !! i = Some l -> am_step m i ch (shared c) l = Some (s', l') ->
    conforms (mc_call ch (shared c) l) (mc_result ch) (mc_rights m c) (mc_rights m (Config s' (<[i := l']> (threads c))));
  mc_alone n c i j ch ch2 l l2 k s2 l2' :
    am_reachable m n c -> threads c !! i = Some l -> threads c !! j = Some l2 -> i <> j ->
    is_Some (am_step m i ch (shared c) l) -> mc_call ch (shared c) l = Some k ->
    am_step m j ch2 (shared c) l2 = Some (s2, l2') ->
    mc_call ch2 (shared c) l2 = None /\ mc_call ch s2 l = Some k /\ is_Some (am_step m i ch s2 l);
  mc_owner n c :
    am_reachable m n c -> delivered (am_book m (shared c)) = [Acquired] ->
    mc_rights m c = Rights true false false;
  mc_done n c i ch l :
    am_reachable m n c -> delivered (am_book m (shared c)) = [Acquired] -> threads c !! i = Some l ->
    is_Some (am_step m i ch (shared c) l) -> mc_call ch (shared c) l = None;
  mc_try i ch s l k b :
    is_Some (am_step m i ch s l) -> mc_call ch s l = Some k -> is_try k = true ->
    exists ch', is_Some (am_step m i ch' s l) /\ mc_call ch' s l = Some k /\ mc_result ch' = b
}.

(** The operations that wait for an [async_waiter_mutex]. *)
Inductive mutex_operation := AsioMutex | DispatchMutex (cancellable : bool) | QtMutex (cancellable : bool).

Definition client_machine (k : mutex_operation) : async_machine :=
  machine_of match k with
             | AsioMutex => OnAsio (MutexOp true)
             | DispatchMutex b => OnDispatch (PMutex true) b
             | QtMutex b => OnQt (PMutex true) b
             end.

#[export] Instance mutex_operation_client (k : mutex_operation) : MutexClient (client_machine k) :=
  match k return MutexClient (client_machine k) with
  | AsioMutex =>
      Build_MutexClient (client_machine AsioMutex) (fun _ => AsioAcquire.mutex_call) AsioAcquire.result AsioAcquire.consuming
  | DispatchMutex b =>
      Build_MutexClient (client_machine (DispatchMutex b)) (fun _ => DispatchAcquire.mutex_call) DispatchAcquire.result
        DispatchAcquire.consuming
  | QtMutex b =>
      Build_MutexClient (client_machine (QtMutex b)) QtAcquire.mutex_call QtAcquire.result QtAcquire.consuming
  end.

(** ** Boost.Asio *)

Module Asio.
Import AsioAcquire.

Lemma calls_live s l m : mutex_call s l = Some m -> live l = true.
Proof. by destruct l. Qed.

(** A thread that does not carry the operation leaves its guard alone. *)
Lemma asio_outside i ch s l s' l' :
  tstep (MutexOp true) false i ch s l = Some (s', l') -> live l = false ->
  mutex_call s l = None /\ waiter_guard_ s' = waiter_guard_ s.
Proof. intros Hs Hl. asio_cases Hs; simplify_eq/=; repeat case_match; done. Qed.

Lemma asio_alone n c i j ch ch2 l l2 k s2 l2' :
  reachable (tstep (MutexOp true) false) (init n) c -> threads c !! i = Some l -> threads c !! j = Some l2 -> i <> j ->
  is_Some (tstep (MutexOp true) false i ch (shared c) l) -> mutex_call (shared c) l = Some k ->
  tstep (MutexOp true) false j ch2 (shared c) l2 = Some (s2, l2') ->
  mutex_call (shared c) l2 = None /\ mutex_call s2 l = Some k /\ is_Some (tstep (MutexOp true) false i ch s2 l).
Proof.
  intros Hr Hi Hj Hne Hen Hm Hs. pose proof (calls_live _ _ _ Hm) as Hl.
  destruct (asio_carried n c i l Hr Hi Hl) as (_ & _ & _ & _ & _ & H1).
  assert (live l2 = false) as Hl2.
  { destruct (live l2) eqn:E; [|done]. destruct Hne. apply (count_unique live (threads c) i j l l2); (done || lia). }
  destruct (asio_outside _ _ _ _ _ _ Hs Hl2) as [H2 H3]. split; [done|].
  destruct l, ch; try discriminate Hm; try (by destruct Hen); simpl in *; rewrite ?H3; (split; [done|]);
    case_match; eauto.
Qed.

Lemma delivered_idle n c i l r :
  reachable (tstep (MutexOp true) false) (init n) c -> delivered (book (shared c)) = [r] -> threads c !! i = Some l ->
  live l = false /\ posted (shared c) = false /\ waiter_guard_ (shared c) = false.
Proof.
  intros HI%asio_inv_reachable Hd Hi. assert (calls (book (shared c)) = 1) as E by (unfold calls; by rewrite Hd).
  pose proof (inv_live _ _ _ HI) as Hl. pose proof (count_bounds live (threads c)). split_and!.
  - destruct (live l) eqn:El; [|done]. pose proof (count_pos _ _ _ _ Hi El).
    destruct (started _), (posted _), (waits _); simpl in *; lia.
  - destruct (posted _); [|done]. destruct (started _), (waits _); simpl in *; lia.
  - destruct (waiter_guard_ _) eqn:Eg; [|done]. destruct (inv_guard _ _ _ HI Eg) as (_ & _ & _ & _ & ?). lia.
Qed.
End Asio.

#[export] Instance asio_client_laws : MutexClientLaws (client_machine AsioMutex).
Proof.
  split; cbn.
  - intros. by eapply AsioAcquire.asio_conforms.
  - intros. by eapply Asio.asio_alone.
  - intros n c Hr Hd. unfold mc_rights, rights_in. cbn.
    rewrite (AsioAcquire.asio_result (MutexOp true) false n c Acquired eq_refl Hr Hd). pose proof (AsioAcquire.asio_inv_reachable _ _ _ _ Hr) as HI.
    assert (count AsioAcquire.consuming (threads c) = 0) as ->.
    { apply count_all_false. intros l [i Hi]%list_elem_of_lookup.
      destruct (Asio.delivered_idle n c i l Acquired Hr Hd Hi) as [Hl _]. by destruct l. }
    rewrite (AsioAcquire.inv_registered _ _ _ HI). destruct (AsioAcquire.waiter_guard_ _) eqn:Eg; [|done].
    destruct (AsioAcquire.inv_guard _ _ _ HI Eg) as (_ & _ & _ & _ & E). unfold calls in E. by rewrite Hd in E.
  - intros n c i ch l Hr Hd Hi _. destruct (Asio.delivered_idle n c i l Acquired Hr Hd Hi) as [Hl _]. by destruct l.
  - intros i ch s l k b Hen Hc Ht. exists (AsioAcquire.Act b).
    destruct l; simpl in *; simplify_eq; try done; try (case_match; simplify_eq); destruct b; eauto.
Qed.

(** ** libdispatch *)

Module Dispatch.
Import DispatchAcquire.

Section dispatch.
Context (b : bool).
#[local] Abbreviation step := (tstep (PMutex true) b).

(** A thread that runs no handler leaves the guard alone. *)
Lemma dispatch_outside i ch s l s' l' :
  step i ch s l = Some (s', l') -> rests s -> token l = false -> mutex_call s l = None /\ waiter_guard_ s' = waiter_guard_ s.
Proof.
  intros Hs Hr Hl. pose proof (fun E => destroy_nothing (PMutex true) b s E Hr) as Hd.
  destruct l, ch; try done; simpl in *; step_cases Hs; try (by rewrite Hd); done.
Qed.

Lemma dispatch_alone n c i j ch ch2 l l2 k s2 l2' :
  reachable step (init n) c -> threads c !! i = Some l -> threads c !! j = Some l2 -> i <> j ->
  is_Some (step i ch (shared c) l) -> mutex_call (shared c) l = Some k ->
  step j ch2 (shared c) l2 = Some (s2, l2') ->
  mutex_call (shared c) l2 = None /\ mutex_call s2 l = Some k /\ is_Some (step i ch s2 l).
Proof.
  intros HI%dispatch_inv_reachable Hi Hj Hne Hen Hm Hs.
  assert (mutex_call (shared c) l <> None) as Hm' by congruence.
  destruct (dispatch_carried _ _ c i l HI Hi Hm') as (_ & _ & H1 & _).
  assert (token l2 = false) as Hl2.
  { destruct (token l2) eqn:E; [|done]. destruct Hne. apply (count_unique token (threads c) i j l l2); try (done || lia).
    by eapply mutex_call_token. }
  destruct (dispatch_outside _ _ _ _ _ _ Hs (inv_rests _ _ _ HI) Hl2) as [H2 H3]. split; [done|].
  destruct l, ch; try discriminate Hm; try (by destruct Hen); simpl in *; rewrite ?H3; (split; [done|]);
    case_match; eauto.
Qed.

Lemma dispatch_owner n c :
  reachable step (init n) c -> delivered (book (shared c)) = [Acquired] ->
  dispatch_rights c = Rights true false false.
Proof.
  intros Hr Hd. pose proof (dispatch_inv_reachable _ _ _ _ Hr) as HI. unfold dispatch_rights, rights_in.
  rewrite (dispatch_result _ _ n c Acquired Hr Hd).
  pose proof (inv_calls _ _ _ HI) as Hc. unfold calls in Hc. rewrite Hd in Hc. simpl in Hc.
  pose proof (count_bounds committed (threads c)).
  assert (handler_invoked (shared c) = true /\ count committed (threads c) = 0) as [E1 E2]
    by (destruct (handler_invoked _); simpl in *; split; (done || lia)).
  rewrite (inv_registered _ _ _ HI), (decided_unguarded _ _ c HI E1 E2).
  assert (count consuming (threads c) = 0) as ->; [|done].
  apply count_all_false. intros l [i Hi]%list_elem_of_lookup. destruct l; try done.
  pose proof (Forall_lookup_1 _ _ _ _ (inv_fits _ _ _ HI) Hi) as (_ & Hu & _). unfold undecided in Hu. congruence.
Qed.
End dispatch.
End Dispatch.

#[export] Instance dispatch_client_laws b : MutexClientLaws (client_machine (DispatchMutex b)).
Proof.
  split; cbn.
  - intros. by eapply DispatchAcquire.dispatch_conforms.
  - intros. by eapply Dispatch.dispatch_alone.
  - apply Dispatch.dispatch_owner.
  - intros n c i ch l HI%DispatchAcquire.dispatch_inv_reachable Hd Hi _.
    destruct (DispatchAcquire.mutex_call (shared c) l) eqn:E; [|done].
    destruct (DispatchAcquire.dispatch_carried _ _ c i l HI Hi) as (_ & _ & _ & Hn); congruence.
  - intros i ch s l k r Hen Hc Ht. exists (DispatchAcquire.Act r).
    destruct l; simpl in *; simplify_eq; try done; try (case_match; simplify_eq); destruct r; eauto.
Qed.

(** ** Qt *)

Module Qt.
Import QtAcquire.

Section qt.
Context (b : bool).
#[local] Abbreviation step := (tstep (PMutex true) b).

(** Calls are made by the thread of the loop. *)
Lemma calls_loop i ch s l m : is_Some (step i ch s l) -> mutex_call ch s l = Some m -> i = 0%nat.
Proof.
  intros [x Hs] Hm. destruct i as [|i]; [done|]. unfold tstep, cancel_step in Hs. by destruct l, ch.
Qed.

(** A call survives what the other threads do: they only cancel. *)
Lemma qt_alone n c i j ch ch2 l l2 k s2 l2' :
  reachable step (init n) c -> threads c !! i = Some l -> threads c !! j = Some l2 -> i <> j ->
  is_Some (step i ch (shared c) l) -> mutex_call ch (shared c) l = Some k ->
  step j ch2 (shared c) l2 = Some (s2, l2') ->
  mutex_call ch2 (shared c) l2 = None /\ mutex_call ch s2 l = Some k /\ is_Some (step i ch s2 l).
Proof.
  intros HI%qt_inv_reachable Hi Hj Hne Hen Hm Hs.
  assert (i = 0%nat) as -> by (by eapply calls_loop). destruct j as [|j]; [done|].
  pose proof (Forall_lookup_1 _ _ _ _ (inv_fits _ _ _ HI) Hj) as Hf. simpl in Hf.
  split. { destruct (mutex_call ch2 (shared c) l2) eqn:E; [|done]. by apply (calls_loop (S j)) in E; [|eauto]. }
  unfold tstep, cancel_step in Hs. destruct l2, ch2; try done; simpl in Hs; step_cases Hs;
    destruct l, ch; try discriminate Hm; try (by destruct Hen); simpl in *; rewrite ?Hm; (split; [done|]);
    try (case_match; eauto; fail); try done;
    unfold tstep, cancel_step, loop_step, unreferenced in *; simpl in *; simplify_eq;
    destruct Hen as [x Hen]; repeat case_match; simplify_eq/=; bools; try congruence; eauto; intuition congruence.
Qed.

Lemma delivered_facts n c :
  reachable step (init n) c -> delivered (book (shared c)) = [Acquired] ->
  Inv (PMutex true) b c /\ handler_invoked_ (shared c) = true /\ waiter_guard_ (shared c) = false.
Proof.
  intros [HI Hu]%qt_unguarded Hd. split; [done|]. split; [|apply Hu; right; rewrite Hd; left].
  pose proof (inv_calls _ _ _ HI) as Hc. unfold calls in Hc. rewrite Hd in Hc.
  pose proof (count_bounds invoking (threads c)). destruct (handler_invoked_ _); simpl in *; (done || lia).
Qed.

Lemma qt_owner n c :
  reachable step (init n) c -> delivered (book (shared c)) = [Acquired] -> qt_rights c = Rights true false false.
Proof.
  intros Hr Hd. destruct (delivered_facts n c Hr Hd) as (HI & E1 & E2). unfold qt_rights, rights_in.
  rewrite (qt_result _ _ n c Acquired Hr Hd), (inv_registered _ _ _ HI). unfold registrations. rewrite E2.
  assert (count consuming (threads c) = 0) as ->; [|done].
  apply count_all_false. intros l [i Hi]%list_elem_of_lookup. destruct l; try done.
  pose proof (Forall_lookup_1 _ _ _ _ (inv_fits _ _ _ HI) Hi) as [(_ & Hx & _) _]. congruence.
Qed.

Lemma silent_end n c i ch l :
  reachable step (init n) c -> delivered (book (shared c)) = [Acquired] -> threads c !! i = Some l ->
  mutex_call ch (shared c) l = None.
Proof.
  intros Hr Hd Hi. destruct (delivered_facts n c Hr Hd) as (HI & E1 & E2).
  pose proof (Forall_lookup_1 _ _ _ _ (inv_fits _ _ _ HI) Hi) as Hf. simpl in Hf.
  destruct l, ch; simpl in *; rewrite ?E2; try done; unfold starting, notified in Hf; destruct_and?; congruence.
Qed.
End qt.
End Qt.

#[export] Instance qt_client_laws b : MutexClientLaws (client_machine (QtMutex b)).
Proof.
  split; cbn.
  - intros. by eapply QtAcquire.qt_conforms.
  - intros. by eapply Qt.qt_alone.
  - apply Qt.qt_owner.
  - intros. by eapply Qt.silent_end.
  - intros i ch s l k r Hen Hc Ht. pose proof (Qt.calls_loop _ _ _ _ _ _ Hen Hc) as ->. exists (QtAcquire.Act r).
    destruct l, ch; simpl in *; simplify_eq; try done; try (case_match; simplify_eq);
      unfold QtAcquire.tstep; simpl; destruct r; eauto.
Qed.

#[export] Instance mutex_operation_laws k : MutexClientLaws (client_machine k).
Proof. destruct k; apply _. Qed.

(** What the rights of an operation whose handler was called say about the lock. *)
Lemma delivered_lock k n c r :
  am_reachable (client_machine k) n c -> delivered (am_book (client_machine k) (shared c)) = [r] ->
  has_lock (mc_rights (client_machine k) c) = is_acquired r.
Proof.
  intros Hr Hd. unfold mc_rights, rights_in. simpl.
  assert (taken (am_book (client_machine k) (shared c)) = Z.b2z (is_acquired r)) as ->
    by (by destruct k; eapply (as_owned n c)). by destruct r.
Qed.

(** C13: the operations on the three event loops keep to the protocol of
    [async_waiter_guard], in every interleaving with cancellation and the reactor:
    [try_lock()] only without a guard and without the lock, one registration per
    operation, [consume_lock()] after a successful [try_acquire()], one release for
    every registration, [unlock()] only of a lock the operation has, and no two
    threads call the mutex at a time.  What the rights say is what the ledger of the
    operation says, before and after.  An operation whose handler was called with a
    success has the lock and nothing else; one whose handler was called with
    [operation_canceled] does not have the lock. *)
Theorem operations_keep_guard_protocol k n c i ch c' l :
  am_reachable (client_machine k) n c -> threads c !! i = Some l ->
  cstep (am_step (client_machine k)) i ch c = Some c' ->
  conforms (mc_call ch (shared c) l) (mc_result ch) (mc_rights (client_machine k) c) (mc_rights (client_machine k) c') /\
  (mc_call ch (shared c) l <> None ->
   forall j ch2 l2, j <> i -> threads c !! j = Some l2 -> is_Some (am_step (client_machine k) j ch2 (shared c) l2) ->
     mc_call ch2 (shared c) l2 = None) /\
  (delivered (am_book (client_machine k) (shared c')) = [Acquired] ->
     mc_rights (client_machine k) c' = Rights true false false) /\
  (delivered (am_book (client_machine k) (shared c')) = [Canceled] ->
     has_lock (mc_rights (client_machine k) c') = false).
Proof.
  intros Hr Hi Hc. assert (am_reachable (client_machine k) n c') as Hr' by (eapply rtc_r; [exact Hr|by econstructor]).
  split_and!; [| |by apply (mc_owner n)|by apply (delivered_lock k n c' Canceled)].
  - apply cstep_inv in Hc as (l1 & s' & l' & Hi' & Hs & ->). rewrite Hi in Hi'. injection Hi' as <-.
    by apply (mc_conforms n).
  - apply cstep_inv in Hc as (l1 & s' & l' & Hi' & Hs & ->). rewrite Hi in Hi'. injection Hi' as <-.
    intros Hm j ch2 l2 Hne Hj [[s2 l2'] Hs2]. destruct (mc_call ch (shared c) l) as [q|] eqn:E; [|done].
    by eapply (mc_alone n c i j ch ch2 l l2 q s2 l2').
Qed.

(** An operation on libdispatch takes the lock in [start()]. *)
Lemma operations_keep_guard_protocol_witness :
  exists c', cstep (am_step (client_machine (DispatchMutex false))) 0%nat (DispatchAcquire.Act true)
      (Config (DispatchAcquire.set_phase DispatchAcquire.Starting DispatchAcquire.new_op) [DispatchAcquire.TryNow]) = Some c' /\
    perform TryLock true (Rights false false false) = Some (mc_rights (client_machine (DispatchMutex false)) c').
Proof.
  eexists. split; [reflexivity|].
  apply (operations_keep_guard_protocol (DispatchMutex false) 1
    (Config (DispatchAcquire.set_phase DispatchAcquire.Starting DispatchAcquire.new_op) [DispatchAcquire.TryNow])
    0%nat (DispatchAcquire.Act true) _ DispatchAcquire.TryNow); [|reflexivity|reflexivity].
  by apply (exec_reachable _ [(0%nat, DispatchAcquire.Start)]).
Defined.
