(* ===== verification/AsyncSystem.v ===== *)
(** * Asynchronous operations on the mutex they wait for

    The composition of [AsyncMutex.v] with the operations of [MutexClient.v]: any
    number of threads that use an [eventfd_mutex<with_backoff>] or a
    [kqueue_mutex<with_backoff>], and any number of asynchronous operations on it, on
    any of the three event loops.  An operation has a thread of the mutex's machine
    for itself, its slot; a call that the operation makes is begun in the slot, runs
    there step by step, interleaved with everything else, and its result is what the
    operation sees.  When its handler was called with the lock, the handler's
    [unique_lock] may unlock the mutex.

    What the reactor reports is not tied to the kernel object: the safety theorems
    hold whatever wakes the operations. *)
From S2P Require Import Prelude Kernel Machine AsyncOp AsioAcquire DispatchAcquire QtAcquire AsyncLibrary MutexClient.
From S2P Require Import Futex AsyncMutex.
#[local] Open Scope Z_scope.

(** An operation in the system: its machine, the call under way and the thread that
    makes it, and whether the lock it delivered was unlocked. *)
Record client := AsyncClient {
  kind : mutex_operation;
  size : nat;
  conf : config (am_state (client_machine kind)) (am_local (client_machine kind));
  pending : option (nat * AsyncOp.mutex_call);
  unlocked : bool
}.

Record system (K : Type) := System { mtx : config (Z * K) pc; clients : list client }.
Arguments System {_} _ _.
Arguments mtx {_} _.
Arguments clients {_} _.

(** A choice for an operation, whatever its event loop. *)
Inductive op_choice :=
| OnAsioLoop (ch : AsioAcquire.choice)
| OnDispatchQueue (ch : DispatchAcquire.choice)
| OnQtLoop (ch : QtAcquire.choice).

Definition choice_of (k : mutex_operation) (ch : op_choice) : option (am_choice (client_machine k)) :=
  match k return option (am_choice (client_machine k)) with
  | AsioMutex => match ch with OnAsioLoop ch => Some ch | _ => None end
  | DispatchMutex b => match ch with OnDispatchQueue ch => Some ch | _ => None end
  | QtMutex b => match ch with OnQtLoop ch => Some ch | _ => None end
  end.

Definition book_of (x : client) : ledger := am_book (client_machine (kind x)) (shared (conf x)).

Definition rights_of (x : client) : rights := mc_rights (client_machine (kind x)) (conf x).

(** The result of an operation. *)
Definition has_delivered (x : client) : bool := bool_decide (delivered (book_of x) = [Acquired]).

(** The handler's [unique_lock] owns the lock. *)
Definition owns (x : client) : bool := has_delivered x && negb (unlocked x).

Definition in_call_by (x : client) (tid : nat) : bool :=
  match pending x with Some (t, _) => (t =? tid)%nat | None => false end.

Definition set_pending (m : option (nat * AsyncOp.mutex_call)) (x : client) : client :=
  AsyncClient (kind x) (size x) (conf x) m (unlocked x).

Definition set_unlocked (x : client) : client := AsyncClient (kind x) (size x) (conf x) (pending x) true.

Definition set_conf (x : client) (c : config (am_state (client_machine (kind x))) (am_local (client_machine (kind x))))
  (m : option (nat * AsyncOp.mutex_call)) : client :=
  AsyncClient (kind x) (size x) c m (unlocked x).

(** What an operation does in its next step: its state after it and the call it
    makes. *)
Definition client_move (x : client) (tid : nat) (ch : op_choice)
  : option (config (am_state (client_machine (kind x))) (am_local (client_machine (kind x))) *
            option AsyncOp.mutex_call * bool) :=
  match choice_of (kind x) ch, threads (conf x) !! tid with
  | Some ch, Some l =>
      match cstep (am_step (client_machine (kind x))) tid ch (conf x) with
      | Some c' => Some (c', mc_call ch (shared (conf x)) l, mc_result ch)
      | None => None
      end
  | _, _ => None
  end.

Inductive move :=
| ByThread (i : nat) (ch : choice method)        (** a thread of the program *)
| BySlot (j : nat) (b : bool)                    (** the call of operation [j] takes a step *)
| ByClient (j tid : nat) (ch : op_choice)        (** operation [j], without the mutex *)
| BeginCall (j tid : nat) (ch : op_choice)
| ReturnCall (j : nat) (ch : op_choice)
| OwnerUnlocks (j : nat).                        (** the owner of the delivered lock *)

Section system.
Context {K : Type} `{Notifier K} (p : platform) (nt : nat).

(** How a call enters the mutex: [try_acquire()] of the guard is one method there, so
    that [ConsumeLock] and the release after it only go on. *)
Definition begin_call (m : AsyncOp.mutex_call) (q : pc) : option pc :=
  match m, q with
  | TryLock, _ => enter p MTryLock q
  | AddGuard, _ => enter p MGuard q
  | TryAcquire, _ => enter p MTryAcquire q
  | ConsumeLock, GuardConsume => Some q
  | ReleaseGuard, Remove true => Some q
  | ReleaseGuard, Guard _ => enter p MRelease q
  | UnlockMutex, _ => enter p MUnlock q
  | _, _ => None
  end.

(** Where a call has returned, and with what. *)
Definition returned (m : AsyncOp.mutex_call) (q : pc) : option bool :=
  match m, q with
  | TryLock, Idle => Some false
  | TryLock, Holding => Some true
  | AddGuard, Guard _ => Some true
  | TryAcquire, Guard _ => Some false
  | TryAcquire, GuardConsume => Some true
  | ConsumeLock, Remove _ => Some true
  | ReleaseGuard, (Idle | Holding) => Some true
  | UnlockMutex, Idle => Some true
  | _, _ => None
  end.

Definition set_slot (j : nat) (q : pc) (c : config (Z * K) pc) : config (Z * K) pc :=
  Config (shared c) (<[(nt + j)%nat := q]> (threads c)).

Definition slot (s : system K) (j : nat) : option pc := threads (mtx s) !! (nt + j)%nat.

(** May the slot run by itself? *)
Definition running (x : client) (q : pc) : bool :=
  if unlocked x then true
  else match pending x with
       | Some (_, m) => match returned m q with None => true | Some _ => false end
       | None => false
       end.

Definition sys_move (mv : move) (s : system K) : option (system K) :=
  match mv with
  | ByThread i ch =>
      if (i <? nt)%nat
      then match cstep (tstep p) i ch (mtx s) with Some m' => Some (System m' (clients s)) | None => None end
      else None
  | BySlot j b =>
      match clients s !! j, slot s j with
      | Some x, Some q =>
          if running x q
          then match cstep (tstep p) (nt + j) (Act b) (mtx s) with
               | Some m' => Some (System m' (clients s))
               | None => None
               end
          else None
      | _, _ => None
      end
  | ByClient j tid ch =>
      match clients s !! j with
      | Some x =>
          match client_move x tid ch with
          | Some (c', None, _) =>
              if in_call_by x tid then None
              else Some (System (mtx s) (<[j := set_conf x c' (pending x)]> (clients s)))
          | _ => None
          end
      | None => None
      end
  | BeginCall j tid ch =>
      match clients s !! j, slot s j with
      | Some x, Some q =>
          match client_move x tid ch, pending x with
          | Some (_, Some m, _), None =>
              match begin_call m q with
              | Some q' =>
                  Some (System (set_slot j q' (mtx s)) (<[j := set_pending (Some (tid, m)) x]> (clients s)))
              | None => None
              end
          | _, _ => None
          end
      | _, _ => None
      end
  | ReturnCall j ch =>
      match clients s !! j, slot s j with
      | Some x, Some q =>
          match pending x with
          | Some (tid, m) =>
              match returned m q, client_move x tid ch with
              | Some b, Some (c', Some m', b') =>
                  if decide (m' = m) then
                    if negb (is_try m) || eqb b b' then
                      Some (System (mtx s) (<[j := set_conf x c' None]> (clients s)))
                    else None
                  else None
              | _, _ => None
              end
          | None => None
          end
      | _, _ => None
      end
  | OwnerUnlocks j =>
      match clients s !! j, slot s j with
      | Some x, Some q =>
          if owns x then
            match enter p MUnlock q with
            | Some q' => Some (System (set_slot j q' (mtx s)) (<[j := set_unlocked x]> (clients s)))
            | None => None
            end
          else None
      | _, _ => None
      end
  end.

Inductive sys_step : system K -> system K -> Prop :=
| sys_step_intro mv s s' : sys_move mv s = Some s' -> sys_step s s'.

Definition new_client (o : mutex_operation * nat) : client :=
  AsyncClient o.1 o.2 (am_init (client_machine o.1) o.2) None false.

(** [nt] threads, and operations with a number of threads each. *)
Definition sys_init (ops : list (mutex_operation * nat)) : system K :=
  System (init (nt + length ops)) (new_client <$> ops).

Definition sys_reachable (ops : list (mutex_operation * nat)) (s : system K) : Prop := rtc sys_step (sys_init ops) s.

Fixpoint sys_exec (mvs : list move) (s : system K) : option (system K) :=
  match mvs with
  | [] => Some s
  | mv :: mvs' => match sys_move mv s with Some s' => sys_exec mvs' s' | None => None end
  end.

Lemma sys_exec_reachable mvs s s' : sys_exec mvs s = Some s' -> rtc sys_step s s'.
Proof.
  revert s; induction mvs as [|mv mvs IH]; simpl; intros s E; [by simplify_eq; left|].
  destruct (sys_move mv s) as [s1|] eqn:E1; [|done]. eapply rtc_l; [by econstructor|]. by apply IH.
Qed.
End system.

(** ** What a slot is in *)

(** The slot of an operation that has these rights and is in no call. *)
Definition slot_has (r : rights) (q : pc) : Prop :=
  match r with
  | Rights false false false => q = Idle
  | Rights true false false => q = Holding
  | Rights false true false => exists f, q = Guard f
  | Rights true true true => q = GuardConsume
  | Rights true true false => q = Remove true
  | _ => False
  end.

(** The slot inside a call. *)
Definition in_call (m : AsyncOp.mutex_call) (r : rights) (q : pc) : Prop :=
  match m with
  | TryLock => q = TryLoad Client \/ (exists s, q = TryLoop Client s) \/ q = Idle \/ q = Holding
  | AddGuard => q = GuardAdd \/ q = Guard true
  | TryAcquire => q = TryLoad GuardTry \/ (exists s, q = TryLoop GuardTry s) \/ q = Guard false \/ q = GuardConsume
  | ConsumeLock => q = GuardConsume \/ q = Remove true
  | ReleaseGuard => q = Remove (has_lock r) \/ q = if has_lock r then Holding else Idle
  | UnlockMutex => q = Unlock \/ q = UnlockNotify \/ q = Idle
  end.

(** The cases of where a slot is. *)
Ltac slot_cases :=
  repeat match goal with
         | H : _ \/ _ |- _ => destruct H
         | H : exists _, _ |- _ => destruct H
         end; subst.

(** The allowed calls and the rights before them. *)
Ltac perform_cases m r Hp :=
  destruct m, r as [[] [] []]; try discriminate Hp; simpl in Hp; injection Hp as <-.

Section calls.
Context {K : Type} `{Notifier K} (p : platform).

Lemma begin_in_call m b r r' q q' :
  slot_has r q -> perform m b r = Some r' -> begin_call p m q = Some q' -> in_call m r q'.
Proof.
  intros Hq Hp Hb. perform_cases m r Hp; simpl in Hq;
    slot_cases; simpl in *; simplify_eq; auto.
Qed.

(** An allowed call can begin. *)
Lemma begin_possible m b r r' q :
  slot_has r q -> perform m b r = Some r' -> is_Some (begin_call p m q).
Proof.
  intros Hq Hp. perform_cases m r Hp; simpl in Hq;
    slot_cases; simpl; eauto.
Qed.

Lemma run_in_call m b r r' q c s s' q' i :
  in_call m r q -> perform m b r = Some r' -> returned m q = None ->
  tstep p i (Act c) s q = Some (s', q') -> in_call m r q'.
Proof.
  intros Hq Hp Hn Hs. destruct s as [v k].
  perform_cases m r Hp; simpl in Hq; slot_cases; simpl in *; try discriminate Hn;
    unfold try_loop, AsyncMutex.unlock in Hs; repeat case_match; simplify_eq/=; eauto 10.
Qed.

Lemma return_has m b b' r r' q :
  in_call m r q -> perform m b' r = Some r' -> returned m q = Some b -> (is_try m = true -> b' = b) -> slot_has r' q.
Proof.
  intros Hq Hp Hr Hb. perform_cases m r Hp; simpl in Hb; try rewrite Hb by done;
    simpl in Hq; slot_cases; simpl in *; simplify_eq/=; eauto.
Qed.

(** A call begins by a step of the mutex or by none. *)
Lemma begin_enters m q q' : begin_call p m q = Some q' -> q' = q \/ exists n, enter p n q = Some q'.
Proof.
  destruct m; simpl; intros E; eauto; destruct q as [| | | | | | | | | | | | | | |f| |ok| |]; try destruct ok;
    simplify_eq; auto; right; by exists MRelease.
Qed.
End calls.

(** ** An operation and its slot *)

(** Thread [tid] of the operation is at a call [m]. *)
Definition calling (x : client) (tid : nat) (m : AsyncOp.mutex_call) : Prop :=
  exists ch l, threads (conf x) !! tid = Some l /\
    is_Some (am_step (client_machine (kind x)) tid ch (shared (conf x)) l) /\
    mc_call ch (shared (conf x)) l = Some m.

Definition client_ok (x : client) (q : pc) : Prop :=
  am_reachable (client_machine (kind x)) (size x) (conf x) /\
  if unlocked x then pending x = None /\ has_delivered x = true /\ (q = Unlock \/ q = UnlockNotify \/ q = Idle)
  else match pending x with
       | None => slot_has (rights_of x) q
       | Some (tid, m) => in_call m (rights_of x) q /\ calling x tid m
       end.

#[export] Instance client_spec k : AsyncSpec (client_machine k).
Proof. unfold client_machine. apply _. Qed.

Lemma client_move_inv x tid ch c' m b :
  client_move x tid ch = Some (c', m, b) ->
  exists ch' l s' l', threads (conf x) !! tid = Some l /\
    am_step (client_machine (kind x)) tid ch' (shared (conf x)) l = Some (s', l') /\
    c' = Config s' (<[tid := l']> (threads (conf x))) /\ m = mc_call ch' (shared (conf x)) l /\ b = mc_result ch'.
Proof.
  unfold client_move. destruct (choice_of (kind x) ch) as [ch'|]; [|done].
  destruct (threads (conf x) !! tid) as [l|] eqn:El; [|done].
  destruct (cstep _ tid ch' (conf x)) as [c1|] eqn:Ec; [|done]. intros [= <- <- <-].
  apply cstep_inv in Ec as (l1 & s' & l' & El' & Hs & ->). rewrite El in El'. injection El' as <-. eauto 10.
Qed.

Section client.
Context (x : client).
#[local] Abbreviation m := (client_machine (kind x)).
Hypothesis Hr : am_reachable m (size x) (conf x).

(** The step of an operation. *)
Lemma move_reachable tid ch l s' l' :
  threads (conf x) !! tid = Some l -> am_step m tid ch (shared (conf x)) l = Some (s', l') ->
  am_reachable m (size x) (Config s' (<[tid := l']> (threads (conf x)))).
Proof.
  intros Hl Hs. eapply rtc_r; [exact Hr|]. apply (step_intro _ tid ch). unfold cstep. by rewrite Hl, Hs.
Qed.

(** A delivered success stays the result. *)
Lemma move_delivered tid ch l s' l' :
  threads (conf x) !! tid = Some l -> am_step m tid ch (shared (conf x)) l = Some (s', l') ->
  delivered (book_of x) = [Acquired] -> delivered (am_book m s') = [Acquired].
Proof.
  intros Hl Hs Hd. pose proof (move_reachable _ _ _ _ _ Hl Hs) as Hr'.
  assert (cstep (am_step m) tid ch (conf x) = Some (Config s' (<[tid := l']> (threads (conf x))))) as Hc
    by (unfold cstep; by rewrite Hl, Hs).
  destruct (as_calls _ _ _ _ _ Hr Hc) as [E|(_ & _ & r & E)]; cbn [shared] in E.
  - by rewrite E.
  - pose proof (as_once _ _ Hr') as H1. unfold calls in H1. cbn [shared] in H1. unfold book_of in Hd.
    rewrite E, Hd in H1. simpl in H1. lia.
Qed.

Lemma calling_undelivered tid c : calling x tid c -> has_delivered x = false.
Proof.
  intros (ch & l & Hl & Hen & Hc). unfold has_delivered. apply bool_decide_eq_false. intros Hd.
  pose proof (mc_done (size x) (conf x) tid ch l Hr Hd Hl Hen). congruence.
Qed.

(** A call that is under way is allowed. *)
Lemma calling_allowed tid c : calling x tid c -> exists b r', perform c b (rights_of x) = Some r'.
Proof.
  intros (ch & l & Hl & [[s' l'] Hs] & Hc).
  pose proof (mc_conforms (size x) (conf x) tid ch l s' l' Hr Hl Hs) as Hf. rewrite Hc in Hf. unfold conforms in Hf. eauto.
Qed.
End client.

Lemma silent_ok x q tid ch c' b :
  client_ok x q -> client_move x tid ch = Some (c', None, b) -> in_call_by x tid = false ->
  client_ok (set_conf x c' (pending x)) q.
Proof.
  intros [Hr Hx] (ch' & l & s' & l' & Hl & Hs & -> & Hm & _)%client_move_inv Hb.
  split; [exact (move_reachable x Hr _ _ _ _ _ Hl Hs)|].
  pose proof (mc_conforms (size x) (conf x) tid ch' l s' l' Hr Hl Hs) as Hf. rewrite <- Hm in Hf. simpl in Hf.
  unfold rights_of, has_delivered, book_of in *. cbn [unlocked pending conf kind set_conf shared].
  destruct (unlocked x).
  - destruct Hx as (Hp & Hd & Hq). split_and!; [done| |done]. apply bool_decide_eq_true in Hd. apply bool_decide_eq_true.
    exact (move_delivered x Hr _ _ _ _ _ Hl Hs Hd).
  - unfold in_call_by in Hb. destruct (pending x) as [[t k]|]; [|by rewrite Hf].
    destruct Hx as [Hq (ch2 & l2 & Hl2 & Hen & Hk)]. rewrite Hf. split; [done|]. apply Nat.eqb_neq in Hb.
    destruct (mc_alone _ _ t tid ch2 ch' l2 l k s' l' Hr Hl2 Hl Hb Hen Hk Hs) as (_ & Hk' & Hen').
    exists ch2, l2. cbn [conf kind set_conf shared threads]. by rewrite list_lookup_insert_ne.
Qed.

Section slots.
Context {K : Type} `{Notifier K} (p : platform).

Lemma begin_ok x q q' tid ch c' k b :
  client_ok x q -> client_move x tid ch = Some (c', Some k, b) -> pending x = None -> begin_call p k q = Some q' ->
  client_ok (set_pending (Some (tid, k)) x) q'.
Proof.
  intros [Hr Hx] (ch' & l & s' & l' & Hl & Hs & -> & Hm & _)%client_move_inv Hp Hb.
  assert (calling x tid k) as Hc by (exists ch', l; eauto).
  split; [done|]. cbn [unlocked pending set_pending]. destruct (unlocked x).
  - destruct Hx as (_ & Hd & _). by rewrite (calling_undelivered x Hr tid k Hc) in Hd.
  - rewrite Hp in Hx. destruct (calling_allowed x Hr tid k Hc) as (b' & r' & Ha).
    split; [|done]. by eapply begin_in_call.
Qed.

Lemma call_run_ok x q q' i c s s' :
  client_ok x q -> running x q = true -> tstep p i (Act c) s q = Some (s', q') -> client_ok x q'.
Proof.
  intros [Hr Hx] Hn Hs. split; [done|]. unfold running in Hn. destruct (unlocked x).
  - destruct Hx as (Hp & Hd & Hq). split_and!; try done. destruct s as [v k].
    destruct Hq as [->|[->| ->]]; simpl in Hs; unfold AsyncMutex.unlock in Hs; repeat case_match; simplify_eq; auto.
  - destruct (pending x) as [[tid k]|]; [|done]. destruct Hx as [Hq Hc].
    destruct (calling_allowed x Hr tid k Hc) as (b' & r' & Ha). split; [|done].
    eapply run_in_call; try done. by destruct (returned k q).
Qed.

Lemma return_ok x q tid k ch c' b b' :
  client_ok x q -> pending x = Some (tid, k) -> returned k q = Some b ->
  client_move x tid ch = Some (c', Some k, b') -> (is_try k = true -> b' = b) -> client_ok (set_conf x c' None) q.
Proof.
  intros [Hr Hx] Hp Hn (ch' & l & s' & l' & Hl & Hs & -> & Hm & ->)%client_move_inv Hb.
  split; [exact (move_reachable x Hr _ _ _ _ _ Hl Hs)|]. cbn [unlocked pending set_conf]. destruct (unlocked x).
  - by destruct Hx as (Hp' & _); rewrite Hp in Hp'.
  - rewrite Hp in Hx. destruct Hx as [Hq Hc].
    pose proof (mc_conforms (size x) (conf x) tid ch' l s' l' Hr Hl Hs) as Hf. rewrite <- Hm in Hf.
    by eapply return_has.
Qed.

Lemma owner_ok x q :
  client_ok x q -> owns x = true -> q = Holding /\ forall q', enter p MUnlock q = Some q' -> client_ok (set_unlocked x) q'.
Proof.
  intros [Hr Hx] [Hd Hu]%andb_true_iff. apply negb_true_iff in Hu. rewrite Hu in Hx.
  destruct (pending x) as [[tid k]|] eqn:Ep.
  { destruct Hx as [_ Hc]. by rewrite (calling_undelivered x Hr tid k Hc) in Hd. }
  unfold rights_of in Hx. rewrite (mc_owner _ _ Hr) in Hx; [|by apply bool_decide_eq_true in Hd].
  simpl in Hx. subst q. split; [done|]. intros q' [= <-]. split; [done|]. cbn [unlocked set_unlocked pending]. auto.
Qed.
End slots.

(** ** The system *)

Section invariant.
Context {K : Type} `{Notifier K, !NotifierLaws K} (p : platform) (nt : nat) (ops : list (mutex_operation * nat)).

Record Inv (s : system K) : Prop := {
  inv_mtx : reachable (tstep p) (init (nt + length ops)) (mtx s);
  inv_clients : length (clients s) = length ops;
  inv_slots : forall j x, clients s !! j = Some x -> exists q, slot nt s j = Some q /\ client_ok x q
}.

Lemma mutex_reachable (c c' : config (Z * K) pc) n i ch :
  reachable (tstep p) (init n) c -> cstep (tstep p) i ch c = Some c' -> reachable (tstep p) (init n) c'.
Proof. intros Hr Hs. eapply rtc_r; [exact Hr|]. by econstructor. Qed.

(** A step of one thread of the mutex leaves the other slots alone. *)
Lemma cstep_slot (c c' : config (Z * K) pc) i k ch :
  cstep (tstep p) i ch c = Some c' -> i <> k -> threads c' !! k = threads c !! k.
Proof. intros (l & s' & l' & _ & _ & ->)%cstep_inv Hne. cbn [threads]. by apply list_lookup_insert_ne. Qed.

(** A method is entered by a step of the mutex. *)
Lemma enter_reachable (c : config (Z * K) pc) n j q q' m :
  reachable (tstep p) (init n) c -> threads c !! (nt + j)%nat = Some q -> enter p m q = Some q' ->
  reachable (tstep p) (init n) (set_slot nt j q' c).
Proof.
  intros Hr Hq He. apply (mutex_reachable c _ n (nt + j) (Call m) Hr). unfold cstep. rewrite Hq.
  destruct (shared c) as [v k] eqn:Es. assert (tstep p (nt + j) (Call m) (v, k) q = Some ((v, k), q')) as ->.
  { simpl. destruct q; rewrite He; done. }
  unfold set_slot. by rewrite Es.
Qed.

Lemma set_slot_lookup (c : config (Z * K) pc) j i q q' x :
  threads c !! (nt + j)%nat = Some q -> threads c !! (nt + i)%nat = Some x ->
  threads (set_slot nt j q' c) !! (nt + i)%nat = Some (if decide (i = j) then q' else x).
Proof.
  intros Hq Hx. unfold set_slot. cbn [threads]. destruct (decide (i = j)) as [->|Hne].
  - apply list_lookup_insert_eq. by apply lookup_lt_Some in Hq.
  - rewrite list_lookup_insert_ne; [done|lia].
Qed.

(** Replace operation [j] and, if it moved, its slot. *)
Lemma replace_ok s j y q' m' :
  Inv s -> reachable (tstep p) (init (nt + length ops)) m' ->
  (forall i, i <> j -> threads m' !! (nt + i)%nat = slot nt s i) -> threads m' !! (nt + j)%nat = Some q' ->
  client_ok y q' -> Inv (System m' (<[j := y]> (clients s))).
Proof.
  intros [Hm Hl Hs] Hm' Ho Hj Hy. constructor; cbn [mtx clients]; [done|by rewrite length_insert|].
  intros i x. rewrite list_lookup_insert_Some. intros [(-> & <- & _)|[Hne Hi]]; [by exists q'|].
  destruct (Hs i x Hi) as (q & Hq & Hok). exists q. split; [|done]. unfold slot. cbn [mtx]. by rewrite Ho.
Qed.

(** The same when only the mutex moved. *)
Lemma keep_ok s m' :
  Inv s -> reachable (tstep p) (init (nt + length ops)) m' ->
  (forall j x q, clients s !! j = Some x -> slot nt s j = Some q -> client_ok x q ->
     exists q', threads m' !! (nt + j)%nat = Some q' /\ client_ok x q') -> Inv (System m' (clients s)).
Proof.
  intros [Hm Hl Hs] Hm' Ho. constructor; cbn [mtx clients]; [done|done|].
  intros j x Hj. destruct (Hs j x Hj) as (q & Hq & Hok). by apply (Ho j x q).
Qed.

Lemma set_slot_ok s j q q' y :
  Inv s -> slot nt s j = Some q -> reachable (tstep p) (init (nt + length ops)) (set_slot nt j q' (mtx s)) ->
  client_ok y q' -> Inv (System (set_slot nt j q' (mtx s)) (<[j := y]> (clients s))).
Proof.
  intros HI Hq Hr Hy. apply (replace_ok s j y q'); try done.
  - intros i Hne. unfold set_slot. cbn [threads]. rewrite list_lookup_insert_ne; [done|lia].
  - unfold set_slot. cbn [threads]. apply list_lookup_insert_eq. by apply lookup_lt_Some in Hq.
Qed.

Lemma sys_move_ok mv s s' : Inv s -> sys_move p nt mv s = Some s' -> Inv s'.
Proof.
  intros HI Hs. destruct mv as [i ch|j b|j tid ch|j tid ch|j ch|j]; simpl in Hs.
  - destruct (Nat.ltb_spec i nt); [|done]. destruct (cstep _ i ch _) as [m'|] eqn:E; [|done]. injection Hs as <-.
    apply keep_ok; [done|by eapply mutex_reachable; [apply HI|]|]. intros j x q _ Hq Hok. exists q. split; [|done].
    rewrite (cstep_slot _ _ i (nt + j) ch E); [done|lia].
  - destruct (clients s !! j) as [x|] eqn:Ex; [|done]. destruct (slot nt s j) as [q|] eqn:Eq; [|done].
    destruct (running x q) eqn:En; [|done]. destruct (cstep _ _ _ _) as [m'|] eqn:E; [|done]. injection Hs as <-.
    apply keep_ok; [done|by eapply mutex_reachable; [apply HI|]|]. intros i y q1 Hi Hq Hok.
    destruct (decide (i = j)) as [->|Hne].
    + rewrite Ex in Hi. rewrite Eq in Hq. injection Hi as <-. injection Hq as <-.
      apply cstep_inv in E as (l & s1 & l' & Hl & Ht & ->). unfold slot in Eq. rewrite Eq in Hl.
      injection Hl as <-. exists l'. split; [|by eapply call_run_ok]. cbn [threads]. apply list_lookup_insert_eq.
      by apply lookup_lt_Some in Eq.
    + exists q1. split; [|done]. rewrite (cstep_slot _ _ (nt + j) (nt + i) _ E); [done|lia].
  - destruct (clients s !! j) as [x|] eqn:Ex; [|done].
    destruct (client_move x tid ch) as [[[c' [m|]] b]|] eqn:Em; try done. destruct (in_call_by x tid) eqn:Ei; [done|].
    injection Hs as <-. destruct (inv_slots _ HI j x Ex) as (q & Hq & Hok).
    apply (replace_ok s j _ q); try done; [apply HI|]. by eapply silent_ok.
  - destruct (clients s !! j) as [x|] eqn:Ex; [|done]. destruct (slot nt s j) as [q|] eqn:Eq; [|done].
    destruct (client_move x tid ch) as [[[c' [m|]] b]|] eqn:Em; try done. destruct (pending x) eqn:Ep; [done|].
    destruct (begin_call p m q) as [q'|] eqn:Eb; [|done]. injection Hs as <-.
    destruct (inv_slots _ HI j x Ex) as (q1 & Hq & Hok). rewrite Eq in Hq. injection Hq as <-.
    eapply set_slot_ok; [done|exact Eq| |by eapply begin_ok].
    destruct (begin_enters p m q q' Eb) as [->|[n En]]; [|by eapply enter_reachable; [apply HI|..]].
    unfold set_slot. rewrite list_insert_id by done. destruct (mtx s) as [v ts] eqn:Es. cbn [shared threads]. rewrite <- Es. apply HI.
  - destruct (clients s !! j) as [x|] eqn:Ex; [|done]. destruct (slot nt s j) as [q|] eqn:Eq; [|done].
    destruct (pending x) as [[tid m]|] eqn:Ep; [|done]. destruct (returned m q) as [b|] eqn:Er; [|done].
    destruct (client_move x tid ch) as [[[c' [m'|]] b']|] eqn:Em; try done. destruct (decide (m' = m)) as [->|]; [|done].
    destruct (negb (is_try m) || eqb b b') eqn:Eb; [|done]. injection Hs as <-.
    destruct (inv_slots _ HI j x Ex) as (q1 & Hq & Hok). rewrite Eq in Hq. injection Hq as <-.
    apply (replace_ok s j _ q); try done; [apply HI|]. eapply return_ok; try done.
    intros Ht. rewrite Ht in Eb. symmetry. by apply eqb_prop.
  - destruct (clients s !! j) as [x|] eqn:Ex; [|done]. destruct (slot nt s j) as [q|] eqn:Eq; [|done].
    destruct (owns x) eqn:Eo; [|done]. destruct (enter p MUnlock q) as [q'|] eqn:En; [|done]. injection Hs as <-.
    destruct (inv_slots _ HI j x Ex) as (q1 & Hq & Hok). rewrite Eq in Hq. injection Hq as <-.
    destruct (owner_ok p x q Hok Eo) as [_ Ho].
    eapply set_slot_ok; [done|exact Eq|by eapply enter_reachable; [apply HI|..]|by apply Ho].
Qed.

Lemma sys_init_ok : Inv (sys_init nt ops).
Proof.
  constructor; unfold sys_init; cbn [mtx clients]; [by left|by rewrite length_fmap|].
  intros j x. rewrite list_lookup_fmap, fmap_Some. intros (o & Ho & ->). exists Idle. split.
  - unfold slot. cbn [mtx threads init]. apply lookup_replicate. apply lookup_lt_Some in Ho. split; [done|lia].
  - split; [by left|]. cbn [unlocked pending new_client]. unfold rights_of. cbn [kind conf new_client].
    destruct o as [[|b|b] n]; simpl; unfold mc_rights, rights_in; simpl; by rewrite count_replicate.
Qed.

Lemma sys_inv_reachable s : sys_reachable p nt ops s -> Inv s.
Proof.
  intros Hr. unfold sys_reachable in Hr. pose proof sys_init_ok as HI. revert HI.
  induction Hr as [|a b c [mv s1 s2 Hm] _ IH]; [done|]. intros HI. apply IH. by eapply sys_move_ok.
Qed.
End invariant.

(** ** Properties *)

(** No call of the operation is under way, and its owner is not unlocking. *)
Definition settled (x : client) (q : pc) : Prop := pending x = None /\ (unlocked x = true -> q = Idle).

(** The lock and the registration an operation accounts for. *)
Definition counts_lock (x : client) : bool := has_lock (rights_of x) && negb (unlocked x).
Definition counts_guard (x : client) : bool := has_guard (rights_of x).

Section properties.
Context {K : Type} `{Notifier K, !NotifierLaws K} (p : platform) (nt : nat) (ops : list (mutex_operation * nat)).

(** The threads of the program. *)
Definition program (s : system K) : list pc := take nt (threads (mtx s)).

Lemma sys_counts q s :
  count q (threads (mtx s)) = count q (program s) + count q (drop nt (threads (mtx s))).
Proof. unfold program. by rewrite <- count_app, take_drop. Qed.

Lemma slots_length s : Inv p nt ops s -> length (clients s) = length (drop nt (threads (mtx s))).
Proof.
  intros [Hm Hl Hs]. rewrite length_drop, Hl.
  assert (length (threads (mtx s)) = (nt + length ops)%nat) as ->; [|lia].
  clear Hl Hs. unfold reachable in Hm. remember (init (nt + length ops)) as c0 eqn:E.
  assert (length (threads c0) = (nt + length ops)%nat) as H0 by (subst c0; simpl; by rewrite length_replicate).
  clear E. induction Hm as [|c1 c2 c3 [i ch c c' Hc] _ IH]; [done|]. apply IH. by rewrite (cstep_length _ _ _ _ _ Hc).
Qed.

Lemma slot_of s j x q :
  Inv p nt ops s -> clients s !! j = Some x -> drop nt (threads (mtx s)) !! j = Some q -> client_ok x q.
Proof.
  intros HI Hj Hq. rewrite lookup_drop in Hq. destruct (inv_slots _ _ _ _ HI j x Hj) as (q' & Hq' & Hok).
  unfold slot in Hq'. congruence.
Qed.

(** An operation at rest accounts for what its slot holds. *)
Lemma settled_counts x q :
  client_ok x q -> settled x q -> counts_lock x = holds q /\ counts_guard x = registered q.
Proof.
  unfold counts_lock, counts_guard. intros [Hr Hx] [Hp Hu]. destruct (unlocked x).
  - rewrite Hu by done. destruct Hx as (_ & Hd%bool_decide_eq_true & _). unfold rights_of.
    rewrite (mc_owner _ _ Hr Hd). done.
  - rewrite Hp in Hx. destruct (rights_of x) as [[] [] []]; simpl in *; slot_cases; done.
Qed.

(** The operation has the lock: a try of it has succeeded, the lock is in its rights,
    and neither its [unlock()] nor that of the owner of the delivered lock has
    cleared the bit. *)
Definition op_holds (x : client) (q : pc) : bool :=
  if unlocked x then bool_decide (q = Unlock)
  else match pending x with
       | None => has_lock (rights_of x)
       | Some (_, m) =>
           if is_try m then match returned m q with Some b => b | None => false end
           else match m with UnlockMutex => bool_decide (q = Unlock) | _ => has_lock (rights_of x) end
       end.

(** What an operation has is what its slot has, inside a call too. *)
Lemma op_slot x q : client_ok x q -> holds q = op_holds x q.
Proof.
  unfold op_holds. intros [Hr Hx]. destruct (unlocked x).
  - destruct Hx as (_ & _ & Hq). slot_cases; done.
  - destruct (pending x) as [[tid m]|].
    + destruct Hx as [Hq Hc]. destruct (calling_allowed x Hr tid m Hc) as (b & r' & Hp).
      destruct (rights_of x) as [[] [] []], m; try discriminate Hp; simpl in *; slot_cases; done.
    + destruct (rights_of x) as [[] [] []]; simpl in *; slot_cases; done.
Qed.

Lemma owns_holds x q : client_ok x q -> owns x = true -> op_holds x q = true.
Proof. intros Hok Ho. rewrite <- (op_slot x q Hok). by destruct (owner_ok p x q Hok Ho) as [-> _]. Qed.

(** C9: mutual exclusion of the whole, whatever threads, event loops, cancellations
    and the reactor do: of the threads of the program and the slots of the operations
    at most one is between the step that takes the mutex and the step that unlocks
    it.  For an operation this is from the try that succeeded, before the result is
    delivered, through [consume_lock()] and the release of the guard, to its own
    unlock or that of the [unique_lock] that its handler was called with; a handler
    that was called with the lock and has not unlocked it has it. *)
Theorem system_exclusion s :
  Z.of_nat (nt + length ops) < 2 ^ 31 - 2 -> sys_reachable p nt ops s ->
  count holds (threads (mtx s)) <= 1 /\
  (forall j x, clients s !! j = Some x -> exists q, slot nt s j = Some q /\ holds q = op_holds x q /\
     (owns x = true -> op_holds x q = true)) /\
  count holds (program s) + count owns (clients s) <= 1.
Proof.
  intros Hn HI%sys_inv_reachable. pose proof (async_inv_reachable p _ _ Hn (inv_mtx _ _ _ _ HI)) as Ha.
  assert (count holds (threads (mtx s)) <= 1) as H1 by (destruct (AsyncMutex.inv_holds _ _ Ha); lia).
  pose proof (sys_counts holds s) as Hc. split_and!; [done| |].
  - intros j x Hj. destruct (inv_slots _ _ _ _ HI j x Hj) as (q & Hq & Hok). exists q.
    split_and!; [done|by apply op_slot|by apply owns_holds].
  - assert (count owns (clients s) <= count holds (drop nt (threads (mtx s)))) as Hle; [|lia].
    apply count_pointwise_le; [by apply slots_length|]. intros j x q Hj Hq Ho.
    destruct (owner_ok p x q) as [-> _]; [by eapply slot_of|done|done].
Qed.

(** C11: nothing leaks, whatever was cancelled, destroyed or failed before: the word
    of the mutex is always exactly twice the registered threads and slots, plus one
    if one of them has the lock.  The slot of every operation that is in no call of
    the mutex, and whose delivered lock is not just being unlocked, has the lock
    exactly if the operation has it in its ledger and did not unlock it, and is
    registered exactly if the operation still has its guard.  So whenever all
    operations are in no call, the word is twice the registered threads and
    the guards of the operations, plus one if a thread, an operation or the owner of
    a delivered lock has it. *)
Theorem system_accounting s :
  Z.of_nat (nt + length ops) < 2 ^ 31 - 2 -> sys_reachable p nt ops s ->
  (shared (mtx s)).1 = 2 * count registered (threads (mtx s)) + count holds (threads (mtx s)) /\
  (forall j x, clients s !! j = Some x -> exists q, slot nt s j = Some q /\
     (settled x q -> holds q = counts_lock x /\ registered q = counts_guard x)) /\
  ((forall j x q, clients s !! j = Some x -> slot nt s j = Some q -> settled x q) ->
   (shared (mtx s)).1 =
     2 * (count registered (program s) + count counts_guard (clients s)) +
     (count holds (program s) + count counts_lock (clients s))).
Proof.
  intros Hn HI%sys_inv_reachable.
  assert ((shared (mtx s)).1 = 2 * count registered (threads (mtx s)) + count holds (threads (mtx s))) as Hw
    by (by rewrite (AsyncMutex.inv_word _ _ (async_inv_reachable p _ _ Hn (inv_mtx _ _ _ _ HI)))).
  split_and!; [done| |].
  - intros j x Hj. destruct (inv_slots _ _ _ _ HI j x Hj) as (q & Hq & Hok). exists q. split; [done|].
    intros Hs. by destruct (settled_counts x q Hok Hs) as [-> ->].
  - intros Hset. rewrite Hw, !sys_counts. assert (forall j x q, clients s !! j = Some x ->
      drop nt (threads (mtx s)) !! j = Some q -> counts_lock x = holds q /\ counts_guard x = registered q) as Hq.
    { intros j x q Hj Hd. apply settled_counts; [by eapply slot_of|]. apply (Hset j x q Hj). unfold slot.
      by rewrite <- lookup_drop. }
    rewrite (count_pointwise counts_guard registered _ _ (slots_length s HI)) by (intros; by eapply Hq).
    rewrite (count_pointwise counts_lock holds _ _ (slots_length s HI)) by (intros; by eapply Hq). lia.
Qed.

(** C10: an operation that waits with its guard and has tried to lock since it
    registered is not forgotten: when the mutex is free, the kernel object is ready,
    so that its descriptor is readable, or some thread or operation is about to
    notify it or to look at the mutex again.  (It does not hold before that try:
    [system_late_registration].) *)
Theorem system_no_lost_wakeup s j :
  Z.of_nat (nt + length ops) < 2 ^ 31 - 2 -> sys_reachable p nt ops s ->
  slot nt s j = Some (Guard false) -> is_free (shared (mtx s)).1 = true ->
  k_ready (shared (mtx s)).2 = true \/ exists i q, threads (mtx s) !! i = Some q /\ active q = true.
Proof.
  intros Hn HI%sys_inv_reachable Hj Hf. pose proof (async_inv_reachable p _ _ Hn (inv_mtx _ _ _ _ HI)) as Ha.
  pose proof (count_bounds registered (threads (mtx s))) as Hb. rewrite (AsyncMutex.inv_threads _ _ Ha) in Hb.
  rewrite (AsyncMutex.inv_word _ _ Ha), word_free in Hf by (done || apply Ha || lia). bools.
  destruct (AsyncMutex.inv_wake _ _ Ha Hf) as [?|Hc]; [by eapply count_pos|by left|right].
  apply count_witness. lia.
Qed.

(** ** Calls do not block *)

(** How many steps a call still needs, if nobody interferes. *)
Definition steps_left (m : AsyncOp.mutex_call) (v : Z) (q : pc) : nat :=
  match q with
  | TryLoad _ | Unlock => 2
  | TryLoop _ s => if is_free s && negb (v =? s) then 2 else 1
  | GuardAdd | UnlockNotify => 1
  | GuardConsume => match m with ConsumeLock => 1 | _ => 0 end
  | Remove _ => match m with ReleaseGuard => 1 | _ => 0 end
  | _ => 0
  end.

Lemma steps_left_bound m v q : (steps_left m v q <= 2)%nat.
Proof. destruct q, m; simpl; try case_match; lia. Qed.

Lemma call_runs m r q i v k :
  in_call m r q -> returned m q = None ->
  exists v' k' q', tstep p i (Act false) (v, k) q = Some ((v', k'), q') /\ (steps_left m v' q' < steps_left m v q)%nat.
Proof.
  intros Hq Hn.
  assert (forall c s, tstep p i (Act false) (v, k) (TryLoop c s) =
    let '(v', l') := try_loop p false c v s in Some ((v', k), l')) as Ht by done.
  destruct m, r as [[] ? ?]; simpl in Hq; slot_cases; simpl in Hn; try done;
    try (simpl; repeat eexists; simpl; rewrite ?Z.eqb_refl, ?andb_false_r; lia);
    try (rewrite Ht; unfold try_loop, cas; destruct (is_free x) eqn:Ef; simpl;
      [rewrite (Z.eqb_sym v x); destruct (x =? v) eqn:Ev; simpl|]; repeat eexists; simpl;
      rewrite ?Ef, ?Z.eqb_refl, ?andb_false_r, ?(Z.eqb_sym v x), ?Ev; simpl; lia).
  all: unfold AsyncMutex.unlock; simpl; destruct (1 <? v); repeat eexists; simpl; lia.
Qed.

(** The moves of a call under way. *)
Definition of_call (j : nat) (mv : move) : Prop :=
  (exists b, mv = BySlot j b) \/ (exists ch, mv = ReturnCall j ch).

Lemma choice_of_all k (ch : am_choice (client_machine k)) : exists oc, choice_of k oc = Some ch.
Proof.
  destruct k as [|b|b]; [exists (OnAsioLoop ch)|exists (OnDispatchQueue ch)|exists (OnQtLoop ch)]; done.
Qed.

Lemma call_result s j x q tid m b :
  Inv p nt ops s -> clients s !! j = Some x -> slot nt s j = Some q -> pending x = Some (tid, m) ->
  returned m q = Some b ->
  exists ch s' x', sys_move p nt (ReturnCall j ch) s = Some s' /\ clients s' !! j = Some x' /\ pending x' = None.
Proof.
  intros HI Hj Hq Hp Hb. destruct (inv_slots _ _ _ _ HI j x Hj) as (q1 & Hq1 & [Hr Hx]).
  rewrite Hq in Hq1. injection Hq1 as <-. destruct (unlocked x); [by destruct Hx as (Hx & _); rewrite Hp in Hx|].
  rewrite Hp in Hx. destruct Hx as [_ (ch & l & Hl & Hen & Hc)].
  assert (exists ch', is_Some (am_step (client_machine (kind x)) tid ch' (shared (conf x)) l) /\
    mc_call ch' (shared (conf x)) l = Some m /\ (negb (is_try m) || eqb b (mc_result ch') = true))
    as (ch' & [[s2 l2] Hs] & Hc' & Hb').
  { destruct (is_try m) eqn:Et; [|by exists ch].
    destruct (mc_try tid ch _ l m b Hen Hc Et) as (ch' & ? & ? & <-). exists ch'. by rewrite eqb_reflx. }
  destruct (choice_of_all (kind x) ch') as [oc Ho]. exists oc. eexists _, (set_conf x _ None).
  unfold sys_move. rewrite Hj, Hq, Hp, Hb. unfold client_move. rewrite Ho, Hl. unfold cstep. rewrite Hl, Hs, Hc'.
  rewrite decide_True by done. rewrite Hb'. split; [reflexivity|]. split; [|done]. cbn [clients].
  apply list_lookup_insert_eq. by apply lookup_lt_Some in Hj.
Qed.

Lemma call_completes n s j x q tid m :
  Inv p nt ops s -> clients s !! j = Some x -> slot nt s j = Some q -> pending x = Some (tid, m) ->
  (steps_left m (shared (mtx s)).1 q <= n)%nat ->
  exists mvs s' x', (length mvs <= S n)%nat /\ Forall (of_call j) mvs /\ sys_exec p nt mvs s = Some s' /\
    clients s' !! j = Some x' /\ pending x' = None.
Proof.
  revert s q. induction n as [|n IH]; intros s q HI Hj Hq Hp Hn.
  all: destruct (returned m q) as [b|] eqn:Hb.
  1,3: destruct (call_result s j x q tid m b HI Hj Hq Hp Hb) as (ch & s' & x' & Hm & Hj' & Hp');
    exists [ReturnCall j ch], s', x'; (split_and!;
    [simpl; lia|constructor; [right; eauto|done]|cbn [sys_exec]; by rewrite Hm|done|done]).
  all: destruct (inv_slots _ _ _ _ HI j x Hj) as (q1 & Hq1 & [Hr Hx]); rewrite Hq in Hq1; injection Hq1 as <-;
    destruct (unlocked x) eqn:Eu; [by destruct Hx as (Hx & _); rewrite Hp in Hx|]; rewrite Hp in Hx;
    destruct Hx as [Hic _]; destruct (shared (mtx s)) as [v k] eqn:Es;
    destruct (call_runs m (rights_of x) q (nt + j) v k Hic Hb) as (v' & k' & q' & Ht & Hlt); simpl in Hn; try lia.
  assert (sys_move p nt (BySlot j false) s = Some (System (Config (v', k') (<[(nt + j)%nat := q']> (threads (mtx s)))) (clients s)))
    as Hm.
  { unfold sys_move. rewrite Hj, Hq. unfold running. rewrite Eu, Hp, Hb. unfold cstep. unfold slot in Hq.
    by rewrite Hq, Es, Ht. }
  destruct (IH (System (Config (v', k') (<[(nt + j)%nat := q']> (threads (mtx s)))) (clients s)) q')
    as (mvs & s' & x' & Hl & Hf & He & Hj' & Hp'); try done.
  - by eapply sys_move_ok.
  - unfold slot. cbn [mtx threads]. apply list_lookup_insert_eq. by apply lookup_lt_Some in Hq.
  - cbn. lia.
  - exists (BySlot j false :: mvs), s', x'. split_and!; try done; [simpl; lia|constructor; [left; eauto|done]|].
    cbn [sys_exec]. by rewrite Hm.
Qed.

(** C12: an event loop never blocks in the mutex: a call that an operation makes is
    complete after at most three steps of its own, whatever the other threads and
    operations have done before; and the operation takes its result. *)
Theorem system_calls_complete s j x tid m :
  sys_reachable p nt ops s -> clients s !! j = Some x -> pending x = Some (tid, m) ->
  exists mvs s' x', (length mvs <= 3)%nat /\ Forall (of_call j) mvs /\ sys_exec p nt mvs s = Some s' /\
    clients s' !! j = Some x' /\ pending x' = None.
Proof.
  intros HI%sys_inv_reachable Hj Hp. destruct (inv_slots _ _ _ _ HI j x Hj) as (q & Hq & _).
  by apply (call_completes 2 s j x q tid m HI Hj Hq Hp), steps_left_bound.
Qed.
End properties.

(** ** Schedules *)

(** A try of operation [j] that fails, and its registration. *)
Definition fails_and_registers (j : nat) (act : bool -> op_choice) : list move * list move :=
  ([BeginCall j 0 (act false); BySlot j false; BySlot j false; ReturnCall j (act false)],
   [BeginCall j 0 (act true); BySlot j false; ReturnCall j (act true)]).

Definition asio_act (b : bool) : op_choice := OnAsioLoop (AsioAcquire.Act b).
Definition dispatch_act (b : bool) : op_choice := OnDispatchQueue (DispatchAcquire.Act b).
Definition qt_act (b : bool) : op_choice := OnQtLoop (QtAcquire.Act b).

(** Thread 0 locks; an operation on each event loop is started and fails to lock. *)
Definition tries : list move :=
  [ByThread 0 (Call MLock); ByThread 0 (Act false)] ++
  ByClient 0 0 (OnAsioLoop AsioAcquire.Start) :: (fails_and_registers 0 asio_act).1 ++
  ByClient 1 0 (OnDispatchQueue DispatchAcquire.Start) :: (fails_and_registers 1 dispatch_act).1 ++
  ByClient 2 0 (OnQtLoop QtAcquire.Start) :: (fails_and_registers 2 qt_act).1.

(** They register and wait. *)
Definition registers : list move :=
  (fails_and_registers 0 asio_act).2 ++ [ByClient 0 0 (asio_act true)] ++
  (fails_and_registers 1 dispatch_act).2 ++ [ByClient 1 0 (dispatch_act true)] ++
  (fails_and_registers 2 qt_act).2 ++ [ByClient 2 0 (qt_act true); ByClient 2 0 (qt_act true)].

Definition unlocks (notify : bool) : list move :=
  [ByThread 0 (Call MUnlock); ByThread 0 (Act false)] ++ if notify then [ByThread 0 (Act false)] else [].

Definition three_loops : list (mutex_operation * nat) := [(AsioMutex, 2); (DispatchMutex false, 2); (QtMutex false, 1)]%nat.

(** The operations and the threads are at rest. *)
Definition at_rest (x : client) : bool :=
  match kind x as k return config (am_state (client_machine k)) (am_local (client_machine k)) -> bool with
  | AsioMutex => fun c => forallb (fun l => match l with AsioAcquire.Idle => true | _ => false end) (threads c)
  | DispatchMutex _ => fun c => forallb (fun l => match l with DispatchAcquire.Idle => true | _ => false end) (threads c)
  | QtMutex _ => fun c => forallb (fun l => match l with QtAcquire.Idle => true | _ => false end) (threads c)
  end (conf x) && match pending x with None => true | _ => false end.

(** The asynchronous operations of the three event loops can wait for ever for a free
    mutex: all three try to lock while thread 0 has the mutex; thread 0 unlocks,
    which notifies nobody since nobody is registered; then they register, and wait
    without another try.  At the end nothing is under way, the mutex is free, the
    kernel object is not ready, and no handler was called. *)
Theorem system_late_registration :
  exists s : system nat, sys_reachable Eventfd 1 three_loops s /\
    threads (mtx s) = [Idle; Guard true; Guard true; Guard true] /\
    is_free (shared (mtx s)).1 = true /\ k_ready (shared (mtx s)).2 = false /\
    forallb at_rest (clients s) = true /\
    Forall (fun x => delivered (book_of x) = [] /\ AsyncOp.registered (book_of x) = 1) (clients s).
Proof.
  assert (exists s, sys_exec Eventfd 1 (tries ++ unlocks false ++ registers) (sys_init (K := nat) 1 three_loops) = Some s /\
    threads (mtx s) = [Idle; Guard true; Guard true; Guard true] /\
    is_free (shared (mtx s)).1 = true /\ k_ready (shared (mtx s)).2 = false /\
    forallb at_rest (clients s) = true /\
    Forall (fun x => delivered (book_of x) = [] /\ AsyncOp.registered (book_of x) = 1) (clients s)) as (s & He & Hs).
  { eexists. split; [vm_compute; reflexivity|]. split_and!; try done. repeat constructor. }
  exists s. split; [|done]. by eapply sys_exec_reachable.
Qed.

(** ** Witnesses *)

(** The operation on Boost.Asio is notified, takes the lock and calls its handler;
    the operations on libdispatch and Qt stay registered. *)
Definition handler_runs : list move :=
  [ByClient 0 0 (OnAsioLoop (AsioAcquire.Ready false)); ByClient 0 1 (OnAsioLoop AsioAcquire.RunHandler);
   ByClient 0 1 (asio_act true);
   BeginCall 0 1 (asio_act true); BySlot 0 false; BySlot 0 false; ReturnCall 0 (asio_act true);
   BeginCall 0 1 (asio_act true); BySlot 0 false; ReturnCall 0 (asio_act true);
   BeginCall 0 1 (asio_act true); BySlot 0 false; ReturnCall 0 (asio_act true);
   ByClient 0 1 (asio_act true)].

(** After a run of the system from its start. *)
Definition after (mvs : list move) : system nat :=
  default (sys_init 1 three_loops) (sys_exec Eventfd 1 mvs (sys_init 1 three_loops)).

Definition delivered_run : system nat := after (tries ++ registers ++ unlocks true ++ handler_runs).

Lemma after_reachable mvs :
  is_Some (sys_exec (K := nat) Eventfd 1 mvs (sys_init 1 three_loops)) -> sys_reachable Eventfd 1 three_loops (after mvs).
Proof. intros [s Hs]. unfold after. rewrite Hs. by eapply sys_exec_reachable. Qed.

Lemma system_exclusion_witness :
  count owns (clients delivered_run) = 1 /\
  count holds (threads (mtx delivered_run)) <= 1 /\
  count holds (program 1 delivered_run) + count owns (clients delivered_run) <= 1.
Proof.
  split; [vm_compute; reflexivity|].
  cut (count holds (threads (mtx delivered_run)) <= 1 /\
    (forall j x, clients delivered_run !! j = Some x -> exists q, slot 1 delivered_run j = Some q /\
       holds q = op_holds x q /\ (owns x = true -> op_holds x q = true)) /\
    count holds (program 1 delivered_run) + count owns (clients delivered_run) <= 1); [tauto|].
  apply (system_exclusion Eventfd 1 three_loops delivered_run); [simpl; lia|].
  apply after_reachable. vm_compute. eauto.
Defined.

Lemma system_accounting_witness :
  (shared (mtx delivered_run)).1 = 5 /\
  (shared (mtx delivered_run)).1 =
    2 * (count registered (program 1 delivered_run) + count counts_guard (clients delivered_run)) +
    (count holds (program 1 delivered_run) + count counts_lock (clients delivered_run)).
Proof.
  split; [vm_compute; reflexivity|].
  apply (system_accounting Eventfd 1 three_loops delivered_run); [simpl; lia|apply after_reachable; vm_compute; eauto|].
  assert (Forall (fun x => pending x = None /\ unlocked x = false) (clients delivered_run)) as Hf
    by (vm_compute; repeat constructor).
  intros j x q Hj _. destruct (Forall_lookup_1 _ _ _ _ Hf Hj) as [H1 H2]. split; [done|]. by rewrite H2.
Defined.

(** The operation on Boost.Asio was woken in vain and waits again; the thread that
    had the lock unlocked. *)
Definition woken_in_vain : system nat :=
  after (tries ++ registers ++
    [ByClient 0 0 (OnAsioLoop (AsioAcquire.Ready false)); ByClient 0 1 (OnAsioLoop AsioAcquire.RunHandler);
     ByClient 0 1 (asio_act true); BeginCall 0 1 (asio_act true); BySlot 0 false; BySlot 0 false;
     ReturnCall 0 (asio_act false); ByClient 0 1 (asio_act true)] ++ unlocks true).

Lemma system_no_lost_wakeup_witness :
  k_ready (shared (mtx woken_in_vain)).2 = true \/
  exists i q, threads (mtx woken_in_vain) !! i = Some q /\ active q = true.
Proof.
  apply (system_no_lost_wakeup Eventfd 1 three_loops woken_in_vain 0); [simpl; lia| | |].
  - apply after_reachable. vm_compute. eauto.
  - vm_compute. reflexivity.
  - vm_compute. reflexivity.
Defined.

Lemma system_calls_complete_witness :
  exists x, clients (after (tries ++ [BeginCall 0 0 (asio_act true)])) !! 0%nat = Some x /\
  exists mvs s' x', (length mvs <= 3)%nat /\ Forall (of_call 0) mvs /\
    sys_exec Eventfd 1 mvs (after (tries ++ [BeginCall 0 0 (asio_act true)])) = Some s' /\
    clients s' !! 0%nat = Some x' /\ pending x' = None.
Proof.
  eexists. split; [vm_compute; reflexivity|].
  eapply (system_calls_complete Eventfd 1 three_loops (after (tries ++ [BeginCall 0 0 (asio_act true)])) 0);
    [apply after_reachable; vm_compute; eauto|vm_compute; reflexivity|reflexivity].
Defined.
