(* ===== verification/AsyncTokens.v ===== *)
(** * Asynchronous operations on the semaphore they wait for

    The composition of a semaphore with the operations that acquire it: a semaphore
    whose tokens are the counter of a kernel object, threads that release and
    acquire it, and any number of asynchronous operations on it, on any of the three
    event loops and, for Boost.Asio, on POSIX systems or on Windows, with their
    cancellations.  What the operations do to the semaphore are calls, which are
    read off the steps of the code: [try_acquire()] and [release()], and on Windows
    the kernel's wait.  A call changes the counter as the kernel object does, and
    its result is the counter's. *)
From S2P Require Import Prelude Kernel Machine AsyncOp AsioAcquire DispatchAcquire QtAcquire AsyncLibrary.
#[local] Open Scope Z_scope.

(** The operations of the three semaphore/support/ headers. *)
Inductive semaphore_operation :=
| AsioSemaphore (windows cancellable : bool)
| DispatchSemaphore (cancellable : bool)
| QtSemaphore (cancellable : bool).

Definition asio_flavour (cancellable : bool) : AsioAcquire.flavour := if cancellable then CancellableOp else PlainOp.

Definition op_machine (k : semaphore_operation) : async_machine :=
  match k with
  | AsioSemaphore windows b => asio_machine (asio_flavour b) windows
  | DispatchSemaphore b => machine_of (OnDispatch PSemaphore b)
  | QtSemaphore b => machine_of (OnQt PSemaphore b)
  end.

Inductive op_choice :=
| OnAsioLoop (ch : AsioAcquire.choice)
| OnDispatchQueue (ch : DispatchAcquire.choice)
| OnQtLoop (ch : QtAcquire.choice).

Definition choice_of (k : semaphore_operation) (ch : op_choice) : option (am_choice (op_machine k)) :=
  match k return option (am_choice (op_machine k)) with
  | AsioSemaphore windows b => match ch with OnAsioLoop ch => Some ch | _ => None end
  | DispatchSemaphore b => match ch with OnDispatchQueue ch => Some ch | _ => None end
  | QtSemaphore b => match ch with OnQtLoop ch => Some ch | _ => None end
  end.

(** ** The calls on the semaphore *)

Inductive sem_call :=
| TryToken (b : bool)  (** [try_acquire()], with its result *)
| WaitToken            (** the wait of an [object_handle] completes: the kernel takes the token *)
| GiveToken.           (** [release()] *)

(** The call a thread at [l] makes in a step with the choice [ch]. *)
Definition asio_call (fl : AsioAcquire.flavour) (windows : bool) (ch : AsioAcquire.choice) (l : AsioAcquire.pc) :
    option sem_call :=
  match l, ch with
  | AsioAcquire.TryNow, AsioAcquire.Act b | AsioAcquire.Retry, AsioAcquire.Act b => Some (TryToken b)
  | AsioAcquire.Idle, AsioAcquire.Ready false => if wait_takes fl windows then Some WaitToken else None
  | _, _ => None
  end.

Definition dispatch_call (ch : DispatchAcquire.choice) (l : DispatchAcquire.pc) : option sem_call :=
  match l, ch with
  | DispatchAcquire.TryNow, DispatchAcquire.Act b | DispatchAcquire.Retry, DispatchAcquire.Act b => Some (TryToken b)
  | DispatchAcquire.Undo _, DispatchAcquire.Act _ => Some GiveToken
  | _, _ => None
  end.

Definition qt_call (ch : QtAcquire.choice) (l : QtAcquire.pc) : option sem_call :=
  match l, ch with
  | QtAcquire.TryNow, QtAcquire.Act b | QtAcquire.Retry, QtAcquire.Act b => Some (TryToken b)
  | QtAcquire.Undo _, QtAcquire.Act _ => Some GiveToken
  | _, _ => None
  end.

Definition call_of (k : semaphore_operation) : am_choice (op_machine k) -> am_local (op_machine k) -> option sem_call :=
  match k return am_choice (op_machine k) -> am_local (op_machine k) -> option sem_call with
  | AsioSemaphore windows b => asio_call (asio_flavour b) windows
  | DispatchSemaphore b => dispatch_call
  | QtSemaphore b => qt_call
  end.

(** ** The system *)

(** An operation in the system, with its threads. *)
Record client := AsyncClient {
  kind : semaphore_operation;
  size : nat;
  conf : config (am_state (op_machine kind)) (am_local (op_machine kind))
}.

Definition book_of (x : client) : ledger := am_book (op_machine (kind x)) (shared (conf x)).

(** The semaphore; ghosts: the tokens that threads asked to release and those they
    acquired. *)
Record system (C : Type) := System { sem : C; released : Z; acquired : Z; clients : list client }.
Arguments System {_} _ _ _ _.
Arguments sem {_} _.
Arguments released {_} _.
Arguments acquired {_} _.
Arguments clients {_} _.

(** The step of thread [tid] of an operation and the call it makes. *)
Definition client_step (x : client) (tid : nat) (ch : op_choice) : option (client * option sem_call) :=
  ch ← choice_of (kind x) ch;
  l ← threads (conf x) !! tid;
  c ← cstep (am_step (op_machine (kind x))) tid ch (conf x);
  Some (AsyncClient (kind x) (size x) c, call_of (kind x) ch l).

Inductive move :=
| ThreadReleases (n : Z)                       (** [release( n )] *)
| ThreadAcquires                               (** [acquire()] or [try_acquire()] succeeds *)
| ClientSteps (j tid : nat) (ch : op_choice).

Section system.
Context {C : Type} `{Counter C}.

(** A call on the counter: a try has the result the counter gives it, and the
    kernel's wait completes only with a token. *)
Definition perform_call (m : option sem_call) (k : C) : option C :=
  match m with
  | None => Some k
  | Some (TryToken b) => let '(k', ok) := k_take k in if eqb ok b then Some k' else None
  | Some WaitToken => let '(k', ok) := k_take k in if ok then Some k' else None
  | Some GiveToken => Some (k_post 1 k)
  end.

Definition sys_move (mv : move) (s : system C) : option (system C) :=
  match mv with
  | ThreadReleases n =>
      if 0 <=? n then Some (System (k_post n (sem s)) (released s + n) (acquired s) (clients s)) else None
  | ThreadAcquires =>
      (fun k => System k (released s) (acquired s + 1) (clients s)) <$> perform_call (Some (TryToken true)) (sem s)
  | ClientSteps j tid ch =>
      x ← clients s !! j;
      '(x', m) ← client_step x tid ch;
      (fun k => System k (released s) (acquired s) (<[j := x']> (clients s))) <$> perform_call m (sem s)
  end.

Inductive sys_step : system C -> system C -> Prop :=
| sys_step_intro mv s s' : sys_move mv s = Some s' -> sys_step s s'.

Definition new_client (o : semaphore_operation * nat) : client := AsyncClient o.1 o.2 (am_init (op_machine o.1) o.2).

(** A semaphore with [initial] tokens, and operations with a number of threads each. *)
Definition sys_init (initial : Z) (ops : list (semaphore_operation * nat)) : system C :=
  System (k_create initial) 0 0 (new_client <$> ops).

Definition sys_reachable (initial : Z) (ops : list (semaphore_operation * nat)) (s : system C) : Prop :=
  rtc sys_step (sys_init initial ops) s.

Fixpoint sys_exec (mvs : list move) (s : system C) : option (system C) :=
  match mvs with [] => Some s | mv :: mvs' => s' ← sys_move mv s; sys_exec mvs' s' end.

Lemma tokens_exec_reachable mvs s s' : sys_exec mvs s = Some s' -> rtc sys_step s s'.
Proof.
  revert s; induction mvs as [|mv mvs IH]; simpl; intros s E; [by simplify_eq; left|].
  apply bind_Some in E as (s1 & E1 & E). eapply rtc_l; [by econstructor|]. by apply IH.
Qed.
End system.

(** ** The ledgers follow the calls *)

(** The tokens that a call takes. *)
Definition call_tokens (m : option sem_call) : Z :=
  match m with Some (TryToken b) => Z.b2z b | Some WaitToken => 1 | Some GiveToken => -1 | None => 0 end.

Lemma asio_call_tokens b w i ch s l s' l' :
  AsioAcquire.tstep (asio_flavour b) w i ch s l = Some (s', l') ->
  taken (AsioAcquire.book s') - taken (AsioAcquire.book s) = call_tokens (asio_call (asio_flavour b) w ch l).
Proof.
  intros Hs. destruct b, w; asio_cases Hs; simpl; try lia; repeat case_match; simplify_eq/=; lia.
Qed.

Lemma dispatch_call_tokens b i ch s l s' l' :
  DispatchAcquire.tstep PSemaphore b i ch s l = Some (s', l') ->
  taken (DispatchAcquire.book s') - taken (DispatchAcquire.book s) = call_tokens (dispatch_call ch l).
Proof.
  intros Hs. destruct l, ch; try discriminate Hs; cbn in Hs; step_cases Hs; simpl; try lia;
    unfold DispatchAcquire.destroy, DispatchAcquire.finish, DispatchAcquire.acquired_now, DispatchAcquire.acquired_event, DispatchAcquire.after_acquire,
    DispatchAcquire.release_guard, DispatchAcquire.create, DispatchAcquire.undo, DispatchAcquire.deliver,
    DispatchAcquire.cancel_source, DispatchAcquire.release_source, DispatchAcquire.request_cancellation in *;
    repeat (case_match; simplify_eq/=); lia.
Qed.

Lemma qt_call_tokens b i ch s l s' l' :
  QtAcquire.tstep PSemaphore b i ch s l = Some (s', l') ->
  taken (QtAcquire.book s') - taken (QtAcquire.book s) = call_tokens (qt_call ch l).
Proof.
  intros Hs. destruct l, ch; destruct i as [|i]; try discriminate Hs;
    unfold QtAcquire.tstep, QtAcquire.cancel_step in Hs; simpl in Hs; try discriminate Hs; step_cases Hs; simpl; try lia;
    unfold QtAcquire.acquired_event, QtAcquire.after_acquire, QtAcquire.deliver, QtAcquire.destroy,
      QtAcquire.release_guard, QtAcquire.enable, QtAcquire.undo, QtAcquire.return_handle, QtAcquire.unreferenced in *;
    repeat (case_match; simplify_eq/=); lia.
Qed.

Lemma client_step_inv x tid ch x' m :
  client_step x tid ch = Some (x', m) ->
  exists ch' l s' l', choice_of (kind x) ch = Some ch' /\ threads (conf x) !! tid = Some l /\
    am_step (op_machine (kind x)) tid ch' (shared (conf x)) l = Some (s', l') /\
    x' = AsyncClient (kind x) (size x) (Config s' (<[tid := l']> (threads (conf x)))) /\ m = call_of (kind x) ch' l.
Proof.
  unfold client_step. intros (ch' & Hch & (l & Hl & (c & Hc & E)%bind_Some)%bind_Some)%bind_Some. simplify_eq.
  apply cstep_inv in Hc as (l0 & s' & l' & Hl0 & Hs & ->). rewrite Hl in Hl0. injection Hl0 as <-.
  by exists ch', l, s', l'.
Qed.

Definition tokens_of (x : client) : Z := taken (book_of x).

(** An operation has in its ledger what its calls took and gave. *)
Lemma client_tokens x tid ch x' m :
  client_step x tid ch = Some (x', m) -> tokens_of x' = tokens_of x + call_tokens m.
Proof.
  intros (ch' & l & s' & l' & _ & _ & Hs & -> & ->)%client_step_inv. destruct x as [k n c]. unfold tokens_of, book_of.
  destruct k as [w b|b|b]; simpl in *.
  - pose proof (asio_call_tokens _ _ _ _ _ _ _ _ Hs). lia.
  - pose proof (dispatch_call_tokens _ _ _ _ _ _ _ Hs). lia.
  - pose proof (qt_call_tokens _ _ _ _ _ _ _ Hs). lia.
Qed.

(** Every operation is in a configuration its own machine reaches. *)
Definition client_ok (x : client) : Prop := am_reachable (op_machine (kind x)) (size x) (conf x).

Lemma client_keeps x tid ch x' m : client_ok x -> client_step x tid ch = Some (x', m) -> client_ok x'.
Proof.
  intros Hr (ch' & l & s' & l' & _ & Hl & Hs & -> & _)%client_step_inv. unfold client_ok in *. simpl.
  eapply rtc_r; [exact Hr|]. econstructor. unfold cstep. rewrite Hl. simpl. by rewrite Hs.
Qed.

(** The same choice, with the result [b] of a try. *)
Definition with_result (b : bool) (ch : op_choice) : op_choice :=
  match ch with
  | OnAsioLoop _ => OnAsioLoop (AsioAcquire.Act b)
  | OnDispatchQueue _ => OnDispatchQueue (DispatchAcquire.Act b)
  | OnQtLoop _ => OnQtLoop (QtAcquire.Act b)
  end.

(** An operation that can try takes either result. *)
Lemma client_try x tid ch x' b b' :
  client_step x tid ch = Some (x', Some (TryToken b)) ->
  exists x'', client_step x tid (with_result b' ch) = Some (x'', Some (TryToken b')).
Proof.
  intros (ch' & l & s' & l' & Hch & Hl & Hs & _ & Hm)%client_step_inv. destruct x as [k n [s ls]].
  unfold client_step, cstep. destruct k as [w f|f|f], ch; try discriminate Hch; simpl in *; simplify_eq;
    rewrite Hl; simpl; destruct l, ch'; try discriminate Hm; try (by simpl in Hm; repeat case_match);
    destruct tid, b'; try discriminate Hs; try destruct f; by eexists.
Qed.

(** The operations that finished, with success or not. *)
Definition succeeded (x : client) : bool := bool_decide (delivered (book_of x) = [Acquired]).
Definition finished (x : client) : Prop := exists r, delivered (book_of x) = [r].

(** The operations that may have lost a token: Boost.Asio on Windows, cancelled. *)
Definition may_lose (x : client) : bool :=
  match kind x with
  | AsioSemaphore true true => bool_decide (delivered (book_of x) = [Canceled])
  | _ => false
  end.

Lemma finished_tokens x :
  client_ok x -> finished x -> Z.b2z (succeeded x) <= tokens_of x <= Z.b2z (succeeded x) + Z.b2z (may_lose x).
Proof.
  destruct x as [k n c]. intros Hr [r Hd]. unfold tokens_of, succeeded, may_lose, book_of, client_ok in *. simpl in *.
  assert (bool_decide (delivered (am_book (op_machine k) (shared c)) = [Acquired]) = is_acquired r) as ->
    by (rewrite Hd; by destruct r).
  destruct k as [w b|b|b]; simpl in *.
  - destruct (AsioAcquire.asio_finished _ _ _ _ _ Hr Hd) as (gone & -> & Hb & Hg).
    destruct (decide (gone = 0)) as [->|Hn]; [destruct w, b; simpl; try case_bool_decide; simpl; lia|].
    destruct (Hg Hn) as (Hw & Hf & ->). rewrite Hd. destruct w, b; try done.
  - assert (taken (DispatchAcquire.book (shared c)) = Z.b2z (is_acquired r)) as ->
      by (by apply (dispatch_result PSemaphore b n c)). lia.
  - assert (taken (QtAcquire.book (shared c)) = Z.b2z (is_acquired r)) as ->
      by (by apply (qt_result PSemaphore b n c)). lia.
Qed.

Lemma finished_count l :
  Forall client_ok l -> Forall finished l ->
  count succeeded l <= zsum tokens_of l <= count succeeded l + count may_lose l.
Proof.
  intros Hc Hf. rewrite !count_zsum. induction l as [|x l IH]; [done|].
  apply Forall_cons in Hc as [Hx Hc]. apply Forall_cons in Hf as [Fx Hf]. simpl.
  pose proof (finished_tokens x Hx Fx). specialize (IH Hc Hf). lia.
Qed.

Section proofs.
Context {C : Type} `{Counter C, !CounterLaws C} (initial : Z).
Hypothesis initial_ok : 0 <= initial <= k_max C.

Record Inv (s : system C) : Prop := {
  inv_nonneg : 0 <= k_tokens (sem s);
  inv_released : 0 <= released s;
  inv_acquired : 0 <= acquired s;
  inv_clients : Forall client_ok (clients s);
  inv_some : Forall (fun x => 0 <= tokens_of x) (clients s);
  inv_tokens : k_tokens (sem s) + acquired s + zsum tokens_of (clients s) <= initial + released s;
  inv_exact : initial + released s <= k_max C ->
    k_tokens (sem s) + acquired s + zsum tokens_of (clients s) = initial + released s
}.

(** What a call does to the counter, which has room for the token it gives. *)
Lemma perform_tokens m k k' :
  0 <= k_tokens k -> perform_call m k = Some k' ->
  0 <= k_tokens k' <= k_tokens k - call_tokens m /\
  (k_tokens k - call_tokens m <= k_max C -> k_tokens k' = k_tokens k - call_tokens m).
Proof.
  intros H0 Hp. pose proof (k_take_tokens k H0) as Ht.
  destruct m as [[b| |]|]; simpl in *; [| | |simplify_eq; lia].
  - destruct (k_take k) as [k1 []], b; simplify_eq/=; lia.
  - destruct (k_take k) as [k1 []]; simplify_eq/=; lia.
  - simplify_eq. rewrite k_post_tokens. simpl. destruct (Z.leb_spec (k_tokens k + 1) (k_max C)); lia.
Qed.

(** An operation gives back no token it does not have. *)
Lemma client_nonneg x : client_ok x -> 0 <= tokens_of x.
Proof.
  destruct x as [k n c]. destruct k; intros Hr;
    [exact (asio_nonneg _ _ _ _ Hr)|exact (dispatch_nonneg _ _ _ _ Hr)|exact (qt_nonneg _ _ _ _ Hr)].
Qed.

Lemma move_ok mv s s' : Inv s -> sys_move mv s = Some s' -> Inv s'.
Proof.
  intros [H0 H1 H2 Hc Hp Ht He] Hm.
  assert (0 <= zsum tokens_of (clients s)) as Hz by (by apply zsum_nonneg).
  destruct mv as [n| |j tid ch]; cbn [sys_move] in Hm.
  - destruct (Z.leb_spec 0 n); simplify_eq. pose proof (k_post_bounds n (sem s)).
    split; simpl; try done; try lia. intros Hr. rewrite k_post_room by lia. lia.
  - apply fmap_Some in Hm as (k & Hk & ->). apply perform_tokens in Hk as [Hk1 Hk2]; [|done]. simpl in *.
    split; simpl; (done || lia).
  - apply bind_Some in Hm as (x & Hx & Hm). apply bind_Some in Hm as ([x' m] & Hx' & Hm).
    apply fmap_Some in Hm as (k & Hk & ->). apply perform_tokens in Hk as [Hk1 Hk2]; [|done].
    pose proof (Forall_lookup_1 _ _ _ _ Hc Hx) as Hok. pose proof (client_keeps _ _ _ _ _ Hok Hx') as Hok'.
    pose proof (client_tokens _ _ _ _ _ Hx'). pose proof (client_nonneg _ Hok').
    split; simpl; try done; try lia; [by apply Forall_insert|by apply Forall_insert| |].
    + rewrite (zsum_insert _ _ _ _ _ Hx). lia.
    + assert (tokens_of x' <= zsum tokens_of (<[j:=x']> (clients s))) as Hle.
      { apply (zsum_pos tokens_of _ j); [by apply Forall_insert|]. apply list_lookup_insert_eq. by eapply lookup_lt_Some. }
      rewrite (zsum_insert _ _ _ _ _ Hx) in Hle |- *. intros Hr. specialize (He Hr). rewrite Hk2; lia.
Qed.

Lemma tokens_inv_reachable ops s : sys_reachable initial ops s -> Inv s.
Proof.
  intros Hr. assert (Inv (sys_init initial ops)) as H0.
  { assert (zsum tokens_of (new_client <$> ops) = 0) as Hz.
    { clear. induction ops as [|[k n] ops IH]; [done|]. rewrite fmap_cons. cbn [zsum]. rewrite IH. by destruct k. }
    split; cbn [sys_init sem acquired released clients]; rewrite ?k_create_tokens, ?Hz by done; try lia;
      apply Forall_fmap, Forall_true; intros [k n]; [left|by destruct k]. }
  unfold sys_reachable in Hr. revert H0. induction Hr as [|s s1 s2 [mv sa sb Hm] _ IH]; [done|].
  intros HI. apply IH. by eapply move_ok.
Qed.

(** What the semaphore answers does not hold up an operation. *)
Lemma client_moves s j x tid ch x' m :
  Inv s -> clients s !! j = Some x -> client_step x tid ch = Some (x', m) ->
  is_Some (sys_move (ClientSteps j tid ch) s) \/
  (exists b, m = Some (TryToken b) /\ is_Some (sys_move (ClientSteps j tid (with_result (negb b) ch)) s)) \/
  (m = Some WaitToken /\ k_tokens (sem s) = 0).
Proof.
  intros [H0 _ _ _ _ _ _] Hx Hs. pose proof (k_take_tokens (sem s) H0) as Ht. cbn [sys_move]. rewrite Hx. simpl.
  rewrite Hs. simpl. destruct m as [[b| |]|]; simpl; [| |by left; eexists|by left; eexists].
  - destruct (k_take (sem s)) as [k ok] eqn:Ek. destruct (eqb ok b) eqn:Eb; [left; by eexists|right; left].
    exists b. split; [done|]. destruct (client_try _ _ _ _ _ (negb b) Hs) as [x'' ->]. simpl. rewrite Ek.
    destruct ok, b; try discriminate Eb; by eexists.
  - destruct (k_take (sem s)) as [k []]; [left; by eexists|right; right; by split; [|apply Ht]].
Qed.

End proofs.

(** ** Witnesses *)

Abbreviation asio j tid ch := (ClientSteps j tid (OnAsioLoop ch)).

(** Two operations wait for a token, one on Linux and one on Windows; a thread
    releases two tokens.  The wait on Windows takes one of them, the operation is
    cancelled before its handler looks, and the token is lost; the other operation
    takes the second. *)
Definition two_waiters : list move :=
  [asio 0 0 AsioAcquire.Start; asio 0 0 (AsioAcquire.Act false); asio 0 0 (AsioAcquire.Act false);
   asio 1 0 AsioAcquire.Start; asio 1 0 (AsioAcquire.Act false); asio 1 0 (AsioAcquire.Act false);
   ThreadReleases 2;
   asio 1 0 (AsioAcquire.Ready false);
   asio 1 1 AsioAcquire.Cancel; asio 1 1 (AsioAcquire.Act false); asio 1 1 (AsioAcquire.Act false);
   asio 1 0 AsioAcquire.RunHandler; asio 1 0 (AsioAcquire.Act false); asio 1 0 (AsioAcquire.Act false);
   asio 1 0 (AsioAcquire.Act false);
   asio 0 0 (AsioAcquire.Ready false); asio 0 0 AsioAcquire.RunHandler; asio 0 0 (AsioAcquire.Act false);
   asio 0 0 (AsioAcquire.Act true); asio 0 0 (AsioAcquire.Act false)].

Definition two_operations : list (semaphore_operation * nat) :=
  [(AsioSemaphore false false, 1%nat); (AsioSemaphore true true, 2%nat)].

Definition two_waiters_end : system Z :=
  default (System 0 0 0 []) (sys_exec two_waiters (sys_init 0 two_operations)).

