(* ===== verification/AsyncHandle.v ===== *)
(** * The handles of the asynchronous operations

    [boost_asio_acquire_handle], [boost_asio_semaphore_acquire_handle],
    [boost_asio_event_wait_handle], [dispatch_acquire_handle] and its counterparts,
    [qt_acquire_handle] and its counterparts: an object that refers to an operation,
    moves, and cancels the operation when it is destroyed.  A program is any
    sequence of operations on handles in slots; the model records the calls of
    [cancel()] that reach an operation.  What cancelling does to an operation is in
    [AsioAcquire.v], [DispatchAcquire.v] and [QtAcquire.v]. *)
From S2P Require Import Prelude.
#[local] Open Scope Z_scope.

(** The classes differ in the move assignment and in whether [cancel()] keeps
    the operation. *)
Inductive handle_class :=
| BoostAsioAcquire    (** [boost_asio_acquire_handle]: cancels, then moves *)
| BoostAsioDefault    (** semaphores and events: the defaulted move assignment *)
| Dispatch            (** checks for self moves; [cancel()] keeps [state_] *)
| Qt.                 (** checks for self moves *)

(** Slots with handles, [None] after the destructor; a handle refers to an
    operation or to none.  The operations made so far are numbered from 0. *)
Record world := World {
  handles : list (option (option nat));
  made : nat;
  cancelled : list nat
}.

Definition op_ (i : nat) (w : world) : option nat := mjoin (mjoin (handles w !! i)).
Definition alive (i : nat) (w : world) : bool := match handles w !! i with Some (Some _) => true | _ => false end.

Definition set_handle (i : nat) (h : option nat) (w : world) : world :=
  World (<[i := Some h]> (handles w)) (made w) (cancelled w).

Section handle.
Context (k : handle_class).

Definition resets : bool := match k with Dispatch => false | _ => true end.

(** [cancel()]. *)
Definition cancel (i : nat) (w : world) : world :=
  match op_ i w with
  | Some o =>
      World (if resets then <[i := Some None]> (handles w) else handles w) (made w) (cancelled w ++ [o])
  | None => w
  end.

(** The destructor. *)
Definition destroy (i : nat) (w : world) : world :=
  let w' := cancel i w in World (<[i := None]> (handles w')) (made w') (cancelled w').

(** The default constructor. *)
Definition default_ctor (w : world) : world := World (handles w ++ [Some None]) (made w) (cancelled w).

(** [async_acquire_cancellable]: a handle of a new operation; on Boost.Asio of none
    when the first attempt succeeded, elsewhere also then. *)
Definition acquire (immediately : bool) (w : world) : world :=
  if immediately && match k with BoostAsioAcquire | BoostAsioDefault => true | _ => false end then default_ctor w
  else World (handles w ++ [Some (Some (made w))]) (S (made w)) (cancelled w).

(** [operator bool] of the handles that have one. *)
Definition to_bool (i : nat) (w : world) : bool := match op_ i w with Some _ => true | None => false end.

(** The move constructor. *)
Definition move_ctor (src : nat) (w : world) : world :=
  let w' := set_handle src None w in World (handles w' ++ [Some (op_ src w)]) (made w') (cancelled w').

(** [op_ = std::move( other.op_ )]; a self move of a [std::shared_ptr] keeps it. *)
Definition move_op (dst src : nat) (w : world) : world :=
  set_handle dst (op_ src w) (set_handle src None w).

(** The move assignment. *)
Definition move_assign (dst src : nat) (w : world) : world :=
  match k with
  | BoostAsioAcquire => move_op dst src (cancel dst w)
  | BoostAsioDefault => move_op dst src w
  | Dispatch | Qt => if Nat.eqb dst src then w else move_op dst src (cancel dst w)
  end.

Inductive operation :=
| DefaultCtor
| Acquire (immediately : bool)
| MoveCtor (src : nat)
| MoveAssign (dst src : nat)
| CancelHandle (i : nat)
| Destructor (i : nat).

Definition operate (o : operation) (w : world) : option world :=
  match o with
  | DefaultCtor => Some (default_ctor w)
  | Acquire b => Some (acquire b w)
  | MoveCtor src => if alive src w then Some (move_ctor src w) else None
  | MoveAssign dst src => if alive dst w && alive src w then Some (move_assign dst src w) else None
  | CancelHandle i => if alive i w then Some (cancel i w) else None
  | Destructor i => if alive i w then Some (destroy i w) else None
  end.

Fixpoint run (os : list operation) (w : world) : option world :=
  match os with [] => Some w | o :: os' => w' ← operate o w; run os' w' end.
End handle.

Definition start : world := World [] 0 [].

(** The classes of the source. *)
Definition boost_asio_acquire_handle := operate BoostAsioAcquire.
Definition boost_asio_semaphore_acquire_handle := operate BoostAsioDefault.
Definition boost_asio_event_wait_handle := operate BoostAsioDefault.
Definition dispatch_acquire_handle := operate Dispatch.
Definition dispatch_semaphore_acquire_handle := operate Dispatch.
Definition dispatch_event_wait_handle := operate Dispatch.
Definition qt_acquire_handle := operate Qt.
Definition qt_semaphore_acquire_handle := operate Qt.
Definition qt_event_wait_handle := operate Qt.

(** ** The invariant *)

Definition refers (o : nat) (h : option (option nat)) : bool := bool_decide (h = Some (Some o)).

(** At most one handle refers to an operation; an operation without a handle was
    cancelled or, where the move assignment does not cancel, dropped. *)
Definition owned (k : handle_class) (w : world) : Prop :=
  forall o,
    count (refers o) (handles w) <= 1 /\ (count (refers o) (handles w) = 1 -> (o < made w)%nat) /\
    (k <> BoostAsioDefault -> (o < made w)%nat -> count (refers o) (handles w) = 1 \/ o ∈ cancelled w).

(** ** Preservation *)

Lemma alive_lookup i w : alive i w = true -> handles w !! i = Some (Some (op_ i w)).
Proof. unfold alive, op_. destruct (handles w !! i) as [[h|]|]; by simpl. Qed.

Lemma lookup_refers i w o : handles w !! i = Some (Some (Some o)) -> refers o (Some (op_ i w)) = true.
Proof. intros Hi. unfold op_, refers. rewrite Hi. by apply bool_decide_true. Qed.

Lemma refers_op i w o : refers o (Some (op_ i w)) = true -> op_ i w = Some o.
Proof. intros [= ->]%bool_decide_eq_true. done. Qed.

Lemma refers_none o : refers o None = false /\ refers o (Some None) = false.
Proof. split; by apply bool_decide_false. Qed.

(** An operation that loses a handle must have been cancelled. *)
Lemma owned_update k w w' :
  owned k w -> made w' = made w -> cancelled w ⊆ cancelled w' ->
  (forall o, count (refers o) (handles w') <= count (refers o) (handles w) /\
     (k <> BoostAsioDefault -> count (refers o) (handles w') < count (refers o) (handles w) -> o ∈ cancelled w')) ->
  owned k w'.
Proof.
  intros Hw Hm Hc Hn o. destruct (Hw o) as (H1 & H2 & H3). destruct (Hn o) as [Hle Hlt]. rewrite Hm.
  pose proof (count_bounds (refers o) (handles w')). split_and!; [lia|intros ?; apply H2; lia|].
  intros Hk Ho. destruct (decide (count (refers o) (handles w') = 1)) as [->|]; [by left|right].
  destruct (H3 Hk Ho); [apply Hlt; [done|lia]|by apply Hc].
Qed.

(** The handle in slot [i] is emptied or destroyed. *)
Lemma count_drop i w o h :
  alive i w = true -> refers o h = false ->
  count (refers o) (<[i := h]> (handles w)) = count (refers o) (handles w) - Z.b2z (refers o (Some (op_ i w))).
Proof. intros Hi%alive_lookup Hh. rewrite (count_insert _ _ _ _ _ Hi), Hh. simpl. lia. Qed.

Lemma owned_drop k w i h :
  owned k w -> alive i w = true -> (forall o, refers o h = false) ->
  (k <> BoostAsioDefault -> forall o, op_ i w = Some o -> o ∈ cancelled w) ->
  owned k (World (<[i := h]> (handles w)) (made w) (cancelled w)).
Proof.
  intros Hw Hi Hh Hc. apply (owned_update k w); [done..|]. intros o; simpl. rewrite (count_drop _ _ _ _ Hi (Hh o)).
  destruct (refers o _) eqn:E; simpl; (split; [lia|intros Hk Hlt]); [by apply (Hc Hk), refers_op|lia].
Qed.

Lemma cancel_owned k i w : owned k w -> alive i w = true -> owned k (cancel k i w).
Proof.
  intros Hw Hi. unfold cancel. destruct (op_ i w) as [x|] eqn:E; [|done].
  assert (owned k (World (handles w) (made w) (cancelled w ++ [x]))) as Hx
    by (apply (owned_update k w); [done..|set_solver|intros; split; simpl; lia]).
  destruct (resets k); [|done].
  apply (owned_drop k (World (handles w) (made w) (cancelled w ++ [x]))); [done..|apply refers_none|].
  intros _ o Ho. change (op_ i w = Some o) in Ho. rewrite E in Ho. injection Ho as <-. simpl. set_solver.
Qed.

(** What [cancel()] leaves in the slot. *)
Lemma cancel_alive k i j w : alive j w = true -> alive j (cancel k i w) = true.
Proof.
  intros Hj%alive_lookup. unfold cancel. destruct (op_ i w); [|by unfold alive; rewrite Hj].
  unfold alive; simpl. destruct (resets k); [|by rewrite Hj]. destruct (decide (i = j)) as [->|].
  - rewrite list_lookup_insert_eq; [done|by eapply lookup_lt_Some].
  - rewrite list_lookup_insert_ne by done. by rewrite Hj.
Qed.

Lemma cancel_op k i w o : alive i w = true -> op_ i (cancel k i w) = Some o -> o ∈ cancelled (cancel k i w).
Proof.
  intros Hi%alive_lookup. unfold cancel. destruct (op_ i w) as [x|] eqn:E; [|by rewrite E]. simpl.
  unfold op_ at 1; simpl. destruct (resets k).
  - rewrite list_lookup_insert_eq; [done|by eapply lookup_lt_Some].
  - unfold op_ in E. rewrite E. intros [= ->]. set_solver.
Qed.

Lemma destroy_owned k i w : owned k w -> alive i w = true -> owned k (destroy k i w).
Proof.
  intros Hw Hi. unfold destroy. apply owned_drop; [by apply cancel_owned|by apply cancel_alive|apply refers_none|].
  intros _ o. by apply cancel_op.
Qed.

Lemma default_ctor_owned k w : owned k w -> owned k (default_ctor w).
Proof.
  intros Hw. apply (owned_update k w); [done..|]. intros o. simpl.
  rewrite count_app, count_one, (proj2 (refers_none o)). simpl. split; lia.
Qed.

Lemma acquire_owned k b w : owned k w -> owned k (acquire k b w).
Proof.
  intros Hw. unfold acquire. destruct (b && _); [by apply default_ctor_owned|].
  intros o. destruct (Hw o) as (H1 & H2 & H3). simpl. rewrite count_app, count_one.
  pose proof (count_bounds (refers o) (handles w)). destruct (decide (o = made w)) as [->|Hne].
  - assert (refers (made w) (Some (Some (made w))) = true) as -> by (by apply bool_decide_true). simpl.
    assert (count (refers (made w)) (handles w) <> 1) by (intros Hn; specialize (H2 Hn); lia).
    split_and!; [lia|lia|intros _ _; left; lia].
  - assert (refers o (Some (Some (made w))) = false) as -> by (apply bool_decide_false; congruence).
    simpl. rewrite Z.add_0_r.
    split_and!; [done|intros Hn; specialize (H2 Hn); lia|intros Hk Ho; apply H3; [done|lia]].
Qed.

(** The source of a move gives its operation away. *)
Lemma count_give src w o :
  alive src w = true ->
  count (refers o) (handles (set_handle src None w)) + Z.b2z (refers o (Some (op_ src w))) =
  count (refers o) (handles w).
Proof. intros Hs. simpl. rewrite (count_drop _ _ _ _ Hs) by apply refers_none. lia. Qed.

Lemma move_ctor_owned k src w : owned k w -> alive src w = true -> owned k (move_ctor src w).
Proof.
  intros Hw Hs. apply (owned_update k w); [done..|]. intros o.
  pose proof (count_give src w o Hs) as Hg. simpl in *. rewrite count_app, count_one. split; [lia|lia].
Qed.

Lemma move_op_owned k dst src w :
  owned k w -> alive dst w = true -> alive src w = true ->
  (k <> BoostAsioDefault -> forall o, op_ dst w = Some o -> o ∈ cancelled w) ->
  owned k (move_op dst src w).
Proof.
  intros Hw Hd Hs Hc. apply (owned_update k w); [done..|]. intros o.
  pose proof (count_give src w o Hs) as Hg. unfold move_op. apply alive_lookup in Hd as Hd'.
  assert (exists h, handles (set_handle src None w) !! dst = Some (Some h) /\ (h = None \/ h = op_ dst w))
    as (h & Hh & Hor).
  { simpl. destruct (decide (src = dst)) as [->|].
    - rewrite list_lookup_insert_eq by (by eapply lookup_lt_Some). eauto.
    - rewrite list_lookup_insert_ne by done. eauto. }
  change (handles (set_handle dst (op_ src w) (set_handle src None w)))
    with (<[dst := Some (op_ src w)]> (handles (set_handle src None w))).
  rewrite (count_insert _ _ _ _ _ Hh). destruct Hor as [-> | ->].
  - rewrite (proj2 (refers_none o)). simpl in *. split; lia.
  - destruct (refers o (Some (op_ dst w))) eqn:E; simpl in *; (split; [lia|]); [|lia].
    intros Hk _. by apply (Hc Hk), refers_op.
Qed.

Lemma operate_owned k op w w' : owned k w -> operate k op w = Some w' -> owned k w'.
Proof.
  intros Hw. destruct op as [|b|src|dst src|i|i]; simpl.
  - intros [= <-]. by apply default_ctor_owned.
  - intros [= <-]. by apply acquire_owned.
  - destruct (alive src w) eqn:Hs; [|done]. intros [= <-]. by apply move_ctor_owned.
  - destruct (alive dst w) eqn:Hd; [|done]. destruct (alive src w) eqn:Hs; [|done]. intros [= <-].
    assert (owned k (move_op dst src (cancel k dst w))) as Hcm.
    { apply move_op_owned; [by apply cancel_owned|by apply cancel_alive..|]. intros _ o. by apply cancel_op. }
    unfold move_assign. destruct k; [done|by apply move_op_owned|by destruct (dst =? src)%nat..].
  - destruct (alive i w) eqn:Hi; [|done]. intros [= <-]. by apply cancel_owned.
  - destruct (alive i w) eqn:Hi; [|done]. intros [= <-]. by apply destroy_owned.
Qed.

Lemma run_owned k ops w w' : owned k w -> run k ops w = Some w' -> owned k w'.
Proof.
  revert w. induction ops as [|op ops IH]; simpl; intros w Hw; [by intros [= <-]|].
  intros (w1 & H1 & H2)%bind_Some. eapply IH; [by eapply operate_owned|done].
Qed.

Lemma start_owned k : owned k start.
Proof. intros o. simpl. split_and!; lia. Qed.

(** ** Theorems *)

(** C21: an operation is never out of reach while nobody has cancelled it: with the
    handles that cancel on move assignment, each operation is held by exactly one
    handle or has been cancelled, and when the handles are destroyed every
    operation has been cancelled; in all classes two handles never share one. *)
Theorem handles_cancel k ops w :
  run k ops start = Some w ->
  (forall i j o, op_ i w = Some o -> op_ j w = Some o -> i = j) /\
  (k <> BoostAsioDefault ->
   (forall o, (o < made w)%nat -> (exists i, op_ i w = Some o) \/ o ∈ cancelled w) /\
   (Forall (eq None) (handles w) -> forall o, (o < made w)%nat -> o ∈ cancelled w)).
Proof.
  intros Hr. pose proof (run_owned _ _ _ _ (start_owned k) Hr) as Hw.
  assert (k <> BoostAsioDefault -> forall o, (o < made w)%nat -> (exists i, op_ i w = Some o) \/ o ∈ cancelled w)
    as Hheld.
  { intros Hk o Ho. destruct (Hw o) as (_ & _ & H3). destruct (H3 Hk Ho) as [Hc|]; [left|by right].
    destruct (count_witness (refers o) (handles w)) as (i & h & Hi & Hh%bool_decide_eq_true); [lia|].
    exists i. unfold op_. by rewrite Hi, Hh. }
  split; [|intros Hk; split; [by apply Hheld|]].
  - intros i j o Hi Hj. destruct (Hw o) as (H1 & _ & _).
    assert (forall i, op_ i w = Some o -> handles w !! i = Some (Some (Some o))) as Hl.
    { intros i'. unfold op_. by destruct (handles w !! i') as [[[x|]|]|]; simpl; intros [= ->]. }
    apply (count_unique (refers o) (handles w) i j _ _ H1 (Hl i Hi) (Hl j Hj)); by apply bool_decide_true.
  - intros Hn o Ho. destruct (Hheld Hk o Ho) as [[i Hi]|]; [|done]. unfold op_ in Hi.
    destruct (handles w !! i) as [h|] eqn:E; [|done]. rewrite Forall_forall in Hn.
    by rewrite <- (Hn h (list_elem_of_lookup_2 _ _ _ E)) in Hi.
Qed.

(** The handles of the Boost.Asio semaphore and event operations have the
    defaulted move assignment: a handle that is assigned to gives up its operation
    without cancelling it, and once all handles are destroyed the operation goes on. *)
Theorem defaulted_move_drops_operation :
  exists w, run BoostAsioDefault [Acquire false; Acquire false; MoveAssign 0 1; Destructor 0; Destructor 1] start
              = Some w /\
    made w = 2%nat /\ Forall (eq None) (handles w) /\ cancelled w = [1%nat].
Proof. eexists. split; [by vm_compute|]. by repeat constructor. Qed.

(** ** Witnesses *)

(** One operation is replaced by a move, the other destroyed with its handle. *)
Definition demo_ops : list operation :=
  [Acquire false; Acquire false; MoveAssign 0 1; Acquire true; MoveAssign 2 0; Destructor 0; Destructor 1; Destructor 2].

Lemma handles_cancel_witness :
  0%nat ∈ cancelled (default start (run BoostAsioAcquire demo_ops start)) /\
  1%nat ∈ cancelled (default start (run BoostAsioAcquire demo_ops start)).
Proof.
  assert (run BoostAsioAcquire demo_ops start = Some (default start (run BoostAsioAcquire demo_ops start))) as Hr
    by (by vm_compute).
  destruct (proj2 (handles_cancel _ _ _ Hr) ltac:(done)) as [_ H].
  split; (apply H; [vm_compute; by repeat constructor|vm_compute; lia]).
Defined.
