(* ===== verification/MutexLibrary.v ===== *)
(** * The mutexes of nova_sync keep the promise

    The mutexes of the library as instances of [MutexSpec]: parking_mutex.hpp,
    ticket_mutex.hpp, spinlock_mutex.hpp (plain, recursive, and the exclusive side of
    the shared one), both families of eventfd_mutex.hpp, the fast one of
    kqueue_mutex.hpp, win32_mutex.hpp and win32_event_mutex.hpp, and those behind
    [SystemLock.v] whose blocking call reports no error: win32_srw_mutex,
    win32_critical_section_mutex and apple_os_unfair_mutex.  What [MutexSpec.v] proves
    of a mutex with the promise then holds of each.  The others do not keep it:
    [lock()] of kqueue_mutex.hpp's [kqueue_mutex] returns when a signal interrupts
    it, and those of the POSIX wrappers when the system refuses
    ([NativeSemaphore.KqueueMutex.kqueue_mutex_lock_interrupted],
    [SystemLock.system_lock_error_breaks_exclusion]). *)
From S2P Require Import Prelude Kernel Machine MutexSpec Futex Backoff.
From S2P Require Import ParkingMutex TicketMutex Spinlock AsyncMutex NativeSemaphore Win32Mutex SystemLock.
#[local] Open Scope Z_scope.

Inductive library_mutex :=
| Parking (p : ParkingMutex.policies)
| Ticket (use_backoff : bool)
| Spinning (has_backoff : bool)
| RecursiveSpinning (has_backoff : bool)
| WriterSpinning (has_backoff : bool)  (** the exclusive lock of [spinlock_mutex<shared>] *)
| Fast (p : AsyncMutex.platform)       (** the native-handle mutexes [with_backoff] *)
| PlainEventfd
| PlainKqueue
| Win32 (has_event : bool)             (** [win32_mutex], [win32_event_mutex] *)
| System (w : SystemLock.wrapper).     (** a lock of the system, [win32_srw_mutex] and others *)

Section library.
Context {K C L : Type} `{Notifier K, !NotifierLaws K} `{Counter C, !CounterLaws C}.
Context (lk : bool -> SystemLock.convention -> SystemLock.KernelLock L)
  `{!forall r v, @SystemLock.KernelLockLaws L (lk r v) r v, !forall r, @SystemLock.Infallible L (lk r SystemLock.TruthValue)}.

(** Inside the recursive spinlock, as a boolean. *)
Definition recursive_owns (l : Spinlock.Recursive.local) : bool :=
  (0 <? Spinlock.Recursive.depth l) ||
  match Spinlock.Recursive.at_ l with Spinlock.Recursive.SetOne => true | _ => false end.

Definition mutex_of (k : library_mutex) : mutex :=
  match k with
  | Parking p => Mutex _ _ _ (ParkingMutex.tstep p) ParkingMutex.init ParkingMutex.holds
      (fun n => Z.of_nat n < 2 ^ 31 - 2) always
  | Ticket ub => Mutex _ _ _ (TicketMutex.tstep ub) TicketMutex.init TicketMutex.holds
      (fun n => Z.of_nat n < 2 ^ 32) TicketMutex.timely
  | Spinning hb => Mutex _ _ _ (Spinlock.Plain.tstep hb) Spinlock.Plain.init Spinlock.Plain.holds
      (fun _ => True) always
  | RecursiveSpinning hb => Mutex _ _ _ (Spinlock.Recursive.tstep hb) Spinlock.Recursive.init recursive_owns
      (fun _ => True) (fun _ => Spinlock.Recursive.bounded)
  | WriterSpinning hb => Mutex _ _ _ (Spinlock.Shared.tstep hb) Spinlock.Shared.init Spinlock.Shared.writes
      (fun n => Z.of_nat n < 2 ^ 30 - 1) always
  | Fast p => Mutex _ _ _ (AsyncMutex.tstep (K := K) p) AsyncMutex.init AsyncMutex.holds
      (fun n => Z.of_nat n < 2 ^ 31 - 2) always
  | PlainEventfd => Mutex _ _ _ (NativeSemaphore.EventfdMutex.tstep (K := C))
      NativeSemaphore.EventfdMutex.init NativeSemaphore.EventfdMutex.holds (fun _ => True) always
  | PlainKqueue => Mutex _ _ _ (NativeSemaphore.KqueueMutex.tstep (H := kqueue_event))
      (NativeSemaphore.KqueueMutex.init (H := kqueue_event)) NativeSemaphore.KqueueMutex.holds
      (fun _ => True) always
  | Win32 he => Mutex _ _ _ (Win32Mutex.tstep (K := C) (E := K) he) Win32Mutex.init Win32Mutex.holds
      (fun n => Z.of_nat n < 2 ^ 31) always
  | System w => let l := lk (SystemLock.is_recursive w) (SystemLock.system_of w) in
      Mutex _ _ _ (SystemLock.tstep (H := l) w) (SystemLock.init (H := l)) SystemLock.owns (fun _ => True) always
  end.

(** The mutexes whose [lock()] returns only with the lock. *)
Definition keeps_promise (k : library_mutex) : bool :=
  match k with
  | PlainKqueue => false
  | System w => match SystemLock.system_of w with SystemLock.TruthValue => true | SystemLock.ErrorNumber => false end
  | _ => true
  end.

Lemma recursive_owns_owns l : recursive_owns l = true -> Spinlock.Recursive.owns l.
Proof.
  unfold recursive_owns, Spinlock.Recursive.owns. intros [Hd|Ha]%orb_true_iff.
  - left. by apply Z.ltb_lt.
  - right. by destruct (Spinlock.Recursive.at_ l).
Qed.

Lemma library_spec (k : library_mutex) : keeps_promise k = true -> MutexSpec (mutex_of k).
Proof.
  intros Hk. split.
  - intros n. destruct k; apply length_replicate.
  - intros n. destruct k; by apply count_replicate.
  - intros n c Hn Hr. unfold mx_reachable in Hr.
    destruct k as [p|ub|hb|hb|hb|p| | |he|w]; try discriminate Hk; cbn in c, Hn, Hr |- *; try apply reachable_while_reachable in Hr as Hr'.
    + by destruct (ParkingMutex.parking_inv_reachable p n c Hn Hr').
    + destruct (TicketMutex.ticket_inv_reachable ub n c Hn Hr) as [HC _ _].
      by apply (TicketMutex.core_excl n c HC).
    + pose proof (Spinlock.Plain.spin_inv_reachable hb n c Hr') as HI. unfold Spinlock.Plain.Inv in HI.
      destruct (shared c) in HI; simpl in HI; lia.
    + apply Spinlock.Recursive.rec_inv_reachable in Hr as [HI _]. apply count_at_most_one.
      intros i j x y Hi Hj Hx%recursive_owns_owns Hy%recursive_owns_owns.
      apply (HI i x Hi) in Hx. apply (HI j y Hj) in Hy. congruence.
    + destruct (Spinlock.Shared.shared_inv_reachable hb n c Hn Hr') as [_ _ (w & ? & _ & Hw & _)].
      rewrite Hw. destruct w; simpl; lia.
    + destruct (AsyncMutex.inv_holds _ _ (AsyncMutex.async_inv_reachable p n c Hn Hr')); lia.
    + destruct (NativeSemaphore.EventfdMutex.eventfd_inv_reachable n c Hr'). lia.
    + destruct (Win32Mutex.inv_tokens _ _ _ (Win32Mutex.win32_inv_reachable he n c Hn Hr')). lia.
    + assert (@SystemLock.Infallible L (lk (SystemLock.is_recursive w) (SystemLock.system_of w))) as Hf
        by (revert Hk; simpl; destruct (SystemLock.system_of w); done).
      refine (SystemLock.owns_exclusive (H := lk _ _) w c (SystemLock.lock_inv_reachable (H := lk _ _) w n c Hr')).
Qed.

(** ** Theorems *)

(** C2: critical sections on plain data are atomic.  With a [parking_mutex],
    [ticket_mutex], [spinlock_mutex] (plain, recursive, or the exclusive lock of the
    shared one), [eventfd_mutex] (both families), [kqueue_mutex<with_backoff>],
    [win32_mutex], [win32_event_mutex], [win32_srw_mutex],
    [win32_critical_section_mutex] or [apple_os_unfair_mutex] around them, critical
    sections that read the data in one step and store an updated value in a later
    one are atomic under every schedule of any number of threads that fits the words
    of the mutex ([2^31 - 3] for the parking and the fast native mutexes,
    [2^32 - 1] for the ticket mutex, [2^30 - 2] for the shared spinlock, [2^31 - 1]
    for the Windows ones): the data is the initial value with the stored updates
    applied in the order of the stores, no update lost; and whoever is between its
    read and its store has read the current value and is the only one there.  It is
    assumed that no [try_lock()] of a ticket mutex is preempted while nearly
    [2^32] critical sections go by, and that no thread locks a recursive spinlock
    [2^64 - 1] times. *)
Theorem library_critical_sections_atomic (k : library_mutex) {T : Type} (v : T) n c :
  keeps_promise k = true -> mx_fits (mutex_of k) n -> program_reachable (mutex_of k) v n c ->
  data (shared c) = update_all (updates (shared c)) v /\
  (forall i l y f, threads c !! i = Some l -> section l = Some (y, f) ->
     y = data (shared c) /\
     forall j l', threads c !! j = Some l' -> section l' <> None -> j = i).
Proof.
  intros Hk Hn Hr. pose proof (library_spec k Hk) as Hs.
  destruct (critical_sections _ v n c Hn Hr) as (Hm & Hd & Hall). split; [done|].
  intros i l y f Hi Hl. split; [|intros j l' Hj Hl'].
  - apply (Forall_lookup_1 _ _ _ _ Hall) in Hi. unfold section_ok in Hi. rewrite Hl in Hi. apply Hi.
  - symmetry. apply (sections_exclusive (mutex_of k) v n c i j l l'); try done. congruence.
Qed.
End library.

(** ** Witnesses *)

Definition demo_mutex : mutex := mutex_of (K := nat) (C := Z) SystemLock.owned_lock (Parking (ParkingMutex.Policies false false)).

Abbreviation call m := (Call m : mx_choice demo_mutex).
Abbreviation act := (Act (M := Futex.mutex_method) false : mx_choice demo_mutex).

(** Thread 0 locks, adds one, unlocks; then thread 1 locks and reads. *)
Definition demo_program : list (nat * program_choice demo_mutex (T := Z)) :=
  [(0%nat, OfMutex (call Futex.MLock)); (0%nat, OfMutex act); (0%nat, Read (Z.add 1)); (0%nat, Write);
   (0%nat, OfMutex (call Futex.MUnlock)); (0%nat, OfMutex act);
   (1%nat, OfMutex (call Futex.MLock)); (1%nat, OfMutex act); (1%nat, Read (Z.mul 5))].

Definition demo_after : config (protected demo_mutex (T := Z)) (program demo_mutex (T := Z)) :=
  default (program_init demo_mutex 7 2) (exec (program_step demo_mutex) demo_program (program_init demo_mutex 7 2)).

Lemma demo_after_reachable : program_reachable demo_mutex 7 2 demo_after.
Proof.
  apply (exec_while_reachable _ _ (fun _ => true) demo_program); [done|]. reflexivity.
Qed.

Lemma library_critical_sections_atomic_witness :
  data (shared demo_after) = 8 /\ data (shared demo_after) = update_all [Z.add 1] 7.
Proof.
  split; [reflexivity|].
  apply (library_critical_sections_atomic (K := nat) (C := Z) SystemLock.owned_lock (Parking (ParkingMutex.Policies false false)) 7 2 demo_after);
    [done|by vm_compute|apply demo_after_reachable].
Defined.
