(* ===== verification/Policies.v ===== *)
(** * Policies, concepts and aliases

    What the library decides when it is compiled: mutex/policies.hpp, the templates
    that choose a class by their policies (parking_mutex.hpp, ticket_mutex.hpp,
    spinlock_mutex.hpp, eventfd_mutex.hpp, kqueue_mutex.hpp), the concepts of
    mutex/, semaphore/ and event/ (concepts.hpp), and the aliases of
    native_async_mutex.hpp and native_async_semaphore.hpp with their
    [static_assert]s.  [nova::parameter] is not code of the library: it is a class. *)
From S2P Require Import Prelude Kernel Machine MutexSpec Futex ParkingMutex AsyncMutex NativeSemaphore Win32Mutex SystemLock MutexLibrary.

(** The tags of [detail]. *)
Inductive tag :=
| exponential_backoff_tag | recursive_tag | timed_tag | async_capable_tag | shared_tag | fair_tag.

#[export] Instance tag_eq_dec : EqDecision tag.
Proof. solve_decision. Defined.

(** [nova::parameter] for policies that are flags. *)
Class ParameterLibrary (P : Type) := {
  flag_param : tag -> P;
  has_parameter : tag -> list P -> bool;
  valid_parameters : list tag -> list P -> bool
}.

(** A pack has a parameter if the flag is in it, and is valid only if every flag in it
    is allowed. *)
Class ParameterLaws (P : Type) `{ParameterLibrary P} := {
  has_parameter_law t ps : has_parameter t ps = true <-> flag_param t ∈ ps;
  valid_parameters_law allowed ps t : valid_parameters allowed ps = true -> flag_param t ∈ ps -> t ∈ allowed
}.

Section policies.
Context {P : Type} `{ParameterLibrary P}.
Implicit Types ps : list P.

Definition with_backoff : P := flag_param exponential_backoff_tag.
Definition timed : P := flag_param timed_tag.
Definition recursive : P := flag_param recursive_tag.
Definition async_capable : P := flag_param async_capable_tag.
Definition shared : P := flag_param shared_tag.
Definition fair : P := flag_param fair_tag.

Definition backoff_allowed_tags : list tag := [exponential_backoff_tag].
Definition spinlock_allowed_tags : list tag := [exponential_backoff_tag; recursive_tag; shared_tag].

Definition has_backoff_v ps : bool := has_parameter exponential_backoff_tag ps.
Definition has_timed_v ps : bool := has_parameter timed_tag ps.
Definition has_recursive_v ps : bool := has_parameter recursive_tag ps.
Definition has_shared_v ps : bool := has_parameter shared_tag ps.

(** The templates; [None] where the constraint rejects the policies. *)
Definition parking_mutex ps : option library_mutex :=
  if valid_parameters [exponential_backoff_tag; timed_tag] ps
  then Some (if has_timed_v ps
             then if has_backoff_v ps then Parking (Policies true true) else Parking (Policies false true)
             else if has_backoff_v ps then Parking (Policies true false) else Parking (Policies false false))
  else None.

Definition ticket_mutex ps : option library_mutex :=
  if valid_parameters backoff_allowed_tags ps then Some (Ticket (has_backoff_v ps)) else None.

Definition spinlock_mutex ps : option library_mutex :=
  if valid_parameters spinlock_allowed_tags ps && negb (has_recursive_v ps && has_shared_v ps)
  then Some (if has_recursive_v ps then RecursiveSpinning (has_backoff_v ps)
             else if has_shared_v ps then WriterSpinning (has_backoff_v ps)
             else Spinning (has_backoff_v ps))
  else None.

Definition recursive_spinlock_mutex ps : option library_mutex := spinlock_mutex (recursive :: ps).
Definition shared_spinlock_mutex ps : option library_mutex := spinlock_mutex (shared :: ps).

Definition eventfd_mutex ps : option library_mutex :=
  if valid_parameters backoff_allowed_tags ps
  then Some (if has_backoff_v ps then Fast AsyncMutex.Eventfd else PlainEventfd) else None.

Definition kqueue_mutex ps : option library_mutex :=
  if valid_parameters backoff_allowed_tags ps
  then Some (if has_backoff_v ps then Fast AsyncMutex.Kqueue else PlainKqueue) else None.
End policies.

(** ** Members and concepts *)

Inductive member :=
| lock | unlock | try_lock | try_lock_for | try_lock_until
| lock_shared | unlock_shared | try_lock_shared | try_lock_shared_for | try_lock_shared_until
| native_handle | add_async_waiter | remove_async_waiter | consume_lock.

#[export] Instance member_eq_dec : EqDecision member.
Proof. solve_decision. Defined.

Definition basic_members : list member := [lock; unlock; try_lock].
Definition timed_members : list member := [try_lock_for; try_lock_until].
Definition shared_members : list member := [lock_shared; unlock_shared; try_lock_shared].
Definition waiter_members : list member := [add_async_waiter; remove_async_waiter; consume_lock].

(** The public members of the classes. *)
Definition members (c : library_mutex) : list member :=
  match c with
  | Parking p => basic_members ++ if ParkingMutex.has_timed p then timed_members else []
  | Ticket _ => basic_members ++ timed_members
  | Spinning _ | RecursiveSpinning _ => basic_members
  | WriterSpinning _ => basic_members ++ shared_members
  | Fast _ => basic_members ++ timed_members ++ native_handle :: waiter_members
  | PlainEventfd | PlainKqueue => basic_members ++ timed_members ++ [native_handle]
  | Win32 has_event => basic_members ++ timed_members ++ native_handle :: if has_event then waiter_members else []
  | System w =>
      match w with
      | PthreadMutex _ => basic_members ++ timed_members
      | PthreadRwlockWriter =>
          basic_members ++ timed_members ++ shared_members ++ [try_lock_shared_for; try_lock_shared_until]
      | _ => basic_members
      end
  end.

(** The specialisations of [concepts_is_recursive]. *)
Definition concepts_is_recursive (c : library_mutex) : bool :=
  match c with RecursiveSpinning _ => true | System w => SystemLock.is_recursive w | _ => false end.

(** A requires-expression. *)
Definition requires (ms : list member) (c : library_mutex) : bool := forallb (fun m => bool_decide (m ∈ members c)) ms.

Definition basic_lockable := requires [lock; unlock].
Definition lockable c := basic_lockable c && requires [try_lock] c.
Definition timed_lockable c := lockable c && requires timed_members c.
Definition shared_lockable := requires shared_members.
Definition shared_timed_lockable c := shared_lockable c && requires [try_lock_shared_for; try_lock_shared_until] c.
Definition mutex := lockable.
Definition timed_mutex := timed_lockable.
Definition shared_mutex c := mutex c && shared_lockable c.
Definition shared_timed_mutex c := timed_mutex c && shared_timed_lockable c.
Definition recursive_mutex c := mutex c && concepts_is_recursive c.
Definition native_async_mutex c := mutex c && requires [native_handle] c.
Definition async_waiter_mutex c := native_async_mutex c && requires waiter_members c.

(** ** Semaphores and events *)

Inductive semaphore :=
| parking_semaphore | timed_semaphore | posix_semaphore | dispatch_semaphore | mach_semaphore
| win32_semaphore | eventfd_semaphore | kqueue_semaphore.

Inductive semaphore_member :=
| acquire | release | try_acquire | try_acquire_for | try_acquire_until | semaphore_native_handle.

#[export] Instance semaphore_member_eq_dec : EqDecision semaphore_member.
Proof. solve_decision. Defined.

Definition semaphore_members (s : semaphore) : list semaphore_member :=
  [acquire; release; try_acquire] ++
  match s with
  | parking_semaphore => []
  | timed_semaphore | posix_semaphore | dispatch_semaphore | mach_semaphore => [try_acquire_for; try_acquire_until]
  | win32_semaphore | eventfd_semaphore | kqueue_semaphore =>
      [try_acquire_for; try_acquire_until; semaphore_native_handle]
  end.

Definition semaphore_requires (ms : list semaphore_member) (s : semaphore) : bool :=
  forallb (fun m => bool_decide (m ∈ semaphore_members s)) ms.

Definition counting_semaphore := semaphore_requires [acquire; release; try_acquire].
Definition timed_counting_semaphore s := counting_semaphore s && semaphore_requires [try_acquire_for; try_acquire_until] s.
Definition native_async_semaphore s := counting_semaphore s && semaphore_requires [semaphore_native_handle] s.

Inductive os := Windows | Apple | Linux | OtherUnix.

Inductive event :=
| parking_auto_reset_event | parking_manual_reset_event
| native_auto_reset_event (o : os) | native_manual_reset_event (o : os).

Inductive event_member := signal | reset | wait | try_wait | try_wait_for | try_wait_until | event_native_handle.

#[export] Instance event_member_eq_dec : EqDecision event_member.
Proof. solve_decision. Defined.

(** The auto-reset event has a handle on Windows only. *)
Definition event_members (e : event) : list event_member :=
  [signal; wait; try_wait; try_wait_for; try_wait_until] ++
  match e with
  | parking_auto_reset_event => []
  | parking_manual_reset_event => [reset]
  | native_auto_reset_event Windows => [event_native_handle]
  | native_auto_reset_event _ => []
  | native_manual_reset_event _ => [reset; event_native_handle]
  end.

Definition event_requires (ms : list event_member) (e : event) : bool :=
  forallb (fun m => bool_decide (m ∈ event_members e)) ms.

Definition auto_reset_event := event_requires [signal; wait; try_wait].
Definition manual_reset_event := event_requires [signal; reset; wait; try_wait].
Definition timed_event := event_requires [try_wait_for; try_wait_until].
Definition native_async_event := event_requires [event_native_handle].

(** ** The aliases for the platform *)

Section aliases.
Context {P : Type} `{ParameterLibrary P}.

(** The alias [native_async_mutex] of native_async_mutex.hpp, and the fast one. *)
Definition native_async_mutex_alias (o : os) : option library_mutex :=
  match o with
  | Windows => Some (Win32 true)
  | Apple => kqueue_mutex ([] : list P)
  | Linux => eventfd_mutex ([] : list P)
  | OtherUnix => None
  end.

Definition native_fast_async_mutex (o : os) : option library_mutex :=
  match o with
  | Windows => Some (Win32 true)
  | Apple => kqueue_mutex [with_backoff]
  | Linux => eventfd_mutex [with_backoff]
  | OtherUnix => None
  end.
End aliases.

Definition native_async_semaphore_alias (o : os) : option semaphore :=
  match o with
  | Windows => Some win32_semaphore
  | Apple => Some kqueue_semaphore
  | Linux => Some eventfd_semaphore
  | OtherUnix => None
  end.

(** ** Theorems *)

Section theorems.
Context {P : Type} `{ParameterLibrary P, !ParameterLaws P}.
Implicit Types ps qs : list P.

(** The templates of the library with policies. *)
Inductive selects : (list P -> option library_mutex) -> Prop :=
| selects_parking : selects parking_mutex
| selects_ticket : selects ticket_mutex
| selects_spinlock : selects spinlock_mutex
| selects_recursive : selects recursive_spinlock_mutex
| selects_shared : selects shared_spinlock_mutex
| selects_eventfd : selects eventfd_mutex
| selects_kqueue : selects kqueue_mutex.

Lemma has_parameter_iff t ps qs : (forall p, p ∈ ps <-> p ∈ qs) -> has_parameter t ps = has_parameter t qs.
Proof. intros Hpq. apply eq_true_iff_eq. by rewrite !has_parameter_law. Qed.

Ltac open_templates := unfold parking_mutex, ticket_mutex, eventfd_mutex, kqueue_mutex, recursive_spinlock_mutex,
  shared_spinlock_mutex, spinlock_mutex, has_backoff_v, has_timed_v, has_recursive_v, has_shared_v in *.

Ltac members_by_cases ps :=
  destruct (valid_parameters _ ps), (has_parameter exponential_backoff_tag ps), (has_parameter timed_tag ps),
    (has_parameter recursive_tag ps), (has_parameter shared_tag ps); intros; simplify_eq/=; by vm_compute.

(** The order of the policies does not matter, nor how often one is repeated. *)
Lemma selection_unordered T ps qs c d :
  selects T -> (forall p, p ∈ ps <-> p ∈ qs) -> T ps = Some c -> T qs = Some d -> c = d.
Proof.
  intros HT Hpq. assert (forall p x, p ∈ x :: ps <-> p ∈ x :: qs) as Hc by (intros; rewrite !elem_of_cons; naive_solver).
  destruct HT; open_templates; rewrite ?(has_parameter_iff _ ps qs Hpq), ?(has_parameter_iff _ (_ :: ps) (_ :: qs)) by done;
    intros; repeat case_match; simplify_eq; done.
Qed.

(** C23: a template that accepts its policies selects a class with the operations
    they ask for, whatever their order: every one is a mutex; [timed] gives the
    parking mutex its timed attempts, [shared] the spinlock its shared side and
    [recursive] its recursion, and [with_backoff] the native ones the registration
    of waiters; and the aliases for the platforms pass their [static_assert]s. *)
Theorem policies_select_members ps :
  (forall T qs c d, selects T -> (forall p, p ∈ ps <-> p ∈ qs) -> T ps = Some c -> T qs = Some d -> c = d) /\
  (forall T c, selects T -> T ps = Some c -> mutex c = true) /\
  (forall c, parking_mutex ps = Some c -> timed_mutex c = true <-> timed ∈ ps) /\
  (forall c, spinlock_mutex ps = Some c ->
     (shared_mutex c = true <-> shared ∈ ps) /\ (recursive_mutex c = true <-> recursive ∈ ps)) /\
  (forall T c, T = eventfd_mutex \/ T = kqueue_mutex -> T ps = Some c ->
     timed_mutex c = true /\ native_async_mutex c = true /\ (async_waiter_mutex c = true <-> with_backoff ∈ ps)).
Proof.
  unfold timed, shared, recursive, with_backoff. split_and!.
  - intros. by eapply selection_unordered.
  - intros T c HT. destruct HT; open_templates; intros; repeat case_match; simplify_eq; done.
  - intros c. rewrite <- has_parameter_law. open_templates. members_by_cases ps.
  - intros c. rewrite <- !has_parameter_law. open_templates. members_by_cases ps.
  - intros T c HT. rewrite <- has_parameter_law. destruct HT as [-> | ->]; open_templates; members_by_cases ps.
Qed.

(** The [static_assert]s of native_async_mutex.hpp and native_async_semaphore.hpp. *)
Theorem aliases_pass_assertions o c :
  (native_fast_async_mutex (P := P) o = Some c -> async_waiter_mutex c = true) /\
  (native_async_mutex_alias (P := P) o = Some c -> native_async_mutex c = true) /\
  (forall s, native_async_semaphore_alias o = Some s -> native_async_semaphore s = true /\ timed_counting_semaphore s = true).
Proof.
  unfold native_fast_async_mutex, native_async_mutex_alias. split_and!.
  - pose proof (proj2 (has_parameter_law exponential_backoff_tag [with_backoff]) ltac:(by left)) as Hb.
    destruct o; open_templates; rewrite ?Hb; intros; repeat case_match; simplify_eq; by vm_compute.
  - destruct o; open_templates; intros; repeat case_match; simplify_eq; by vm_compute.
  - intros s. destruct o; intros; simplify_eq/=; by vm_compute.
Qed.

(** What policies.hpp calls the policies of a [select_mutex]: no template accepts
    them. *)
Theorem select_policies_rejected T ps p :
  selects T -> p = fair \/ p = async_capable -> p ∈ ps -> T ps = None.
Proof.
  intros HT Hp Hin. assert (exists t, p = flag_param t /\ t ∈ [fair_tag; async_capable_tag]) as (t & -> & Ht).
  { destruct Hp as [-> | ->]; [by exists fair_tag; split; [|set_solver]|by exists async_capable_tag; split; [|set_solver]]. }
  assert (forall allowed qs, t ∉ allowed -> flag_param t ∈ qs -> valid_parameters allowed qs = false) as Hv.
  { intros allowed qs Hn Hq. destruct (valid_parameters allowed qs) eqn:E; [|done].
    destruct Hn. by eapply valid_parameters_law. }
  assert (forall l, (t ∈ l -> False) -> valid_parameters l ps = false) as Hv1 by (intros; by apply Hv).
  assert (forall l x, (t ∈ l -> False) -> valid_parameters l (x :: ps) = false) as Hv2 by (intros; apply Hv; [done|by right]).
  destruct HT; open_templates; rewrite ?Hv1, ?Hv2; try done; intros Hbad; set_solver.
Qed.
End theorems.

(** ** Witnesses *)

(** Packs of tags. *)
#[export] Instance tag_parameters : ParameterLibrary tag := {
  flag_param := id;
  has_parameter := fun t ps => bool_decide (t ∈ ps);
  valid_parameters := fun allowed ps => forallb (fun t => bool_decide (t ∈ allowed)) ps
}.

#[export] Instance tag_parameters_laws : ParameterLaws tag.
Proof.
  split; simpl; unfold id.
  - intros t ps. apply bool_decide_eq_true.
  - intros allowed ps t Hv Ht. rewrite forallb_forall in Hv. apply list_elem_of_In in Ht.
    by apply Hv, bool_decide_eq_true in Ht.
Qed.

Lemma policies_select_members_witness :
  parking_mutex [timed_tag; exponential_backoff_tag] = Some (Parking (Policies true true)) /\
  timed_mutex (Parking (Policies true true)) = true.
Proof.
  split; [by vm_compute|].
  destruct (policies_select_members (P := tag) [timed_tag; exponential_backoff_tag]) as (_ & _ & Ht & _).
  apply (Ht (Parking (Policies true true))); [by vm_compute|]. by left.
Defined.
