(* ===== verification/LockedObject.v ===== *)
(** * Values guarded by a mutex: [locked_object] and its guards

    Models [thread_safety/locked_object.hpp] and the adapters and [lock_guard] of
    [thread_safety/annotations.hpp].  The mutex is a template parameter of the
    code; here it is a type with the operations of class [Lockable], and what the
    code relies on is the class [LockableLaws].

    Objects live in a heap and are named by their position in it, which is what
    the pointers of a guard hold.  Guards live in slots: a slot is emptied by the
    guard's destructor, and a new guard takes a new slot.  The two theorems about
    guards quantify over every sequence of constructions, moves, destructions and
    writes, so over every client and every interleaving of clients whose single
    steps are those operations. *)
From stdpp Require Import list option relations.
From S2P Require Import Prelude Machine.
#[local] Open Scope Z_scope.

(** ** The mutex *)

(** The operations of the concepts [basic_lockable], [lockable],
    [timed_lockable] and their shared counterparts.  [m_lock] and
    [m_lock_shared] return [None] where the caller blocks.  [m_excl] and
    [m_shared] say who holds the mutex. *)
Class Lockable (M : Type) := {
  m_init : M;
  m_lock : M -> option M;
  m_try_lock : M -> M * bool;
  m_try_lock_for : Z -> M -> M * bool;
  m_try_lock_until : Z -> M -> M * bool;
  m_unlock : M -> M;
  m_lock_shared : M -> option M;
  m_try_lock_shared : M -> M * bool;
  m_try_lock_shared_for : Z -> M -> M * bool;
  m_try_lock_shared_until : Z -> M -> M * bool;
  m_unlock_shared : M -> M;
  m_excl : M -> bool;
  m_shared : M -> Z
}.

Section holds.
Context `{Lockable M}.
Implicit Types m : M.

(** Changes of the hold: the mutex becomes exclusively held, gains a shared
    holder, or stays as it is. *)
Definition takes_excl m m' : Prop :=
  m_excl m = false /\ m_shared m = 0 /\ m_excl m' = true /\ m_shared m' = 0.

Definition takes_shared m m' : Prop :=
  m_excl m = false /\ m_excl m' = false /\ m_shared m' = m_shared m + 1.

Definition keeps m m' : Prop := m_excl m' = m_excl m /\ m_shared m' = m_shared m.

Definition tries (takes : M -> M -> Prop) m (r : M * bool) : Prop :=
  if r.2 then takes m r.1 else keeps m r.1.
End holds.

(** The documented behaviour of a mutex. *)
Class LockableLaws (M : Type) `{Lockable M} := {
  l_shared : forall m, 0 <= m_shared m;
  l_init : m_excl m_init = false /\ m_shared m_init = 0;
  l_lock : forall m m', m_lock m = Some m' -> takes_excl m m';
  l_lock_free : forall m, m_excl m = false -> m_shared m = 0 -> is_Some (m_lock m);
  l_try_lock : forall m, tries takes_excl m (m_try_lock m);
  l_try_lock_for : forall d m, tries takes_excl m (m_try_lock_for d m);
  l_try_lock_until : forall t m, tries takes_excl m (m_try_lock_until t m);
  l_unlock : forall m, m_excl m = true ->
    m_excl (m_unlock m) = false /\ m_shared (m_unlock m) = m_shared m;
  l_lock_shared : forall m m', m_lock_shared m = Some m' -> takes_shared m m';
  l_try_lock_shared : forall m, tries takes_shared m (m_try_lock_shared m);
  l_try_lock_shared_for : forall d m, tries takes_shared m (m_try_lock_shared_for d m);
  l_try_lock_shared_until : forall t m, tries takes_shared m (m_try_lock_shared_until t m);
  l_unlock_shared : forall m, 0 < m_shared m ->
    m_excl (m_unlock_shared m) = m_excl m /\ m_shared (m_unlock_shared m) = m_shared m - 1
}.

(** A mutex for the witnesses: a readers-writer lock that never fails
    spuriously and whose timed attempts do not wait. *)
Definition rw_excl (m : Z) : option Z := if m =? 0 then Some (-1) else None.
Definition rw_shrd (m : Z) : option Z := if 0 <=? m then Some (m + 1) else None.
Definition rw_try (f : Z -> option Z) (m : Z) : Z * bool :=
  match f m with Some m' => (m', true) | None => (m, false) end.

#[export] Instance rw_mutex : Lockable Z := {
  m_init := 0;
  m_lock := rw_excl;
  m_try_lock := rw_try rw_excl;
  m_try_lock_for _ := rw_try rw_excl;
  m_try_lock_until _ := rw_try rw_excl;
  m_unlock _ := 0;
  m_lock_shared := rw_shrd;
  m_try_lock_shared := rw_try rw_shrd;
  m_try_lock_shared_for _ := rw_try rw_shrd;
  m_try_lock_shared_until _ := rw_try rw_shrd;
  m_unlock_shared m := m - 1;
  m_excl m := m <? 0;
  m_shared m := Z.max 0 m
}.

#[local] Ltac rw_laws :=
  intros; unfold tries, takes_excl, takes_shared, keeps, rw_try, rw_excl, rw_shrd, is_Some in *; simpl in *;
  repeat match goal with |- context [if ?b then _ else _] => destruct b eqn:? end;
  repeat match goal with H : context [if ?b then _ else _] |- _ => destruct b eqn:? end;
  simplify_eq/=; bools;
  repeat match goal with
    |- context [?a <? ?b] => destruct (Z.ltb_spec a b)
  end; try lia; eauto with lia.

#[export] Instance rw_mutex_laws : LockableLaws Z.
Proof. constructor; simpl; rw_laws. Qed.

(** ** Objects and guards *)

Section objects.
Context {M T : Type} `{Lockable M}.

(** [locked_object< T, Mutex >]: the mutex and the value it guards. *)
Record locked_object := LockedObject { mtx_ : M; value_ : T }.

Definition with_mtx (m : M) (o : locked_object) : locked_object :=
  {| mtx_ := m; value_ := value_ o |}.

Definition with_value (v : T) (o : locked_object) : locked_object :=
  {| mtx_ := mtx_ o; value_ := v |}.

(** [explicit locked_object( Args&&... )]. *)
Definition make (v : T) : locked_object := {| mtx_ := m_init; value_ := v |}.

(** The three types of guard: [locked_object_guard< T, M >],
    [locked_object_guard< const T, M >] and [shared_locked_object_guard< T, M >]. *)
Inductive flavour := Mutable | Const | Shared.

#[global] Instance flavour_eq_dec : EqDecision flavour.
Proof. solve_decision. Defined.

Definition exclusive (fl : flavour) : bool :=
  match fl with Mutable | Const => true | Shared => false end.

Abbreviation heap := (list locked_object).

(** The members [ptr_] and [mtx_] point at the value and at the mutex of an
    object; [None] is [nullptr]. *)
Record guard := Guard { flavour_ : flavour; ptr_ : option nat; gmtx_ : option nat }.

Definition guard_ctor (fl : flavour) (a : nat) : guard :=
  {| flavour_ := fl; ptr_ := Some a; gmtx_ := Some a |}.

(** [mtx_->unlock()] and [mtx_->unlock_shared()]. *)
Definition release_mtx (fl : flavour) (m : M) : M :=
  if exclusive fl then m_unlock m else m_unlock_shared m.

Definition release_at (fl : flavour) (p : option nat) (w : heap) : heap :=
  match p with
  | Some a => alter (fun o => with_mtx (release_mtx fl (mtx_ o)) o) a w
  | None => w
  end.

(** [~locked_object_guard()]: [if ( mtx_ ) mtx_->unlock()]. *)
Definition guard_dtor (g : guard) (w : heap) : heap := release_at (flavour_ g) (gmtx_ g) w.

Definition nulled (g : guard) : guard :=
  {| flavour_ := flavour_ g; ptr_ := None; gmtx_ := None |}.

(** The move constructor returns the new guard and what is left of the other. *)
Definition guard_move (other : guard) : guard * guard :=
  ({| flavour_ := flavour_ other; ptr_ := ptr_ other; gmtx_ := gmtx_ other |}, nulled other).

(** [operator=( locked_object_guard&& )]; a self-assignment, which does
    nothing, is a case of [client_step] below. *)
Definition guard_assign (g other : guard) (w : heap) : heap * guard * guard :=
  (release_at (flavour_ g) (gmtx_ g) w,
   {| flavour_ := flavour_ g; ptr_ := ptr_ other; gmtx_ := gmtx_ other |}, nulled other).

(** [*guard]: undefined, here [None], on a null pointer. *)
Definition deref (g : guard) (w : heap) : option T :=
  a ← ptr_ g; value_ <$> w !! a.

(** A write through [T& operator*()]; [const T&] admits none. *)
Definition assign (g : guard) (v : T) (w : heap) : option heap :=
  match flavour_ g, ptr_ g with
  | Mutable, Some a => if decide (a < length w)%nat then Some (alter (with_value v) a w) else None
  | _, _ => None
  end.

(** ** Locking *)

(** [do_lock_], [do_lock_const_] and [do_lock_shared_]: [None] while the caller
    blocks. *)
Definition lock_op (fl : flavour) (m : M) : option M :=
  if exclusive fl then m_lock m else m_lock_shared m.

Definition lock (fl : flavour) (a : nat) (w : heap) : option (heap * guard) :=
  o ← w !! a;
  m' ← lock_op fl (mtx_ o);
  Some (<[a := with_mtx m' o]> w, guard_ctor fl a).

(** What [try_lock], [try_lock_for], [try_lock_until] and the shared attempts
    have in common: a guard, or [std::nullopt]. *)
Definition attempt (op : M -> M * bool) (fl : flavour) (a : nat) (w : heap) : option (heap * option guard) :=
  o ← w !! a;
  let '(m', ok) := op (mtx_ o) in
  Some (<[a := with_mtx m' o]> w, if ok then Some (guard_ctor fl a) else None).

Definition try_lock (fl : flavour) : nat -> heap -> option (heap * option guard) :=
  attempt (if exclusive fl then m_try_lock else m_try_lock_shared) fl.

Definition try_lock_for (fl : flavour) (d : Z) : nat -> heap -> option (heap * option guard) :=
  attempt (if exclusive fl then m_try_lock_for d else m_try_lock_shared_for d) fl.

Definition try_lock_until (fl : flavour) (t : Z) : nat -> heap -> option (heap * option guard) :=
  attempt (if exclusive fl then m_try_lock_until t else m_try_lock_shared_until t) fl.

(** ** Locking around a call *)

(** A callable taking [T&] returns the value it leaves behind, and its result or
    the exception it throws.  While it runs it can look at the objects, so that its
    result can tell whether the mutex is held. *)
Context {R E : Type}.
Abbreviation callable := (heap -> T -> T * (R + E)).

(** A callable taking [const T&] cannot change the value. *)
Definition invoke (fl : flavour) (fn : callable) (w : heap) (v : T) : T * (R + E) :=
  match fl with Mutable => fn w v | _ => (v, (fn w v).2) end.

(** [std::invoke( fn, *guard )] followed by the guard's destructor, which runs
    on a return and on an exception. *)
Definition invoke_guarded (fl : flavour) (fn : callable) (g : guard) (w : heap) : option (heap * (R + E)) :=
  v ← deref g w;
  let '(v', r) := invoke fl fn w v in
  w' ← match fl with Mutable => assign g v' w | _ => Some w end;
  Some (guard_dtor g w', r).

(** [lock_and], [lock_and() const] and [lock_shared_and]. *)
Definition lock_and (fl : flavour) (fn : callable) (a : nat) (w : heap) : option (heap * (R + E)) :=
  '(w1, g) ← lock fl a w;
  invoke_guarded fl fn g w1.

(** [if ( !guard ) return std::nullopt], and otherwise the result. *)
Definition guarded_result (fl : flavour) (fn : callable) (r : heap * option guard) : option (heap * option (R + E)) :=
  match r.2 with
  | None => Some (r.1, None)
  | Some g => '(w2, x) ← invoke_guarded fl fn g r.1; Some (w2, Some x)
  end.

(** [try_lock_and], [try_lock_and() const] and [try_lock_shared_and]. *)
Definition try_lock_and (fl : flavour) (fn : callable) (a : nat) (w : heap) : option (heap * option (R + E)) :=
  r ← try_lock fl a w; guarded_result fl fn r.

(** [try_lock_for_and]. *)
Definition try_lock_for_and (fl : flavour) (d : Z) (fn : callable) (a : nat) (w : heap) : option (heap * option (R + E)) :=
  r ← try_lock_for fl d a w; guarded_result fl fn r.
End objects.

Arguments locked_object : clear implicits.
Arguments LockedObject {_ _} _ _.

(** [if constexpr ( std::is_void_v< ... > )] returns [true] in place of the
    result a void callable does not have. *)
Definition optional_result {E} (r : option (unit + E)) : option (bool + E) :=
  match r with
  | None => None
  | Some (inl _) => Some (inl true)
  | Some (inr e) => Some (inr e)
  end.

(** ** Clients *)

Section clients.
Context {M T : Type} `{Lockable M}.

(** What a client does with objects (by position) and guards (by slot). *)
Inductive client_op :=
| OLock (fl : flavour) (a : nat)
| OTryLock (fl : flavour) (a : nat)
| OTryLockFor (fl : flavour) (d : Z) (a : nat)
| OTryLockUntil (fl : flavour) (t : Z) (a : nat)
| OMove (i : nat)
| OAssign (i j : nat)
| ODestroy (i : nat)
| OWrite (i : nat) (v : T).

Record world := World { objects : list (locked_object M T); slots : list (option guard) }.

Definition add_slot (r : list (locked_object M T) * option guard) (s : list (option guard)) : world :=
  World r.1 (match r.2 with Some g => s ++ [Some g] | None => s end).

Definition client_step (op : client_op) (w : world) : option world :=
  match op with
  | OLock fl a => '(os, g) ← lock fl a (objects w); Some (add_slot (os, Some g) (slots w))
  | OTryLock fl a => r ← try_lock fl a (objects w); Some (add_slot r (slots w))
  | OTryLockFor fl d a => r ← try_lock_for fl d a (objects w); Some (add_slot r (slots w))
  | OTryLockUntil fl t a => r ← try_lock_until fl t a (objects w); Some (add_slot r (slots w))
  | OMove i =>
      g ← mjoin (slots w !! i);
      let '(g', rest) := guard_move g in
      Some (World (objects w) (<[i := Some rest]> (slots w) ++ [Some g']))
  | OAssign i j =>
      g ← mjoin (slots w !! i); g2 ← mjoin (slots w !! j);
      if decide (i = j) then Some w else
      if decide (flavour_ g = flavour_ g2) then
        let '(os, g', rest) := guard_assign g g2 (objects w) in
        Some (World os (<[j := Some rest]> (<[i := Some g']> (slots w))))
      else None
  | ODestroy i =>
      g ← mjoin (slots w !! i);
      Some (World (guard_dtor g (objects w)) (<[i := None]> (slots w)))
  | OWrite i v =>
      g ← mjoin (slots w !! i);
      os ← assign g v (objects w);
      Some (World os (slots w))
  end.

Definition client_reachable : world -> world -> Prop :=
  rtc (fun w w' => exists op, client_step op w = Some w').

(** All objects freshly constructed, no guard yet. *)
Definition fresh (vs : list T) : world := World (make <$> vs) [].

(** The guards in [slots] that hold object [a], by kind of hold. *)
Definition holds (ex : bool) (a : nat) (s : option guard) : bool :=
  match s with
  | Some g => eqb (exclusive (flavour_ g)) ex && bool_decide (gmtx_ g = Some a)
  | None => false
  end.
End clients.

(** ** Helper lemmas *)

Section lemmas.
Context {M T : Type} `{LockableLaws M}.
Abbreviation heap := (list (locked_object M T)).
Implicit Types (m : M) (g : guard) (s : list (option guard)) (w : heap).

Definition takes (fl : flavour) m m' : Prop :=
  if exclusive fl then takes_excl m m' else takes_shared m m'.

(** Exclusive and shared holds of a mutex, as numbers. *)
Definition hold (ex : bool) m : Z := if ex then Z.b2z (m_excl m) else m_shared m.

Definition apart m : Prop := m_excl m = true -> m_shared m = 0.

Lemma lock_op_takes fl m m' : lock_op fl m = Some m' -> takes fl m m'.
Proof. destruct fl; [apply l_lock..|apply l_lock_shared]. Qed.

Lemma try_op_tries fl m :
  tries (takes fl) m ((if exclusive fl then m_try_lock else m_try_lock_shared) m).
Proof. destruct fl; [apply l_try_lock..|apply l_try_lock_shared]. Qed.

Lemma try_for_tries fl d m :
  tries (takes fl) m ((if exclusive fl then m_try_lock_for d else m_try_lock_shared_for d) m).
Proof. destruct fl; [apply l_try_lock_for..|apply l_try_lock_shared_for]. Qed.

Lemma try_until_tries fl t m :
  tries (takes fl) m ((if exclusive fl then m_try_lock_until t else m_try_lock_shared_until t) m).
Proof. destruct fl; [apply l_try_lock_until..|apply l_try_lock_shared_until]. Qed.

Lemma takes_hold fl m m' ex :
  takes fl m m' -> hold ex m' = hold ex m + Z.b2z (eqb (exclusive fl) ex).
Proof. destruct fl, ex; intros Ht; destruct_and! Ht; simpl; simpl in *; try congruence;
  repeat match goal with H : m_excl _ = _ |- _ => rewrite H end; simpl; lia. Qed.

Lemma takes_apart fl m m' : takes fl m m' -> apart m'.
Proof. unfold apart. destruct fl; intros Ht; destruct_and! Ht; congruence. Qed.

Lemma keeps_hold m m' ex : keeps m m' -> hold ex m' = hold ex m.
Proof. intros [E1 E2]. destruct ex; simpl; congruence. Qed.

Lemma keeps_apart m m' : keeps m m' -> apart m -> apart m'.
Proof. unfold keeps, apart. intros [-> ->]. done. Qed.

Lemma release_hold fl m ex :
  0 < hold (exclusive fl) m ->
  hold ex (release_mtx fl m) = hold ex m - Z.b2z (eqb (exclusive fl) ex).
Proof.
  unfold release_mtx. destruct (exclusive fl) eqn:E; simpl; intros Hp.
  - destruct (m_excl m) eqn:Em; [|simpl in Hp; lia]. destruct (l_unlock m Em) as [E1 E2].
    destruct ex; simpl; [by rewrite E1, Em|lia].
  - destruct (l_unlock_shared m Hp) as [E1 E2]. destruct ex; simpl; [rewrite E1; lia|lia].
Qed.

Lemma release_apart fl m : 0 < hold (exclusive fl) m -> apart m -> apart (release_mtx fl m).
Proof.
  unfold apart, release_mtx. destruct (exclusive fl) eqn:E; simpl; intros Hp Ha.
  - destruct (m_excl m) eqn:Em; [|simpl in Hp; lia]. destruct (l_unlock m Em). congruence.
  - destruct (l_unlock_shared m Hp) as [-> ?]. intros Em. rewrite (Ha Em) in Hp. lia.
Qed.

Lemma alter_some {A} (f : A -> A) (l : list A) i x : l !! i = Some x -> alter f i l = <[i := f x]> l.
Proof.
  revert i. induction l as [|y l IH]; intros [|i] Hi; simplify_eq/=; [done|]. f_equal. by apply IH.
Qed.

Lemma lookup_alter_cases {A} (f : A -> A) (l : list A) i j y :
  alter f i l !! j = Some y -> (exists x, l !! j = Some x /\ y = f x) \/ l !! j = Some y.
Proof.
  destruct (decide (j = i)) as [->|].
  - rewrite list_lookup_alter_eq. intros (x & ? & ?)%fmap_Some. eauto.
  - rewrite list_lookup_alter_ne by done. auto.
Qed.

(** The mutexes agree with the guards, and guards with themselves. *)
Definition slot_ok (w : heap) (x : option guard) : Prop :=
  match x with
  | Some g => ptr_ g = gmtx_ g /\ (forall a, gmtx_ g = Some a -> (a < length w)%nat)
  | None => True
  end.

Record guards_ok (w : heap) (s : list (option guard)) : Prop := {
  ok_slots : Forall (slot_ok w) s;
  ok_hold : forall ex a o, w !! a = Some o -> hold ex (mtx_ o) = count (holds ex a) s;
  ok_apart : forall a o, w !! a = Some o -> apart (mtx_ o)
}.

Lemma holds_ctor ex fl a b :
  holds ex b (Some (guard_ctor fl a)) = eqb (exclusive fl) ex && bool_decide (a = b).
Proof. simpl. f_equal. apply bool_decide_ext. naive_solver. Qed.

Lemma slot_ok_length w w' x : length w' = length w -> slot_ok w x -> slot_ok w' x.
Proof. unfold slot_ok. destruct x; [|done]. by intros ->. Qed.

(** Replacing the mutex of one object by one with the given holds. *)
Lemma ok_change w s s' a o m' :
  guards_ok w s -> w !! a = Some o -> apart m' ->
  (forall ex b, count (holds ex b) s' =
     count (holds ex b) s + (if decide (b = a) then hold ex m' - hold ex (mtx_ o) else 0)) ->
  Forall (slot_ok w) s' ->
  guards_ok (<[a := with_mtx m' o]> w) s'.
Proof.
  intros [Hs Hh Ha] Ho Hap Hc Hs'. constructor.
  - eapply Forall_impl; [exact Hs'|]. intros x. apply slot_ok_length, length_insert.
  - intros ex b o'. rewrite list_lookup_insert_Some, Hc. intros [(<- & <- & _)|[Hne Hb]].
    + rewrite decide_True by done. simpl. rewrite <- (Hh ex a o Ho). lia.
    + rewrite decide_False by done. rewrite (Hh ex b o' Hb). lia.
  - intros b o'. rewrite list_lookup_insert_Some. intros [(<- & <- & _)|[Hne Hb]]; eauto.
Qed.

Lemma ok_take fl w s a o m' :
  guards_ok w s -> w !! a = Some o -> takes fl (mtx_ o) m' ->
  guards_ok (<[a := with_mtx m' o]> w) (s ++ [Some (guard_ctor fl a)]).
Proof.
  intros Hok Ho Ht. apply (ok_change w s); [done..|by eapply takes_apart| |].
  - intros ex b. rewrite count_app, (takes_hold _ _ _ ex Ht), count_one, holds_ctor. destruct (decide (b = a)) as [->|Hne].
    + rewrite bool_decide_true, andb_true_r by done. lia.
    + rewrite bool_decide_false, andb_false_r by done. simpl. lia.
  - apply Forall_app_2; [apply Hok|]. constructor; [|done]. split; [done|].
    intros b [= <-]. by eapply lookup_lt_Some.
Qed.

Lemma ok_keep w s a o m' :
  guards_ok w s -> w !! a = Some o -> keeps (mtx_ o) m' -> guards_ok (<[a := with_mtx m' o]> w) s.
Proof.
  intros Hok Ho Hk. apply (ok_change w s); [done..|by eapply keeps_apart, Hok| |apply Hok].
  intros ex b. rewrite (keeps_hold _ _ ex Hk). destruct decide; lia.
Qed.

Lemma ok_attempt op fl w s a r :
  (forall m, tries (takes fl) m (op m)) -> guards_ok w s -> attempt op fl a w = Some r ->
  guards_ok (objects (add_slot r s)) (slots (add_slot r s)).
Proof.
  unfold attempt. intros Hop Hok Hr. destruct (w !! a) as [o|] eqn:Ho; simplify_eq/=.
  specialize (Hop (mtx_ o)). destruct (op (mtx_ o)) as [m' []]; simplify_eq/=.
  - by eapply ok_take.
  - by eapply ok_keep.
Qed.

(** Releasing what slot [i] holds and leaving there a guard that holds nothing. *)
Lemma ok_release w s i g x :
  guards_ok w s -> s !! i = Some (Some g) ->
  (forall ex a, holds ex a x = false) -> slot_ok w x ->
  guards_ok (guard_dtor g w) (<[i := x]> s).
Proof.
  intros Hok Hi Hx Hxo. unfold guard_dtor, release_at.
  assert (Forall (slot_ok w) (<[i := x]> s)) as Hall by (apply Forall_insert; [apply Hok|done]).
  assert (forall ex b, count (holds ex b) (<[i := x]> s) = count (holds ex b) s - Z.b2z (holds ex b (Some g))) as Hc.
  { intros ex b. rewrite (count_insert _ _ _ _ _ Hi), Hx. simpl. lia. }
  destruct (gmtx_ g) as [a|] eqn:Hg.
  - assert (Hlt : (a < length w)%nat).
    { eapply Forall_lookup_1 in Hi; [|apply Hok]. by apply Hi. }
    destruct (lookup_lt_is_Some_2 w a Hlt) as [o Ho].
    assert (0 < hold (exclusive (flavour_ g)) (mtx_ o)) as Hpos.
    { rewrite (ok_hold _ _ Hok _ a o Ho).
      pose proof (count_pos (holds (exclusive (flavour_ g)) a) s i _ Hi) as Hp. simpl in Hp.
      rewrite Hg, eqb_reflx, bool_decide_true in Hp by done. specialize (Hp eq_refl). lia. }
    rewrite (alter_some _ _ _ _ Ho).
    apply (ok_change w s); [done..| |  |done].
    + apply release_apart; [done|by apply (ok_apart _ _ Hok a)].
    + intros ex b. rewrite Hc, (release_hold _ _ ex Hpos). simpl. rewrite Hg.
      destruct (decide (b = a)) as [->|Hne].
      * rewrite bool_decide_true, andb_true_r by done. lia.
      * rewrite bool_decide_false, andb_false_r by naive_solver. simpl. lia.
  - destruct Hok as [? Hh ?]. constructor; [done| |done]. intros ex b o Hb.
    rewrite Hc, (Hh ex b o Hb). simpl. rewrite Hg, andb_false_r. simpl. lia.
Qed.

Lemma ok_same_counts w s s' :
  guards_ok w s -> Forall (slot_ok w) s' ->
  (forall ex b, count (holds ex b) s' = count (holds ex b) s) -> guards_ok w s'.
Proof. intros [? Hh ?] ? Hc. constructor; [done| |done]. intros. rewrite Hc. eauto. Qed.

Lemma slot_ok_lookup w s i x : guards_ok w s -> s !! i = Some x -> slot_ok w x.
Proof. intros Hok Hi. eapply Forall_lookup_1 in Hi; [done|apply Hok]. Qed.

Lemma holds_nulled ex a g : holds ex a (Some (nulled g)) = false.
Proof. simpl. by rewrite andb_false_r. Qed.

Lemma slot_ok_nulled w g : slot_ok w (Some (nulled g)).
Proof. by split. Qed.

Lemma ok_move w s i g :
  guards_ok w s -> s !! i = Some (Some g) -> guards_ok w (<[i := Some (nulled g)]> s ++ [Some g]).
Proof.
  intros Hok Hi. apply (ok_same_counts w s); [done| |].
  - apply Forall_app_2; [apply Forall_insert; [apply Hok|apply slot_ok_nulled]|].
    constructor; [by apply (slot_ok_lookup w s i)|done].
  - intros ex b. rewrite count_app, (count_insert _ _ _ _ _ Hi), holds_nulled, count_one. simpl. lia.
Qed.

Lemma ok_transfer w s i j x g :
  guards_ok w s -> i <> j -> s !! i = Some x -> (forall ex a, holds ex a x = false) ->
  s !! j = Some (Some g) -> guards_ok w (<[j := Some (nulled g)]> (<[i := Some g]> s)).
Proof.
  intros Hok Hne Hi Hx Hj. apply (ok_same_counts w s); [done| |].
  - repeat apply Forall_insert; [apply Hok|by apply (slot_ok_lookup w s j)|apply slot_ok_nulled].
  - intros ex b. rewrite (count_insert _ _ j (Some g)), (count_insert _ _ i x), holds_nulled, Hx by
      (rewrite ?list_lookup_insert_ne; done). simpl. lia.
Qed.

Lemma ok_write w s a v : guards_ok w s -> guards_ok (alter (with_value v) a w) s.
Proof.
  intros [Hs Hh Ha]. constructor.
  - eapply Forall_impl; [exact Hs|]. intros x. apply slot_ok_length, length_alter.
  - intros ex b o. intros [(o' & ? & ->)| ?]%lookup_alter_cases; simpl; eauto.
  - intros b o. intros [(o' & ? & ->)| ?]%lookup_alter_cases; simpl; eauto.
Qed.

Lemma lock_ok fl a (w w' : heap) s g :
  guards_ok w s -> lock fl a w = Some (w', g) -> guards_ok w' (s ++ [Some g]).
Proof.
  unfold lock. intros Hok Hl. destruct (w !! a) as [o|] eqn:Ho; simplify_eq/=.
  destruct (lock_op fl (mtx_ o)) as [m'|] eqn:Em; simplify_eq/=.
  apply ok_take; [done..|]. by apply lock_op_takes.
Qed.

Lemma slot_Some {A} (x : option (option A)) y : mjoin x = Some y -> x = Some (Some y).
Proof. destruct x as [[]|]; simpl; congruence. Qed.

(** Only [assign] changes a value. *)
Definition same_values (w w' : heap) : Prop := value_ <$> w' = value_ <$> w.

Lemma same_values_insert w a o m' : w !! a = Some o -> same_values w (<[a := with_mtx m' o]> w).
Proof.
  intros Ho. unfold same_values. rewrite list_fmap_insert. simpl. apply list_insert_id.
  by rewrite list_lookup_fmap, Ho.
Qed.

Lemma same_values_attempt op fl a w r : attempt op fl a w = Some r -> same_values w r.1.
Proof.
  unfold attempt. intros (o & Ho & Hr)%bind_Some. destruct (op (mtx_ o)) as [m' ok].
  injection Hr as <-. by apply same_values_insert.
Qed.

Lemma same_values_release fl p w : same_values w (release_at fl p w).
Proof.
  destruct p as [a|]; [|done]. simpl. destruct (w !! a) as [o|] eqn:Ho.
  - rewrite (alter_some _ _ _ _ Ho). by apply same_values_insert.
  - unfold same_values. apply list_eq. intros j. rewrite !list_lookup_fmap, list_lookup_alter.
    case_decide; [subst; by rewrite Ho|done].
Qed.

(** A step of a client keeps every value, or is a write. *)
Lemma client_step_values op (w w' : world) :
  client_step op w = Some w' ->
  same_values (objects w) (objects w') \/
  exists i g a v, op = OWrite i v /\ slots w !! i = Some (Some g) /\ flavour_ g = Mutable /\
    ptr_ g = Some a /\ objects w' = alter (with_value v) a (objects w).
Proof.
  intros Hst. destruct op as [fl a|fl a|fl d a|fl t a|i|i j|i|i v]; simpl in Hst;
    apply bind_Some in Hst as (x & Hx & Hst).
  - destruct x as [os g]. injection Hst as <-. left. simpl. unfold lock in Hx.
    apply bind_Some in Hx as (o & Ho & (m' & _ & [= <- <-])%bind_Some). by apply same_values_insert.
  - injection Hst as <-. left. by eapply same_values_attempt.
  - injection Hst as <-. left. by eapply same_values_attempt.
  - injection Hst as <-. left. by eapply same_values_attempt.
  - injection Hst as <-. by left.
  - apply bind_Some in Hst as (y & Hy & Hst). left.
    repeat case_decide; simplify_eq/=; [done|]. apply same_values_release.
  - injection Hst as <-. left. apply same_values_release.
  - apply bind_Some in Hst as (os & Ha & Hst). injection Hst as <-. right. unfold assign in Ha.
    destruct x as [fl [a|] q], fl; try done. simpl in Ha. case_decide; simplify_eq/=.
    apply slot_Some in Hx. eauto 10.
Qed.

(** Every operation of a client keeps the invariant. *)
Lemma client_step_ok op (w w' : world) :
  guards_ok (objects w) (slots w) -> client_step op w = Some w' -> guards_ok (objects w') (slots w').
Proof.
  intros Hok Hst. destruct op as [fl a|fl a|fl d a|fl t a|i|i j|i|i v]; simpl in Hst;
    apply bind_Some in Hst as (x & Hx & Hst); try (apply slot_Some in Hx).
  - destruct x as [os g]. simplify_eq/=. by eapply lock_ok.
  - injection Hst as <-. eapply ok_attempt; [apply (try_op_tries fl)|done..].
  - injection Hst as <-. eapply ok_attempt; [apply (try_for_tries fl d)|done..].
  - injection Hst as <-. eapply ok_attempt; [apply (try_until_tries fl t)|done..].
  - injection Hst as <-. destruct x as [fl p q]. by apply ok_move.
  - apply bind_Some in Hst as (y & Hy%slot_Some & Hst).
    destruct (decide (i = j)); [by simplify_eq|]. destruct (decide (flavour_ x = flavour_ y)) as [E|]; [|done].
    injection Hst as <-. simpl.
    assert ({| flavour_ := flavour_ x; ptr_ := ptr_ y; gmtx_ := gmtx_ y |} = y) as -> by (rewrite E; by destruct y).
    rewrite <- (list_insert_insert_eq (slots w) i (Some y) (Some (nulled x))).
    apply (ok_transfer _ _ i j (Some (nulled x))); [| |apply list_lookup_insert_eq; by apply lookup_lt_Some in Hx| |].
    + apply ok_release; [done..|intros; apply holds_nulled|apply slot_ok_nulled].
    + done.
    + intros; apply holds_nulled.
    + by rewrite list_lookup_insert_ne.
  - injection Hst as <-. by apply ok_release.
  - apply bind_Some in Hst as (os & Ha & Hst). injection Hst as <-. simpl. unfold assign in Ha.
    destruct (flavour_ x), (ptr_ x); try done. case_decide; simplify_eq/=. by apply ok_write.
Qed.

Lemma fresh_ok (vs : list T) : guards_ok (objects (fresh vs)) (slots (fresh vs)).
Proof.
  destruct l_init as [E1 E2].
  constructor; simpl; [done| |]; intros; rewrite list_lookup_fmap_Some in *; destruct_and?;
    repeat match goal with H : exists _, _ |- _ => destruct H as (? & -> & ?) end; simpl.
  - destruct ex; simpl; [by rewrite E1|done].
  - unfold apart. congruence.
Qed.

Lemma client_ok (vs : list T) (w : world) : client_reachable (fresh vs) w -> guards_ok (objects w) (slots w).
Proof.
  intros Hr. assert (guards_ok (objects (fresh vs)) (slots (fresh vs))) as Hi by apply fresh_ok.
  revert Hi. induction Hr as [|? ? ? [op Hst] _ IH]; [done|]. intros Hi.
  apply IH. by eapply client_step_ok.
Qed.
End lemmas.

(** ** Calls under the lock *)

Section calls.
Context {M T : Type} `{LockableLaws M}.
Context {R E : Type}.
Abbreviation heap := (list (locked_object M T)).
Implicit Types (w : heap) (fn : heap -> T -> T * (R + E)).

(** Object [a] after a call of [fn] under the lock: the value [fn] leaves, the
    holds as before, every other object untouched. *)
Definition called (v : T) (a : nat) (o : locked_object M T) (w w' : heap) : Prop :=
  (exists o', w' !! a = Some o' /\ value_ o' = v /\
     forall ex, hold ex (mtx_ o') = hold ex (mtx_ o)) /\
  (forall b, b <> a -> w' !! b = w !! b).

(** Object [a] while the callable runs: its mutex as the lock left it. *)
Abbreviation locked a o m' w := (<[a := with_mtx m' o]> w).

(** Once the lock is taken, the call runs on the guarded value, while the lock is
    held, and the guard's destructor gives the lock back, on a return as on an
    exception. *)
Lemma invoke_guarded_spec fl fn a o m' w :
  w !! a = Some o -> takes fl (mtx_ o) m' ->
  exists w', invoke_guarded fl fn (guard_ctor fl a) (locked a o m' w)
      = Some (w', (invoke fl fn (locked a o m' w) (value_ o)).2) /\
    called (invoke fl fn (locked a o m' w) (value_ o)).1 a o w w'.
Proof.
  intros Ho Ht. pose proof (lookup_lt_Some _ _ _ Ho) as Hlt.
  set (v' := (invoke fl fn (locked a o m' w) (value_ o)).1).
  exists (<[a := {| mtx_ := release_mtx fl m'; value_ := v' |}]> w). split.
  - unfold invoke_guarded, deref. simpl. rewrite list_lookup_insert_eq by done. simpl.
    destruct (invoke fl fn (locked a o m' w) (value_ o)) as [v1 r] eqn:Ei. subst v'. simpl.
    assert (match fl with
            | Mutable => assign (guard_ctor fl a) v1 (<[a := with_mtx m' o]> w)
            | _ => Some (<[a := with_mtx m' o]> w)
            end = Some (<[a := {| mtx_ := m'; value_ := v1 |}]> w)) as ->.
    { destruct fl; unfold assign; simpl in *.
      - rewrite length_insert, decide_True, (alter_some _ _ _ _ (list_lookup_insert_eq _ _ _ Hlt)) by done.
        by rewrite list_insert_insert_eq.
      - by injection Ei as <- _.
      - by injection Ei as <- _. }
    simpl. unfold guard_dtor, release_at. simpl.
    by rewrite (alter_some _ _ _ _ (list_lookup_insert_eq _ _ _ Hlt)), list_insert_insert_eq.
  - split; [|by intros b Hb; rewrite list_lookup_insert_ne].
    eexists. split; [by apply list_lookup_insert_eq|]. split; [done|]. intros ex. simpl.
    rewrite (release_hold _ _ ex), (takes_hold _ _ _ ex Ht); [lia|].
    rewrite (takes_hold _ _ _ _ Ht), eqb_reflx. pose proof (l_shared (mtx_ o)).
    destruct fl; simpl; try lia; destruct (m_excl (mtx_ o)); simpl; lia.
Qed.

(** What a call under an attempted lock does: it runs while the mutex is held. *)
Definition attempted (op : M -> M * bool) (fl : flavour) (fn : heap -> T -> T * (R + E)) (a : nat)
    (o : locked_object M T) (w : heap) (r : option (heap * option (R + E))) : Prop :=
  match r with
  | None => False
  | Some (w', None) => (op (mtx_ o)).2 = false /\ called (value_ o) a o w w'
  | Some (w', Some x) =>
      exists m', op (mtx_ o) = (m', true) /\ takes fl (mtx_ o) m' /\
        x = (invoke fl fn (locked a o m' w) (value_ o)).2 /\
        called (invoke fl fn (locked a o m' w) (value_ o)).1 a o w w'
  end.

Lemma attempt_spec op fl fn a o w :
  (forall m, tries (takes fl) m (op m)) -> w !! a = Some o ->
  attempted op fl fn a o w (r ← attempt op fl a w; guarded_result fl fn r).
Proof.
  intros Hop Ho. unfold attempt. rewrite Ho. simpl. specialize (Hop (mtx_ o)).
  unfold attempted. destruct (op (mtx_ o)) as [m' []] eqn:Em; unfold tries in Hop; simpl in *.
  - destruct (invoke_guarded_spec fl fn a o m' w Ho Hop) as (w' & E1 & Hc).
    unfold guarded_result. simpl. rewrite E1. simpl. by exists m'.
  - split; [done|]. split.
    + exists (with_mtx m' o). split; [apply list_lookup_insert_eq; by eapply lookup_lt_Some|].
      split; [done|]. intros ex. by apply keeps_hold.
    + intros b Hb. by rewrite list_lookup_insert_ne.
Qed.
End calls.

(** ** Concurrent calls of [lock_and] *)

Section concurrent.
Context {M T R E : Type} `{LockableLaws M}.
Abbreviation callable := (T -> T * (R + E)).

(** One object, and as a ghost the callables that have run, oldest first. *)
Record call_state := CallState { heap_ : list (locked_object M T); ran : list callable }.

(** A thread inside [lock_and]: before the lock, with the guard, the callable
    running on the value it has read through the reference, after it. *)
Inductive call_pc :=
| Calling (fn : callable)
| Holding (g : guard) (fn : callable)
| Running (g : guard) (x : T) (fn : callable)
| Ran (g : guard) (r : R + E)
| Outside (r : option (R + E)).

(** [Outside] picks the callable of the next call; the lock, the read through
    [*guard], the write through it and the destructor are single steps. *)
Definition call_step (_ : nat) (ch : callable) (s : call_state) (l : call_pc) : option (call_state * call_pc) :=
  match l with
  | Outside _ => Some (s, Calling ch)
  | Calling fn => '(w, g) ← lock Mutable 0 (heap_ s); Some (CallState w (ran s), Holding g fn)
  | Holding g fn => x ← deref g (heap_ s); Some (s, Running g x fn)
  | Running g x fn =>
      w ← assign g (fn x).1 (heap_ s); Some (CallState w (ran s ++ [fn]), Ran g (fn x).2)
  | Ran g r => Some (CallState (guard_dtor g (heap_ s)) (ran s), Outside (Some r))
  end.

Definition inside (l : call_pc) : bool :=
  match l with Holding _ _ | Running _ _ _ | Ran _ _ => true | _ => false end.

(** Applying callables one after the other. *)
Definition apply_all (fns : list callable) (v : T) : T := fold_left (fun x fn => (fn x).1) fns v.

Definition calls_init (v : T) (n : nat) : config call_state call_pc :=
  Config (CallState [make v] []) (replicate n (Outside None)).

Definition pc_ok (v : T) (l : call_pc) : Prop :=
  match l with
  | Holding g _ | Ran g _ => g = guard_ctor Mutable 0
  | Running g x _ => g = guard_ctor Mutable 0 /\ x = v
  | _ => True
  end.

Definition call_ok (v : T) (c : config call_state call_pc) : Prop :=
  exists o, heap_ (shared c) = [o] /\ value_ o = apply_all (ran (shared c)) v /\
    m_shared (mtx_ o) = 0 /\ Z.b2z (m_excl (mtx_ o)) = count inside (threads c) /\
    Forall (pc_ok (value_ o)) (threads c).

Lemma call_init_ok v n : call_ok v (calls_init v n).
Proof.
  destruct (l_init (M := M)) as [E1 E2]. exists (make v). simpl. rewrite E1, count_all_false.
  - split_and!; try done. by apply Forall_replicate.
  - by intros l [-> _]%elem_of_replicate.
Qed.

(** The thread inside is the only one, so that the others do not depend on the
    value. *)
Lemma others_outside v (ts : list call_pc) i l l' :
  ts !! i = Some l -> inside l = true -> count inside ts <= 1 -> pc_ok v l' ->
  Forall (pc_ok v) (<[i := l']> ts).
Proof.
  intros Hi Hl Hc Hl'. apply Forall_lookup_2. intros j x.
  rewrite list_lookup_insert_Some. intros [(<- & <- & _)|[Hne Hj]]; [done|].
  destruct (inside x) eqn:Ex; [|by destruct x].
  destruct Hne. by eapply (count_unique inside ts).
Qed.

Lemma call_step_ok v i ch c l s' l' :
  call_ok v c -> threads c !! i = Some l -> call_step i ch (shared c) l = Some (s', l') ->
  call_ok v (Config s' (<[i := l']> (threads c))).
Proof.
  intros (o & Hh & Hv & Hsh & Hex & Hall) Hi Hst.
  pose proof (count_insert inside _ _ _ l' Hi) as Hc.
  pose proof (Forall_lookup_1 _ _ _ _ Hall Hi) as Hl.
  assert (count inside (threads c) <= 1) as H1 by (rewrite <- Hex; destruct m_excl; simpl; lia).
  unfold call_ok; simpl.
  destruct l as [fn|g fn|g x fn|g r|r]; simpl in Hst, Hl; rewrite ?Hh in Hst.
  - apply bind_Some in Hst as ([w g] & Hlk & [= <- <-]). unfold lock in Hlk. simpl in Hlk.
    apply bind_Some in Hlk as (m' & (E1 & E2 & E3 & E4)%l_lock & [= <- <-]).
    exists (with_mtx m' o). simpl in *. rewrite E3, E4, Hc, <- Hex, E1. simpl. split_and!; try done.
    apply Forall_insert; done.
  - subst g. simpl in Hst. injection Hst as <- <-. exists o. rewrite Hc, Hex. simpl.
    split_and!; try done; [lia|]. by apply Forall_insert.
  - destruct Hl as [-> ->]. simpl in Hst. injection Hst as <- <-.
    exists (with_value (fn (value_ o)).1 o). simpl. split_and!; try done.
    + unfold apply_all in *. rewrite fold_left_app, <- Hv. done.
    + rewrite Hc, Hex. simpl. lia.
    + by eapply others_outside.
  - subst g. simpl in Hst. injection Hst as <- <-. unfold guard_dtor, release_mtx. simpl.
    assert (m_excl (mtx_ o) = true) as Em.
    { pose proof (count_pos inside _ _ _ Hi eq_refl). destruct (m_excl (mtx_ o)); [done|simpl in *; lia]. }
    destruct (l_unlock _ Em) as [E1 E2].
    exists (with_mtx (m_unlock (mtx_ o)) o). simpl. rewrite E1, E2, Hc, <- Hex, Em. simpl.
    split_and!; try done. by apply Forall_insert.
  - injection Hst as <- <-. exists o. rewrite Hc, Hex. simpl. split_and!; try done; [lia|].
    by apply Forall_insert.
Qed.

Lemma call_reachable_ok v n c : reachable call_step (calls_init v n) c -> call_ok v c.
Proof.
  apply (invariant_reachable call_step (call_ok v)); [apply call_init_ok|].
  intros. by eapply call_step_ok.
Qed.
End concurrent.

(** ** The annotated adapters and [lock_guard] *)

Section adapters.
Context {M : Type} `{LockableLaws M}.

(** [tsa_mutex_adapter< Mutex >]; [GuardCopies.v] has [tsa_recursive_mutex_adapter]. *)
Record tsa_mutex_adapter := TsaMutexAdapter { inner : M }.

Definition adapt (r : M * bool) : tsa_mutex_adapter * bool := (TsaMutexAdapter r.1, r.2).

(** Every method forwards to the mutex.  The adapters have no timed shared attempts: a
    call of one would not compile, and here it would be refused. *)
#[export] Instance tsa_lockable : Lockable tsa_mutex_adapter := {
  m_init := TsaMutexAdapter m_init;
  m_lock x := TsaMutexAdapter <$> m_lock (inner x);
  m_try_lock x := adapt (m_try_lock (inner x));
  m_try_lock_for d x := adapt (m_try_lock_for d (inner x));
  m_try_lock_until t x := adapt (m_try_lock_until t (inner x));
  m_unlock x := TsaMutexAdapter (m_unlock (inner x));
  m_lock_shared x := TsaMutexAdapter <$> m_lock_shared (inner x);
  m_try_lock_shared x := adapt (m_try_lock_shared (inner x));
  m_try_lock_shared_for _ x := (x, false);
  m_try_lock_shared_until _ x := (x, false);
  m_unlock_shared x := TsaMutexAdapter (m_unlock_shared (inner x));
  m_excl x := m_excl (inner x);
  m_shared x := m_shared (inner x)
}.

(** An adapted mutex keeps the promises of the mutex, so that a locked object
    over it is as safe. *)
#[export] Instance tsa_lockable_laws : LockableLaws tsa_mutex_adapter.
Proof.
  constructor; simpl.
  - intros []. apply l_shared.
  - apply l_init.
  - intros x y (m' & E & ->)%fmap_Some. by apply (l_lock (inner x)).
  - intros x E1 E2. destruct (l_lock_free (inner x) E1 E2) as [m' ->]. by eexists.
  - intros x. apply (l_try_lock (inner x)).
  - intros d x. apply (l_try_lock_for d (inner x)).
  - intros t x. apply (l_try_lock_until t (inner x)).
  - intros x. apply (l_unlock (inner x)).
  - intros x y (m' & E & ->)%fmap_Some. by apply (l_lock_shared (inner x)).
  - intros x. apply (l_try_lock_shared (inner x)).
  - by intros d x.
  - by intros t x.
  - intros x. apply (l_unlock_shared (inner x)).
Qed.

(** [lock_guard]: the constructors and the destructor around a scope, whose
    body sees the mutex held. *)
Definition lock_guard_ctor (m : M) : option M := m_lock m.
Definition lock_guard_adopt (m : M) : M := m.
Definition lock_guard_dtor (m : M) : M := m_unlock m.

Definition scoped (body : M -> M) (m : M) : option M :=
  m1 ← lock_guard_ctor m; Some (lock_guard_dtor (body m1)).

Definition scoped_adopt (body : M -> M) (m : M) : M := lock_guard_dtor (body (lock_guard_adopt m)).
End adapters.

Arguments tsa_mutex_adapter : clear implicits.

(** ** The properties *)

Section properties.
Context {M T : Type} `{LockableLaws M}.

(** C6: Whatever a client does with locks, attempts, moves, move assignments,
    writes and destructors, the mutex of every object is exclusively held exactly
    when one live guard holds it exclusively, and shared exactly as often as live
    shared guards hold it: no acquisition is released twice and none is lost.
    When no guard is left at an object, its mutex is free. *)
Theorem guard_accounting (vs : list T) (w : world) a o :
  client_reachable (fresh vs) w -> objects w !! a = Some o ->
  Z.b2z (m_excl (mtx_ o)) = count (holds true a) (slots w) /\
  m_shared (mtx_ o) = count (holds false a) (slots w) /\
  ((forall i g, slots w !! i = Some (Some g) -> gmtx_ g <> Some a) ->
   m_excl (mtx_ o) = false /\ m_shared (mtx_ o) = 0).
Proof.
  intros Hok%client_ok Ho.
  pose proof (ok_hold _ _ Hok true a o Ho) as Ht. pose proof (ok_hold _ _ Hok false a o Ho) as Hf.
  simpl in Ht, Hf. split_and!; [done..|]. intros Hnone.
  assert (forall ex, count (holds ex a) (slots w) = 0) as Hz.
  { intros ex. apply count_all_false. intros [g|] Hin; [|done].
    apply list_elem_of_lookup in Hin as [i Hi]. simpl. rewrite bool_decide_false; [apply andb_false_r|eauto]. }
  rewrite Hz in Ht, Hf. destruct (m_excl (mtx_ o)); simpl in *; [lia|done].
Qed.

(** C7: A guard that has not been moved from refers to a live object whose mutex
    is held in the guard's mode, and dereferencing it yields the object's value;
    a guard with exclusive access is the only guard of its object, so a reference
    that can write is never shared. *)
Theorem guard_protects (vs : list T) (w : world) i g a :
  client_reachable (fresh vs) w -> slots w !! i = Some (Some g) -> ptr_ g = Some a ->
  (exists o, objects w !! a = Some o /\ deref g (objects w) = Some (value_ o) /\
     if exclusive (flavour_ g) then m_excl (mtx_ o) = true else 0 < m_shared (mtx_ o)) /\
  (exclusive (flavour_ g) = true ->
   forall j g', slots w !! j = Some (Some g') -> ptr_ g' = Some a -> j = i).
Proof.
  intros Hok%client_ok Hi Hp.
  destruct (slot_ok_lookup _ _ _ _ Hok Hi) as [Heq Hlt]. rewrite Hp in Heq. symmetry in Heq.
  destruct (lookup_lt_is_Some_2 (objects w) a (Hlt a Heq)) as [o Ho].
  assert (forall j g', slots w !! j = Some (Some g') -> ptr_ g' = Some a ->
    holds (exclusive (flavour_ g')) a (Some g') = true) as Hholds.
  { intros j g' Hj Hp'. destruct (slot_ok_lookup _ _ _ _ Hok Hj) as [Heq' _]. simpl.
    by rewrite eqb_reflx, bool_decide_true by congruence. }
  pose proof (count_pos _ _ _ _ Hi (Hholds i g Hi Hp)) as Hc.
  rewrite <- (ok_hold _ _ Hok _ a o Ho) in Hc. split.
  - exists o. split_and!; [done| |].
    + unfold deref. rewrite Hp. simpl. by rewrite Ho.
    + destruct (exclusive (flavour_ g)); simpl in Hc; [|lia]. by destruct (m_excl (mtx_ o)).
  - intros Hex j g' Hj Hp'. pose proof (count_pos _ _ _ _ Hj (Hholds j g' Hj Hp')) as Hc'.
    rewrite <- (ok_hold _ _ Hok _ a o Ho) in Hc'. rewrite Hex in Hc. simpl in Hc.
    assert (m_excl (mtx_ o) = true) as Em by (destruct (m_excl (mtx_ o)); [done|simpl in Hc; lia]).
    specialize (Hholds j g' Hj Hp') as Hh'. specialize (Hholds i g Hi Hp) as Hh. rewrite Hex in Hh.
    destruct (exclusive (flavour_ g')) eqn:Ex'.
    + apply (count_unique (holds true a) (slots w) j i (Some g') (Some g)); try done.
      rewrite <- (ok_hold _ _ Hok true a o Ho). simpl. destruct m_excl; simpl; lia.
    + simpl in Hc'. rewrite (ok_apart _ _ Hok a o Ho Em) in Hc'. lia.
Qed.

(** The value of an object changes only through a guard of a non-const
    object, while the mutex is held exclusively. *)
Theorem value_needs_guard (vs : list T) (w w' : world) op a o o' :
  client_reachable (fresh vs) w -> client_step op w = Some w' ->
  objects w !! a = Some o -> objects w' !! a = Some o' -> value_ o' <> value_ o ->
  exists i g v, op = OWrite i v /\ slots w !! i = Some (Some g) /\ flavour_ g = Mutable /\
    ptr_ g = Some a /\ m_excl (mtx_ o) = true /\ value_ o' = v.
Proof.
  intros Hr Hst Ho Ho' Hne.
  destruct (client_step_values _ _ _ Hst) as [Hs|(i & g & b & v & -> & Hi & Hf & Hp & Ew)].
  - destruct Hne. apply (f_equal (lookup a)) in Hs. rewrite !list_lookup_fmap, Ho, Ho' in Hs. by injection Hs.
  - exists i, g, v. rewrite Ew, list_lookup_alter, Ho in Ho'. simpl in Ho'.
    case_decide; simplify_eq/=. split_and!; try done.
    + apply client_ok in Hr. destruct (slot_ok_lookup _ _ _ _ Hr Hi) as [Heq _].
      pose proof (count_pos (holds true a) _ _ _ Hi) as Hc. rewrite <- (ok_hold _ _ Hr true a o Ho) in Hc.
      simpl in Hc. rewrite Hf, <- Heq, Hp, bool_decide_true in Hc by done.
      specialize (Hc eq_refl). by destruct (m_excl (mtx_ o)).
    + rewrite Ho in Ho'. by injection Ho' as <-.
Qed.

Context {R E : Type}.
Abbreviation callable := (list (locked_object M T) -> T -> T * (R + E)).
Abbreviation locked a o m' w := (<[a := with_mtx m' o]> w).

(** When the lock is granted, [lock_and] returns what the callable returns
    or throws, leaves the value the callable leaves (none but [T&] can change it),
    gives the mutex back in the state it was taken in, and touches no other
    object; the callable runs while the mutex is held.  On a free mutex the exclusive
    lock is granted. *)
Theorem lock_and_spec fl (fn : callable) a (o : locked_object M T) w :
  w !! a = Some o ->
  (m_excl (mtx_ o) = false -> m_shared (mtx_ o) = 0 -> exclusive fl = true ->
   is_Some (lock_op fl (mtx_ o))) /\
  (forall m', lock_op fl (mtx_ o) = Some m' ->
   takes fl (mtx_ o) m' /\
   exists w', lock_and fl fn a w = Some (w', (invoke fl fn (locked a o m' w) (value_ o)).2) /\
     called (invoke fl fn (locked a o m' w) (value_ o)).1 a o w w').
Proof.
  intros Ho. split.
  - intros E1 E2 Ex. unfold lock_op. rewrite Ex. by apply l_lock_free.
  - intros m' Hm. pose proof (lock_op_takes _ _ _ Hm) as Ht. split; [done|].
    destruct (invoke_guarded_spec fl fn a o m' w Ho Ht) as (w' & E1 & Hc).
    exists w'. split; [|done]. unfold lock_and, lock. rewrite Ho. simpl. rewrite Hm. exact E1.
Qed.

(** C33: [try_lock_and], [try_lock_for_and] and [try_lock_shared_and] always
    return: [std::nullopt] exactly when the mutex refused, with the object as it was;
    and otherwise what the callable returns or throws when it runs on the guarded
    value while the mutex is held, exclusively or shared as the guard asks, with the
    value it leaves behind and the hold given back afterwards. *)
Theorem try_lock_and_spec fl d (fn : callable) a (o : locked_object M T) w :
  w !! a = Some o ->
  attempted (if exclusive fl then m_try_lock else m_try_lock_shared) fl fn a o w (try_lock_and fl fn a w) /\
  attempted (if exclusive fl then m_try_lock_for d else m_try_lock_shared_for d) fl fn a o w
    (try_lock_for_and fl d fn a w).
Proof.
  intros Ho. split.
  - apply attempt_spec; [apply try_op_tries|done].
  - apply attempt_spec; [apply try_for_tries|done].
Qed.

(** C8: Concurrent calls of [lock_and] are atomic: at every moment of every
    interleaving the object's value is the initial one with the callables that
    have run applied one after the other, and every callable still running works
    on that value.  No update is lost. *)
Theorem lock_and_atomic (v : T) n (c : config (call_state (M := M) (R := R) (E := E)) call_pc) :
  reachable call_step (calls_init v n) c ->
  (value_ <$> heap_ (shared c)) = [apply_all (ran (shared c)) v] /\
  (forall i g x fn, threads c !! i = Some (Running g x fn) -> x = apply_all (ran (shared c)) v) /\
  count inside (threads c) <= 1.
Proof.
  intros (o & Hh & Hv & _ & Hex & Hall)%call_reachable_ok. split_and!.
  - rewrite Hh. simpl. by rewrite Hv.
  - intros i g x fn Hi. rewrite <- Hv. by apply (Forall_lookup_1 _ _ _ _ Hall Hi).
  - rewrite <- Hex. destruct m_excl; simpl; lia.
Qed.

(** A scope guarded by [lock_guard], adopting the lock or not, runs its body
    with the mutex held and leaves it free, given a body that keeps it held. *)
Theorem lock_guard_scope (body : M -> M) (m : M) :
  (forall m1, takes_excl m m1 -> keeps m1 (body m1)) ->
  m_excl m = false -> m_shared m = 0 ->
  exists m', scoped body m = Some m' /\ m_excl m' = false /\ m_shared m' = 0 /\
    forall m1, m_lock m = Some m1 -> scoped_adopt body m1 = m'.
Proof.
  intros Hb E1 E2. destruct (l_lock_free m E1 E2) as [m1 Hm].
  destruct (l_lock m m1 Hm) as (_ & _ & E3 & E4). destruct (Hb m1) as [E5 E6]; [done|].
  exists (m_unlock (body m1)). unfold scoped, lock_guard_ctor. rewrite Hm. simpl.
  destruct (l_unlock (body m1)) as [E7 E8]; [congruence|].
  split_and!; try done; [congruence|]. by intros ? [= <-].
Qed.
End properties.

(** ** Witnesses *)

(** An exclusive guard, moved, assigned over another guard's lock, and destroyed. *)
Definition demo_ops : list (client_op (T := Z)) :=
  [OLock Mutable 0; OLock Shared 1; OTryLock Const 1; OTryLockFor Shared 5 1; OMove 1; OAssign 2 3;
   OWrite 0 7; ODestroy 0].

Definition demo_run (ops : list (client_op (T := Z))) : option (world (M := Z) (T := Z)) :=
  foldl (fun w op => w ≫= client_step op) (Some (fresh [1; 2])) ops.

Lemma run_reachable ops (w w' : world (M := Z) (T := Z)) :
  foldl (fun w op => w ≫= client_step op) (Some w) ops = Some w' -> client_reachable w w'.
Proof.
  revert w. induction ops as [|op ops IH]; simpl; intros w Hw; [by simplify_eq; left|].
  destruct (client_step op w) as [w1|] eqn:E1.
  - eapply rtc_l; [by exists op|by apply IH].
  - exfalso. clear -Hw. induction ops; simplify_eq/=; auto.
Qed.

Definition demo_world : world (M := Z) (T := Z) := default (fresh []) (demo_run demo_ops).

Lemma demo_world_reachable : client_reachable (fresh [1; 2]) demo_world.
Proof. apply (run_reachable demo_ops). by vm_compute. Qed.

Lemma held_reachable (w : world (M := Z) (T := Z)) ops :
  demo_run ops = Some w -> client_reachable (fresh [1; 2]) w.
Proof. apply run_reachable. Qed.

Lemma guard_accounting_witness :
  Z.b2z (m_excl (-1)) = 1 /\ m_shared (-1) = 0.
Proof.
  destruct (guard_accounting [1; 2] (default (fresh []) (demo_run (take 6 demo_ops))) 0
    (LockedObject (-1) 1) (held_reachable _ (take 6 demo_ops) eq_refl) eq_refl) as (E1 & E2 & _).
  split; [exact E1|exact E2].
Defined.

Lemma guard_protects_witness :
  exists o, objects demo_world !! 1%nat = Some o /\ value_ o = 2 /\ 0 < m_shared (mtx_ o).
Proof.
  destruct (guard_protects [1; 2] demo_world 2 (guard_ctor Shared 1) 1 demo_world_reachable eq_refl eq_refl)
    as [(o & Ho & Hd & Hs) _].
  exists o. split; [exact Ho|]. split; [|exact Hs]. change (Some 2 = Some (value_ o)) in Hd. by injection Hd.
Defined.

Lemma value_needs_guard_witness :
  exists i g v, OWrite 0 7 = OWrite i v /\ flavour_ g = Mutable /\ ptr_ g = Some 0%nat /\ v = 7.
Proof.
  destruct (value_needs_guard [1; 2] (default (fresh []) (demo_run (take 6 demo_ops)))
    (default (fresh []) (demo_run (take 7 demo_ops))) (OWrite 0 7) 0
    (LockedObject (-1) 1) (LockedObject (-1) 7)
    (held_reachable _ (take 6 demo_ops) eq_refl) eq_refl eq_refl eq_refl) as (i & g & v & E1 & _ & E2 & E3 & _ & E4).
  { simpl. lia. }
  exists i, g, v. simpl in E4. split_and!; try done.
Defined.

(** A callable that increments, throws on 5, and returns what it saw. *)
Definition bump (x : Z) : Z * (Z + unit) := (x + 1, if x =? 5 then inr () else inl x).

(** A callable that increments and returns how the mutexes are held. *)
Definition look (w : list (locked_object Z Z)) (x : Z) : Z * (list Z + unit) := (x + 1, inl (mtx_ <$> w)).

Lemma lock_and_spec_witness :
  exists w', lock_and Mutable (fun _ => bump) 0 [LockedObject 0 5] = Some (w', inr ()) /\ (value_ <$> w') = [6].
Proof.
  destruct (lock_and_spec Mutable (fun _ => bump) 0 (LockedObject 0 5) [LockedObject 0 5] eq_refl) as [_ H].
  destruct (H (-1) eq_refl) as (_ & w' & E & Hc). exists w'. split; [exact E|].
  vm_compute in E. by injection E as <-.
Defined.

Lemma try_lock_and_spec_witness :
  try_lock_and Mutable look 0 [LockedObject 0 3] = Some ([LockedObject 0 4], Some (inl [-1])) /\
  exists m', m_try_lock 0 = (m', true) /\ inl [-1] = (invoke Mutable look [LockedObject m' 3] 3).2.
Proof.
  split; [reflexivity|].
  destruct (proj1 (try_lock_and_spec Mutable 1 look 0 (LockedObject 0 3) [LockedObject 0 3] eq_refl)) as (m' & E & _ & Ex & _).
  exists m'. split; [exact E|exact Ex].
Defined.

Lemma lock_and_atomic_witness :
  exists c : config (call_state (M := Z) (R := Z) (E := unit)) call_pc,
    reachable call_step (calls_init 3 2) c /\ (value_ <$> heap_ (shared c)) = [5].
Proof.
  destruct (exec call_step ((pair 0%nat <$> replicate 5 bump) ++ (pair 1%nat <$> replicate 4 bump))
    (calls_init 3 2)) as [c|] eqn:E; [|by vm_compute in E].
  exists c. apply exec_reachable in E as Hr. split; [done|].
  destruct (lock_and_atomic 3 2 c Hr) as [-> _]. vm_compute in E. injection E as <-. reflexivity.
Defined.

Lemma lock_guard_scope_witness : exists m', scoped (M := Z) id 0 = Some m' /\ m_excl m' = false.
Proof.
  destruct (lock_guard_scope (M := Z) id 0) as (m' & E1 & E2 & _); [by split|done|done|].
  by exists m'.
Defined.
