(* ===== verification/GuardCopies.v ===== *)
(** * The second guard class, the const members and the second adapter

    thread_safety/locked_object.hpp writes its guard twice, [locked_object_guard] and
    [shared_locked_object_guard], and the locking members three times, for mutable, const
    and shared access; thread_safety/annotations.hpp writes its adapter twice.
    [LockedObject.v] models each once, with a parameter; here the other copies are
    translated as they stand, and shown to be the same code, so that its theorems hold of
    them too. *)
From stdpp Require Import list option.
From S2P Require Import Prelude Machine LockedObject.
#[local] Open Scope Z_scope.

Section copies.
Context {M T : Type} `{Lockable M}.
Abbreviation heap := (list (locked_object M T)).

(** ** [shared_locked_object_guard] *)

(** The members [ptr_] and [mtx_]. *)
Record shared_locked_object_guard := SharedGuard { sptr_ : option nat; smtx_ : option nat }.

Definition shared_guard_ctor (a : nat) : shared_locked_object_guard := SharedGuard (Some a) (Some a).

Definition unlock_shared_at (p : option nat) (w : heap) : heap :=
  match p with
  | Some a => alter (fun o => with_mtx (m_unlock_shared (mtx_ o)) o) a w
  | None => w
  end.

Definition shared_guard_dtor (g : shared_locked_object_guard) (w : heap) : heap := unlock_shared_at (smtx_ g) w.

(** The new guard, and what is left of the other. *)
Definition shared_guard_move (other : shared_locked_object_guard) : shared_locked_object_guard * shared_locked_object_guard :=
  (SharedGuard (sptr_ other) (smtx_ other), SharedGuard None None).

Definition shared_guard_assign (g other : shared_locked_object_guard) (w : heap)
  : heap * shared_locked_object_guard * shared_locked_object_guard :=
  (unlock_shared_at (smtx_ g) w, SharedGuard (sptr_ other) (smtx_ other), SharedGuard None None).

Definition shared_deref (g : shared_locked_object_guard) (w : heap) : option T := a ← sptr_ g; value_ <$> w !! a.

(** ** The members of [locked_object] *)

(** [explicit locked_object( Mutex mtx, Args&&... args )]. *)
Definition make_with (m : M) (v : T) : locked_object M T := LockedObject m v.

Definition do_lock_const_ (a : nat) (w : heap) : option (heap * guard) :=
  o ← w !! a; m' ← m_lock (mtx_ o); Some (<[a := with_mtx m' o]> w, guard_ctor Const a).

Definition do_try_lock_const_ (a : nat) (w : heap) : option (heap * option guard) :=
  o ← w !! a; let '(m', ok) := m_try_lock (mtx_ o) in
  Some (<[a := with_mtx m' o]> w, if ok then Some (guard_ctor Const a) else None).

Definition do_try_lock_for_const_ (d : Z) (a : nat) (w : heap) : option (heap * option guard) :=
  o ← w !! a; let '(m', ok) := m_try_lock_for d (mtx_ o) in
  Some (<[a := with_mtx m' o]> w, if ok then Some (guard_ctor Const a) else None).

Definition do_try_lock_until_const_ (tp : Z) (a : nat) (w : heap) : option (heap * option guard) :=
  o ← w !! a; let '(m', ok) := m_try_lock_until tp (mtx_ o) in
  Some (<[a := with_mtx m' o]> w, if ok then Some (guard_ctor Const a) else None).

Definition do_lock_shared_ (a : nat) (w : heap) : option (heap * shared_locked_object_guard) :=
  o ← w !! a; m' ← m_lock_shared (mtx_ o); Some (<[a := with_mtx m' o]> w, shared_guard_ctor a).

Definition do_try_lock_shared_for_ (d : Z) (a : nat) (w : heap) : option (heap * option shared_locked_object_guard) :=
  o ← w !! a; let '(m', ok) := m_try_lock_shared_for d (mtx_ o) in
  Some (<[a := with_mtx m' o]> w, if ok then Some (shared_guard_ctor a) else None).

Definition do_try_lock_shared_until_ (tp : Z) (a : nat) (w : heap) : option (heap * option shared_locked_object_guard) :=
  o ← w !! a; let '(m', ok) := m_try_lock_shared_until tp (mtx_ o) in
  Some (<[a := with_mtx m' o]> w, if ok then Some (shared_guard_ctor a) else None).

(** The const overloads of [try_lock_and] and [try_lock_for_and]: a callable takes
    [const T&], and returns a result or throws. *)
Section calls.
Context {R E : Type}.

Definition call_const (fn : heap -> T -> R + E) (g : guard) (w : heap) : option (heap * (R + E)) :=
  v ← deref g w; Some (guard_dtor g w, fn w v).

Definition try_lock_and_const (fn : heap -> T -> R + E) (a : nat) (w : heap) : option (heap * option (R + E)) :=
  '(w1, g) ← do_try_lock_const_ a w;
  match g with
  | None => Some (w1, None)
  | Some g => '(w2, r) ← call_const fn g w1; Some (w2, Some r)
  end.

Definition try_lock_for_and_const (d : Z) (fn : heap -> T -> R + E) (a : nat) (w : heap) : option (heap * option (R + E)) :=
  '(w1, g) ← do_try_lock_for_const_ d a w;
  match g with
  | None => Some (w1, None)
  | Some g => '(w2, r) ← call_const fn g w1; Some (w2, Some r)
  end.
End calls.

(** ** The copies agree *)

(** A shared guard as a guard of [LockedObject.v]. *)
Definition of_shared (g : shared_locked_object_guard) : guard := Guard Shared (sptr_ g) (smtx_ g).

Lemma shared_guard_agrees g other a (w : heap) :
  of_shared (shared_guard_ctor a) = guard_ctor Shared a /\
  shared_guard_dtor g w = guard_dtor (of_shared g) w /\
  prod_map of_shared of_shared (shared_guard_move other) = guard_move (of_shared other) /\
  (let '(w', x, y) := shared_guard_assign g other w in (w', of_shared x, of_shared y)) =
    guard_assign (of_shared g) (of_shared other) w /\
  shared_deref g w = deref (of_shared g) w.
Proof. by split_and!. Qed.

Lemma const_members_agree a d tp (w : heap) :
  do_lock_const_ a w = lock Const a w /\ do_try_lock_const_ a w = try_lock Const a w /\
  do_try_lock_for_const_ d a w = try_lock_for Const d a w /\ do_try_lock_until_const_ tp a w = try_lock_until Const tp a w.
Proof. by split_and!. Qed.

Lemma shared_members_agree a d tp (w : heap) :
  option_map (fun r => (r.1, of_shared r.2)) (do_lock_shared_ a w) = lock Shared a w /\
  option_map (fun r => (r.1, option_map of_shared r.2)) (do_try_lock_shared_for_ d a w) = try_lock_for Shared d a w /\
  option_map (fun r => (r.1, option_map of_shared r.2)) (do_try_lock_shared_until_ tp a w) = try_lock_until Shared tp a w.
Proof.
  unfold do_lock_shared_, do_try_lock_shared_for_, do_try_lock_shared_until_, lock, lock_op, try_lock_for, try_lock_until, attempt.
  simpl. destruct (w !! a) as [o|]; simpl; [|done]. split_and!.
  - destruct (m_lock_shared (mtx_ o)); reflexivity.
  - destruct (m_try_lock_shared_for d (mtx_ o)) as [m []]; reflexivity.
  - destruct (m_try_lock_shared_until tp (mtx_ o)) as [m []]; reflexivity.
Qed.

(** A callable that takes [const T&] leaves the value it is called with. *)
Lemma const_calls_agree {R E : Type} (fn : heap -> T -> R + E) d a (w : heap) :
  try_lock_and_const fn a w = try_lock_and Const (fun w' v => (v, fn w' v)) a w /\
  try_lock_for_and_const d fn a w = try_lock_for_and Const d (fun w' v => (v, fn w' v)) a w.
Proof.
  unfold try_lock_and_const, try_lock_for_and_const, try_lock_and, try_lock_for_and, guarded_result, call_const, invoke_guarded.
  destruct (const_members_agree a d 0 w) as (_ & -> & -> & _). split.
  - destruct (try_lock Const a w) as [[w1 [g|]]|]; simpl; [|done..]. by destruct (deref g w1).
  - destruct (try_lock_for Const d a w) as [[w1 [g|]]|]; simpl; [|done..]. by destruct (deref g w1).
Qed.

(** The promises of the guards, stated of the copies: a const or shared member that locks
    returns a guard that refers to the object and holds it, a call through it gets the
    value, and its destructor releases exactly that hold. *)
Theorem copies_hold `{!LockableLaws M} a (w : heap) :
  (forall w' g, do_lock_const_ a w = Some (w', g) ->
     exists o o', w !! a = Some o /\ w' !! a = Some o' /\ value_ o' = value_ o /\
       takes_excl (mtx_ o) (mtx_ o') /\ deref g w' = Some (value_ o) /\
       forall o2, guard_dtor g w' !! a = Some o2 -> m_excl (mtx_ o2) = false /\ value_ o2 = value_ o) /\
  (forall w' g, do_lock_shared_ a w = Some (w', g) ->
     exists o o', w !! a = Some o /\ w' !! a = Some o' /\ value_ o' = value_ o /\
       takes_shared (mtx_ o) (mtx_ o') /\ shared_deref g w' = Some (value_ o) /\
       forall o2, shared_guard_dtor g w' !! a = Some o2 -> m_shared (mtx_ o2) = m_shared (mtx_ o) /\ value_ o2 = value_ o).
Proof.
  split; intros w' g.
  - unfold do_lock_const_. destruct (w !! a) as [o|] eqn:Ea; simpl; [|done].
    destruct (m_lock (mtx_ o)) as [m'|] eqn:El; simpl; [|done]. intros [= <- <-]. pose proof (l_lock _ _ El) as Ht.
    assert (<[a := with_mtx m' o]> w !! a = Some (with_mtx m' o)) as Ea'.
    { apply list_lookup_insert_eq. by eapply lookup_lt_Some. }
    exists o, (with_mtx m' o). do 4 (split; [done|]). split; [by unfold deref; simpl; rewrite Ea'|].
    intros o2. unfold guard_dtor. simpl. rewrite list_lookup_alter_eq, Ea'. simpl. intros [= <-]. simpl.
    by destruct (l_unlock m'); [apply Ht|].
  - unfold do_lock_shared_. destruct (w !! a) as [o|] eqn:Ea; simpl; [|done].
    destruct (m_lock_shared (mtx_ o)) as [m'|] eqn:El; simpl; [|done]. intros [= <- <-]. pose proof (l_lock_shared _ _ El) as Ht.
    assert (<[a := with_mtx m' o]> w !! a = Some (with_mtx m' o)) as Ea'.
    { apply list_lookup_insert_eq. by eapply lookup_lt_Some. }
    exists o, (with_mtx m' o). do 4 (split; [done|]). split; [by unfold shared_deref; simpl; rewrite Ea'|].
    intros o2. unfold shared_guard_dtor. simpl. rewrite list_lookup_alter_eq, Ea'. simpl. intros [= <-]. simpl.
    destruct Ht as (_ & _ & Hs). pose proof (l_shared (mtx_ o)). destruct (l_unlock_shared m'); [lia|]. split; [lia|done].
Qed.
End copies.

(** ** [tsa_recursive_mutex_adapter] *)

Section recursive_adapter.
Context {M : Type} `{Lockable M}.

Record tsa_recursive_mutex_adapter := TsaRecursiveMutexAdapter { rmtx_ : M }.

Definition recursive_adapt (r : M * bool) : tsa_recursive_mutex_adapter * bool := (TsaRecursiveMutexAdapter r.1, r.2).

(** Every method forwards; [lock()] and [lock_shared()] return when the mutex's do. *)
Definition tsa_recursive_lockable : Lockable tsa_recursive_mutex_adapter := {|
  m_init := TsaRecursiveMutexAdapter m_init;
  m_lock x := m' ← m_lock (rmtx_ x); Some (TsaRecursiveMutexAdapter m');
  m_try_lock x := recursive_adapt (m_try_lock (rmtx_ x));
  m_try_lock_for d x := recursive_adapt (m_try_lock_for d (rmtx_ x));
  m_try_lock_until t x := recursive_adapt (m_try_lock_until t (rmtx_ x));
  m_unlock x := TsaRecursiveMutexAdapter (m_unlock (rmtx_ x));
  m_lock_shared x := m' ← m_lock_shared (rmtx_ x); Some (TsaRecursiveMutexAdapter m');
  m_try_lock_shared x := recursive_adapt (m_try_lock_shared (rmtx_ x));
  m_try_lock_shared_for _ x := (x, false);
  m_try_lock_shared_until _ x := (x, false);
  m_unlock_shared x := TsaRecursiveMutexAdapter (m_unlock_shared (rmtx_ x));
  m_excl x := m_excl (rmtx_ x);
  m_shared x := m_shared (rmtx_ x)
|}.

Definition of_recursive (x : tsa_recursive_mutex_adapter) : tsa_mutex_adapter M := TsaMutexAdapter (rmtx_ x).

(** The two adapters are the same code, so a recursive one over a mutex with laws has them. *)
Lemma recursive_adapter_agrees (x : tsa_recursive_mutex_adapter) d :
  let R := tsa_recursive_lockable in
  of_recursive <$> @m_lock _ R x = m_lock (of_recursive x) /\
  prod_map of_recursive id (@m_try_lock _ R x) = m_try_lock (of_recursive x) /\
  prod_map of_recursive id (@m_try_lock_for _ R d x) = m_try_lock_for d (of_recursive x) /\
  prod_map of_recursive id (@m_try_lock_until _ R d x) = m_try_lock_until d (of_recursive x) /\
  of_recursive (@m_unlock _ R x) = m_unlock (of_recursive x) /\
  of_recursive <$> @m_lock_shared _ R x = m_lock_shared (of_recursive x) /\
  prod_map of_recursive id (@m_try_lock_shared _ R x) = m_try_lock_shared (of_recursive x) /\
  of_recursive (@m_unlock_shared _ R x) = m_unlock_shared (of_recursive x).
Proof. simpl. split_and!; try done; [destruct (m_lock (rmtx_ x))|destruct (m_lock_shared (rmtx_ x))]; reflexivity. Qed.
End recursive_adapter.
